(** * Tableau tuples: a shallow embedding of [sage/combinat/tableau_tuple.py]

    The development follows the Python source.  Python integers are [Z],
    Python lists and tuples are Rocq lists, exceptions are values of the
    error monad [res], and generators are the lists of the values they
    yield (together with the exception that stopped them, if any). *)

From Stdlib Require Import String.
From Stdlib Require Import List Arith ZArith Lia Bool Permutation Sorted.
From Stdlib Require Import QArith Qcanon Field.
Import ListNotations.
Close Scope Qc_scope.
Close Scope Q_scope.



(** ** Exceptions and the error monad *)

(** The exception classes the module raises or catches, each with the text
    of its message.  A message built with [%] keeps its format string. *)
Inductive exn : Type :=
| IndexError (msg : string)
| ValueError (msg : string)
| TypeError (msg : string).

Inductive res (A : Type) : Type :=
| Ok (a : A)
| Raise (e : exn).
Arguments Ok {A} a.
Arguments Raise {A} e.

Definition bind {A B : Type} (m : res A) (k : A -> res B) : res B :=
  match m with
  | Ok a => k a
  | Raise e => Raise e
  end.

Notation "x <- m ;; k" := (bind m (fun x => k))
  (at level 61, m at next level, right associativity).
Notation "' p <- m ;; k" := (bind m (fun x => let 'p := x in k))
  (at level 61, p pattern, m at next level, right associativity).

Definition is_IndexError {A : Type} (r : res A) : Prop :=
  exists msg, r = Raise (IndexError msg).
Definition is_ValueError {A : Type} (r : res A) : Prop :=
  exists msg, r = Raise (ValueError msg).

Definition is_ValueErrorb (e : exn) : bool :=
  match e with ValueError _ => true | _ => false end.
Definition is_IndexErrorb (e : exn) : bool :=
  match e with IndexError _ => true | _ => false end.

(** ** Python sequences *)

Definition list_index_out_of_range : string := "list index out of range"%string.
Definition tuple_index_out_of_range : string := "tuple index out of range"%string.

(** [l[i]] for a Python integer [i]: a negative index counts from the end,
    and an index outside [-len(l) .. len(l)-1] raises [IndexError]. *)
Definition py_norm_index (len : nat) (i : Z) : option nat :=
  if (0 <=? i)%Z then
    if (i <? Z.of_nat len)%Z then Some (Z.to_nat i) else None
  else
    if (- Z.of_nat len <=? i)%Z then Some (Z.to_nat (Z.of_nat len + i)) else None.

Definition py_getitem {A : Type} (what : string) (l : list A) (i : Z) : res A :=
  match py_norm_index (length l) i with
  | Some j =>
      match nth_error l j with
      | Some a => Ok a
      | None => Raise (IndexError what)
      end
  | None => Raise (IndexError what)
  end.

(** [l[i]] for an index the code keeps nonnegative. *)
Definition getitem {A : Type} (l : list A) (i : nat) : res A :=
  match nth_error l i with
  | Some a => Ok a
  | None => Raise (IndexError list_index_out_of_range)
  end.

Fixpoint set_nth {A : Type} (l : list A) (i : nat) (a : A) : list A :=
  match l, i with
  | [], _ => []
  | _ :: t, O => a :: t
  | h :: t, S j => h :: set_nth t j a
  end.

(** [l[i] = a] for a nonnegative index: in range it updates, out of range
    it raises [IndexError]. *)
Definition setitem {A : Type} (l : list A) (i : nat) (a : A) : res (list A) :=
  if i <? length l then Ok (set_nth l i a)
  else Raise (IndexError "list assignment index out of range"%string).

(** [l[a:b]] for [0 <= a], [0 <= b]. *)
Definition slice {A : Type} (l : list A) (a b : nat) : list A :=
  firstn (b - a) (skipn a l).

(** [l[-1]] as an option: [None] when [l] is empty. *)
Definition last_opt {A : Type} (l : list A) : option A :=
  match rev l with
  | [] => None
  | x :: _ => Some x
  end.

(** [row.index(k)]: the first position of [k], [None] for Python's
    [ValueError]. *)
Fixpoint index_from {A : Type} (eqb : A -> A -> bool) (l : list A) (v : A) (i : nat)
  : option nat :=
  match l with
  | [] => None
  | h :: t => if eqb h v then Some i else index_from eqb t v (S i)
  end.

Definition indexZ (l : list Z) (v : Z) : option nat := index_from Z.eqb l v 0.
Definition indexN (l : list nat) (v : nat) : option nat := index_from Nat.eqb l v 0.

Definition is_not_in_list : string := "x is not in list"%string.

Definition index (l : list nat) (v : nat) : res nat :=
  match indexN l v with
  | Some i => Ok i
  | None => Raise (ValueError is_not_in_list)
  end.

(** [sum(l)] of natural numbers. *)
Definition sum_list (l : list nat) : nat := fold_right Nat.add 0 l.

(** [list(range(1, n+1))] as Python integers. *)
Definition range1 (n : nat) : list Z := map Z.of_nat (seq 1 n).

(** ** The single-tableau primitive *)

(** A tableau is the list of its rows; a tableau tuple the list of its
    components.  The entries of the standard variants are integers. *)
Definition tableau : Type := list (list Z).
Definition tableau_tuple : Type := list tableau.

Fixpoint weakly_decreasing (l : list nat) : bool :=
  match l with
  | a :: (b :: _) as t => (b <=? a) && weakly_decreasing t
  | _ => true
  end.

(** A partition: weakly decreasing positive integers. *)
Definition is_partition (l : list nat) : bool :=
  forallb (fun a => 0 <? a) l && weakly_decreasing l.

(** Modelled from the spec: the validity test of the single-tableau
    constructor [Tableau] (sage.combinat.tableau, not under src/).  The spec
    asks for a list of rows whose lengths form a partition shape. *)
Definition valid_tableau {A : Type} (rows : list (list A)) : bool :=
  is_partition (map (@length A) rows).

Fixpoint strictly_increasing {A : Type} (ltb : A -> A -> bool) (l : list A) : bool :=
  match l with
  | a :: (b :: _) as t => ltb a b && strictly_increasing ltb t
  | _ => true
  end.

(** Modelled from the spec: [Tableau.is_row_strict] (not under src/): the
    entries of every row strictly increase from left to right. *)
Definition is_row_strict {A : Type} (ltb : A -> A -> bool) (rows : list (list A)) : bool :=
  forallb (strictly_increasing ltb) rows.

(** Modelled from the spec: [Tableau.is_column_strict] (not under src/): the
    entries of every column strictly increase from top to bottom. *)
Fixpoint is_column_strict {A : Type} (ltb : A -> A -> bool) (rows : list (list A)) : bool :=
  match rows with
  | upper :: (lower :: _) as t =>
      forallb (fun p => ltb (fst p) (snd p)) (combine upper lower)
      && is_column_strict ltb t
  | _ => true
  end.

(** Modelled from the spec: [Tableau.entries] (not under src/): the entries
    in the order obtained by reading across the rows. *)
Definition entries_of_tableau {A : Type} (rows : list (list A)) : list A := concat rows.

(** Modelled from the spec: [Tableau.conjugate] (not under src/): rows and
    columns are swapped. *)
Definition column {A : Type} (rows : list (list A)) (j : nat) : list A :=
  flat_map (fun row => match nth_error row j with Some x => [x] | None => [] end) rows.

Definition conjugate_tableau {A : Type} (rows : list (list A)) : list (list A) :=
  map (column rows) (seq 0 (length (hd [] rows))).

(** Modelled from the spec: [Tableau.restrict] (not under src/): the cells
    with an entry greater than [m] are dropped. *)
Definition restrict_tableau (rows : tableau) (m : Z) : tableau :=
  filter (fun row => negb (match row with [] => true | _ => false end))
         (map (filter (fun x => (x <=? m)%Z)) rows).

(** ** Raw constructor input *)

(** What a caller may hand to [TableauTuple(...)]: integers and nested lists. *)
#[local] Unset Elimination Schemes.
Inductive pyobj : Type :=
| PInt (z : Z)
| PList (items : list pyobj).
#[local] Set Elimination Schemes.

Fixpoint rows_of_items (items : list pyobj) : option (list (list pyobj)) :=
  match items with
  | [] => Some []
  | PList row :: rest =>
      match rows_of_items rest with
      | Some rows => Some (row :: rows)
      | None => None
      end
  | PInt _ :: _ => None
  end.

Definition not_list_of_iterables : string :=
  "a tableau must be a list of iterables"%string.
Definition not_an_element : string := "%s is not an element of %s"%string.
Definition not_weakly_decreasing : string :=
  "a tableau must be a list of iterables of weakly decreasing length"%string.

(** Modelled from the spec: the constructor [Tableau(s)] (not under src/):
    a list of rows whose lengths form a partition, a [ValueError] otherwise. *)
Definition Tableau (s : pyobj) : res (list (list pyobj)) :=
  match s with
  | PInt _ => Raise (ValueError not_list_of_iterables)
  | PList items =>
      match rows_of_items items with
      | None => Raise (ValueError not_list_of_iterables)
      | Some rows =>
          if valid_tableau rows then Ok rows
          else Raise (ValueError not_weakly_decreasing)
      end
  end.

Fixpoint map_res {A B : Type} (f : A -> res B) (l : list A) : res (list B) :=
  match l with
  | [] => Ok []
  | a :: t => b <- f a ;; bs <- map_res f t ;; Ok (b :: bs)
  end.

(** ** [TableauTuple.__classcall_private__] *)

(** The objects the constructor returns: a bare tableau (an element of
    [Tableaux_all()]) or a tuple (an element of [TableauTuples_all()]). *)
Inductive element : Type :=
| TableauObj (rows : list (list pyobj))
| TableauTupleObj (comps : list (list (list pyobj))).

Inductive ctor_arg : Type :=
| FromElement (e : element)
| FromRaw (t : pyobj).

(** [t == [] or t == [[]]] *)
Definition is_empty_input (t : pyobj) : bool :=
  match t with
  | PList [] => true
  | PList [PList []] => true
  | _ => false
  end.

(** [Tableaux_all().element_class(Tableaux_all(), s)] on a raw [s]. *)
Definition Tableaux_all_element (s : pyobj) : res element :=
  rows <- Tableau s ;; Ok (TableauObj rows).

(** [TableauTuple.__init__]: [t = [Tableau(s) for s in t]]. *)
Definition TableauTuple_init (items : list pyobj) : res element :=
  comps <- map_res Tableau items ;; Ok (TableauTupleObj comps).

Definition TableauTuple_classcall (a : ctor_arg) : res element :=
  match a with
  | FromElement e => Ok e
  | FromRaw t =>
      if is_empty_input t then Ok (TableauObj [])
      else
        match t with
        | PInt _ =>
            (* both coercions fail and are caught; [len(t)] is a TypeError *)
            Raise (TypeError "object of type 'int' has no len()"%string)
        | PList items =>
            match map_res Tableau items with
            | Ok tabs =>
                match tabs with
                | [t0] => Ok (TableauObj t0)
                | _ => Ok (TableauTupleObj tabs)
                end
            | Raise _ =>
                match Tableau t with
                | Ok tab => Ok (TableauObj tab)
                | Raise _ =>
                    match items with
                    | [s] => Tableaux_all_element s
                    | _ => TableauTuple_init items
                    end
                end
            end
        end
  end.

(** [level()]: the number of components; a bare tableau has level 1. *)
Definition level_of (e : element) : nat :=
  match e with
  | TableauObj _ => 1
  | TableauTupleObj comps => length comps
  end.

(** ** Cell addressing: [TableauTuple.__call__] and [TableauTuple.entry] *)

Definition cell_not_contained : string :=
  "the cell (%s, %s, %s) is not contained in the tableau"%string.

(** [self[k][r][c]] *)
Definition getitem3 (t : tableau_tuple) (k r c : Z) : res Z :=
  comp <- py_getitem list_index_out_of_range t k ;;
  row <- py_getitem list_index_out_of_range comp r ;;
  py_getitem tuple_index_out_of_range row c.

(** The two ways of passing the cell: three integers, or one triple. *)
Inductive call_args : Type :=
| Coordinates (k r c : Z)
| CellTriple (cell : Z * Z * Z).

Definition call (t : tableau_tuple) (args : call_args) : res Z :=
  let '(k, r, c) :=
    match args with
    | Coordinates k r c => (k, r, c)
    | CellTriple cell => cell
    end in
  match getitem3 t k r c with
  | Ok v => Ok v
  | Raise (IndexError _) => Raise (IndexError cell_not_contained)
  | Raise e => Raise e
  end.

Definition entry (t : tableau_tuple) (l r c : Z) : res Z := getitem3 t l r c.

(** The cells of [t]: 0-based triples inside the diagram. *)
Definition contains_cell (t : tableau_tuple) (k r c : Z) : Prop :=
  (0 <= k)%Z /\ (0 <= r)%Z /\ (0 <= c)%Z /\
  exists comp row v,
    nth_error t (Z.to_nat k) = Some comp /\
    nth_error comp (Z.to_nat r) = Some row /\
    nth_error row (Z.to_nat c) = Some v.

(** The position Python's indexing reads for the index [i] of a sequence of
    length [len]: a negative index counts from the end. *)
Definition wrapped_index (len : nat) (i : Z) : Z :=
  if (i <? 0)%Z then (Z.of_nat len + i)%Z else i.

(** The address [self[k][r][c]] reads: [k] wrapped in the tuple, [r] in
    the component found there and [c] in the row found there. *)
Definition wrapped_cell (t : tableau_tuple) (k r c : Z) : Z * Z * Z :=
  let k' := wrapped_index (length t) k in
  let comp := nth (Z.to_nat k') t [] in
  let r' := wrapped_index (length comp) r in
  let row := nth (Z.to_nat r') comp [] in
  (k', r', wrapped_index (length row) c).

(** ** [TableauTuple.content] *)

Definition must_be_contained : string :=
  "%s must be contained in the tableaux"%string.

(** The inner loop over the rows of component [l]; [None]: the loop ended
    without returning. *)
Fixpoint content_rows (multicharge : list Z) (l : nat) (k : Z)
         (rows : list (list Z)) (r : nat) : option (res Z) :=
  match rows with
  | [] => None
  | row :: rest =>
      match getitem multicharge l with
      | Raise e => Some (Raise e)
      | Ok a =>
          match indexZ row k with
          | Some c => Some (Ok (a - Z.of_nat r + Z.of_nat c)%Z)
          | None => content_rows multicharge l k rest (S r)
          end
      end
  end.

Fixpoint content_comps (multicharge : list Z) (k : Z)
         (comps : tableau_tuple) (l : nat) : res Z :=
  match comps with
  | [] => Raise (ValueError must_be_contained)
  | tab :: rest =>
      match content_rows multicharge l k tab 0 with
      | Some r => r
      | None => content_comps multicharge k rest (S l)
      end
  end.

Definition content (t : tableau_tuple) (k : Z) (multicharge : list Z) : res Z :=
  content_comps multicharge k t 0.

(** All entries of a tableau tuple, component after component, row after row. *)
Definition entries (t : tableau_tuple) : list Z := concat (map (@entries_of_tableau Z) t).

(** The cell [(l, r, c)] of [t] holds [k]. *)
Definition holds (t : tableau_tuple) (l r c : nat) (k : Z) : Prop :=
  exists comp row,
    nth_error t l = Some comp /\ nth_error comp r = Some row /\
    nth_error row c = Some k.

(** [(l, r, c)] is the first cell holding [k], reading the components in
    order, the rows of a component from the top, a row from the left. *)
Definition first_occurrence (t : tableau_tuple) (k : Z) (l r c : nat) : Prop :=
  exists comp row,
    nth_error t l = Some comp /\ nth_error comp r = Some row /\
    nth_error row c = Some k /\ ~ In k (firstn c row) /\
    (forall r' row', r' < r -> nth_error comp r' = Some row' -> ~ In k row') /\
    (forall l' comp' row', l' < l -> nth_error t l' = Some comp' ->
                           In row' comp' -> ~ In k row').

(** ** [RowStandardTableauTuple.__init__] and [StandardTableauTuple.__init__] *)

(** Python's [<] on lists of integers. *)
Fixpoint list_ltb (a b : list Z) : bool :=
  match a, b with
  | [], [] => false
  | [], _ :: _ => true
  | _ :: _, [] => false
  | x :: a', y :: b' => if (x =? y)%Z then list_ltb a' b' else (x <? y)%Z
  end.

(** [sorted(l)] for integers. *)
Fixpoint insert_sorted (x : Z) (l : list Z) : list Z :=
  match l with
  | [] => [x]
  | y :: t => if (x <=? y)%Z then x :: l else y :: insert_sorted x t
  end.

Definition sorted (l : list Z) : list Z := fold_right insert_sorted [] l.

(** What the two coercion attempts of [__init__] leave in [t]:
    [[Tableau(s) for s in t]], or the one-element list [[Tableau(t)]] whose
    tableau has the components of [t] as rows and their rows as entries. *)
Inductive coerced : Type :=
| AsComponents (comps : tableau_tuple)
| AsOneTableau (rows : list (list (list Z))).

Definition not_valid_msg : string := "not a valid row standard tableau tuple"%string.
Definition row_strict_msg : string := "tableaux must be row strict"%string.
Definition bijection_msg : string :=
  "entries must be in bijection with {1,2,...,n}"%string.
Definition column_strict_msg : string := "tableaux must be column strict"%string.

Definition coerce (t : list (list (list Z))) : res coerced :=
  if forallb (@valid_tableau Z) t then Ok (AsComponents t)
  else if valid_tableau t then Ok (AsOneTableau t)
  else Raise (ValueError not_valid_msg).

(** The checks of [RowStandardTableauTuple.__init__] on the coerced [t]. *)
Definition row_standard_checks (v : coerced) : res coerced :=
  match v with
  | AsComponents comps =>
      if negb (forallb (is_row_strict Z.ltb) comps)
      then Raise (ValueError row_strict_msg)
      else
        let es := sorted (entries comps) in
        if list_eq_dec Z.eq_dec es (range1 (length es)) then Ok v
        else Raise (ValueError bijection_msg)
  | AsOneTableau rows =>
      if negb (is_row_strict list_ltb rows)
      then Raise (ValueError row_strict_msg)
      else
        (* the entries are lists: they equal [1, ..., n] only when there
           are none *)
        match entries_of_tableau rows with
        | [] => Ok v
        | _ :: _ => Raise (ValueError bijection_msg)
        end
  end.

Definition RowStandardTableauTuple_init (t : list (list (list Z))) (check : bool)
  : res coerced :=
  v <- coerce t ;;
  if check then row_standard_checks v else Ok v.

(** The check [StandardTableauTuple.__init__] adds. *)
Definition column_check (v : coerced) : res coerced :=
  match v with
  | AsComponents comps =>
      if negb (forallb (is_column_strict Z.ltb) comps)
      then Raise (ValueError column_strict_msg)
      else Ok v
  | AsOneTableau rows =>
      if negb (is_column_strict list_ltb rows)
      then Raise (ValueError column_strict_msg)
      else Ok v
  end.

Definition StandardTableauTuple_init (t : list (list (list Z))) (check : bool)
  : res coerced :=
  v <- RowStandardTableauTuple_init t check ;;
  if check then column_check v else Ok v.

(** *** The invariants, as the spec words them *)

(** Every row of every component strictly increases from left to right. *)
Definition row_strict (t : tableau_tuple) : Prop :=
  forall comp row i a b,
    In comp t -> In row comp ->
    nth_error row i = Some a -> nth_error row (S i) = Some b -> (a < b)%Z.

(** Every column of every component strictly increases from top to bottom. *)
Definition column_strict (t : tableau_tuple) : Prop :=
  forall comp r upper lower c a b,
    In comp t ->
    nth_error comp r = Some upper -> nth_error comp (S r) = Some lower ->
    nth_error upper c = Some a -> nth_error lower c = Some b -> (a < b)%Z.

(** The multiset of all entries is {1, ..., n}. *)
Definition bijective (t : tableau_tuple) : Prop :=
  Permutation (entries t) (range1 (length (entries t))).

(** Every component is a tableau. *)
Definition valid_tuple (t : tableau_tuple) : Prop :=
  forallb (@valid_tableau Z) t = true.

(** ** [TableauTuple.conjugate] on standard tableau tuples *)

(** The objects met when conjugating a standard tableau tuple. *)
Inductive std_element : Type :=
| StandardTableau (rows : tableau)
    (** a bare standard tableau: the level 1 representation *)
| StandardTableauTuple (comps : tableau_tuple)
    (** an element of the class [StandardTableauTuple] *)
| TableauOfTableaux (comps : tableau_tuple).
    (** [Tableau(conj)]: a plain tableau whose entries are rows *)

(** [element_class(parent, comps)] of a standard parent on a list of
    [Tableau] objects: the coercion [Tableau(s)] returns each unchanged,
    then the checks run. *)
Definition standard_element_class (comps : tableau_tuple) : res std_element :=
  v <- row_standard_checks (AsComponents comps) ;;
  w <- column_check v ;;
  match w with
  | AsComponents c => Ok (StandardTableauTuple c)
  | AsOneTableau c => Ok (TableauOfTableaux c)
  end.

(** Modelled from the spec: the element class of the level one parent
    [StandardTableaux_all()] (sage.combinat.tableau, not under src/), which
    checks that the tableau is standard. *)
Definition level_one_element_class (rows : tableau) : res std_element :=
  _ <- standard_element_class [rows] ;; Ok (StandardTableau rows).

(** [conj == [] or conj == [[]]] for a list of [Tableau] objects. *)
Definition is_empty_tuple (conj : tableau_tuple) : bool :=
  match conj with
  | [] => true
  | [[]] => true
  | _ => false
  end.

Section Parent.

(** The parent of the tableau tuple, through its [__contains__] test on a
    list of tableaux. *)
Variable parent_contains : tableau_tuple -> bool.

(** [TableauTuples._element_constructor_], which [self.parent()(conj)]
    runs, on a list of [Tableau] objects. *)
Definition element_constructor (conj : tableau_tuple) : res std_element :=
  if negb (parent_contains conj) then Raise (ValueError not_an_element)
  else if is_empty_tuple conj then level_one_element_class []
  else
    let tab := conj in
    if parent_contains tab then
      match tab with
      | [t0] => level_one_element_class t0
      | _ => standard_element_class tab
      end
    else Raise (ValueError not_an_element).

Definition conjugate (e : std_element) : res std_element :=
  match e with
  | StandardTableau rows => Ok (StandardTableau (conjugate_tableau rows))
  | TableauOfTableaux comps => Ok (TableauOfTableaux (conjugate_tableau comps))
  | StandardTableauTuple comps =>
      let conj := map (@conjugate_tableau Z) (rev comps) in
      match element_constructor conj with
      | Ok e' => Ok e'
      | Raise _ =>
          match standard_element_class conj with
          | Ok e' => Ok e'
          | Raise _ =>
              if valid_tableau conj then Ok (TableauOfTableaux conj)
              else Raise (ValueError not_weakly_decreasing)
          end
      end
  end.

End Parent.

(** Modelled from the spec: [==] compares by value, and a level 1 tuple
    equals the bare tableau of its component. *)
Definition value_of (e : std_element) : option tableau_tuple :=
  match e with
  | StandardTableau rows => Some [rows]
  | StandardTableauTuple comps => Some comps
  | TableauOfTableaux _ => None
  end.

Definition elem_eq (a b : std_element) : Prop :=
  match value_of a, value_of b with
  | Some x, Some y => x = y
  | _, _ => a = b
  end.

(** A standard tableau tuple: what [StandardTableauTuple.__init__] accepts. *)
Definition is_standard_tuple (comps : tableau_tuple) : Prop :=
  valid_tuple comps /\ row_strict comps /\ bijective comps /\ column_strict comps.

(** ** The operations that build a new tableau tuple, over a store

    [add_entry] assigns into a nested list in place, so these operations are
    modelled over a store of Python objects.  An object is a sequence of
    values; a value is an integer or a reference to an object.  A tableau
    tuple object refers to its component objects, a component to its rows,
    and a row holds the entries. *)

Definition loc : Type := nat.

Inductive value : Type :=
| VInt (z : Z)
| VRef (l : loc).

Definition heap : Type := list (list value).

(** Computations that read and write the store and may raise. *)
Definition M (A : Type) : Type := heap -> heap * res A.

Definition ret {A : Type} (a : A) : M A := fun h => (h, Ok a).
Definition raise {A : Type} (e : exn) : M A := fun h => (h, Raise e).
Definition bindM {A B : Type} (c : M A) (k : A -> M B) : M B :=
  fun h =>
    match c h with
    | (h', Ok a) => k a h'
    | (h', Raise e) => (h', Raise e)
    end.

Notation "x <<- c ;; k" := (bindM c (fun x => k))
  (at level 61, c at next level, right associativity).

(** [try: c except IndexError: handler] *)
Definition catch_IndexError {A : Type} (c : M A) (handler : M A) : M A :=
  fun h =>
    match c h with
    | (h', Raise (IndexError _)) => handler h'
    | other => other
    end.

(** [try: c except ValueError: handler] *)
Definition catch_ValueError {A : Type} (c : M A) (handler : M A) : M A :=
  fun h =>
    match c h with
    | (h', Raise (ValueError _)) => handler h'
    | other => other
    end.

Definition lift {A : Type} (r : res A) : M A := fun h => (h, r).

(** A new object. *)
Definition alloc (content : list value) : M loc :=
  fun h => (h ++ [content], Ok (length h)).

Definition not_an_object : string := "object is not subscriptable"%string.

Definition load (l : loc) : M (list value) :=
  fun h =>
    match nth_error h l with
    | Some content => (h, Ok content)
    | None => (h, Raise (TypeError not_an_object))
    end.

(** In-place update of the object at [l]. *)
Definition store (l : loc) (content : list value) : M unit :=
  fun h => (set_nth h l content, Ok tt).

Definition as_ref (v : value) : M loc :=
  match v with
  | VRef l => ret l
  | VInt _ => raise (TypeError not_an_object)
  end.

Definition as_int (v : value) : M Z :=
  match v with
  | VInt z => ret z
  | VRef _ => raise (TypeError "not an integer"%string)
  end.

Fixpoint mapM {A B : Type} (f : A -> M B) (l : list A) : M (list B) :=
  match l with
  | [] => ret []
  | a :: t => b <<- f a ;; bs <<- mapM f t ;; ret (b :: bs)
  end.

(** *** Reading a tableau tuple from the store *)

Fixpoint ints_of (vs : list value) : option (list Z) :=
  match vs with
  | [] => Some []
  | VInt z :: t => option_map (cons z) (ints_of t)
  | VRef _ :: _ => None
  end.

Fixpoint read_each {A : Type} (f : loc -> option A) (vs : list value)
  : option (list A) :=
  match vs with
  | [] => Some []
  | VRef l :: t =>
      match f l, read_each f t with
      | Some a, Some rest => Some (a :: rest)
      | _, _ => None
      end
  | VInt _ :: _ => None
  end.

Definition read_row (h : heap) (l : loc) : option (list Z) :=
  match nth_error h l with
  | Some vs => ints_of vs
  | None => None
  end.

Definition read_tableau (h : heap) (l : loc) : option tableau :=
  match nth_error h l with
  | Some vs => read_each (read_row h) vs
  | None => None
  end.

(** The components, rows and entries of the tableau tuple object at [l]. *)
Definition read_tuple (h : heap) (l : loc) : option tableau_tuple :=
  match nth_error h l with
  | Some vs => read_each (read_tableau h) vs
  | None => None
  end.

(** *** Building objects *)

Definition new_row (row : list Z) : M value :=
  l <<- alloc (map VInt row) ;; ret (VRef l).

Definition new_tableau (rows : tableau) : M value :=
  refs <<- mapM new_row rows ;; l <<- alloc refs ;; ret (VRef l).

Definition new_tuple (comps : tableau_tuple) : M loc :=
  refs <<- mapM new_tableau comps ;; alloc refs.

(** The nested lists at [l], as the element constructors read them. *)
Definition load_row (v : value) : M (list Z) :=
  l <<- as_ref v ;; vs <<- load l ;; mapM as_int vs.

Definition load_tableau (v : value) : M tableau :=
  l <<- as_ref v ;; vs <<- load l ;; mapM load_row vs.

Definition load_tuple (l : loc) : M tableau_tuple :=
  vs <<- load l ;; mapM load_tableau vs.

(** *** [TableauTuple.to_list]

    [[t.to_list() for t in self]].  Modelled from the spec:
    [Tableau.to_list] (sage.combinat.tableau, not under src/) returns new
    lists, one per row, in a new list. *)
Definition copy_row (v : value) : M value :=
  l <<- as_ref v ;; vs <<- load l ;; l' <<- alloc vs ;; ret (VRef l').

Definition Tableau_to_list (v : value) : M value :=
  l <<- as_ref v ;; rows <<- load l ;;
  copies <<- mapM copy_row rows ;;
  l' <<- alloc copies ;; ret (VRef l').

Definition to_list (self : loc) : M loc :=
  comps <<- load self ;;
  copies <<- mapM Tableau_to_list comps ;;
  alloc copies.

(** *** The shape and its addable cells *)

Definition shape_of (t : tableau_tuple) : list (list nat) :=
  map (map (@length Z)) t.

(** Modelled from the spec: [PartitionTuple.addable_cells] (not under
    src/): the cells that can be added to the shape while keeping it a
    partition tuple: the end of a row that is shorter than the row above
    it, or the start of a new row below the last one. *)
Fixpoint addable_in_rows (k r : nat) (above : option nat) (nu : list nat)
  : list (nat * nat * nat) :=
  match nu with
  | [] =>
      match above with
      | Some 0 => []
      | _ => [(k, r, 0)]
      end
  | len :: rest =>
      (match above with
       | Some a => if len <? a then [(k, r, len)] else []
       | None => [(k, r, len)]
       end) ++ addable_in_rows k (S r) (Some len) rest
  end.

Definition addable_cells (mu : list (list nat)) : list (nat * nat * nat) :=
  concat (map (fun p => addable_in_rows (fst p) 0 None (snd p))
              (combine (seq 0 (length mu)) mu)).

Definition cell_eqb (a b : Z * Z * Z) : bool :=
  let '(k, r, c) := a in
  let '(k', r', c') := b in
  (k =? k')%Z && (r =? r')%Z && (c =? c')%Z.

Definition cell_in (cell : Z * Z * Z) (cells : list (nat * nat * nat)) : bool :=
  existsb (fun p => let '(k, r, c) := p in
                    cell_eqb cell (Z.of_nat k, Z.of_nat r, Z.of_nat c)) cells.

Definition not_addable : string :=
  "%s is not an addable cell of the tableau"%string.

(** *** Item access on stored lists *)

(** [x[i]] where [x] is the list object at [l]. *)
Definition item (l : loc) (i : Z) : M value :=
  vs <<- load l ;; lift (py_getitem list_index_out_of_range vs i).

(** [x[i] = v] where [x] is the list object at [l]. *)
Definition set_item (l : loc) (i : Z) (v : value) : M unit :=
  vs <<- load l ;;
  match py_norm_index (length vs) i with
  | Some j => store l (set_nth vs j v)
  | None => raise (IndexError "list assignment index out of range"%string)
  end.

(** [x.append(v)] where [x] is the list object at [l]. *)
Definition append (l : loc) (v : value) : M unit :=
  vs <<- load l ;; store l (vs ++ [v]).

(** [len(x)] where [x] is the list object at [l]. *)
Definition len (l : loc) : M nat :=
  vs <<- load l ;; ret (length vs).

Section Parent.

(** The parent of [self]: whether [self.parent()(tab)] and
    [self.parent().element_class(self.parent(), tab)] accept the nested
    list [tab]. *)
Variable parent_accepts : tableau_tuple -> bool.
Variable element_class_accepts : tableau_tuple -> bool.

(** The closing [try] chain shared by [add_entry] and [restrict]: the
    first constructor that accepts [tab] builds the new object. *)
Definition same_category (tab : loc) : M loc :=
  t <<- load_tuple tab ;;
  catch_ValueError
    (if parent_accepts t then new_tuple t
     else raise (ValueError not_an_element))
    (catch_ValueError
       (if element_class_accepts t then new_tuple t
        else raise (ValueError not_an_element))
       (if forallb (@valid_tableau Z) t then new_tuple t
        else raise (ValueError not_list_of_iterables))).

(** [TableauTuple.add_entry] *)
Definition add_entry (self : loc) (cell : Z * Z * Z) (m : Z) : M loc :=
  let '(k, r, c) := cell in
  tab <<- to_list self ;;
  _ <<- catch_IndexError
        (tk <<- item tab k ;; tkl <<- as_ref tk ;;
         tkr <<- item tkl r ;; tkrl <<- as_ref tkr ;;
         set_item tkrl c (VInt m))
        (t <<- load_tuple self ;;
         if cell_in (k, r, c) (addable_cells (shape_of t)) then
           tk <<- item tab k ;; tkl <<- as_ref tk ;;
           n <<- len tkl ;;
           _ <<- (if (r =? Z.of_nat n)%Z
                 then (e <<- alloc [] ;; append tkl (VRef e))
                 else ret tt) ;;
           tkr <<- item tkl r ;; tkrl <<- as_ref tkr ;;
           append tkrl (VInt m)
         else raise (IndexError not_addable)) ;;
  same_category tab.



End Parent.

(** The store [h'] extends [h]: every object of [h] is in [h'], unchanged. *)
Definition frame (h h' : heap) : Prop :=
  length h <= length h' /\
  forall l, l < length h -> nth_error h' l = nth_error h l.

(** ** [StandardTableauTuples_shape.__iter__]

    The standard tableau tuples of shape [mu] are generated as flat lists
    [tab] of the numbers 1, ..., n, read along the rows of each component,
    together with the list [cols] of their column indices. *)

(** A shape: the list of its components, each the list of its row lengths. *)
Definition shape : Type := list (list nat).

(** [nu.size()] and [mu.size()] *)
Definition psize (nu : list nat) : nat := sum_list nu.
Definition size (mu : shape) : nat := sum_list (map psize mu).

(** A partition tuple: every component is a partition. *)
Definition is_partition_tuple (mu : shape) : bool := forallb is_partition mu.

(** The running sums [[acc, acc + l0, acc + l0 + l1, ...]]. *)
Fixpoint cumul (acc : nat) (l : list nat) : list nat :=
  match l with
  | [] => [acc]
  | h :: t => acc :: cumul (acc + h) t
  end.

(** [cclen[c][r]] is where row [r] starts inside component [c], and
    [clen[c]] where component [c] starts in the flat list. *)
Definition cclen (mu : shape) : list (list nat) := map (cumul 0) mu.
Definition clen (mu : shape) : list nat := cumul 0 (map psize mu).

(** [tableau_from_list(tab)]: [tab] cut along the rows of [mu]. *)
Definition tableau_from_list (mu : shape) (tab : list nat) : list (list (list nat)) :=
  map (fun c =>
         map (fun r =>
                slice (slice tab (nth c (clen mu) 0) (nth (S c) (clen mu) 0))
                      (nth r (nth c (cclen mu) []) 0)
                      (nth (S r) (nth c (cclen mu) []) 0))
             (seq 0 (length (nth c mu []))))
      (seq 0 (length mu)).

(** A [for] loop whose body may raise. *)
Fixpoint for_each {A S : Type} (body : S -> A -> res S) (l : list A) (s : S) : res S :=
  match l with
  | [] => Ok s
  | a :: t => s' <- body s a ;; for_each body t s'
  end.

(** The tables [cols] and [mins] of the initial tableau:
    [cols[t[row][col]] = col + offset] and [mins[t[row][col]-1] = row + col],
    the components taken last to first. *)
Definition init_cell (offset row : nat) (t : list (list nat))
           (cm : list nat * list nat) (col : nat) : res (list nat * list nat) :=
  trow <- getitem t row ;;
  v <- getitem trow col ;;
  cols <- setitem (fst cm) v (col + offset) ;;
  (* [mins[v - 1]] with [v = 0] would address the last item *)
  mins <- (if v =? 0 then setitem (snd cm) (length (snd cm) - 1) (row + col)
           else setitem (snd cm) (v - 1) (row + col)) ;;
  Ok (cols, mins).

Definition init_row (offset : nat) (t : list (list nat))
           (cm : list nat * list nat) (row : nat) : res (list nat * list nat) :=
  trow <- getitem t row ;;
  for_each (init_cell offset row t) (seq 0 (length trow)) cm.

Definition init_tableau (st : list nat * list nat * nat) (t : list (list nat))
  : res (list nat * list nat * nat) :=
  let '(cm, offset) := st in
  cm' <- for_each (init_row offset t) (seq 0 (length t)) cm ;;
  match t with
  | [] => Ok (cm', offset)
  | row0 :: _ => Ok (cm', offset + length row0)
  end.

Definition init_cols_mins (n : nat) (initial_tableau : list (list (list nat)))
  : res (list nat * list nat) :=
  st <- for_each init_tableau (rev initial_tableau)
                 ((repeat 0 (n + 1), repeat 0 n), 0) ;;
  Ok (fst st).

(** [component]: position [i] of the flat list lies in component
    [component[i]], the components numbered from 1. *)
Definition component (mu : shape) : list nat :=
  concat (map (fun i => repeat (i + 1) (psize (nth i mu []))) (seq 0 (length mu))).

(** The loop of [max_row_in_component]; [None] is the fall through, where
    Python returns [None]. *)
Fixpoint max_row_loop (mu : shape) (tab cols : list nat) (r c : nat) : option nat :=
  match c with
  | O => None
  | S c' =>
      let comp := filter (fun m => (m <? r) && (nth r cols 0 <? nth m cols 0))
                         (slice tab (nth c' (clen mu) 0) (nth c (clen mu) 0)) in
      match last_opt comp with
      | None => max_row_loop mu tab cols r c'
      | Some s => Some s
      end
  end.

Definition max_row_in_component (mu : shape) (tab cols : list nat) (r : nat)
  : res (option nat) :=
  p <- index tab r ;;
  c <- getitem (component mu) p ;;
  Ok (max_row_loop mu tab cols r c).

(** [r = 1; while r < len(cols) and cols[r-1] <= cols[r]: r += 1] *)
Fixpoint find_descent (cols : list nat) (r fuel : nat) : nat :=
  match fuel with
  | O => r
  | S f =>
      if (r <? length cols) && (nth (r - 1) cols 0 <=? nth r cols 0)
      then find_descent cols (S r) f
      else r
  end.

(** [i = 0; while t <= mins[i] or (tab[i] > r or i in changed): i += 1];
    running past the end of [mins] is an [IndexError]. *)
Fixpoint find_pos (mins tab : list nat) (changed : list Z) (r t i fuel : nat)
  : res nat :=
  match fuel with
  | O => Raise (IndexError list_index_out_of_range)
  | S f =>
      mi <- getitem mins i ;;
      if t <=? mi then find_pos mins tab changed r t (S i) f
      else
        ti <- getitem tab i ;;
        if (r <? ti) || existsb (Z.eqb (Z.of_nat i)) changed
        then find_pos mins tab changed r t (S i) f
        else Ok i
  end.

(** The state of the generator between two tableaux. *)
Record state : Type := mkstate { st_tab : list nat; st_cols : list nat }.

(** One round of [for t in range(1, r)]. *)
Definition place (mins tab cols : list nat) (r : nat)
           (acc : list nat * list nat * list Z) (t : nat)
  : res (list nat * list nat * list Z) :=
  let '(new_tab, new_cols, changed) := acc in
  i <- find_pos mins tab changed r t 0 (S (length mins)) ;;
  new_tab' <- setitem new_tab i t ;;
  ti <- getitem tab i ;;
  cti <- getitem cols ti ;;
  new_cols' <- setitem new_cols t cti ;;
  changed' <- setitem changed (t - 1) (Z.of_nat i) ;;
  Ok (new_tab', new_cols', changed').

(** One turn of the [while True] loop: [Ok None] is the [break]. *)
Definition advance (mu : shape) (mins : list nat) (s : state) : res (option state) :=
  let tab := st_tab s in
  let cols := st_cols s in
  let r := find_descent cols 1 (length cols) in
  if r =? length cols then Ok None
  else
    so <- max_row_in_component mu tab cols r ;;
    match so with
    | None => Raise (ValueError is_not_in_list)   (* [tab.index(None)] *)
    | Some sv =>
        ps <- index tab sv ;;
        new_tab <- setitem tab ps r ;;
        cs <- getitem cols sv ;;
        new_cols <- setitem cols r cs ;;
        (* [changed = [-1] * r; changed[-1] = tab.index(s)] *)
        let changed := set_nth (repeat (-1)%Z r) (r - 1) (Z.of_nat ps) in
        acc <- for_each (place mins tab cols r) (seq 1 (r - 1))
                        (new_tab, new_cols, changed) ;;
        let '(nt, nc, _) := acc in
        Ok (Some (mkstate nt nc))
    end.

(** What a run of the generator leaves: the states whose tableaux were
    yielded, and how it ended. *)
Inductive outcome : Type :=
| Done (yielded : list state)
| Failed (e : exn) (yielded : list state)
| OutOfFuel.

Fixpoint run (mu : shape) (mins : list nat) (fuel : nat) (s : state)
         (yielded : list state) : outcome :=
  match fuel with
  | O => OutOfFuel
  | S f =>
      match advance mu mins s with
      | Raise e => Failed e (rev yielded)
      | Ok None => Done (rev yielded)
      | Ok (Some s') => run mu mins f s' (s' :: yielded)
      end
  end.

Definition iter (mu : shape) (fuel : nat) : outcome :=
  let n := size mu in
  let tab := seq 1 n in
  let initial_tableau := tableau_from_list mu tab in
  match init_cols_mins n initial_tableau with
  | Raise e => Failed e [mkstate tab []]
  | Ok (cols, mins) => run mu mins fuel (mkstate tab cols) [mkstate tab cols]
  end.

(** The tableau tuples yielded, in order. *)
Definition yielded_tableaux (mu : shape) (o : outcome) : list (list (list (list nat))) :=
  match o with
  | Done l | Failed _ l => map (fun s => tableau_from_list mu (st_tab s)) l
  | OutOfFuel => []
  end.

(** *** [StandardTableauTuples_shape.cardinality] *)

Fixpoint fact (n : nat) : nat :=
  match n with
  | O => 1
  | S k => n * fact k
  end.

Definition prod_list (l : list nat) : nat := fold_right Nat.mul 1 l.

(** The hook length of the cell in row [i] and column [j] of [nu]. *)
Definition hook (nu : list nat) (i j : nat) : nat :=
  (nth i nu 0 - j - 1) + length (filter (fun l => j <? l) (skipn (S i) nu)) + 1.

Definition hook_product (nu : list nat) : nat :=
  prod_list (concat (map (fun i => map (hook nu i) (seq 0 (nth i nu 0)))
                         (seq 0 (length nu)))).

(** Modelled from the spec: [StandardTableaux(nu).cardinality()]
    (sage.combinat.tableau, not under src/), the number of standard
    tableaux of shape [nu], given by the hook length formula. *)
Definition standard_tableaux_cardinality (nu : list nat) : nat :=
  fact (psize nu) / hook_product nu.

(** [factorial(n) * prod(|Std(nu)| / |nu|! for nu in mu)].  The factors are
    rationals; their product is taken as one fraction. *)
Definition cardinality (mu : shape) : nat :=
  fact (size mu) * prod_list (map standard_tableaux_cardinality mu)
  / prod_list (map (fun nu => fact (psize nu)) mu).

(** [prod(...)] of rationals: the factors multiplied from the left,
    starting with 1. *)
Definition prod_rational (l : list Q) : Q := fold_left Qmult l 1%Q.

(** [Integer(q)] of a rational [q] is its numerator when [q], in lowest
    terms, has the denominator 1, and a [TypeError] otherwise. *)
Definition no_conversion : string := "no conversion of this rational to integer"%string.

Definition Integer_of_rational (q : Q) : res Z :=
  let r := Qred q in
  if (Qden r =? 1)%positive then Ok (Qnum r) else Raise (TypeError no_conversion).

(** [factorial(mu.size()) * prod(|Std(nu)| / factorial(nu.size()) for nu in mu)],
    a rational: the quotient of two integers is one. *)
Definition closed_form (mu : shape) : Q :=
  (inject_Z (Z.of_nat (fact (size mu)))
   * prod_rational
       (map (fun nu => inject_Z (Z.of_nat (standard_tableaux_cardinality nu))
                       / inject_Z (Z.of_nat (fact (psize nu))))
            mu))%Q.

(** [cardinality()] with its rational arithmetic and the conversion
    [Integer(...)], which raises on a fraction. *)
Definition StandardTableauTuples_shape_cardinality (mu : shape) : res Z :=
  Integer_of_rational (closed_form mu).

(** * Facts about lists *)

Lemma nth_error_set_nth_other {A : Type} (l : list A) (i j : nat) (a : A) :
  i <> j -> nth_error (set_nth l i a) j = nth_error l j.
Proof.
  revert i j. induction l as [|x l IH]; intros i j Hne; [reflexivity|].
  destruct i as [|i], j as [|j]; cbn; try reflexivity; try lia.
  apply IH. lia.
Qed.

Lemma nth_error_set_nth_same {A : Type} (l : list A) (i : nat) (a : A) :
  i < length l -> nth_error (set_nth l i a) i = Some a.
Proof.
  revert i. induction l as [|x l IH]; intros i Hi; [cbn in Hi; lia|].
  destruct i as [|i]; cbn; [reflexivity|]. apply IH. cbn in Hi. lia.
Qed.

Lemma length_set_nth {A : Type} (l : list A) (i : nat) (a : A) :
  length (set_nth l i a) = length l.
Proof.
  revert i. induction l as [|x l IH]; intros i; [reflexivity|].
  destruct i; cbn; [reflexivity | now rewrite IH].
Qed.

Lemma weakly_decreasing_cons (a : nat) (l : list nat) :
  weakly_decreasing (a :: l) = true ->
  weakly_decreasing l = true /\ Forall (fun b => b <= a) l.
Proof.
  revert a. induction l as [|b l IH]; intros a H.
  - split; [reflexivity | constructor].
  - change (weakly_decreasing (a :: b :: l))
      with ((b <=? a) && weakly_decreasing (b :: l)) in H.
    apply andb_true_iff in H. destruct H as [Hba Hl].
    apply Nat.leb_le in Hba. split; [assumption|].
    constructor; [assumption|].
    destruct (IH b Hl) as [_ Hall].
    eapply Forall_impl; [|exact Hall]. cbn. intros c Hc. lia.
Qed.

(** * The constructor on empty input *)

(** C10: [TableauTuple([])] and [TableauTuple([[]])] both return, without an
    error, the empty bare tableau, whose level is 1; in particular the two
    results are equal. *)
Theorem TableauTuple_empty_inputs :
  TableauTuple_classcall (FromRaw (PList [])) = Ok (TableauObj []) /\
  TableauTuple_classcall (FromRaw (PList [PList []])) = Ok (TableauObj []) /\
  level_of (TableauObj []) = 1 /\
  TableauTuple_classcall (FromRaw (PList []))
  = TableauTuple_classcall (FromRaw (PList [PList []])).
Proof. repeat split. Qed.

(** * Cell addressing *)

Lemma py_norm_index_nonneg (len : nat) (i : Z) :
  (0 <= i)%Z ->
  py_norm_index len i = if (i <? Z.of_nat len)%Z then Some (Z.to_nat i) else None.
Proof.
  intros Hi. unfold py_norm_index.
  destruct (0 <=? i)%Z eqn:E; [reflexivity | apply Z.leb_gt in E; lia].
Qed.

Lemma py_norm_index_lt (len : nat) (i : Z) (j : nat) :
  py_norm_index len i = Some j -> j < len.
Proof.
  unfold py_norm_index.
  destruct (0 <=? i)%Z eqn:E0.
  - destruct (i <? Z.of_nat len)%Z eqn:E1; [|discriminate].
    intros [= <-]. apply Z.leb_le in E0. apply Z.ltb_lt in E1. lia.
  - destruct (- Z.of_nat len <=? i)%Z eqn:E1; [|discriminate].
    intros [= <-]. apply Z.leb_gt in E0. apply Z.leb_le in E1. lia.
Qed.

Lemma py_getitem_nonneg {A : Type} (what : string) (l : list A) (i : Z) :
  (0 <= i)%Z ->
  py_getitem what l i =
  match nth_error l (Z.to_nat i) with
  | Some a => Ok a
  | None => Raise (IndexError what)
  end.
Proof.
  intros Hi. unfold py_getitem. rewrite py_norm_index_nonneg by assumption.
  destruct (i <? Z.of_nat (length l))%Z eqn:E.
  - reflexivity.
  - apply Z.ltb_ge in E.
    assert (H : nth_error l (Z.to_nat i) = None) by (apply nth_error_None; lia).
    now rewrite H.
Qed.

(** Every outcome of [l[i]] is a value of [l] or an [IndexError]. *)
Lemma py_getitem_cases {A : Type} (what : string) (l : list A) (i : Z) :
  (exists j a, py_norm_index (length l) i = Some j /\ nth_error l j = Some a
               /\ py_getitem what l i = Ok a)
  \/ py_getitem what l i = Raise (IndexError what).
Proof.
  unfold py_getitem. destruct (py_norm_index (length l) i) as [j|] eqn:E.
  - destruct (nth_error l j) as [a|] eqn:En.
    + left. now exists j, a.
    + now right.
  - now right.
Qed.

Lemma getitem3_nonneg_not_contained (t : tableau_tuple) (k r c : Z) :
  (0 <= k)%Z -> (0 <= r)%Z -> (0 <= c)%Z ->
  ~ contains_cell t k r c ->
  is_IndexError (getitem3 t k r c).
Proof.
  intros Hk Hr Hc Hn. unfold getitem3.
  rewrite (py_getitem_nonneg _ t k Hk).
  destruct (nth_error t (Z.to_nat k)) as [comp|] eqn:Ek; cbn.
  2:{ now eexists. }
  rewrite (py_getitem_nonneg _ comp r Hr).
  destruct (nth_error comp (Z.to_nat r)) as [row|] eqn:Er; cbn.
  2:{ now eexists. }
  rewrite (py_getitem_nonneg _ row c Hc).
  destruct (nth_error row (Z.to_nat c)) as [v|] eqn:Ec.
  - exfalso. apply Hn. repeat split; try assumption. now exists comp, row, v.
  - now eexists.
Qed.

(** The outcome of [self[k][r][c]] for arbitrary integers: the entry of the
    cell the (possibly negative) coordinates wrap to, or an [IndexError]. *)
Lemma getitem3_cases (t : tableau_tuple) (k r c : Z) :
  (exists k' r' c' comp row v,
      py_norm_index (length t) k = Some k' /\ nth_error t k' = Some comp /\
      py_norm_index (length comp) r = Some r' /\ nth_error comp r' = Some row /\
      py_norm_index (length row) c = Some c' /\ nth_error row c' = Some v /\
      getitem3 t k r c = Ok v)
  \/ is_IndexError (getitem3 t k r c).
Proof.
  unfold getitem3.
  destruct (py_getitem_cases list_index_out_of_range t k)
    as [(k' & comp & Hk & Hk' & ->)| ->]; cbn; [|right; now eexists].
  destruct (py_getitem_cases list_index_out_of_range comp r)
    as [(r' & row & Hr & Hr' & ->)| ->]; cbn; [|right; now eexists].
  destruct (py_getitem_cases tuple_index_out_of_range row c)
    as [(c' & v & Hc & Hc' & Hv)| ->]; [|right; now eexists].
  left. exists k', r', c', comp, row, v. now rewrite Hv.
Qed.

Lemma call_of_getitem3 (t : tableau_tuple) (k r c : Z) :
  (forall v, getitem3 t k r c = Ok v -> call t (Coordinates k r c) = Ok v) /\
  (is_IndexError (getitem3 t k r c) ->
   call t (Coordinates k r c) = Raise (IndexError cell_not_contained)).
Proof.
  unfold call. split.
  - intros v ->. reflexivity.
  - intros [msg ->]. reflexivity.
Qed.

Lemma call_triple (t : tableau_tuple) (k r c : Z) :
  call t (CellTriple (k, r, c)) = call t (Coordinates k r c).
Proof. reflexivity. Qed.

Lemma py_getitem_wrapped {A : Type} (what : string) (l : list A) (i : Z) :
  (exists j a, py_norm_index (length l) i = Some j /\
               wrapped_index (length l) i = Z.of_nat j /\
               nth_error l j = Some a /\ py_getitem what l i = Ok a)
  \/
  (((wrapped_index (length l) i < 0)%Z \/
    nth_error l (Z.to_nat (wrapped_index (length l) i)) = None) /\
   py_getitem what l i = Raise (IndexError what)).
Proof.
  unfold py_getitem, py_norm_index, wrapped_index.
  destruct (0 <=? i)%Z eqn:E0.
  - apply Z.leb_le in E0.
    assert (En : (i <? 0)%Z = false) by (apply Z.ltb_ge; lia). rewrite En.
    destruct (i <? Z.of_nat (length l))%Z eqn:E1.
    + apply Z.ltb_lt in E1.
      destruct (nth_error l (Z.to_nat i)) as [a|] eqn:Ea.
      * left. exists (Z.to_nat i), a. repeat split; try assumption. lia.
      * apply nth_error_None in Ea. lia.
    + apply Z.ltb_ge in E1. right. split; [|reflexivity].
      right. apply nth_error_None. lia.
  - apply Z.leb_gt in E0.
    assert (En : (i <? 0)%Z = true) by (apply Z.ltb_lt; lia). rewrite En.
    destruct (- Z.of_nat (length l) <=? i)%Z eqn:E1.
    + apply Z.leb_le in E1.
      destruct (nth_error l (Z.to_nat (Z.of_nat (length l) + i))) as [a|] eqn:Ea.
      * left. exists (Z.to_nat (Z.of_nat (length l) + i)), a.
        repeat split; try assumption. lia.
      * apply nth_error_None in Ea. lia.
    + apply Z.leb_gt in E1. right. split; [|reflexivity]. left. lia.
Qed.

(** [self[k][r][c]] for arbitrary integers reads the cell the address wraps
    to, and raises an [IndexError] exactly when that is no cell. *)
Lemma getitem3_wrapped (t : tableau_tuple) (k r c : Z) :
  (exists k' r' c' comp row v,
      py_norm_index (length t) k = Some k' /\ nth_error t k' = Some comp /\
      nth_error comp r' = Some row /\ nth_error row c' = Some v /\
      wrapped_cell t k r c = (Z.of_nat k', Z.of_nat r', Z.of_nat c') /\
      getitem3 t k r c = Ok v)
  \/
  ((forall k' r' c', wrapped_cell t k r c = (k', r', c') ->
                     ~ contains_cell t k' r' c') /\
   is_IndexError (getitem3 t k r c)).
Proof.
  unfold getitem3, wrapped_cell.
  destruct (py_getitem_wrapped list_index_out_of_range t k)
    as [(k' & comp & Hk & Wk & Hk' & ->)|[Hbad ->]]; cbn [bind].
  2:{ right. split; [|now eexists].
      intros k1 r1 c1 [= <- <- <-] (H0 & _ & _ & comp & row & v & H & _).
      destruct Hbad as [Hbad|Hbad]; [lia | congruence]. }
  rewrite Wk, Nat2Z.id, (nth_error_nth t k' [] Hk').
  destruct (py_getitem_wrapped list_index_out_of_range comp r)
    as [(r' & row & Hr & Wr & Hr' & ->)|[Hbad ->]]; cbn [bind].
  2:{ right. split; [|now eexists].
      intros k1 r1 c1 [= <- <- <-] (_ & H0 & _ & comp1 & row & v & H1 & H2 & _).
      rewrite Nat2Z.id, Hk' in H1. injection H1 as <-.
      destruct Hbad as [Hbad|Hbad]; [lia | congruence]. }
  rewrite Wr, Nat2Z.id, (nth_error_nth comp r' [] Hr').
  destruct (py_getitem_wrapped tuple_index_out_of_range row c)
    as [(c' & v & Hc & Wc & Hc' & Hv)|[Hbad Hv]]; rewrite Hv.
  2:{ right. split; [|now eexists].
      intros k1 r1 c1 [= <- <- <-]
             (_ & _ & H0 & comp1 & row1 & v & H1 & H2 & H3).
      rewrite Nat2Z.id, Hk' in H1. injection H1 as <-.
      rewrite Nat2Z.id, Hr' in H2. injection H2 as <-.
      destruct Hbad as [Hbad|Hbad]; [lia | congruence]. }
  left. exists k', r', c', comp, row, v. rewrite Wc. now repeat split.
Qed.

(** C9, as the code has it: an address with nonnegative coordinates that is
    not a cell of [t] makes both [t(k, r, c)] and [t.entry(k, r, c)] raise
    an [IndexError].  For arbitrary integer coordinates Python's negative
    indexing wraps each coordinate in the sequence it indexes: when the
    wrapped address is a cell of [t], both lookups return the entry of that
    cell, and when it is no cell, both raise an [IndexError]. *)
Theorem cell_lookup_out_of_range (t : tableau_tuple) (k r c : Z) :
  ((0 <= k)%Z -> (0 <= r)%Z -> (0 <= c)%Z -> ~ contains_cell t k r c ->
   call t (Coordinates k r c) = Raise (IndexError cell_not_contained) /\
   call t (CellTriple (k, r, c)) = Raise (IndexError cell_not_contained) /\
   is_IndexError (entry t k r c))
  /\
  ((exists k' r' c' v,
       py_norm_index (length t) k = Some k' /\
       wrapped_cell t k r c = (Z.of_nat k', Z.of_nat r', Z.of_nat c') /\
       contains_cell t (Z.of_nat k') (Z.of_nat r') (Z.of_nat c') /\
       holds t k' r' c' v /\
       getitem3 t (Z.of_nat k') (Z.of_nat r') (Z.of_nat c') = Ok v /\
       call t (Coordinates k r c) = Ok v /\
       call t (CellTriple (k, r, c)) = Ok v /\
       entry t k r c = Ok v)
   \/
   ((forall k' r' c', wrapped_cell t k r c = (k', r', c') ->
                      ~ contains_cell t k' r' c') /\
    call t (Coordinates k r c) = Raise (IndexError cell_not_contained) /\
    call t (CellTriple (k, r, c)) = Raise (IndexError cell_not_contained) /\
    is_IndexError (entry t k r c))).
Proof.
  split.
  - intros Hk Hr Hc Hn.
    pose proof (getitem3_nonneg_not_contained t k r c Hk Hr Hc Hn) as HI.
    rewrite call_triple. repeat split; try assumption;
      now apply call_of_getitem3.
  - rewrite call_triple.
    destruct (getitem3_wrapped t k r c)
      as [(k' & r' & c' & comp & row & v & Hk & Hk' & Hr' & Hc' & Hw & Hv)
         |[Hnone HI]].
    + left. exists k', r', c', v.
      split; [exact Hk|]. split; [exact Hw|].
      split; [|split; [|split; [|split; [|split]]]].
      * repeat split; try lia. exists comp, row, v. now rewrite !Nat2Z.id.
      * now exists comp, row.
      * unfold getitem3.
        rewrite !py_getitem_nonneg by lia. rewrite !Nat2Z.id, Hk'. cbn.
        rewrite !py_getitem_nonneg by lia. rewrite !Nat2Z.id, Hr'. cbn.
        rewrite !py_getitem_nonneg by lia. now rewrite !Nat2Z.id, Hc'.
      * now apply call_of_getitem3.
      * now apply call_of_getitem3.
      * exact Hv.
    + right. split; [exact Hnone|].
      split; [now apply call_of_getitem3|].
      split; [now apply call_of_getitem3 | exact HI].
Qed.

Definition two_components : tableau_tuple := [[[1; 2]]; [[3]]]%Z.

Lemma cell_lookup_out_of_range_witness :
  (call two_components (Coordinates 2 0 0) = Raise (IndexError cell_not_contained) /\
   call two_components (CellTriple (2, 0, 0)%Z) = Raise (IndexError cell_not_contained) /\
   is_IndexError (entry two_components 2 0 0)).
Proof.
  apply (proj1 (cell_lookup_out_of_range two_components 2 0 0)); try lia.
  intros (_ & _ & _ & comp & row & v & H & _). discriminate H.
Defined.

(** The address (-1, 0, 0) is not a cell of the tableau tuple, yet both
    lookups return the entry of the last component. *)
Lemma negative_cell_returns_a_value :
  ~ contains_cell two_components (-1) 0 0 /\
  call two_components (Coordinates (-1) 0 0) = Ok 3%Z /\
  entry two_components (-1) 0 0 = Ok 3%Z.
Proof.
  split; [|split; reflexivity].
  intros (H & _). lia.
Qed.

(** * Contents *)

Lemma index_from_None (l : list Z) (v : Z) (i : nat) :
  index_from Z.eqb l v i = None <-> ~ In v l.
Proof.
  revert i. induction l as [|h t IH]; intros i; cbn.
  - tauto.
  - destruct (Z.eqb_spec h v) as [->|Hne].
    + split; [discriminate | intros H; exfalso; apply H; now left].
    + rewrite IH. split; intros H.
      * intros [E|E]; [congruence | tauto].
      * intros E. apply H. now right.
Qed.

Lemma index_from_first (l : list Z) (v : Z) (i c : nat) :
  nth_error l c = Some v -> ~ In v (firstn c l) ->
  index_from Z.eqb l v i = Some (i + c).
Proof.
  revert i c. induction l as [|h t IH]; intros i c Hn Hf.
  - destruct c; discriminate.
  - destruct c as [|c]; cbn in *.
    + injection Hn as ->. rewrite Z.eqb_refl. f_equal. lia.
    + destruct (Z.eqb_spec h v) as [->|Hne].
      * exfalso. apply Hf. now left.
      * rewrite (IH (S i) c Hn) by (intros E; apply Hf; now right).
        f_equal. lia.
Qed.

Lemma content_rows_first (mc : list Z) (l : nat) (a k : Z)
      (rows : list (list Z)) (r0 r c : nat) (row : list Z) :
  getitem mc l = Ok a ->
  nth_error rows r = Some row ->
  nth_error row c = Some k -> ~ In k (firstn c row) ->
  (forall r' row', r' < r -> nth_error rows r' = Some row' -> ~ In k row') ->
  content_rows mc l k rows r0
  = Some (Ok (a - Z.of_nat (r0 + r) + Z.of_nat c)%Z).
Proof.
  intros Ha. revert r0 r. induction rows as [|row0 rest IH]; intros r0 r Hr Hc Hf Hb.
  - destruct r; discriminate.
  - cbn. rewrite Ha. destruct r as [|r]; cbn in Hr.
    + injection Hr as ->. unfold indexZ.
      rewrite (index_from_first _ _ 0 _ Hc Hf). cbn. now rewrite Nat.add_0_r.
    + assert (Hn : indexZ row0 k = None).
      { apply index_from_None. apply (Hb 0 row0); [lia | reflexivity]. }
      rewrite Hn. rewrite (IH (S r0) r Hr Hc Hf).
      * do 3 f_equal. lia.
      * intros r' row' Hlt Hr'. apply (Hb (S r') row'); [lia | exact Hr'].
Qed.

Lemma content_rows_absent (mc : list Z) (l : nat) (k : Z)
      (rows : list (list Z)) (r0 : nat) :
  l < length mc ->
  (forall row, In row rows -> ~ In k row) ->
  content_rows mc l k rows r0 = None.
Proof.
  intros Hl. revert r0. induction rows as [|row rest IH]; intros r0 Hn; cbn.
  - reflexivity.
  - unfold getitem. destruct (nth_error mc l) as [a|] eqn:E.
    2:{ apply nth_error_None in E. lia. }
    assert (Hi : indexZ row k = None).
    { apply index_from_None. apply Hn. now left. }
    rewrite Hi. apply IH. intros row' Hin. apply Hn. now right.
Qed.

Lemma content_comps_first (mc : list Z) (k : Z) (comps : tableau_tuple)
      (l0 l r c : nat) :
  l0 + length comps <= length mc ->
  first_occurrence comps k l r c ->
  content_comps mc k comps l0
  = Ok (nth (l0 + l) mc 0%Z - Z.of_nat r + Z.of_nat c)%Z.
Proof.
  revert l0 l. induction comps as [|tab rest IH]; intros l0 l Hlen Hf.
  - destruct Hf as (comp & row & H & _). destruct l; discriminate.
  - destruct Hf as (comp & row & Hl & Hr & Hc & Hfc & Hrows & Hcomps).
    cbn in Hlen. destruct l as [|l]; cbn in Hl.
    + injection Hl as ->. cbn.
      assert (Ha : getitem mc l0 = Ok (nth l0 mc 0%Z)).
      { unfold getitem. destruct (nth_error mc l0) as [a|] eqn:E.
        - now rewrite (nth_error_nth _ _ _ E).
        - apply nth_error_None in E. lia. }
      rewrite (content_rows_first mc l0 _ k comp 0 r c row Ha Hr Hc Hfc Hrows). cbn.
      now rewrite Nat.add_0_r.
    + cbn. rewrite content_rows_absent.
      * assert (Hrest : first_occurrence rest k l r c).
        { exists comp, row. repeat split; try assumption.
          intros l' comp' row' Hlt Hl'. apply (Hcomps (S l') comp' row'); [lia | exact Hl']. }
        rewrite (IH (S l0) l) by (assumption || lia).
        replace (S l0 + l) with (l0 + S l) by lia. reflexivity.
      * lia.
      * intros row' Hin. apply (Hcomps 0 tab row'); [lia | reflexivity | exact Hin].
Qed.

Lemma content_comps_absent (mc : list Z) (k : Z) (comps : tableau_tuple) (l0 : nat) :
  l0 + length comps <= length mc ->
  ~ In k (entries comps) ->
  content_comps mc k comps l0 = Raise (ValueError must_be_contained).
Proof.
  revert l0. induction comps as [|tab rest IH]; intros l0 Hlen Hn; cbn.
  - reflexivity.
  - cbn in Hlen. unfold entries in Hn. cbn in Hn. rewrite in_app_iff in Hn.
    rewrite content_rows_absent.
    + apply IH; [lia | intros E; apply Hn; now right].
    + lia.
    + intros row Hin E. apply Hn. left. apply in_concat. now exists row.
Qed.

Lemma NoDup_app_l {A : Type} (l1 l2 : list A) : NoDup (l1 ++ l2) -> NoDup l1.
Proof.
  induction l1 as [|a l1 IH]; cbn; intros H; [constructor|].
  inversion H as [|? ? Hn Hd]; subst. constructor.
  - intros E. apply Hn. apply in_or_app. now left.
  - now apply IH.
Qed.

Lemma NoDup_app_r {A : Type} (l1 l2 : list A) : NoDup (l1 ++ l2) -> NoDup l2.
Proof.
  induction l1 as [|a l1 IH]; cbn; intros H; [assumption|].
  inversion H; subst. now apply IH.
Qed.

Lemma NoDup_app_disjoint {A : Type} (l1 l2 : list A) (x : A) :
  NoDup (l1 ++ l2) -> In x l1 -> ~ In x l2.
Proof.
  induction l1 as [|a l1 IH]; cbn; intros H Hin; [contradiction|].
  inversion H as [|? ? Hn Hd]; subst. destruct Hin as [->|Hin].
  - intros E. apply Hn. apply in_or_app. now right.
  - now apply IH.
Qed.

Lemma nth_error_firstn_split {A : Type} (l : list A) (n : nat) (a : A) :
  nth_error l n = Some a -> l = firstn n l ++ a :: skipn (S n) l.
Proof.
  revert n. induction l as [|h t IH]; intros [|n] H; try discriminate; cbn in *.
  - now injection H as ->.
  - f_equal. now apply IH.
Qed.

Lemma nth_error_In_firstn {A : Type} (l : list A) (n m : nat) (a : A) :
  m < n -> nth_error l m = Some a -> In a (firstn n l).
Proof.
  revert n m. induction l as [|h t IH]; intros n m Hlt H.
  - destruct m; discriminate.
  - destruct n as [|n]; [lia|]. destruct m as [|m]; cbn in *.
    + injection H as ->. now left.
    + right. apply (IH n m); [lia | assumption].
Qed.

Lemma NoDup_nth_not_in_firstn {A : Type} (l : list A) (c : nat) (k : A) :
  NoDup l -> nth_error l c = Some k -> ~ In k (firstn c l).
Proof.
  intros Hnd Hc E.
  rewrite (nth_error_firstn_split _ _ _ Hc) in Hnd.
  revert E. intros E. apply (NoDup_app_disjoint _ _ k Hnd E). now left.
Qed.

Lemma NoDup_concat_nth {A : Type} (ll : list (list A)) (r : nat) (row : list A) :
  NoDup (concat ll) -> nth_error ll r = Some row ->
  NoDup row /\
  forall k r' row', In k row -> r' < r -> nth_error ll r' = Some row' -> ~ In k row'.
Proof.
  intros Hnd Hr. rewrite (nth_error_firstn_split _ _ _ Hr), concat_app in Hnd.
  cbn in Hnd. split.
  - apply NoDup_app_r in Hnd. now apply NoDup_app_l in Hnd.
  - intros k r' row' Hk Hlt Hr' E.
    apply (NoDup_app_disjoint _ _ k Hnd).
    + apply in_concat. exists row'. split; [|exact E].
      now apply (nth_error_In_firstn _ r r').
    + apply in_or_app. now left.
Qed.

(** Where no entry repeats, the cell holding [k] is its first occurrence. *)
Lemma holds_first_occurrence (t : tableau_tuple) (k : Z) (l r c : nat) :
  NoDup (entries t) -> holds t l r c k -> first_occurrence t k l r c.
Proof.
  intros Hnd (comp & row & Hl & Hr & Hc).
  assert (Hl' : nth_error (map (@concat Z) t) l = Some (concat comp))
    by (now apply map_nth_error).
  destruct (NoDup_concat_nth _ _ _ Hnd Hl') as [Hcomp Hprev].
  destruct (NoDup_concat_nth _ _ _ Hcomp Hr) as [Hrow Hprevrow].
  assert (Hkrow : In k row) by (eapply nth_error_In; eassumption).
  exists comp, row. repeat split; try assumption.
  - now apply NoDup_nth_not_in_firstn.
  - intros r' row' Hlt Hr'. now apply (Hprevrow k r' row').
  - intros l' comp' row' Hlt Hl'' Hin E.
    apply (Hprev k l' (concat comp')); try assumption.
    + apply in_concat. exists row. split; [|assumption].
      eapply nth_error_In; eassumption.
    + now apply map_nth_error.
    + apply in_concat. now exists row'.
Qed.

Definition five_and_square : tableau_tuple := [[[5]]; [[1; 2]; [3; 4]]]%Z.

(** C7, as the code has it: [content] scans the components in order, the
    rows from the top and each row from the left, and returns
    [multicharge[component] - row + column] for the first cell holding [k];
    where no entry repeats (as in a row standard or standard tableau tuple)
    this is the cell holding [k].  When [k] is absent the call raises the
    [ValueError] that says so.  The multicharge has an entry per component.
    For [([[5]], [[1,2],[3,4]])] the content of 3 is -1 under the multicharge
    [(0,0)] and 0 under [(0,1)]. *)
Theorem content_correct (t : tableau_tuple) (k : Z) (multicharge : list Z) :
  length t <= length multicharge ->
  (forall l r c, first_occurrence t k l r c ->
     content t k multicharge
     = Ok (nth l multicharge 0 - Z.of_nat r + Z.of_nat c)%Z) /\
  (NoDup (entries t) ->
   forall l r c, holds t l r c k ->
     content t k multicharge
     = Ok (nth l multicharge 0 - Z.of_nat r + Z.of_nat c)%Z) /\
  (~ In k (entries t) ->
   content t k multicharge = Raise (ValueError must_be_contained)) /\
  content five_and_square 3 [0; 0]%Z = Ok (-1)%Z /\
  content five_and_square 3 [0; 1]%Z = Ok 0%Z.
Proof.
  intros Hlen. repeat split.
  - intros l r c Hf. unfold content.
    now rewrite (content_comps_first multicharge k t 0 l r c Hlen Hf).
  - intros Hnd l r c Hh. unfold content.
    now rewrite (content_comps_first multicharge k t 0 l r c Hlen
                   (holds_first_occurrence t k l r c Hnd Hh)).
  - intros Hn. now apply content_comps_absent.
Qed.

Lemma content_correct_witness :
  content five_and_square 4 [0; 1]%Z = Ok 1%Z.
Proof.
  refine (proj1 (proj2 (content_correct five_and_square 4 [0; 1]%Z _)) _ 1 1 1 _).
  - cbn. lia.
  - unfold entries, five_and_square. cbn.
    repeat (constructor; [cbn; intuition discriminate|]). constructor.
  - exists [[1; 2]; [3; 4]]%Z, [3; 4]%Z. repeat split.
Defined.

Definition repeated_entry : tableau_tuple := [[[1; 1]]; [[2]]]%Z.

(** The cell (0, 0, 1) of [([[1,1]], [[2]])] holds 1, yet the content of 1
    is that of the cell (0, 0, 0). *)
Lemma content_of_repeated_entry :
  holds repeated_entry 0 0 1 1%Z /\
  content repeated_entry 1 [0; 0]%Z = Ok 0%Z /\
  content repeated_entry 1 [0; 0]%Z
  <> Ok (nth 0 [0; 0]%Z 0 - Z.of_nat 0 + Z.of_nat 1)%Z.
Proof.
  split; [|split].
  - exists [[1; 1]]%Z, [1; 1]%Z. repeat split.
  - reflexivity.
  - cbn. discriminate.
Qed.

(** * Construction of row standard and standard tableau tuples *)

(** ** Sorting *)

Lemma insert_sorted_perm (x : Z) (l : list Z) :
  Permutation (x :: l) (insert_sorted x l).
Proof.
  induction l as [|y t IH]; cbn.
  - apply Permutation_refl.
  - destruct (x <=? y)%Z.
    + apply Permutation_refl.
    + eapply perm_trans; [apply perm_swap|]. now apply perm_skip.
Qed.

Lemma sorted_perm (l : list Z) : Permutation l (sorted l).
Proof.
  induction l as [|x t IH]; cbn.
  - constructor.
  - eapply perm_trans; [|apply insert_sorted_perm]. now apply perm_skip.
Qed.

Lemma sorted_length (l : list Z) : length (sorted l) = length l.
Proof. symmetry. apply Permutation_length, sorted_perm. Qed.

Lemma insert_sorted_sorted (x : Z) (l : list Z) :
  StronglySorted Z.le l -> StronglySorted Z.le (insert_sorted x l).
Proof.
  induction 1 as [|y t Hs IH Hall]; cbn.
  - repeat constructor.
  - destruct (Z.leb_spec x y) as [Hle|Hgt].
    + constructor; [now constructor|].
      constructor; [assumption|].
      rewrite Forall_forall in *. intros z Hz. specialize (Hall z Hz). lia.
    + constructor; [assumption|].
      rewrite Forall_forall in *. intros z Hz.
      apply (Permutation_in _ (Permutation_sym (insert_sorted_perm x t))) in Hz.
      destruct Hz as [<-|Hz]; [lia | now apply Hall].
Qed.

Lemma sorted_sorted (l : list Z) : StronglySorted Z.le (sorted l).
Proof.
  induction l as [|x t IH]; cbn; [constructor | now apply insert_sorted_sorted].
Qed.

(** Two sorted lists with the same elements are equal. *)
Lemma sorted_unique (l1 l2 : list Z) :
  StronglySorted Z.le l1 -> StronglySorted Z.le l2 ->
  Permutation l1 l2 -> l1 = l2.
Proof.
  intros H1. revert l2. induction H1 as [|x t1 Hs1 IH Hall1]; intros l2 H2 Hp.
  - now apply Permutation_nil in Hp.
  - destruct H2 as [|y t2 Hs2 Hall2].
    + apply Permutation_sym, Permutation_nil in Hp. discriminate.
    + assert (Hxy : x = y).
      { rewrite Forall_forall in Hall1, Hall2.
        assert (Hy : In y (x :: t1))
          by (apply (Permutation_in _ (Permutation_sym Hp)); now left).
        assert (Hx : In x (y :: t2)) by (apply (Permutation_in _ Hp); now left).
        destruct Hy as [Hy|Hy]; [congruence|].
        destruct Hx as [Hx|Hx]; [congruence|].
        specialize (Hall1 y Hy). specialize (Hall2 x Hx). lia. }
      subst y. f_equal. apply IH; [assumption|].
      now apply Permutation_cons_inv in Hp.
Qed.

Lemma range1_sorted (n : nat) : StronglySorted Z.le (range1 n).
Proof.
  unfold range1. generalize 1. induction n as [|n IH]; intros s; cbn.
  - constructor.
  - constructor; [apply IH|].
    rewrite Forall_forall. intros z Hz. apply in_map_iff in Hz.
    destruct Hz as (k & <- & Hk). apply in_seq in Hk. lia.
Qed.

Lemma sorted_is_range (l : list Z) :
  sorted l = range1 (length (sorted l)) <-> Permutation l (range1 (length l)).
Proof.
  rewrite sorted_length. split; intros H.
  - rewrite <- H. apply sorted_perm.
  - apply sorted_unique.
    + apply sorted_sorted.
    + apply range1_sorted.
    + eapply perm_trans; [apply Permutation_sym, sorted_perm | exact H].
Qed.

(** ** The strictness tests *)

Lemma strictly_increasing_spec (row : list Z) :
  strictly_increasing Z.ltb row = true <->
  (forall i a b, nth_error row i = Some a -> nth_error row (S i) = Some b ->
                 (a < b)%Z).
Proof.
  induction row as [|x t IH].
  - cbn. split; [|reflexivity]. intros _ i a b H. destruct i; discriminate.
  - destruct t as [|y t'].
    + cbn. split; [|reflexivity]. intros _ i a b _ H.
      destruct i as [|[|i]]; discriminate.
    + change (strictly_increasing Z.ltb (x :: y :: t'))
        with ((x <? y)%Z && strictly_increasing Z.ltb (y :: t')).
      rewrite andb_true_iff, IH, Z.ltb_lt. split.
      * intros [Hxy Ht] i a b Ha Hb. destruct i as [|i].
        -- cbn in Ha, Hb. congruence.
        -- apply (Ht i); assumption.
      * intros H. split.
        -- apply (H 0); reflexivity.
        -- intros i a b Ha Hb. apply (H (S i)); assumption.
Qed.

Lemma is_row_strict_spec (comps : tableau_tuple) :
  forallb (is_row_strict Z.ltb) comps = true <-> row_strict comps.
Proof.
  unfold row_strict, is_row_strict. rewrite forallb_forall. split.
  - intros H comp row i a b Hc Hr. specialize (H comp Hc).
    rewrite forallb_forall in H. specialize (H row Hr).
    now apply strictly_increasing_spec.
  - intros H comp Hc. apply forallb_forall. intros row Hr.
    apply strictly_increasing_spec. intros i a b. now apply (H comp row).
Qed.

Lemma combine_ltb_spec (upper lower : list Z) :
  forallb (fun p => (fst p <? snd p)%Z) (combine upper lower) = true <->
  (forall c a b, nth_error upper c = Some a -> nth_error lower c = Some b ->
                 (a < b)%Z).
Proof.
  revert lower. induction upper as [|x u IH]; intros lower.
  - cbn. split; [|reflexivity]. intros _ c a b H. destruct c; discriminate.
  - destruct lower as [|y l].
    + cbn. split; [|reflexivity]. intros _ c a b _ H. destruct c; discriminate.
    + cbn. rewrite andb_true_iff, IH, Z.ltb_lt. split.
      * intros [Hxy Ht] c a b Ha Hb. destruct c as [|c]; cbn in Ha, Hb.
        -- congruence.
        -- now apply (Ht c).
      * intros H. split.
        -- apply (H 0); reflexivity.
        -- intros c a b Ha Hb. now apply (H (S c)).
Qed.

Lemma is_column_strict_tableau_spec (comp : tableau) :
  is_column_strict Z.ltb comp = true <->
  (forall r upper lower c a b,
      nth_error comp r = Some upper -> nth_error comp (S r) = Some lower ->
      nth_error upper c = Some a -> nth_error lower c = Some b -> (a < b)%Z).
Proof.
  induction comp as [|u t IH].
  - cbn. split; [|reflexivity]. intros _ r upper lower c a b H. destruct r; discriminate.
  - destruct t as [|l t'].
    + cbn. split; [|reflexivity]. intros _ r upper lower c a b _ H.
      destruct r as [|[|r]]; discriminate.
    + change (is_column_strict Z.ltb (u :: l :: t'))
        with (forallb (fun p => (fst p <? snd p)%Z) (combine u l)
              && is_column_strict Z.ltb (l :: t')).
      rewrite andb_true_iff, IH, combine_ltb_spec. split.
      * intros [H0 Ht] r upper lower c a b Hu Hl Ha Hb. destruct r as [|r].
        -- cbn in Hu, Hl. injection Hu as <-. injection Hl as <-. now apply (H0 c).
        -- now apply (Ht r upper lower c).
      * intros H. split.
        -- intros c a b. now apply (H 0 u l c).
        -- intros r upper lower c a b Hu Hl. now apply (H (S r) upper lower c).
Qed.

Lemma is_column_strict_spec (comps : tableau_tuple) :
  forallb (is_column_strict Z.ltb) comps = true <-> column_strict comps.
Proof.
  unfold column_strict. rewrite forallb_forall. split.
  - intros H comp r upper lower c a b Hc. specialize (H comp Hc).
    now apply is_column_strict_tableau_spec.
  - intros H comp Hc. apply is_column_strict_tableau_spec.
    intros r upper lower c a b. now apply (H comp).
Qed.

(** ** The constructors *)

Lemma coerce_valid (t : tableau_tuple) :
  valid_tuple t -> coerce t = Ok (AsComponents t).
Proof. unfold valid_tuple, coerce. now intros ->. Qed.

Lemma RowStandard_init_cases (t : tableau_tuple) :
  valid_tuple t ->
  RowStandardTableauTuple_init t true =
  if forallb (is_row_strict Z.ltb) t then
    if list_eq_dec Z.eq_dec (sorted (entries t))
                   (range1 (length (sorted (entries t))))
    then Ok (AsComponents t)
    else Raise (ValueError bijection_msg)
  else Raise (ValueError row_strict_msg).
Proof.
  intros Hv. unfold RowStandardTableauTuple_init. rewrite (coerce_valid t Hv). cbn.
  now destruct (forallb (is_row_strict Z.ltb) t).
Qed.

Lemma Standard_init_cases (t : tableau_tuple) :
  valid_tuple t ->
  StandardTableauTuple_init t true =
  if forallb (is_row_strict Z.ltb) t then
    if list_eq_dec Z.eq_dec (sorted (entries t))
                   (range1 (length (sorted (entries t))))
    then
      if forallb (is_column_strict Z.ltb) t then Ok (AsComponents t)
      else Raise (ValueError column_strict_msg)
    else Raise (ValueError bijection_msg)
  else Raise (ValueError row_strict_msg).
Proof.
  intros Hv. unfold StandardTableauTuple_init.
  rewrite (RowStandard_init_cases t Hv).
  destruct (forallb (is_row_strict Z.ltb) t); [|reflexivity].
  destruct (list_eq_dec _ _ _); [|reflexivity]. cbn.
  now destruct (forallb (is_column_strict Z.ltb) t).
Qed.

(** C5: for a tuple [t] of tableaux, constructing a row standard tableau
    tuple raises the row-strictness [ValueError] exactly when some row does
    not strictly increase, raises the bijection [ValueError] exactly when
    the rows are strict but the entries are not {1, ..., n}, and succeeds
    otherwise; constructing a standard tableau tuple raises in addition the
    column-strictness [ValueError], exactly when those two tests pass and
    some column does not strictly increase.  The three messages differ. *)
Theorem construction_checks (t : tableau_tuple) :
  valid_tuple t ->
  (* row standard *)
  (RowStandardTableauTuple_init t true = Raise (ValueError row_strict_msg)
   <-> ~ row_strict t) /\
  (RowStandardTableauTuple_init t true = Raise (ValueError bijection_msg)
   <-> row_strict t /\ ~ bijective t) /\
  (RowStandardTableauTuple_init t true = Ok (AsComponents t)
   <-> row_strict t /\ bijective t) /\
  ((exists e, RowStandardTableauTuple_init t true = Raise e)
   <-> ~ row_strict t \/ ~ bijective t) /\
  (* standard *)
  (StandardTableauTuple_init t true = Raise (ValueError row_strict_msg)
   <-> ~ row_strict t) /\
  (StandardTableauTuple_init t true = Raise (ValueError bijection_msg)
   <-> row_strict t /\ ~ bijective t) /\
  (StandardTableauTuple_init t true = Raise (ValueError column_strict_msg)
   <-> row_strict t /\ bijective t /\ ~ column_strict t) /\
  (StandardTableauTuple_init t true = Ok (AsComponents t)
   <-> row_strict t /\ bijective t /\ column_strict t) /\
  ((exists e, StandardTableauTuple_init t true = Raise e)
   <-> ~ row_strict t \/ ~ bijective t \/ ~ column_strict t) /\
  (* the kinds can be told apart *)
  row_strict_msg <> bijection_msg /\ row_strict_msg <> column_strict_msg /\
  bijection_msg <> column_strict_msg.
Proof.
  intros Hv.
  rewrite (RowStandard_init_cases t Hv), (Standard_init_cases t Hv).
  pose proof (is_row_strict_spec t) as Hrow.
  pose proof (is_column_strict_spec t) as Hcol.
  pose proof (sorted_is_range (entries t)) as Hbij. fold (bijective t) in Hbij.
  destruct (forallb (is_row_strict Z.ltb) t) eqn:Er;
    [assert (Hr : row_strict t) by (now apply Hrow)
    |assert (Hr : ~ row_strict t) by (rewrite <- Hrow; discriminate)];
  (destruct (list_eq_dec Z.eq_dec (sorted (entries t))
                         (range1 (length (sorted (entries t))))) as [Eb|Eb];
    [assert (Hb : bijective t) by (now apply Hbij)
    |assert (Hb : ~ bijective t) by (now rewrite <- Hbij)]);
  (destruct (forallb (is_column_strict Z.ltb) t) eqn:Ec;
    [assert (Hc : column_strict t) by (now apply Hcol)
    |assert (Hc : ~ column_strict t) by (rewrite <- Hcol; discriminate)]);
  clear Hrow Hcol Hbij;
  repeat split; try discriminate; try tauto; try (intros H; exfalso; tauto);
    try (intros [e He]; discriminate He);
    try (intros _; eexists; reflexivity);
    try (intros; eexists; reflexivity);
    try (intros H; exfalso; destruct H as [e He]; discriminate He).
Qed.

Definition square_and_five : tableau_tuple := [[[1; 2]; [3; 4]]; [[5]]]%Z.

Lemma construction_checks_witness :
  valid_tuple square_and_five /\
  (StandardTableauTuple_init square_and_five true = Ok (AsComponents square_and_five)
   <-> row_strict square_and_five /\ bijective square_and_five
       /\ column_strict square_and_five).
Proof.
  split; [reflexivity|].
  apply (construction_checks square_and_five). reflexivity.
Defined.

(** * Conjugation *)

(** ** Transposing a tableau *)

Lemma map_fst_combine {A B : Type} (l : list A) (l' : list B) :
  length l = length l' -> map fst (combine l l') = l.
Proof.
  revert l'. induction l as [|a l IH]; intros [|b l'] H; try discriminate; cbn.
  - reflexivity.
  - f_equal. apply IH. now injection H.
Qed.

Lemma map_snd_combine {A B : Type} (l : list A) (l' : list B) :
  length l = length l' -> map snd (combine l l') = l'.
Proof.
  revert l'. induction l as [|a l IH]; intros [|b l'] H; try discriminate; cbn.
  - reflexivity.
  - f_equal. apply IH. now injection H.
Qed.

Section Transpose.

Context {A : Type}.
Implicit Types (rows : list (list A)) (row : list A).

(** The entry in row [i] and column [j]. *)
Definition at_cell rows (i j : nat) : option A :=
  match nth_error rows i with
  | Some row => nth_error row j
  | None => None
  end.

Lemma valid_tableau_cons row rows :
  valid_tableau (row :: rows) = true ->
  0 < length row /\ valid_tableau rows = true /\
  Forall (fun row' => length row' <= length row) rows.
Proof.
  unfold valid_tableau, is_partition. cbn [map forallb].
  rewrite !andb_true_iff. intros [[Hpos Hall] Hwd].
  apply Nat.ltb_lt in Hpos.
  destruct (weakly_decreasing_cons _ _ Hwd) as [Hwd' Hle].
  split; [assumption|]. split.
  - now rewrite Hall, Hwd'.
  - rewrite Forall_map in Hle. exact Hle.
Qed.

Lemma column_cons row rows (j : nat) :
  column (row :: rows) j
  = match nth_error row j with Some x => [x] | None => [] end ++ column rows j.
Proof. reflexivity. Qed.

Lemma column_short rows (j : nat) :
  Forall (fun row' => length row' <= j) rows -> column rows j = [].
Proof.
  induction 1 as [|row rows Hle Hall IH]; [reflexivity|].
  rewrite column_cons, IH.
  assert (H : nth_error row j = None) by (now apply nth_error_None).
  now rewrite H.
Qed.

Lemma at_cell_short rows (i j : nat) :
  Forall (fun row' => length row' <= j) rows -> at_cell rows i j = None.
Proof.
  intros Hall. unfold at_cell.
  destruct (nth_error rows i) as [row|] eqn:E; [|reflexivity].
  apply nth_error_In in E. rewrite Forall_forall in Hall.
  apply nth_error_None. now apply Hall.
Qed.

(** In a tableau the rows reaching column [j] come first, so the [i]-th
    entry of the column is the entry of row [i]. *)
Lemma nth_error_column rows (i j : nat) :
  valid_tableau rows = true ->
  nth_error (column rows j) i = at_cell rows i j.
Proof.
  revert i. induction rows as [|row rows IH]; intros i Hv.
  - unfold at_cell. now destruct i.
  - destruct (valid_tableau_cons _ _ Hv) as (Hpos & Hv' & Hle).
    rewrite column_cons. destruct (nth_error row j) as [x|] eqn:Ej.
    + destruct i as [|i]; cbn.
      * unfold at_cell. cbn. now rewrite Ej.
      * rewrite IH by assumption. reflexivity.
    + apply nth_error_None in Ej.
      assert (Hshort : Forall (fun row' => length row' <= j) rows).
      { eapply Forall_impl; [|exact Hle]. cbn. intros r Hr. lia. }
      rewrite (column_short _ _ Hshort). cbn.
      destruct i as [|i].
      * unfold at_cell. cbn. symmetry. now apply nth_error_None.
      * unfold at_cell. cbn. fold (at_cell rows i j).
        rewrite (at_cell_short _ i _ Hshort). reflexivity.
Qed.

Lemma nth_error_conjugate rows (j : nat) :
  nth_error (conjugate_tableau rows) j
  = if j <? length (hd [] rows) then Some (column rows j) else None.
Proof.
  unfold conjugate_tableau. rewrite nth_error_map, nth_error_seq.
  now destruct (j <? length (hd [] rows)).
Qed.

Lemma at_cell_conjugate rows (i j : nat) :
  valid_tableau rows = true ->
  at_cell (conjugate_tableau rows) j i = at_cell rows i j.
Proof.
  intros Hv. unfold at_cell at 1. rewrite nth_error_conjugate.
  destruct (Nat.ltb_spec j (length (hd [] rows))) as [Hlt|Hge].
  - now apply nth_error_column.
  - symmetry. apply at_cell_short.
    destruct rows as [|row rows]; [constructor|].
    destruct (valid_tableau_cons _ _ Hv) as (_ & _ & Hle). cbn in Hge.
    constructor; [assumption|].
    eapply Forall_impl; [|exact Hle]. cbn. intros r Hr. lia.
Qed.

Lemma length_column rows (j : nat) :
  length (column rows j) = length (filter (fun row => j <? length row) rows).
Proof.
  induction rows as [|row rows IH]; [reflexivity|].
  rewrite column_cons, length_app, IH. cbn [filter].
  destruct (Nat.ltb_spec j (length row)) as [Hlt|Hge].
  - destruct (nth_error row j) eqn:E; [reflexivity|].
    apply nth_error_None in E. lia.
  - assert (E : nth_error row j = None) by (now apply nth_error_None).
    now rewrite E.
Qed.

Lemma length_column_antitone rows (j : nat) :
  length (column rows (S j)) <= length (column rows j).
Proof.
  rewrite !length_column. induction rows as [|row rows IH]; [constructor|].
  cbn [filter]. destruct (Nat.ltb_spec (S j) (length row)) as [H1|H1];
    destruct (Nat.ltb_spec j (length row)) as [H2|H2]; cbn [length]; lia.
Qed.

Lemma weakly_decreasing_map_seq (f : nat -> nat) (n s : nat) :
  (forall j, f (S j) <= f j) -> weakly_decreasing (map f (seq s n)) = true.
Proof.
  intros Hf. revert s. induction n as [|n IH]; intros s; [reflexivity|].
  destruct n as [|n]; [reflexivity|].
  change (weakly_decreasing (map f (seq s (S (S n)))))
    with ((f (S s) <=? f s) && weakly_decreasing (map f (seq (S s) (S n)))).
  rewrite IH, andb_true_r. apply Nat.leb_le, Hf.
Qed.

Lemma valid_conjugate rows :
  valid_tableau rows = true -> valid_tableau (conjugate_tableau rows) = true.
Proof.
  intros Hv. unfold valid_tableau, is_partition, conjugate_tableau.
  rewrite map_map. apply andb_true_iff. split.
  - apply forallb_forall. intros n Hn. apply in_map_iff in Hn.
    destruct Hn as (j & <- & Hj). apply in_seq in Hj. apply Nat.ltb_lt.
    destruct rows as [|row rows]; [cbn in Hj; lia|]. cbn in Hj.
    rewrite column_cons, length_app.
    destruct (nth_error row j) eqn:E; [cbn; lia|].
    apply nth_error_None in E. lia.
  - apply weakly_decreasing_map_seq. intros j. apply length_column_antitone.
Qed.

(** Tableaux with the same entry in every cell are equal. *)
Lemma tableau_ext rows1 rows2 :
  valid_tableau rows1 = true -> valid_tableau rows2 = true ->
  (forall i j, at_cell rows1 i j = at_cell rows2 i j) -> rows1 = rows2.
Proof.
  intros H1 H2 Hcell.
  assert (Hpos : forall rows i row,
             valid_tableau rows = true -> nth_error rows i = Some row ->
             0 < length row).
  { intros rows i row Hv Hi. apply nth_error_In in Hi.
    unfold valid_tableau, is_partition in Hv. apply andb_true_iff in Hv.
    destruct Hv as [Hall _]. rewrite forallb_forall in Hall.
    apply Nat.ltb_lt, Hall, in_map_iff. now exists row. }
  assert (Hrow : forall rowsa rowsb i rowa,
             valid_tableau rowsa = true ->
             (forall i j, at_cell rowsa i j = at_cell rowsb i j) ->
             nth_error rowsa i = Some rowa -> nth_error rowsb i = Some rowa).
  { intros rowsa rowsb i rowa Hv Hc Hi.
    pose proof (Hpos rowsa i rowa Hv Hi) as Hlen.
    destruct (nth_error rowsb i) as [rowb|] eqn:Eb.
    - f_equal. apply nth_error_ext. intros j.
      specialize (Hc i j). unfold at_cell in Hc. now rewrite Hi, Eb in Hc.
    - specialize (Hc i 0). unfold at_cell in Hc. rewrite Hi, Eb in Hc.
      destruct rowa; [cbn in Hlen; lia | discriminate]. }
  apply nth_error_ext. intros i.
  destruct (nth_error rows1 i) as [row1|] eqn:E1.
  - symmetry. now apply (Hrow rows1 rows2).
  - destruct (nth_error rows2 i) as [row2|] eqn:E2; [|reflexivity].
    rewrite (Hrow rows2 rows1 i row2) in E1; try assumption; [discriminate|].
    intros i' j'. symmetry. apply Hcell.
Qed.

(** Transposing twice gives the tableau back. *)
Lemma conjugate_tableau_involutive rows :
  valid_tableau rows = true ->
  conjugate_tableau (conjugate_tableau rows) = rows.
Proof.
  intros Hv. apply tableau_ext.
  - now apply valid_conjugate, valid_conjugate.
  - assumption.
  - intros i j. rewrite at_cell_conjugate by (now apply valid_conjugate).
    now apply at_cell_conjugate.
Qed.

(** The entries of the transpose are those of the tableau. *)
Lemma concat_cons_perm {B : Type} (f : B -> A) (g : B -> list A) (js : list B) :
  Permutation (concat (map (fun j => f j :: g j) js))
              (map f js ++ concat (map g js)).
Proof.
  induction js as [|j js IH]; cbn; [constructor|].
  constructor. eapply perm_trans; [apply Permutation_app_head, IH|].
  rewrite !app_assoc. apply Permutation_app_tail.
  apply Permutation_app_comm.
Qed.

Lemma concat_columns_extend rows (m n : nat) :
  m <= n -> Forall (fun row' => length row' <= m) rows ->
  concat (map (column rows) (seq 0 n)) = concat (map (column rows) (seq 0 m)).
Proof.
  intros Hmn Hall. replace n with (m + (n - m)) by lia.
  rewrite seq_app, map_app, concat_app. cbn.
  rewrite <- app_nil_r. f_equal.
  apply concat_nil_Forall. rewrite Forall_map, Forall_forall.
  intros j Hj. apply in_seq in Hj. apply column_short.
  eapply Forall_impl; [|exact Hall]. cbn. intros r Hr. lia.
Qed.

Lemma conjugate_cons_columns row rows :
  map (column (row :: rows)) (seq 0 (length row))
  = map (fun p => fst p :: column rows (snd p))
        (combine row (seq 0 (length row))).
Proof.
  assert (H : forall s,
             map (fun j => match nth_error row (j - s) with
                           | Some x => [x] | None => [] end ++ column rows j)
                 (seq s (length row))
             = map (fun p => fst p :: column rows (snd p))
                   (combine row (seq s (length row)))).
  { induction row as [|x row IH]; intros s; [reflexivity|].
    cbn [length seq map combine fst snd]. rewrite Nat.sub_diag. cbn [nth_error app].
    f_equal. rewrite <- IH. apply map_ext_in. intros j Hj. apply in_seq in Hj.
    replace (j - s) with (S (j - S s)) by lia. reflexivity. }
  rewrite <- H. apply map_ext. intros j. rewrite column_cons.
  now rewrite Nat.sub_0_r.
Qed.

Lemma entries_conjugate rows :
  valid_tableau rows = true ->
  Permutation (concat (conjugate_tableau rows)) (concat rows).
Proof.
  induction rows as [|row rows IH]; intros Hv.
  - constructor.
  - destruct (valid_tableau_cons _ _ Hv) as (Hpos & Hv' & Hle).
    unfold conjugate_tableau. cbn [hd concat].
    rewrite conjugate_cons_columns.
    eapply perm_trans.
    { apply (concat_cons_perm (@fst A nat) (fun p => column rows (snd p))). }
    rewrite <- (map_map (@snd A nat) (column rows)).
    rewrite map_snd_combine by (now rewrite length_seq).
    rewrite map_fst_combine by (now rewrite length_seq).
    apply Permutation_app_head.
    rewrite (concat_columns_extend rows (length (hd [] rows)) (length row)).
    + now apply IH.
    + destruct rows as [|r rs]; cbn; [lia|]. now inversion Hle.
    + destruct rows as [|r rs]; [constructor|]. cbn.
      destruct (valid_tableau_cons _ _ Hv') as (_ & _ & Hle').
      constructor; [lia|]. exact Hle'.
Qed.

End Transpose.

(** ** Conjugating a standard tableau tuple *)

Lemma at_cell_Some {A : Type} (rows : list (list A)) (i j : nat) (a : A) :
  at_cell rows i j = Some a <->
  exists row, nth_error rows i = Some row /\ nth_error row j = Some a.
Proof.
  unfold at_cell. destruct (nth_error rows i) as [row|].
  - split; [intros H; now exists row | now intros (row' & [= <-] & H)].
  - split; [discriminate | now intros (row' & H & _)].
Qed.

Definition conj_components (comps : tableau_tuple) : tableau_tuple :=
  map (@conjugate_tableau Z) (rev comps).

Lemma in_conj_components (comps : tableau_tuple) (comp' : tableau) :
  In comp' (conj_components comps) ->
  exists comp, In comp comps /\ comp' = conjugate_tableau comp.
Proof.
  unfold conj_components. intros H. apply in_map_iff in H.
  destruct H as (comp & <- & Hin). exists comp. split; [|reflexivity].
  now apply in_rev.
Qed.

Lemma valid_tuple_In (comps : tableau_tuple) (comp : tableau) :
  valid_tuple comps -> In comp comps -> valid_tableau comp = true.
Proof. unfold valid_tuple. rewrite forallb_forall. auto. Qed.

Lemma conj_valid (comps : tableau_tuple) :
  valid_tuple comps -> valid_tuple (conj_components comps).
Proof.
  intros Hv. unfold valid_tuple. apply forallb_forall. intros comp' Hin.
  destruct (in_conj_components _ _ Hin) as (comp & Hc & ->).
  apply valid_conjugate. now apply (valid_tuple_In comps).
Qed.

Lemma conj_row_strict (comps : tableau_tuple) :
  valid_tuple comps -> column_strict comps -> row_strict (conj_components comps).
Proof.
  intros Hv Hcs comp' row i a b Hin Hrow Ha Hb.
  destruct (in_conj_components _ _ Hin) as (comp & Hc & ->).
  pose proof (valid_tuple_In comps comp Hv Hc) as Hvc.
  apply In_nth_error in Hrow. destruct Hrow as [j Hj].
  assert (Ha' : at_cell (conjugate_tableau comp) j i = Some a)
    by (apply at_cell_Some; now exists row).
  assert (Hb' : at_cell (conjugate_tableau comp) j (S i) = Some b)
    by (apply at_cell_Some; now exists row).
  rewrite at_cell_conjugate in Ha', Hb' by assumption.
  apply at_cell_Some in Ha', Hb'.
  destruct Ha' as (upper & Hu & Hua). destruct Hb' as (lower & Hl & Hlb).
  exact (Hcs comp i upper lower j a b Hc Hu Hl Hua Hlb).
Qed.

Lemma conj_column_strict (comps : tableau_tuple) :
  valid_tuple comps -> row_strict comps -> column_strict (conj_components comps).
Proof.
  intros Hv Hrs comp' r upper lower c a b Hin Hu Hl Ha Hb.
  destruct (in_conj_components _ _ Hin) as (comp & Hc & ->).
  pose proof (valid_tuple_In comps comp Hv Hc) as Hvc.
  assert (Ha' : at_cell (conjugate_tableau comp) r c = Some a)
    by (apply at_cell_Some; now exists upper).
  assert (Hb' : at_cell (conjugate_tableau comp) (S r) c = Some b)
    by (apply at_cell_Some; now exists lower).
  rewrite at_cell_conjugate in Ha', Hb' by assumption.
  apply at_cell_Some in Ha', Hb'.
  destruct Ha' as (row & Hr & Hra). destruct Hb' as (row' & Hr' & Hrb).
  assert (row' = row) by congruence. subst row'.
  apply (Hrs comp row r a b Hc); try assumption.
  eapply nth_error_In; eassumption.
Qed.

Lemma concat_perm_pointwise {A B : Type} (f g : B -> list A) (l : list B) :
  (forall x, In x l -> Permutation (f x) (g x)) ->
  Permutation (concat (map f l)) (concat (map g l)).
Proof.
  induction l as [|x l IH]; intros H; cbn; [constructor|].
  apply Permutation_app.
  - apply H. now left.
  - apply IH. intros y Hy. apply H. now right.
Qed.

Lemma conj_entries (comps : tableau_tuple) :
  valid_tuple comps -> Permutation (entries (conj_components comps)) (entries comps).
Proof.
  intros Hv. unfold entries, conj_components, entries_of_tableau.
  rewrite map_map. eapply perm_trans.
  - apply (concat_perm_pointwise
             (fun comp => concat (conjugate_tableau comp)) (@concat Z)).
    intros comp Hin. apply entries_conjugate.
    apply (valid_tuple_In comps); [assumption | now apply in_rev].
  - rewrite <- !flat_map_concat_map.
    apply Permutation_flat_map, Permutation_sym, Permutation_rev.
Qed.

Lemma conj_bijective (comps : tableau_tuple) :
  valid_tuple comps -> bijective comps -> bijective (conj_components comps).
Proof.
  intros Hv Hb. unfold bijective in *.
  pose proof (conj_entries comps Hv) as Hp.
  rewrite (Permutation_length Hp). eapply perm_trans; eassumption.
Qed.

Lemma conj_standard (comps : tableau_tuple) :
  is_standard_tuple comps -> is_standard_tuple (conj_components comps).
Proof.
  intros (Hv & Hr & Hb & Hc). repeat split.
  - now apply conj_valid.
  - now apply conj_row_strict.
  - now apply conj_bijective.
  - now apply conj_column_strict.
Qed.

Lemma conj_components_involutive (comps : tableau_tuple) :
  valid_tuple comps -> conj_components (conj_components comps) = comps.
Proof.
  intros Hv. unfold conj_components.
  rewrite <- map_rev, rev_involutive, map_map.
  rewrite <- (map_id comps) at 2. apply map_ext_in.
  intros comp Hin. apply conjugate_tableau_involutive.
  now apply (valid_tuple_In comps).
Qed.

Lemma standard_element_class_ok (comps : tableau_tuple) :
  row_strict comps -> bijective comps -> column_strict comps ->
  standard_element_class comps = Ok (StandardTableauTuple comps).
Proof.
  intros Hr Hb Hc. unfold standard_element_class, row_standard_checks.
  apply is_row_strict_spec in Hr. rewrite Hr. cbn [negb].
  apply sorted_is_range in Hb.
  destruct (list_eq_dec Z.eq_dec _ _) as [_|Hne]; [|contradiction].
  cbn. apply is_column_strict_spec in Hc. now rewrite Hc.
Qed.

Lemma one_component_standard (rows : tableau) (comps : tableau_tuple) :
  comps = [rows] -> is_standard_tuple comps ->
  level_one_element_class rows = Ok (StandardTableau rows).
Proof.
  intros -> (Hv & Hr & Hb & Hc). unfold level_one_element_class.
  now rewrite standard_element_class_ok.
Qed.

Section ParentFacts.

Variable parent_contains : tableau_tuple -> bool.

(** Conjugating a standard tableau tuple of positive level succeeds, and
    returns the conjugated components as a tuple or, at level 1, as a bare
    tableau. *)
Lemma conjugate_standard (comps : tableau_tuple) :
  is_standard_tuple comps -> comps <> [] ->
  exists e,
    conjugate parent_contains (StandardTableauTuple comps) = Ok e /\
    value_of e = Some (conj_components comps) /\
    (e = StandardTableauTuple (conj_components comps) \/
     exists rows, conj_components comps = [rows] /\ e = StandardTableau rows).
Proof.
  intros Hstd Hne.
  pose proof (conj_standard comps Hstd) as Hcs.
  destruct Hcs as (Hv' & Hr' & Hb' & Hc').
  pose proof (standard_element_class_ok _ Hr' Hb' Hc') as Hcls.
  assert (Hcne : conj_components comps <> []).
  { unfold conj_components. intros E. apply map_eq_nil in E.
    apply (f_equal (@rev tableau)) in E. rewrite rev_involutive in E.
    now apply Hne. }
  cbn [conjugate]. fold (conj_components comps).
  unfold element_constructor.
  destruct (parent_contains (conj_components comps)) eqn:Ep; cbn [negb].
  2:{ rewrite Hcls. eexists. split; [reflexivity|]. split; [reflexivity|]. now left. }
  destruct (conj_components comps) as [|t0 [|t1 rest]] eqn:Ec.
  - contradiction.
  - assert (H1 : level_one_element_class t0 = Ok (StandardTableau t0)).
    { apply (one_component_standard t0 [t0] eq_refl). repeat split; assumption. }
    destruct t0 as [|row rows]; cbn [is_empty_tuple]; rewrite H1;
      (eexists; split; [reflexivity|]; split; [reflexivity|]; right;
       eexists; split; reflexivity).
  - assert (His : is_empty_tuple (t0 :: t1 :: rest) = false)
      by (now destruct t0).
    rewrite His, Hcls.
    eexists. split; [reflexivity|]. split; [reflexivity|]. now left.
Qed.

End ParentFacts.

(** C6: for a standard tableau tuple [t] of positive level, whatever its
    parent, [t.conjugate()] succeeds, conjugating the result succeeds too,
    and the outcome equals [t]; [conjugate] reverses the components and
    transposes each of them. *)
Theorem conjugate_involutive (parent_contains : tableau_tuple -> bool)
        (comps : tableau_tuple) :
  is_standard_tuple comps -> comps <> [] ->
  exists e1 e2,
    conjugate parent_contains (StandardTableauTuple comps) = Ok e1 /\
    value_of e1 = Some (map (@conjugate_tableau Z) (rev comps)) /\
    conjugate parent_contains e1 = Ok e2 /\
    elem_eq e2 (StandardTableauTuple comps).
Proof.
  intros Hstd Hne.
  destruct (conjugate_standard parent_contains comps Hstd Hne)
    as (e1 & H1 & Hval1 & Hshape).
  pose proof Hstd as (Hv & _).
  exists e1. destruct Hshape as [->|(rows & Hrows & ->)].
  - assert (Hne' : conj_components comps <> []).
    { unfold conj_components. intros E. apply map_eq_nil in E.
      apply (f_equal (@rev tableau)) in E. rewrite rev_involutive in E.
      now apply Hne. }
    destruct (conjugate_standard parent_contains (conj_components comps)
                (conj_standard comps Hstd) Hne') as (e2 & H2 & Hval2 & _).
    exists e2. repeat split; try assumption.
    unfold elem_eq. rewrite Hval2. cbn.
    now rewrite conj_components_involutive.
  - exists (StandardTableau (conjugate_tableau rows)).
    repeat split; try assumption.
    unfold elem_eq. cbn.
    pose proof (conj_components_involutive comps Hv) as Hinv.
    rewrite Hrows in Hinv. cbn in Hinv. exact (eq_sym (eq_sym Hinv)).
Qed.

(** A decision procedure for concrete tuples. *)
Definition is_standard_tupleb (comps : tableau_tuple) : bool :=
  forallb (@valid_tableau Z) comps
  && forallb (is_row_strict Z.ltb) comps
  && (if list_eq_dec Z.eq_dec (sorted (entries comps))
                     (range1 (length (sorted (entries comps))))
      then true else false)
  && forallb (is_column_strict Z.ltb) comps.

Lemma is_standard_tupleb_sound (comps : tableau_tuple) :
  is_standard_tupleb comps = true -> is_standard_tuple comps.
Proof.
  unfold is_standard_tupleb. rewrite !andb_true_iff.
  intros [[[Hv Hr] Hb] Hc]. repeat split.
  - exact Hv.
  - now apply is_row_strict_spec.
  - apply sorted_is_range. now destruct (list_eq_dec Z.eq_dec _ _).
  - now apply is_column_strict_spec.
Qed.

Lemma conjugate_involutive_witness :
  exists e1 e2,
    conjugate (fun _ => true) (StandardTableauTuple square_and_five) = Ok e1 /\
    value_of e1 = Some (map (@conjugate_tableau Z) (rev square_and_five)) /\
    conjugate (fun _ => true) e1 = Ok e2 /\
    elem_eq e2 (StandardTableauTuple square_and_five).
Proof.
  apply conjugate_involutive.
  - apply is_standard_tupleb_sound. reflexivity.
  - discriminate.
Defined.

(** * The operations that return a new tableau tuple *)

(** ** Frames *)

Lemma frame_refl (h : heap) : frame h h.
Proof. split; [lia | reflexivity]. Qed.

Lemma frame_trans (h1 h2 h3 : heap) : frame h1 h2 -> frame h2 h3 -> frame h1 h3.
Proof.
  intros [L12 E12] [L23 E23]. split; [lia|].
  intros l Hl. rewrite E23 by lia. now apply E12.
Qed.

Lemma frame_app (h ext : heap) : frame h (h ++ ext).
Proof.
  split; [rewrite length_app; lia|].
  intros l Hl. now apply nth_error_app1.
Qed.


(** ** Reading through a frame *)






(** ** Hoare triples over the store *)

Definition triple {A : Type} (P : heap -> Prop) (c : M A)
           (Q : res A -> heap -> Prop) : Prop :=
  forall h, P h -> Q (snd (c h)) (fst (c h)).


Lemma triple_conseq {A : Type} (P P' : heap -> Prop) (c : M A)
      (Q Q' : res A -> heap -> Prop) :
  triple P' c Q' -> (forall h, P h -> P' h) -> (forall r h, Q' r h -> Q r h) ->
  triple P c Q.
Proof. intros Hc HP HQ h Hh. apply HQ, Hc, HP, Hh. Qed.

Lemma triple_ret {A : Type} (a : A) (Q : res A -> heap -> Prop) :
  triple (Q (Ok a)) (ret a) Q.
Proof. intros h H. exact H. Qed.

Lemma triple_raise {A : Type} (e : exn) (Q : res A -> heap -> Prop) :
  triple (Q (Raise e)) (raise e) Q.
Proof. intros h H. exact H. Qed.

Lemma triple_lift {A : Type} (r : res A) (Q : res A -> heap -> Prop) :
  triple (Q r) (lift r) Q.
Proof. intros h H. exact H. Qed.


Lemma triple_catch_ValueError {A : Type} (P : heap -> Prop) (c handler : M A)
      (Q R : res A -> heap -> Prop) :
  triple P c Q ->
  (forall msg, triple (Q (Raise (ValueError msg))) handler R) ->
  (forall r h, Q r h -> (forall msg, r <> Raise (ValueError msg)) -> R r h) ->
  triple P (catch_ValueError c handler) R.
Proof.
  intros Hc Hh Ho h HP. unfold catch_ValueError. specialize (Hc h HP).
  destruct (c h) as [h' [a|[msg|msg|msg]]]; cbn in *;
    try (apply Ho; [assumption | intros msg'; discriminate]).
  now apply (Hh msg).
Qed.

(** ** Computations that only add objects *)

(** [c] changes no object of the store it starts from, and [Q] relates the
    store before, the value returned and the store after. *)
Definition pure_alloc {A : Type} (c : M A) (Q : heap -> A -> heap -> Prop) : Prop :=
  forall h, frame h (fst (c h)) /\
            forall a, snd (c h) = Ok a -> Q h a (fst (c h)).

Definition anything {A : Type} : heap -> A -> heap -> Prop := fun _ _ _ => True.

Lemma pure_alloc_bind_gen {A B : Type} (c : M A) (k : A -> M B)
      (Q1 : heap -> A -> heap -> Prop) (Q2 : A -> heap -> B -> heap -> Prop)
      (Q : heap -> B -> heap -> Prop) :
  pure_alloc c Q1 -> (forall a, pure_alloc (k a) (Q2 a)) ->
  (forall h a h1 b h2,
      frame h h1 -> Q1 h a h1 -> frame h1 h2 -> Q2 a h1 b h2 -> Q h b h2) ->
  pure_alloc (bindM c k) Q.
Proof.
  intros Hc Hk HQ h. unfold bindM.
  destruct (Hc h) as [Hf H1]. destruct (c h) as [h1 [a|e]]; cbn in *.
  - destruct (Hk a h1) as [Hf2 H2]. split.
    + eapply frame_trans; eassumption.
    + intros b Hb. apply (HQ h a h1 b _ Hf (H1 a eq_refl) Hf2 (H2 b Hb)).
  - split; [exact Hf | discriminate].
Qed.

Lemma pure_alloc_weaken {A : Type} (c : M A) (Q Q' : heap -> A -> heap -> Prop) :
  pure_alloc c Q -> (forall h a h', frame h h' -> Q h a h' -> Q' h a h') ->
  pure_alloc c Q'.
Proof.
  intros H HQ h. destruct (H h) as [Hf Ha]. split; [exact Hf|].
  intros a E. apply HQ; [exact Hf | now apply Ha].
Qed.

Lemma pure_alloc_bind {A B : Type} (c : M A) (k : A -> M B) :
  pure_alloc c anything -> (forall a, pure_alloc (k a) anything) ->
  pure_alloc (bindM c k) anything.
Proof.
  intros Hc Hk.
  apply (pure_alloc_bind_gen c k anything (fun _ => anything)); try assumption.
  intros; exact I.
Qed.

Lemma pure_alloc_ret {A : Type} (a : A) : pure_alloc (ret a) anything.
Proof. intros h. split; [apply frame_refl | intros; exact I]. Qed.

Lemma pure_alloc_raise {A : Type} (e : exn) : pure_alloc (@raise A e) anything.
Proof. intros h. split; [apply frame_refl | intros; exact I]. Qed.

Lemma pure_alloc_lift {A : Type} (r : res A) : pure_alloc (lift r) anything.
Proof. intros h. split; [apply frame_refl | intros; exact I]. Qed.

Lemma pure_alloc_load (l : loc) :
  pure_alloc (load l) (fun h vs h' => h' = h /\ nth_error h l = Some vs).
Proof.
  intros h. unfold load.
  destruct (nth_error h l) as [vs|] eqn:E; cbn.
  - split; [apply frame_refl|]. intros a [= <-]. now split.
  - split; [apply frame_refl | discriminate].
Qed.

(** A new object is not one of the store it is added to. *)
Lemma pure_alloc_alloc (content : list value) :
  pure_alloc (alloc content)
             (fun h l h' => length h <= l /\ nth_error h' l = Some content).
Proof.
  intros h. split; [apply frame_app|]. cbn. intros a [= <-]. split; [lia|].
  rewrite nth_error_app2 by lia. now rewrite Nat.sub_diag.
Qed.

Lemma pure_alloc_as_ref (v : value) :
  pure_alloc (as_ref v) (fun h l h' => h' = h /\ v = VRef l).
Proof.
  intros h. destruct v as [z|l]; cbn.
  - split; [apply frame_refl | discriminate].
  - split; [apply frame_refl|]. intros a [= <-]. now split.
Qed.

Lemma pure_alloc_as_int (v : value) : pure_alloc (as_int v) anything.
Proof.
  intros h. destruct v; cbn; (split; [apply frame_refl | intros; exact I]).
Qed.

Lemma pure_alloc_any {A : Type} (c : M A) (Q : heap -> A -> heap -> Prop) :
  pure_alloc c Q -> pure_alloc c anything.
Proof. intros H. apply (pure_alloc_weaken c Q); [assumption | intros; exact I]. Qed.

Lemma pure_alloc_mapM {A B : Type} (f : A -> M B) (l : list A) :
  (forall a, pure_alloc (f a) anything) -> pure_alloc (mapM f l) anything.
Proof.
  intros Hf. induction l as [|a l IH]; cbn.
  - apply pure_alloc_ret.
  - apply pure_alloc_bind; [apply Hf|]. intros b.
    apply pure_alloc_bind; [apply IH|]. intros bs. apply pure_alloc_ret.
Qed.

Lemma pure_alloc_catch_ValueError {A : Type} (c handler : M A) :
  pure_alloc c anything -> pure_alloc handler anything ->
  pure_alloc (catch_ValueError c handler) anything.
Proof.
  intros Hc Hh h. split; [|intros; exact I]. unfold catch_ValueError.
  destruct (Hc h) as [Hf _]. destruct (c h) as [h' [a|[msg|msg|msg]]]; cbn in *;
    try exact Hf.
  eapply frame_trans; [exact Hf | apply Hh].
Qed.

Ltac pure_alloc_step :=
  first
    [ apply pure_alloc_ret | apply pure_alloc_raise | apply pure_alloc_lift
    | apply (pure_alloc_any _ _ (pure_alloc_load _))
    | apply (pure_alloc_any _ _ (pure_alloc_alloc _))
    | apply (pure_alloc_any _ _ (pure_alloc_as_ref _))
    | apply pure_alloc_as_int
    | apply pure_alloc_mapM; intros ?
    | apply pure_alloc_catch_ValueError
    | apply pure_alloc_bind; [|intros ?] ].

Lemma pure_alloc_new_row (row : list Z) : pure_alloc (new_row row) anything.
Proof. unfold new_row. repeat pure_alloc_step. Qed.



Lemma pure_alloc_load_row (v : value) : pure_alloc (load_row v) anything.
Proof. unfold load_row. repeat pure_alloc_step. Qed.



(** ** The copy made by [to_list] *)


















(** ** The in-place edit of [add_entry] *)

Section Edit.

(** The store when [add_entry] is called, and the copy made by [to_list]. *)
Variable h0 : heap.
Variable tab : loc.

Let n : nat := length h0.















End Edit.

(** ** The frame of the three operations *)

Section Operations.

Variable parent_accepts : tableau_tuple -> bool.
Variable element_class_accepts : tableau_tuple -> bool.






End Operations.


(** A store holding the tableau tuple [([[1, 2]], [[3]])] at location 6. *)
Definition small_store : heap :=
  [ [VInt 1; VInt 2]; [VRef 0]; [VInt 3]; [VRef 2]; [VRef 1; VRef 3];
    []; [VRef 1; VRef 3] ].


(** The new object of the witness holds the extended tableau tuple. *)
Example add_entry_extends_row :
  let out := add_entry (fun _ => true) (fun _ => true) 6 (0, 0, 2)%Z 4%Z small_store in
  exists l, snd out = Ok l /\
            read_tuple (fst out) l = Some [[[1; 2; 4]]; [[3]]]%Z.
Proof. eexists. split; reflexivity. Qed.

Example add_entry_overwrites_copy :
  let out := add_entry (fun _ => true) (fun _ => true) 6 (1, 0, 0)%Z 9%Z small_store in
  exists l, snd out = Ok l /\
            read_tuple (fst out) l = Some [[[1; 2]]; [[9]]]%Z /\
            read_tuple (fst out) 6 = Some [[[1; 2]]; [[3]]]%Z.
Proof. eexists. repeat split; reflexivity. Qed.

(** * The shape-indexed generator of standard tableau tuples *)

(** ** The cells of a shape, in reading order *)

(** The cells of the rows [nu] of component [k], the first row numbered [r]. *)
Fixpoint row_cells (k r : nat) (nu : list nat) : list (nat * nat * nat) :=
  match nu with
  | [] => []
  | len :: rest => map (fun c => (k, r, c)) (seq 0 len) ++ row_cells k (S r) rest
  end.

(** The cells of the components [mu], the first component numbered [k]. *)
Fixpoint comp_cells (k : nat) (mu : shape) : list (nat * nat * nat) :=
  match mu with
  | [] => []
  | nu :: rest => row_cells k 0 nu ++ comp_cells (S k) rest
  end.

(** Position [p] of the flat list is the cell [nth p (cells mu)]. *)
Definition cells (mu : shape) : list (nat * nat * nat) := comp_cells 0 mu.

(** The number of columns of a component. *)
Definition width (nu : list nat) : nat := hd 0 nu.
Definition total_width (mu : shape) : nat := sum_list (map width mu).

(** The column index of the first column of component [k]: the columns are
    numbered from the last component back. *)
Definition offset (mu : shape) (k : nat) : nat := total_width (skipn (S k) mu).

Lemma length_row_cells (k r : nat) (nu : list nat) :
  length (row_cells k r nu) = psize nu.
Proof.
  revert r. induction nu as [|len rest IH]; intros r; cbn; [reflexivity|].
  rewrite length_app, length_map, length_seq, IH. reflexivity.
Qed.

Lemma length_comp_cells (k : nat) (mu : shape) :
  length (comp_cells k mu) = size mu.
Proof.
  revert k. induction mu as [|nu rest IH]; intros k; cbn; [reflexivity|].
  rewrite length_app, length_row_cells, IH. reflexivity.
Qed.

Lemma length_cells (mu : shape) : length (cells mu) = size mu.
Proof. apply length_comp_cells. Qed.

Lemma nth_error_app_cases {A : Type} (l1 l2 : list A) (p : nat) (a : A) :
  nth_error (l1 ++ l2) p = Some a ->
  (p < length l1 /\ nth_error l1 p = Some a) \/
  (length l1 <= p /\ nth_error l2 (p - length l1) = Some a).
Proof.
  intros H. destruct (Nat.lt_ge_cases p (length l1)) as [Hlt|Hge].
  - left. split; [assumption|]. now rewrite nth_error_app1 in H.
  - right. split; [assumption|]. now rewrite nth_error_app2 in H.
Qed.

Lemma nth_error_row_segment (k r len p : nat) (cell : nat * nat * nat) :
  nth_error (map (fun c => (k, r, c)) (seq 0 len)) p = Some cell ->
  p < len /\ cell = (k, r, p).
Proof.
  rewrite nth_error_map, nth_error_seq.
  destruct (Nat.ltb_spec p len) as [Hlt|Hge]; cbn; [|discriminate].
  intros [= <-]. now split.
Qed.

(** The cells of the rows numbered from [r0] have that component and a row
    number from [r0] on. *)
Lemma row_cells_bounds (k r0 : nat) (nu : list nat) (p k' r c : nat) :
  nth_error (row_cells k r0 nu) p = Some (k', r, c) ->
  k' = k /\ r0 <= r /\ r < r0 + length nu /\ c < nth (r - r0) nu 0.
Proof.
  revert r0 p. induction nu as [|len rest IH]; intros r0 p H; cbn in H.
  - destruct p; discriminate.
  - apply nth_error_app_cases in H. destruct H as [[Hlt H]|[Hge H]].
    + apply nth_error_row_segment in H. destruct H as [Hp [= -> -> ->]].
      rewrite Nat.sub_diag. cbn. repeat split; lia.
    + apply IH in H. destruct H as (-> & Hr & Hr' & Hc).
      cbn [length]. repeat split; try lia.
      replace (r - r0) with (S (r - S r0)) by lia. exact Hc.
Qed.

(** The cell to the left is the position before. *)
Lemma row_cells_left (k r0 : nat) (nu : list nat) (p k' r c : nat) :
  nth_error (row_cells k r0 nu) p = Some (k', r, S c) ->
  1 <= p /\ nth_error (row_cells k r0 nu) (p - 1) = Some (k', r, c).
Proof.
  revert r0 p. induction nu as [|len rest IH]; intros r0 p H; cbn in H.
  - destruct p; discriminate.
  - cbn [row_cells]. apply nth_error_app_cases in H.
    rewrite length_map, length_seq in H. destruct H as [[Hlt H]|[Hge H]].
    + apply nth_error_row_segment in H. destruct H as [Hp [= -> -> <-]].
      split; [lia|]. rewrite nth_error_app1 by (rewrite length_map, length_seq; lia).
      rewrite nth_error_map, nth_error_seq.
      destruct (Nat.ltb_spec (S c - 1) len); [|lia]. cbn. do 3 f_equal. lia.
    + apply IH in H. destruct H as [Hp H]. split; [lia|].
      rewrite nth_error_app2 by (rewrite length_map, length_seq; lia).
      rewrite length_map, length_seq.
      replace (p - 1 - len) with (p - len - 1) by lia. exact H.
Qed.

(** In a partition the cell above exists, at an earlier position. *)
Lemma row_cells_up (k r0 : nat) (nu : list nat) (p k' r c : nat) :
  weakly_decreasing nu = true ->
  nth_error (row_cells k r0 nu) p = Some (k', S r, c) -> r0 <= r ->
  exists u, u < p /\ nth_error (row_cells k r0 nu) u = Some (k', r, c).
Proof.
  revert r0 p. induction nu as [|len rest IH]; intros r0 p Hwd H Hr; cbn in H.
  - destruct p; discriminate.
  - cbn [row_cells]. apply nth_error_app_cases in H.
    rewrite length_map, length_seq in H. destruct H as [[Hlt H]|[Hge H]].
    + apply nth_error_row_segment in H. destruct H as [Hp [= -> E ->]]. lia.
    + destruct (weakly_decreasing_cons len rest Hwd) as [Hwd' Hle].
      destruct (Nat.eq_dec r r0) as [->|Hne].
      * (* the cell above is in the first row *)
        pose proof (row_cells_bounds _ _ _ _ _ _ _ H) as (-> & _ & _ & Hc).
        rewrite Nat.sub_diag in Hc.
        assert (Hclen : c < len).
        { destruct rest as [|len' rest']; [cbn in Hc; lia|]. cbn in Hc.
          inversion Hle; subst. lia. }
        exists c. split; [lia|].
        rewrite nth_error_app1 by (rewrite length_map, length_seq; lia).
        rewrite nth_error_map, nth_error_seq.
        destruct (Nat.ltb_spec c len); [reflexivity | lia].
      * destruct (IH (S r0) (p - len) Hwd' H) as (u & Hu & Hcell); [lia|].
        exists (len + u). split; [lia|].
        rewrite nth_error_app2 by (rewrite length_map, length_seq; lia).
        rewrite length_map, length_seq.
        replace (len + u - len) with u by lia. exact Hcell.
Qed.

Lemma is_partition_weakly_decreasing (nu : list nat) :
  is_partition nu = true -> weakly_decreasing nu = true.
Proof. unfold is_partition. rewrite andb_true_iff. tauto. Qed.

Lemma nth_cumul (acc : nat) (l : list nat) (k : nat) :
  k <= length l -> nth k (cumul acc l) 0 = acc + sum_list (firstn k l).
Proof.
  revert acc k. induction l as [|h t IH]; intros acc k Hk.
  - cbn in Hk. assert (k = 0) by lia. subst. cbn. lia.
  - destruct k as [|k]; cbn; [lia|]. rewrite IH by (cbn in Hk; lia).
    unfold sum_list. lia.
Qed.

Lemma length_cumul (acc : nat) (l : list nat) : length (cumul acc l) = S (length l).
Proof. revert acc. induction l as [|h t IH]; intros acc; cbn; [|rewrite IH]; reflexivity. Qed.

(** Where the cells of a component lie in the flat list. *)
Lemma comp_cells_bounds (k0 : nat) (mu : shape) (p k r c : nat) :
  nth_error (comp_cells k0 mu) p = Some (k, r, c) ->
  k0 <= k /\ k < k0 + length mu /\
  r < length (nth (k - k0) mu []) /\ c < nth r (nth (k - k0) mu []) 0 /\
  sum_list (firstn (k - k0) (map psize mu)) <= p /\
  p < sum_list (firstn (S (k - k0)) (map psize mu)).
Proof.
  revert k0 p. induction mu as [|nu rest IH]; intros k0 p H; cbn in H.
  - destruct p; discriminate.
  - apply nth_error_app_cases in H. rewrite length_row_cells in H.
    destruct H as [[Hlt H]|[Hge H]].
    + apply row_cells_bounds in H. destruct H as (-> & _ & Hr & Hc).
      rewrite Nat.sub_diag. rewrite Nat.sub_0_r in Hc. cbn in *.
      repeat split; try lia.
    + apply IH in H. destruct H as (Hk & Hk' & Hr & Hc & Hlo & Hhi).
      replace (k - k0) with (S (k - S k0)) by lia. cbn [length nth map firstn].
      repeat split; try lia; try assumption.
      * unfold sum_list in *. cbn [fold_right]. lia.
      * unfold sum_list in *. cbn [fold_right firstn] in *. lia.
Qed.

Lemma comp_cells_left (k0 : nat) (mu : shape) (p k r c : nat) :
  nth_error (comp_cells k0 mu) p = Some (k, r, S c) ->
  1 <= p /\ nth_error (comp_cells k0 mu) (p - 1) = Some (k, r, c).
Proof.
  revert k0 p. induction mu as [|nu rest IH]; intros k0 p H; cbn in H.
  - destruct p; discriminate.
  - cbn [comp_cells]. apply nth_error_app_cases in H. rewrite length_row_cells in H.
    destruct H as [[Hlt H]|[Hge H]].
    + apply row_cells_left in H. destruct H as [Hp H]. split; [assumption|].
      rewrite nth_error_app1 by (rewrite length_row_cells; lia). exact H.
    + apply IH in H. destruct H as [Hp H]. split; [lia|].
      rewrite nth_error_app2 by (rewrite length_row_cells; lia).
      rewrite length_row_cells.
      replace (p - 1 - psize nu) with (p - psize nu - 1) by lia. exact H.
Qed.

Lemma comp_cells_up (k0 : nat) (mu : shape) (p k r c : nat) :
  is_partition_tuple mu = true ->
  nth_error (comp_cells k0 mu) p = Some (k, S r, c) ->
  exists u, u < p /\ nth_error (comp_cells k0 mu) u = Some (k, r, c).
Proof.
  revert k0 p. induction mu as [|nu rest IH]; intros k0 p Hv H; cbn in H.
  - destruct p; discriminate.
  - cbn in Hv. apply andb_true_iff in Hv. destruct Hv as [Hnu Hrest].
    cbn [comp_cells]. apply nth_error_app_cases in H. rewrite length_row_cells in H.
    destruct H as [[Hlt H]|[Hge H]].
    + apply row_cells_up in H; [|now apply is_partition_weakly_decreasing|lia].
      destruct H as (u & Hu & H). exists u. split; [assumption|].
      rewrite nth_error_app1 by (rewrite length_row_cells; lia). exact H.
    + destruct (IH (S k0) (p - psize nu) Hrest H) as (u & Hu & Hcell).
      exists (psize nu + u). split; [lia|].
      rewrite nth_error_app2 by (rewrite length_row_cells; lia).
      rewrite length_row_cells.
      replace (psize nu + u - psize nu) with u by lia. exact Hcell.
Qed.

Lemma NoDup_row_cells (k r0 : nat) (nu : list nat) : NoDup (row_cells k r0 nu).
Proof.
  revert r0. induction nu as [|len rest IH]; intros r0; cbn; [constructor|].
  apply NoDup_app.
  - apply NoDup_map_NoDup_ForallPairs; [|apply seq_NoDup].
    intros a b _ _ [= E]. exact E.
  - apply IH.
  - intros cell H1 H2. apply in_map_iff in H1. destruct H1 as (c & <- & _).
    apply In_nth_error in H2. destruct H2 as [p Hp].
    apply row_cells_bounds in Hp. lia.
Qed.

Lemma NoDup_comp_cells (k0 : nat) (mu : shape) : NoDup (comp_cells k0 mu).
Proof.
  revert k0. induction mu as [|nu rest IH]; intros k0; cbn; [constructor|].
  apply NoDup_app.
  - apply NoDup_row_cells.
  - apply IH.
  - intros [[k r] c] H1 H2.
    apply In_nth_error in H1, H2. destruct H1 as [p1 H1]. destruct H2 as [p2 H2].
    apply row_cells_bounds in H1. apply comp_cells_bounds in H2. lia.
Qed.

Lemma NoDup_cells (mu : shape) : NoDup (cells mu).
Proof. apply NoDup_comp_cells. Qed.

(** A cell has one position. *)
Lemma cells_inj (mu : shape) (p q : nat) (cell : nat * nat * nat) :
  nth_error (cells mu) p = Some cell -> nth_error (cells mu) q = Some cell -> p = q.
Proof.
  intros Hp Hq. apply (proj1 (NoDup_nth_error (cells mu)) (NoDup_cells mu)).
  - apply nth_error_Some. congruence.
  - congruence.
Qed.

(** ** The flat list cut along the rows of the shape *)

Fixpoint cut_rows (nu : list nat) (l : list nat) : list (list nat) :=
  match nu with
  | [] => []
  | len :: rest => firstn len l :: cut_rows rest (skipn len l)
  end.

Fixpoint cut_comps (mu : shape) (l : list nat) : list (list (list nat)) :=
  match mu with
  | [] => []
  | nu :: rest => cut_rows nu (firstn (psize nu) l) :: cut_comps rest (skipn (psize nu) l)
  end.

Lemma firstn_app_length {A : Type} (l1 l2 : list A) :
  firstn (length l1) (l1 ++ l2) = l1.
Proof.
  rewrite <- (Nat.add_0_r (length l1)), firstn_app_2. cbn. apply app_nil_r.
Qed.

Lemma sum_list_app (l1 l2 : list nat) :
  sum_list (l1 ++ l2) = sum_list l1 + sum_list l2.
Proof.
  induction l1 as [|a l1 IH]; cbn; [reflexivity|].
  unfold sum_list in *. cbn. rewrite IH. lia.
Qed.

Lemma nth_cumul_prefix (pre rest : list nat) :
  nth (length pre) (cumul 0 (pre ++ rest)) 0 = sum_list pre.
Proof.
  rewrite nth_cumul by (rewrite length_app; lia).
  now rewrite firstn_app_length.
Qed.

Lemma slices_cut_rows (tabc : list nat) (nu pre rest : list nat) :
  nu = pre ++ rest ->
  map (fun r => slice tabc (nth r (cumul 0 nu) 0) (nth (S r) (cumul 0 nu) 0))
      (seq (length pre) (length rest))
  = cut_rows rest (skipn (sum_list pre) tabc).
Proof.
  revert pre. induction rest as [|len rest IH]; intros pre Hnu; [reflexivity|].
  cbn [length seq map cut_rows]. f_equal.
  - subst nu. rewrite nth_cumul_prefix.
    replace (pre ++ len :: rest) with ((pre ++ [len]) ++ rest)
      by (now rewrite <- app_assoc).
    replace (S (length pre)) with (length (pre ++ [len]))
      by (rewrite length_app; cbn; lia).
    rewrite nth_cumul_prefix, sum_list_app. unfold slice.
    f_equal. cbn. unfold sum_list. cbn. lia.
  - specialize (IH (pre ++ [len])).
    rewrite length_app in IH. cbn [length] in IH.
    rewrite Nat.add_1_r in IH. rewrite IH by (subst nu; now rewrite <- app_assoc).
    rewrite sum_list_app, skipn_skipn. do 2 f_equal.
    unfold sum_list. cbn. lia.
Qed.

Lemma slices_cut_comps (tab : list nat) (mu pre rest : shape) :
  mu = pre ++ rest ->
  map (fun c =>
         map (fun r =>
                slice (slice tab (nth c (clen mu) 0) (nth (S c) (clen mu) 0))
                      (nth r (nth c (cclen mu) []) 0)
                      (nth (S r) (nth c (cclen mu) []) 0))
             (seq 0 (length (nth c mu []))))
      (seq (length pre) (length rest))
  = cut_comps rest (skipn (size pre) tab).
Proof.
  revert pre. induction rest as [|nu rest IH]; intros pre Hmu; [reflexivity|].
  cbn [length seq map cut_comps]. f_equal.
  - assert (Hnth : nth (length pre) mu [] = nu).
    { subst mu. rewrite app_nth2 by lia. now rewrite Nat.sub_diag. }
    assert (Hcc : nth (length pre) (cclen mu) [] = cumul 0 nu).
    { unfold cclen. rewrite <- Hnth.
      assert (Hlt : length pre < length mu)
        by (subst mu; rewrite length_app; cbn; lia).
      rewrite (nth_indep _ _ (cumul 0 [])) by (now rewrite length_map).
      now rewrite (map_nth (cumul 0) mu []). }
    rewrite Hnth, Hcc.
    assert (Hsl : slice tab (nth (length pre) (clen mu) 0)
                        (nth (S (length pre)) (clen mu) 0)
                  = firstn (psize nu) (skipn (size pre) tab)).
    { unfold clen. subst mu. rewrite map_app.
      replace (length pre) with (length (map psize pre)) by apply length_map.
      rewrite nth_cumul_prefix. cbn [map].
      replace (map psize pre ++ psize nu :: map psize rest)
        with ((map psize pre ++ [psize nu]) ++ map psize rest)
        by (now rewrite <- app_assoc).
      replace (S (length (map psize pre)))
        with (length (map psize pre ++ [psize nu]))
        by (rewrite length_app; cbn; lia).
      rewrite nth_cumul_prefix, sum_list_app. unfold slice, size.
      f_equal. unfold sum_list. cbn. lia. }
    rewrite Hsl.
    rewrite (slices_cut_rows _ nu [] nu eq_refl). reflexivity.
  - specialize (IH (pre ++ [nu])).
    rewrite length_app in IH. cbn [length] in IH.
    rewrite Nat.add_1_r in IH. rewrite IH by (subst mu; now rewrite <- app_assoc).
    unfold size. rewrite map_app, sum_list_app, skipn_skipn. do 2 f_equal.
    unfold sum_list. cbn. lia.
Qed.

(** [tableau_from_list] cuts the flat list into the components and rows. *)
Lemma tableau_from_list_cut (mu : shape) (tab : list nat) :
  tableau_from_list mu tab = cut_comps mu tab.
Proof.
  unfold tableau_from_list.
  exact (slices_cut_comps tab mu [] mu eq_refl).
Qed.

(** The initial tableau: the numbers from [b + 1] on, row after row. *)
Fixpoint rows_from (b : nat) (nu : list nat) : list (list nat) :=
  match nu with
  | [] => []
  | len :: rest => seq (S b) len :: rows_from (b + len) rest
  end.

Fixpoint comps_from (b : nat) (mu : shape) : list (list (list nat)) :=
  match mu with
  | [] => []
  | nu :: rest => rows_from b nu :: comps_from (b + psize nu) rest
  end.

Lemma firstn_seq_le (s n m : nat) : m <= n -> firstn m (seq s n) = seq s m.
Proof.
  revert s n. induction m as [|m IH]; intros s n H; [reflexivity|].
  destruct n as [|n]; [lia|]. cbn. f_equal. apply IH. lia.
Qed.

Lemma cut_rows_seq (nu : list nat) (b m : nat) :
  psize nu <= m -> cut_rows nu (seq (S b) m) = rows_from b nu.
Proof.
  revert b m. induction nu as [|len rest IH]; intros b m Hm; [reflexivity|].
  unfold psize, sum_list in Hm. cbn in Hm. cbn [cut_rows rows_from].
  rewrite firstn_seq_le by lia. f_equal.
  rewrite skipn_seq. replace (S b + len) with (S (b + len)) by lia.
  apply IH. unfold psize, sum_list. lia.
Qed.

Lemma cut_comps_seq (mu : shape) (b m : nat) :
  size mu <= m -> cut_comps mu (seq (S b) m) = comps_from b mu.
Proof.
  revert b m. induction mu as [|nu rest IH]; intros b m Hm; [reflexivity|].
  unfold size, sum_list in Hm. cbn in Hm. cbn [cut_comps comps_from].
  rewrite firstn_seq_le by lia. rewrite cut_rows_seq by lia. f_equal.
  rewrite skipn_seq. replace (S b + psize nu) with (S (b + psize nu)) by lia.
  apply IH. unfold size, sum_list. lia.
Qed.

Lemma initial_tableau_eq (mu : shape) :
  tableau_from_list mu (seq 1 (size mu)) = comps_from 0 mu.
Proof. rewrite tableau_from_list_cut. now apply cut_comps_seq. Qed.

(** ** The tables [cols] and [mins] of the initial tableau *)

Ltac split_bounds :=
  repeat match goal with
         | |- context [?a <=? ?b] => destruct (Nat.leb_spec a b)
         | |- context [?a <? ?b] => destruct (Nat.ltb_spec a b)
         | |- context [?a =? ?b] => destruct (Nat.eqb_spec a b)
         end; cbn [andb orb negb].

Lemma setitem_ok {A : Type} (l : list A) (i : nat) (a : A) :
  i < length l -> setitem l i a = Ok (set_nth l i a).
Proof.
  intros H. unfold setitem. destruct (Nat.ltb_spec i (length l)); [reflexivity|lia].
Qed.

Lemma getitem_ok {A : Type} (l : list A) (i : nat) (a : A) :
  nth_error l i = Some a -> getitem l i = Ok a.
Proof. intros H. unfold getitem. now rewrite H. Qed.

Lemma nth_error_set_nth {A : Type} (l : list A) (i j : nat) (a : A) :
  i < length l ->
  nth_error (set_nth l i a) j = if i =? j then Some a else nth_error l j.
Proof.
  intros Hi. destruct (Nat.eqb_spec i j) as [->|Hne].
  - now apply nth_error_set_nth_same.
  - now apply nth_error_set_nth_other.
Qed.

(** The cells of one row: the entries are [b + 1 ..]. *)
Lemma init_cell_loop (offset row b len : nat) (t : list (list nat)) :
  nth_error t row = Some (seq (S b) len) ->
  forall (m j : nat) (cols mins : list nat),
    j + m <= len -> S b + len <= length cols -> b + len <= length mins ->
    exists cols' mins',
      for_each (init_cell offset row t) (seq j m) (cols, mins) = Ok (cols', mins') /\
      length cols' = length cols /\ length mins' = length mins /\
      (forall i, nth_error cols' i =
                 if (S b + j <=? i) && (i <? S b + j + m)
                 then Some (i - S b + offset) else nth_error cols i) /\
      (forall i, nth_error mins' i =
                 if (b + j <=? i) && (i <? b + j + m)
                 then Some (row + (i - b)) else nth_error mins i).
Proof.
  intros Ht. induction m as [|m IH]; intros j cols mins Hj Hc Hm.
  - exists cols, mins. cbn [seq for_each].
    split; [reflexivity|]. split; [reflexivity|]. split; [reflexivity|].
    split; intros i; split_bounds; try reflexivity; lia.
  - cbn [seq for_each]. unfold init_cell at 1.
    rewrite (getitem_ok _ _ _ Ht). cbn [bind fst snd].
    assert (Hv : nth_error (seq (S b) len) j = Some (S b + j)).
    { rewrite nth_error_seq. destruct (Nat.ltb_spec j len); [reflexivity|lia]. }
    rewrite (getitem_ok _ _ _ Hv). cbn [bind].
    rewrite setitem_ok by lia. cbn [bind].
    replace (S b + j =? 0) with false by (symmetry; apply Nat.eqb_neq; lia).
    rewrite setitem_ok by lia. cbn [bind].
    destruct (IH (S j) (set_nth cols (S b + j) (j + offset))
                 (set_nth mins (S b + j - 1) (row + j)))
      as (cols' & mins' & Hrun & Hlc & Hlm & Hcols & Hmins);
      rewrite ?length_set_nth; try lia.
    exists cols', mins'. split; [exact Hrun|].
    rewrite length_set_nth in Hlc, Hlm.
    split; [exact Hlc|]. split; [exact Hlm|].
    split; intros i.
    + rewrite Hcols, nth_error_set_nth by lia.
      split_bounds; try reflexivity; try lia. f_equal. lia.
    + rewrite Hmins, nth_error_set_nth by lia.
      split_bounds; try reflexivity; try lia. f_equal. lia.
Qed.

Lemma init_row_spec (offset row b len : nat) (t : list (list nat))
      (cols mins : list nat) :
  nth_error t row = Some (seq (S b) len) ->
  S b + len <= length cols -> b + len <= length mins ->
  exists cols' mins',
    init_row offset t (cols, mins) row = Ok (cols', mins') /\
    length cols' = length cols /\ length mins' = length mins /\
    (forall i, nth_error cols' i =
               if (S b <=? i) && (i <? S b + len)
               then Some (i - S b + offset) else nth_error cols i) /\
    (forall i, nth_error mins' i =
               if (b <=? i) && (i <? b + len)
               then Some (row + (i - b)) else nth_error mins i).
Proof.
  intros Ht Hc Hm. unfold init_row. rewrite (getitem_ok _ _ _ Ht). cbn [bind].
  rewrite length_seq.
  destruct (init_cell_loop offset row b len t Ht len 0 cols mins)
    as (cols' & mins' & Hrun & Hlc & Hlm & Hcols & Hmins); try lia.
  exists cols', mins'. rewrite !Nat.add_0_r in *.
  repeat (split; [assumption|]). assumption.
Qed.

Lemma sum_firstn_S (l : list nat) (r : nat) :
  sum_list (firstn (S r) l) = sum_list (firstn r l) + nth r l 0.
Proof.
  revert r. induction l as [|a l IH]; intros r.
  - destruct r; reflexivity.
  - destruct r as [|r].
    + cbn. unfold sum_list. cbn. lia.
    + change (firstn (S (S r)) (a :: l)) with (a :: firstn (S r) l).
      change (firstn (S r) (a :: l)) with (a :: firstn r l).
      change (nth (S r) (a :: l) 0) with (nth r l 0).
      unfold sum_list in *. cbn [fold_right]. rewrite IH. lia.
Qed.

Lemma sum_firstn_le (l : list nat) (r : nat) :
  sum_list (firstn r l) <= sum_list l.
Proof.
  rewrite <- (firstn_skipn r l) at 2. rewrite sum_list_app. lia.
Qed.

Lemma sum_firstn_mono (l : list nat) (r r' : nat) :
  r <= r' -> sum_list (firstn r l) <= sum_list (firstn r' l).
Proof.
  induction 1 as [|r' _ IH]; [lia|]. rewrite sum_firstn_S. lia.
Qed.

Lemma nth_error_rows_from (nu : list nat) (b r : nat) :
  r < length nu ->
  nth_error (rows_from b nu) r
  = Some (seq (S (b + sum_list (firstn r nu))) (nth r nu 0)).
Proof.
  revert b r. induction nu as [|len rest IH]; intros b r Hr; [cbn in Hr; lia|].
  destruct r as [|r].
  - cbn. unfold sum_list. cbn. now rewrite Nat.add_0_r.
  - cbn [rows_from nth_error]. rewrite IH by (cbn in Hr; lia).
    cbn [firstn nth]. unfold sum_list. cbn [fold_right].
    do 2 f_equal. lia.
Qed.

Lemma length_rows_from (nu : list nat) (b : nat) :
  length (rows_from b nu) = length nu.
Proof. revert b. induction nu as [|len rest IH]; intros b; cbn; [|rewrite IH]; reflexivity. Qed.

Lemma length_comps_from (mu : shape) (b : nat) :
  length (comps_from b mu) = length mu.
Proof. revert b. induction mu as [|nu rest IH]; intros b; cbn; [|rewrite IH]; reflexivity. Qed.

(** Where a cell of a component lies among the cells of the component. *)
Lemma row_cells_nth (k r0 : nat) (nu : list nat) (r c : nat) :
  r < length nu -> c < nth r nu 0 ->
  nth_error (row_cells k r0 nu) (sum_list (firstn r nu) + c) = Some (k, r0 + r, c).
Proof.
  revert r0 r. induction nu as [|len rest IH]; intros r0 r Hr Hc; [cbn in Hr; lia|].
  destruct r as [|r].
  - cbn in Hc. cbn [firstn row_cells]. unfold sum_list. cbn [fold_right].
    rewrite nth_error_app1 by (rewrite length_map, length_seq; lia).
    rewrite nth_error_map, nth_error_seq.
    destruct (Nat.ltb_spec (0 + c) len); [|lia]. cbn. now rewrite Nat.add_0_r.
  - cbn [firstn row_cells nth] in *. unfold sum_list. cbn [fold_right].
    rewrite nth_error_app2 by (rewrite length_map, length_seq; lia).
    rewrite length_map, length_seq.
    replace (len + fold_right Nat.add 0 (firstn r rest) + c - len)
      with (sum_list (firstn r rest) + c) by (unfold sum_list; lia).
    rewrite IH by (cbn in Hr; lia || assumption).
    replace (S r0 + r) with (r0 + S r) by lia. reflexivity.
Qed.

(** The relative position of a cell determines its row. *)
Lemma row_cells_at (k : nat) (nu : list nat) (q r : nat) :
  r < length nu ->
  sum_list (firstn r nu) <= q < sum_list (firstn (S r) nu) ->
  nth_error (row_cells k 0 nu) q = Some (k, r, q - sum_list (firstn r nu)).
Proof.
  intros Hr Hq. rewrite sum_firstn_S in Hq.
  replace q with (sum_list (firstn r nu) + (q - sum_list (firstn r nu))) at 1 by lia.
  rewrite row_cells_nth by lia. reflexivity.
Qed.

(** The rows of one component. *)
Lemma init_rows_loop (offset k b : nat) (nu : list nat) :
  forall (m r0 : nat) (cols mins : list nat),
    r0 + m <= length nu ->
    S b + psize nu <= length cols -> b + psize nu <= length mins ->
    exists cols' mins',
      for_each (init_row offset (rows_from b nu)) (seq r0 m) (cols, mins)
      = Ok (cols', mins') /\
      length cols' = length cols /\ length mins' = length mins /\
      (forall i, nth_error cols' i =
                 if (S b + sum_list (firstn r0 nu) <=? i)
                    && (i <? S b + sum_list (firstn (r0 + m) nu))
                 then option_map (fun cell => snd cell + offset)
                                 (nth_error (row_cells k 0 nu) (i - S b))
                 else nth_error cols i) /\
      (forall i, nth_error mins' i =
                 if (b + sum_list (firstn r0 nu) <=? i)
                    && (i <? b + sum_list (firstn (r0 + m) nu))
                 then option_map (fun cell => snd (fst cell) + snd cell)
                                 (nth_error (row_cells k 0 nu) (i - b))
                 else nth_error mins i).
Proof.
  induction m as [|m IH]; intros r0 cols mins Hr Hc Hm.
  - exists cols, mins. cbn [seq for_each]. rewrite Nat.add_0_r.
    split; [reflexivity|]. split; [reflexivity|]. split; [reflexivity|].
    split; intros i; split_bounds; try reflexivity; lia.
  - cbn [seq for_each].
    assert (Hrow := nth_error_rows_from nu b r0 ltac:(lia)).
    assert (HS := sum_firstn_S nu r0).
    assert (Hle := sum_firstn_le nu (S r0)). fold (psize nu) in Hle.
    assert (Hmono := sum_firstn_mono nu (S r0) (S r0 + m) ltac:(lia)).
    destruct (init_row_spec offset r0 _ _ _ cols mins Hrow)
      as (cols1 & mins1 & Hrun1 & Hlc1 & Hlm1 & Hcols1 & Hmins1); try lia.
    rewrite Hrun1. cbn [bind].
    destruct (IH (S r0) cols1 mins1)
      as (cols' & mins' & Hrun & Hlc & Hlm & Hcols & Hmins); try lia.
    exists cols', mins'. split; [exact Hrun|].
    split; [lia|]. split; [lia|].
    replace (r0 + S m) with (S r0 + m) by lia.
    split; intros i.
    + rewrite Hcols, Hcols1.
      split_bounds; try reflexivity; try lia.
      rewrite (row_cells_at k nu (i - S b) r0) by lia.
      cbn. f_equal. lia.
    + rewrite Hmins, Hmins1.
      split_bounds; try reflexivity; try lia.
      rewrite (row_cells_at k nu (i - b) r0) by lia.
      cbn. f_equal. lia.
Qed.

Lemma init_tableau_spec (offset k b : nat) (nu : list nat) (cols mins : list nat) :
  S b + psize nu <= length cols -> b + psize nu <= length mins ->
  exists cols' mins',
    init_tableau ((cols, mins), offset) (rows_from b nu)
    = Ok ((cols', mins'), offset + width nu) /\
    length cols' = length cols /\ length mins' = length mins /\
    (forall i, nth_error cols' i =
               if (S b <=? i) && (i <? S b + psize nu)
               then option_map (fun cell => snd cell + offset)
                               (nth_error (row_cells k 0 nu) (i - S b))
               else nth_error cols i) /\
    (forall i, nth_error mins' i =
               if (b <=? i) && (i <? b + psize nu)
               then option_map (fun cell => snd (fst cell) + snd cell)
                               (nth_error (row_cells k 0 nu) (i - b))
               else nth_error mins i).
Proof.
  intros Hc Hm. unfold init_tableau. rewrite length_rows_from.
  destruct (init_rows_loop offset k b nu (length nu) 0 cols mins)
    as (cols' & mins' & Hrun & Hlc & Hlm & Hcols & Hmins); try lia.
  rewrite Hrun. cbn [bind]. exists cols', mins'.
  cbn [firstn Nat.add] in Hcols, Hmins. rewrite firstn_all in Hcols, Hmins.
  change (sum_list []) with 0 in Hcols, Hmins. fold (psize nu) in Hcols, Hmins.
  rewrite !Nat.add_0_r in *.
  split.
  - destruct nu as [|len rest]; cbn [rows_from width hd].
    + now rewrite Nat.add_0_r.
    + now rewrite length_seq.
  - repeat (split; [assumption|]). assumption.
Qed.

Lemma size_app (pre suf : shape) : size (pre ++ suf) = size pre + size suf.
Proof. unfold size. now rewrite map_app, sum_list_app. Qed.

Lemma size_cons (nu : list nat) (mu : shape) : size (nu :: mu) = psize nu + size mu.
Proof. reflexivity. Qed.

Lemma total_width_cons (nu : list nat) (mu : shape) :
  total_width (nu :: mu) = width nu + total_width mu.
Proof. reflexivity. Qed.

Lemma comps_from_app (b : nat) (pre suf : shape) :
  comps_from b (pre ++ suf) = comps_from b pre ++ comps_from (b + size pre) suf.
Proof.
  revert b. induction pre as [|nu pre IH]; intros b.
  - cbn. unfold size, sum_list. cbn. now rewrite Nat.add_0_r.
  - cbn [app comps_from]. rewrite IH, size_cons. do 3 f_equal. lia.
Qed.

Lemma comp_cells_app (k : nat) (pre suf : shape) :
  comp_cells k (pre ++ suf) = comp_cells k pre ++ comp_cells (k + length pre) suf.
Proof.
  revert k. induction pre as [|nu pre IH]; intros k.
  - cbn. now rewrite Nat.add_0_r.
  - cbn [app comp_cells length]. rewrite IH, <- app_assoc. do 3 f_equal. lia.
Qed.

(** The cells of component [length pre] inside the cells of the tuple. *)
Lemma comp_cells_nth (k0 : nat) (pre : shape) (nu : list nat) (suf : shape) (q : nat) :
  q < psize nu ->
  nth_error (comp_cells k0 (pre ++ nu :: suf)) (size pre + q)
  = nth_error (row_cells (k0 + length pre) 0 nu) q.
Proof.
  intros Hq. rewrite comp_cells_app.
  rewrite nth_error_app2 by (rewrite length_comp_cells; lia).
  rewrite length_comp_cells. replace (size pre + q - size pre) with q by lia.
  cbn [comp_cells]. now rewrite nth_error_app1 by (now rewrite length_row_cells).
Qed.

Lemma offset_middle (pre : shape) (nu : list nat) (suf : shape) :
  offset (pre ++ nu :: suf) (length pre) = total_width suf.
Proof.
  unfold offset. f_equal.
  replace (pre ++ nu :: suf) with ((pre ++ [nu]) ++ suf) by (now rewrite <- app_assoc).
  replace (S (length pre)) with (length (pre ++ [nu]))
    by (rewrite length_app; cbn; lia).
  rewrite skipn_app, Nat.sub_diag, skipn_all. reflexivity.
Qed.

(** The column index and the least entry of a cell. *)
Definition col_index (mu : shape) (cell : nat * nat * nat) : nat :=
  snd cell + offset mu (fst (fst cell)).
Definition least_entry (cell : nat * nat * nat) : nat :=
  snd (fst cell) + snd cell.

Lemma init_tuple_loop (mu : shape) :
  forall (pre suf : shape), mu = pre ++ suf ->
  forall (cols mins : list nat),
    length cols = S (size mu) -> length mins = size mu ->
    exists cols' mins',
      for_each init_tableau (rev (comps_from 0 pre)) ((cols, mins), total_width suf)
      = Ok ((cols', mins'), total_width mu) /\
      length cols' = length cols /\ length mins' = length mins /\
      (forall i, nth_error cols' i =
                 if (1 <=? i) && (i <? S (size pre))
                 then option_map (col_index mu) (nth_error (cells mu) (i - 1))
                 else nth_error cols i) /\
      (forall i, nth_error mins' i =
                 if i <? size pre
                 then option_map least_entry (nth_error (cells mu) i)
                 else nth_error mins i).
Proof.
  induction pre as [|nu pre IH] using rev_ind; intros suf Hmu cols mins Hc Hm.
  - cbn in Hmu. subst suf. exists cols, mins. cbn [comps_from rev for_each].
    split; [reflexivity|]. split; [reflexivity|]. split; [reflexivity|].
    change (size []) with 0.
    split; intros i; split_bounds; try reflexivity; lia.
  - rewrite comps_from_app. cbn [comps_from]. rewrite rev_app_distr.
    cbn [rev app for_each]. rewrite Nat.add_0_l.
    assert (Hsz : size mu = size pre + psize nu + size suf).
    { subst mu. rewrite !size_app. unfold size at 2, sum_list. cbn. lia. }
    destruct (init_tableau_spec (total_width suf) (length pre) (size pre) nu cols mins)
      as (cols1 & mins1 & Hrun1 & Hlc1 & Hlm1 & Hcols1 & Hmins1); try lia.
    rewrite Hrun1. cbn [bind].
    replace (total_width suf + width nu) with (total_width (nu :: suf))
      by (rewrite total_width_cons; lia).
    destruct (IH (nu :: suf) ltac:(subst mu; now rewrite <- app_assoc) cols1 mins1)
      as (cols' & mins' & Hrun & Hlc & Hlm & Hcols & Hmins); try lia.
    exists cols', mins'. split; [exact Hrun|].
    split; [lia|]. split; [lia|].
    assert (Hsz' : size (pre ++ [nu]) = size pre + psize nu).
    { rewrite size_app. unfold size at 2, sum_list. cbn. lia. }
    rewrite Hsz'.
    assert (Hcell : forall q, q < psize nu ->
              exists r c, nth_error (row_cells (length pre) 0 nu) q
                          = Some (length pre, r, c) /\
                          nth_error (cells mu) (size pre + q)
                          = Some (length pre, r, c)).
    { intros q Hq.
      destruct (nth_error (row_cells (length pre) 0 nu) q) as [[[k r] c]|] eqn:E.
      - destruct (row_cells_bounds _ _ _ _ _ _ _ E) as (-> & _).
        exists r, c. split; [reflexivity|].
        unfold cells. subst mu. rewrite <- app_assoc. cbn [app].
        rewrite comp_cells_nth by assumption. exact E.
      - apply nth_error_None in E. rewrite length_row_cells in E. lia. }
    assert (Hoff : offset mu (length pre) = total_width suf).
    { subst mu. rewrite <- app_assoc. apply offset_middle. }
    split; intros i.
    + rewrite Hcols, Hcols1.
      split_bounds; try reflexivity; try lia.
      destruct (Hcell (i - S (size pre)) ltac:(lia)) as (r & c & E1 & E2).
      replace (size pre + (i - S (size pre))) with (i - 1) in E2 by lia.
      rewrite E1, E2. cbn [option_map]. unfold col_index. cbn [fst snd].
      now rewrite Hoff.
    + rewrite Hmins, Hmins1.
      split_bounds; try reflexivity; try lia.
      destruct (Hcell (i - size pre) ltac:(lia)) as (r & c & E1 & E2).
      replace (size pre + (i - size pre)) with i in E2 by lia.
      rewrite E1, E2. reflexivity.
Qed.

Lemma nth_error_repeat_cases {A : Type} (a : A) (n i : nat) :
  nth_error (repeat a n) i = if i <? n then Some a else None.
Proof.
  revert i. induction n as [|n IH]; intros i.
  - destruct i; reflexivity.
  - destruct i as [|i]; [reflexivity|]. cbn [repeat nth_error]. rewrite IH.
    split_bounds; try reflexivity; lia.
Qed.

Lemma nth_error_eq_lists {A : Type} (l1 l2 : list A) :
  (forall i, nth_error l1 i = nth_error l2 i) -> l1 = l2.
Proof.
  revert l2. induction l1 as [|a l1 IH]; intros l2 H.
  - destruct l2; [reflexivity|]. specialize (H 0). discriminate.
  - destruct l2 as [|b l2]; [specialize (H 0); discriminate|].
    f_equal.
    + specialize (H 0). now injection H.
    + apply IH. intros i. exact (H (S i)).
Qed.

(** The tables of the initial tableau, cell by cell. *)
Definition initial_cols (mu : shape) : list nat := 0 :: map (col_index mu) (cells mu).
Definition initial_mins (mu : shape) : list nat := map least_entry (cells mu).

Lemma init_cols_mins_eq (mu : shape) :
  init_cols_mins (size mu) (tableau_from_list mu (seq 1 (size mu)))
  = Ok (initial_cols mu, initial_mins mu).
Proof.
  rewrite initial_tableau_eq. unfold init_cols_mins.
  destruct (init_tuple_loop mu mu [] (eq_sym (app_nil_r mu))
              (repeat 0 (size mu + 1)) (repeat 0 (size mu)))
    as (cols' & mins' & Hrun & Hlc & Hlm & Hcols & Hmins).
  { rewrite repeat_length. lia. }
  { now rewrite repeat_length. }
  change (total_width []) with 0 in Hrun. rewrite Hrun. cbn [bind fst].
  f_equal. f_equal.
  - apply nth_error_eq_lists. intros i. rewrite Hcols, nth_error_repeat_cases.
    unfold initial_cols. destruct i as [|i].
    + split_bounds; try reflexivity; lia.
    + cbn [nth_error]. rewrite nth_error_map. replace (S i - 1) with i by lia.
      split_bounds; try reflexivity; try lia.
      assert (E : nth_error (cells mu) i = None)
        by (apply nth_error_None; rewrite length_cells; lia).
      now rewrite E.
  - apply nth_error_eq_lists. intros i. rewrite Hmins, nth_error_repeat_cases.
    unfold initial_mins. rewrite nth_error_map.
    split_bounds; try reflexivity; try lia.
    assert (E : nth_error (cells mu) i = None)
      by (apply nth_error_None; rewrite length_cells; lia).
    now rewrite E.
Qed.

(** ** The table [component] and the slices of the components *)

Lemma map_row_cells_component (k r : nat) (nu : list nat) :
  map (fun cell => S (fst (fst cell))) (row_cells k r nu) = repeat (S k) (psize nu).
Proof.
  revert r. induction nu as [|len rest IH]; intros r; [reflexivity|].
  cbn [row_cells]. rewrite map_app, map_map, IH. cbn [fst].
  change (psize (len :: rest)) with (len + psize rest). rewrite repeat_app.
  f_equal. clear. generalize 0.
  induction len as [|len IH]; intros s; cbn; [|rewrite IH]; reflexivity.
Qed.

Lemma component_from (mu : shape) (k0 : nat) :
  concat (map (fun i => repeat (k0 + i + 1) (psize (nth i mu [])))
              (seq 0 (length mu)))
  = map (fun cell => S (fst (fst cell))) (comp_cells k0 mu).
Proof.
  revert k0. induction mu as [|nu rest IH]; intros k0; [reflexivity|].
  cbn [length seq map concat comp_cells nth].
  rewrite map_app, map_row_cells_component. f_equal.
  - f_equal. lia.
  - rewrite <- seq_shift, map_map, <- IH. f_equal.
    apply map_ext. intros i. cbn [nth]. f_equal. lia.
Qed.

Lemma component_eq (mu : shape) :
  component mu = map (fun cell => S (fst (fst cell))) (cells mu).
Proof. exact (component_from mu 0). Qed.

Lemma nth_clen (mu : shape) (k : nat) :
  k <= length mu -> nth k (clen mu) 0 = sum_list (firstn k (map psize mu)).
Proof.
  intros Hk. unfold clen. rewrite nth_cumul by (now rewrite length_map).
  reflexivity.
Qed.

Lemma clen_mono (mu : shape) (k k' : nat) :
  k <= k' -> k' <= length mu -> nth k (clen mu) 0 <= nth k' (clen mu) 0.
Proof.
  intros Hk Hk'. rewrite !nth_clen by lia. now apply sum_firstn_mono.
Qed.

Lemma clen_le_size (mu : shape) (k : nat) :
  k <= length mu -> nth k (clen mu) 0 <= size mu.
Proof. intros Hk. rewrite nth_clen by lia. apply sum_firstn_le. Qed.

(** ** Neighbouring cells *)

(** [covers mu p q]: position [q] is the cell to the right of or below the
    cell at position [p]. *)
Definition covers (mu : shape) (p q : nat) : Prop :=
  exists k r c, nth_error (cells mu) p = Some (k, r, c) /\
                (nth_error (cells mu) q = Some (k, r, S c) \/
                 nth_error (cells mu) q = Some (k, S r, c)).

Lemma covers_lt (mu : shape) (p q : nat) :
  is_partition_tuple mu = true -> covers mu p q -> p < q.
Proof.
  intros Hmu (k & r & c & Hp & [Hq|Hq]).
  - destruct (comp_cells_left 0 mu q k r c Hq) as [H1 Hl].
    assert (p = q - 1) by (eapply cells_inj; eassumption). lia.
  - destruct (comp_cells_up 0 mu q k r c Hmu Hq) as (u & Hu & Hcell).
    assert (p = u) by (eapply cells_inj; eassumption). lia.
Qed.

(** A cell has the cell to its left, and the cell above it, below it in
    this order. *)
Lemma covered_cases (mu : shape) (q k r c : nat) :
  is_partition_tuple mu = true ->
  nth_error (cells mu) q = Some (k, r, c) ->
  (c = 0 /\ r = 0) \/
  (exists p, covers mu p q /\ exists r' c', nth_error (cells mu) p = Some (k, r', c')
                                           /\ r' + c' + 1 = r + c).
Proof.
  intros Hmu Hq. destruct c as [|c].
  - destruct r as [|r]; [now left|]. right.
    destruct (comp_cells_up 0 mu q k r 0 Hmu Hq) as (u & Hu & Hcell).
    exists u. split.
    + exists k, r, 0. split; [exact Hcell | now right].
    + exists r, 0. split; [exact Hcell | lia].
  - right. destruct (comp_cells_left 0 mu q k r c Hq) as [H1 Hl].
    exists (q - 1). split.
    + exists k, r, c. split; [exact Hl | now left].
    + exists r, c. split; [exact Hl | lia].
Qed.

(** ** The column indices of the components *)

Lemma row_le_width (nu : list nat) (r : nat) :
  is_partition nu = true -> nth r nu 0 <= width nu.
Proof.
  intros H. apply is_partition_weakly_decreasing in H.
  destruct nu as [|a rest]; [destruct r; cbn; lia|].
  destruct r as [|r]; [cbn; lia|].
  apply weakly_decreasing_cons in H. destruct H as [_ Hall].
  cbn [nth width hd].
  destruct (Nat.lt_ge_cases r (length rest)) as [Hlt|Hge].
  - rewrite Forall_forall in Hall. apply Hall. now apply nth_In.
  - rewrite nth_overflow by assumption. lia.
Qed.

Lemma offset_succ (mu : shape) (k : nat) :
  S k < length mu ->
  offset mu k = width (nth (S k) mu []) + offset mu (S k).
Proof.
  intros Hk. unfold offset.
  assert (E : skipn (S k) mu = nth (S k) mu [] :: skipn (S (S k)) mu).
  { revert Hk. generalize (S k). clear. intros j. revert j.
    induction mu as [|nu rest IH]; intros j Hj; [cbn in Hj; lia|].
    destruct j as [|j]; [reflexivity|]. cbn [skipn nth].
    apply IH. cbn in Hj. lia. }
  rewrite E. reflexivity.
Qed.

Lemma offset_decreasing (mu : shape) (k k' : nat) :
  k' < k -> k < length mu ->
  width (nth k mu []) + offset mu k <= offset mu k'.
Proof.
  intros Hlt Hk. induction Hlt as [|k Hlt IH].
  - rewrite (offset_succ mu k') by lia. lia.
  - specialize (IH ltac:(lia)). rewrite (offset_succ mu k) in IH by lia. lia.
Qed.

(** A larger column index lies in the same or an earlier component. *)
Lemma col_index_component (mu : shape) (p q k r c k' r' c' : nat) :
  is_partition_tuple mu = true ->
  nth_error (cells mu) p = Some (k, r, c) ->
  nth_error (cells mu) q = Some (k', r', c') ->
  col_index mu (k', r', c') < col_index mu (k, r, c) ->
  k <= k'.
Proof.
  intros Hmu Hp Hq Hlt. unfold col_index in Hlt. cbn [fst snd] in Hlt.
  destruct (Nat.le_gt_cases k k') as [Hle|Hgt]; [assumption|exfalso].
  destruct (comp_cells_bounds 0 mu p k r c Hp) as (_ & Hk & Hr & Hc & _).
  rewrite Nat.sub_0_r in *.
  assert (Hpart : is_partition (nth k mu []) = true).
  { unfold is_partition_tuple in Hmu. rewrite forallb_forall in Hmu.
    apply Hmu. apply nth_In. lia. }
  assert (Hw := row_le_width (nth k mu []) r Hpart).
  assert (Hd := offset_decreasing mu k k' Hgt ltac:(lia)). lia.
Qed.

(** * The loops of one turn of the generator *)

(** ** [find_descent] *)

Lemma find_descent_spec (cols : list nat) :
  forall (fuel r : nat),
    1 <= r -> r <= length cols -> length cols - r <= fuel ->
    (forall j, 1 <= j < r -> nth (j - 1) cols 0 <= nth j cols 0) ->
    r <= find_descent cols r fuel <= length cols /\
    (forall j, 1 <= j < find_descent cols r fuel ->
               nth (j - 1) cols 0 <= nth j cols 0) /\
    (find_descent cols r fuel < length cols ->
     nth (find_descent cols r fuel) cols 0
     < nth (find_descent cols r fuel - 1) cols 0).
Proof.
  induction fuel as [|fuel IH]; intros r H1 Hr Hfuel Hsorted.
  - cbn [find_descent]. split; [lia|]. split; [assumption|]. lia.
  - cbn [find_descent].
    destruct (Nat.ltb_spec r (length cols)) as [Hlt|Hge]; cbn [andb].
    + destruct (Nat.leb_spec (nth (r - 1) cols 0) (nth r cols 0)) as [Hle|Hgt].
      * destruct (IH (S r)) as (Hb & Hs & Hd); try lia.
        { intros j Hj. destruct (Nat.eq_dec j r) as [->|Hne]; [assumption|].
          apply Hsorted. lia. }
        split; [lia|]. split; assumption.
      * split; [lia|]. split; [assumption|]. intros _. exact Hgt.
    + split; [lia|]. split; [assumption|]. lia.
Qed.

(** ** [tab.index] *)

Lemma index_from_nth (l : list nat) (p i : nat) :
  NoDup l -> p < length l ->
  index_from Nat.eqb l (nth p l 0) i = Some (i + p).
Proof.
  revert p i. induction l as [|h t IH]; intros p i Hnd Hp; [cbn in Hp; lia|].
  inversion Hnd as [|? ? Hnotin Hnd']; subst.
  destruct p as [|p]; cbn [nth index_from].
  - rewrite Nat.eqb_refl. f_equal. lia.
  - destruct (Nat.eqb_spec h (nth p t 0)) as [E|_].
    + exfalso. apply Hnotin. rewrite E. apply nth_In. cbn in Hp. lia.
    + rewrite IH by (assumption || (cbn in Hp; lia)). f_equal. lia.
Qed.

Lemma index_nth (l : list nat) (p : nat) :
  NoDup l -> p < length l -> index l (nth p l 0) = Ok p.
Proof.
  intros Hnd Hp. unfold index, indexN. now rewrite index_from_nth.
Qed.

(** ** Slices and the last item that passes a test *)

Lemma length_slice {A : Type} (l : list A) (a b : nat) :
  b <= length l -> length (slice l a b) = b - a.
Proof.
  intros Hb. unfold slice. rewrite length_firstn, length_skipn. lia.
Qed.

Lemma nth_slice {A : Type} (l : list A) (a b i : nat) (d : A) :
  i < b - a -> nth i (slice l a b) d = nth (a + i) l d.
Proof.
  intros Hi. unfold slice. rewrite nth_firstn.
  destruct (Nat.ltb_spec i (b - a)); [|lia]. apply nth_skipn.
Qed.

Lemma last_opt_snoc {A : Type} (l : list A) (x : A) : last_opt (l ++ [x]) = Some x.
Proof. unfold last_opt. now rewrite rev_app_distr. Qed.

Lemma last_opt_filter {A : Type} (g : A -> bool) (l : list A) (d : A) :
  (last_opt (filter g l) = None /\
   forall i, i < length l -> g (nth i l d) = false) \/
  (exists i, i < length l /\ g (nth i l d) = true /\
             last_opt (filter g l) = Some (nth i l d) /\
             forall j, i < j -> j < length l -> g (nth j l d) = false).
Proof.
  induction l as [|x l IH] using rev_ind.
  - left. split; [reflexivity|]. cbn. intros i Hi. lia.
  - rewrite filter_app. cbn [filter]. destruct (g x) eqn:Ex.
    + right. exists (length l). rewrite length_app. cbn [length].
      rewrite app_nth2, Nat.sub_diag by lia. cbn [nth].
      split; [lia|]. split; [assumption|]. split; [apply last_opt_snoc|].
      intros j Hj Hj'. lia.
    + rewrite app_nil_r. destruct IH as [[Hnone Hall]|(i & Hi & Hg & Hlast & Hafter)].
      * left. split; [assumption|]. intros i Hi.
        rewrite length_app in Hi. cbn in Hi.
        destruct (Nat.eq_dec i (length l)) as [->|Hne].
        -- rewrite app_nth2, Nat.sub_diag by lia. exact Ex.
        -- rewrite app_nth1 by lia. apply Hall. lia.
      * right. exists i. rewrite length_app. cbn [length].
        rewrite app_nth1 by lia.
        split; [lia|]. split; [assumption|]. split; [assumption|].
        intros j Hj Hj'.
        destruct (Nat.eq_dec j (length l)) as [->|Hne].
        -- rewrite app_nth2, Nat.sub_diag by lia. exact Ex.
        -- rewrite app_nth1 by lia. apply Hafter; lia.
Qed.

(** ** The positions that pass a test, in order *)

Section Rank.
Variable free : nat -> bool.
Variable n : nat.

Definition free_positions : list nat := filter free (seq 0 n).

(** The number of free positions before [p]. *)
Definition rank (p : nat) : nat := length (filter free (seq 0 p)).

Lemma seq_split3 (p : nat) :
  p < n -> seq 0 n = seq 0 p ++ p :: seq (S p) (n - S p).
Proof.
  intros Hp. replace n with (p + S (n - S p)) at 1 by lia.
  rewrite seq_app. reflexivity.
Qed.

Lemma nth_error_free_positions (p : nat) :
  p < n -> free p = true -> nth_error free_positions (rank p) = Some p.
Proof.
  intros Hp Hf. unfold free_positions, rank. rewrite (seq_split3 p Hp) at 1.
  rewrite filter_app. cbn [filter]. rewrite Hf.
  rewrite nth_error_app2 by lia. now rewrite Nat.sub_diag.
Qed.

Lemma rank_lt (u p : nat) : u < p -> free u = true -> rank u < rank p.
Proof.
  intros Hu Hf. unfold rank.
  replace p with (u + S (p - S u)) by lia.
  rewrite seq_app, filter_app, length_app. cbn [seq filter Nat.add]. rewrite Hf.
  cbn [length]. lia.
Qed.

Lemma rank_le (u p : nat) : u <= p -> rank u <= rank p.
Proof.
  intros Hu. unfold rank. replace p with (u + (p - u)) by lia.
  rewrite seq_app, filter_app, length_app. lia.
Qed.

Lemma NoDup_free_positions : NoDup free_positions.
Proof. apply NoDup_filter, seq_NoDup. Qed.

Lemma free_positions_nth (j p : nat) :
  nth_error free_positions j = Some p ->
  p < n /\ free p = true /\ rank p = j.
Proof.
  intros Hj. assert (Hin : In p free_positions) by (eapply nth_error_In; eassumption).
  apply filter_In in Hin. destruct Hin as [Hin Hf]. apply in_seq in Hin.
  split; [lia|]. split; [assumption|].
  apply (proj1 (NoDup_nth_error free_positions) NoDup_free_positions).
  - apply nth_error_Some. rewrite nth_error_free_positions by (lia || assumption).
    discriminate.
  - rewrite nth_error_free_positions by (lia || assumption). now symmetry.
Qed.

Lemma rank_bound (p : nat) :
  p < n -> free p = true -> rank p < length free_positions.
Proof.
  intros Hp Hf. apply nth_error_Some.
  rewrite nth_error_free_positions by assumption. discriminate.
Qed.

End Rank.

Lemma Permutation_filter_length {A : Type} (g : A -> bool) (l l' : list A) :
  Permutation l l' -> length (filter g l) = length (filter g l').
Proof.
  induction 1 as [|x l l' _ IH|x y l|l l' l'' _ IH1 _ IH2]; cbn.
  - reflexivity.
  - destruct (g x); cbn; now rewrite IH.
  - destruct (g x), (g y); reflexivity.
  - now rewrite IH1.
Qed.

Lemma map_nth_seq (l : list nat) :
  map (fun p => nth p l 0) (seq 0 (length l)) = l.
Proof.
  induction l as [|a l IH]; [reflexivity|].
  cbn [length seq map nth]. f_equal.
  rewrite <- seq_shift, map_map. exact IH.
Qed.

(** The number of positions whose entry passes a test. *)
Lemma count_positions (g : nat -> bool) (l : list nat) :
  length (filter (fun p => g (nth p l 0)) (seq 0 (length l)))
  = length (filter g l).
Proof.
  transitivity (length (filter g (map (fun p => nth p l 0) (seq 0 (length l))))).
  - now rewrite filter_map_swap, length_map.
  - now rewrite map_nth_seq.
Qed.

Lemma count_le_seq (r n : nat) :
  r <= n -> length (filter (fun v => v <=? r) (seq 1 n)) = r.
Proof.
  intros Hr. replace n with (r + (n - r)) by lia.
  rewrite seq_app, filter_app, length_app.
  rewrite (forallb_filter_id (fun v => v <=? r) (seq 1 r)).
  - rewrite length_seq.
    rewrite (filter_ext_in (fun v => v <=? r) (fun _ => false)).
    + rewrite filter_false. cbn. lia.
    + intros v Hv. apply in_seq in Hv. apply Nat.leb_gt. lia.
  - apply forallb_forall. intros v Hv. apply in_seq in Hv. apply Nat.leb_le. lia.
Qed.

(** Leaving one position out. *)
Lemma count_without (g : nat -> bool) (n ps : nat) :
  ps < n -> g ps = true ->
  S (length (filter (fun p => g p && negb (p =? ps)) (seq 0 n)))
  = length (filter g (seq 0 n)).
Proof.
  intros Hps Hg. rewrite (seq_split3 n ps Hps). rewrite !filter_app, !length_app.
  cbn [filter]. rewrite Hg, Nat.eqb_refl. cbn [negb andb length].
  rewrite (filter_ext_in (fun p => g p && negb (p =? ps)) g (seq 0 ps)).
  - rewrite (filter_ext_in (fun p => g p && negb (p =? ps)) g (seq (S ps) _)).
    + lia.
    + intros p Hp. apply in_seq in Hp.
      destruct (Nat.eqb_spec p ps); [lia|]. apply andb_true_r.
  - intros p Hp. apply in_seq in Hp.
    destruct (Nat.eqb_spec p ps); [lia|]. apply andb_true_r.
Qed.

(** ** [find_pos] *)

Lemma find_pos_spec (mins tab : list nat) (changed : list Z) (r t target : nat) :
  target < length mins -> target < length tab ->
  let skip := fun i => (t <=? nth i mins 0) || (r <? nth i tab 0)
                       || existsb (Z.eqb (Z.of_nat i)) changed in
  (forall i, i < target -> skip i = true) ->
  skip target = false ->
  forall (fuel i : nat), i <= target -> target - i < fuel ->
    find_pos mins tab changed r t i fuel = Ok target.
Proof.
  intros Hm Ht skip Hbefore Hat.
  induction fuel as [|fuel IH]; intros i Hi Hfuel; [lia|].
  cbn [find_pos].
  rewrite (getitem_ok mins i (nth i mins 0)) by (apply nth_error_nth'; lia).
  cbn [bind].
  rewrite (getitem_ok tab i (nth i tab 0)) by (apply nth_error_nth'; lia).
  cbn [bind].
  destruct (Nat.eq_dec i target) as [->|Hne].
  - unfold skip in Hat. apply orb_false_iff in Hat. destruct Hat as [Hat H3].
    apply orb_false_iff in Hat. destruct Hat as [H1 H2].
    rewrite H1, H2, H3. reflexivity.
  - specialize (Hbefore i ltac:(lia)). unfold skip in Hbefore.
    destruct (t <=? nth i mins 0); [apply IH; lia|].
    cbn [orb] in Hbefore. rewrite Hbefore. apply IH; lia.
Qed.

Lemma nth_set_nth {A : Type} (l : list A) (i j : nat) (a d : A) :
  i < length l -> nth j (set_nth l i a) d = if i =? j then a else nth j l d.
Proof.
  revert i j. induction l as [|x l IH]; intros i j Hi; [cbn in Hi; lia|].
  destruct i as [|i], j as [|j]; cbn; try reflexivity.
  apply IH. cbn in Hi. lia.
Qed.

Lemma set_nth_middle {A : Type} (l1 l2 : list A) (x y : A) :
  set_nth (l1 ++ x :: l2) (length l1) y = l1 ++ y :: l2.
Proof. induction l1 as [|a l1 IH]; cbn; [|rewrite IH]; reflexivity. Qed.

Lemma repeat_snoc {A : Type} (a : A) (m : nat) : repeat a (S m) = repeat a m ++ [a].
Proof. induction m as [|m IH]; [reflexivity|]. cbn [repeat app] in *. now rewrite <- IH. Qed.

Lemma firstn_snoc {A : Type} (l : list A) (j : nat) (x : A) :
  nth_error l j = Some x -> firstn (S j) l = firstn j l ++ [x].
Proof.
  revert j. induction l as [|a l IH]; intros j H; [destruct j; discriminate|].
  destruct j as [|j]; cbn in *.
  - now injection H as ->.
  - now rewrite (IH j H).
Qed.

(** Membership in the list [changed]. *)
Lemma existsb_changed (done : list nat) (m ps i : nat) :
  existsb (Z.eqb (Z.of_nat i))
          (map Z.of_nat done ++ repeat (-1)%Z m ++ [Z.of_nat ps])
  = existsb (Nat.eqb i) done || (i =? ps).
Proof.
  rewrite !existsb_app. cbn [existsb]. rewrite orb_false_r.
  assert (E1 : existsb (Z.eqb (Z.of_nat i)) (map Z.of_nat done)
               = existsb (Nat.eqb i) done).
  { induction done as [|a done IH]; [reflexivity|]. cbn [map existsb].
    rewrite IH. f_equal.
    destruct (Nat.eqb_spec i a) as [->|Hne]; [apply Z.eqb_refl|].
    apply Z.eqb_neq. lia. }
  assert (E2 : existsb (Z.eqb (Z.of_nat i)) (repeat (-1)%Z m) = false).
  { induction m as [|m IH]; [reflexivity|]. cbn [repeat existsb]. rewrite IH.
    rewrite orb_false_r. apply Z.eqb_neq. lia. }
  rewrite E1, E2. cbn [orb]. f_equal.
  destruct (Nat.eqb_spec i ps) as [->|Hne]; [apply Z.eqb_refl|].
  apply Z.eqb_neq. lia.
Qed.

Lemma existsb_eqb_In (i : nat) (l : list nat) :
  existsb (Nat.eqb i) l = true <-> In i l.
Proof.
  rewrite existsb_exists. split.
  - intros (x & Hin & E). apply Nat.eqb_eq in E. now subst.
  - intros H. exists i. split; [assumption|apply Nat.eqb_refl].
Qed.

(** * One turn of the generator keeps a standard tableau tuple *)

(** The column index of the cell at position [p]. *)
Definition cell_col (mu : shape) (p : nat) : nat :=
  match nth_error (cells mu) p with
  | Some cell => col_index mu cell
  | None => 0
  end.

(** What holds of [tab] and [cols] between two tableaux: [tab] lists
    1, ..., n, [cols] gives the column index of every entry, and the entries
    increase along the rows and down the columns. *)
Definition Inv (mu : shape) (tab cols : list nat) : Prop :=
  Permutation tab (seq 1 (size mu)) /\
  length cols = S (size mu) /\
  nth 0 cols 0 = 0 /\
  (forall p, p < size mu -> nth (nth p tab 0) cols 0 = cell_col mu p) /\
  (forall p q, covers mu p q -> nth p tab 0 < nth q tab 0).

Lemma cell_exists (mu : shape) (p : nat) :
  p < size mu -> exists k r c, nth_error (cells mu) p = Some (k, r, c).
Proof.
  intros Hp. destruct (nth_error (cells mu) p) as [[[k r] c]|] eqn:E.
  - now exists k, r, c.
  - apply nth_error_None in E. rewrite length_cells in E. lia.
Qed.

Lemma cell_position (mu : shape) (p k r c : nat) :
  nth_error (cells mu) p = Some (k, r, c) -> p < size mu.
Proof.
  intros H. rewrite <- length_cells. apply nth_error_Some. congruence.
Qed.

Lemma covers_positions (mu : shape) (p q : nat) :
  covers mu p q -> p < size mu /\ q < size mu.
Proof.
  intros (k & r & c & Hp & [Hq|Hq]); split; eapply cell_position; eassumption.
Qed.

(** The positions of a component are a slice of the flat list. *)
Lemma position_component (mu : shape) (p k r c : nat) :
  nth_error (cells mu) p = Some (k, r, c) ->
  k < length mu /\ nth k (clen mu) 0 <= p < nth (S k) (clen mu) 0.
Proof.
  intros H. destruct (comp_cells_bounds 0 mu p k r c H) as (_ & Hk & _ & _ & Hlo & Hhi).
  rewrite Nat.sub_0_r in *. rewrite !nth_clen by lia. lia.
Qed.

Section Facts.
Variable mu : shape.
Variables tab cols : list nat.
Hypothesis HInv : Inv mu tab cols.

Lemma Inv_length_tab : length tab = size mu.
Proof.
  destruct HInv as (Hperm & _). apply Permutation_length in Hperm.
  now rewrite length_seq in Hperm.
Qed.

Lemma Inv_NoDup : NoDup tab.
Proof.
  destruct HInv as (Hperm & _). apply Permutation_sym in Hperm.
  eapply Permutation_NoDup; [exact Hperm | apply seq_NoDup].
Qed.

Lemma Inv_entry (p : nat) : p < size mu -> 1 <= nth p tab 0 <= size mu.
Proof.
  intros Hp. destruct HInv as (Hperm & _).
  assert (Hin : In (nth p tab 0) (seq 1 (size mu))).
  { eapply Permutation_in; [exact Hperm|]. apply nth_In.
    now rewrite Inv_length_tab. }
  apply in_seq in Hin. lia.
Qed.

Lemma Inv_position (v : nat) :
  1 <= v <= size mu -> exists p, p < size mu /\ nth p tab 0 = v.
Proof.
  intros Hv. destruct HInv as (Hperm & _).
  assert (Hin : In v tab).
  { eapply Permutation_in; [apply Permutation_sym; exact Hperm|].
    apply in_seq. lia. }
  destruct (In_nth tab v 0 Hin) as (p & Hp & E).
  exists p. rewrite Inv_length_tab in Hp. now split.
Qed.

Lemma Inv_injective (p q : nat) :
  p < size mu -> q < size mu -> nth p tab 0 = nth q tab 0 -> p = q.
Proof.
  intros Hp Hq E.
  apply (proj1 (NoDup_nth tab 0) Inv_NoDup); rewrite ?Inv_length_tab; assumption.
Qed.

End Facts.

(** ** [max_row_in_component] finds an entry *)

Lemma max_row_loop_spec (mu : shape) (tab cols : list nat) (r : nat) :
  length tab = size mu ->
  forall c, c <= length mu ->
    let good := fun m => (m <? r) && (nth r cols 0 <? nth m cols 0) in
    (max_row_loop mu tab cols r c = None /\
     forall q, q < nth c (clen mu) 0 -> good (nth q tab 0) = false) \/
    (exists ps, ps < nth c (clen mu) 0 /\ good (nth ps tab 0) = true /\
                max_row_loop mu tab cols r c = Some (nth ps tab 0) /\
                forall q, ps < q -> q < nth c (clen mu) 0 ->
                          good (nth q tab 0) = false).
Proof.
  intros Hlen c. induction c as [|c IH]; intros Hc good.
  - left. split; [reflexivity|]. intros q Hq.
    rewrite nth_clen in Hq by lia. cbn in Hq. lia.
  - cbn [max_row_loop]. fold good.
    assert (Hab := clen_mono mu c (S c) ltac:(lia) Hc).
    assert (Hbn := clen_le_size mu (S c) Hc).
    set (a := nth c (clen mu) 0) in *. set (b := nth (S c) (clen mu) 0) in *.
    assert (Hsl : length (slice tab a b) = b - a) by (apply length_slice; lia).
    destruct (last_opt_filter good (slice tab a b) 0)
      as [[Hnone Hall]|(i & Hi & Hg & Hlast & Hafter)].
    + rewrite Hnone.
      assert (Hbad : forall q, a <= q -> q < b -> good (nth q tab 0) = false).
      { intros q Hq Hq'. specialize (Hall (q - a) ltac:(lia)).
        rewrite nth_slice in Hall by lia.
        now replace (a + (q - a)) with q in Hall by lia. }
      destruct (IH ltac:(lia)) as [[Hn Hall']|(ps & Hps & Hgood & Hres & Hafter)].
      * left. split; [assumption|]. intros q Hq.
        destruct (Nat.lt_ge_cases q a); [now apply Hall'|now apply Hbad].
      * right. exists ps. split; [fold a in Hps; lia|].
        split; [assumption|]. split; [assumption|].
        intros q Hq Hq'.
        destruct (Nat.lt_ge_cases q a); [now apply Hafter|now apply Hbad].
    + rewrite Hlast. right. rewrite Hsl in *.
      rewrite nth_slice in * by lia.
      exists (a + i). split; [lia|]. split; [assumption|].
      split; [reflexivity|]. intros q Hq Hq'.
      specialize (Hafter (q - a) ltac:(lia) ltac:(lia)).
      rewrite nth_slice in Hafter by lia.
      now replace (a + (q - a)) with q in Hafter by lia.
Qed.

Lemma cell_col_eq (mu : shape) (p k r c : nat) :
  nth_error (cells mu) p = Some (k, r, c) -> cell_col mu p = col_index mu (k, r, c).
Proof. intros H. unfold cell_col. now rewrite H. Qed.

Lemma covers_col (mu : shape) (p q : nat) :
  covers mu p q -> cell_col mu p <= cell_col mu q.
Proof.
  intros (k & r & c & Hp & [Hq|Hq]);
    rewrite (cell_col_eq _ _ _ _ _ Hp), (cell_col_eq _ _ _ _ _ Hq);
    unfold col_index; cbn [fst snd]; lia.
Qed.

Lemma max_row_found (mu : shape) (tab cols : list nat) (r : nat) :
  is_partition_tuple mu = true ->
  Inv mu tab cols ->
  2 <= r -> r <= size mu -> nth r cols 0 < nth (r - 1) cols 0 ->
  exists ps, ps < size mu /\
             max_row_in_component mu tab cols r = Ok (Some (nth ps tab 0)) /\
             nth ps tab 0 < r /\
             nth r cols 0 < nth (nth ps tab 0) cols 0 /\
             (forall q, covers mu ps q -> r < nth q tab 0) /\
             (forall q, q < size mu -> nth q tab 0 < r ->
                        nth r cols 0 < nth (nth q tab 0) cols 0 -> q <= ps).
Proof.
  intros Hmu HInv Hr2 Hrn Hdesc.
  assert (Hlen := Inv_length_tab mu tab cols HInv).
  destruct (Inv_position mu tab cols HInv r ltac:(lia)) as (pr & Hpr & Epr).
  destruct (Inv_position mu tab cols HInv (r - 1) ltac:(lia)) as (q1 & Hq1 & Eq1).
  destruct (cell_exists mu pr Hpr) as (k & rr & cc & Hcell).
  destruct (cell_exists mu q1 Hq1) as (k1 & r1 & c1 & Hcell1).
  destruct HInv as (Hperm & Hlc & Hc0 & Hcols & Hstd).
  assert (HInv : Inv mu tab cols) by (repeat split; assumption).
  assert (Hk1 : k1 <= k).
  { eapply (col_index_component mu q1 pr); try eassumption.
    rewrite <- (cell_col_eq _ _ _ _ _ Hcell), <- (cell_col_eq _ _ _ _ _ Hcell1).
    rewrite <- (Hcols pr Hpr), <- (Hcols q1 Hq1), Epr, Eq1. exact Hdesc. }
  destruct (position_component mu pr k rr cc Hcell) as (Hk & Hlo & Hhi).
  destruct (position_component mu q1 k1 r1 c1 Hcell1) as (_ & Hlo1 & Hhi1).
  assert (Hq1c : q1 < nth (S k) (clen mu) 0).
  { assert (H := clen_mono mu (S k1) (S k) ltac:(lia) ltac:(lia)). lia. }
  unfold max_row_in_component.
  replace (index tab r) with (index tab (nth pr tab 0)) by (now rewrite Epr).
  rewrite index_nth by (eauto using Inv_NoDup || lia).
  cbn [bind].
  rewrite (getitem_ok (component mu) pr (S k))
    by (rewrite component_eq, nth_error_map, Hcell; reflexivity).
  cbn [bind].
  destruct (max_row_loop_spec mu tab cols r Hlen (S k) ltac:(lia))
    as [[_ Hall]|(ps & Hps & Hgood & Hres & Hafter)].
  - exfalso. specialize (Hall q1 Hq1c). rewrite Eq1 in Hall.
    apply andb_false_iff in Hall. destruct Hall as [H|H].
    + apply Nat.ltb_ge in H. lia.
    + apply Nat.ltb_ge in H. lia.
  - apply andb_true_iff in Hgood. destruct Hgood as [Hg1 Hg2].
    apply Nat.ltb_lt in Hg1, Hg2.
    assert (Hpsn : ps < size mu).
    { assert (H := clen_le_size mu (S k) ltac:(lia)). lia. }
    exists ps. split; [assumption|]. split; [now rewrite Hres|].
    split; [assumption|]. split; [assumption|]. split.
    2:{ intros q Hq Hqr Hqc.
        destruct (Nat.le_gt_cases q ps) as [Hle|Hgt]; [assumption|exfalso].
        destruct (cell_exists mu q Hq) as (kq & rq & cq & Hcellq).
        assert (Hkq : kq <= k).
        { eapply (col_index_component mu q pr); try eassumption.
          rewrite <- (cell_col_eq _ _ _ _ _ Hcell), <- (cell_col_eq _ _ _ _ _ Hcellq).
          rewrite <- (Hcols pr Hpr), <- (Hcols q Hq), Epr. exact Hqc. }
        destruct (position_component mu q kq rq cq Hcellq) as (_ & _ & Hhiq).
        assert (H' := clen_mono mu (S kq) (S k) ltac:(lia) ltac:(lia)).
        specialize (Hafter q Hgt ltac:(lia)).
        apply andb_false_iff in Hafter. destruct Hafter as [H|H];
          apply Nat.ltb_ge in H; lia. }
    intros q Hcov.
    assert (Hlt := covers_lt mu ps q Hmu Hcov).
    assert (Hcc := covers_col mu ps q Hcov).
    destruct (covers_positions mu ps q Hcov) as [_ Hqn].
    rewrite <- (Hcols ps Hpsn), <- (Hcols q Hqn) in Hcc.
    assert (Hqc : q < nth (S k) (clen mu) 0).
    { destruct Hcov as (k' & r' & c' & Hps' & Hq').
      destruct (position_component mu ps k' r' c' Hps') as (Hk' & Hlo' & Hhi').
      assert (Hkk : k' <= k).
      { destruct (Nat.le_gt_cases k' k) as [H|H]; [assumption|exfalso].
        assert (H' := clen_mono mu (S k) k' ltac:(lia) ltac:(lia)). lia. }
      assert (Hq'' : nth k' (clen mu) 0 <= q < nth (S k') (clen mu) 0).
      { destruct Hq' as [Hq'|Hq'];
          destruct (position_component mu q _ _ _ Hq') as (_ & H1 & H2); lia. }
      assert (H' := clen_mono mu (S k') (S k) ltac:(lia) ltac:(lia)). lia. }
    specialize (Hafter q Hlt Hqc).
    apply andb_false_iff in Hafter. destruct Hafter as [H|H].
    + apply Nat.ltb_ge in H.
      destruct (Nat.eq_dec (nth q tab 0) r) as [E|Hne]; [|lia].
      rewrite E in Hcc. lia.
    + apply Nat.ltb_ge in H. lia.
Qed.

(** * Refilling the entries below the descent *)

(** The positions to be refilled: those of the entries up to [r], the
    position [ps] of the entry that [r] replaces left out. *)
Definition free (tab : list nat) (r ps : nat) (p : nat) : bool :=
  (nth p tab 0 <=? r) && negb (p =? ps).

Section Fill.
Variable mu : shape.
Hypothesis Hmu : is_partition_tuple mu = true.
Variables tab cols : list nat.
Hypothesis HInv : Inv mu tab cols.
Variables r ps : nat.
Hypothesis Hr2 : 2 <= r.
Hypothesis Hrn : r <= size mu.
Hypothesis Hps : ps < size mu.
Hypothesis Hs : nth ps tab 0 < r.
Hypothesis Hcorner : forall q, covers mu ps q -> r < nth q tab 0.

Let n := size mu.
Let fr := free tab r ps.
Let P := free_positions fr n.
Let mins := initial_mins mu.

Lemma free_true (p : nat) : fr p = true <-> nth p tab 0 <= r /\ p <> ps.
Proof.
  unfold fr, free. rewrite andb_true_iff, Nat.leb_le, negb_true_iff, Nat.eqb_neq.
  reflexivity.
Qed.

Lemma free_false (p : nat) : fr p = false -> r < nth p tab 0 \/ p = ps.
Proof.
  unfold fr, free. rewrite andb_false_iff, Nat.leb_gt, negb_false_iff, Nat.eqb_eq.
  tauto.
Qed.

(** The free positions are closed under going left and up. *)
Lemma free_lower (u p : nat) : covers mu u p -> fr p = true -> fr u = true.
Proof.
  intros Hcov Hp. apply free_true in Hp. destruct Hp as [Hle Hne].
  destruct HInv as (_ & _ & _ & _ & Hstd).
  apply free_true. split.
  - specialize (Hstd u p Hcov). lia.
  - intros ->. specialize (Hcorner p Hcov). lia.
Qed.

Lemma nth_mins (p k rr c : nat) :
  nth_error (cells mu) p = Some (k, rr, c) -> nth p mins 0 = rr + c.
Proof.
  intros H. unfold mins, initial_mins.
  apply nth_error_nth. rewrite nth_error_map, H. reflexivity.
Qed.

(** Enough free positions come before a free position. *)
Lemma rank_lower_bound (p : nat) :
  p < n -> fr p = true -> nth p mins 0 <= rank fr p.
Proof.
  induction p as [p IH] using lt_wf_ind. intros Hp Hf.
  destruct (cell_exists mu p Hp) as (k & rr & c & Hcell).
  rewrite (nth_mins p k rr c Hcell).
  destruct (covered_cases mu p k rr c Hmu Hcell)
    as [[-> ->]|(u & Hcov & r' & c' & Hu & Hsum)]; [lia|].
  assert (Hlt := covers_lt mu u p Hmu Hcov).
  assert (Hfu := free_lower u p Hcov Hf).
  specialize (IH u Hlt ltac:(unfold n in *; lia) Hfu).
  rewrite (nth_mins u k r' c' Hu) in IH.
  assert (Hrk := rank_lt fr u p Hlt Hfu). lia.
Qed.

Lemma length_P : length P = r - 1.
Proof.
  assert (Hlen := Inv_length_tab mu tab cols HInv).
  assert (H := count_without (fun p => nth p tab 0 <=? r) n ps Hps
                  ltac:(apply Nat.leb_le; lia)).
  unfold P, free_positions, fr, free.
  assert (E : length (filter (fun p => nth p tab 0 <=? r) (seq 0 n)) = r).
  { unfold n. rewrite <- Hlen.
    rewrite (count_positions (fun v => v <=? r) tab).
    destruct HInv as (Hperm & _).
    rewrite (Permutation_filter_length _ _ _ Hperm).
    now apply count_le_seq. }
  lia.
Qed.

Lemma rank_P (p : nat) : p < n -> fr p = true -> rank fr p < r - 1.
Proof.
  intros Hp Hf. rewrite <- length_P. now apply rank_bound.
Qed.

Lemma In_firstn_P (i j : nat) :
  In i (firstn j P) <-> i < n /\ fr i = true /\ rank fr i < j.
Proof.
  split.
  - intros Hin. apply In_nth_error in Hin. destruct Hin as [idx Hidx].
    rewrite nth_error_firstn in Hidx.
    destruct (Nat.ltb_spec idx j) as [Hlt|]; [|discriminate].
    apply free_positions_nth in Hidx. destruct Hidx as (H1 & H2 & H3).
    repeat split; try assumption. lia.
  - intros (Hi & Hf & Hrk).
    apply (nth_error_In _ (rank fr i)). rewrite nth_error_firstn.
    destruct (Nat.ltb_spec (rank fr i) j); [|lia].
    now apply nth_error_free_positions.
Qed.

(** What holds after [j] rounds of [for t in range(1, r)]. *)
Definition fill_inv (j : nat) (acc : list nat * list nat * list Z) : Prop :=
  let '(nt, nc, ch) := acc in
  length nt = n /\ length nc = S n /\
  ch = map Z.of_nat (firstn j P) ++ repeat (-1)%Z (r - 1 - j) ++ [Z.of_nat ps] /\
  (forall p, p < n ->
             nth p nt 0 = if fr p && (rank fr p <? j) then S (rank fr p)
                          else if p =? ps then r else nth p tab 0) /\
  (forall v, v <= n ->
             nth v nc 0 = if (1 <=? v) && (v <=? j)
                          then cell_col mu (nth (v - 1) P 0)
                          else if v =? r then nth (nth ps tab 0) cols 0
                               else nth v cols 0).

Lemma place_step (j : nat) (acc : list nat * list nat * list Z) :
  j < r - 1 -> fill_inv j acc ->
  exists acc', place mins tab cols r acc (S j) = Ok acc' /\ fill_inv (S j) acc'.
Proof.
  intros Hj. destruct acc as [[nt nc] ch]. intros (Hlt & Hlc & Hch & Hnt & Hnc).
  assert (Hlen := Inv_length_tab mu tab cols HInv). fold n in Hlen.
  assert (Hlm : length mins = n).
  { unfold mins, initial_mins. now rewrite length_map, length_cells. }
  destruct (nth_error P j) as [pj|] eqn:Epj;
    [|apply nth_error_None in Epj; rewrite length_P in Epj; lia].
  destruct (free_positions_nth fr n j pj Epj) as (Hpj & Hfj & Hrkj).
  assert (Hfj' := proj1 (free_true pj) Hfj). destruct Hfj' as [Hle Hne].
  unfold place.
  assert (Hfind : find_pos mins tab ch r (S j) 0 (S (length mins)) = Ok pj).
  { apply find_pos_spec; try lia.
    - intros i Hi. rewrite Hch, existsb_changed.
      destruct (Nat.ltb_spec r (nth i tab 0)) as [Hgt|Hle'];
        [now rewrite orb_true_r|].
      destruct (Nat.eqb_spec i ps) as [->|Hnps]; [now rewrite !orb_true_r|].
      assert (Hfi : fr i = true) by (apply free_true; split; assumption).
      assert (Hin : In i (firstn j P)).
      { apply In_firstn_P. split; [lia|]. split; [assumption|].
        rewrite <- Hrkj. now apply rank_lt. }
      apply existsb_eqb_In in Hin. rewrite Hin. now rewrite !orb_true_r.
    - rewrite Hch, existsb_changed.
      assert (Hm := rank_lower_bound pj Hpj Hfj).
      destruct (Nat.leb_spec (S j) (nth pj mins 0)); [lia|].
      destruct (Nat.ltb_spec r (nth pj tab 0)); [lia|].
      destruct (Nat.eqb_spec pj ps); [contradiction|].
      cbn [orb]. rewrite orb_false_r.
      destruct (existsb (Nat.eqb pj) (firstn j P)) eqn:E; [|reflexivity].
      apply existsb_eqb_In, In_firstn_P in E. lia. }
  rewrite Hfind. cbn [bind].
  rewrite setitem_ok by lia. cbn [bind].
  rewrite (getitem_ok tab pj (nth pj tab 0)) by (apply nth_error_nth'; lia).
  cbn [bind].
  destruct HInv as (_ & Hlcols & _ & Hcols & _).
  assert (Hent := Inv_entry mu tab cols HInv pj Hpj).
  rewrite (getitem_ok cols (nth pj tab 0) (nth (nth pj tab 0) cols 0))
    by (apply nth_error_nth'; lia).
  cbn [bind].
  rewrite setitem_ok by (unfold n in *; lia). cbn [bind].
  assert (Hlch : length ch = r).
  { rewrite Hch, !length_app, length_map, length_firstn, repeat_length, length_P.
    cbn [length]. lia. }
  rewrite setitem_ok by lia. cbn [bind].
  eexists. split; [reflexivity|].
  unfold fill_inv. rewrite !length_set_nth.
  split; [assumption|]. split; [assumption|]. split; [|split].
  - replace (S j - 1) with (length (map Z.of_nat (firstn j P)))
      by (rewrite length_map, length_firstn, length_P; lia).
    rewrite Hch. replace (r - 1 - j) with (S (r - 1 - S j)) by lia.
    cbn [repeat app]. rewrite set_nth_middle.
    rewrite (firstn_snoc P j pj Epj), map_app, <- app_assoc. reflexivity.
  - intros p Hp. rewrite nth_set_nth by lia.
    destruct (Nat.eqb_spec pj p) as [<-|Hnp].
    + rewrite Hfj, Hrkj. destruct (Nat.ltb_spec j (S j)); [reflexivity|lia].
    + rewrite (Hnt p Hp). destruct (fr p) eqn:Efp; cbn [andb]; [|reflexivity].
      assert (rank fr p <> j).
      { intros E. apply Hnp.
        assert (H1 := nth_error_free_positions fr n p Hp Efp).
        rewrite E in H1. fold P in H1. congruence. }
      destruct (Nat.ltb_spec (rank fr p) j), (Nat.ltb_spec (rank fr p) (S j));
        try reflexivity; lia.
  - intros v Hv. rewrite nth_set_nth by (unfold n in *; lia).
    destruct (Nat.eqb_spec (S j) v) as [<-|Hnv].
    + destruct (Nat.leb_spec 1 (S j)); [|lia].
      destruct (Nat.leb_spec (S j) (S j)); [|lia]. cbn [andb].
      replace (S j - 1) with j by lia.
      rewrite (nth_error_nth P j 0 Epj). now apply Hcols.
    + rewrite (Hnc v Hv).
      destruct (Nat.leb_spec 1 v), (Nat.leb_spec v j), (Nat.leb_spec v (S j));
        try reflexivity; lia.
Qed.

Lemma fill_loop (m : nat) :
  forall (j : nat) (acc : list nat * list nat * list Z),
    j + m = r - 1 -> fill_inv j acc ->
    exists acc', for_each (place mins tab cols r) (seq (S j) m) acc = Ok acc' /\
                 fill_inv (r - 1) acc'.
Proof.
  induction m as [|m IH]; intros j acc Hjm HI.
  - exists acc. split; [reflexivity|]. now replace (r - 1) with j by lia.
  - cbn [seq for_each].
    destruct (place_step j acc ltac:(lia) HI) as (acc1 & Hrun & HI1).
    rewrite Hrun. cbn [bind]. apply IH; [lia|assumption].
Qed.

Lemma fill_start :
  fill_inv 0 (set_nth tab ps r, set_nth cols r (nth (nth ps tab 0) cols 0),
              set_nth (repeat (-1)%Z r) (r - 1) (Z.of_nat ps)).
Proof.
  assert (Hlen := Inv_length_tab mu tab cols HInv). fold n in Hlen.
  destruct HInv as (_ & Hlcols & _). fold n in Hlcols.
  unfold fill_inv. rewrite !length_set_nth.
  split; [assumption|]. split; [assumption|]. split; [|split].
  - cbn [firstn map app]. rewrite Nat.sub_0_r.
    replace r with (S (r - 1)) at 1 by lia. rewrite repeat_snoc.
    rewrite <- (repeat_length (-1)%Z (r - 1)) at 2.
    now rewrite set_nth_middle.
  - intros p Hp. rewrite nth_set_nth by lia.
    rewrite andb_false_r. rewrite Nat.eqb_sym. reflexivity.
  - intros v Hv. rewrite nth_set_nth by lia.
    destruct (Nat.leb_spec v 0); [|now rewrite andb_false_r, Nat.eqb_sym].
    destruct (Nat.leb_spec 1 v); [lia|]. cbn [andb]. now rewrite Nat.eqb_sym.
Qed.

(** ** The refilled tableau *)

Section Refilled.
Variables nt nc : list nat.
Variable ch : list Z.
Hypothesis Hfill : fill_inv (r - 1) (nt, nc, ch).

Lemma nt_cases (p : nat) :
  p < n ->
  (fr p = true /\ rank fr p < r - 1 /\ nth p nt 0 = S (rank fr p)) \/
  (p = ps /\ nth p nt 0 = r) \/
  (p <> ps /\ r < nth p tab 0 /\ nth p nt 0 = nth p tab 0).
Proof.
  intros Hp. destruct Hfill as (_ & _ & _ & Hnt & _).
  specialize (Hnt p Hp). destruct (fr p) eqn:Ef.
  - left. assert (Hrk := rank_P p Hp Ef).
    destruct (Nat.ltb_spec (rank fr p) (r - 1)); [|lia].
    cbn [andb] in Hnt. now repeat split.
  - cbn [andb] in Hnt. destruct (Nat.eqb_spec p ps) as [->|Hne].
    + right. left. now split.
    + right. right. apply free_false in Ef. destruct Ef; [|contradiction].
      now repeat split.
Qed.

Lemma rank_injective (p q : nat) :
  p < n -> q < n -> fr p = true -> fr q = true -> rank fr p = rank fr q -> p = q.
Proof.
  intros Hp Hq Hfp Hfq E.
  assert (H1 := nth_error_free_positions fr n p Hp Hfp).
  assert (H2 := nth_error_free_positions fr n q Hq Hfq).
  rewrite E in H1. congruence.
Qed.

Lemma refilled_NoDup : NoDup nt.
Proof.
  destruct Hfill as (Hlt & _).
  apply NoDup_nth with (d := 0). rewrite Hlt. intros i j Hi Hj E.
  destruct (nt_cases i Hi) as [(Hfi & Hri & Ei)|[(-> & Ei)|(Hni & Hgi & Ei)]];
    destruct (nt_cases j Hj) as [(Hfj & Hrj & Ej)|[(-> & Ej)|(Hnj & Hgj & Ej)]];
    try rewrite Ei in E; try rewrite Ej in E; try lia.
  - apply rank_injective; try assumption. lia.
  - eapply (Inv_injective mu tab cols HInv); eassumption.
Qed.

Lemma refilled_Permutation : Permutation nt (seq 1 n).
Proof.
  destruct Hfill as (Hlt & _).
  apply NoDup_Permutation_bis.
  - apply refilled_NoDup.
  - rewrite length_seq. lia.
  - intros x Hin. destruct (In_nth nt x 0 Hin) as (p & Hp & <-).
    rewrite Hlt in Hp. apply in_seq.
    assert (Hent := Inv_entry mu tab cols HInv p Hp). fold n in Hent.
    unfold n in *.
    destruct (nt_cases p Hp) as [(_ & Hrk & E)|[(_ & E)|(_ & _ & E)]];
      rewrite E; lia.
Qed.

Lemma refilled_cols (p : nat) : p < n -> nth (nth p nt 0) nc 0 = cell_col mu p.
Proof.
  intros Hp. destruct Hfill as (_ & _ & _ & _ & Hnc).
  destruct HInv as (_ & _ & _ & Hcols & _).
  assert (Hent := Inv_entry mu tab cols HInv p Hp). fold n in Hent.
  destruct (nt_cases p Hp) as [(Hf & Hrk & E)|[(-> & E)|(Hne & Hgt & E)]];
    rewrite E.
  - rewrite Hnc by (unfold n in *; lia).
    destruct (Nat.leb_spec 1 (S (rank fr p))); [|lia].
    destruct (Nat.leb_spec (S (rank fr p)) (r - 1)); [|lia]. cbn [andb].
    replace (S (rank fr p) - 1) with (rank fr p) by lia.
    now rewrite (nth_error_nth P (rank fr p) 0
                   (nth_error_free_positions fr n p Hp Hf)).
  - rewrite Hnc by (unfold n in *; lia).
    destruct (Nat.leb_spec r (r - 1)); [lia|]. rewrite andb_false_r.
    rewrite Nat.eqb_refl. now apply Hcols.
  - rewrite Hnc by lia.
    destruct (Nat.leb_spec (nth p tab 0) (r - 1)); [lia|]. rewrite andb_false_r.
    destruct (Nat.eqb_spec (nth p tab 0) r); [lia|]. now apply Hcols.
Qed.

Lemma refilled_standard (p q : nat) : covers mu p q -> nth p nt 0 < nth q nt 0.
Proof.
  intros Hcov. destruct (covers_positions mu p q Hcov) as [Hp Hq].
  assert (Hlt := covers_lt mu p q Hmu Hcov).
  destruct HInv as (_ & _ & _ & _ & Hstd). specialize (Hstd p q Hcov).
  destruct (nt_cases q Hq) as [(Hfq & Hrq & Eq)|[(-> & Eq)|(Hnq & Hgq & Eq)]].
  - assert (Hfp := free_lower p q Hcov Hfq).
    assert (Hrk := rank_lt fr p q Hlt Hfp).
    destruct (nt_cases p Hp) as [(_ & _ & Ep)|[(-> & _)|(_ & Hgp & _)]].
    + rewrite Ep, Eq. lia.
    + apply free_true in Hfp. destruct Hfp as [_ Hc]. contradiction.
    + apply free_true in Hfp. lia.
  - destruct (nt_cases p Hp) as [(_ & Hrp & Ep)|[(-> & _)|(_ & Hgp & _)]]; lia.
  - destruct (nt_cases p Hp) as [(_ & Hrp & Ep)|[(-> & Ep)|(_ & Hgp & Ep)]];
      rewrite Ep, Eq; lia.
Qed.

Lemma refilled_Inv : Inv mu nt nc.
Proof.
  split; [apply refilled_Permutation|].
  destruct Hfill as (_ & Hlc & _ & _ & Hnc).
  split; [assumption|]. split.
  - rewrite Hnc by lia. cbn [Nat.leb andb].
    destruct (Nat.eqb_spec 0 r); [lia|].
    now destruct HInv as (_ & _ & H0 & _).
  - split; [apply refilled_cols | apply refilled_standard].
Qed.

Lemma refilled_descent : nth r nc 0 = nth (nth ps tab 0) cols 0.
Proof.
  destruct Hfill as (_ & _ & _ & _ & Hnc). rewrite Hnc by (unfold n; lia).
  destruct (Nat.leb_spec r (r - 1)); [lia|]. rewrite andb_false_r.
  now rewrite Nat.eqb_refl.
Qed.

Lemma refilled_above (v : nat) : r < v -> v <= n -> nth v nc 0 = nth v cols 0.
Proof.
  intros Hv Hvn. destruct Hfill as (_ & _ & _ & _ & Hnc). rewrite Hnc by lia.
  destruct (Nat.leb_spec v (r - 1)); [lia|]. rewrite andb_false_r.
  destruct (Nat.eqb_spec v r); [lia|]. reflexivity.
Qed.

End Refilled.

End Fill.

(** * The generator stops, and never fails *)

(** ** One turn *)

(** The descent found in [cols], if there is one. *)
Definition descent (s : state) : nat :=
  find_descent (st_cols s) 1 (length (st_cols s)).

Lemma advance_spec (mu : shape) (s : state) :
  is_partition_tuple mu = true ->
  Inv mu (st_tab s) (st_cols s) ->
  (descent s = length (st_cols s) /\ advance mu (initial_mins mu) s = Ok None) \/
  (descent s < length (st_cols s) /\
   (exists sv, max_row_in_component mu (st_tab s) (st_cols s) (descent s)
               = Ok (Some sv)) /\
   exists s', advance mu (initial_mins mu) s = Ok (Some s') /\
              Inv mu (st_tab s') (st_cols s') /\
              1 <= descent s <= size mu /\
              nth (descent s) (st_cols s) 0 < nth (descent s) (st_cols s') 0 /\
              forall v, descent s < v -> v <= size mu ->
                        nth v (st_cols s') 0 = nth v (st_cols s) 0).
Proof.
  intros Hmu HInv. destruct s as [tab cols]. cbn [st_tab st_cols] in *.
  unfold descent, advance. cbn [st_tab st_cols].
  assert (Hlen := Inv_length_tab mu tab cols HInv).
  assert (Hnd := Inv_NoDup mu tab cols HInv).
  destruct HInv as (Hperm & Hlc & Hc0 & Hcols & Hstd).
  assert (HInv : Inv mu tab cols) by (repeat split; assumption).
  destruct (find_descent_spec cols (length cols) 1) as (Hb & Hsorted & Hdesc);
    try lia.
  set (r := find_descent cols 1 (length cols)) in *.
  destruct (Nat.eqb_spec r (length cols)) as [E|Hne]; [left; now split|].
  right. split; [lia|].
  specialize (Hdesc ltac:(lia)).
  assert (Hr2 : 2 <= r).
  { destruct (Nat.eq_dec r 1) as [E|]; [|lia].
    rewrite E in Hdesc. cbn [Nat.sub] in Hdesc. lia. }
  assert (Hrn : r <= size mu) by lia.
  destruct (max_row_found mu tab cols r Hmu HInv Hr2 Hrn Hdesc)
    as (ps & Hps & Hmax & Hs & Hgt & Hcorner & _).
  split; [eexists; exact Hmax|].
  rewrite Hmax. cbn [bind].
  rewrite index_nth by (assumption || lia). cbn [bind].
  rewrite setitem_ok by lia. cbn [bind].
  assert (Hent := Inv_entry mu tab cols HInv ps Hps).
  rewrite (getitem_ok cols (nth ps tab 0) (nth (nth ps tab 0) cols 0))
    by (apply nth_error_nth'; lia).
  cbn [bind].
  rewrite setitem_ok by lia. cbn [bind].
  destruct (fill_loop mu Hmu tab cols HInv r ps Hr2 Hrn Hps Hs Hcorner
                      (r - 1) 0 _ ltac:(lia)
                      (fill_start mu tab cols HInv r ps Hr2 Hrn Hps Hs))
    as ([[nt nc] ch] & Hrun & Hfill).
  rewrite Hrun. cbn [bind].
  exists (mkstate nt nc). cbn [st_tab st_cols].
  split; [reflexivity|].
  split; [eapply refilled_Inv; eassumption|].
  split; [lia|]. split.
  - rewrite (refilled_descent mu tab cols r ps Hr2 Hrn Hps Hs nt nc ch Hfill).
    exact Hgt.
  - intros v Hv Hvn.
    exact (refilled_above mu tab cols r ps Hr2 Hrn Hps Hs nt nc ch Hfill v Hv Hvn).
Qed.

(** ** The first tableau *)

Lemma initial_Inv (mu : shape) :
  is_partition_tuple mu = true ->
  Inv mu (seq 1 (size mu)) (initial_cols mu).
Proof.
  intros Hmu. split; [apply Permutation_refl|].
  split; [unfold initial_cols; cbn [length]; now rewrite length_map, length_cells|].
  split; [reflexivity|]. split.
  - intros p Hp. rewrite seq_nth by assumption. cbn [Nat.add].
    unfold initial_cols. cbn [nth]. unfold cell_col.
    destruct (cell_exists mu p Hp) as (k & r & c & Hcell). rewrite Hcell.
    apply nth_error_nth. now rewrite nth_error_map, Hcell.
  - intros p q Hcov. destruct (covers_positions mu p q Hcov) as [Hp Hq].
    assert (Hlt := covers_lt mu p q Hmu Hcov).
    rewrite !seq_nth by assumption. lia.
Qed.

(** ** The tables [cols] as numbers *)

(** The number whose digits in base [B] are [l], the first digit the least. *)
Fixpoint weight (B : nat) (l : list nat) : nat :=
  match l with
  | [] => 0
  | d :: t => d + B * weight B t
  end.

Lemma weight_bound (B : nat) (l : list nat) :
  Forall (fun d => d < B) l -> weight B l < B ^ length l.
Proof.
  induction 1 as [|d t Hd _ IH]; cbn [weight length Nat.pow]; [lia|]. nia.
Qed.

Lemma weight_lt (B : nat) (l l' : list nat) (i : nat) :
  length l = length l' ->
  Forall (fun d => d < B) l ->
  nth i l 0 < nth i l' 0 ->
  (forall j, i < j -> nth j l' 0 = nth j l 0) ->
  weight B l < weight B l'.
Proof.
  revert l' i. induction l as [|d t IH]; intros l' i Hlen Hall Hi Hrest.
  - destruct l'; [|discriminate]. destruct i; cbn in Hi; lia.
  - destruct l' as [|d' t']; [discriminate|]. cbn [length] in Hlen.
    inversion Hall as [|? ? Hd Hall']; subst. cbn [weight].
    destruct i as [|i].
    + cbn [nth] in Hi.
      assert (E : t' = t).
      { apply nth_error_eq_lists. intros j.
        destruct (Nat.lt_ge_cases j (length t)) as [Hj|Hj].
        - rewrite (nth_error_nth' t' 0), (nth_error_nth' t 0) by lia.
          f_equal. exact (Hrest (S j) ltac:(lia)).
        - rewrite (proj2 (nth_error_None t' j)), (proj2 (nth_error_None t j)) by lia.
          reflexivity. }
      subst t'. lia.
    + assert (H := IH t' i ltac:(lia) Hall' Hi
                      (fun j Hj => Hrest (S j) ltac:(lia))).
      nia.
Qed.

(** ** The run *)

(** A bound on the column indices. *)
Definition base (mu : shape) : nat := S (list_max (initial_cols mu)).

Lemma cell_col_bound (mu : shape) (p : nat) : cell_col mu p < base mu.
Proof.
  unfold base, cell_col.
  destruct (nth_error (cells mu) p) as [cell|] eqn:E; [|lia].
  assert (Hin : In (col_index mu cell) (initial_cols mu)).
  { right. apply in_map. eapply nth_error_In. eassumption. }
  assert (H := proj1 (list_max_le (initial_cols mu) (list_max (initial_cols mu)))
                 (Nat.le_refl _)).
  rewrite Forall_forall in H. specialize (H _ Hin). lia.
Qed.

Lemma Inv_digits (mu : shape) (tab cols : list nat) :
  Inv mu tab cols ->
  length (tl cols) = size mu /\ Forall (fun d => d < base mu) (tl cols).
Proof.
  intros HInv. assert (HInv' := HInv).
  destruct HInv as (_ & Hlc & _ & Hcols & _).
  destruct cols as [|c0 rest]; [discriminate|]. cbn [tl length] in *.
  split; [lia|]. apply Forall_forall. intros d Hd.
  destruct (In_nth rest d 0 Hd) as (i & Hi & <-).
  destruct (Inv_position mu tab (c0 :: rest) HInv' (S i) ltac:(lia))
    as (p & Hp & Ep).
  specialize (Hcols p Hp). rewrite Ep in Hcols. cbn [nth] in Hcols.
  rewrite Hcols. apply cell_col_bound.
Qed.

Definition measure (mu : shape) (s : state) : nat :=
  weight (base mu) (tl (st_cols s)).

Lemma nth_tl (l : list nat) (i : nat) : nth i (tl l) 0 = nth (S i) l 0.
Proof. destruct l; [destruct i|]; reflexivity. Qed.

(** What is checked of every tableau the generator reaches. *)
Definition safe (mu : shape) (s : state) : Prop :=
  descent s < length (st_cols s) ->
  exists sv, max_row_in_component mu (st_tab s) (st_cols s) (descent s)
             = Ok (Some sv).

Lemma run_terminates (mu : shape) :
  is_partition_tuple mu = true ->
  forall (fuel : nat) (s : state) (yielded : list state),
    Inv mu (st_tab s) (st_cols s) ->
    base mu ^ size mu - measure mu s < fuel ->
    Forall (safe mu) yielded ->
    exists l, run mu (initial_mins mu) fuel s yielded = Done l /\
              Forall (safe mu) l.
Proof.
  intros Hmu. induction fuel as [|fuel IH]; intros s yielded HInv Hfuel Hsafe; [lia|].
  cbn [run].
  destruct (advance_spec mu s Hmu HInv)
    as [[_ Hadv]|(_ & _ & s' & Hadv & HInv' & Hr & Hlt & Habove)];
    rewrite Hadv.
  - exists (rev yielded). split; [reflexivity|]. now apply Forall_rev.
  - destruct (Inv_digits mu _ _ HInv) as [Hl Hdig].
    destruct (Inv_digits mu _ _ HInv') as [Hl' Hdig'].
    assert (Hw : measure mu s < measure mu s').
    { unfold measure.
      apply (weight_lt (base mu) _ _ (descent s - 1)); try assumption.
      - lia.
      - rewrite !nth_tl. replace (S (descent s - 1)) with (descent s) by lia.
        exact Hlt.
      - intros j Hj.
        destruct (Nat.le_gt_cases (S j) (size mu)) as [Hle|Hgt].
        + rewrite !nth_tl. apply Habove; lia.
        + rewrite !nth_overflow by lia. reflexivity. }
    assert (Hb := weight_bound (base mu) _ Hdig'). rewrite Hl' in Hb.
    fold (measure mu s') in Hb.
    apply IH; [assumption|lia|].
    constructor; [|assumption].
    intros Hd. destruct (advance_spec mu s' Hmu HInv') as [[E _]|(_ & Hsv & _)];
      [lia | exact Hsv].
Qed.

Lemma run_more_fuel (mu : shape) (mins : list nat) (l : list state) :
  forall (fuel : nat) (s : state) (yielded : list state) (k : nat),
    run mu mins fuel s yielded = Done l ->
    run mu mins (fuel + k) s yielded = Done l.
Proof.
  induction fuel as [|fuel IH]; intros s yielded k H; [discriminate|].
  cbn [run Nat.add] in *.
  destruct (advance mu mins s) as [[s'|]|e]; try assumption.
  now apply IH.
Qed.

(** From some fuel on the run of the generator ends in [Done], and every
    state it yielded is safe. *)
Lemma iter_done (mu : shape) :
  is_partition_tuple mu = true ->
  exists (bound : nat) (l : list state),
    (forall fuel, bound <= fuel -> iter mu fuel = Done l) /\
    Forall (safe mu) l.
Proof.
  intros Hmu.
  assert (HInv := initial_Inv mu Hmu).
  set (s0 := mkstate (seq 1 (size mu)) (initial_cols mu)).
  assert (Hsafe0 : safe mu s0).
  { intros Hd. destruct (advance_spec mu s0 Hmu HInv) as [[E _]|(_ & Hsv & _)];
      [lia | exact Hsv]. }
  destruct (run_terminates mu Hmu (S (base mu ^ size mu)) s0 [s0] HInv
                           ltac:(lia) ltac:(constructor; [exact Hsafe0|constructor]))
    as (l & Hrun & Hall).
  exists (S (base mu ^ size mu)), l. split; [|exact Hall].
  intros fuel Hfuel. unfold iter. rewrite init_cols_mins_eq.
  replace fuel with (S (base mu ^ size mu) + (fuel - S (base mu ^ size mu))) by lia.
  apply run_more_fuel. exact Hrun.
Qed.

(** C2: for every partition tuple [mu], the empty one included, the run of
    [StandardTableauTuples_shape(mu).__iter__] ends, with every fuel from
    some bound on, in [Done]: it stops and never raises.  In every tableau it
    reaches where a descent [r] is found, [max_row_in_component(tab, r)]
    returns an integer: its fall through is never taken. *)
Theorem iteration_terminates_and_never_fails (mu : shape) :
  is_partition_tuple mu = true ->
  exists (bound : nat) (l : list state),
    (forall fuel, bound <= fuel -> iter mu fuel = Done l) /\
    Forall (fun s =>
              descent s < length (st_cols s) ->
              exists sv, max_row_in_component mu (st_tab s) (st_cols s) (descent s)
                         = Ok (Some sv)) l.
Proof.
  intros Hmu.
  assert (HInv := initial_Inv mu Hmu).
  set (s0 := mkstate (seq 1 (size mu)) (initial_cols mu)).
  assert (Hsafe0 : safe mu s0).
  { intros Hd. destruct (advance_spec mu s0 Hmu HInv) as [[E _]|(_ & Hsv & _)];
      [lia | exact Hsv]. }
  destruct (run_terminates mu Hmu (S (base mu ^ size mu)) s0 [s0] HInv
                           ltac:(lia) ltac:(constructor; [exact Hsafe0|constructor]))
    as (l & Hrun & Hall).
  exists (S (base mu ^ size mu)), l. split; [|exact Hall].
  intros fuel Hfuel. unfold iter. rewrite init_cols_mins_eq.
  replace fuel with (S (base mu ^ size mu) + (fuel - S (base mu ^ size mu))) by lia.
  apply run_more_fuel. exact Hrun.
Qed.

Lemma iteration_terminates_and_never_fails_witness :
  is_partition_tuple [[2; 1]; [2]] = true /\
  exists (bound : nat) (l : list state),
    (forall fuel, bound <= fuel -> iter [[2; 1]; [2]] fuel = Done l) /\
    Forall (fun s =>
              descent s < length (st_cols s) ->
              exists sv, max_row_in_component [[2; 1]; [2]] (st_tab s) (st_cols s)
                                              (descent s)
                         = Ok (Some sv)) l.
Proof.
  split; [reflexivity|].
  apply (iteration_terminates_and_never_fails [[2; 1]; [2]]). reflexivity.
Defined.

(** * The enumerators indexed by a residue sequence

    [StandardTableaux_residue], [StandardTableaux_residue_shape],
    [RowStandardTableauTuples_residue] and
    [RowStandardTableauTuples_residue_shape].  The residue sequences and the
    shapes come from modules that are not under src/; what the enumerators
    use of them is modelled from the spec. *)

(** ** Generators *)

(** A generator that ends: the values it yields, in order, and the exception
    that stopped it, if one did. *)
Definition gen (A : Type) : Type := list A * option exn.

Definition gen_empty {A : Type} : gen A := ([], None).
Definition gen_yield {A : Type} (a : A) : gen A := ([a], None).
Definition gen_raise {A : Type} (e : exn) : gen A := ([], Some e).

(** [g1] and then, unless [g1] raised, [g2]. *)
Definition gen_app {A : Type} (g1 g2 : gen A) : gen A :=
  match snd g1 with
  | None => (fst g1 ++ fst g2, snd g2)
  | Some e => (fst g1, Some e)
  end.

(** [for a in l: body(a)] *)
Fixpoint gen_for {A B : Type} (l : list A) (body : A -> gen B) : gen B :=
  match l with
  | [] => gen_empty
  | a :: t => gen_app (body a) (gen_for t body)
  end.

(** [for a in g: body(a)], where [g] is itself a generator: its exception
    comes after the values it yielded were used. *)
Definition gen_bind {A B : Type} (g : gen A) (body : A -> gen B) : gen B :=
  gen_app (gen_for (fst g) body)
          (match snd g with
           | None => gen_empty
           | Some e => gen_raise e
           end).

(** A step that may raise, and what follows it. *)
Definition gen_lift {A B : Type} (r : res A) (k : A -> gen B) : gen B :=
  match r with
  | Ok a => k a
  | Raise e => gen_raise e
  end.

Definition gen_map {A B : Type} (f : A -> B) (g : gen A) : gen B :=
  (map f (fst g), snd g).

(** ** Residue sequences *)

(** A residue sequence with its parameters: the quantum characteristic
    [e], the multicharge and the residues of 1, ..., n. *)
Record ResidueSequence : Type := mkResidueSequence {
  quantum_characteristic : Z;
  multicharge : list Z;
  residues : list Z
}.

(** Modelled from the spec: the base ring of the residues, the integers
    modulo [e], or the integers when [e] is 0 (sage.combinat.tableau_residues,
    not under src/). *)
Definition base_ring (e x : Z) : Z := if (e =? 0)%Z then x else (x mod e)%Z.

(** Modelled from the spec: the constructor [ResidueSequence(e, multicharge,
    residues)] (not under src/): the residues are taken in the base ring. *)
Definition ResidueSequence_new (e : Z) (multicharge : list Z) (residues : list Z)
  : ResidueSequence :=
  mkResidueSequence e multicharge (map (base_ring e) residues).

Definition rs_size (residue : ResidueSequence) : nat := length (residues residue).
Definition rs_level (residue : ResidueSequence) : nat := length (multicharge residue).

(** Modelled from the spec: [ResidueSequence.restrict(m)] (not under src/):
    the residue sequence truncated to length [m]. *)
Definition rs_restrict (residue : ResidueSequence) (m : nat) : ResidueSequence :=
  mkResidueSequence (quantum_characteristic residue) (multicharge residue)
                    (firstn m (residues residue)).

(** Modelled from the spec: [residue[k]] (not under src/): the residue of
    [k], the entries counted from 1. *)
Definition rs_getitem (residue : ResidueSequence) (k : nat) : res Z :=
  match k with
  | O => Raise (IndexError list_index_out_of_range)
  | S i => getitem (residues residue) i
  end.

(** Modelled from the spec: [residue.parent().cell_residue(k, r, c)] (not
    under src/): [multicharge[k] - r + c] in the base ring. *)
Definition cell_residue (residue : ResidueSequence) (cell : nat * nat * nat) : res Z :=
  let '(k, r, c) := cell in
  mk <- getitem (multicharge residue) k ;;
  Ok (base_ring (quantum_characteristic residue)
                (mk - Z.of_nat r + Z.of_nat c)%Z).

(** Modelled from the spec: [cell_residue(r, c)] with the two coordinates of
    a cell of a partition: the component is the first one. *)
Definition cell_residue_level_one (residue : ResidueSequence) (cell : nat * nat)
  : res Z :=
  cell_residue residue (0, fst cell, snd cell).

(** ** Shapes *)

Definition shape_of_tableau {A : Type} (rows : list (list A)) : list nat :=
  map (@length A) rows.
Definition shape_of_tuple {A : Type} (comps : list (list (list A))) : shape :=
  map shape_of_tableau comps.

(** Modelled from the spec: [PartitionTuple.cells()] (not under src/): the
    cells [(k, r, c)] of the shape, component after component and row after
    row. *)
Definition PartitionTuple_cells (mu : shape) : list (nat * nat * nat) := cells mu.

(** Modelled from the spec: [Partition.addable_cells()] (not under src/):
    the cells [(r, c)] that can be added to a partition. *)
Definition Partition_addable_cells (nu : list nat) : list (nat * nat) :=
  map (fun cell => (snd (fst cell), snd cell)) (addable_in_rows 0 0 None nu).

(** Modelled from the spec: [PartitionTuple.removable_cells()] (not under
    src/): the cells that can be removed from the shape while keeping it a
    partition tuple: the end of a row that is longer than the row below it. *)
Fixpoint removable_in_rows (k r : nat) (nu : list nat) : list (nat * nat * nat) :=
  match nu with
  | [] => []
  | len :: rest =>
      (if hd 0 rest <? len then [(k, r, len - 1)] else [])
        ++ removable_in_rows k (S r) rest
  end.

Definition removable_cells (mu : shape) : list (nat * nat * nat) :=
  concat (map (fun p => removable_in_rows (fst p) 0 (snd p))
              (combine (seq 0 (length mu)) mu)).

Definition Partition_removable_cells (nu : list nat) : list (nat * nat) :=
  map (fun cell => (snd (fst cell), snd cell)) (removable_in_rows 0 0 nu).

Definition cell3_eqb (a b : nat * nat * nat) : bool :=
  let '(k, r, c) := a in
  let '(k', r', c') := b in
  (k =? k') && (r =? r') && (c =? c').

Definition not_removable : string := "%s is not a removable cell"%string.

(** Modelled from the spec: [PartitionTuple.remove_cell(k, r, c)] (not under
    src/): the shape without the removable cell [(k, r, c)]; a row that
    becomes empty is dropped. *)
Definition remove_cell (mu : shape) (cell : nat * nat * nat) : res shape :=
  let '(k, r, c) := cell in
  if existsb (cell3_eqb cell) (removable_cells mu) then
    Ok (set_nth mu k (filter (fun len => 0 <? len) (set_nth (nth k mu []) r c)))
  else Raise (ValueError not_removable).

Definition Partition_remove_cell (nu : list nat) (cell : nat * nat) : res (list nat) :=
  mu <- remove_cell [nu] (0, fst cell, snd cell) ;;
  Ok (nth 0 mu []).

(** ** [TableauTuple.residue_sequence] *)

Definition list_assignment_out_of_range : string :=
  "list assignment index out of range"%string.

(** [l[i] = v] for a Python integer [i]. *)
Definition py_setitem {A : Type} (l : list A) (i : Z) (v : A) : res (list A) :=
  match py_norm_index (length l) i with
  | Some j => Ok (set_nth l j v)
  | None => Raise (IndexError list_assignment_out_of_range)
  end.

(** [x - 1] for an entry [x] of a tableau. *)
Definition minus_one (x : pyobj) : res Z :=
  match x with
  | PInt z => Ok (z - 1)%Z
  | PList _ =>
      Raise (TypeError "unsupported operand type(s) for -: 'tuple' and 'int'"%string)
  end.

(** [res[self[k][r][c] - 1] = multicharge[k] - r + c], the list [res]
    written [res']. *)
Definition record_residue (t : list (list (list pyobj))) (multicharge : list Z)
           (res' : list Z) (cell : nat * nat * nat) : res (list Z) :=
  let '(k, r, c) := cell in
  mk <- getitem multicharge k ;;
  tk <- getitem t k ;;
  tkr <- getitem tk r ;;
  x <- getitem tkr c ;;
  i <- minus_one x ;;
  py_setitem res' i (mk - Z.of_nat r + Z.of_nat c)%Z.

Definition residue_sequence (t : list (list (list pyobj))) (e : Z)
           (multicharge : list Z) : res ResidueSequence :=
  res' <- for_each (record_residue t multicharge)
                   (PartitionTuple_cells (shape_of_tuple t))
                   (repeat 0%Z (size (shape_of_tuple t))) ;;
  Ok (ResidueSequence_new e multicharge res').

(** Modelled from the spec: [Tableau.residue_sequence(e, multicharge)]
    (sage.combinat.tableau, not under src/): the residue of the entry in row
    [r] and column [c] is [multicharge[0] - r + c] in the base ring. *)
Definition Tableau_residue_sequence (rows : list (list pyobj)) (e : Z)
           (multicharge : list Z) : res ResidueSequence :=
  residue_sequence [rows] e multicharge.

(** The residue sequence of what an enumerator yields. *)
Definition residue_sequence_of (x : element) (e : Z) (multicharge : list Z)
  : res ResidueSequence :=
  match x with
  | TableauObj rows => Tableau_residue_sequence rows e multicharge
  | TableauTupleObj comps => residue_sequence comps e multicharge
  end.

(** ** [_add_entry_fast] *)

(** [tab[k][r][c] = m] *)
Definition set_entry {A : Type} (tab : list (list (list A))) (k r c : nat) (m : A)
  : res (list (list (list A))) :=
  tk <- getitem tab k ;;
  tkr <- getitem tk r ;;
  tkr' <- setitem tkr c m ;;
  Ok (set_nth tab k (set_nth tk r tkr')).

(** The handler: [if r == len(tab[k]): tab[k].append([])] and
    [tab[k][r].append(m)]. *)
Definition append_entry {A : Type} (tab : list (list (list A))) (k r : nat) (m : A)
  : res (list (list (list A))) :=
  tk <- getitem tab k ;;
  let tk' := if r =? length tk then tk ++ [[]] else tk in
  tkr <- getitem tk' r ;;
  Ok (set_nth tab k (set_nth tk' r (tkr ++ [m]))).

Definition _add_entry_fast {A : Type} (T : list (list (list A)))
           (cell : nat * nat * nat) (m : A) : res (list (list (list A))) :=
  let '(k, r, c) := cell in
  let tab := T in   (* [T.to_list()] *)
  match set_entry tab k r c m with
  | Ok tab' => Ok tab'
  | Raise e => if is_IndexErrorb e then append_entry tab k r m else Raise e
  end.

(** Modelled from the spec: [Tableau.add_entry(cell, m)]
    (sage.combinat.tableau, not under src/): an existing cell is overwritten,
    an addable cell extends its row or starts a new row, and another cell is
    an [IndexError]. *)
Definition Tableau_add_entry (rows : list (list pyobj)) (cell : nat * nat) (m : pyobj)
  : res (list (list pyobj)) :=
  let '(r, c) := cell in
  match set_entry [rows] 0 r c m with
  | Ok tab => Ok (nth 0 tab [])
  | Raise e =>
      if is_IndexErrorb e then
        if existsb (fun a => (fst a =? r) && (snd a =? c))
                   (Partition_addable_cells (shape_of_tableau rows))
        then tab <- append_entry [rows] 0 r m ;; Ok (nth 0 tab [])
        else Raise (IndexError not_addable)
      else Raise e
  end.

(** ** The elements the enumerators build *)

(** [RowStandardTableauTuple.__init__] and [StandardTableauTuple.__init__]
    with [check=False]: [t] is read as a list of tableaux, and if that fails
    as one tableau. *)
Definition element_class_unchecked (t : list pyobj) : res (list (list (list pyobj))) :=
  match map_res Tableau t with
  | Ok comps => Ok comps
  | Raise _ =>
      match Tableau (PList t) with
      | Ok tab => Ok [tab]
      | Raise _ => Raise (ValueError not_valid_msg)
      end
  end.

(** A tableau, and a list of tableaux, as the lists a constructor is given. *)
Definition tableau_items (rows : list (list pyobj)) : pyobj :=
  PList (map PList rows).
Definition tuple_items (comps : list (list (list pyobj))) : list pyobj :=
  map tableau_items comps.

(** [StandardTableauTuple([[] for _ in range(level)])] and
    [RowStandardTableauTuple([[] for _ in range(level)])]: the constructors
    return the one component when there is one, and the tuple otherwise. *)
Definition empty_element (level : nat) : element :=
  match level with
  | 1 => TableauObj []
  | _ => TableauTupleObj (repeat [] level)
  end.

(** ** [StandardTableaux_residue.__iter__]

    The tableaux of size [size] are built from those of size [size - 1],
    which [StandardTableaux_residue(self._residue.restrict(self._size - 1))]
    yields.  With one component the elements are tableaux and the cells
    pairs; otherwise the elements are tuples and the cells triples: the two
    functions below are the two branches of [if self._level == 1]. *)

(** [self._residue[self._size] == self._residue.parent().cell_residue(cell)] *)
Definition right_residue (residue : ResidueSequence) (size : nat)
           (cell : nat * nat * nat) : res bool :=
  rn <- rs_getitem residue size ;;
  rc <- cell_residue residue cell ;;
  Ok (rn =? rc)%Z.

Definition right_residue_level_one (residue : ResidueSequence) (size : nat)
           (cell : nat * nat) : res bool :=
  rn <- rs_getitem residue size ;;
  rc <- cell_residue_level_one residue cell ;;
  Ok (rn =? rc)%Z.

(** [tab = _add_entry_fast(t, cell, m); self.element_class(self, tab, check=False)] *)
Definition add_cell (t : list (list (list pyobj))) (cell : nat * nat * nat) (m : nat)
  : res (list (list (list pyobj))) :=
  tab <- _add_entry_fast t cell (PInt (Z.of_nat m)) ;;
  element_class_unchecked (tuple_items tab).

Fixpoint StandardTableaux_residue_level_one (size : nat) (residue : ResidueSequence)
  : gen (list (list pyobj)) :=
  match size with
  | O => gen_yield []
  | S m =>
      gen_bind (StandardTableaux_residue_level_one m (rs_restrict residue m))
        (fun t =>
           gen_for (Partition_addable_cells (shape_of_tableau t))
             (fun cell =>
                gen_lift (right_residue_level_one residue size cell)
                  (fun right =>
                     if right
                     then gen_lift (Tableau_add_entry t cell (PInt (Z.of_nat size)))
                                   gen_yield
                     else gen_empty)))
  end.

Fixpoint StandardTableaux_residue_higher (level size : nat) (residue : ResidueSequence)
  : gen (list (list (list pyobj))) :=
  match size with
  | O => gen_yield (repeat [] level)
  | S m =>
      gen_bind (StandardTableaux_residue_higher level m (rs_restrict residue m))
        (fun t =>
           gen_for (addable_cells (shape_of_tuple t))
             (fun cell =>
                gen_lift (right_residue residue size cell)
                  (fun right =>
                     if right then gen_lift (add_cell t cell size) gen_yield
                     else gen_empty)))
  end.

Definition StandardTableaux_residue_iter (residue : ResidueSequence) : gen element :=
  if rs_level residue =? 1
  then gen_map TableauObj
               (StandardTableaux_residue_level_one (rs_size residue) residue)
  else gen_map TableauTupleObj
               (StandardTableaux_residue_higher (rs_level residue) (rs_size residue)
                                                residue).

(** ** [StandardTableaux_residue_shape] *)

Definition sizes_must_coincide : string :=
  "the size of the shape and the length of the residue defence must coincide"%string.

(** The cells come from the shape, which loses one of them and is handed to
    [StandardTableaux_residue_shape(self._residue.restrict(self._size - 1),
    self._shape.remove_cell(cell))]; [__init__] compares the sizes.  With
    more than one component [n] is [self._size]. *)
Fixpoint StandardTableaux_residue_shape_level_one (size : nat)
         (residue : ResidueSequence) (shape : list nat) : gen (list (list pyobj)) :=
  if negb (rs_size residue =? psize shape)
  then gen_raise (ValueError sizes_must_coincide)
  else
    match size with
    | O => gen_yield []
    | S m =>
        gen_for (Partition_removable_cells shape)
          (fun cell =>
             gen_lift (right_residue_level_one residue size cell)
               (fun right =>
                  if right
                  then
                    gen_lift (Partition_remove_cell shape cell)
                      (fun shape' =>
                         gen_bind (StandardTableaux_residue_shape_level_one
                                     m (rs_restrict residue m) shape')
                           (fun t =>
                              gen_lift (Tableau_add_entry t cell (PInt (Z.of_nat size)))
                                       gen_yield))
                  else gen_empty))
    end.

Fixpoint StandardTableaux_residue_shape_higher (level n : nat)
         (residue : ResidueSequence) (mu : shape) : gen (list (list (list pyobj))) :=
  if negb (rs_size residue =? size mu)
  then gen_raise (ValueError sizes_must_coincide)
  else
    match n with
    | O => gen_yield (repeat [] level)
    | S m =>
        gen_for (removable_cells mu)
          (fun cell =>
             gen_lift (right_residue residue n cell)
               (fun right =>
                  if right
                  then
                    gen_lift (remove_cell mu cell)
                      (fun mu' =>
                         gen_bind (StandardTableaux_residue_shape_higher
                                     level m (rs_restrict residue m) mu')
                           (fun t => gen_lift (add_cell t cell n) gen_yield))
                  else gen_empty))
    end.

(** The enumerator for a shape and a level that do not go together, a
    partition with a level other than 1 or a tuple with level 1: the empty
    element is yielded, and a cell cannot be unpacked. *)
Fixpoint StandardTableaux_residue_shape_mismatched {S C : Type}
         (size_of : S -> nat) (removable : S -> list C)
         (right : ResidueSequence -> nat -> C -> res bool)
         (remove : S -> C -> res S) (unpack : exn)
         (level size : nat) (residue : ResidueSequence) (shape : S) : gen element :=
  if negb (rs_size residue =? size_of shape)
  then gen_raise (ValueError sizes_must_coincide)
  else
    match size with
    | O => gen_yield (empty_element level)
    | S m =>
        gen_for (removable shape)
          (fun cell =>
             gen_lift (right residue size cell)
               (fun is_right =>
                  if is_right
                  then
                    gen_lift (remove shape cell)
                      (fun shape' =>
                         gen_bind (StandardTableaux_residue_shape_mismatched
                                     size_of removable right remove unpack
                                     level m (rs_restrict residue m) shape')
                           (fun _ => gen_raise unpack))
                  else gen_empty))
    end.

(** Modelled from the spec: [residue.standard_tableaux(shape)]
    (sage.combinat.tableau_residues, not under src/):
    [StandardTableaux_residue_shape(residue, PartitionTuple(shape))], where a
    list of one partition is that partition. *)
Definition standard_tableaux (residue : ResidueSequence) (mu : shape) : gen element :=
  match mu with
  | [nu] =>
      if rs_level residue =? 1
      then gen_map TableauObj
             (StandardTableaux_residue_shape_level_one (rs_size residue) residue nu)
      else StandardTableaux_residue_shape_mismatched
             psize Partition_removable_cells right_residue_level_one
             Partition_remove_cell
             (ValueError "not enough values to unpack (expected 3, got 2)"%string)
             (rs_level residue) (rs_size residue) residue nu
  | _ =>
      if rs_level residue =? 1
      then StandardTableaux_residue_shape_mismatched
             size removable_cells right_residue remove_cell
             (ValueError "too many values to unpack (expected 2)"%string)
             (rs_level residue) (rs_size residue) residue mu
      else gen_map TableauTupleObj
             (StandardTableaux_residue_shape_higher (rs_level residue)
                (rs_size residue) residue mu)
  end.

(** ** [RowStandardTableauTuples_residue_shape] *)

Definition sizes_must_coincide' : string :=
  "the size of the shape and the length of the residue defence must coincide!"%string.

(** Modelled from the spec: the constructor [RowStandardTableau(t)]
    (sage.combinat.tableau, not under src/): a tableau whose rows increase
    and whose entries are 1, ..., n, each once. *)
Definition RowStandardTableau (t : pyobj) : res (list (list pyobj)) :=
  rows <- Tableau t ;;
  match map_res (map_res (fun x => match x with
                                   | PInt z => Ok z
                                   | PList _ => Raise (ValueError bijection_msg)
                                   end)) rows with
  | Raise e => Raise e
  | Ok zs =>
      if negb (is_row_strict Z.ltb zs) then Raise (ValueError row_strict_msg)
      else if list_eq_dec Z.eq_dec (sorted (entries_of_tableau zs))
                          (range1 (length (entries_of_tableau zs)))
           then Ok rows
           else Raise (ValueError bijection_msg)
  end.

(** What [__init__] stores: the level and the size of the residue sequence,
    the standard tableaux of the stretched shape, which has one component
    for every row of [shape], and the list [_cumulative_lengths]. *)
Record residue_shape_state : Type := mk_residue_shape_state {
  rss_level : nat;
  rss_size : nat;
  rss_standard_tableaux : gen element;
  rss_cumulative_lengths : list nat
}.

(** [[multicharge[c] - r for c in range(len(shape)) for r in range(len(shape[c]))]] *)
Definition stretched_charge (multicharge : list Z) (mu : shape) : res (list Z) :=
  rows <- map_res (fun c =>
                     map_res (fun r => mc <- getitem multicharge c ;;
                                       Ok (mc - Z.of_nat r)%Z)
                             (seq 0 (length (nth c mu []))))
                  (seq 0 (length mu)) ;;
  Ok (concat rows).

(** [_cumulative_lengths[c+1] = _cumulative_lengths[c] + len(shape[c])] *)
Definition cumulative_lengths (mu : shape) : list nat := cumul 0 (map (@length nat) mu).

(** [RowStandardTableauTuples_residue_shape.__init__]; a shape of level 1 is
    a partition, here the list of that one partition. *)
Definition RowStandardTableauTuples_residue_shape_init (residue : ResidueSequence)
           (mu : shape) : res residue_shape_state :=
  if negb (rs_size residue =? size mu)
  then Raise (ValueError sizes_must_coincide')
  else
    let multicharge := multicharge residue in
    ' (standard_shape, charge, cumulative) <-
      match mu with
      | [nu] =>
          charge <- map_res (fun r => mc <- getitem multicharge 0 ;;
                                      Ok (mc - Z.of_nat r)%Z)
                            (seq 0 (length nu)) ;;
          Ok (map (fun r => [r]) nu, charge, [0; length nu])
      | _ =>
          charge <- stretched_charge multicharge mu ;;
          Ok (map (fun r => [r]) (concat mu), charge, cumulative_lengths mu)
      end ;;
    let res' := ResidueSequence_new (quantum_characteristic residue) charge
                                    (residues residue) in
    Ok (mk_residue_shape_state (rs_level residue) (rs_size residue)
                               (standard_tableaux res' standard_shape) cumulative).

(** [t[r][0]]: the first row of component [r] of a tuple, and the first
    entry of row [r] of a tableau. *)
Definition first_of (t : element) (r : nat) : res pyobj :=
  match t with
  | TableauTupleObj comps =>
      comp <- getitem comps r ;; row <- getitem comp 0 ;; Ok (PList row)
  | TableauObj rows =>
      row <- getitem rows r ;; py_getitem tuple_index_out_of_range row 0
  end.

(** [[s[0] for s in t]] *)
Definition firsts (t : element) : res (list pyobj) :=
  match t with
  | TableauTupleObj comps =>
      map_res (fun comp => row <- getitem comp 0 ;; Ok (PList row)) comps
  | TableauObj rows =>
      map_res (fun row => py_getitem tuple_index_out_of_range row 0) rows
  end.

(** [__iter__level_one] *)
Definition RowStandardTableauTuples_residue_shape_iter_level_one
           (self : residue_shape_state) : gen element :=
  gen_app
    (if rss_size self =? 0
     then gen_lift (RowStandardTableau (PList [])) (fun t => gen_yield (TableauObj t))
     else gen_empty)
    (gen_bind (rss_standard_tableaux self)
       (fun t =>
          gen_lift (rows <- firsts t ;; RowStandardTableau (PList rows))
                   (fun t' => gen_yield (TableauObj t')))).

(** [[[t[r][0] for r in range(cum[c], cum[c + 1])] for c in range(level)]] *)
Definition regroup (self : residue_shape_state) (t : element) : res (list pyobj) :=
  map_res (fun c =>
             lo <- getitem (rss_cumulative_lengths self) c ;;
             hi <- getitem (rss_cumulative_lengths self) (c + 1) ;;
             rows <- map_res (first_of t) (seq lo (hi - lo)) ;;
             Ok (PList rows))
          (seq 0 (rss_level self)).

(** [__iter__higher_levels] *)
Definition RowStandardTableauTuples_residue_shape_iter_higher_levels
           (self : residue_shape_state) : gen element :=
  if rss_size self =? 0
  then gen_lift (element_class_unchecked (repeat (PList []) (rss_level self)))
                (fun t => gen_yield (TableauTupleObj t))
  else
    gen_bind (rss_standard_tableaux self)
      (fun t =>
         gen_lift (items <- regroup self t ;; element_class_unchecked items)
                  (fun t' => gen_yield (TableauTupleObj t'))).

(** [__iter__] *)
Definition RowStandardTableauTuples_residue_shape_iter (self : residue_shape_state)
  : gen element :=
  if rss_level self =? 1
  then RowStandardTableauTuples_residue_shape_iter_level_one self
  else RowStandardTableauTuples_residue_shape_iter_higher_levels self.

(** ** [RowStandardTableauTuples_residue.__iter__] *)

(** The rows of an element, as the constructor of another element reads
    them: [for s in t]. *)
Definition element_items (t : element) : list pyobj :=
  match t with
  | TableauObj rows => map PList rows
  | TableauTupleObj comps => tuple_items comps
  end.

Section RowStandardTableauTuples_residue.

(** Modelled from the spec: [PartitionTuples(level, size)]
    (sage.combinat.partition_tuple, not under src/), the partition tuples of
    a level and a size in some order, and the test
    [mu.block(e, multicharge) == residue.block()]. *)
Variable PartitionTuples : nat -> nat -> list shape.
Variable same_block : shape -> ResidueSequence -> bool.

Definition RowStandardTableauTuples_residue_iter (residue : ResidueSequence)
  : gen element :=
  let level := rs_level residue in
  let size := rs_size residue in
  if size =? 0 then
    if level =? 1
    then gen_lift (RowStandardTableau (PList [])) (fun t => gen_yield (TableauObj t))
    else gen_yield (empty_element level)
  else
    gen_for (PartitionTuples level size)
      (fun mu =>
         if same_block mu residue then
           gen_lift (RowStandardTableauTuples_residue_shape_init residue mu)
             (fun tabs =>
                gen_bind (RowStandardTableauTuples_residue_shape_iter tabs)
                  (fun t =>
                     if level =? 1 then gen_yield t
                     else gen_lift (element_class_unchecked (element_items t))
                                   (fun t' => gen_yield (TableauTupleObj t'))))
         else gen_empty).

End RowStandardTableauTuples_residue.

(** * The residue sequence of a tableau tuple *)

(** ** What generators yield *)

Lemma gen_app_yields {A : Type} (P : A -> Prop) (g1 g2 : gen A) :
  Forall P (fst g1) -> Forall P (fst g2) -> Forall P (fst (gen_app g1 g2)).
Proof.
  intros H1 H2. unfold gen_app. destruct (snd g1); cbn [fst]; [assumption|].
  apply Forall_app. now split.
Qed.

Lemma gen_for_yields {A B : Type} (P : B -> Prop) (l : list A) (body : A -> gen B) :
  (forall a, In a l -> Forall P (fst (body a))) -> Forall P (fst (gen_for l body)).
Proof.
  induction l as [|a l IH]; intros H; cbn [gen_for]; [constructor|].
  apply gen_app_yields; [apply H; now left|]. apply IH. intros b Hb. apply H. now right.
Qed.

Lemma gen_bind_yields {A B : Type} (Q : A -> Prop) (P : B -> Prop)
      (g : gen A) (body : A -> gen B) :
  Forall Q (fst g) -> (forall a, Q a -> Forall P (fst (body a))) ->
  Forall P (fst (gen_bind g body)).
Proof.
  intros Hg Hbody. unfold gen_bind. apply gen_app_yields.
  - apply gen_for_yields. intros a Ha. apply Hbody.
    rewrite Forall_forall in Hg. now apply Hg.
  - destruct (snd g); constructor.
Qed.

Lemma gen_lift_yields {A B : Type} (P : B -> Prop) (r : res A) (k : A -> gen B) :
  (forall a, r = Ok a -> Forall P (fst (k a))) -> Forall P (fst (gen_lift r k)).
Proof.
  intros H. destruct r as [a|e]; cbn; [now apply H | constructor].
Qed.

Lemma gen_yield_yields {A : Type} (P : A -> Prop) (a : A) :
  P a -> Forall P (fst (gen_yield a)).
Proof. intros H. constructor; [assumption | constructor]. Qed.

Lemma gen_map_yields {A B : Type} (Q : A -> Prop) (P : B -> Prop) (f : A -> B)
      (g : gen A) :
  Forall Q (fst g) -> (forall a, Q a -> P (f a)) -> Forall P (fst (gen_map f g)).
Proof.
  intros Hg Hf. unfold gen_map. cbn [fst]. apply Forall_map.
  eapply Forall_impl; [|exact Hg]. exact Hf.
Qed.

(** ** Tableau tuples with integer entries *)

Definition lift_tableau (rows : tableau) : list (list pyobj) := map (map PInt) rows.
Definition lift_tuple (zs : tableau_tuple) : list (list (list pyobj)) :=
  map lift_tableau zs.

Lemma shape_of_lift_tableau (rows : tableau) :
  shape_of_tableau (lift_tableau rows) = shape_of_tableau rows.
Proof.
  unfold shape_of_tableau, lift_tableau. rewrite map_map.
  apply map_ext. intros row. apply length_map.
Qed.

Lemma shape_of_lift_tuple (zs : tableau_tuple) :
  shape_of_tuple (lift_tuple zs) = shape_of_tuple zs.
Proof.
  unfold shape_of_tuple, lift_tuple. rewrite map_map.
  apply map_ext. intros rows. apply shape_of_lift_tableau.
Qed.

Lemma valid_lift_tableau (rows : tableau) :
  valid_tableau (lift_tableau rows) = valid_tableau rows.
Proof.
  unfold valid_tableau. fold (shape_of_tableau (lift_tableau rows)).
  now rewrite shape_of_lift_tableau.
Qed.

Lemma rows_of_items_PList (rows : list (list pyobj)) :
  rows_of_items (map PList rows) = Some rows.
Proof. induction rows as [|row rows IH]; cbn; [|rewrite IH]; reflexivity. Qed.

Lemma Tableau_items (rows : list (list pyobj)) :
  valid_tableau rows = true -> Tableau (tableau_items rows) = Ok rows.
Proof.
  intros H. unfold Tableau, tableau_items. now rewrite rows_of_items_PList, H.
Qed.

Lemma Tableau_items_inv (rows tab : list (list pyobj)) :
  Tableau (tableau_items rows) = Ok tab -> tab = rows /\ valid_tableau rows = true.
Proof.
  unfold Tableau, tableau_items. rewrite rows_of_items_PList.
  destruct (valid_tableau rows); [|discriminate]. intros [= <-]. now split.
Qed.

Lemma map_res_Tableau_items (comps : list (list (list pyobj))) :
  forallb (@valid_tableau pyobj) comps = true ->
  map_res Tableau (tuple_items comps) = Ok comps.
Proof.
  induction comps as [|comp comps IH]; intros H; [reflexivity|].
  cbn in H. apply andb_true_iff in H. destruct H as [H1 H2].
  cbn [tuple_items map map_res]. rewrite (Tableau_items comp H1). cbn [bind].
  fold (tuple_items comps). rewrite (IH H2). reflexivity.
Qed.

(** A valid list of tableaux is its own element. *)
Lemma element_class_unchecked_valid (comps : list (list (list pyobj))) :
  forallb (@valid_tableau pyobj) comps = true ->
  element_class_unchecked (tuple_items comps) = Ok comps.
Proof.
  intros H. unfold element_class_unchecked. now rewrite map_res_Tableau_items.
Qed.

(** ** The entries and their cells *)

(** The entries are 1, ..., n, each once, and every component is a tableau. *)
Definition filled (n : nat) (zs : tableau_tuple) : Prop :=
  forallb (@valid_tableau Z) zs = true /\ Permutation (entries zs) (range1 n).

Lemma range1_NoDup (n : nat) : NoDup (range1 n).
Proof.
  unfold range1. apply NoDup_map_NoDup_ForallPairs; [|apply seq_NoDup].
  intros a b _ _ E. lia.
Qed.

Lemma In_range1 (n : nat) (x : Z) : In x (range1 n) <-> (1 <= x <= Z.of_nat n)%Z.
Proof.
  unfold range1. rewrite in_map_iff. split.
  - intros (i & <- & Hi). apply in_seq in Hi. lia.
  - intros H. exists (Z.to_nat x). split; [lia|]. apply in_seq. lia.
Qed.

Lemma holds_In (zs : tableau_tuple) (x : Z) :
  In x (entries zs) <-> exists k r c, holds zs k r c x.
Proof.
  unfold entries, entries_of_tableau, holds. split.
  - intros H. apply in_concat in H. destruct H as (es & Hes & Hx).
    apply in_map_iff in Hes. destruct Hes as (comp & <- & Hcomp).
    apply in_concat in Hx. destruct Hx as (row & Hrow & Hx).
    apply In_nth_error in Hcomp, Hrow, Hx.
    destruct Hcomp as [k Hk]. destruct Hrow as [r Hr]. destruct Hx as [c Hc].
    exists k, r, c, comp, row. now repeat split.
  - intros (k & r & c & comp & row & Hk & Hr & Hc).
    apply in_concat. exists (concat comp). split.
    + apply in_map. eapply nth_error_In. eassumption.
    + apply in_concat. exists row. split; eapply nth_error_In; eassumption.
Qed.

Lemma holds_unique (zs : tableau_tuple) (x : Z) (k r c k' r' c' : nat) :
  NoDup (entries zs) -> holds zs k r c x -> holds zs k' r' c' x ->
  (k, r, c) = (k', r', c').
Proof.
  intros Hnd H1 H2.
  assert (F1 := holds_first_occurrence zs x k r c Hnd H1).
  assert (F2 := holds_first_occurrence zs x k' r' c' Hnd H2).
  destruct H1 as (comp1 & row1 & Hk1 & Hr1 & Hc1).
  destruct H2 as (comp2 & row2 & Hk2 & Hr2 & Hc2).
  destruct F1 as (compa & rowa & Hka & Hra & Hca & Hfa & Hrowsa & Hcompsa).
  destruct F2 as (compb & rowb & Hkb & Hrb & Hcb & Hfb & Hrowsb & Hcompsb).
  assert (compa = comp1) by congruence. subst compa.
  assert (compb = comp2) by congruence. subst compb.
  assert (rowa = row1) by congruence. subst rowa.
  assert (rowb = row2) by congruence. subst rowb.
  assert (Hin1 : In x row1) by (eapply nth_error_In; eassumption).
  assert (Hin2 : In x row2) by (eapply nth_error_In; eassumption).
  assert (Ek : k = k').
  { destruct (Nat.lt_trichotomy k k') as [Hlt|[E|Hgt]]; [exfalso|assumption|exfalso].
    - apply (Hcompsb k comp1 row1 Hlt Hk1); [|assumption].
      eapply nth_error_In; eassumption.
    - apply (Hcompsa k' comp2 row2 Hgt Hk2); [|assumption].
      eapply nth_error_In; eassumption. }
  subst k'. assert (comp2 = comp1) by congruence. subst comp2.
  assert (Er : r = r').
  { destruct (Nat.lt_trichotomy r r') as [Hlt|[E|Hgt]]; [exfalso|assumption|exfalso].
    - now apply (Hrowsb r row1 Hlt Hr1).
    - now apply (Hrowsa r' row2 Hgt Hr2). }
  subst r'. assert (row2 = row1) by congruence. subst row2.
  assert (Ec : c = c').
  { destruct (Nat.lt_trichotomy c c') as [Hlt|[E|Hgt]]; [exfalso|assumption|exfalso].
    - apply Hfb. eapply nth_error_In_firstn; eassumption.
    - apply Hfa. eapply nth_error_In_firstn; eassumption. }
  now subst c'.
Qed.

Lemma filled_NoDup (n : nat) (zs : tableau_tuple) : filled n zs -> NoDup (entries zs).
Proof.
  intros [_ Hperm]. eapply Permutation_NoDup; [apply Permutation_sym; exact Hperm|].
  apply range1_NoDup.
Qed.

Lemma filled_range (n : nat) (zs : tableau_tuple) (k r c : nat) (x : Z) :
  filled n zs -> holds zs k r c x -> (1 <= x <= Z.of_nat n)%Z.
Proof.
  intros [_ Hperm] H. apply In_range1. eapply Permutation_in; [exact Hperm|].
  apply holds_In. now exists k, r, c.
Qed.

Lemma filled_onto (n : nat) (zs : tableau_tuple) (x : Z) :
  filled n zs -> (1 <= x <= Z.of_nat n)%Z -> exists k r c, holds zs k r c x.
Proof.
  intros [_ Hperm] H. apply holds_In.
  eapply Permutation_in; [apply Permutation_sym; exact Hperm|]. now apply In_range1.
Qed.

Lemma length_entries (zs : tableau_tuple) :
  length (entries zs) = size (shape_of_tuple zs).
Proof.
  unfold entries, size, shape_of_tuple, entries_of_tableau.
  induction zs as [|comp zs IH]; [reflexivity|].
  cbn [map concat]. rewrite length_app, IH. unfold sum_list at 2. cbn [fold_right].
  fold (sum_list (map psize (map shape_of_tableau zs))). f_equal.
  unfold psize, shape_of_tableau. clear.
  induction comp as [|row comp IH]; [reflexivity|].
  cbn [map concat]. rewrite length_app, IH. reflexivity.
Qed.

Lemma filled_size (n : nat) (zs : tableau_tuple) :
  filled n zs -> size (shape_of_tuple zs) = n.
Proof.
  intros [_ Hperm]. rewrite <- length_entries.
  rewrite (Permutation_length Hperm). unfold range1.
  now rewrite length_map, length_seq.
Qed.

(** ** The cells of the shape of a tableau tuple *)

Lemma In_cells (mu : shape) (k r c : nat) :
  k < length mu -> r < length (nth k mu []) -> c < nth r (nth k mu []) 0 ->
  In (k, r, c) (cells mu).
Proof.
  intros Hk Hr Hc.
  assert (Hnth : nth_error mu k = Some (nth k mu [])) by (now apply nth_error_nth').
  set (nu := nth k mu []) in *.
  assert (Hsplit := nth_error_firstn_split mu k nu Hnth).
  set (q := sum_list (firstn r nu) + c).
  assert (Hq : q < psize nu).
  { unfold q, psize. assert (H := sum_firstn_le nu (S r)).
    rewrite sum_firstn_S in H. lia. }
  apply (nth_error_In _ (size (firstn k mu) + q)).
  unfold cells. rewrite Hsplit at 1.
  rewrite (comp_cells_nth 0 (firstn k mu) nu (skipn (S k) mu) q Hq).
  rewrite length_firstn, Nat.min_l by lia. cbn [Nat.add].
  unfold q. now rewrite row_cells_nth.
Qed.

Lemma holds_shape (zs : tableau_tuple) (k r c : nat) (x : Z) :
  holds zs k r c x ->
  k < length (shape_of_tuple zs) /\
  r < length (nth k (shape_of_tuple zs) []) /\
  c < nth r (nth k (shape_of_tuple zs) []) 0.
Proof.
  intros (comp & row & Hk & Hr & Hc).
  assert (E1 : nth k (shape_of_tuple zs) [] = map (@length Z) comp).
  { apply nth_error_nth. unfold shape_of_tuple.
    now rewrite (map_nth_error _ _ _ Hk). }
  assert (E2 : nth r (map (@length Z) comp) 0 = length row).
  { apply nth_error_nth. now apply map_nth_error. }
  rewrite E1, E2. unfold shape_of_tuple. rewrite !length_map.
  assert (k < length zs) by (apply nth_error_Some; congruence).
  assert (r < length comp) by (apply nth_error_Some; congruence).
  assert (c < length row) by (apply nth_error_Some; congruence).
  now repeat split.
Qed.

Lemma shape_holds (zs : tableau_tuple) (k r c : nat) :
  k < length (shape_of_tuple zs) ->
  r < length (nth k (shape_of_tuple zs) []) ->
  c < nth r (nth k (shape_of_tuple zs) []) 0 ->
  exists x, holds zs k r c x.
Proof.
  intros Hk. unfold shape_of_tuple in Hk. rewrite length_map in Hk.
  destruct (nth_error zs k) as [comp|] eqn:Ek.
  2:{ apply nth_error_None in Ek. exfalso. apply (Nat.lt_irrefl k).
      eapply Nat.lt_le_trans; [exact Hk | exact Ek]. }
  assert (E1 : nth k (shape_of_tuple zs) [] = map (@length Z) comp).
  { apply nth_error_nth. unfold shape_of_tuple.
    now rewrite (map_nth_error _ _ _ Ek). }
  rewrite E1, length_map. intros Hr.
  destruct (nth_error comp r) as [row|] eqn:Er;
    [|apply nth_error_None in Er; lia].
  assert (E2 : nth r (map (@length Z) comp) 0 = length row).
  { apply nth_error_nth. now apply map_nth_error. }
  rewrite E2. intros Hc.
  destruct (nth_error row c) as [x|] eqn:Ec;
    [|apply nth_error_None in Ec; lia].
  exists x, comp, row. now repeat split.
Qed.

Lemma holds_cells (zs : tableau_tuple) (k r c : nat) (x : Z) :
  holds zs k r c x -> In (k, r, c) (cells (shape_of_tuple zs)).
Proof.
  intros H. destruct (holds_shape zs k r c x H) as (Hk & Hr & Hc).
  now apply In_cells.
Qed.

Lemma cells_holds (zs : tableau_tuple) (k r c : nat) :
  In (k, r, c) (cells (shape_of_tuple zs)) -> exists x, holds zs k r c x.
Proof.
  intros H. apply In_nth_error in H. destruct H as [p Hp].
  destruct (comp_cells_bounds 0 _ p k r c Hp) as (_ & Hk & Hr & Hc & _).
  rewrite Nat.sub_0_r in *. apply shape_holds; [lia|assumption|assumption].
Qed.

(** The entries number the cells: 1, ..., n, each in one cell. *)
Definition numbered (n : nat) (zs : tableau_tuple) : Prop :=
  size (shape_of_tuple zs) = n /\
  (forall k r c x, holds zs k r c x -> (1 <= x <= Z.of_nat n)%Z) /\
  (forall x k r c k' r' c',
      holds zs k r c x -> holds zs k' r' c' x -> (k, r, c) = (k', r', c')) /\
  (forall x, (1 <= x <= Z.of_nat n)%Z -> exists k r c, holds zs k r c x).

Lemma filled_numbered (n : nat) (zs : tableau_tuple) : filled n zs -> numbered n zs.
Proof.
  intros Hf. split; [now apply filled_size|]. split; [|split].
  - intros k r c x. now apply filled_range.
  - intros x k r c k' r' c'. apply holds_unique. eapply filled_NoDup. eassumption.
  - intros x. now apply filled_onto.
Qed.

(** ** The loop of [residue_sequence] *)

Lemma for_each_writes {C : Type} (body : list Z -> C -> res (list Z))
      (idx : C -> nat) (val : C -> Z) (n : nat) (cs : list C) :
  (forall c res', In c cs -> length res' = n ->
                  body res' c = Ok (set_nth res' (idx c) (val c))) ->
  (forall c, In c cs -> idx c < n) ->
  NoDup (map idx cs) ->
  forall res0, length res0 = n ->
    exists res', for_each body cs res0 = Ok res' /\ length res' = n /\
                 (forall c, In c cs -> nth (idx c) res' 0%Z = val c) /\
                 (forall i, ~ In i (map idx cs) -> nth i res' 0%Z = nth i res0 0%Z).
Proof.
  induction cs as [|c cs IH]; intros Hbody Hidx Hnd res0 Hlen.
  - exists res0. cbn. repeat split; try assumption; intros; contradiction.
  - cbn [for_each map] in *. inversion Hnd as [|? ? Hnotin Hnd']; subst.
    rewrite (Hbody c res0 (or_introl eq_refl) eq_refl). cbn [bind].
    destruct (IH (fun c' r' Hc' => Hbody c' r' (or_intror Hc'))
                 (fun c' Hc' => Hidx c' (or_intror Hc')) Hnd'
                 (set_nth res0 (idx c) (val c)))
      as (res' & Hrun & Hlen' & Hval & Hrest).
    { apply length_set_nth. }
    exists res'. split; [assumption|]. split; [assumption|]. split.
    + intros c' [<-|Hc']; [|now apply Hval].
      rewrite (Hrest _ Hnotin), nth_set_nth by (apply Hidx; now left).
      now rewrite Nat.eqb_refl.
    + intros i Hi. rewrite Hrest by (intros E; apply Hi; now right).
      rewrite nth_set_nth by (apply Hidx; now left).
      destruct (Nat.eqb_spec (idx c) i) as [E|_]; [|reflexivity].
      exfalso. apply Hi. now left.
Qed.

(** The entry at a cell. *)
Definition entry_of (zs : tableau_tuple) (cell : nat * nat * nat) : Z :=
  nth (snd cell) (nth (snd (fst cell)) (nth (fst (fst cell)) zs []) []) 0%Z.

Lemma holds_entry_of (zs : tableau_tuple) (k r c : nat) (x : Z) :
  holds zs k r c x -> entry_of zs (k, r, c) = x.
Proof.
  intros (comp & row & Hk & Hr & Hc). unfold entry_of. cbn [fst snd].
  rewrite (nth_error_nth zs k [] Hk), (nth_error_nth comp r [] Hr).
  now apply nth_error_nth.
Qed.

(** The value [multicharge[k] - r + c] recorded for a cell. *)
Definition content_of (multicharge : list Z) (cell : nat * nat * nat) : Z :=
  (nth (fst (fst cell)) multicharge 0 - Z.of_nat (snd (fst cell))
   + Z.of_nat (snd cell))%Z.

Lemma record_residue_holds (zs : tableau_tuple) (mc : list Z) (res' : list Z)
      (k r c : nat) (x : Z) :
  holds zs k r c x -> k < length mc -> (1 <= x <= Z.of_nat (length res'))%Z ->
  record_residue (lift_tuple zs) mc res' (k, r, c)
  = Ok (set_nth res' (Z.to_nat (x - 1)) (content_of mc (k, r, c))).
Proof.
  intros (comp & row & Hk & Hr & Hc) Hmc Hx. unfold record_residue.
  rewrite (getitem_ok mc k (nth k mc 0%Z)) by (now apply nth_error_nth').
  cbn [bind].
  rewrite (getitem_ok (lift_tuple zs) k (lift_tableau comp))
    by (now apply map_nth_error).
  cbn [bind].
  rewrite (getitem_ok (lift_tableau comp) r (map PInt row))
    by (now apply map_nth_error).
  cbn [bind].
  rewrite (getitem_ok (map PInt row) c (PInt x)) by (now apply map_nth_error).
  cbn [bind minus_one]. unfold py_setitem, py_norm_index.
  destruct (Z.leb_spec 0 (x - 1)); [|lia].
  destruct (Z.ltb_spec (x - 1) (Z.of_nat (length res'))); [|lia].
  reflexivity.
Qed.

(** The residues recorded for the cells of a filled tableau tuple. *)
Lemma residue_sequence_loop (n : nat) (zs : tableau_tuple) (mc : list Z) :
  numbered n zs -> length zs <= length mc ->
  exists res',
    for_each (record_residue (lift_tuple zs) mc)
             (PartitionTuple_cells (shape_of_tuple (lift_tuple zs)))
             (repeat 0%Z (size (shape_of_tuple (lift_tuple zs))))
    = Ok res' /\
    length res' = n /\
    forall k r c x, holds zs k r c x ->
                    nth (Z.to_nat (x - 1)) res' 0%Z = content_of mc (k, r, c).
Proof.
  intros (Hsize & Hrange & Hunique & _) Hmc. rewrite shape_of_lift_tuple, Hsize.
  unfold PartitionTuple_cells.
  destruct (for_each_writes (record_residue (lift_tuple zs) mc)
              (fun cell => Z.to_nat (entry_of zs cell - 1)) (content_of mc) n
              (cells (shape_of_tuple zs)))
    with (res0 := repeat 0%Z n)
    as (res' & Hrun & Hlen & Hval & _).
  - intros [[k r] c] res0 Hin Hlen.
    destruct (cells_holds zs k r c Hin) as (x & Hx).
    rewrite (holds_entry_of zs k r c x Hx).
    apply record_residue_holds; [assumption| |].
    + destruct Hx as (comp & _ & Hk & _).
      assert (k < length zs) by (apply nth_error_Some; congruence). lia.
    + rewrite Hlen. eapply Hrange; eassumption.
  - intros [[k r] c] Hin.
    destruct (cells_holds zs k r c Hin) as (x & Hx).
    rewrite (holds_entry_of zs k r c x Hx).
    assert (H := Hrange k r c x Hx). lia.
  - apply NoDup_map_NoDup_ForallPairs; [|apply NoDup_cells].
    intros [[k r] c] [[k' r'] c'] Hin Hin' E.
    destruct (cells_holds zs k r c Hin) as (x & Hx).
    destruct (cells_holds zs k' r' c' Hin') as (x' & Hx').
    rewrite (holds_entry_of zs k r c x Hx),
            (holds_entry_of zs k' r' c' x' Hx') in E.
    assert (H := Hrange k r c x Hx).
    assert (H' := Hrange k' r' c' x' Hx').
    assert (x = x') by lia. subst x'.
    eapply Hunique; eassumption.
  - apply repeat_length.
  - exists res'. split; [assumption|]. split; [assumption|].
    intros k r c x Hx.
    rewrite <- (holds_entry_of zs k r c x Hx).
    apply (Hval (k, r, c)). eapply holds_cells. eassumption.
Qed.

(** The residues of a tableau tuple agree with [rl]. *)
Definition residues_match (e : Z) (mc : list Z) (zs : tableau_tuple) (rl : list Z)
  : Prop :=
  forall k r c x, holds zs k r c x ->
                  nth (Z.to_nat (x - 1)) rl 0%Z = base_ring e (content_of mc (k, r, c)).

Lemma residue_sequence_numbered (n : nat) (zs : tableau_tuple) (e : Z)
      (mc rl : list Z) :
  numbered n zs -> length zs <= length mc -> length rl = n ->
  residues_match e mc zs rl ->
  residue_sequence (lift_tuple zs) e mc = Ok (mkResidueSequence e mc rl).
Proof.
  intros Hn Hmc Hlen Hmatch. unfold residue_sequence.
  destruct (residue_sequence_loop n zs mc Hn Hmc) as (res' & Hrun & Hlen' & Hval).
  destruct Hn as (_ & _ & _ & Honto).
  rewrite Hrun. cbn [bind]. unfold ResidueSequence_new. do 2 f_equal.
  apply nth_error_eq_lists. intros i. rewrite nth_error_map.
  destruct (Nat.lt_ge_cases i n) as [Hi|Hi].
  - rewrite (nth_error_nth' res' 0%Z), (nth_error_nth' rl 0%Z) by lia.
    cbn [option_map]. f_equal.
    destruct (Honto (Z.of_nat (S i)) ltac:(lia)) as (k & r & c & Hx).
    specialize (Hval k r c _ Hx). specialize (Hmatch k r c _ Hx).
    replace (Z.to_nat (Z.of_nat (S i) - 1)) with i in * by lia.
    now rewrite Hval, Hmatch.
  - rewrite (proj2 (nth_error_None res' i)), (proj2 (nth_error_None rl i)) by lia.
    reflexivity.
Qed.

Lemma residue_sequence_filled (n : nat) (zs : tableau_tuple) (e : Z)
      (mc rl : list Z) :
  filled n zs -> length zs <= length mc -> length rl = n ->
  residues_match e mc zs rl ->
  residue_sequence (lift_tuple zs) e mc = Ok (mkResidueSequence e mc rl).
Proof.
  intros Hf. apply residue_sequence_numbered. now apply filled_numbered.
Qed.

(** * Adding a cell *)

(** ** Partitions, row by row *)

Lemma weakly_decreasing_spec (l : list nat) :
  weakly_decreasing l = true <->
  forall i, S i < length l -> nth (S i) l 0 <= nth i l 0.
Proof.
  induction l as [|a l IH]; [split; [intros _ i H; cbn in H; lia | reflexivity]|].
  destruct l as [|b l].
  - split; [intros _ i H; cbn in H; lia | reflexivity].
  - change (weakly_decreasing (a :: b :: l))
      with ((b <=? a) && weakly_decreasing (b :: l)).
    rewrite andb_true_iff, Nat.leb_le, IH. split.
    + intros [Hba Hrest] i Hi. destruct i as [|i]; [exact Hba|].
      apply (Hrest i). cbn [length] in *. lia.
    + intros H. split; [apply (H 0); cbn; lia|].
      intros i Hi. apply (H (S i)). cbn [length] in *. lia.
Qed.

Lemma is_partition_spec (l : list nat) :
  is_partition l = true <->
  (forall i, i < length l -> 0 < nth i l 0) /\
  (forall i, S i < length l -> nth (S i) l 0 <= nth i l 0).
Proof.
  unfold is_partition. rewrite andb_true_iff, weakly_decreasing_spec, forallb_forall.
  split; intros [Hpos Hwd]; (split; [|assumption]).
  - intros i Hi. apply Nat.ltb_lt. apply Hpos. now apply nth_In.
  - intros a Ha. apply Nat.ltb_lt. destruct (In_nth l a 0 Ha) as (i & Hi & <-).
    now apply Hpos.
Qed.

(** The shape with one more cell in row [r]. *)
Definition with_cell (nu : list nat) (r : nat) : list nat :=
  if r =? length nu then nu ++ [1] else set_nth nu r (S (nth r nu 0)).

Lemma length_with_cell (nu : list nat) (r : nat) :
  r <= length nu ->
  length (with_cell nu r) = if r =? length nu then S (length nu) else length nu.
Proof.
  intros Hr. unfold with_cell. destruct (Nat.eqb_spec r (length nu)).
  - rewrite length_app. cbn. lia.
  - apply length_set_nth.
Qed.

Lemma nth_with_cell (nu : list nat) (r i : nat) :
  r <= length nu ->
  nth i (with_cell nu r) 0 = if i =? r then S (nth r nu 0) else nth i nu 0.
Proof.
  intros Hr. unfold with_cell. destruct (Nat.eqb_spec r (length nu)) as [E|Hne].
  - destruct (Nat.eqb_spec i r) as [->|Hir].
    + rewrite app_nth2 by lia. rewrite E, Nat.sub_diag.
      rewrite (nth_overflow nu) by lia. reflexivity.
    + destruct (Nat.lt_ge_cases i (length nu)).
      * now rewrite app_nth1.
      * rewrite !nth_overflow; [reflexivity|lia|rewrite length_app; cbn; lia].
  - rewrite nth_set_nth by lia. rewrite (Nat.eqb_sym i r).
    reflexivity.
Qed.

(** ** Addable cells *)

Lemma addable_in_rows_spec (k r0 : nat) (above : option nat) (nu : list nat)
      (k' r' c' : nat) :
  In (k', r', c') (addable_in_rows k r0 above nu) ->
  k' = k /\ r0 <= r' <= r0 + length nu /\ c' = nth (r' - r0) nu 0 /\
  (r' = r0 -> forall a, above = Some a -> c' < a) /\
  (r0 < r' -> c' < nth (r' - r0 - 1) nu 0).
Proof.
  revert r0 above. induction nu as [|len rest IH]; intros r0 above H.
  - cbn [addable_in_rows] in H.
    assert (Hin : In (k', r', c') [(k, r0, 0)] /\ above <> Some 0).
    { destruct above as [[|a]|]; [contradiction| |]; (split; [assumption|discriminate]). }
    destruct Hin as [[[= <- <- <-]|[]] Hab]. rewrite Nat.sub_diag. cbn.
    repeat split; try lia. intros _ a Ha. destruct a; [congruence|lia].
  - cbn [addable_in_rows] in H. apply in_app_or in H. destruct H as [H|H].
    + assert (Hin : In (k', r', c') [(k, r0, len)] /\
                     forall a, above = Some a -> len < a).
      { destruct above as [a|].
        - destruct (Nat.ltb_spec len a); [|contradiction].
          split; [assumption|]. intros a' [= <-]. assumption.
        - split; [assumption|]. discriminate. }
      destruct Hin as [[[= <- <- <-]|[]] Hab]. rewrite Nat.sub_diag. cbn [nth length].
      repeat split; try lia. intros _. exact Hab.
    + apply IH in H. destruct H as (-> & Hr & Hc & Hfirst & Hlater).
      cbn [length]. split; [reflexivity|]. split; [lia|].
      replace (r' - r0) with (S (r' - S r0)) by lia. cbn [nth].
      split; [assumption|]. split; [lia|]. intros _.
      destruct (Nat.eq_dec r' (S r0)) as [E|Hne].
      * subst r'. replace (S (S r0 - S r0) - 1) with 0 by lia. cbn [nth].
        now apply Hfirst.
      * specialize (Hlater ltac:(lia)).
        replace (S (r' - S r0) - 1) with (S (r' - S r0 - 1)) by lia. exact Hlater.
Qed.

Lemma In_combine_seq {A : Type} (l : list A) (s i : nat) (x : A) :
  In (i, x) (combine (seq s (length l)) l) ->
  s <= i /\ nth_error l (i - s) = Some x.
Proof.
  revert s. induction l as [|a l IH]; intros s H; [contradiction|].
  cbn [length seq combine] in H. destruct H as [[= <- <-]|H].
  - rewrite Nat.sub_diag. split; [lia|reflexivity].
  - apply IH in H. destruct H as [Hs Hn]. split; [lia|].
    replace (i - s) with (S (i - S s)) by lia. exact Hn.
Qed.

Lemma addable_cells_spec (mu : shape) (k r c : nat) :
  In (k, r, c) (addable_cells mu) ->
  exists nu, nth_error mu k = Some nu /\ r <= length nu /\ c = nth r nu 0 /\
             (0 < r -> c < nth (r - 1) nu 0).
Proof.
  unfold addable_cells. intros H. apply in_concat in H.
  destruct H as (l & Hl & Hin). apply in_map_iff in Hl.
  destruct Hl as ([i nu] & <- & Hp). cbn [fst snd] in Hin.
  apply In_combine_seq in Hp. destruct Hp as [_ Hnu]. rewrite Nat.sub_0_r in Hnu.
  apply addable_in_rows_spec in Hin.
  destruct Hin as (-> & Hr & Hc & _ & Hlater). rewrite Nat.sub_0_r in *.
  exists nu. repeat split; try assumption; lia.
Qed.

(** An addable cell keeps the shape a partition. *)
Lemma with_cell_partition (nu : list nat) (r : nat) :
  is_partition nu = true -> r <= length nu ->
  (0 < r -> nth r nu 0 < nth (r - 1) nu 0) ->
  is_partition (with_cell nu r) = true.
Proof.
  intros Hp Hr Hprev. apply is_partition_spec in Hp. destruct Hp as [Hpos Hwd].
  apply is_partition_spec. rewrite length_with_cell by assumption. split.
  - intros i Hi. rewrite nth_with_cell by assumption.
    destruct (Nat.eqb_spec i r); [lia|]. apply Hpos.
    destruct (Nat.eqb_spec r (length nu)); lia.
  - intros i Hi. rewrite !nth_with_cell by assumption.
    destruct (Nat.eqb_spec (S i) r) as [E|Hne1]; destruct (Nat.eqb_spec i r) as [E'|Hne2];
      try lia.
    + specialize (Hprev ltac:(lia)). replace (r - 1) with i in Hprev by lia. lia.
    + subst i. destruct (Nat.lt_ge_cases (S r) (length nu)).
      * specialize (Hwd r ltac:(lia)). lia.
      * rewrite (nth_overflow nu) by lia. lia.
    + apply Hwd. destruct (Nat.eqb_spec r (length nu)); lia.
Qed.

(** ** The tableau tuple with one more entry *)

(** Row [r] of [comp] with the entry [m] at its end; a new row when [r] is
    the number of rows. *)
Definition comp_with_entry {A : Type} (comp : list (list A)) (r : nat) (m : A)
  : list (list A) :=
  if r =? length comp then comp ++ [[m]]
  else set_nth comp r (nth r comp [] ++ [m]).

Definition with_entry {A : Type} (T : list (list (list A))) (k r : nat) (m : A)
  : list (list (list A)) :=
  set_nth T k (comp_with_entry (nth k T []) r m).

Lemma add_entry_fast_addable {A : Type} (T : list (list (list A))) (k r c : nat) (m : A) :
  k < length T -> r <= length (nth k T []) ->
  c = length (nth r (nth k T []) []) ->
  _add_entry_fast T (k, r, c) m = Ok (with_entry T k r m).
Proof.
  intros Hk Hr Hc. unfold _add_entry_fast, set_entry, append_entry, with_entry,
                     comp_with_entry.
  rewrite (getitem_ok T k (nth k T [])) by (now apply nth_error_nth').
  cbn [bind]. set (comp := nth k T []) in *.
  destruct (Nat.eqb_spec r (length comp)) as [E|Hne].
  - unfold getitem at 1.
    rewrite (proj2 (nth_error_None comp r)) by lia. cbn [is_IndexErrorb bind].
    rewrite (getitem_ok (comp ++ [[]]) r [])
      by (rewrite nth_error_app2, E, Nat.sub_diag by lia; reflexivity).
    cbn [bind app]. do 2 f_equal.
    rewrite E. apply set_nth_middle.
  - assert (Hg : getitem comp r = Ok (nth r comp [])).
    { apply getitem_ok. apply nth_error_nth'. lia. }
    rewrite Hg. cbn [bind]. unfold setitem.
    destruct (Nat.ltb_spec c (length (nth r comp []))); [lia|].
    cbn [bind is_IndexErrorb]. reflexivity.
Qed.

Lemma map_set_nth {A B : Type} (f : A -> B) (l : list A) (i : nat) (a : A) :
  map f (set_nth l i a) = set_nth (map f l) i (f a).
Proof.
  revert i. induction l as [|x l IH]; intros i; [reflexivity|].
  destruct i; cbn; [reflexivity | now rewrite IH].
Qed.

Lemma lift_with_entry (zs : tableau_tuple) (k r : nat) (m : Z) :
  lift_tuple (with_entry zs k r m) = with_entry (lift_tuple zs) k r (PInt m).
Proof.
  unfold with_entry, lift_tuple. rewrite map_set_nth. f_equal.
  change [] with (lift_tableau []) at 2. rewrite map_nth.
  unfold comp_with_entry, lift_tableau. rewrite length_map.
  unfold tableau_tuple, tableau in *. generalize (nth k zs []). intros comp.
  destruct (r =? length comp).
  - now rewrite map_app.
  - rewrite map_set_nth, map_app. do 2 f_equal.
    change [] with (map PInt []) at 2. now rewrite map_nth.
Qed.

Lemma set_nth_split {A : Type} (l : list A) (i : nat) (a b : A) :
  nth_error l i = Some a -> set_nth l i b = firstn i l ++ b :: skipn (S i) l.
Proof.
  revert i. induction l as [|x l IH]; intros [|i] H; try discriminate; cbn in *.
  - reflexivity.
  - f_equal. now apply IH.
Qed.

Lemma shape_of_with_entry {A : Type} (T : list (list (list A))) (k r : nat) (m : A) :
  k < length T -> r <= length (nth k T []) ->
  shape_of_tuple (with_entry T k r m)
  = set_nth (shape_of_tuple T) k (with_cell (nth k (shape_of_tuple T) []) r).
Proof.
  intros Hk Hr. unfold with_entry, shape_of_tuple. rewrite map_set_nth. f_equal.
  change [] with (shape_of_tableau (@nil (list A))) at 2. rewrite map_nth.
  set (comp := nth k T []) in *.
  unfold comp_with_entry, with_cell, shape_of_tableau. rewrite length_map.
  destruct (Nat.eqb_spec r (length comp)).
  - now rewrite map_app.
  - rewrite map_set_nth. f_equal. rewrite length_app. cbn [length].
    change 0 with (length (@nil A)) at 2. rewrite map_nth. lia.
Qed.

(** The cells of the new tableau tuple and their entries. *)
Lemma holds_with_entry (zs : tableau_tuple) (k r : nat) (m : Z)
      (k' r' c' : nat) (x : Z) :
  k < length zs -> r <= length (nth k zs []) ->
  holds (with_entry zs k r m) k' r' c' x <->
  holds zs k' r' c' x \/
  ((k', r', c') = (k, r, length (nth r (nth k zs []) [])) /\ x = m).
Proof.
  intros Hk Hr. unfold holds, with_entry.
  set (comp := nth k zs []) in *.
  assert (Hcomp : nth_error zs k = Some comp) by (now apply nth_error_nth').
  set (row := nth r comp []).
  assert (Hnew : forall r'' row'',
             nth_error (comp_with_entry comp r m) r'' = Some row'' <->
             (r'' <> r /\ nth_error comp r'' = Some row'') \/
             (r'' = r /\ row'' = row ++ [m])).
  { intros r'' row''. unfold comp_with_entry.
    destruct (Nat.eqb_spec r (length comp)) as [E|Hne].
    - assert (Hrow : row = []) by (unfold row; apply nth_overflow; lia).
      rewrite Hrow. cbn [app].
      destruct (Nat.lt_ge_cases r'' (length comp)) as [Hlt|Hge].
      + rewrite nth_error_app1 by assumption. split.
        * intros H. left. split; [lia|assumption].
        * intros [[_ H]|[-> _]]; [assumption|lia].
      + rewrite nth_error_app2 by assumption. split.
        * intros H. right. destruct (r'' - length comp) as [|d] eqn:Ed.
          -- cbn in H. injection H as <-. split; [lia|reflexivity].
          -- cbn in H. destruct d; discriminate.
        * intros [[_ H]|[-> ->]].
          -- exfalso. assert (r'' < length comp) by (apply nth_error_Some; congruence).
             lia.
          -- rewrite E, Nat.sub_diag. reflexivity.
    - rewrite nth_error_set_nth by lia.
      destruct (Nat.eqb_spec r r'') as [<-|Hne']. split.
      + intros [= <-]. right. now split.
      + intros [[H _]|[_ ->]]; [contradiction|reflexivity].
      + split; [intros H; left; split; [congruence|assumption]|].
        intros [[_ H]|[-> _]]; [assumption|contradiction]. }
  split.
  - intros (comp' & row' & Hk' & Hr' & Hc').
    rewrite nth_error_set_nth in Hk' by assumption.
    destruct (Nat.eqb_spec k k') as [<-|Hne].
    + injection Hk' as <-. apply Hnew in Hr'.
      destruct Hr' as [[Hne Hr']|[-> ->]].
      * left. exists comp, row'. now repeat split.
      * destruct (Nat.lt_ge_cases c' (length row)) as [Hlt|Hge].
        -- rewrite nth_error_app1 in Hc' by assumption. left.
           exists comp, row. repeat split; try assumption.
           unfold row. apply nth_error_nth'.
           destruct (Nat.lt_ge_cases r (length comp)); [assumption|].
           unfold row in Hlt. rewrite nth_overflow in Hlt by assumption.
           cbn in Hlt. lia.
        -- rewrite nth_error_app2 in Hc' by assumption. right.
           destruct (c' - length row) as [|d] eqn:Ed.
           ++ cbn in Hc'. injection Hc' as <-.
              split; [|reflexivity]. do 2 f_equal. lia.
           ++ cbn in Hc'. destruct d; discriminate.
    + left. exists comp', row'. now repeat split.
  - intros [(comp' & row' & Hk' & Hr' & Hc')|[[= -> -> ->] ->]].
    + destruct (Nat.eq_dec k' k) as [->|Hne].
      * assert (comp' = comp) by congruence. subst comp'.
        exists (comp_with_entry comp r m).
        rewrite nth_error_set_nth_same by assumption.
        destruct (Nat.eq_dec r' r) as [->|Hner].
        -- exists (row ++ [m]). split; [reflexivity|]. split.
           ++ apply Hnew. right. now split.
           ++ assert (row' = row).
              { unfold row. symmetry. now apply nth_error_nth. }
              subst row'. rewrite nth_error_app1; [assumption|].
              apply nth_error_Some. congruence.
        -- exists row'. split; [reflexivity|]. split; [|assumption].
           apply Hnew. left. now split.
      * exists comp', row'. rewrite nth_error_set_nth_other by congruence.
        now repeat split.
    + exists (comp_with_entry comp r m), (row ++ [m]).
      rewrite nth_error_set_nth_same by assumption.
      split; [reflexivity|]. split.
      * apply Hnew. right. now split.
      * rewrite nth_error_app2 by lia. now rewrite Nat.sub_diag.
Qed.

Lemma concat_nth_split {A : Type} (l : list (list A)) (i : nat) (a : list A) :
  nth_error l i = Some a ->
  concat l = concat (firstn i l) ++ a ++ concat (skipn (S i) l).
Proof.
  revert i. induction l as [|x l IH]; intros [|i] H; try discriminate; cbn in *.
  - now injection H as ->.
  - rewrite (IH i H). now rewrite app_assoc.
Qed.

Lemma concat_set_nth {A : Type} (l : list (list A)) (i : nat) (a b : list A) :
  nth_error l i = Some a ->
  concat (set_nth l i b) = concat (firstn i l) ++ b ++ concat (skipn (S i) l).
Proof.
  revert i. induction l as [|x l IH]; intros [|i] H; try discriminate; cbn in *.
  - reflexivity.
  - rewrite (IH i H). now rewrite app_assoc.
Qed.

Lemma entries_with_entry (zs : tableau_tuple) (k r : nat) (m : Z) :
  k < length zs -> r <= length (nth k zs []) ->
  Permutation (entries (with_entry zs k r m)) (entries zs ++ [m]).
Proof.
  intros Hk Hr. unfold with_entry.
  set (comp := nth k zs []) in *.
  assert (Hcomp : nth_error zs k = Some comp) by (now apply nth_error_nth').
  assert (Hc : Permutation (concat (comp_with_entry comp r m)) (concat comp ++ [m])).
  { unfold comp_with_entry.
    destruct (Nat.eqb_spec r (length comp)) as [E|Hne].
    - rewrite concat_app. cbn. apply Permutation_refl.
    - assert (Hrow : nth_error comp r = Some (nth r comp []))
        by (apply nth_error_nth'; lia).
      rewrite (concat_set_nth comp r _ _ Hrow), (concat_nth_split comp r _ Hrow).
      rewrite <- !app_assoc.
      apply Permutation_app_head. apply Permutation_app_head.
      apply Permutation_cons_append. }
  assert (Hk' : nth_error (map (@entries_of_tableau Z) zs) k
                = Some (entries_of_tableau comp)) by (now apply map_nth_error).
  unfold entries. rewrite map_set_nth.
  rewrite (concat_set_nth _ k _ _ Hk'), (concat_nth_split _ k _ Hk').
  rewrite <- !app_assoc. apply Permutation_app_head.
  unfold entries_of_tableau.
  eapply Permutation_trans; [apply Permutation_app_tail; exact Hc|].
  rewrite <- !app_assoc. apply Permutation_app_head. cbn [app].
  apply Permutation_cons_append.
Qed.

(** * [StandardTableaux_residue] yields tableaux with the residue sequence *)

Lemma valid_shape {A : Type} (T : list (list (list A))) :
  forallb (@valid_tableau A) T = is_partition_tuple (shape_of_tuple T).
Proof.
  unfold is_partition_tuple, shape_of_tuple.
  induction T as [|comp T IH]; [reflexivity|]. cbn. now rewrite IH.
Qed.

Lemma forallb_set_nth {A : Type} (f : A -> bool) (l : list A) (i : nat) (a : A) :
  forallb f l = true -> f a = true -> forallb f (set_nth l i a) = true.
Proof.
  revert i. induction l as [|x l IH]; intros i Hl Ha; [reflexivity|].
  cbn in Hl. apply andb_true_iff in Hl. destruct Hl as [Hx Hl].
  destruct i; cbn; [now rewrite Ha, Hl | now rewrite Hx, IH].
Qed.

Lemma range1_S (n : nat) : range1 (S n) = range1 n ++ [Z.of_nat (S n)].
Proof. unfold range1. now rewrite seq_S, map_app. Qed.

Lemma addable_position (zs : tableau_tuple) (k r c : nat) :
  In (k, r, c) (addable_cells (shape_of_tuple zs)) ->
  k < length zs /\ r <= length (nth k zs []) /\
  c = length (nth r (nth k zs []) []) /\
  (0 < r -> c < length (nth (r - 1) (nth k zs []) [])).
Proof.
  intros H. apply addable_cells_spec in H.
  destruct H as (nu & Hnu & Hr & Hc & Hprev).
  unfold shape_of_tuple in Hnu. rewrite nth_error_map in Hnu.
  unfold tableau_tuple, tableau in *.
  destruct (nth_error zs k) as [comp|] eqn:Ek; cbn in Hnu; [|discriminate].
  injection Hnu as <-. rewrite (nth_error_nth zs k [] Ek).
  unfold shape_of_tableau in *. rewrite length_map in Hr.
  change 0 with (length (@nil Z)) in Hc, Hprev. rewrite map_nth in Hc.
  split; [apply nth_error_Some; congruence|]. split; [assumption|].
  split; [assumption|]. intros H0. specialize (Hprev H0).
  now rewrite map_nth in Hprev.
Qed.

(** A filled tableau tuple with the next entry in an addable cell. *)
Lemma with_entry_filled (n : nat) (zs : tableau_tuple) (k r c : nat) :
  filled n zs -> In (k, r, c) (addable_cells (shape_of_tuple zs)) ->
  filled (S n) (with_entry zs k r (Z.of_nat (S n))).
Proof.
  intros [Hvalid Hperm] Hadd.
  destruct (addable_position zs k r c Hadd) as (Hk & Hr & Hc & Hprev).
  split.
  - rewrite valid_shape in *. rewrite shape_of_with_entry by assumption.
    unfold is_partition_tuple in *. apply forallb_set_nth; [assumption|].
    assert (Hnu : nth k (shape_of_tuple zs) [] = map (@length Z) (nth k zs [])).
    { unfold shape_of_tuple. change [] with (shape_of_tableau (@nil (list Z))) at 1.
      now rewrite map_nth. }
    rewrite Hnu. apply with_cell_partition.
    + rewrite <- Hnu. rewrite forallb_forall in Hvalid. apply Hvalid.
      apply nth_In. unfold shape_of_tuple. now rewrite length_map.
    + now rewrite length_map.
    + intros H0. change 0 with (length (@nil Z)). rewrite !map_nth.
      rewrite <- Hc. now apply Hprev.
  - eapply Permutation_trans; [now apply entries_with_entry|].
    rewrite range1_S. now apply Permutation_app_tail.
Qed.

Lemma set_entry_addable {A : Type} (T : list (list (list A))) (k r c : nat) (m : A) :
  k < length T -> r <= length (nth k T []) ->
  c = length (nth r (nth k T []) []) ->
  exists msg, set_entry T k r c m = Raise (IndexError msg).
Proof.
  intros Hk Hr Hc. unfold set_entry.
  rewrite (getitem_ok T k (nth k T [])) by (now apply nth_error_nth').
  cbn [bind]. set (comp := nth k T []) in *.
  destruct (Nat.eq_dec r (length comp)) as [E|Hne].
  - unfold getitem. rewrite (proj2 (nth_error_None comp r)) by lia.
    cbn [bind]. eexists. reflexivity.
  - assert (Hg : getitem comp r = Ok (nth r comp [])).
    { apply getitem_ok. apply nth_error_nth'. lia. }
    rewrite Hg. cbn [bind]. unfold setitem.
    destruct (Nat.ltb_spec c (length (nth r comp []))); [lia|].
    cbn [bind]. eexists. reflexivity.
Qed.

Lemma append_entry_addable {A : Type} (T : list (list (list A))) (k r : nat) (m : A) :
  k < length T -> r <= length (nth k T []) ->
  append_entry T k r m = Ok (with_entry T k r m).
Proof.
  intros Hk Hr.
  assert (H := add_entry_fast_addable T k r _ m Hk Hr eq_refl).
  destruct (set_entry_addable T k r _ m Hk Hr eq_refl) as [msg Hraise].
  unfold _add_entry_fast in H. rewrite Hraise in H. exact H.
Qed.

Lemma nth_lift_tuple (zs : tableau_tuple) (k : nat) :
  nth k (lift_tuple zs) [] = lift_tableau (nth k zs []).
Proof. exact (map_nth lift_tableau zs [] k). Qed.

Lemma nth_lift_tableau (rows : tableau) (r : nat) :
  nth r (lift_tableau rows) [] = map PInt (nth r rows []).
Proof. exact (map_nth (map PInt) rows [] r). Qed.

Lemma add_cell_filled (n : nat) (zs : tableau_tuple) (k r c : nat) :
  filled n zs -> In (k, r, c) (addable_cells (shape_of_tuple zs)) ->
  add_cell (lift_tuple zs) (k, r, c) (S n)
  = Ok (lift_tuple (with_entry zs k r (Z.of_nat (S n)))).
Proof.
  intros Hf Hadd.
  destruct (addable_position zs k r c Hadd) as (Hk & Hr & Hc & _).
  unfold add_cell.
  rewrite (add_entry_fast_addable (lift_tuple zs) k r c).
  - cbn [bind]. rewrite <- lift_with_entry.
    apply element_class_unchecked_valid.
    destruct (with_entry_filled n zs k r c Hf Hadd) as [Hvalid _].
    rewrite valid_shape, shape_of_lift_tuple. rewrite valid_shape in Hvalid.
    exact Hvalid.
  - unfold lift_tuple. now rewrite length_map.
  - rewrite nth_lift_tuple. unfold lift_tableau. now rewrite length_map.
  - rewrite nth_lift_tuple, nth_lift_tableau. now rewrite length_map.
Qed.

Lemma residues_match_with_entry (n : nat) (zs : tableau_tuple) (e : Z)
      (mc rl : list Z) (k r : nat) :
  filled n zs -> k < length zs -> r <= length (nth k zs []) ->
  residues_match e mc zs (firstn n rl) ->
  nth n rl 0%Z
  = base_ring e (content_of mc (k, r, length (nth r (nth k zs []) []))) ->
  residues_match e mc (with_entry zs k r (Z.of_nat (S n))) rl.
Proof.
  intros Hf Hk Hr Hold Hnew k' r' c' x H.
  apply holds_with_entry in H; [|assumption|assumption].
  destruct H as [H|[[= -> -> ->] ->]].
  - assert (Hx := filled_range n zs k' r' c' x Hf H).
    rewrite <- (Hold k' r' c' x H). rewrite nth_firstn.
    destruct (Nat.ltb_spec (Z.to_nat (x - 1)) n); [reflexivity|lia].
  - replace (Z.to_nat (Z.of_nat (S n) - 1)) with n by lia. exact Hnew.
Qed.

Lemma right_residue_true (e : Z) (mc rl : list Z) (n k r c : nat) :
  right_residue (mkResidueSequence e mc rl) (S n) (k, r, c) = Ok true ->
  nth n rl 0%Z = base_ring e (content_of mc (k, r, c)).
Proof.
  unfold right_residue, rs_getitem, cell_residue, getitem.
  cbn [residues multicharge quantum_characteristic].
  destruct (nth_error rl n) as [rn|] eqn:En; [|discriminate]. cbn [bind].
  destruct (nth_error mc k) as [mk|] eqn:Ek; [|discriminate]. cbn [bind].
  intros [= H]. apply Z.eqb_eq in H.
  rewrite (nth_error_nth rl n 0%Z En). unfold content_of. cbn [fst snd].
  now rewrite (nth_error_nth mc k 0%Z Ek).
Qed.

Lemma holds_empty (level k r c : nat) (x : Z) : ~ holds (repeat [] level) k r c x.
Proof.
  intros (comp & row & Hk & Hr & _).
  apply nth_error_In, repeat_spec in Hk. subst comp. destruct r; discriminate.
Qed.

Lemma filled_empty (level : nat) : filled 0 (repeat [] level).
Proof.
  split.
  - apply forallb_forall. intros comp H. apply repeat_spec in H. now subst.
  - assert (E : entries (repeat [] level) = []).
    { unfold entries. induction level as [|l IH]; [reflexivity|]. cbn. exact IH. }
    rewrite E. apply perm_nil.
Qed.

Lemma lift_tuple_empty (level : nat) :
  lift_tuple (repeat [] level) = repeat [] level.
Proof.
  unfold lift_tuple. induction level as [|l IH]; [reflexivity|]. cbn. now rewrite IH.
Qed.

(** What [StandardTableaux_residue] yields with more than one component, or
    none. *)
Definition good_tuple (e : Z) (mc rl : list Z) (t : list (list (list pyobj)))
  : Prop :=
  exists zs, t = lift_tuple zs /\ filled (length rl) zs /\
             length zs = length mc /\ residues_match e mc zs rl.

Lemma StandardTableaux_residue_higher_yields (e : Z) (mc : list Z) (n : nat) :
  forall rl, length rl = n ->
    Forall (good_tuple e mc rl)
           (fst (StandardTableaux_residue_higher
                   (length mc) n (mkResidueSequence e mc rl))).
Proof.
  induction n as [|n IH]; intros rl Hlen.
  - cbn [StandardTableaux_residue_higher]. apply gen_yield_yields.
    exists (repeat [] (length mc)). rewrite lift_tuple_empty, Hlen.
    split; [reflexivity|]. split; [apply filled_empty|].
    split; [apply repeat_length|]. intros k r c x H.
    now apply holds_empty in H.
  - cbn [StandardTableaux_residue_higher].
    apply (gen_bind_yields (good_tuple e mc (firstn n rl))).
    + apply (IH (firstn n rl)). rewrite length_firstn. lia.
    + intros t (zs & -> & Hf & Hlz & Hmatch).
      rewrite length_firstn, Nat.min_l in Hf by lia.
      rewrite shape_of_lift_tuple. apply gen_for_yields. intros [[k r] c] Hadd.
      apply gen_lift_yields. intros [|] Hright; [|constructor].
      rewrite (add_cell_filled n zs k r c Hf Hadd). cbn [gen_lift].
      apply gen_yield_yields.
      destruct (addable_position zs k r c Hadd) as (Hk & Hr & Hc & _).
      exists (with_entry zs k r (Z.of_nat (S n))).
      split; [reflexivity|]. rewrite Hlen.
      split; [eapply with_entry_filled; eassumption|].
      split; [unfold with_entry; now rewrite length_set_nth|].
      apply (residues_match_with_entry n); try assumption.
      rewrite <- Hc. now apply right_residue_true.
Qed.

Lemma good_tuple_residue_sequence (e : Z) (mc rl : list Z)
      (t : list (list (list pyobj))) :
  good_tuple e mc rl t ->
  residue_sequence t e mc = Ok (mkResidueSequence e mc rl).
Proof.
  intros (zs & -> & Hf & Hlz & Hmatch).
  apply (residue_sequence_filled (length rl)); try assumption; try reflexivity. lia.
Qed.

(** ** One component *)

Lemma Partition_addable_tuple (zs_rows : tableau) (r c : nat) :
  In (r, c) (Partition_addable_cells (shape_of_tableau zs_rows)) ->
  In (0, r, c) (addable_cells (shape_of_tuple [zs_rows])).
Proof.
  unfold Partition_addable_cells, addable_cells. intros H.
  apply in_map_iff in H. destruct H as ([[k' r'] c'] & [= <- <-] & Hin).
  cbn [shape_of_tuple map length seq combine concat fst snd]. rewrite app_nil_r.
  destruct (addable_in_rows_spec _ _ _ _ _ _ _ Hin) as (-> & _). exact Hin.
Qed.

Lemma lift_tuple_singleton (t : list (list pyobj)) (zs : tableau_tuple) :
  [t] = lift_tuple zs -> exists rows, zs = [rows] /\ t = lift_tableau rows.
Proof.
  destruct zs as [|rows [|? ?]]; try discriminate. intros [= ->]. now exists rows.
Qed.

Lemma Tableau_add_entry_addable (rows : tableau) (r c : nat) (m : Z) :
  In (r, c) (Partition_addable_cells (shape_of_tableau rows)) ->
  exists rows',
    Tableau_add_entry (lift_tableau rows) (r, c) (PInt m) = Ok (lift_tableau rows') /\
    [rows'] = with_entry [rows] 0 r m.
Proof.
  intros Hadd.
  assert (Hadd' := Partition_addable_tuple rows r c Hadd).
  destruct (addable_position [rows] 0 r c Hadd') as (Hk & Hr & Hc & _).
  cbn [nth] in Hr, Hc.
  exists (comp_with_entry rows r m). split; [|reflexivity].
  unfold Tableau_add_entry.
  destruct (set_entry_addable [lift_tableau rows] 0 r c (PInt m)) as [msg Hraise].
  - cbn. lia.
  - cbn [nth]. unfold lift_tableau. now rewrite length_map.
  - cbn [nth]. rewrite nth_lift_tableau. now rewrite length_map.
  - rewrite Hraise. cbn [is_IndexErrorb].
    assert (Hex : existsb (fun a => (fst a =? r) && (snd a =? c))
                          (Partition_addable_cells
                             (shape_of_tableau (lift_tableau rows))) = true).
    { rewrite shape_of_lift_tableau. apply existsb_exists. exists (r, c).
      split; [assumption|]. cbn. now rewrite !Nat.eqb_refl. }
    rewrite Hex. rewrite append_entry_addable.
    + cbn [bind]. f_equal.
      assert (E := lift_with_entry [rows] 0 r m).
      unfold with_entry in *. cbn [nth set_nth lift_tuple map] in *.
      congruence.
    + cbn. lia.
    + cbn [nth]. unfold lift_tableau. now rewrite length_map.
Qed.

Lemma StandardTableaux_residue_level_one_yields (e : Z) (mc : list Z) (n : nat) :
  length mc = 1 ->
  forall rl, length rl = n ->
    Forall (fun t => good_tuple e mc rl [t])
           (fst (StandardTableaux_residue_level_one n (mkResidueSequence e mc rl))).
Proof.
  intros Hmc. induction n as [|n IH]; intros rl Hlen.
  - cbn [StandardTableaux_residue_level_one]. apply gen_yield_yields.
    exists (repeat [] 1). rewrite Hlen.
    split; [reflexivity|]. split; [apply (filled_empty 1)|].
    split; [now rewrite Hmc|]. intros k r c x H.
    now apply (holds_empty 1) in H.
  - cbn [StandardTableaux_residue_level_one].
    apply (gen_bind_yields (fun t => good_tuple e mc (firstn n rl) [t])).
    + apply (IH (firstn n rl)). rewrite length_firstn. lia.
    + intros t (zs & Ht & Hf & Hlz & Hmatch).
      rewrite length_firstn, Nat.min_l in Hf by lia.
      destruct (lift_tuple_singleton t zs Ht) as (rows & -> & ->).
      rewrite shape_of_lift_tableau. apply gen_for_yields. intros [r c] Hadd.
      apply gen_lift_yields. intros [|] Hright; [|constructor].
      destruct (Tableau_add_entry_addable rows r c (Z.of_nat (S n)) Hadd)
        as (rows' & Hrun & Hrows').
      rewrite Hrun. cbn [gen_lift]. apply gen_yield_yields.
      assert (Hadd' := Partition_addable_tuple rows r c Hadd).
      destruct (addable_position [rows] 0 r c Hadd') as (Hk & Hr & Hc & _).
      exists [rows']. split; [reflexivity|]. rewrite Hlen, Hrows'.
      split; [eapply with_entry_filled; eassumption|].
      split; [unfold with_entry; now rewrite length_set_nth|].
      apply (residues_match_with_entry n); try assumption.
      rewrite <- Hc. apply right_residue_true. exact Hright.
Qed.

(** Every tableau that [StandardTableaux_residue] yields has the residue
    sequence of the enumerator. *)
Lemma StandardTableaux_residue_yields (residue : ResidueSequence) :
  Forall (fun x => residue_sequence_of x (quantum_characteristic residue)
                                       (multicharge residue) = Ok residue)
         (fst (StandardTableaux_residue_iter residue)).
Proof.
  destruct residue as [e mc rl]. unfold StandardTableaux_residue_iter, rs_level, rs_size.
  cbn [quantum_characteristic multicharge residues].
  destruct (Nat.eqb_spec (length mc) 1) as [Hmc|Hmc].
  - eapply gen_map_yields;
      [apply (StandardTableaux_residue_level_one_yields e mc _ Hmc rl eq_refl)|].
    intros t Hgood. cbn [residue_sequence_of]. unfold Tableau_residue_sequence.
    now apply good_tuple_residue_sequence.
  - eapply gen_map_yields;
      [apply (StandardTableaux_residue_higher_yields e mc _ rl eq_refl)|].
    intros t Hgood. cbn [residue_sequence_of].
    now apply good_tuple_residue_sequence.
Qed.

(** * [StandardTableaux_residue_shape] yields tableaux of the shape *)

(** ** Removable cells *)

Lemma removable_in_rows_spec (k r0 : nat) (nu : list nat) (k' r' c' : nat) :
  In (k', r', c') (removable_in_rows k r0 nu) ->
  k' = k /\ r0 <= r' < r0 + length nu /\
  nth (r' - r0) nu 0 = S c' /\ nth (S (r' - r0)) nu 0 <= c'.
Proof.
  revert r0. induction nu as [|len rest IH]; intros r0 H; [contradiction|].
  cbn [removable_in_rows] in H. apply in_app_or in H. destruct H as [H|H].
  - destruct (Nat.ltb_spec (hd 0 rest) len) as [Hlt|]; [|contradiction].
    destruct H as [[= <- <- <-]|[]]. rewrite Nat.sub_diag. cbn [nth length].
    assert (Hhd : hd 0 rest = nth 0 rest 0) by (destruct rest; reflexivity).
    repeat split; try lia.
  - apply IH in H. destruct H as (-> & Hr & Hc & Hnext). cbn [length].
    split; [reflexivity|]. split; [lia|].
    replace (r' - r0) with (S (r' - S r0)) by lia. cbn [nth]. now split.
Qed.

Lemma removable_cells_spec (mu : shape) (k r c : nat) :
  In (k, r, c) (removable_cells mu) ->
  exists nu, nth_error mu k = Some nu /\ r < length nu /\
             nth r nu 0 = S c /\ nth (S r) nu 0 <= c.
Proof.
  unfold removable_cells. intros H. apply in_concat in H.
  destruct H as (l & Hl & Hin). apply in_map_iff in Hl.
  destruct Hl as ([i nu] & <- & Hp). cbn [fst snd] in Hin.
  apply In_combine_seq in Hp. destruct Hp as [_ Hnu]. rewrite Nat.sub_0_r in Hnu.
  apply removable_in_rows_spec in Hin.
  destruct Hin as (-> & Hr & Hc & Hnext). rewrite Nat.sub_0_r in *.
  exists nu. repeat split; try assumption; lia.
Qed.

(** The partition without the last cell of row [r]. *)
Definition without_cell (nu : list nat) (r c : nat) : list nat :=
  filter (fun len => 0 <? len) (set_nth nu r c).

Lemma filter_positive (l : list nat) :
  (forall i, i < length l -> 0 < nth i l 0) -> filter (fun len => 0 <? len) l = l.
Proof.
  intros H. apply forallb_filter_id. apply forallb_forall. intros a Ha.
  destruct (In_nth l a 0 Ha) as (i & Hi & <-). apply Nat.ltb_lt. now apply H.
Qed.

Lemma without_cell_eq (nu : list nat) (r c : nat) :
  is_partition nu = true -> r < length nu -> nth r nu 0 = S c ->
  nth (S r) nu 0 <= c ->
  without_cell nu r c = if c =? 0 then firstn r nu else set_nth nu r c.
Proof.
  intros Hp Hr Hc Hnext. apply is_partition_spec in Hp. destruct Hp as [Hpos Hwd].
  unfold without_cell. destruct (Nat.eqb_spec c 0) as [->|Hc0].
  - assert (Hlast : S r = length nu).
    { destruct (Nat.lt_ge_cases (S r) (length nu)) as [H|H]; [|lia].
      specialize (Hpos (S r) H). lia. }
    assert (Hnth : nth_error nu r = Some (nth r nu 0)) by (now apply nth_error_nth').
    rewrite (set_nth_split nu r _ 0 Hnth).
    rewrite (skipn_all2 nu) by lia. rewrite filter_app. cbn [filter Nat.ltb Nat.leb].
    rewrite app_nil_r. apply filter_positive. intros i Hi.
    rewrite length_firstn in Hi. rewrite nth_firstn.
    destruct (Nat.ltb_spec i r); [|lia]. apply Hpos. lia.
  - apply filter_positive. rewrite length_set_nth. intros i Hi.
    rewrite nth_set_nth by assumption.
    destruct (Nat.eqb_spec r i); [lia|]. now apply Hpos.
Qed.

Lemma without_cell_partition (nu : list nat) (r c : nat) :
  is_partition nu = true -> r < length nu -> nth r nu 0 = S c ->
  nth (S r) nu 0 <= c ->
  is_partition (without_cell nu r c) = true.
Proof.
  intros Hp Hr Hc Hnext. rewrite without_cell_eq by assumption.
  apply is_partition_spec in Hp. destruct Hp as [Hpos Hwd].
  apply is_partition_spec. destruct (Nat.eqb_spec c 0) as [->|Hc0].
  - rewrite length_firstn. split; intros i Hi; rewrite !nth_firstn.
    + destruct (Nat.ltb_spec i r); [|lia]. apply Hpos. lia.
    + destruct (Nat.ltb_spec i r), (Nat.ltb_spec (S i) r); try lia. apply Hwd. lia.
  - rewrite length_set_nth. split; intros i Hi; rewrite !nth_set_nth by assumption.
    + destruct (Nat.eqb_spec r i); [lia|]. now apply Hpos.
    + specialize (Hwd i Hi).
      destruct (Nat.eqb_spec r (S i)), (Nat.eqb_spec r i); try lia; subst; lia.
Qed.

(** Putting the cell back. *)
Lemma with_without_cell (nu : list nat) (r c : nat) :
  is_partition nu = true -> r < length nu -> nth r nu 0 = S c ->
  nth (S r) nu 0 <= c ->
  with_cell (without_cell nu r c) r = nu.
Proof.
  intros Hp Hr Hc Hnext. rewrite without_cell_eq by assumption.
  pose proof Hp as Hp'. apply is_partition_spec in Hp'. destruct Hp' as [Hpos Hwd].
  apply nth_error_eq_lists. intros i.
  assert (Hle : r <= length (if c =? 0 then firstn r nu else set_nth nu r c)).
  { destruct (c =? 0); [rewrite length_firstn | rewrite length_set_nth]; lia. }
  assert (Hlen : length (with_cell (if c =? 0 then firstn r nu else set_nth nu r c) r)
                 = length nu).
  { rewrite length_with_cell by assumption.
    destruct (Nat.eqb_spec c 0) as [->|Hc0].
    - rewrite length_firstn, Nat.min_l by lia. rewrite Nat.eqb_refl.
      destruct (Nat.lt_ge_cases (S r) (length nu)) as [H|H]; [|lia].
      specialize (Hpos (S r) H). lia.
    - rewrite length_set_nth. destruct (Nat.eqb_spec r (length nu)); lia. }
  destruct (Nat.lt_ge_cases i (length nu)) as [Hi|Hi].
  - rewrite (nth_error_nth' _ 0), (nth_error_nth' nu 0) by lia. f_equal.
    rewrite nth_with_cell by assumption.
    destruct (Nat.eqb_spec i r) as [->|Hir].
    + destruct (Nat.eqb_spec c 0) as [->|Hc0].
      * rewrite nth_firstn. destruct (Nat.ltb_spec r r); [lia|]. lia.
      * rewrite nth_set_nth by assumption. rewrite Nat.eqb_refl. lia.
    + destruct (Nat.eqb_spec c 0) as [->|Hc0].
      * rewrite nth_firstn. destruct (Nat.ltb_spec i r); [reflexivity|].
        destruct (Nat.lt_ge_cases (S r) (length nu)) as [Hlt|Hge]; [|lia].
        specialize (Hpos (S r) Hlt). lia.
      * rewrite nth_set_nth by assumption.
        destruct (Nat.eqb_spec r i); [lia|reflexivity].
  - rewrite (proj2 (nth_error_None _ i)), (proj2 (nth_error_None nu i)) by lia.
    reflexivity.
Qed.

(** ** The removed cell is addable *)

Lemma addable_in_rows_complete (k r0 : nat) (above : option nat) (nu : list nat)
      (r c : nat) :
  r <= length nu -> c = nth r nu 0 ->
  (r = 0 -> forall a, above = Some a -> c < a) ->
  (0 < r -> c < nth (r - 1) nu 0) ->
  In (k, r0 + r, c) (addable_in_rows k r0 above nu).
Proof.
  revert r0 above r. induction nu as [|len rest IH]; intros r0 above r Hr Hc H0 Hprev.
  - cbn in Hr. assert (r = 0) by lia. subst r. cbn in Hc. subst c.
    rewrite Nat.add_0_r. cbn [addable_in_rows].
    destruct above as [[|a]|]; try (now left).
    specialize (H0 eq_refl 0 eq_refl). lia.
  - cbn [addable_in_rows]. apply in_or_app. destruct r as [|r].
    + left. cbn in Hc. subst c. rewrite Nat.add_0_r. destruct above as [a|].
      * specialize (H0 eq_refl a eq_refl).
        destruct (Nat.ltb_spec len a); [now left|lia].
      * now left.
    + right. replace (r0 + S r) with (S r0 + r) by lia. apply IH.
      * cbn in Hr. lia.
      * exact Hc.
      * intros -> a [= <-]. specialize (Hprev ltac:(lia)). exact Hprev.
      * intros Hr0. specialize (Hprev ltac:(lia)).
        replace (S r - 1) with (S (r - 1)) in Hprev by lia. exact Hprev.
Qed.

Lemma combine_seq_In {A : Type} (l : list A) (s i : nat) (x : A) :
  nth_error l i = Some x -> In (s + i, x) (combine (seq s (length l)) l).
Proof.
  revert s i. induction l as [|a l IH]; intros s i H; [destruct i; discriminate|].
  cbn [length seq combine]. destruct i as [|i].
  - injection H as ->. left. f_equal. lia.
  - right. replace (s + S i) with (S s + i) by lia. now apply IH.
Qed.

Lemma addable_cells_complete (mu : shape) (k r c : nat) (nu : list nat) :
  nth_error mu k = Some nu ->
  r <= length nu -> c = nth r nu 0 -> (0 < r -> c < nth (r - 1) nu 0) ->
  In (k, r, c) (addable_cells mu).
Proof.
  intros Hnu Hr Hc Hprev. unfold addable_cells. apply in_concat.
  exists (addable_in_rows k 0 None nu). split.
  - apply in_map_iff. exists (k, nu). split; [reflexivity|].
    apply (combine_seq_In mu 0 k nu Hnu).
  - apply (addable_in_rows_complete k 0 None nu r c); try assumption.
    intros _ a Ha. discriminate.
Qed.

(** ** Removing a cell from a partition tuple *)

Lemma set_nth_set_nth {A : Type} (l : list A) (i : nat) (a b : A) :
  set_nth (set_nth l i a) i b = set_nth l i b.
Proof.
  revert i. induction l as [|x l IH]; intros [|i]; cbn; try reflexivity.
  now rewrite IH.
Qed.

Lemma set_nth_same {A : Type} (l : list A) (i : nat) (a : A) :
  nth_error l i = Some a -> set_nth l i a = l.
Proof.
  revert i. induction l as [|x l IH]; intros [|i] H; try discriminate; cbn in *.
  - now injection H as ->.
  - now rewrite IH.
Qed.

Lemma existsb_cell3 (cell : nat * nat * nat) (l : list (nat * nat * nat)) :
  existsb (cell3_eqb cell) l = true <-> In cell l.
Proof.
  rewrite existsb_exists. destruct cell as [[k r] c]. split.
  - intros ([[k' r'] c'] & Hin & E). cbn in E.
    apply andb_true_iff in E. destruct E as [E Ec].
    apply andb_true_iff in E. destruct E as [Ek Er].
    apply Nat.eqb_eq in Ek, Er, Ec. now subst.
  - intros H. exists (k, r, c). split; [assumption|]. cbn.
    now rewrite !Nat.eqb_refl.
Qed.

Lemma remove_cell_spec (mu mu' : shape) (k r c : nat) :
  is_partition_tuple mu = true ->
  remove_cell mu (k, r, c) = Ok mu' ->
  is_partition_tuple mu' = true /\ length mu' = length mu /\
  In (k, r, c) (addable_cells mu') /\
  set_nth mu' k (with_cell (nth k mu' []) r) = mu.
Proof.
  intros Hmu. unfold remove_cell.
  destruct (existsb (cell3_eqb (k, r, c)) (removable_cells mu)) eqn:Ex; [|discriminate].
  apply existsb_cell3 in Ex. intros [= <-].
  destruct (removable_cells_spec mu k r c Ex) as (nu & Hnu & Hr & Hc & Hnext).
  rewrite (nth_error_nth mu k [] Hnu). fold (without_cell nu r c).
  assert (Hk : k < length mu) by (apply nth_error_Some; congruence).
  assert (Hp : is_partition nu = true).
  { unfold is_partition_tuple in Hmu. rewrite forallb_forall in Hmu.
    apply Hmu. eapply nth_error_In. eassumption. }
  assert (Hnu' : nth_error (set_nth mu k (without_cell nu r c)) k
                 = Some (without_cell nu r c))
    by (now apply nth_error_set_nth_same).
  split; [|split; [|split]].
  - apply forallb_set_nth; [assumption|]. now apply without_cell_partition.
  - apply length_set_nth.
  - apply (addable_cells_complete _ k r c _ Hnu');
      rewrite without_cell_eq by assumption.
    + destruct (c =? 0); [rewrite length_firstn | rewrite length_set_nth]; lia.
    + destruct (Nat.eqb_spec c 0) as [->|Hc0].
      * rewrite nth_firstn. destruct (Nat.ltb_spec r r); [lia|reflexivity].
      * rewrite nth_set_nth by assumption. now rewrite Nat.eqb_refl.
    + intros Hr0. apply is_partition_spec in Hp. destruct Hp as [Hpos Hwd].
      assert (Hprev := Hwd (r - 1) ltac:(lia)).
      replace (S (r - 1)) with r in Hprev by lia.
      destruct (Nat.eqb_spec c 0) as [->|Hc0].
      * rewrite nth_firstn. destruct (Nat.ltb_spec (r - 1) r); [|lia].
        apply Hpos. lia.
      * rewrite nth_set_nth by assumption.
        destruct (Nat.eqb_spec r (r - 1)); lia.
  - rewrite (nth_error_nth _ k [] Hnu'), set_nth_set_nth.
    rewrite with_without_cell by assumption. now apply set_nth_same.
Qed.

Lemma empty_partition_tuple (mu : shape) :
  is_partition_tuple mu = true -> size mu = 0 -> mu = repeat [] (length mu).
Proof.
  unfold is_partition_tuple, size.
  induction mu as [|nu mu IH]; intros Hp Hs; [reflexivity|].
  cbn in Hp. apply andb_true_iff in Hp. destruct Hp as [Hnu Hmu].
  cbn [map] in Hs. unfold sum_list in Hs. cbn [fold_right] in Hs.
  fold (sum_list (map psize mu)) in Hs.
  cbn [length repeat]. rewrite <- IH by (assumption || lia). f_equal.
  destruct nu as [|len rest]; [reflexivity|].
  apply is_partition_spec in Hnu. destruct Hnu as [Hpos _].
  specialize (Hpos 0 ltac:(cbn; lia)). cbn in Hpos.
  unfold psize, sum_list in Hs. cbn in Hs. lia.
Qed.

Lemma shape_of_empty (level : nat) :
  shape_of_tuple (repeat (@nil (list Z)) level) = repeat [] level.
Proof.
  unfold shape_of_tuple. induction level as [|l IH]; [reflexivity|].
  cbn. now rewrite IH.
Qed.

(** ** The tableaux of a shape *)

Definition good_shaped (e : Z) (mc rl : list Z) (mu : shape)
           (t : list (list (list pyobj))) : Prop :=
  exists zs, t = lift_tuple zs /\ filled (length rl) zs /\
             length zs = length mc /\ residues_match e mc zs rl /\
             shape_of_tuple zs = mu.

Lemma with_entry_shape (zs : tableau_tuple) (mu mu' : shape) (k r c : nat) (m : Z) :
  is_partition_tuple mu = true ->
  remove_cell mu (k, r, c) = Ok mu' ->
  shape_of_tuple zs = mu' ->
  In (k, r, c) (addable_cells (shape_of_tuple zs)) /\
  shape_of_tuple (with_entry zs k r m) = mu.
Proof.
  intros Hmu Hrem Hshape.
  destruct (remove_cell_spec mu mu' k r c Hmu Hrem) as (_ & _ & Hadd & Hback).
  rewrite Hshape. split; [assumption|].
  rewrite <- Hshape in Hadd.
  destruct (addable_position zs k r c Hadd) as (Hk & Hr & _).
  rewrite shape_of_with_entry by assumption. now rewrite Hshape.
Qed.

Lemma StandardTableaux_residue_shape_higher_yields (e : Z) (mc : list Z) (n : nat) :
  forall rl mu, length rl = n -> is_partition_tuple mu = true ->
    length mu = length mc ->
    Forall (good_shaped e mc rl mu)
           (fst (StandardTableaux_residue_shape_higher
                   (length mc) n (mkResidueSequence e mc rl) mu)).
Proof.
  induction n as [|n IH]; intros rl mu Hlen Hmu Hlmu.
  - cbn [StandardTableaux_residue_shape_higher]. unfold rs_size.
    cbn [residues]. rewrite Hlen.
    destruct (Nat.eqb_spec 0 (size mu)) as [Hs|Hs]; cbn [negb]; [|constructor].
    apply gen_yield_yields.
    exists (repeat [] (length mc)). rewrite lift_tuple_empty, Hlen.
    split; [reflexivity|]. split; [apply filled_empty|].
    split; [apply repeat_length|]. split.
    + intros k r c x H. now apply holds_empty in H.
    + rewrite shape_of_empty, <- Hlmu. symmetry.
      apply empty_partition_tuple; [assumption|lia].
  - cbn [StandardTableaux_residue_shape_higher].
    destruct (negb (rs_size (mkResidueSequence e mc rl) =? size mu)); [constructor|].
    apply gen_for_yields. intros [[k r] c] Hcell.
    apply gen_lift_yields. intros [|] Hright; [|constructor].
    apply gen_lift_yields. intros mu' Hrem.
    destruct (remove_cell_spec mu mu' k r c Hmu Hrem) as (Hmu' & Hlmu' & _ & _).
    apply (gen_bind_yields (good_shaped e mc (firstn n rl) mu')).
    + apply (IH (firstn n rl) mu'); [rewrite length_firstn; lia|assumption|lia].
    + intros t (zs & -> & Hf & Hlz & Hmatch & Hshape).
      rewrite length_firstn, Nat.min_l in Hf by lia.
      destruct (with_entry_shape zs mu mu' k r c (Z.of_nat (S n)) Hmu Hrem Hshape)
        as [Hadd Hnew].
      apply gen_lift_yields. intros t' Hrun.
      rewrite (add_cell_filled n zs k r c Hf Hadd) in Hrun. injection Hrun as <-.
      apply gen_yield_yields.
      destruct (addable_position zs k r c Hadd) as (Hk & Hr & Hc & _).
      exists (with_entry zs k r (Z.of_nat (S n))).
      split; [reflexivity|]. rewrite Hlen.
      split; [eapply with_entry_filled; eassumption|].
      split; [unfold with_entry; now rewrite length_set_nth|].
      split; [|assumption].
      apply (residues_match_with_entry n); try assumption.
      rewrite <- Hc. now apply right_residue_true.
Qed.

(** ** One component *)

Lemma Partition_remove_cell_spec (nu nu' : list nat) (r c : nat) :
  Partition_remove_cell nu (r, c) = Ok nu' -> remove_cell [nu] (0, r, c) = Ok [nu'].
Proof.
  unfold Partition_remove_cell. cbn [fst snd].
  destruct (remove_cell [nu] (0, r, c)) as [mu'|] eqn:E; [|discriminate].
  cbn [bind]. intros [= <-]. f_equal.
  unfold remove_cell in E.
  destruct (existsb (cell3_eqb (0, r, c)) (removable_cells [nu])); [|discriminate].
  injection E as <-. reflexivity.
Qed.

Lemma StandardTableaux_residue_shape_level_one_yields (e : Z) (mc : list Z) (n : nat) :
  length mc = 1 ->
  forall rl nu, length rl = n -> is_partition nu = true ->
    Forall (fun t => good_shaped e mc rl [nu] [t])
           (fst (StandardTableaux_residue_shape_level_one
                   n (mkResidueSequence e mc rl) nu)).
Proof.
  intros Hmc. induction n as [|n IH]; intros rl nu Hlen Hnu.
  - cbn [StandardTableaux_residue_shape_level_one]. unfold rs_size.
    cbn [residues]. rewrite Hlen.
    destruct (Nat.eqb_spec 0 (psize nu)) as [Hs|Hs]; cbn [negb]; [|constructor].
    apply gen_yield_yields.
    exists (repeat [] 1). rewrite Hlen.
    split; [reflexivity|]. split; [apply (filled_empty 1)|].
    split; [now rewrite Hmc|]. split.
    + intros k r c x H. now apply (holds_empty 1) in H.
    + assert (H := empty_partition_tuple [nu]).
      cbn [length repeat] in H. rewrite H; [reflexivity| |].
      * cbn. now rewrite Hnu.
      * unfold size. cbn [map]. unfold sum_list at 1. cbn [fold_right]. lia.
  - cbn [StandardTableaux_residue_shape_level_one].
    destruct (negb (rs_size (mkResidueSequence e mc rl) =? psize nu)); [constructor|].
    apply gen_for_yields. intros [r c] Hcell.
    apply gen_lift_yields. intros [|] Hright; [|constructor].
    apply gen_lift_yields. intros nu' Hrem.
    apply Partition_remove_cell_spec in Hrem.
    assert (Hmu : is_partition_tuple [nu] = true) by (cbn; now rewrite Hnu).
    destruct (remove_cell_spec [nu] [nu'] 0 r c Hmu Hrem) as (Hmu' & _ & _ & _).
    assert (Hnu' : is_partition nu' = true).
    { cbn in Hmu'. now rewrite andb_true_r in Hmu'. }
    apply (gen_bind_yields (fun t => good_shaped e mc (firstn n rl) [nu'] [t])).
    + apply (IH (firstn n rl) nu'); [rewrite length_firstn; lia|assumption].
    + intros t (zs & Ht & Hf & Hlz & Hmatch & Hshape).
      rewrite length_firstn, Nat.min_l in Hf by lia.
      destruct (lift_tuple_singleton t zs Ht) as (rows & -> & ->).
      destruct (with_entry_shape [rows] [nu] [nu'] 0 r c (Z.of_nat (S n))
                                 Hmu Hrem Hshape) as [Hadd Hnew].
      assert (Hadd1 : In (r, c) (Partition_addable_cells (shape_of_tableau rows))).
      { unfold Partition_addable_cells. apply in_map_iff. exists (0, r, c).
        split; [reflexivity|]. unfold addable_cells in Hadd.
        cbn [shape_of_tuple map length seq combine concat fst snd] in Hadd.
        now rewrite app_nil_r in Hadd. }
      destruct (Tableau_add_entry_addable rows r c (Z.of_nat (S n)) Hadd1)
        as (rows' & Hrun & Hrows').
      rewrite Hrun. cbn [gen_lift]. apply gen_yield_yields.
      destruct (addable_position [rows] 0 r c Hadd) as (Hk & Hr & Hc & _).
      exists [rows']. split; [reflexivity|]. rewrite Hlen, Hrows'.
      split; [eapply with_entry_filled; eassumption|].
      split; [unfold with_entry; now rewrite length_set_nth|].
      split; [|assumption].
      apply (residues_match_with_entry n); try assumption.
      rewrite <- Hc. apply right_residue_true. exact Hright.
Qed.

(** * [RowStandardTableauTuples_residue] yields tableaux with the residue
      sequence *)

(** ** The rows of a shape, numbered through the components *)

(** The number of the first row of component [c]. *)
Definition first_row (mu : shape) (c : nat) : nat :=
  sum_list (firstn c (map (@length nat) mu)).

Lemma nth_cumulative_lengths (mu : shape) (c : nat) :
  c <= length mu -> nth c (cumulative_lengths mu) 0 = first_row mu c.
Proof.
  intros Hc. unfold cumulative_lengths, first_row.
  rewrite nth_cumul by (now rewrite length_map). reflexivity.
Qed.

Lemma first_row_S (mu : shape) (c : nat) :
  first_row mu (S c) = first_row mu c + length (nth c mu []).
Proof.
  unfold first_row. rewrite sum_firstn_S. f_equal.
  change 0 with (length (@nil nat)). now rewrite map_nth.
Qed.

Lemma first_row_mono (mu : shape) (c c' : nat) :
  c <= c' -> first_row mu c <= first_row mu c'.
Proof. apply sum_firstn_mono. Qed.

Lemma length_concat_shape (mu : shape) :
  length (concat mu) = first_row mu (length mu).
Proof.
  unfold first_row. rewrite <- (length_map (@length nat) mu), firstn_all.
  induction mu as [|nu mu IH]; [reflexivity|].
  cbn [concat map]. rewrite length_app, IH. reflexivity.
Qed.

Lemma nth_concat_block {A : Type} (blocks : list (list A)) (c r : nat) (d : A) :
  c < length blocks -> r < length (nth c blocks []) ->
  nth (sum_list (firstn c (map (@length A) blocks)) + r) (concat blocks) d
  = nth r (nth c blocks []) d.
Proof.
  revert c. induction blocks as [|b blocks IH]; intros c Hc Hr; [cbn in Hc; lia|].
  destruct c as [|c].
  - cbn [firstn nth concat] in *. unfold sum_list. cbn [fold_right].
    now rewrite app_nth1.
  - cbn [firstn map nth concat length] in *. unfold sum_list. cbn [fold_right].
    fold (sum_list (firstn c (map (@length A) blocks))).
    rewrite app_nth2 by lia.
    replace (length b + sum_list (firstn c (map (@length A) blocks)) + r - length b)
      with (sum_list (firstn c (map (@length A) blocks)) + r) by lia.
    apply IH; [lia|assumption].
Qed.

(** The row numbered [j] is some row [r] of some component [c]. *)
Lemma row_decompose (mu : shape) (j : nat) :
  j < length (concat mu) ->
  exists c r, c < length mu /\ r < length (nth c mu []) /\ j = first_row mu c + r.
Proof.
  unfold first_row. revert j. induction mu as [|nu mu IH]; intros j Hj; [cbn in Hj; lia|].
  cbn [concat] in Hj. rewrite length_app in Hj.
  destruct (Nat.lt_ge_cases j (length nu)) as [Hlt|Hge].
  - exists 0, j. cbn. repeat split; try lia.
  - destruct (IH (j - length nu) ltac:(lia)) as (c & r & Hc & Hr & E).
    exists (S c), r. cbn [length nth firstn map]. unfold sum_list in *.
    cbn [fold_right]. repeat split; try lia; assumption.
Qed.

Lemma row_number_inj (mu : shape) (c r c' r' : nat) :
  r < length (nth c mu []) -> r' < length (nth c' mu []) ->
  first_row mu c + r = first_row mu c' + r' -> c = c' /\ r = r'.
Proof.
  intros Hr Hr' E.
  assert (Hc : c = c').
  { destruct (Nat.lt_trichotomy c c') as [Hlt|[Heq|Hgt]]; [exfalso|assumption|exfalso].
    - assert (H := first_row_mono mu (S c) c' Hlt). rewrite first_row_S in H. lia.
    - assert (H := first_row_mono mu (S c') c Hgt). rewrite first_row_S in H. lia. }
  subst c'. split; [reflexivity|lia].
Qed.

Lemma row_number_bound (mu : shape) (c r : nat) :
  c < length mu -> r < length (nth c mu []) ->
  first_row mu c + r < length (concat mu).
Proof.
  intros Hc Hr. rewrite length_concat_shape.
  assert (H := first_row_mono mu (S c) (length mu) Hc). rewrite first_row_S in H. lia.
Qed.

(** ** [__init__] *)

Lemma map_res_ok {A B : Type} (f : A -> res B) (g : A -> B) (l : list A) :
  (forall a, In a l -> f a = Ok (g a)) -> map_res f l = Ok (map g l).
Proof.
  induction l as [|a l IH]; intros H; [reflexivity|].
  cbn [map_res map]. rewrite (H a (or_introl eq_refl)). cbn [bind].
  rewrite IH by (intros b Hb; apply H; now right). reflexivity.
Qed.

(** The multicharge of the stretched shape. *)
Definition charge_of (mc : list Z) (mu : shape) : list Z :=
  concat (map (fun c => map (fun r => (nth c mc 0 - Z.of_nat r)%Z)
                            (seq 0 (length (nth c mu []))))
              (seq 0 (length mu))).

Lemma stretched_charge_eq (mc : list Z) (mu : shape) :
  length mu <= length mc -> stretched_charge mc mu = Ok (charge_of mc mu).
Proof.
  intros Hl. unfold stretched_charge, charge_of.
  rewrite (map_res_ok _ (fun c => map (fun r => (nth c mc 0 - Z.of_nat r)%Z)
                                      (seq 0 (length (nth c mu []))))).
  - reflexivity.
  - intros c Hc. apply in_seq in Hc. apply map_res_ok. intros r _.
    rewrite (getitem_ok mc c (nth c mc 0%Z)) by (apply nth_error_nth'; lia).
    reflexivity.
Qed.

Lemma blocks_lengths {A : Type} (f : nat -> nat -> A) (mu : shape) :
  map (@length A)
      (map (fun c => map (f c) (seq 0 (length (nth c mu [])))) (seq 0 (length mu)))
  = map (@length nat) mu.
Proof.
  rewrite map_map. rewrite <- (map_nth_seq (map (@length nat) mu)) at 1.
  rewrite length_map. apply map_ext_in. intros c Hc. apply in_seq in Hc.
  rewrite length_map, length_seq.
  change 0 with (length (@nil nat)). now rewrite map_nth.
Qed.

Lemma length_charge_of (mc : list Z) (mu : shape) :
  length (charge_of mc mu) = length (concat mu).
Proof.
  unfold charge_of.
  assert (H : forall (A B : Type) (l1 : list (list A)) (l2 : list (list B)),
             map (@length A) l1 = map (@length B) l2 ->
             length (concat l1) = length (concat l2)).
  { intros A B l1. induction l1 as [|a l1 IH]; intros [|b l2] E; try discriminate.
    - reflexivity.
    - cbn in E. injection E as Ea El. cbn [concat]. rewrite !length_app, Ea.
      f_equal. now apply IH. }
  apply H. apply blocks_lengths.
Qed.

Lemma nth_charge_of (mc : list Z) (mu : shape) (c r : nat) :
  c < length mu -> r < length (nth c mu []) ->
  nth (first_row mu c + r) (charge_of mc mu) 0%Z = (nth c mc 0 - Z.of_nat r)%Z.
Proof.
  intros Hc Hr. unfold charge_of, first_row.
  rewrite <- (blocks_lengths (fun c r => (nth c mc 0 - Z.of_nat r)%Z) mu).
  set (blocks := map _ (seq 0 (length mu))).
  assert (Hb : nth c blocks [] = map (fun r => (nth c mc 0 - Z.of_nat r)%Z)
                                     (seq 0 (length (nth c mu [])))).
  { unfold blocks. apply nth_error_nth. rewrite nth_error_map, nth_error_seq.
    destruct (Nat.ltb_spec c (length mu)); [reflexivity|lia]. }
  rewrite nth_concat_block.
  - rewrite Hb. apply nth_error_nth. rewrite nth_error_map, nth_error_seq.
    destruct (Nat.ltb_spec r (length (nth c mu []))); [reflexivity|lia].
  - unfold blocks. now rewrite length_map, length_seq.
  - rewrite Hb. now rewrite length_map, length_seq.
Qed.

(** The stretched shape: one component for every row. *)
Definition stretched (mu : shape) : shape := map (fun r => [r]) (concat mu).

Lemma stretched_partition (mu : shape) :
  is_partition_tuple mu = true -> is_partition_tuple (stretched mu) = true.
Proof.
  intros Hmu. unfold is_partition_tuple, stretched in *.
  apply forallb_forall. intros nu Hnu. apply in_map_iff in Hnu.
  destruct Hnu as (r & <- & Hr). apply in_concat in Hr. destruct Hr as (nu & Hnu & Hr).
  rewrite forallb_forall in Hmu. specialize (Hmu nu Hnu).
  apply is_partition_spec in Hmu. destruct Hmu as [Hpos _].
  destruct (In_nth nu r 0 Hr) as (i & Hi & <-). specialize (Hpos i Hi).
  apply is_partition_spec. split.
  - intros j Hj. cbn in Hj. assert (j = 0) by lia. subst j. exact Hpos.
  - intros j Hj. cbn in Hj. lia.
Qed.

Lemma init_eq (e : Z) (mc rl : list Z) (mu : shape) :
  length mu <= length mc -> length rl = size mu ->
  RowStandardTableauTuples_residue_shape_init (mkResidueSequence e mc rl) mu
  = Ok (mk_residue_shape_state
          (length mc) (length rl)
          (standard_tableaux (ResidueSequence_new e (charge_of mc mu) rl) (stretched mu))
          (cumulative_lengths mu)).
Proof.
  intros Hl Hsize. unfold RowStandardTableauTuples_residue_shape_init, rs_size, rs_level.
  cbn [residues multicharge quantum_characteristic].
  rewrite Hsize, Nat.eqb_refl. cbn [negb].
  assert (Hgen : (charge <- stretched_charge mc mu ;;
                  Ok (map (fun r => [r]) (concat mu), charge, cumulative_lengths mu))
                 = Ok (stretched mu, charge_of mc mu, cumulative_lengths mu)).
  { now rewrite stretched_charge_eq. }
  destruct mu as [|nu [|nu' mu]].
  - rewrite Hgen. reflexivity.
  - assert (Hone : (charge <- map_res (fun r => mc0 <- getitem mc 0 ;;
                                                Ok (mc0 - Z.of_nat r)%Z)
                                      (seq 0 (length nu)) ;;
                    Ok (map (fun r => [r]) nu, charge, [0; length nu]))
                   = Ok (stretched [nu], charge_of mc [nu], cumulative_lengths [nu])).
    { rewrite (map_res_ok _ (fun r => (nth 0 mc 0 - Z.of_nat r)%Z)).
      - cbn [bind]. unfold stretched, charge_of, cumulative_lengths.
        cbn [concat length seq map nth cumul]. now rewrite !app_nil_r.
      - intros r _. cbn [length] in Hl.
        rewrite (getitem_ok mc 0 (nth 0 mc 0%Z)) by (apply nth_error_nth'; lia).
        reflexivity. }
    rewrite Hone. reflexivity.
  - rewrite Hgen. reflexivity.
Qed.

(** ** From the stretched tableau back to the rows of the components *)

(** The one row of component [j] of a stretched tableau. *)
Definition row_of (zs : tableau_tuple) (j : nat) : list Z := nth 0 (nth j zs []) [].

(** [[[t[r][0] for r in range(cum[c], cum[c+1])] for c in range(level)]] *)
Definition regrouped (zs : tableau_tuple) (mu : shape) : tableau_tuple :=
  map (fun c => map (row_of zs) (seq (first_row mu c) (length (nth c mu []))))
      (seq 0 (length mu)).

Section Stretched.
Variable mu : shape.
Variable zs : tableau_tuple.
Hypothesis Hshape : shape_of_tuple zs = stretched mu.

Lemma stretched_length : length zs = length (concat mu).
Proof.
  assert (H : length (shape_of_tuple zs) = length (stretched mu)) by (now rewrite Hshape).
  unfold shape_of_tuple, stretched in H. now rewrite !length_map in H.
Qed.

Lemma stretched_component (j : nat) :
  j < length (concat mu) ->
  nth j zs [] = [row_of zs j] /\ length (row_of zs j) = nth j (concat mu) 0.
Proof.
  intros Hj.
  assert (H : nth j (shape_of_tuple zs) [] = nth j (stretched mu) []) by (now rewrite Hshape).
  unfold shape_of_tuple, stretched in H.
  change (@nil nat) with (shape_of_tableau (@nil (list Z))) in H at 1.
  rewrite map_nth in H.
  rewrite (nth_indep _ [] [0]) in H by (now rewrite length_map).
  rewrite (map_nth (fun r => [r]) (concat mu) 0) in H.
  unfold row_of. unfold shape_of_tableau in H.
  change (@nth tableau j zs []) with (@nth (list (list Z)) j zs []).
  destruct (@nth (list (list Z)) j zs []) as [|row [|row' rest]]; try discriminate.
  cbn in H. injection H as H. cbn [nth]. now split.
Qed.

Lemma stretched_holds (j r c : nat) (x : Z) :
  holds zs j r c x <->
  j < length (concat mu) /\ r = 0 /\ nth_error (row_of zs j) c = Some x.
Proof.
  split.
  - intros (comp & row & Hj & Hr & Hc).
    assert (Hjl : j < length (concat mu)).
    { rewrite <- stretched_length. apply nth_error_Some. congruence. }
    destruct (stretched_component j Hjl) as [Hcomp _].
    rewrite (nth_error_nth zs j [] Hj) in Hcomp. subst comp.
    destruct r as [|r]; [|destruct r; discriminate].
    cbn in Hr. injection Hr as <-. now repeat split.
  - intros (Hj & -> & Hc).
    destruct (stretched_component j Hj) as [Hcomp _].
    exists [row_of zs j], (row_of zs j). repeat split; try assumption.
    rewrite <- Hcomp. apply nth_error_nth'. now rewrite stretched_length.
Qed.

Lemma map_nth_seq_gen {A : Type} (d : A) (l : list A) :
  map (fun i => nth i l d) (seq 0 (length l)) = l.
Proof.
  induction l as [|a l IH]; [reflexivity|].
  cbn [length seq map nth]. f_equal.
  rewrite <- seq_shift, map_map. exact IH.
Qed.

Lemma seq_from (s n : nat) : seq s n = map (fun r => s + r) (seq 0 n).
Proof.
  revert s. induction n as [|n IH]; intros s; [reflexivity|].
  cbn [seq map]. f_equal; [lia|].
  rewrite (IH (S s)), <- seq_shift, map_map. apply map_ext. intros r. lia.
Qed.

Lemma regrouped_shape : shape_of_tuple (regrouped zs mu) = mu.
Proof.
  unfold regrouped, shape_of_tuple. rewrite map_map.
  transitivity (map (fun c => nth c mu []) (seq 0 (length mu)));
    [|apply map_nth_seq_gen].
  apply map_ext_in. intros c Hc. apply in_seq in Hc.
  unfold shape_of_tableau. rewrite map_map.
  transitivity (map (fun r => nth r (nth c mu []) 0) (seq 0 (length (nth c mu []))));
    [|apply map_nth_seq_gen].
  rewrite seq_from, map_map. apply map_ext_in. intros r Hr. apply in_seq in Hr.
  destruct (stretched_component (first_row mu c + r)) as [_ Hlen].
  { apply row_number_bound; lia. }
  rewrite Hlen. unfold first_row. apply nth_concat_block; lia.
Qed.

Lemma regrouped_holds (c r col : nat) (x : Z) :
  holds (regrouped zs mu) c r col x <->
  c < length mu /\ r < length (nth c mu []) /\
  holds zs (first_row mu c + r) 0 col x.
Proof.
  assert (Hcomp : forall c, c < length mu ->
            nth_error (regrouped zs mu) c
            = Some (map (row_of zs) (seq (first_row mu c) (length (nth c mu []))))).
  { intros c' Hc'. unfold regrouped. rewrite nth_error_map, nth_error_seq.
    destruct (Nat.ltb_spec c' (length mu)); [reflexivity|lia]. }
  split.
  - intros (comp & row & Hc & Hr & Hcol).
    assert (Hcl : c < length mu).
    { assert (H : c < length (regrouped zs mu)) by (apply nth_error_Some; congruence).
      unfold regrouped in H. now rewrite length_map, length_seq in H. }
    rewrite (Hcomp c Hcl) in Hc. injection Hc as <-.
    rewrite nth_error_map, nth_error_seq in Hr.
    destruct (Nat.ltb_spec r (length (nth c mu []))) as [Hrl|]; [|discriminate].
    cbn in Hr. injection Hr as <-.
    split; [assumption|]. split; [assumption|].
    apply stretched_holds. split; [apply row_number_bound; assumption|].
    now split.
  - intros (Hc & Hr & H). apply stretched_holds in H. destruct H as (_ & _ & Hcol).
    exists (map (row_of zs) (seq (first_row mu c) (length (nth c mu [])))),
           (row_of zs (first_row mu c + r)).
    split; [now apply Hcomp|]. split; [|assumption].
    rewrite nth_error_map, nth_error_seq.
    destruct (Nat.ltb_spec r (length (nth c mu []))); [reflexivity|lia].
Qed.

Lemma regrouped_numbered (n : nat) :
  size mu = n -> numbered n zs -> numbered n (regrouped zs mu).
Proof.
  intros Hsize (_ & Hrange & Hunique & Honto).
  split; [now rewrite regrouped_shape|]. split; [|split].
  - intros c r col x H. apply regrouped_holds in H. destruct H as (_ & _ & H).
    eapply Hrange. eassumption.
  - intros x c r col c' r' col' H H'.
    apply regrouped_holds in H, H'.
    destruct H as (Hc & Hr & H). destruct H' as (Hc' & Hr' & H').
    assert (E := Hunique x _ _ _ _ _ _ H H'). injection E as E ->.
    destruct (row_number_inj mu c r c' r' Hr Hr' E) as [-> ->]. reflexivity.
  - intros x Hx. destruct (Honto x Hx) as (j & r0 & col & H).
    pose proof H as H'. apply stretched_holds in H'. destruct H' as (Hj & -> & _).
    destruct (row_decompose mu j Hj) as (c & r & Hc & Hr & ->).
    exists c, r, col. apply regrouped_holds. now repeat split.
Qed.

Lemma regrouped_residues (e : Z) (mc rl : list Z) :
  residues_match e (charge_of mc mu) zs rl ->
  residues_match e mc (regrouped zs mu) rl.
Proof.
  intros Hmatch c r col x H. apply regrouped_holds in H.
  destruct H as (Hc & Hr & H). rewrite (Hmatch _ _ _ _ H). f_equal.
  unfold content_of. cbn [fst snd]. rewrite nth_charge_of by assumption. lia.
Qed.

Lemma regrouped_valid :
  is_partition_tuple mu = true ->
  forallb (@valid_tableau pyobj) (lift_tuple (regrouped zs mu)) = true.
Proof.
  intros Hmu. now rewrite valid_shape, shape_of_lift_tuple, regrouped_shape.
Qed.

End Stretched.

(** ** The conversion of a stretched tableau tuple *)

Lemma first_of_stretched (mu : shape) (zs : tableau_tuple) (j : nat) :
  shape_of_tuple zs = stretched mu -> j < length (concat mu) ->
  first_of (TableauTupleObj (lift_tuple zs)) j = Ok (PList (map PInt (row_of zs j))).
Proof.
  intros Hshape Hj. unfold first_of.
  destruct (stretched_component mu zs Hshape j Hj) as [Hcomp _].
  rewrite (getitem_ok (lift_tuple zs) j (lift_tableau [row_of zs j])).
  - reflexivity.
  - rewrite <- Hcomp. unfold lift_tuple. apply map_nth_error.
    apply nth_error_nth'. now rewrite (stretched_length mu zs Hshape).
Qed.

Lemma regroup_stretched (mu : shape) (zs : tableau_tuple) (n : nat) (g : gen element) :
  shape_of_tuple zs = stretched mu ->
  regroup (mk_residue_shape_state (length mu) n g (cumulative_lengths mu))
          (TableauTupleObj (lift_tuple zs))
  = Ok (tuple_items (lift_tuple (regrouped zs mu))).
Proof.
  intros Hshape. unfold regroup.
  cbn [rss_level rss_cumulative_lengths].
  rewrite (map_res_ok _ (fun c => tableau_items
                                    (lift_tableau
                                       (map (row_of zs)
                                            (seq (first_row mu c)
                                                 (length (nth c mu []))))))).
  - f_equal. unfold tuple_items, lift_tuple, regrouped. now rewrite !map_map.
  - intros c Hc. apply in_seq in Hc.
    assert (Hlen : length (cumulative_lengths mu) = S (length mu)).
    { unfold cumulative_lengths. now rewrite length_cumul, length_map. }
    rewrite (getitem_ok _ c (first_row mu c))
      by (rewrite <- nth_cumulative_lengths by lia; apply nth_error_nth'; lia).
    cbn [bind].
    rewrite (getitem_ok _ (c + 1) (first_row mu (S c))).
    2:{ rewrite Nat.add_1_r. rewrite <- nth_cumulative_lengths by lia.
        apply nth_error_nth'. lia. }
    cbn [bind]. rewrite first_row_S.
    replace (first_row mu c + length (nth c mu []) - first_row mu c)
      with (length (nth c mu [])) by lia.
    rewrite (map_res_ok _ (fun j => PList (map PInt (row_of zs j)))).
    + cbn [bind]. unfold tableau_items, lift_tableau. now rewrite !map_map.
    + intros j Hj. apply in_seq in Hj. apply (first_of_stretched mu); [assumption|].
      assert (H := row_number_bound mu c (j - first_row mu c) ltac:(lia) ltac:(lia)).
      now replace (first_row mu c + (j - first_row mu c)) with j in H by lia.
Qed.

Lemma firsts_stretched (nu : list nat) (zs : tableau_tuple) :
  shape_of_tuple zs = stretched [nu] ->
  exists rows,
    firsts (TableauTupleObj (lift_tuple zs)) = Ok (map PList (lift_tableau rows)) /\
    regrouped zs [nu] = [rows].
Proof.
  intros Hshape. exists (map (row_of zs) (seq 0 (length nu))). split.
  - unfold firsts.
    assert (Hl := stretched_length [nu] zs Hshape).
    cbn [concat] in Hl. rewrite app_nil_r in Hl.
    rewrite (map_res_ok _ (fun comp => PList (nth 0 comp []))).
    + f_equal. unfold lift_tableau, lift_tuple. rewrite !map_map.
      transitivity (map (fun x : tableau => PList (nth 0 (lift_tableau x) []))
                        (map (fun j => nth j zs []) (seq 0 (length zs)))).
      { f_equal. symmetry. exact (map_nth_seq_gen [] zs). }
      rewrite map_map, Hl.
      apply map_ext_in. intros j Hj. apply in_seq in Hj.
      destruct (stretched_component [nu] zs Hshape j) as [Hcomp _].
      { cbn [concat]. rewrite app_nil_r. lia. }
      rewrite Hcomp. reflexivity.
    + intros comp Hcomp. unfold lift_tuple in Hcomp. apply in_map_iff in Hcomp.
      destruct Hcomp as (zcomp & <- & Hz).
      destruct (In_nth zs zcomp [] Hz) as (j & Hj & <-).
      destruct (stretched_component [nu] zs Hshape j) as [Hcomp _].
      { cbn [concat]. rewrite app_nil_r. lia. }
      rewrite Hcomp. reflexivity.
  - unfold regrouped. cbn [length seq map nth]. unfold first_row. cbn [firstn].
    reflexivity.
Qed.

(** ** What [standard_tableaux] yields *)

Definition reduced (e : Z) (rl : list Z) : Prop := map (base_ring e) rl = rl.

Lemma base_ring_idempotent (e x : Z) : base_ring e (base_ring e x) = base_ring e x.
Proof.
  unfold base_ring. destruct (Z.eqb_spec e 0) as [He|He]; [reflexivity|].
  now apply Z.mod_mod.
Qed.

Lemma reduced_new (e : Z) (rl : list Z) : reduced e (map (base_ring e) rl).
Proof.
  unfold reduced. rewrite map_map. apply map_ext. intros x. apply base_ring_idempotent.
Qed.

(** A tableau for a partition, a tuple for a tuple. *)
Definition shaped_element (e : Z) (mc rl : list Z) (mu : shape) (x : element) : Prop :=
  (exists t, x = TableauTupleObj t /\ length mu <> 1 /\ good_shaped e mc rl mu t) \/
  (exists t, x = TableauObj t /\ length mu = 1 /\ good_shaped e mc rl mu [t]).

Lemma standard_tableaux_yields (e : Z) (mc rl : list Z) (mu : shape) :
  is_partition_tuple mu = true -> length mu = length mc ->
  Forall (shaped_element e mc rl mu)
         (fst (standard_tableaux (mkResidueSequence e mc rl) mu)).
Proof.
  intros Hmu Hl. unfold standard_tableaux, rs_level, rs_size.
  cbn [multicharge residues].
  destruct mu as [|nu [|nu' mu]].
  - cbn [length] in Hl. rewrite <- Hl. cbn [Nat.eqb].
    eapply gen_map_yields.
    + rewrite Hl. apply StandardTableaux_residue_shape_higher_yields;
        [reflexivity|assumption|assumption].
    + intros t Ht. left. exists t. cbn [length]. repeat split; [lia|assumption].
  - cbn [length] in Hl. rewrite <- Hl. cbn [Nat.eqb].
    eapply gen_map_yields.
    + apply StandardTableaux_residue_shape_level_one_yields; [now symmetry|reflexivity|].
      cbn in Hmu. now rewrite andb_true_r in Hmu.
    + intros t Ht. right. exists t. now repeat split.
  - cbn [length] in Hl. rewrite <- Hl. cbn [Nat.eqb].
    eapply gen_map_yields.
    + rewrite Hl. apply StandardTableaux_residue_shape_higher_yields;
        [reflexivity|assumption|assumption].
    + intros t Ht. left. exists t. cbn [length]. repeat split; [lia|assumption].
Qed.

(** ** A stretched shape of one row

    The standard tableaux of a one-row partition are tableaux, not tuples:
    [t[r][0]] is then an entry, and the conversions find no rows. *)

Lemma map_res_inv {A B : Type} (f : A -> res B) (l : list A) (l' : list B) :
  map_res f l = Ok l' -> Forall2 (fun a b => f a = Ok b) l l'.
Proof.
  revert l'. induction l as [|a l IH]; intros l' H; cbn [map_res] in H.
  - injection H as <-. constructor.
  - destruct (f a) as [b|] eqn:Ea; [|discriminate]. cbn [bind] in H.
    destruct (map_res f l) as [bs|]; [|discriminate]. cbn [bind] in H.
    injection H as <-. constructor; [assumption|]. now apply IH.
Qed.

Lemma Forall2_nth {A B : Type} (R : A -> B -> Prop) (l : list A) (l' : list B)
      (d : A) (d' : B) :
  Forall2 R l l' ->
  length l = length l' /\ forall i, i < length l -> R (nth i l d) (nth i l' d').
Proof.
  induction 1 as [|a b l l' Hab _ [IHl IHn]]; cbn [length].
  - split; [reflexivity|]. intros i Hi. lia.
  - split; [lia|]. intros [|i] Hi; cbn [nth]; [assumption|]. apply IHn. lia.
Qed.

Definition is_entry (x : pyobj) : Prop := exists z, x = PInt z.

Lemma rows_of_items_entries (items : list pyobj) (rows : list (list pyobj)) :
  rows_of_items items = Some rows -> Forall is_entry items -> items = [].
Proof.
  intros H Hent. destruct items as [|[z|row] rest]; [reflexivity|discriminate|].
  inversion Hent as [|x l [z Hz] _]. discriminate.
Qed.

Lemma rows_of_items_inv (items : list pyobj) (rows : list (list pyobj)) :
  rows_of_items items = Some rows -> items = map PList rows.
Proof.
  revert rows. induction items as [|[z|row] rest IH]; intros rows H; cbn in H.
  - now injection H as <-.
  - discriminate.
  - destruct (rows_of_items rest) as [rows'|]; [|discriminate].
    injection H as <-. cbn [map]. f_equal. now apply IH.
Qed.

Lemma first_of_tableau (rows : tableau) (j : nat) (x : pyobj) :
  first_of (TableauObj (lift_tableau rows)) j = Ok x -> is_entry x.
Proof.
  unfold first_of, getitem, lift_tableau. rewrite nth_error_map.
  destruct (nth_error rows j) as [row|]; [|discriminate]. cbn [option_map bind].
  unfold py_getitem. destruct (py_norm_index _ _) as [i|]; [|discriminate].
  rewrite nth_error_map. destruct (nth_error row i) as [z|]; [|discriminate].
  cbn [option_map]. intros [= <-]. now exists z.
Qed.

Lemma tableau_not_converted_level_one (rows : tableau) (t' : list (list pyobj)) :
  rows <> [] ->
  (items <- firsts (TableauObj (lift_tableau rows)) ;; RowStandardTableau (PList items))
  <> Ok t'.
Proof.
  intros Hne H. destruct rows as [|row rest]; [congruence|].
  cbn [firsts lift_tableau map map_res] in H.
  destruct (py_getitem _ (map PInt row) 0%Z) as [x|] eqn:Ex; [|discriminate].
  assert (Hx : is_entry x).
  { apply (first_of_tableau [row] 0). unfold first_of. now cbn. }
  destruct Hx as [z ->]. cbn [bind] in H.
  destruct (map_res _ _) as [xs|]; [|discriminate]. cbn in H. discriminate.
Qed.

Lemma regroup_tableau (mu : shape) (rows : tableau) (n : nat) (g : gen element)
      (items : list pyobj) :
  regroup (mk_residue_shape_state (length mu) n g (cumulative_lengths mu))
          (TableauObj (lift_tableau rows)) = Ok items ->
  length items = length mu /\
  forall c, c < length mu ->
            exists xs, nth c items (PInt 0) = PList xs /\
                       length xs = length (nth c mu []) /\ Forall is_entry xs.
Proof.
  intros H. unfold regroup in H. cbn [rss_level rss_cumulative_lengths] in H.
  apply map_res_inv in H. apply (Forall2_nth _ _ _ 0 (PInt 0)) in H.
  destruct H as [Hlen H]. rewrite length_seq in Hlen, H. split; [now symmetry|].
  intros c Hc. specialize (H c Hc). rewrite seq_nth in H by assumption.
  cbn [Nat.add] in H.
  assert (Hcum : length (cumulative_lengths mu) = S (length mu)).
  { unfold cumulative_lengths. now rewrite length_cumul, length_map. }
  rewrite (getitem_ok _ c (first_row mu c)) in H
    by (rewrite <- nth_cumulative_lengths by lia; apply nth_error_nth'; lia).
  cbn [bind] in H.
  rewrite (getitem_ok _ (c + 1) (first_row mu (S c))) in H.
  2:{ rewrite Nat.add_1_r. rewrite <- nth_cumulative_lengths by lia.
      apply nth_error_nth'. lia. }
  cbn [bind] in H. rewrite first_row_S in H.
  replace (first_row mu c + length (nth c mu []) - first_row mu c)
    with (length (nth c mu [])) in H by lia.
  destruct (map_res _ _) as [xs|] eqn:Exs; [|discriminate]. cbn [bind] in H.
  injection H as H. exists xs. split; [now symmetry|].
  apply map_res_inv in Exs. split.
  - apply (Forall2_nth _ _ _ 0 (PInt 0)) in Exs. destruct Exs as [Hl _].
    now rewrite length_seq in Hl.
  - clear H. induction Exs as [|j x js xs' Hj _ IH]; constructor; [|assumption].
    eapply first_of_tableau. eassumption.
Qed.

Lemma tableau_not_converted_higher (mu : shape) (rows : tableau) (n : nat)
      (g : gen element) (t' : list (list (list pyobj))) :
  length (concat mu) = 1 -> length mu <> 1 ->
  (items <- regroup (mk_residue_shape_state (length mu) n g (cumulative_lengths mu))
                    (TableauObj (lift_tableau rows)) ;;
   element_class_unchecked items) <> Ok t'.
Proof.
  intros Hone Hlevel H.
  destruct (regroup _ _) as [items|] eqn:Eitems; [|discriminate]. cbn [bind] in H.
  apply regroup_tableau in Eitems. destruct Eitems as [Hlen Hitems].
  destruct (row_decompose mu 0 ltac:(lia)) as (c0 & r0 & Hc0 & Hr0 & _).
  unfold element_class_unchecked in H.
  destruct (map_res Tableau items) as [comps|] eqn:Ecomps.
  - apply map_res_inv in Ecomps. apply (Forall2_nth _ _ _ (PInt 0) []) in Ecomps.
    destruct Ecomps as [_ Hcomps]. specialize (Hcomps c0 ltac:(lia)).
    destruct (Hitems c0 Hc0) as (xs & Hxs & Hl & Hent). rewrite Hxs in Hcomps.
    cbn [Tableau] in Hcomps.
    destruct (rows_of_items xs) as [rs|] eqn:Ers; [|discriminate].
    apply rows_of_items_entries in Ers; [|assumption]. subst xs. cbn in Hl. lia.
  - destruct (Tableau (PList items)) as [tab|] eqn:Etab; [|discriminate].
    cbn [Tableau] in Etab.
    destruct (rows_of_items items) as [rs|] eqn:Ers; [|discriminate].
    destruct (valid_tableau rs) eqn:Hvalid; [|discriminate].
    apply rows_of_items_inv in Ers. unfold valid_tableau in Hvalid.
    apply is_partition_spec in Hvalid. destruct Hvalid as [Hpos _].
    rewrite length_map in Hpos.
    assert (Hrs : length rs = length mu) by (now rewrite <- Hlen, Ers, length_map).
    assert (Hrow : forall c, c < length mu -> 0 < length (nth c mu [])).
    { intros c Hc. specialize (Hpos c ltac:(lia)).
      destruct (Hitems c Hc) as (xs & Hxs & Hl & _). rewrite <- Hl.
      rewrite Ers in Hxs.
      rewrite (nth_indep _ (PInt 0) (PList [])) in Hxs by (rewrite length_map; lia).
      rewrite (map_nth PList rs []) in Hxs. injection Hxs as <-.
      change 0 with (length (@nil pyobj)) in Hpos at 2.
      now rewrite (map_nth (@length pyobj) rs []) in Hpos. }
    assert (H0 := Hrow 0 ltac:(lia)). assert (H1 := Hrow 1 ltac:(lia)).
    assert (Hb := row_number_bound mu 1 0 ltac:(lia) H1).
    rewrite first_row_S in Hb. lia.
Qed.

(** ** What [RowStandardTableauTuples_residue_shape.__iter__] yields *)

Lemma regrouped_residue_sequence (e : Z) (mc rl : list Z) (mu : shape)
      (zs : tableau_tuple) :
  length mu <= length mc -> length rl = size mu ->
  filled (length rl) zs -> residues_match e (charge_of mc mu) zs rl ->
  shape_of_tuple zs = stretched mu ->
  residue_sequence (lift_tuple (regrouped zs mu)) e mc = Ok (mkResidueSequence e mc rl).
Proof.
  intros Hl Hsize Hf Hmatch Hshape.
  apply (residue_sequence_numbered (length rl)).
  - apply regrouped_numbered; [assumption|now symmetry|now apply filled_numbered].
  - unfold regrouped. now rewrite length_map, length_seq.
  - reflexivity.
  - now apply regrouped_residues.
Qed.

Lemma one_row_tableau (mu : shape) (zs : tableau_tuple) (t : list (list pyobj)) :
  [t] = lift_tuple zs -> shape_of_tuple zs = stretched mu ->
  exists rows, t = lift_tableau rows /\ rows <> [] /\ length (concat mu) = 1.
Proof.
  intros Ht Hshape. destruct zs as [|rows [|rows' zs]]; try discriminate.
  injection Ht as ->. exists rows. split; [reflexivity|].
  unfold stretched in Hshape. destruct (concat mu) as [|r [|r' rest]]; try discriminate.
  split; [|reflexivity]. intros ->. discriminate.
Qed.

(** The element has the residue sequence, and it is a tuple of tableaux
    unless the level is 1. *)
Definition row_standard_yield (e : Z) (mc rl : list Z) (x : element) : Prop :=
  residue_sequence_of x e mc = Ok (mkResidueSequence e mc rl) /\
  (length mc <> 1 ->
   exists comps, x = TableauTupleObj comps /\
                 forallb (@valid_tableau pyobj) comps = true).

Lemma RowStandardTableau_items (rows t' : list (list pyobj)) :
  RowStandardTableau (tableau_items rows) = Ok t' -> t' = rows.
Proof.
  unfold RowStandardTableau. intros H.
  destruct (Tableau (tableau_items rows)) as [tab|] eqn:Etab; [|discriminate].
  apply Tableau_items_inv in Etab. destruct Etab as [-> _]. cbn [bind] in H.
  destruct (map_res _ rows) as [zs|]; [|discriminate].
  destruct (negb _); [discriminate|].
  destruct (list_eq_dec _ _ _); [|discriminate]. now injection H as <-.
Qed.

Lemma RowStandardTableauTuples_residue_shape_yields (e : Z) (mc rl : list Z)
      (mu : shape) :
  reduced e rl -> is_partition_tuple mu = true -> length mu = length mc ->
  length rl = size mu -> size mu <> 0 ->
  Forall (row_standard_yield e mc rl)
         (fst (RowStandardTableauTuples_residue_shape_iter
                 (mk_residue_shape_state
                    (length mc) (length rl)
                    (standard_tableaux (ResidueSequence_new e (charge_of mc mu) rl)
                                       (stretched mu))
                    (cumulative_lengths mu)))).
Proof.
  intros Hred Hmu Hl Hsize Hn0.
  unfold ResidueSequence_new. rewrite Hred.
  assert (Hinner := standard_tableaux_yields e (charge_of mc mu) rl (stretched mu)
                      (stretched_partition mu Hmu)).
  rewrite length_charge_of in Hinner. unfold stretched in Hinner at 1.
  rewrite length_map in Hinner. specialize (Hinner eq_refl).
  unfold RowStandardTableauTuples_residue_shape_iter. cbn [rss_level].
  assert (Hsz : (length rl =? 0) = false) by (apply Nat.eqb_neq; lia).
  destruct (Nat.eqb_spec (length mc) 1) as [Hone|Hmany].
  - unfold RowStandardTableauTuples_residue_shape_iter_level_one.
    cbn [rss_size rss_standard_tableaux]. rewrite Hsz.
    apply gen_app_yields; [constructor|].
    eapply gen_bind_yields; [exact Hinner|].
    intros x [(t & -> & _ & zs & -> & Hf & _ & Hmatch & Hshape)
             |(t & -> & _ & zs & Ht & _ & _ & _ & Hshape)];
      apply gen_lift_yields; intros t' Ht'.
    + destruct mu as [|nu [|nu' mu]]; cbn [length] in Hl; try lia.
      destruct (firsts_stretched nu zs Hshape) as (rows & Hfirsts & Hrows).
      rewrite Hfirsts in Ht'. cbn [bind] in Ht'.
      apply RowStandardTableau_items in Ht'. subst t'.
      apply gen_yield_yields. split; [|intros Hne; lia].
      cbn [residue_sequence_of]. unfold Tableau_residue_sequence.
      change [lift_tableau rows] with (lift_tuple [rows]). rewrite <- Hrows.
      apply regrouped_residue_sequence; try assumption. cbn [length]. lia.
    + exfalso. destruct (one_row_tableau mu zs t Ht Hshape) as (rows & -> & Hne & _).
      exact (tableau_not_converted_level_one rows t' Hne Ht').
  - unfold RowStandardTableauTuples_residue_shape_iter_higher_levels.
    cbn [rss_size rss_standard_tableaux]. rewrite Hsz.
    eapply gen_bind_yields; [exact Hinner|].
    intros x [(t & -> & _ & zs & -> & Hf & _ & Hmatch & Hshape)
             |(t & -> & _ & zs & Ht & _ & _ & _ & Hshape)];
      apply gen_lift_yields; intros t' Ht'; rewrite <- Hl in Ht'.
    + rewrite regroup_stretched in Ht' by assumption. cbn [bind] in Ht'.
      rewrite element_class_unchecked_valid in Ht' by (now apply regrouped_valid).
      injection Ht' as <-. apply gen_yield_yields. split.
      * cbn [residue_sequence_of].
        apply regrouped_residue_sequence; try assumption. lia.
      * intros _. eexists. split; [reflexivity|]. now apply regrouped_valid.
    + exfalso. destruct (one_row_tableau mu zs t Ht Hshape) as (rows & -> & _ & Hrow).
      refine (tableau_not_converted_higher mu rows _ _ t' Hrow _ Ht'). lia.
Qed.

(** ** What [RowStandardTableauTuples_residue.__iter__] yields *)

Section RowStandardTableauTuples_residue_yields.

Variable PartitionTuples : nat -> nat -> list shape.
Variable same_block : shape -> ResidueSequence -> bool.

(** [PartitionTuples(level, size)] lists partition tuples of that level and
    that size. *)
Hypothesis PartitionTuples_spec :
  forall level n mu, In mu (PartitionTuples level n) ->
                     is_partition_tuple mu = true /\ length mu = level /\ size mu = n.

Lemma RowStandardTableauTuples_residue_yields (e : Z) (mc rl : list Z) :
  Forall (fun x => residue_sequence_of x e mc = Ok (ResidueSequence_new e mc rl))
         (fst (RowStandardTableauTuples_residue_iter
                 PartitionTuples same_block (ResidueSequence_new e mc rl))).
Proof.
  assert (Hred := reduced_new e rl). unfold ResidueSequence_new in *.
  set (rl' := map (base_ring e) rl) in *. clearbody rl'. clear rl.
  unfold RowStandardTableauTuples_residue_iter, rs_level, rs_size.
  cbn [multicharge residues].
  destruct (Nat.eqb_spec (length rl') 0) as [Hz|Hnz].
  - destruct rl' as [|? ?]; [|discriminate].
    destruct (Nat.eqb_spec (length mc) 1) as [Hone|Hmany].
    + apply gen_lift_yields. intros t Ht.
      apply (RowStandardTableau_items []) in Ht. subst t.
      apply gen_yield_yields. cbn [residue_sequence_of]. unfold Tableau_residue_sequence.
      change [[]] with (@lift_tuple (repeat [] 1)).
      apply (residue_sequence_filled 0); [apply filled_empty|cbn; lia|reflexivity|].
      intros k r c x H. now apply holds_empty in H.
    + apply gen_yield_yields.
      assert (E : empty_element (length mc) = TableauTupleObj (repeat [] (length mc))).
      { unfold empty_element. destruct (length mc) as [|[|l]]; [reflexivity|lia|reflexivity]. }
      rewrite E. cbn [residue_sequence_of]. rewrite <- lift_tuple_empty.
      apply (residue_sequence_filled 0);
        [apply filled_empty|now rewrite repeat_length|reflexivity|].
      intros k r c x H. now apply holds_empty in H.
  - apply gen_for_yields. intros mu Hmu.
    destruct (PartitionTuples_spec _ _ _ Hmu) as (Hpart & Hlevel & Hsize).
    destruct (same_block mu _); [|constructor].
    apply gen_lift_yields. intros tabs Htabs.
    rewrite init_eq in Htabs by lia. injection Htabs as <-.
    eapply gen_bind_yields.
    + apply RowStandardTableauTuples_residue_shape_yields; try assumption; lia.
    + intros x [Hres Htuple]. destruct (Nat.eqb_spec (length mc) 1) as [Hone|Hmany].
      * now apply gen_yield_yields.
      * destruct (Htuple Hmany) as (comps & -> & Hvalid).
        cbn [element_items]. rewrite element_class_unchecked_valid by assumption.
        now apply gen_yield_yields.
Qed.

End RowStandardTableauTuples_residue_yields.

(** ** Both enumerators *)

(** Partition tuples of small size, listed by level and size. *)
Definition small_partition_tuples (level n : nat) : list shape :=
  filter (fun mu => (length mu =? level) && (size mu =? n) && is_partition_tuple mu)
         [[[1]]; [[2]]; [[1; 1]]; [[3]]; [[2; 1]]; [[1; 1; 1]];
          [[1]; []]; [[]; [1]]; [[2]; []]; [[1; 1]; []]; [[1]; [1]]; [[]; [2]];
          [[]; [1; 1]]].

Lemma small_partition_tuples_spec (level n : nat) (mu : shape) :
  In mu (small_partition_tuples level n) ->
  is_partition_tuple mu = true /\ length mu = level /\ size mu = n.
Proof.
  unfold small_partition_tuples. intros H. apply filter_In in H. destruct H as [_ H].
  apply andb_true_iff in H. destruct H as [H Hpart].
  apply andb_true_iff in H. destruct H as [Hlevel Hsize].
  apply Nat.eqb_eq in Hlevel, Hsize. now repeat split.
Qed.

(** The examples of the docstring of [StandardTableaux_residue.__iter__]:
    the residue sequences of [([[1,2],[5]],[[3,4]])] and of
    [([[1,4],[2]],[[3]])] for e = 3 and the multicharge (0,1). *)
Example StandardTableaux_residue_docstring_1 :
  StandardTableaux_residue_iter (ResidueSequence_new 3 [0%Z; 1%Z] [0%Z; 1%Z; 1%Z; 2%Z; 2%Z])
  = ([TableauTupleObj [[[PInt 1; PInt 2; PInt 4]; [PInt 5]]; [[PInt 3]]];
      TableauTupleObj [[[PInt 1; PInt 2; PInt 4]]; [[PInt 3; PInt 5]]];
      TableauTupleObj [[[PInt 1; PInt 2; PInt 5]; [PInt 4]]; [[PInt 3]]];
      TableauTupleObj [[[PInt 1; PInt 2]; [PInt 4]]; [[PInt 3; PInt 5]]];
      TableauTupleObj [[[PInt 1; PInt 2; PInt 5]]; [[PInt 3; PInt 4]]];
      TableauTupleObj [[[PInt 1; PInt 2]; [PInt 5]]; [[PInt 3; PInt 4]]];
      TableauTupleObj [[[PInt 1; PInt 3; PInt 4]; [PInt 5]]; [[PInt 2]]];
      TableauTupleObj [[[PInt 1; PInt 3; PInt 4]]; [[PInt 2; PInt 5]]];
      TableauTupleObj [[[PInt 1; PInt 3; PInt 5]; [PInt 4]]; [[PInt 2]]];
      TableauTupleObj [[[PInt 1; PInt 3]; [PInt 4]]; [[PInt 2; PInt 5]]];
      TableauTupleObj [[[PInt 1; PInt 3; PInt 5]]; [[PInt 2; PInt 4]]];
      TableauTupleObj [[[PInt 1; PInt 3]; [PInt 5]]; [[PInt 2; PInt 4]]]], None).
Proof. vm_compute. reflexivity. Qed.

Example StandardTableaux_residue_docstring_2 :
  StandardTableaux_residue_iter (ResidueSequence_new 3 [0%Z; 1%Z] [0%Z; 2%Z; 1%Z; 1%Z])
  = ([TableauTupleObj [[[PInt 1; PInt 3]; [PInt 2]; [PInt 4]]; []];
      TableauTupleObj [[[PInt 1; PInt 3]; [PInt 2]]; [[PInt 4]]];
      TableauTupleObj [[[PInt 1; PInt 4]; [PInt 2]; [PInt 3]]; []];
      TableauTupleObj [[[PInt 1]; [PInt 2]; [PInt 3]]; [[PInt 4]]];
      TableauTupleObj [[[PInt 1; PInt 4]; [PInt 2]]; [[PInt 3]]];
      TableauTupleObj [[[PInt 1]; [PInt 2]; [PInt 4]]; [[PInt 3]]]], None).
Proof. vm_compute. reflexivity. Qed.

(** The examples of the docstring of
    [RowStandardTableauTuples_residue.__iter__], with the shapes of the block
    in the order in which the docstring shows them. *)
Example RowStandardTableauTuples_residue_docstring_1 :
  RowStandardTableauTuples_residue_iter
    (fun _ _ => [[[2; 1]; [2]]; [[1; 1; 1]; [2]]; [[]; [2; 2; 1]]; [[]; [2; 1; 1; 1]]])
    (fun _ _ => true)
    (ResidueSequence_new 3 [0%Z; 1%Z] [1%Z; 2%Z; 2%Z; 0%Z; 1%Z])
  = ([TableauTupleObj [[[PInt 4; PInt 5]; [PInt 3]]; [[PInt 1; PInt 2]]];
      TableauTupleObj [[[PInt 4; PInt 5]; [PInt 2]]; [[PInt 1; PInt 3]]];
      TableauTupleObj [[[PInt 4]; [PInt 3]; [PInt 5]]; [[PInt 1; PInt 2]]];
      TableauTupleObj [[[PInt 4]; [PInt 2]; [PInt 5]]; [[PInt 1; PInt 3]]];
      TableauTupleObj [[]; [[PInt 1; PInt 3]; [PInt 4; PInt 5]; [PInt 2]]];
      TableauTupleObj [[]; [[PInt 1; PInt 2]; [PInt 4; PInt 5]; [PInt 3]]];
      TableauTupleObj [[]; [[PInt 1; PInt 3]; [PInt 4]; [PInt 2]; [PInt 5]]];
      TableauTupleObj [[]; [[PInt 1; PInt 2]; [PInt 4]; [PInt 3]; [PInt 5]]]], None).
Proof. vm_compute. reflexivity. Qed.

Example RowStandardTableauTuples_residue_docstring_2 :
  RowStandardTableauTuples_residue_iter
    (fun _ _ => [[[2; 1; 1]; []]; [[2; 1]; [1]]; [[1; 1; 1]; [1]]; [[]; [1; 1; 1; 1]]])
    (fun _ _ => true)
    (ResidueSequence_new 3 [0%Z; 1%Z] [2%Z; 0%Z; 1%Z; 1%Z])
  = ([TableauTupleObj [[[PInt 2; PInt 4]; [PInt 1]; [PInt 3]]; []];
      TableauTupleObj [[[PInt 2; PInt 3]; [PInt 1]; [PInt 4]]; []];
      TableauTupleObj [[[PInt 2; PInt 4]; [PInt 1]]; [[PInt 3]]];
      TableauTupleObj [[[PInt 2; PInt 3]; [PInt 1]]; [[PInt 4]]];
      TableauTupleObj [[[PInt 2]; [PInt 1]; [PInt 4]]; [[PInt 3]]];
      TableauTupleObj [[[PInt 2]; [PInt 1]; [PInt 3]]; [[PInt 4]]];
      TableauTupleObj [[]; [[PInt 4]; [PInt 2]; [PInt 1]; [PInt 3]]];
      TableauTupleObj [[]; [[PInt 3]; [PInt 2]; [PInt 1]; [PInt 4]]]], None).
Proof. vm_compute. reflexivity. Qed.

(** C4: every element that the residue enumerators yield has the residue
    sequence they were built from.  For the residue sequence with the
    quantum characteristic [e], the multicharge [mc] and the residues [rl],
    [residue_sequence(e, mc)] of every element that
    [StandardTableaux_residue.__iter__] yields, and of every element that
    [RowStandardTableauTuples_residue.__iter__] yields, returns that residue
    sequence; [PartitionTuples(level, size)] is any list of partition tuples
    of that level and size, and the block test is any test. *)
Theorem residue_enumerators_yield_the_residue_sequence
        (PartitionTuples : nat -> nat -> list shape)
        (same_block : shape -> ResidueSequence -> bool)
        (e : Z) (mc rl : list Z) :
  (forall level n mu, In mu (PartitionTuples level n) ->
                      is_partition_tuple mu = true /\ length mu = level /\ size mu = n) ->
  Forall (fun x => residue_sequence_of x e mc = Ok (ResidueSequence_new e mc rl))
         (fst (StandardTableaux_residue_iter (ResidueSequence_new e mc rl))) /\
  Forall (fun x => residue_sequence_of x e mc = Ok (ResidueSequence_new e mc rl))
         (fst (RowStandardTableauTuples_residue_iter
                 PartitionTuples same_block (ResidueSequence_new e mc rl))).
Proof.
  intros Hspec. split.
  - exact (StandardTableaux_residue_yields (ResidueSequence_new e mc rl)).
  - now apply RowStandardTableauTuples_residue_yields.
Qed.

Lemma residue_enumerators_yield_the_residue_sequence_witness :
  (forall level n mu, In mu (small_partition_tuples level n) ->
                      is_partition_tuple mu = true /\ length mu = level /\ size mu = n) /\
  Forall (fun x => residue_sequence_of x 3%Z [0%Z]
                   = Ok (ResidueSequence_new 3 [0%Z] [0%Z; 2%Z; 1%Z]))
         (fst (StandardTableaux_residue_iter (ResidueSequence_new 3 [0%Z] [0%Z; 2%Z; 1%Z]))) /\
  Forall (fun x => residue_sequence_of x 3%Z [0%Z]
                   = Ok (ResidueSequence_new 3 [0%Z] [0%Z; 2%Z; 1%Z]))
         (fst (RowStandardTableauTuples_residue_iter
                 small_partition_tuples (fun _ _ => true)
                 (ResidueSequence_new 3 [0%Z] [0%Z; 2%Z; 1%Z]))).
Proof.
  split; [exact small_partition_tuples_spec|].
  exact (residue_enumerators_yield_the_residue_sequence
           small_partition_tuples (fun _ _ => true) 3%Z [0%Z] [0%Z; 2%Z; 1%Z]
           small_partition_tuples_spec).
Defined.

(** * The generator yields every standard tableau tuple once *)

(** ** The reading order of the cells *)

Definition cell_lt (x y : nat * nat * nat) : Prop :=
  let '(k, r, c) := x in
  let '(k', r', c') := y in
  k < k' \/ (k = k' /\ (r < r' \/ (r = r' /\ c < c'))).

Lemma row_cells_sorted (k r0 : nat) (nu : list nat) (p q : nat)
      (x y : nat * nat * nat) :
  p < q -> nth_error (row_cells k r0 nu) p = Some x ->
  nth_error (row_cells k r0 nu) q = Some y -> cell_lt x y.
Proof.
  revert r0 p q. induction nu as [|len rest IH]; intros r0 p q Hpq Hp Hq.
  - destruct p; discriminate.
  - cbn [row_cells] in Hp, Hq.
    apply nth_error_app_cases in Hp, Hq. rewrite length_map, length_seq in Hp, Hq.
    destruct Hp as [[Hp1 Hp]|[Hp1 Hp]]; destruct Hq as [[Hq1 Hq]|[Hq1 Hq]]; try lia.
    + apply nth_error_row_segment in Hp, Hq.
      destruct Hp as [_ ->]. destruct Hq as [_ ->]. cbn. right. split; [reflexivity|].
      right. split; [reflexivity|assumption].
    + apply nth_error_row_segment in Hp. destruct Hp as [_ ->].
      destruct y as [[k' r'] c']. apply row_cells_bounds in Hq.
      destruct Hq as (-> & Hr & _). cbn. right. split; [reflexivity|]. left. lia.
    + apply (IH (S r0) (p - len) (q - len)); [lia|assumption|assumption].
Qed.

Lemma comp_cells_sorted (k0 : nat) (mu : shape) (p q : nat) (x y : nat * nat * nat) :
  p < q -> nth_error (comp_cells k0 mu) p = Some x ->
  nth_error (comp_cells k0 mu) q = Some y -> cell_lt x y.
Proof.
  revert k0 p q. induction mu as [|nu rest IH]; intros k0 p q Hpq Hp Hq.
  - destruct p; discriminate.
  - cbn [comp_cells] in Hp, Hq.
    apply nth_error_app_cases in Hp, Hq.
    destruct Hp as [[Hp1 Hp]|[Hp1 Hp]]; destruct Hq as [[Hq1 Hq]|[Hq1 Hq]]; try lia.
    + exact (row_cells_sorted k0 0 nu p q x y Hpq Hp Hq).
    + destruct x as [[k r] c]. destruct y as [[k' r'] c'].
      apply row_cells_bounds in Hp. destruct Hp as (-> & _).
      apply comp_cells_bounds in Hq. destruct Hq as (Hk & _). cbn. left. lia.
    + apply (IH (S k0) (p - length (row_cells k0 0 nu))
                (q - length (row_cells k0 0 nu))); [lia|assumption|assumption].
Qed.

Lemma cells_sorted (mu : shape) (p q : nat) (x y : nat * nat * nat) :
  p < q -> nth_error (cells mu) p = Some x -> nth_error (cells mu) q = Some y ->
  cell_lt x y.
Proof. apply comp_cells_sorted. Qed.

(** ** Rows and columns of a standard tableau tuple *)

Section Standard.
Variable mu : shape.
Hypothesis Hmu : is_partition_tuple mu = true.
Variables tab cols : list nat.
Hypothesis HInv : Inv mu tab cols.

(** The cells above and to the left of a cell exist and hold smaller
    entries. *)
Lemma dominated (d : nat) :
  forall (p k r c r' c' : nat),
    nth_error (cells mu) p = Some (k, r', c') ->
    r <= r' -> c <= c' -> (r' - r) + (c' - c) = d ->
    exists u, nth_error (cells mu) u = Some (k, r, c) /\ nth u tab 0 <= nth p tab 0.
Proof.
  destruct HInv as (_ & _ & _ & _ & Hstd).
  induction d as [|d IH]; intros p k r c r' c' Hp Hr Hc Hd.
  - assert (r = r') by lia. assert (c = c') by lia. subst. exists p. split; [assumption|lia].
  - destruct (Nat.eq_dec c c') as [->|Hne].
    + destruct r' as [|r']; [lia|].
      destruct (comp_cells_up 0 mu p k r' c' Hmu Hp) as (u & Hu & Hcell).
      destruct (IH u k r c' r' c' Hcell ltac:(lia) ltac:(lia) ltac:(lia))
        as (w & Hw & Hle).
      exists w. split; [assumption|].
      assert (H : nth u tab 0 < nth p tab 0).
      { apply Hstd. exists k, r', c'. split; [assumption|now right]. }
      lia.
    + destruct c' as [|c']; [lia|].
      destruct (comp_cells_left 0 mu p k r' c' Hp) as [Hp1 Hcell].
      destruct (IH (p - 1) k r c r' c' Hcell ltac:(lia) ltac:(lia) ltac:(lia))
        as (w & Hw & Hle).
      exists w. split; [assumption|].
      assert (H : nth (p - 1) tab 0 < nth p tab 0).
      { apply Hstd. exists k, r', c'. split; [assumption|now left]. }
      lia.
Qed.

(** The column index of a cell of an earlier component is larger. *)
Lemma earlier_component_col (p q k r c k' r' c' : nat) :
  nth_error (cells mu) p = Some (k, r, c) ->
  nth_error (cells mu) q = Some (k', r', c') ->
  k < k' -> cell_col mu q < cell_col mu p.
Proof.
  intros Hp Hq Hk.
  rewrite (cell_col_eq _ _ _ _ _ Hp), (cell_col_eq _ _ _ _ _ Hq).
  unfold col_index. cbn [fst snd].
  destruct (comp_cells_bounds 0 mu q k' r' c' Hq) as (_ & Hk' & Hr' & Hc' & _).
  rewrite Nat.sub_0_r in *.
  assert (Hpart : is_partition (nth k' mu []) = true).
  { unfold is_partition_tuple in Hmu. rewrite forallb_forall in Hmu.
    apply Hmu. apply nth_In. lia. }
  assert (Hw := row_le_width (nth k' mu []) r' Hpart).
  assert (Hd := offset_decreasing mu k' k Hk ltac:(lia)). lia.
Qed.

(** An entry that ends its row among the entries up to [r] lies in a
    column at least as far as the entries up to [r] after it. *)
Lemma right_corner_col (r p q : nat) :
  q < p -> p < size mu ->
  nth q tab 0 <= r -> nth p tab 0 <= r ->
  (forall q', covers mu q q' -> r < nth q' tab 0) ->
  cell_col mu p <= cell_col mu q.
Proof.
  intros Hqp Hp Hq Hpr Hcorner.
  destruct (cell_exists mu q ltac:(lia)) as (k & rq & cq & Hcq).
  destruct (cell_exists mu p Hp) as (k' & rp & cp & Hcp).
  assert (Hlt := cells_sorted mu q p _ _ Hqp Hcq Hcp). cbn in Hlt.
  destruct Hlt as [Hk|[<- Hrc]].
  - apply Nat.lt_le_incl. eapply earlier_component_col; eassumption.
  - rewrite (cell_col_eq _ _ _ _ _ Hcq), (cell_col_eq _ _ _ _ _ Hcp).
    unfold col_index. cbn [fst snd].
    destruct (Nat.le_gt_cases cp cq) as [Hle|Hgt]; [lia|exfalso].
    assert (Hrow : rq <= rp) by lia.
    destruct (dominated _ p k rq (S cq) rp cp Hcp Hrow Hgt eq_refl) as (u & Hu & Hle).
    assert (H : r < nth u tab 0).
    { apply Hcorner. exists k, rq, cq. split; [assumption|now left]. }
    lia.
Qed.

(** Two cells with one column index lie in one column. *)
Lemma same_column (p q k r c k' r' c' : nat) :
  nth_error (cells mu) p = Some (k, r, c) ->
  nth_error (cells mu) q = Some (k', r', c') ->
  cell_col mu p = cell_col mu q -> k = k' /\ c = c'.
Proof.
  intros Hp Hq E.
  assert (Hk : k = k').
  { destruct (Nat.lt_trichotomy k k') as [Hlt|[Heq|Hgt]]; [exfalso|assumption|exfalso].
    - assert (H := earlier_component_col p q _ _ _ _ _ _ Hp Hq Hlt). lia.
    - assert (H := earlier_component_col q p _ _ _ _ _ _ Hq Hp Hgt). lia. }
  subst k'. split; [reflexivity|].
  rewrite (cell_col_eq _ _ _ _ _ Hp), (cell_col_eq _ _ _ _ _ Hq) in E.
  unfold col_index in E. cbn [fst snd] in E. lia.
Qed.

(** Down a column the entries increase. *)
Lemma column_increases (p q k r r' c : nat) :
  nth_error (cells mu) p = Some (k, r, c) ->
  nth_error (cells mu) q = Some (k, r', c) ->
  r < r' -> nth p tab 0 < nth q tab 0.
Proof.
  intros Hp Hq Hr.
  destruct (dominated _ q k r c r' c Hq ltac:(lia) ltac:(lia) eq_refl) as (u & Hu & Hle).
  assert (u = p) by (eapply cells_inj; eassumption). subst u.
  assert (Hne : p <> q).
  { intros ->. rewrite Hp in Hq. injection Hq as Hq. lia. }
  assert (Hpn := cell_position mu p _ _ _ Hp).
  assert (Hqn := cell_position mu q _ _ _ Hq).
  assert (H : nth p tab 0 <> nth q tab 0).
  { intros E. apply Hne. eapply Inv_injective; eassumption. }
  lia.
Qed.

End Standard.

(** ** Two standard tableau tuples of one shape *)

(** The entries above [v] lie in the same cells. *)
Definition agree_above (n v : nat) (tab tab' : list nat) : Prop :=
  forall p, p < n -> v < nth p tab 0 -> nth p tab' 0 = nth p tab 0.

Lemma agree_above_sym (mu : shape) (tab cols tab' cols' : list nat) (v : nat) :
  Inv mu tab cols -> Inv mu tab' cols' ->
  agree_above (size mu) v tab tab' -> agree_above (size mu) v tab' tab.
Proof.
  intros HT HU Hagree p Hp Hv.
  assert (Hent := Inv_entry mu tab' cols' HU p Hp).
  destruct (Inv_position mu tab cols HT (nth p tab' 0) Hent) as (q & Hq & Eq).
  assert (E := Hagree q Hq ltac:(lia)).
  assert (p = q).
  { apply (Inv_injective mu tab' cols' HU); try assumption. now rewrite E. }
  subst q. now symmetry.
Qed.

Section Two.
Variable mu : shape.
Hypothesis Hmu : is_partition_tuple mu = true.
Variables tab cols tab' cols' : list nat.
Hypothesis HT : Inv mu tab cols.
Hypothesis HU : Inv mu tab' cols'.

(** An entry with one column index in both, above which the two agree,
    lies in one cell. *)
Lemma same_cell (v p : nat) :
  agree_above (size mu) v tab tab' ->
  nth v cols 0 = nth v cols' 0 ->
  p < size mu -> nth p tab 0 = v -> nth p tab' 0 = v.
Proof.
  intros Hagree Hcol Hp Hv.
  assert (Hagree' := agree_above_sym mu tab cols tab' cols' v HT HU Hagree).
  assert (Hent := Inv_entry mu tab cols HT p Hp).
  destruct (Inv_position mu tab' cols' HU v ltac:(lia)) as (q & Hq & Eq).
  destruct (Nat.eq_dec p q) as [->|Hne]; [assumption|exfalso].
  destruct (cell_exists mu p Hp) as (k & r & c & Hcp).
  destruct (cell_exists mu q Hq) as (k' & r' & c' & Hcq).
  assert (Ecol : cell_col mu p = cell_col mu q).
  { destruct HT as (_ & _ & _ & HcT & _). destruct HU as (_ & _ & _ & HcU & _).
    rewrite <- (HcT p Hp), <- (HcU q Hq), Hv, Eq. exact Hcol. }
  destruct (same_column mu Hmu p q _ _ _ _ _ _ Hcp Hcq Ecol) as [<- <-].
  destruct (Nat.lt_trichotomy r r') as [Hlt|[Heq|Hgt]].
  - assert (H := column_increases mu Hmu tab cols HT p q k r r' c Hcp Hcq Hlt).
    assert (E := Hagree q Hq ltac:(lia)). lia.
  - subst r'. apply Hne. eapply cells_inj; eassumption.
  - assert (H := column_increases mu Hmu tab' cols' HU q p k r' r c Hcq Hcp Hgt).
    assert (E := Hagree' p Hp ltac:(lia)). lia.
Qed.

(** Where the column indices of the entries above [v] agree, so do their
    cells. *)
Lemma agree_down (v : nat) :
  (forall w, v < w -> w <= size mu -> nth w cols 0 = nth w cols' 0) ->
  agree_above (size mu) v tab tab'.
Proof.
  intros Hcols.
  assert (H : forall d w, w + d = size mu -> v <= w ->
                          agree_above (size mu) w tab tab').
  { induction d as [|d IH]; intros w Hw Hvw.
    - intros p Hp Hgt. assert (Hent := Inv_entry mu tab cols HT p Hp). lia.
    - intros p Hp Hgt.
      assert (Hagree := IH (S w) ltac:(lia) ltac:(lia)).
      destruct (Nat.eq_dec (nth p tab 0) (S w)) as [E|Hne].
      + rewrite E. apply (same_cell (S w) p Hagree); try assumption.
        apply Hcols; lia.
      + apply Hagree; [assumption|lia]. }
  destruct (Nat.le_gt_cases v (size mu)) as [Hle|Hgt].
  - apply (H (size mu - v) v); lia.
  - intros p Hp Hv. assert (Hent := Inv_entry mu tab cols HT p Hp). lia.
Qed.

End Two.

(** ** One turn, in full *)

Lemma advance_step (mu : shape) (s : state) :
  is_partition_tuple mu = true ->
  Inv mu (st_tab s) (st_cols s) ->
  descent s < length (st_cols s) ->
  exists ps s',
    advance mu (initial_mins mu) s = Ok (Some s') /\
    Inv mu (st_tab s') (st_cols s') /\
    2 <= descent s <= size mu /\ ps < size mu /\
    (forall j, 1 <= j < descent s -> nth (j - 1) (st_cols s) 0 <= nth j (st_cols s) 0) /\
    nth ps (st_tab s) 0 < descent s /\
    nth (descent s) (st_cols s) 0 < nth (nth ps (st_tab s) 0) (st_cols s) 0 /\
    (forall q, covers mu ps q -> descent s < nth q (st_tab s) 0) /\
    (forall q, q < size mu -> nth q (st_tab s) 0 < descent s ->
               nth (descent s) (st_cols s) 0 < nth (nth q (st_tab s) 0) (st_cols s) 0 ->
               q <= ps) /\
    nth ps (st_tab s') 0 = descent s /\
    (forall p, p < size mu -> descent s < nth p (st_tab s) 0 ->
               nth p (st_tab s') 0 = nth p (st_tab s) 0) /\
    (forall p q, p < q -> q < size mu ->
                 nth p (st_tab s') 0 < descent s -> nth q (st_tab s') 0 < descent s ->
                 nth p (st_tab s') 0 < nth q (st_tab s') 0) /\
    nth (descent s) (st_cols s') 0 = nth (nth ps (st_tab s) 0) (st_cols s) 0 /\
    (forall v, descent s < v -> v <= size mu ->
               nth v (st_cols s') 0 = nth v (st_cols s) 0).
Proof.
  intros Hmu HInv Hlt. destruct s as [tab cols]. cbn [st_tab st_cols] in *.
  unfold descent in *. unfold advance. cbn [st_tab st_cols] in *.
  assert (Hlen := Inv_length_tab mu tab cols HInv).
  assert (Hnd := Inv_NoDup mu tab cols HInv).
  destruct HInv as (Hperm & Hlc & Hc0 & Hcols & Hstd).
  assert (HInv : Inv mu tab cols) by (repeat split; assumption).
  destruct (find_descent_spec cols (length cols) 1) as (Hb & Hsorted & Hdesc);
    try lia.
  set (r := find_descent cols 1 (length cols)) in *.
  destruct (Nat.eqb_spec r (length cols)) as [E|Hne]; [lia|].
  specialize (Hdesc ltac:(lia)).
  assert (Hr2 : 2 <= r).
  { destruct (Nat.eq_dec r 1) as [E|]; [|lia].
    rewrite E in Hdesc. cbn [Nat.sub] in Hdesc. lia. }
  assert (Hrn : r <= size mu) by lia.
  destruct (max_row_found mu tab cols r Hmu HInv Hr2 Hrn Hdesc)
    as (ps & Hps & Hmax & Hs & Hgt & Hcorner & Hlast).
  rewrite Hmax. cbn [bind].
  rewrite index_nth by (assumption || lia). cbn [bind].
  rewrite setitem_ok by lia. cbn [bind].
  assert (Hent := Inv_entry mu tab cols HInv ps Hps).
  rewrite (getitem_ok cols (nth ps tab 0) (nth (nth ps tab 0) cols 0))
    by (apply nth_error_nth'; lia).
  cbn [bind].
  rewrite setitem_ok by lia. cbn [bind].
  destruct (fill_loop mu Hmu tab cols HInv r ps Hr2 Hrn Hps Hs Hcorner
                      (r - 1) 0 _ ltac:(lia)
                      (fill_start mu tab cols HInv r ps Hr2 Hrn Hps Hs))
    as ([[nt nc] ch] & Hrun & Hfill).
  rewrite Hrun. cbn [bind].
  assert (Hcases := nt_cases mu tab cols HInv r ps Hr2 Hrn Hps Hs nt nc ch Hfill).
  exists ps, (mkstate nt nc). cbn [st_tab st_cols].
  split; [reflexivity|].
  split; [eapply refilled_Inv; eassumption|].
  split; [lia|]. split; [assumption|]. split; [assumption|].
  split; [assumption|]. split; [assumption|]. split; [assumption|].
  split; [assumption|]. split; [|split; [|split; [|split]]].
  - destruct (Hcases ps Hps) as [(Hf & _)|[(_ & H)|(H & _)]]; [|assumption|congruence].
    unfold free in Hf. rewrite Nat.eqb_refl, andb_false_r in Hf. discriminate.
  - intros p Hp Hpr.
    destruct (Hcases p Hp) as [(Hf & _)|[(-> & _)|(_ & _ & H)]]; [|lia|assumption].
    unfold free in Hf. apply andb_true_iff in Hf. destruct Hf as [Hf _].
    apply Nat.leb_le in Hf. lia.
  - intros p q Hpq Hq Hpr Hqr.
    destruct (Hcases p ltac:(lia)) as [(Hfp & _ & Ep)|[(_ & H)|(_ & H & E)]]; try lia.
    destruct (Hcases q Hq) as [(Hfq & _ & Eq)|[(_ & H)|(_ & H & E)]]; try lia.
    rewrite Ep, Eq. apply -> Nat.succ_lt_mono. now apply rank_lt.
  - exact (refilled_descent mu tab cols r ps Hr2 Hrn Hps Hs nt nc ch Hfill).
  - intros v Hv Hvn.
    exact (refilled_above mu tab cols r ps Hr2 Hrn Hps Hs nt nc ch Hfill v Hv Hvn).
Qed.

(** ** The order of the tableaux *)

(** [cols] comes before [cols']: at the largest entry whose column indices
    differ, that of [cols] is smaller. *)
Definition word_lt (n : nat) (cols cols' : list nat) : Prop :=
  exists v, 1 <= v <= n /\ nth v cols 0 < nth v cols' 0 /\
            forall w, v < w -> w <= n -> nth w cols 0 = nth w cols' 0.

Section Order.
Variable mu : shape.
Hypothesis Hmu : is_partition_tuple mu = true.
Variables tab cols tab' cols' : list nat.
Hypothesis HT : Inv mu tab cols.
Hypothesis HU : Inv mu tab' cols'.

(** Column indices that never decrease up to [v] cannot be exceeded at
    [v]. *)
Lemma no_descent_largest (v : nat) :
  1 <= v <= size mu ->
  (forall j, 1 <= j <= v -> nth (j - 1) cols 0 <= nth j cols 0) ->
  (forall w, v < w -> w <= size mu -> nth w cols 0 = nth w cols' 0) ->
  nth v cols' 0 <= nth v cols 0.
Proof.
  intros Hv Hsorted Habove.
  assert (Hagree := agree_down mu Hmu tab cols tab' cols' HT HU v Habove).
  assert (Hmono : forall d a, a + d <= v -> nth a cols 0 <= nth (a + d) cols 0).
  { induction d as [|d IH]; intros a Ha; [rewrite Nat.add_0_r; lia|].
    specialize (IH a ltac:(lia)). specialize (Hsorted (a + S d) ltac:(lia)).
    replace (a + S d - 1) with (a + d) in Hsorted by lia. lia. }
  destruct (Inv_position mu tab' cols' HU v Hv) as (q & Hq & Eq).
  assert (Hle : nth q tab 0 <= v).
  { destruct (Nat.le_gt_cases (nth q tab 0) v) as [H|H]; [assumption|].
    specialize (Hagree q Hq H). lia. }
  destruct HT as (_ & _ & _ & HcT & _). destruct HU as (_ & _ & _ & HcU & _).
  rewrite <- Eq at 1. rewrite (HcU q Hq), <- (HcT q Hq).
  specialize (Hmono (v - nth q tab 0) (nth q tab 0) ltac:(lia)).
  now replace (nth q tab 0 + (v - nth q tab 0)) with v in Hmono by lia.
Qed.

(** Entries up to [m] that increase with the position are the first
    tableau of their cells. *)
Lemma position_ordered_least (m w : nat) :
  (forall p q, p < q -> q < size mu ->
               nth p tab 0 <= m -> nth q tab 0 <= m -> nth p tab 0 < nth q tab 0) ->
  1 <= w <= m -> w <= size mu ->
  (forall x, w < x -> x <= size mu -> nth x cols 0 = nth x cols' 0) ->
  nth w cols 0 <= nth w cols' 0.
Proof.
  intros Hord Hw Hwn Habove.
  assert (Hagree := agree_down mu Hmu tab cols tab' cols' HT HU w Habove).
  assert (Hagree' := agree_above_sym mu tab cols tab' cols' w HT HU Hagree).
  destruct (Inv_position mu tab cols HT w ltac:(lia)) as (p & Hp & Ep).
  destruct (Inv_position mu tab' cols' HU w ltac:(lia)) as (q & Hq & Eq).
  assert (HcT : nth w cols 0 = cell_col mu p).
  { destruct HT as (_ & _ & _ & H & _). now rewrite <- (H p Hp), Ep. }
  assert (HcU : nth w cols' 0 = cell_col mu q).
  { destruct HU as (_ & _ & _ & H & _). now rewrite <- (H q Hq), Eq. }
  rewrite HcT, HcU.
  destruct (Nat.eq_dec p q) as [->|Hne]; [lia|].
  assert (Hle : nth q tab 0 <= w).
  { destruct (Nat.le_gt_cases (nth q tab 0) w) as [H|H]; [assumption|].
    specialize (Hagree q Hq H). lia. }
  assert (Hlt : nth q tab 0 < w).
  { destruct (Nat.eq_dec (nth q tab 0) w) as [E|]; [|lia].
    exfalso. apply Hne. apply (Inv_injective mu tab cols HT); try assumption. lia. }
  assert (Hqp : q < p).
  { destruct (Nat.lt_trichotomy q p) as [H|[H|H]]; [assumption|congruence|].
    specialize (Hord p q H Hq ltac:(lia) ltac:(lia)). lia. }
  apply (right_corner_col mu Hmu tab' cols' HU w p q Hqp Hp); [lia| |].
  - destruct (Nat.le_gt_cases (nth p tab' 0) w) as [H|H]; [assumption|].
    specialize (Hagree' p Hp H). lia.
  - intros q' Hcov. destruct HU as (_ & _ & _ & _ & Hstd).
    specialize (Hstd q q' Hcov). lia.
Qed.

End Order.

Lemma last_difference (cols cols' : list nat) (n : nat) :
  (forall w, 1 <= w <= n -> nth w cols 0 = nth w cols' 0) \/
  (exists w, 1 <= w <= n /\ nth w cols 0 <> nth w cols' 0 /\
             forall x, w < x -> x <= n -> nth x cols 0 = nth x cols' 0).
Proof.
  induction n as [|n IH]; [left; intros w Hw; lia|].
  destruct (Nat.eq_dec (nth (S n) cols 0) (nth (S n) cols' 0)) as [E|Hne].
  - destruct IH as [IH|(w & Hw & Hne & Habove)].
    + left. intros w Hw. destruct (Nat.eq_dec w (S n)) as [->|]; [assumption|].
      apply IH. lia.
    + right. exists w. split; [lia|]. split; [assumption|].
      intros x Hx Hxn. destruct (Nat.eq_dec x (S n)) as [->|]; [assumption|].
      apply Habove; lia.
  - right. exists (S n). split; [lia|]. split; [assumption|]. intros x Hx Hxn. lia.
Qed.

(** Two standard tableau tuples with the same column indices are equal. *)
Lemma cols_determine (mu : shape) (tab cols tab' cols' : list nat) :
  is_partition_tuple mu = true ->
  Inv mu tab cols -> Inv mu tab' cols' ->
  (forall w, 1 <= w <= size mu -> nth w cols 0 = nth w cols' 0) ->
  tab = tab'.
Proof.
  intros Hmu HT HU Hcols.
  assert (Hagree : agree_above (size mu) 0 tab tab').
  { apply (agree_down mu Hmu tab cols tab' cols' HT HU). intros w Hw Hn.
    apply Hcols. lia. }
  apply nth_error_eq_lists. intros p.
  assert (HlT := Inv_length_tab mu tab cols HT).
  assert (HlU := Inv_length_tab mu tab' cols' HU).
  destruct (Nat.lt_ge_cases p (size mu)) as [Hp|Hp].
  - rewrite (nth_error_nth' tab 0), (nth_error_nth' tab' 0) by lia. f_equal.
    symmetry. apply Hagree; [assumption|].
    assert (Hent := Inv_entry mu tab cols HT p Hp). lia.
  - transitivity (@None nat); [|symmetry]; apply nth_error_None; lia.
Qed.

(** ** The next tableau

    A standard tableau tuple that comes after the current one is the next
    one or comes after it. *)
Lemma successor (mu : shape) (s : state) (tabu colsu : list nat) :
  is_partition_tuple mu = true ->
  Inv mu (st_tab s) (st_cols s) -> Inv mu tabu colsu ->
  word_lt (size mu) (st_cols s) colsu ->
  exists s', advance mu (initial_mins mu) s = Ok (Some s') /\
             Inv mu (st_tab s') (st_cols s') /\
             (st_tab s' = tabu \/ word_lt (size mu) (st_cols s') colsu).
Proof.
  intros Hmu HT HU (v & Hv & Hvlt & Habove).
  assert (Hlc : length (st_cols s) = S (size mu)) by (now destruct HT as (_ & H & _)).
  assert (Hrv : descent s <= v).
  { destruct (Nat.le_gt_cases (descent s) v) as [H|H]; [assumption|exfalso].
    unfold descent in H.
    destruct (find_descent_spec (st_cols s) (length (st_cols s)) 1)
      as (_ & Hsorted & _); try lia.
    assert (Hle := no_descent_largest mu Hmu _ _ _ _ HT HU v Hv
                     ltac:(intros j Hj; apply Hsorted; lia) Habove).
    lia. }
  destruct (advance_step mu s Hmu HT ltac:(lia))
    as (ps & s' & Hadv & HT' & Hr & Hps & Hsorted & Hs & Hgt & Hcorner & Hlast
        & Eps & Hkeep & Hord & Ecol & Hsame).
  exists s'. split; [assumption|]. split; [assumption|].
  set (r := descent s) in *.
  destruct (Nat.eq_dec r v) as [Erv|Hne].
  2:{ right. exists v. split; [assumption|]. split.
      - rewrite Hsame by lia. assumption.
      - intros w Hw Hwn. rewrite Hsame by lia. now apply Habove. }
  subst v.
  assert (Hagree := agree_down mu Hmu _ _ _ _ HT HU r Habove).
  assert (Hagree' := agree_above_sym mu _ _ _ _ r HT HU Hagree).
  destruct (Inv_position mu tabu colsu HU r Hv) as (q & Hq & Eq).
  assert (HcU : nth r colsu 0 = cell_col mu q).
  { destruct HU as (_ & _ & _ & H & _). now rewrite <- (H q Hq), Eq. }
  assert (HcT : forall p, p < size mu ->
                          nth (nth p (st_tab s) 0) (st_cols s) 0 = cell_col mu p).
  { now destruct HT as (_ & _ & _ & H & _). }
  assert (Hqle : nth q (st_tab s) 0 <= r).
  { destruct (Nat.le_gt_cases (nth q (st_tab s) 0) r) as [H|H]; [assumption|].
    specialize (Hagree q Hq H). lia. }
  assert (Hqlt : nth q (st_tab s) 0 < r).
  { destruct (Nat.eq_dec (nth q (st_tab s) 0) r) as [E|]; [|lia].
    exfalso. specialize (HcT q Hq). rewrite E in HcT. lia. }
  assert (Hqps : q <= ps).
  { apply Hlast; try assumption. rewrite (HcT q Hq). lia. }
  assert (Hle : nth r (st_cols s') 0 <= nth r colsu 0).
  { rewrite Ecol, (HcT ps Hps), HcU.
    destruct (Nat.eq_dec q ps) as [->|Hqne]; [lia|].
    apply (right_corner_col mu Hmu _ _ HT r ps q); try lia.
    intros q' Hcov.
    assert (H : nth q tabu 0 < nth q' tabu 0).
    { destruct HU as (_ & _ & _ & _ & Hstd). now apply Hstd. }
    destruct (covers_positions mu q q' Hcov) as [_ Hq'].
    rewrite (Hagree' q' Hq') by lia. lia. }
  destruct (Nat.eq_dec (nth r (st_cols s') 0) (nth r colsu 0)) as [Er|Hner].
  2:{ right. exists r. split; [assumption|]. split; [lia|].
      intros w Hw Hwn. rewrite Hsame by lia. now apply Habove. }
  assert (Hfrom : forall w, r <= w -> w <= size mu ->
                            nth w (st_cols s') 0 = nth w colsu 0).
  { intros w Hw Hwn. destruct (Nat.eq_dec w r) as [->|]; [assumption|].
    rewrite Hsame by lia. apply Habove; lia. }
  destruct (last_difference (st_cols s') colsu (r - 1)) as [Hall|(w & Hw & Hdiff & Hbetween)].
  - left. apply (cols_determine mu _ (st_cols s') _ colsu Hmu HT' HU).
    intros w Hw. destruct (Nat.le_gt_cases r w) as [H|H]; [apply Hfrom; lia|].
    apply Hall. lia.
  - right. exists w. split; [lia|].
    assert (Hup : forall x, w < x -> x <= size mu ->
                            nth x (st_cols s') 0 = nth x colsu 0).
    { intros x Hx Hxn. destruct (Nat.le_gt_cases r x) as [H|H]; [now apply Hfrom|].
      apply Hbetween; lia. }
    split; [|assumption].
    assert (H := position_ordered_least mu Hmu _ _ _ _ HT' HU (r - 1) w
                   ltac:(intros p q0 Hpq Hq0 Hp1 Hq1; apply Hord; lia)
                   ltac:(lia) ltac:(lia) Hup).
    lia.
Qed.

(** ** The run *)

Lemma Inv_cols_unique (mu : shape) (tab cols cols' : list nat) :
  Inv mu tab cols -> Inv mu tab cols' -> cols = cols'.
Proof.
  intros HT HT'.
  assert (Hpos := Inv_position mu tab cols HT).
  destruct HT as (_ & Hl & H0 & Hc & _). destruct HT' as (_ & Hl' & H0' & Hc' & _).
  apply (nth_ext _ _ 0 0); [lia|]. intros v Hv.
  destruct v as [|v]; [lia|].
  destruct (Hpos (S v) ltac:(lia)) as (p & Hp & E).
  rewrite <- E, (Hc p Hp), (Hc' p Hp). reflexivity.
Qed.

(** The first tableau is the least. *)
Lemma initial_least (mu : shape) (tabu colsu : list nat) :
  is_partition_tuple mu = true -> Inv mu tabu colsu ->
  seq 1 (size mu) = tabu \/ word_lt (size mu) (initial_cols mu) colsu.
Proof.
  intros Hmu HU. assert (HT := initial_Inv mu Hmu).
  destruct (last_difference (initial_cols mu) colsu (size mu))
    as [Hall|(w & Hw & Hdiff & Habove)].
  - left. exact (cols_determine mu _ _ _ _ Hmu HT HU Hall).
  - right. exists w. split; [assumption|]. split; [|assumption].
    assert (H := position_ordered_least mu Hmu _ _ _ _ HT HU (size mu) w).
    assert (Hle : nth w (initial_cols mu) 0 <= nth w colsu 0).
    { apply H; try lia; try assumption.
      intros p q Hpq Hq _ _. rewrite !seq_nth by lia. lia. }
    lia.
Qed.

Lemma advance_measure (mu : shape) (s s' : state) :
  is_partition_tuple mu = true ->
  Inv mu (st_tab s) (st_cols s) ->
  advance mu (initial_mins mu) s = Ok (Some s') ->
  Inv mu (st_tab s') (st_cols s') /\ measure mu s < measure mu s'.
Proof.
  intros Hmu HInv Hadv.
  destruct (advance_spec mu s Hmu HInv)
    as [[_ Hnone]|(_ & _ & s'' & Hadv' & HInv' & Hr & Hlt & Habove)]; [congruence|].
  rewrite Hadv in Hadv'. injection Hadv' as <-. split; [assumption|].
  destruct (Inv_digits mu _ _ HInv) as [Hl Hdig].
  destruct (Inv_digits mu _ _ HInv') as [Hl' Hdig'].
  unfold measure.
  apply (weight_lt (base mu) _ _ (descent s - 1)); try assumption.
  - lia.
  - rewrite !nth_tl. replace (S (descent s - 1)) with (descent s) by lia.
    exact Hlt.
  - intros j Hj.
    destruct (Nat.le_gt_cases (S j) (size mu)) as [Hle|Hgt].
    + rewrite !nth_tl. apply Habove; lia.
    + rewrite !nth_overflow by lia. reflexivity.
Qed.

Lemma run_enumerates (mu : shape) :
  is_partition_tuple mu = true ->
  forall (fuel : nat) (s : state) (yielded l : list state),
    run mu (initial_mins mu) fuel s yielded = Done l ->
    Inv mu (st_tab s) (st_cols s) ->
    Forall (fun x => Inv mu (st_tab x) (st_cols x)) yielded ->
    Forall (fun x => measure mu x <= measure mu s) yielded ->
    NoDup (map st_tab yielded) ->
    (forall tabu colsu, Inv mu tabu colsu ->
                        In tabu (map st_tab yielded) \/
                        word_lt (size mu) (st_cols s) colsu) ->
    Forall (fun x => Inv mu (st_tab x) (st_cols x)) l /\
    NoDup (map st_tab l) /\
    (forall tabu colsu, Inv mu tabu colsu -> In tabu (map st_tab l)).
Proof.
  intros Hmu. induction fuel as [|fuel IH];
    intros s yielded l Hrun HInv Hall Hmeas Hnd Hrest; [discriminate|].
  cbn [run] in Hrun.
  destruct (advance mu (initial_mins mu) s) as [[s'|]|e] eqn:Hadv; [| |discriminate].
  - destruct (advance_measure mu s s' Hmu HInv Hadv) as [HInv' Hlt].
    apply (IH s' (s' :: yielded) l Hrun HInv').
    + now constructor.
    + constructor; [lia|]. eapply Forall_impl; [|exact Hmeas].
      cbn. intros x Hx. lia.
    + cbn [map]. constructor; [|assumption].
      intros Hin. apply in_map_iff in Hin. destruct Hin as (x & Ex & Hx).
      rewrite Forall_forall in Hall, Hmeas.
      assert (HIx := Hall x Hx). rewrite Ex in HIx.
      assert (E := Inv_cols_unique mu _ _ _ HIx HInv').
      assert (Hm := Hmeas x Hx). unfold measure in Hm, Hlt. rewrite E in Hm. lia.
    + intros tabu colsu HU.
      destruct (Hrest tabu colsu HU) as [Hin|Hlt']; [left; now right|].
      destruct (successor mu s tabu colsu Hmu HInv HU Hlt')
        as (s'' & Hadv' & _ & Hnext).
      rewrite Hadv in Hadv'. injection Hadv' as <-.
      destruct Hnext as [E|Hlt'']; [left; left; exact E|right; exact Hlt''].
  - injection Hrun as <-. split; [now apply Forall_rev|]. split.
    + rewrite map_rev. apply NoDup_rev. exact Hnd.
    + intros tabu colsu HU.
      destruct (Hrest tabu colsu HU) as [Hin|Hlt'].
      * rewrite map_rev. now apply -> in_rev.
      * destruct (successor mu s tabu colsu Hmu HInv HU Hlt') as (s'' & Hadv' & _).
        congruence.
Qed.

(** ** The standard tableau tuples of a shape *)

(** [tab], cut along the rows of [mu], is a standard tableau tuple: it
    lists 1, ..., n, and the entries increase along the rows and down the
    columns. *)
Definition standard (mu : shape) (tab : list nat) : Prop :=
  Permutation tab (seq 1 (size mu)) /\
  forall p q, covers mu p q -> nth p tab 0 < nth q tab 0.

(** The column indices of the entries of [tab]. *)
Definition cols_of (mu : shape) (tab : list nat) : list nat :=
  map (fun v => match index tab v with
                | Ok p => cell_col mu p
                | Raise _ => 0
                end)
      (seq 0 (S (size mu))).

Lemma index_In (l : list nat) (v p : nat) : index l v = Ok p -> In v l.
Proof.
  unfold index, indexN. generalize 0.
  induction l as [|a t IH]; intros i E; [discriminate|].
  cbn [index_from] in E. destruct (Nat.eqb_spec a v) as [->|Hne]; [now left|].
  right. eapply IH. eassumption.
Qed.

Lemma standard_Inv (mu : shape) (tab : list nat) :
  standard mu tab -> Inv mu tab (cols_of mu tab).
Proof.
  intros [Hperm Hstd].
  assert (Hlen : length tab = size mu).
  { rewrite (Permutation_length Hperm). apply length_seq. }
  assert (Hnd : NoDup tab).
  { eapply Permutation_NoDup; [apply Permutation_sym; exact Hperm|apply seq_NoDup]. }
  split; [assumption|]. split; [|split; [|split; [|assumption]]].
  - unfold cols_of. now rewrite length_map, length_seq.
  - unfold cols_of. cbn [seq map nth].
    destruct (index tab 0) as [p|] eqn:E; [|reflexivity].
    exfalso. apply index_In in E.
    apply (Permutation_in _ Hperm) in E. apply in_seq in E. lia.
  - intros p Hp. unfold cols_of.
    assert (Hin : In (nth p tab 0) (seq 1 (size mu))).
    { apply (Permutation_in _ Hperm). apply nth_In. lia. }
    apply in_seq in Hin.
    set (f := fun v => match index tab v with
                       | Ok p => cell_col mu p
                       | Raise _ => 0
                       end).
    rewrite (nth_indep (map f _) 0 (f 0)) by (rewrite length_map, length_seq; lia).
    rewrite map_nth, seq_nth by lia. cbn [Nat.add]. unfold f.
    now rewrite index_nth by (assumption || lia).
Qed.

Lemma Inv_standard (mu : shape) (tab cols : list nat) :
  Inv mu tab cols -> standard mu tab.
Proof. intros (Hperm & _ & _ & _ & Hstd). now split. Qed.

(** The generator yields the standard tableau tuples of the shape, each
    once. *)
Lemma iter_enumerates (mu : shape) :
  is_partition_tuple mu = true ->
  exists (bound : nat) (l : list state),
    (forall fuel, bound <= fuel -> iter mu fuel = Done l) /\
    NoDup (map st_tab l) /\
    (forall tab, In tab (map st_tab l) <-> standard mu tab).
Proof.
  intros Hmu.
  destruct (iter_done mu Hmu) as (bound & l & Hiter & _).
  exists bound, l. split; [assumption|].
  assert (Hrun := Hiter bound (Nat.le_refl _)).
  unfold iter in Hrun. rewrite init_cols_mins_eq in Hrun.
  set (s0 := mkstate (seq 1 (size mu)) (initial_cols mu)) in *.
  assert (HInv := initial_Inv mu Hmu).
  destruct (run_enumerates mu Hmu bound s0 [s0] l Hrun HInv) as (Hall & Hnd & Hcomplete).
  - constructor; [assumption|constructor].
  - constructor; [lia|constructor].
  - cbn. constructor; [intros []|constructor].
  - intros tabu colsu HU. destruct (initial_least mu tabu colsu Hmu HU) as [E|Hlt].
    + left. left. exact E.
    + right. exact Hlt.
  - split; [assumption|]. intros tab. split.
    + intros Hin. apply in_map_iff in Hin. destruct Hin as (x & <- & Hx).
      rewrite Forall_forall in Hall. eapply Inv_standard. apply Hall. exact Hx.
    + intros Hstd. eapply Hcomplete. apply standard_Inv. exact Hstd.
Qed.

(** * Counting the standard tableau tuples *)

(** ** Orders of the cells

    A standard tableau tuple is an order in which the cells are filled: a
    cell comes after the cell to its left and the cell above it. *)

Abbreviation cell := (nat * nat * nat)%type.

Lemma cell_eq_dec (x y : cell) : {x = y} + {x <> y}.
Proof. repeat decide equality. Defined.

(** [y] is the cell to the right of or below [x]. *)
Definition covers_cell (x y : cell) : bool :=
  let '(k, r, c) := x in
  let '(k', r', c') := y in
  (k =? k') && (((r =? r') && (c' =? S c)) || ((r' =? S r) && (c =? c'))).

(** No cell of [D] is to the right of or below [x]. *)
Definition maximal (D : list cell) (x : cell) : bool :=
  forallb (fun y => negb (covers_cell x y)) D.

(** The orders of the cells [D], by the cell that comes last. *)
Fixpoint enum_le (fuel : nat) (D : list cell) : list (list cell) :=
  match fuel with
  | O => [[]]
  | S f =>
      flat_map (fun x => map (fun sigma => sigma ++ [x])
                             (enum_le f (remove cell_eq_dec x D)))
               (filter (maximal D) D)
  end.

Fixpoint count_le (fuel : nat) (D : list cell) : nat :=
  match fuel with
  | O => 1
  | S f => sum_list (map (fun x => count_le f (remove cell_eq_dec x D))
                         (filter (maximal D) D))
  end.

Lemma length_flat_map {A B : Type} (f : A -> list B) (l : list A) :
  length (flat_map f l) = sum_list (map (fun a => length (f a)) l).
Proof.
  induction l as [|a l IH]; [reflexivity|].
  cbn [flat_map map]. rewrite length_app, IH. reflexivity.
Qed.

Lemma length_enum_le (fuel : nat) :
  forall D, length (enum_le fuel D) = count_le fuel D.
Proof.
  induction fuel as [|f IH]; intros D; [reflexivity|].
  cbn [enum_le count_le]. rewrite length_flat_map. f_equal.
  apply map_ext. intros x. now rewrite length_map, IH.
Qed.

(** The cells in the order [sigma], the last one first: no cell comes
    before the cell to its left or the cell above it. *)
Fixpoint compatible (rsigma : list cell) : Prop :=
  match rsigma with
  | [] => True
  | x :: rest => (forall y, In y rest -> covers_cell x y = false) /\ compatible rest
  end.

Definition linear (D sigma : list cell) : Prop :=
  Permutation sigma D /\ compatible (rev sigma).

Lemma covers_cell_irrefl (x : cell) : covers_cell x x = false.
Proof.
  destruct x as [[k r] c]. cbn. rewrite Nat.eqb_refl. cbn.
  destruct (Nat.eqb_spec c (S c)); [lia|].
  destruct (Nat.eqb_spec r (S r)); [lia|]. now rewrite andb_false_r.
Qed.

Lemma remove_length (D : list cell) (x : cell) :
  NoDup D -> In x D -> S (length (remove cell_eq_dec x D)) = length D.
Proof.
  induction D as [|y D IH]; intros Hnd Hin; [destruct Hin|].
  inversion Hnd as [|? ? Hy Hnd']; subst. cbn [remove].
  destruct (cell_eq_dec x y) as [->|Hne].
  - rewrite notin_remove by assumption. reflexivity.
  - destruct Hin as [E|Hin]; [congruence|]. cbn [length]. now rewrite IH.
Qed.

Lemma remove_Permutation (D : list cell) (x : cell) :
  NoDup D -> In x D -> Permutation D (x :: remove cell_eq_dec x D).
Proof.
  induction D as [|y D IH]; intros Hnd Hin; [destruct Hin|].
  inversion Hnd as [|? ? Hy Hnd']; subst. cbn [remove].
  destruct (cell_eq_dec x y) as [->|Hne].
  - now rewrite notin_remove by assumption.
  - destruct Hin as [E|Hin]; [congruence|].
    rewrite (IH Hnd' Hin) at 1. apply perm_swap.
Qed.

Lemma remove_NoDup (D : list cell) (x : cell) :
  NoDup D -> NoDup (remove cell_eq_dec x D).
Proof.
  induction D as [|y D IH]; intros Hnd; [constructor|].
  inversion Hnd as [|? ? Hy Hnd']; subst. cbn [remove].
  destruct (cell_eq_dec x y) as [->|Hne]; [now apply IH|].
  constructor; [|now apply IH].
  intros Hin. apply in_remove in Hin. now destruct Hin.
Qed.

Lemma In_enum_le (fuel : nat) :
  forall D sigma, NoDup D -> length D = fuel ->
                  In sigma (enum_le fuel D) -> linear D sigma.
Proof.
  induction fuel as [|f IH]; intros D sigma Hnd Hlen Hin.
  - destruct D; [|discriminate]. destruct Hin as [<-|[]]. split; [constructor|exact I].
  - cbn [enum_le] in Hin. apply in_flat_map in Hin. destruct Hin as (x & Hx & Hin).
    apply filter_In in Hx. destruct Hx as [HxD Hmax].
    apply in_map_iff in Hin. destruct Hin as (sigma' & <- & Hin).
    assert (Hl := remove_length D x Hnd HxD).
    destruct (IH _ sigma' (remove_NoDup D x Hnd) ltac:(lia) Hin) as [Hperm Hcomp].
    split.
    + rewrite (remove_Permutation D x Hnd HxD).
      rewrite Permutation_app_comm. cbn. now constructor.
    + rewrite rev_app_distr. cbn [rev app compatible]. split; [|assumption].
      intros y Hy. apply in_rev in Hy. apply (Permutation_in _ Hperm) in Hy.
      apply in_remove in Hy. destruct Hy as [Hy _].
      unfold maximal in Hmax. rewrite forallb_forall in Hmax.
      specialize (Hmax y Hy). now apply negb_true_iff in Hmax.
Qed.

Lemma enum_le_In (fuel : nat) :
  forall D sigma, NoDup D -> length D = fuel ->
                  linear D sigma -> In sigma (enum_le fuel D).
Proof.
  induction fuel as [|f IH]; intros D sigma Hnd Hlen [Hperm Hcomp].
  - destruct D; [|discriminate]. apply Permutation_sym, Permutation_nil in Hperm.
    subst. now left.
  - assert (Hls : length sigma = S f) by (now rewrite (Permutation_length Hperm)).
    destruct (rev sigma) as [|x rsigma] eqn:Erev.
    { apply (f_equal (@length cell)) in Erev. rewrite length_rev in Erev.
      cbn in Erev. lia. }
    assert (Esigma : sigma = rev rsigma ++ [x]).
    { rewrite <- (rev_involutive sigma), Erev. reflexivity. }
    cbn [compatible] in Hcomp. destruct Hcomp as [Hx Hcomp].
    assert (HxD : In x D).
    { apply (Permutation_in _ Hperm). rewrite Esigma. apply in_or_app. right. now left. }
    cbn [enum_le]. apply in_flat_map. exists x. split.
    + apply filter_In. split; [assumption|].
      unfold maximal. apply forallb_forall. intros y Hy. apply negb_true_iff.
      apply (Permutation_in _ (Permutation_sym Hperm)) in Hy.
      rewrite Esigma in Hy. apply in_app_or in Hy. destruct Hy as [Hy|[<-|[]]].
      * apply Hx. now apply in_rev.
      * apply covers_cell_irrefl.
    + rewrite Esigma. apply in_map_iff. exists (rev rsigma). split; [reflexivity|].
      apply IH.
      * now apply remove_NoDup.
      * assert (Hl := remove_length D x Hnd HxD). lia.
      * split; [|now rewrite rev_involutive].
        apply (Permutation_cons_inv (a := x)).
        rewrite <- (remove_Permutation D x Hnd HxD), <- Hperm, Esigma.
        rewrite Permutation_app_comm. reflexivity.
Qed.

Lemma NoDup_flat_map {A B : Type} (f : A -> list B) (l : list A) :
  NoDup l -> (forall a, In a l -> NoDup (f a)) ->
  (forall a a' b, In a l -> In a' l -> In b (f a) -> In b (f a') -> a = a') ->
  NoDup (flat_map f l).
Proof.
  induction l as [|a l IH]; intros Hnd Hf Hdisj; [constructor|].
  inversion Hnd as [|? ? Ha Hnd']; subst. cbn [flat_map].
  apply NoDup_app.
  - apply Hf. now left.
  - apply IH; [assumption| |].
    + intros a' Ha'. apply Hf. now right.
    + intros a1 a2 b H1 H2. apply Hdisj; now right.
  - intros b Hb Hb'. apply in_flat_map in Hb'. destruct Hb' as (a' & Ha' & Hb').
    assert (a = a') by (eapply Hdisj; [now left|now right|eassumption|eassumption]).
    subst a'. contradiction.
Qed.

Lemma NoDup_enum_le (fuel : nat) :
  forall D, NoDup D -> NoDup (enum_le fuel D).
Proof.
  induction fuel as [|f IH]; intros D Hnd.
  - cbn. constructor; [intros []|constructor].
  - cbn [enum_le]. apply NoDup_flat_map.
    + now apply NoDup_filter.
    + intros x _. apply NoDup_map_NoDup_ForallPairs.
      * intros s s' _ _ E. now apply app_inj_tail in E.
      * apply IH. now apply remove_NoDup.
    + intros x x' sigma _ _ H H'.
      apply in_map_iff in H, H'.
      destruct H as (s & <- & _). destruct H' as (s' & E & _).
      apply app_inj_tail in E. now destruct E.
Qed.

(** ** Positions in a list *)

Fixpoint pos_in {A : Type} (dec : forall x y : A, {x = y} + {x <> y})
         (l : list A) (x : A) : nat :=
  match l with
  | [] => 0
  | y :: t => if dec y x then 0 else S (pos_in dec t x)
  end.

Section Positions.
Context {A : Type}.
Variable dec : forall x y : A, {x = y} + {x <> y}.
Variable d : A.

Lemma pos_in_lt (l : list A) (x : A) : In x l -> pos_in dec l x < length l.
Proof.
  induction l as [|y t IH]; intros Hin; [destruct Hin|].
  cbn. destruct (dec y x) as [_|Hne]; [lia|].
  destruct Hin as [E|Hin]; [congruence|]. specialize (IH Hin). lia.
Qed.

Lemma nth_pos_in (l : list A) (x : A) : In x l -> nth (pos_in dec l x) l d = x.
Proof.
  induction l as [|y t IH]; intros Hin; [destruct Hin|].
  cbn. destruct (dec y x) as [E|Hne]; [assumption|].
  destruct Hin as [E|Hin]; [congruence|]. now apply IH.
Qed.

Lemma pos_in_nth (l : list A) (i : nat) :
  NoDup l -> i < length l -> pos_in dec l (nth i l d) = i.
Proof.
  revert i. induction l as [|y t IH]; intros i Hnd Hi; [cbn in Hi; lia|].
  inversion Hnd as [|? ? Hy Hnd']; subst.
  destruct i as [|i]; cbn.
  - destruct (dec y y); [reflexivity|congruence].
  - destruct (dec y (nth i t d)) as [E|_].
    + exfalso. apply Hy. rewrite E. apply nth_In. cbn in Hi. lia.
    + f_equal. apply IH; [assumption|cbn in Hi; lia].
Qed.

End Positions.

Lemma compatible_rev (sigma : list cell) (d : cell) :
  compatible (rev sigma) <->
  forall i j, i < j -> j < length sigma ->
              covers_cell (nth j sigma d) (nth i sigma d) = false.
Proof.
  induction sigma as [|x sigma IH] using rev_ind.
  - cbn. split; [intros _ i j _ Hj; lia|trivial].
  - rewrite rev_app_distr. cbn [rev app compatible]. rewrite IH, length_app.
    cbn [length]. split.
    + intros [Hx Hrest] i j Hij Hj.
      destruct (Nat.eq_dec j (length sigma)) as [->|Hne].
      * rewrite app_nth2, Nat.sub_diag by lia. cbn [nth].
        rewrite app_nth1 by lia. apply Hx. apply -> in_rev. apply nth_In. lia.
      * rewrite !app_nth1 by lia. apply Hrest; lia.
    + intros H. split.
      * intros y Hy. apply in_rev in Hy.
        destruct (In_nth _ _ d Hy) as (i & Hi & <-).
        specialize (H i (length sigma) Hi ltac:(lia)).
        rewrite app_nth2, Nat.sub_diag in H by lia. cbn [nth] in H.
        now rewrite app_nth1 in H by lia.
      * intros i j Hij Hj. specialize (H i j Hij ltac:(lia)).
        now rewrite !app_nth1 in H by lia.
Qed.

(** ** The order in which a standard tableau tuple fills the cells *)

Lemma covers_cells (mu : shape) (p q : nat) (d : cell) :
  p < size mu -> q < size mu ->
  covers mu p q <-> covers_cell (nth p (cells mu) d) (nth q (cells mu) d) = true.
Proof.
  intros Hp Hq.
  destruct (cell_exists mu p Hp) as (k & r & c & Hcp).
  destruct (cell_exists mu q Hq) as (k' & r' & c' & Hcq).
  rewrite (nth_error_nth _ _ d Hcp), (nth_error_nth _ _ d Hcq). cbn [covers_cell].
  split.
  - intros (k0 & r0 & c0 & H0 & H1). rewrite Hcp in H0. injection H0 as <- <- <-.
    rewrite Hcq in H1. destruct H1 as [[= -> -> ->]|[= -> -> ->]];
      rewrite !Nat.eqb_refl; cbn; [reflexivity|now rewrite orb_true_r].
  - intros H. apply andb_true_iff in H. destruct H as [Hk H].
    apply Nat.eqb_eq in Hk. subst k'. exists k, r, c. split; [assumption|].
    apply orb_true_iff in H. destruct H as [H|H]; apply andb_true_iff in H;
      destruct H as [H1 H2]; apply Nat.eqb_eq in H1, H2; subst;
      [left|right]; assumption.
Qed.

(** The cell of 1, the cell of 2, ... *)
Definition sequence_of (mu : shape) (tab : list nat) : list cell :=
  map (fun v => nth (pos_in Nat.eq_dec tab v) (cells mu) (0, 0, 0)) (seq 1 (size mu)).

(** The entry of a cell is its place in the order. *)
Definition numbering_of (mu : shape) (sigma : list cell) : list nat :=
  map (fun x => S (pos_in cell_eq_dec sigma x)) (cells mu).

Lemma nth_map_lt {A B : Type} (f : A -> B) (l : list A) (i : nat) (d : B) (d' : A) :
  i < length l -> nth i (map f l) d = f (nth i l d').
Proof.
  intros Hi. rewrite (nth_indep _ d (f d')) by (now rewrite length_map).
  apply map_nth.
Qed.

Section Numbering.
Variable mu : shape.
Let d : cell := (0, 0, 0).

Lemma standard_facts (tab : list nat) :
  standard mu tab ->
  length tab = (size mu) /\ NoDup tab /\
  (forall p, p < (size mu) -> 1 <= nth p tab 0 <= (size mu)) /\
  (forall v, 1 <= v <= (size mu) -> In v tab).
Proof.
  intros [Hperm _].
  assert (Hlen : length tab = (size mu)).
  { rewrite (Permutation_length Hperm). apply length_seq. }
  split; [assumption|]. split; [|split].
  - eapply Permutation_NoDup; [apply Permutation_sym; exact Hperm|apply seq_NoDup].
  - intros p Hp.
    assert (Hin : In (nth p tab 0) (seq 1 (size mu))).
    { apply (Permutation_in _ Hperm). apply nth_In. lia. }
    apply in_seq in Hin. lia.
  - intros v Hv. apply (Permutation_in _ (Permutation_sym Hperm)). apply in_seq. lia.
Qed.

Lemma nth_sequence_of (tab : list nat) (p : nat) :
  standard mu tab -> p < (size mu) ->
  nth (nth p tab 0 - 1) (sequence_of mu tab) d = nth p (cells mu) d.
Proof.
  intros Hstd Hp. destruct (standard_facts tab Hstd) as (Hlen & Hnd & Hent & _).
  specialize (Hent p Hp). unfold sequence_of.
  rewrite (nth_map_lt _ _ _ _ 0) by (rewrite length_seq; lia).
  rewrite seq_nth by lia.
  replace (1 + (nth p tab 0 - 1)) with (nth p tab 0) by lia.
  now rewrite pos_in_nth by (assumption || lia).
Qed.

Lemma sequence_linear (tab : list nat) :
  standard mu tab -> linear (cells mu) (sequence_of mu tab).
Proof.
  intros Hstd. destruct (standard_facts tab Hstd) as (Hlen & Hnd & Hent & Hin).
  assert (Hperm := proj1 Hstd). assert (Hinc := proj2 Hstd).
  set (g := fun v => nth (pos_in Nat.eq_dec tab v) (cells mu) d).
  split.
  - unfold sequence_of. fold d. fold g.
    rewrite <- (Permutation_map g Hperm).
    replace (map g tab) with (cells mu); [reflexivity|].
    apply (nth_ext _ _ d d); [now rewrite length_map, length_cells, Hlen|].
    intros p Hp. rewrite length_cells in Hp. 
    rewrite (nth_map_lt _ _ _ _ 0) by lia. unfold g.
    now rewrite pos_in_nth by (assumption || lia).
  - apply (compatible_rev _ d). intros i j Hij Hj.
    unfold sequence_of in *. rewrite length_map, length_seq in Hj. 
    rewrite !(nth_map_lt _ _ _ _ 0) by (rewrite length_seq; lia).
    rewrite !seq_nth by lia. fold d.
    assert (Hpi := pos_in_lt Nat.eq_dec tab (1 + i) (Hin (1 + i) ltac:(lia))).
    assert (Hpj := pos_in_lt Nat.eq_dec tab (1 + j) (Hin (1 + j) ltac:(lia))).
    assert (Ei := nth_pos_in Nat.eq_dec 0 tab (1 + i) (Hin (1 + i) ltac:(lia))).
    assert (Ej := nth_pos_in Nat.eq_dec 0 tab (1 + j) (Hin (1 + j) ltac:(lia))).
    destruct (covers_cell _ _) eqn:E; [exfalso|reflexivity].
    apply (covers_cells mu) in E; [|lia|lia].
    apply Hinc in E. lia.
Qed.

Lemma sequence_injective (tab tab' : list nat) :
  standard mu tab -> standard mu tab' ->
  sequence_of mu tab = sequence_of mu tab' -> tab = tab'.
Proof.
  intros Hstd Hstd' E.
  destruct (standard_facts tab Hstd) as (Hlen & Hnd & Hent & _).
  destruct (standard_facts tab' Hstd') as (Hlen' & Hnd' & Hent' & _).
  assert (Hs : NoDup (sequence_of mu tab)).
  { eapply Permutation_NoDup; [|apply (NoDup_cells mu)].
    apply Permutation_sym. apply sequence_linear. assumption. }
  assert (Hls : length (sequence_of mu tab) = (size mu)).
  { unfold sequence_of. now rewrite length_map, length_seq. }
  apply (nth_ext _ _ 0 0); [lia|]. intros p Hp. rewrite Hlen in Hp.
  assert (H := nth_sequence_of tab p Hstd Hp).
  assert (H' := nth_sequence_of tab' p Hstd' Hp).
  rewrite <- E, <- H in H'.
  specialize (Hent p Hp). specialize (Hent' p Hp).
  apply (proj1 (NoDup_nth _ d) Hs) in H'; lia.
Qed.

Lemma numbering_standard (sigma : list cell) :
  linear (cells mu) sigma ->
  standard mu (numbering_of mu sigma) /\ sequence_of mu (numbering_of mu sigma) = sigma.
Proof.
  intros [Hperm Hcomp].
  assert (Hnd : NoDup sigma).
  { eapply Permutation_NoDup; [apply Permutation_sym; exact Hperm|apply NoDup_cells]. }
  assert (Hls : length sigma = (size mu)).
  { rewrite (Permutation_length Hperm). apply length_cells. }
  assert (Hin : forall p, p < (size mu) -> In (nth p (cells mu) d) sigma).
  { intros p Hp. apply (Permutation_in _ (Permutation_sym Hperm)).
    apply nth_In. now rewrite length_cells. }
  set (h := fun x => S (pos_in cell_eq_dec sigma x)).
  assert (Hnum : forall p, p < (size mu) ->
                           nth p (numbering_of mu sigma) 0 = h (nth p (cells mu) d)).
  { intros p Hp. unfold numbering_of. apply nth_map_lt. now rewrite length_cells. }
  assert (Hstd : standard mu (numbering_of mu sigma)).
  { split.
    - unfold numbering_of. fold h. rewrite <- (Permutation_map h Hperm).
      replace (map h sigma) with (seq 1 (size mu)); [reflexivity|].
      apply (nth_ext _ _ 0 0); [now rewrite length_map, length_seq|].
      intros i Hi. rewrite length_seq in Hi. 
      rewrite seq_nth by assumption.
      rewrite (nth_map_lt _ _ _ _ d) by lia. unfold h.
      now rewrite pos_in_nth by (assumption || lia).
    - intros p q Hcov. destruct (covers_positions mu p q Hcov) as [Hp Hq].
      rewrite !Hnum by assumption. unfold h.
      apply (covers_cells mu p q d Hp Hq) in Hcov.
      set (i := pos_in cell_eq_dec sigma (nth q (cells mu) d)).
      set (j := pos_in cell_eq_dec sigma (nth p (cells mu) d)).
      assert (Hi := pos_in_lt cell_eq_dec sigma _ (Hin q Hq)).
      assert (Hj := pos_in_lt cell_eq_dec sigma _ (Hin p Hp)).
      assert (Ei := nth_pos_in cell_eq_dec d sigma _ (Hin q Hq)).
      assert (Ej := nth_pos_in cell_eq_dec d sigma _ (Hin p Hp)).
      fold i in Hi, Ei. fold j in Hj, Ej.
      destruct (Nat.lt_trichotomy i j) as [Hlt|[Heq|Hgt]]; [exfalso|exfalso|lia].
      + assert (H := proj1 (compatible_rev sigma d) Hcomp i j Hlt Hj).
        rewrite Ei, Ej in H. congruence.
      + rewrite <- Ei, <- Ej, Heq, covers_cell_irrefl in Hcov. discriminate. }
  split; [assumption|].
  destruct (standard_facts _ Hstd) as (Hlen & Hndt & _ & _).
  apply (nth_ext _ _ d d).
  { unfold sequence_of. rewrite length_map, length_seq. now symmetry. }
  intros i Hi. unfold sequence_of in Hi. rewrite length_map, length_seq in Hi.
  
  assert (Hsi : In (nth i sigma d) (cells mu)).
  { apply (Permutation_in _ Hperm). apply nth_In. lia. }
  set (p0 := pos_in cell_eq_dec (cells mu) (nth i sigma d)).
  assert (Hp0 : p0 < (size mu)).
  { unfold p0. rewrite <- length_cells. now apply pos_in_lt. }
  assert (Ep0 : nth p0 (cells mu) d = nth i sigma d) by (now apply nth_pos_in).
  assert (Et : nth p0 (numbering_of mu sigma) 0 = S i).
  { rewrite (Hnum p0 Hp0), Ep0. unfold h. now rewrite pos_in_nth by (assumption || lia). }
  assert (H := nth_sequence_of _ p0 Hstd Hp0).
  rewrite Et in H. cbn [Nat.sub] in H. rewrite Nat.sub_0_r in H.
  now rewrite H.
Qed.

(** The standard tableau tuples of the shape are as many as the orders of
    its cells. *)
Lemma count_standard (L : list (list nat)) :
  NoDup L -> (forall tab, In tab L <-> standard mu tab) ->
  length L = count_le (size mu) (cells mu).
Proof.
  intros Hnd HL.
  rewrite <- length_enum_le, <- (length_map (sequence_of mu) L).
  apply Permutation_length. apply NoDup_Permutation.
  - apply NoDup_map_NoDup_ForallPairs; [|assumption].
    intros tab tab' Ht Ht' E. apply sequence_injective; try assumption; now apply HL.
  - apply NoDup_enum_le. apply NoDup_cells.
  - intros sigma. split.
    + intros Hin. apply in_map_iff in Hin. destruct Hin as (tab & <- & Hin).
      apply enum_le_In; [apply NoDup_cells|apply length_cells|].
      apply sequence_linear. now apply HL.
    + intros Hin. apply In_enum_le in Hin; [|apply NoDup_cells|apply length_cells].
      destruct (numbering_standard sigma Hin) as [Hstd E].
      apply in_map_iff. exists (numbering_of mu sigma). split; [assumption|].
      now apply HL.
Qed.

End Numbering.

(** ** Cells that lie in separate components *)

(** The number of orders of the cells [D]. *)
Definition orders (D : list cell) : nat := count_le (length D) D.

(** No cell of [A] is next to a cell of [B]. *)
Definition separate (A B : list cell) : Prop :=
  forall x y, In x A -> In y B -> covers_cell x y = false /\ covers_cell y x = false.

Lemma sum_list_map_mul {A : Type} (f : A -> nat) (k : nat) (l : list A) :
  sum_list (map (fun x => k * f x) l) = k * sum_list (map f l).
Proof.
  induction l as [|a l IH]; cbn; [lia|].
  unfold sum_list in *. cbn. rewrite IH. lia.
Qed.

Lemma sum_list_map_ext {A : Type} (f g : A -> nat) (l : list A) :
  (forall x, In x l -> f x = g x) -> sum_list (map f l) = sum_list (map g l).
Proof. intros H. f_equal. now apply map_ext_in. Qed.

Lemma fact_pos (n : nat) : 0 < fact n.
Proof. induction n as [|n IH]; cbn; lia. Qed.

Lemma maximal_app (A B : list cell) (x : cell) :
  maximal (A ++ B) x = maximal A x && maximal B x.
Proof. unfold maximal. apply forallb_app. Qed.

Lemma maximal_separate (A B : list cell) (x : cell) :
  (forall y, In y B -> covers_cell x y = false) -> maximal B x = true.
Proof.
  intros H. unfold maximal. apply forallb_forall. intros y Hy.
  apply negb_true_iff. now apply H.
Qed.

Lemma orders_step (D : list cell) (m : nat) :
  length D = S m ->
  orders D = sum_list (map (fun x => count_le m (remove cell_eq_dec x D))
                           (filter (maximal D) D)).
Proof. intros H. unfold orders. rewrite H. reflexivity. Qed.

Lemma separate_remove_l (A B : list cell) (x : cell) :
  separate A B -> separate (remove cell_eq_dec x A) B.
Proof. intros H a b Ha Hb. apply in_remove in Ha. apply H; tauto. Qed.

Lemma separate_remove_r (A B : list cell) (y : cell) :
  separate A B -> separate A (remove cell_eq_dec y B).
Proof. intros H a b Ha Hb. apply in_remove in Hb. apply H; tauto. Qed.

Lemma NoDup_app_remove_l (A B : list cell) (x : cell) :
  NoDup (A ++ B) -> NoDup (remove cell_eq_dec x A ++ B).
Proof.
  intros H. apply NoDup_app.
  - apply remove_NoDup. now apply NoDup_app_l in H.
  - now apply NoDup_app_r in H.
  - intros a Ha Hb. apply in_remove in Ha. destruct Ha as [Ha _].
    revert Hb. eapply NoDup_app_disjoint; eassumption.
Qed.

Lemma NoDup_app_remove_r' (A B : list cell) (y : cell) :
  NoDup (A ++ B) -> NoDup (A ++ remove cell_eq_dec y B).
Proof.
  intros H. apply NoDup_app.
  - now apply NoDup_app_l in H.
  - apply remove_NoDup. now apply NoDup_app_r in H.
  - intros a Ha Hb. apply in_remove in Hb. destruct Hb as [Hb _].
    revert Hb. eapply NoDup_app_disjoint; eassumption.
Qed.

Lemma sum_list_linear {A : Type} (F : nat -> nat) (g : A -> nat) (l : list A) :
  F 0 = 0 -> (forall a b, F (a + b) = F a + F b) ->
  F (sum_list (map g l)) = sum_list (map (fun x => F (g x)) l).
Proof.
  intros H0 Hadd. induction l as [|a l IH]; [exact H0|].
  cbn [map]. unfold sum_list in *. cbn [fold_right]. now rewrite Hadd, IH.
Qed.

(** The orders of two separate sets of cells are shuffled. *)
Lemma orders_app (n : nat) :
  forall A B, length A + length B = n -> NoDup (A ++ B) -> separate A B ->
              orders (A ++ B) * (fact (length A) * fact (length B))
              = fact n * (orders A * orders B).
Proof.
  induction n as [|m IH]; intros A B Hn Hnd Hsep.
  - destruct A; [|cbn in Hn; lia]. destruct B; [|cbn in Hn; lia]. reflexivity.
  - assert (HndA := NoDup_app_l _ _ Hnd). assert (HndB := NoDup_app_r _ _ Hnd).
    rewrite (orders_step (A ++ B) m) by (rewrite length_app; lia).
    rewrite filter_app, map_app, sum_list_app, Nat.mul_add_distr_r.
    assert (HA : sum_list (map (fun x => count_le m (remove cell_eq_dec x (A ++ B)))
                               (filter (maximal (A ++ B)) A))
                 * (fact (length A) * fact (length B))
                 = length A * (fact m * (orders A * orders B))).
    { destruct (length A) as [|a] eqn:Ea.
      { destruct A; [|discriminate]. reflexivity. }
      rewrite (orders_step A a Ea).
      rewrite (filter_ext_in (maximal (A ++ B)) (maximal A)).
      2:{ intros x Hx. rewrite maximal_app.
          rewrite (maximal_separate A B x), andb_true_r; [reflexivity|].
          intros y Hy. now apply (Hsep x y). }
      rewrite (sum_list_linear (fun s => s * (fact (S a) * fact (length B))))
        by (intros; lia).
      rewrite (sum_list_linear (fun s => S a * (fact m * (s * orders B))))
        by (intros; lia).
      apply sum_list_map_ext. intros x Hx. apply filter_In in Hx. destruct Hx as [Hx _].
      rewrite remove_app.
      rewrite (notin_remove cell_eq_dec B x)
        by (eapply NoDup_app_disjoint; eassumption).
      assert (Hl := remove_length A x HndA Hx).
      assert (H := IH (remove cell_eq_dec x A) B ltac:(lia)
                      (NoDup_app_remove_l A B x Hnd) (separate_remove_l A B x Hsep)).
      unfold orders in H at 1. rewrite length_app in H.
      replace (length (remove cell_eq_dec x A) + length B) with m in H by lia.
      replace (length (remove cell_eq_dec x A)) with a in H by lia.
      unfold orders in H at 1. replace (length (remove cell_eq_dec x A)) with a in H by lia.
      cbn [fact]. nia. }
    assert (HB : sum_list (map (fun x => count_le m (remove cell_eq_dec x (A ++ B)))
                               (filter (maximal (A ++ B)) B))
                 * (fact (length A) * fact (length B))
                 = length B * (fact m * (orders A * orders B))).
    { destruct (length B) as [|b] eqn:Eb.
      { destruct B; [|discriminate]. reflexivity. }
      rewrite (orders_step B b Eb).
      rewrite (filter_ext_in (maximal (A ++ B)) (maximal B)).
      2:{ intros x Hx. rewrite maximal_app.
          rewrite (maximal_separate B A x), andb_true_l; [reflexivity|].
          intros y Hy. now apply (Hsep y x). }
      rewrite (sum_list_linear (fun s => s * (fact (length A) * fact (S b))))
        by (intros; lia).
      rewrite (sum_list_linear (fun s => S b * (fact m * (orders A * s))))
        by (intros; lia).
      apply sum_list_map_ext. intros x Hx. apply filter_In in Hx. destruct Hx as [Hx _].
      rewrite remove_app.
      rewrite (notin_remove cell_eq_dec A x).
      2:{ intros HxA. revert Hx. eapply NoDup_app_disjoint; eassumption. }
      assert (Hl := remove_length B x HndB Hx).
      assert (H := IH A (remove cell_eq_dec x B) ltac:(lia)
                      (NoDup_app_remove_r' A B x Hnd) (separate_remove_r A B x Hsep)).
      unfold orders in H at 1. rewrite length_app in H.
      replace (length A + length (remove cell_eq_dec x B)) with m in H by lia.
      replace (length (remove cell_eq_dec x B)) with b in H by lia.
      unfold orders in H at 2. replace (length (remove cell_eq_dec x B)) with b in H by lia.
      cbn [fact]. nia. }
    rewrite HA, HB. cbn [fact]. nia.
Qed.

(** ** The components of a shape *)

Lemma covers_cell_component (x y : cell) :
  covers_cell x y = true -> fst (fst x) = fst (fst y).
Proof.
  destruct x as [[k r] c]. destruct y as [[k' r'] c']. cbn.
  intros H. apply andb_true_iff in H. destruct H as [H _]. now apply Nat.eqb_eq.
Qed.

Lemma separate_components (k : nat) (nu : list nat) (rest : shape) :
  separate (row_cells k 0 nu) (comp_cells (S k) rest).
Proof.
  intros x y Hx Hy.
  apply In_nth_error in Hx, Hy. destruct Hx as [p Hp]. destruct Hy as [q Hq].
  destruct x as [[kx rx] cx]. destruct y as [[ky ry] cy].
  apply row_cells_bounds in Hp. destruct Hp as (-> & _).
  apply comp_cells_bounds in Hq. destruct Hq as (Hk & _).
  split.
  - destruct (covers_cell _ _) eqn:E; [|reflexivity].
    apply covers_cell_component in E. cbn in E. lia.
  - destruct (covers_cell _ _) eqn:E; [|reflexivity].
    apply covers_cell_component in E. cbn in E. lia.
Qed.

(** The orders of the cells of a shape, from those of its components. *)
Lemma orders_components (mu : shape) :
  forall k,
    orders (comp_cells k mu) * prod_list (map (fun nu => fact (psize nu)) mu)
    = fact (size mu)
      * prod_list (map (fun p => orders (row_cells (fst p) 0 (snd p)))
                       (combine (seq k (length mu)) mu)).
Proof.
  induction mu as [|nu rest IH]; intros k; [reflexivity|].
  cbn [comp_cells length seq combine map prod_list fold_right fst snd].
  fold (prod_list (map (fun nu => fact (psize nu)) rest)).
  fold (prod_list (map (fun p => orders (row_cells (fst p) 0 (snd p)))
                       (combine (seq (S k) (length rest)) rest))).
  assert (H := orders_app (size (nu :: rest)) (row_cells k 0 nu) (comp_cells (S k) rest)).
  rewrite length_row_cells, length_comp_cells in H.
  specialize (H ltac:(rewrite size_cons; lia)
                (NoDup_comp_cells k (nu :: rest)) (separate_components k nu rest)).
  specialize (IH (S k)).
  assert (Hpos := fact_pos (size rest)).
  apply (Nat.mul_cancel_l _ _ (fact (size rest))); [lia|].
  set (oA := orders (row_cells k 0 nu)) in *.
  set (oB := orders (comp_cells (S k) rest)) in *.
  set (oAB := orders (row_cells k 0 nu ++ comp_cells (S k) rest)) in *.
  set (P := prod_list (map (fun nu => fact (psize nu)) rest)) in *.
  set (R := prod_list (map _ (combine (seq (S k) (length rest)) rest))) in *.
  transitivity (oAB * (fact (psize nu) * fact (size rest)) * P); [ring|].
  rewrite H.
  transitivity (fact (size (nu :: rest)) * oA * (oB * P)); [ring|].
  rewrite IH. ring.
Qed.

(** * The hook length formula *)

(** ** Partitions, row by row *)

(** The rows are positive and weakly decreasing. *)
Definition partition (nu : list nat) : Prop :=
  (forall i, i < length nu -> 0 < nth i nu 0) /\
  (forall i, nth (S i) nu 0 <= nth i nu 0).

Lemma is_partition_partition (nu : list nat) :
  is_partition nu = true <-> partition nu.
Proof.
  unfold is_partition, partition. rewrite andb_true_iff, forallb_forall. split.
  - intros [Hpos Hwd]. split.
    + intros i Hi. apply Nat.ltb_lt. apply Hpos. now apply nth_In.
    + clear Hpos. induction nu as [|a rest IH]; intros i; [destruct i; cbn; lia|].
      apply weakly_decreasing_cons in Hwd. destruct Hwd as [Hwd Hall].
      destruct i as [|i]; cbn [nth]; [|now apply IH].
      destruct rest as [|b rest]; [cbn; lia|]. cbn [nth].
      now inversion Hall.
  - intros [Hpos Hdec]. split.
    + intros a Ha. apply Nat.ltb_lt. destruct (In_nth nu a 0 Ha) as (i & Hi & <-).
      now apply Hpos.
    + clear Hpos. induction nu as [|a rest IH]; [reflexivity|].
      destruct rest as [|b rest]; [reflexivity|].
      change (weakly_decreasing (a :: b :: rest))
        with ((b <=? a) && weakly_decreasing (b :: rest)).
      apply andb_true_iff. split.
      * apply Nat.leb_le. exact (Hdec 0).
      * apply IH. intros i. exact (Hdec (S i)).
Qed.

Lemma partition_mono (nu : list nat) (i i' : nat) :
  partition nu -> i <= i' -> nth i' nu 0 <= nth i nu 0.
Proof.
  intros [_ Hdec] Hle. induction Hle as [|i' Hle IH]; [lia|].
  specialize (Hdec i'). lia.
Qed.

Lemma partition_row (nu : list nat) (i c : nat) :
  c < nth i nu 0 -> i < length nu.
Proof.
  intros H. destruct (Nat.lt_ge_cases i (length nu)) as [Hlt|Hge]; [assumption|].
  rewrite nth_overflow in H by assumption. lia.
Qed.

(** The length of column [j]: the number of rows longer than [j]. *)
Definition colen (nu : list nat) (j : nat) : nat :=
  length (filter (fun l => j <? l) nu).

Lemma colen_spec (nu : list nat) (i j : nat) :
  partition nu -> (i < colen nu j <-> j < nth i nu 0).
Proof.
  unfold colen. revert i. induction nu as [|a rest IH]; intros i Hpart.
  - cbn. destruct i; cbn; lia.
  - assert (Hrest : partition rest).
    { destruct Hpart as [Hpos Hdec]. split.
      - intros k Hk. apply (Hpos (S k)). cbn. lia.
      - intros k. exact (Hdec (S k)). }
    cbn [filter]. destruct (Nat.ltb_spec j a) as [Hj|Hj].
    + destruct i as [|i]; cbn [length nth]; [lia|].
      rewrite <- (IH i Hrest). lia.
    + assert (E : filter (fun l => j <? l) rest = []).
      { destruct rest as [|b rest']; [reflexivity|].
        destruct (filter _ (b :: rest')) as [|x l] eqn:Ef; [reflexivity|exfalso].
        assert (Hx : In x (filter (fun l => j <? l) (b :: rest')))
          by (rewrite Ef; now left).
        apply filter_In in Hx. destruct Hx as [Hx Hjx]. apply Nat.ltb_lt in Hjx.
        destruct (In_nth _ _ 0 Hx) as (k & Hk & Ek).
        assert (H := partition_mono (a :: b :: rest') 0 (S k) Hpart ltac:(lia)).
        cbn [nth] in H. cbn [nth] in Ek. lia. }
      rewrite E. cbn [length].
      assert (H := partition_mono (a :: rest) 0 i Hpart ltac:(lia)).
      change (nth 0 (a :: rest) 0) with a in H. lia.
Qed.

Lemma filter_all {A : Type} (f : A -> bool) (l : list A) :
  (forall x, In x l -> f x = true) -> filter f l = l.
Proof.
  induction l as [|a l IH]; intros H; [reflexivity|].
  cbn. rewrite (H a) by (now left). f_equal. apply IH. intros x Hx. apply H. now right.
Qed.

(** The rows below a cell that reach its column. *)
Lemma leg_colen (nu : list nat) (i j : nat) :
  partition nu -> j < nth i nu 0 ->
  length (filter (fun l => j <? l) (skipn (S i) nu)) + S i = colen nu j.
Proof.
  intros Hpart Hj. unfold colen.
  assert (Hi := partition_row nu i j Hj).
  rewrite <- (firstn_skipn (S i) nu) at 2. rewrite filter_app, length_app.
  rewrite (filter_all _ (firstn (S i) nu)).
  - rewrite length_firstn. lia.
  - intros x Hx. apply Nat.ltb_lt.
    destruct (In_nth _ _ 0 Hx) as (k & Hk & <-).
    rewrite length_firstn in Hk.
    rewrite nth_firstn. destruct (Nat.ltb_spec k (S i)) as [Hlt|Hge]; [|lia].
    assert (Hm := partition_mono nu k i Hpart ltac:(lia)). lia.
Qed.

Lemma hook_eq (nu : list nat) (i j : nat) :
  partition nu -> j < nth i nu 0 ->
  hook nu i j + i + j + 1 = nth i nu 0 + colen nu j.
Proof.
  intros Hpart Hj. unfold hook. assert (H := leg_colen nu i j Hpart Hj). lia.
Qed.

Lemma colen_unique (nu : list nat) (j m : nat) :
  partition nu -> (forall i, i < m <-> j < nth i nu 0) -> colen nu j = m.
Proof.
  intros Hpart Hm.
  destruct (Nat.lt_trichotomy (colen nu j) m) as [Hlt|[Heq|Hgt]]; [exfalso|assumption|exfalso].
  - assert (H := proj1 (Hm (colen nu j)) Hlt).
    apply (colen_spec nu _ j Hpart) in H. lia.
  - assert (H := proj1 (colen_spec nu m j Hpart) Hgt).
    apply Hm in H. lia.
Qed.

(** ** Corners *)

(** Row [r] ends in a corner: the row below is shorter. *)
Definition corner_rows (nu : list nat) : list nat :=
  filter (fun r => nth (S r) nu 0 <? nth r nu 0) (seq 0 (length nu)).

Lemma In_corner_rows (nu : list nat) (r : nat) :
  In r (corner_rows nu) <-> nth (S r) nu 0 < nth r nu 0.
Proof.
  unfold corner_rows. rewrite filter_In, in_seq, Nat.ltb_lt. split; [tauto|].
  intros H. split; [|assumption]. split; [lia|].
  cbn. eapply partition_row. eassumption.
Qed.

Lemma colen_corner (nu : list nat) (r : nat) :
  partition nu -> nth (S r) nu 0 < nth r nu 0 -> colen nu (nth r nu 0 - 1) = S r.
Proof.
  intros Hpart Hr. apply colen_unique; [assumption|]. intros i. split.
  - intros Hi. assert (H := partition_mono nu i r Hpart ltac:(lia)). lia.
  - intros Hi. destruct (Nat.lt_ge_cases i (S r)) as [Hlt|Hge]; [assumption|].
    assert (H := partition_mono nu (S r) i Hpart Hge). lia.
Qed.

(** The partition without the corner of row [r]. *)
Definition dec (nu : list nat) (r : nat) : list nat :=
  if nth r nu 0 =? 1 then firstn r nu else set_nth nu r (nth r nu 0 - 1).

Section Dec.
Variable nu : list nat.
Variable r : nat.
Hypothesis Hpart : partition nu.
Hypothesis Hr : nth (S r) nu 0 < nth r nu 0.

Lemma corner_row_lt : r < length nu.
Proof. eapply partition_row. eassumption. Qed.

Lemma nth_dec (i : nat) :
  nth i (dec nu r) 0 = if i =? r then nth r nu 0 - 1 else nth i nu 0.
Proof.
  assert (Hlt := corner_row_lt). unfold dec.
  destruct (Nat.eqb_spec (nth r nu 0) 1) as [E|Hne].
  - rewrite nth_firstn. destruct (Nat.ltb_spec i r) as [Hi|Hi].
    + destruct (Nat.eqb_spec i r); [lia|reflexivity].
    + destruct (Nat.eqb_spec i r) as [E'|Hne]; [lia|].
      assert (H := partition_mono nu (S r) i Hpart ltac:(lia)). lia.
  - rewrite nth_set_nth by assumption.
    destruct (Nat.eqb_spec r i) as [E'|Hne']; destruct (Nat.eqb_spec i r) as [E''|Hne''];
      try lia; reflexivity.
Qed.

Lemma length_dec : length (dec nu r) <= length nu.
Proof.
  unfold dec. destruct (nth r nu 0 =? 1).
  - rewrite length_firstn. lia.
  - now rewrite length_set_nth.
Qed.

Lemma partition_dec : partition (dec nu r).
Proof.
  assert (Hlt := corner_row_lt). destruct Hpart as [Hpos Hdec]. split.
  - intros i Hi. rewrite nth_dec. unfold dec in Hi.
    destruct (Nat.eqb_spec (nth r nu 0) 1) as [E|Hne].
    + rewrite length_firstn in Hi. destruct (Nat.eqb_spec i r); [lia|].
      apply Hpos. lia.
    + rewrite length_set_nth in Hi. destruct (Nat.eqb_spec i r) as [E|]; [|now apply Hpos].
      specialize (Hpos r Hlt). lia.
  - intros i. rewrite !nth_dec.
    destruct (Nat.eqb_spec (S i) r) as [E|Hne]; destruct (Nat.eqb_spec i r) as [E'|Hne'];
      try lia.
    + rewrite <- E. specialize (Hdec i). lia.
    + rewrite E'. lia.
    + apply Hdec.
Qed.

Lemma colen_dec (j : nat) :
  colen (dec nu r) j = if j =? nth r nu 0 - 1 then colen nu j - 1 else colen nu j.
Proof.
  apply (colen_unique _ _ _ partition_dec). intros i. rewrite nth_dec.
  destruct (Nat.eqb_spec j (nth r nu 0 - 1)) as [->|Hne].
  - rewrite (colen_corner nu r Hpart Hr).
    destruct (Nat.eqb_spec i r) as [E|Hne]; [lia|].
    rewrite <- (colen_spec nu i _ Hpart), (colen_corner nu r Hpart Hr). lia.
  - destruct (Nat.eqb_spec i r) as [E|Hne'].
    + rewrite E, (colen_spec nu r j Hpart). lia.
    + apply colen_spec. assumption.
Qed.

(** Only the hooks of the row and of the column of the corner change. *)
Lemma hook_dec (i j : nat) :
  j < nth i (dec nu r) 0 ->
  hook (dec nu r) i j + (if i =? r then 1 else 0)
  + (if j =? nth r nu 0 - 1 then 1 else 0) = hook nu i j.
Proof.
  intros Hj. assert (H := hook_eq _ i j partition_dec Hj).
  rewrite nth_dec in Hj, H. rewrite colen_dec in H.
  assert (Hj' : j < nth i nu 0).
  { destruct (Nat.eqb_spec i r) as [E|Hne]; [rewrite E; lia|lia]. }
  assert (H' := hook_eq nu i j Hpart Hj').
  assert (Hc := proj2 (colen_spec nu i j Hpart) Hj').
  destruct (Nat.eqb_spec i r) as [E|Hne]; [rewrite E in *|];
    destruct (Nat.eqb_spec j (nth r nu 0 - 1)) as [E'|Hne']; lia.
Qed.

End Dec.

(** ** The cells of a partition *)

Lemma In_row_cells (k r0 : nat) (nu : list nat) (k' r c : nat) :
  In (k', r, c) (row_cells k r0 nu) <-> k' = k /\ r0 <= r /\ c < nth (r - r0) nu 0.
Proof.
  revert r0. induction nu as [|len rest IH]; intros r0.
  - cbn. split; [tauto|]. intros (_ & _ & H). destruct (r - r0); cbn in H; lia.
  - cbn [row_cells]. rewrite in_app_iff, in_map_iff, IH. split.
    + intros [(c0 & E & Hc0)|(-> & Hr & Hc)].
      * injection E as <- <- <-. apply in_seq in Hc0.
        rewrite Nat.sub_diag. cbn. repeat split; lia.
      * repeat split; try lia.
        replace (r - r0) with (S (r - S r0)) by lia. exact Hc.
    + intros (-> & Hr & Hc). destruct (Nat.eq_dec r r0) as [->|Hne].
      * left. exists c. rewrite Nat.sub_diag in Hc. cbn in Hc.
        split; [reflexivity|]. apply in_seq. lia.
      * right. repeat split; try lia.
        replace (r - r0) with (S (r - S r0)) in Hc by lia. exact Hc.
Qed.

Lemma In_partition_cells (k : nat) (nu : list nat) (k' r c : nat) :
  In (k', r, c) (row_cells k 0 nu) <-> k' = k /\ c < nth r nu 0.
Proof. rewrite In_row_cells, Nat.sub_0_r. split; intros H; repeat split; try tauto; lia. Qed.

Lemma psize_cells (k : nat) (nu : list nat) : length (row_cells k 0 nu) = psize nu.
Proof. apply length_row_cells. Qed.

(** The cell that nothing follows is the corner of its row. *)
Lemma maximal_corner (k : nat) (nu : list nat) (r c : nat) :
  partition nu -> c < nth r nu 0 ->
  maximal (row_cells k 0 nu) (k, r, c) = true <->
  nth (S r) nu 0 < nth r nu 0 /\ c = nth r nu 0 - 1.
Proof.
  intros Hpart Hc. unfold maximal. rewrite forallb_forall. split.
  - intros H.
    assert (Hright : ~ S c < nth r nu 0).
    { intros Hlt. specialize (H (k, r, S c)).
      rewrite In_partition_cells in H. specialize (H (conj eq_refl Hlt)).
      cbn in H. rewrite !Nat.eqb_refl in H. discriminate. }
    assert (Hbelow : ~ c < nth (S r) nu 0).
    { intros Hlt. specialize (H (k, S r, c)).
      rewrite In_partition_cells in H. specialize (H (conj eq_refl Hlt)).
      cbn in H. rewrite !Nat.eqb_refl in H. cbn in H.
      rewrite orb_true_r in H. discriminate. }
    lia.
  - intros [Hr ->] [[k' r'] c'] Hin. apply In_partition_cells in Hin.
    destruct Hin as [-> Hc']. apply negb_true_iff. cbn.
    rewrite Nat.eqb_refl. cbn.
    destruct (Nat.eqb_spec r r') as [<-|Hne]; cbn.
    + destruct (Nat.eqb_spec c' (S (nth r nu 0 - 1))) as [->|]; cbn; [lia|].
      destruct (Nat.eqb_spec r (S r)); [lia|reflexivity].
    + destruct (Nat.eqb_spec r' (S r)) as [->|]; cbn; [|reflexivity].
      destruct (Nat.eqb_spec (nth r nu 0 - 1) c') as [<-|]; [lia|reflexivity].
Qed.

Lemma sum_list_Permutation (l l' : list nat) :
  Permutation l l' -> sum_list l = sum_list l'.
Proof.
  unfold sum_list. induction 1; cbn; lia.
Qed.

Lemma Permutation_remove (D D' : list cell) (x : cell) :
  Permutation D D' -> Permutation (remove cell_eq_dec x D) (remove cell_eq_dec x D').
Proof.
  induction 1 as [|y l l' _ IH|y z l|l l' l'' _ IH1 _ IH2]; cbn [remove].
  - constructor.
  - destruct (cell_eq_dec x y); [assumption|now constructor].
  - destruct (cell_eq_dec x y), (cell_eq_dec x z); try reflexivity. apply perm_swap.
  - now transitivity (remove cell_eq_dec x l').
Qed.

Lemma Permutation_filter {A : Type} (f : A -> bool) (l l' : list A) :
  Permutation l l' -> Permutation (filter f l) (filter f l').
Proof.
  induction 1 as [|y l l' _ IH|y z l|l l' l'' _ IH1 _ IH2]; cbn [filter].
  - constructor.
  - destruct (f y); [now constructor|assumption].
  - destruct (f y), (f z); try reflexivity. apply perm_swap.
  - now transitivity (filter f l').
Qed.

Lemma maximal_Permutation (D D' : list cell) (x : cell) :
  Permutation D D' -> maximal D x = maximal D' x.
Proof.
  intros H. unfold maximal. apply eq_true_iff_eq. rewrite !forallb_forall.
  split; intros Hall y Hy; apply Hall.
  - now apply (Permutation_in _ (Permutation_sym H)).
  - now apply (Permutation_in _ H).
Qed.

(** The number of orders does not depend on how the cells are listed. *)
Lemma count_le_Permutation (fuel : nat) :
  forall D D', Permutation D D' -> count_le fuel D = count_le fuel D'.
Proof.
  induction fuel as [|f IH]; intros D D' H; [reflexivity|].
  cbn [count_le].
  rewrite (filter_ext (maximal D) (maximal D'))
    by (intros x; now apply maximal_Permutation).
  rewrite (sum_list_Permutation _ _
             (Permutation_map _ (Permutation_filter (maximal D') D D' H))).
  apply sum_list_map_ext. intros x _. apply IH. now apply Permutation_remove.
Qed.

Section Corners.
Variable k : nat.
Variable nu : list nat.
Hypothesis Hpart : partition nu.

Let D := row_cells k 0 nu.

Lemma removed_corner (r : nat) :
  nth (S r) nu 0 < nth r nu 0 ->
  Permutation (remove cell_eq_dec (k, r, nth r nu 0 - 1) D) (row_cells k 0 (dec nu r)).
Proof.
  intros Hr. apply NoDup_Permutation.
  - apply remove_NoDup. apply NoDup_row_cells.
  - apply NoDup_row_cells.
  - intros [[k' r'] c']. rewrite In_partition_cells, (nth_dec nu r Hpart Hr). split.
    + intros Hin. apply in_remove in Hin. destruct Hin as [Hin Hne].
      apply In_partition_cells in Hin. destruct Hin as [-> Hc]. split; [reflexivity|].
      destruct (Nat.eqb_spec r' r) as [->|Hne']; [|assumption].
      destruct (Nat.eq_dec c' (nth r nu 0 - 1)) as [->|]; [congruence|lia].
    + intros [-> Hc]. apply in_in_remove.
      * intros [= -> ->]. rewrite Nat.eqb_refl in Hc. lia.
      * apply In_partition_cells. split; [reflexivity|].
        destruct (Nat.eqb_spec r' r) as [->|]; lia.
Qed.

Lemma psize_dec (r : nat) :
  nth (S r) nu 0 < nth r nu 0 -> S (psize (dec nu r)) = psize nu.
Proof.
  intros Hr. rewrite <- (psize_cells k), <- (psize_cells k nu).
  rewrite <- (Permutation_length (removed_corner r Hr)).
  apply remove_length; [apply NoDup_row_cells|].
  apply In_partition_cells. split; [reflexivity|lia].
Qed.

Lemma maximal_cells :
  Permutation (filter (maximal D) D)
              (map (fun r => (k, r, nth r nu 0 - 1)) (corner_rows nu)).
Proof.
  apply NoDup_Permutation.
  - apply NoDup_filter. apply NoDup_row_cells.
  - apply NoDup_map_NoDup_ForallPairs.
    + intros r r' _ _ E. now injection E.
    + apply NoDup_filter. apply seq_NoDup.
  - intros [[k' r] c]. rewrite filter_In, in_map_iff. split.
    + intros [Hin Hmax]. apply In_partition_cells in Hin. destruct Hin as [-> Hc].
      apply (maximal_corner k nu r c Hpart Hc) in Hmax. destruct Hmax as [Hr ->].
      exists r. split; [reflexivity|]. now apply In_corner_rows.
    + intros (r0 & [= <- <- <-] & Hr0). apply In_corner_rows in Hr0.
      assert (Hc : nth r0 nu 0 - 1 < nth r0 nu 0) by lia. split.
      * apply In_partition_cells. now split.
      * apply (maximal_corner k nu r0 _ Hpart Hc). now split.
Qed.

(** The orders of the cells of a partition, by the corner filled last. *)
Lemma orders_corners (m : nat) :
  psize nu = S m ->
  orders D = sum_list (map (fun r => orders (row_cells k 0 (dec nu r)))
                           (corner_rows nu)).
Proof.
  intros Hsize.
  rewrite (orders_step D m) by (unfold D; now rewrite psize_cells).
  rewrite (sum_list_Permutation _ _ (Permutation_map _ maximal_cells)).
  rewrite map_map. apply sum_list_map_ext. intros r Hr. apply In_corner_rows in Hr.
  rewrite (count_le_Permutation m _ _ (removed_corner r Hr)).
  unfold orders. rewrite psize_cells.
  assert (H := psize_dec r Hr). f_equal. lia.
Qed.

End Corners.

(** ** Sums and products of rationals *)

(** A natural number as a rational. *)
Definition qn (n : nat) : Qc := Q2Qc (inject_Z (Z.of_nat n)).

(** The sum and the product of [f 0], ..., [f (n - 1)]. *)
Fixpoint qsum (f : nat -> Qc) (n : nat) : Qc :=
  match n with
  | O => Q2Qc 0
  | S m => Qcplus (qsum f m) (f m)
  end.

Fixpoint qprod (f : nat -> Qc) (n : nat) : Qc :=
  match n with
  | O => Q2Qc 1
  | S m => Qcmult (qprod f m) (f m)
  end.

(** The sum of [g r] over the rows [r] of a list. *)
Fixpoint lsum (g : nat -> Qc) (l : list nat) : Qc :=
  match l with
  | [] => Q2Qc 0
  | r :: t => Qcplus (g r) (lsum g t)
  end.

Section Rationals.
Open Scope Qc_scope.

Lemma qn_add (a b : nat) : qn (a + b)%nat = qn a + qn b.
Proof.
  unfold qn, Qcplus. apply Q2Qc_eq_iff. cbn [this Q2Qc]. rewrite !Qred_correct.
  rewrite Nat2Z.inj_add, inject_Z_plus. reflexivity.
Qed.

Lemma qn_mul (a b : nat) : qn (a * b)%nat = qn a * qn b.
Proof.
  unfold qn, Qcmult. apply Q2Qc_eq_iff. cbn [this Q2Qc]. rewrite !Qred_correct.
  rewrite Nat2Z.inj_mul, inject_Z_mult. reflexivity.
Qed.

Lemma qn_inj (a b : nat) : qn a = qn b -> a = b.
Proof.
  unfold qn. intros H. apply Q2Qc_eq_iff in H.
  apply (proj1 (inject_Z_injective _ _)) in H. now apply Nat2Z.inj.
Qed.

Lemma qn_0 : qn 0 = 0.
Proof. reflexivity. Qed.

Lemma qn_1 : qn 1 = 1.
Proof. reflexivity. Qed.

Lemma qn_S (a : nat) : qn (S a) = qn a + 1.
Proof. now rewrite <- Nat.add_1_r, qn_add, qn_1. Qed.

Lemma qn_nonzero (a : nat) : (a <> 0)%nat -> qn a <> 0.
Proof. intros Ha E. apply Ha. apply qn_inj. now rewrite qn_0. Qed.

Lemma qsum_ext (f g : nat -> Qc) (n : nat) :
  (forall i, (i < n)%nat -> f i = g i) -> qsum f n = qsum g n.
Proof.
  induction n as [|n IH]; intros H; [reflexivity|].
  cbn [qsum]. rewrite IH, (H n) by (intros; try apply H; lia). reflexivity.
Qed.

Lemma qprod_ext (f g : nat -> Qc) (n : nat) :
  (forall i, (i < n)%nat -> f i = g i) -> qprod f n = qprod g n.
Proof.
  induction n as [|n IH]; intros H; [reflexivity|].
  cbn [qprod]. rewrite IH, (H n) by (intros; try apply H; lia). reflexivity.
Qed.

Lemma qsum_zero (f : nat -> Qc) (n : nat) :
  (forall i, (i < n)%nat -> f i = 0) -> qsum f n = 0.
Proof.
  induction n as [|n IH]; intros H; [reflexivity|].
  cbn [qsum]. rewrite IH, (H n) by (intros; try apply H; lia). ring.
Qed.

Lemma qsum_one (n : nat) : qsum (fun _ => 1) n = qn n.
Proof.
  induction n as [|n IH]; [reflexivity|]. cbn [qsum]. now rewrite IH, qn_S.
Qed.

Lemma qsum_add (f g : nat -> Qc) (n : nat) :
  qsum (fun i => f i + g i) n = qsum f n + qsum g n.
Proof. induction n as [|n IH]; cbn [qsum]; [ring|]. rewrite IH. ring. Qed.

Lemma qsum_mul_l (c : Qc) (f : nat -> Qc) (n : nat) :
  qsum (fun i => c * f i) n = c * qsum f n.
Proof. induction n as [|n IH]; cbn [qsum]; [ring|]. rewrite IH. ring. Qed.

Lemma qsum_mul_r (c : Qc) (f : nat -> Qc) (n : nat) :
  qsum (fun i => f i * c) n = qsum f n * c.
Proof. induction n as [|n IH]; cbn [qsum]; [ring|]. rewrite IH. ring. Qed.

Lemma qsum_app (f : nat -> Qc) (n m : nat) :
  qsum f (n + m)%nat = qsum f n + qsum (fun i => f (n + i)%nat) m.
Proof.
  induction m as [|m IH]; [rewrite Nat.add_0_r; cbn; ring|].
  rewrite Nat.add_succ_r. cbn [qsum]. rewrite IH. ring.
Qed.

Lemma qprod_app (f : nat -> Qc) (n m : nat) :
  qprod f (n + m)%nat = qprod f n * qprod (fun i => f (n + i)%nat) m.
Proof.
  induction m as [|m IH]; [rewrite Nat.add_0_r; cbn; ring|].
  rewrite Nat.add_succ_r. cbn [qprod]. rewrite IH. ring.
Qed.

Lemma qprod_one (f : nat -> Qc) (n : nat) :
  (forall i, (i < n)%nat -> f i = 1) -> qprod f n = 1.
Proof.
  induction n as [|n IH]; intros H; [reflexivity|].
  cbn [qprod]. rewrite IH, (H n) by (intros; try apply H; lia). ring.
Qed.

Lemma qprod_mul (f g : nat -> Qc) (n : nat) :
  qprod (fun i => f i * g i) n = qprod f n * qprod g n.
Proof. induction n as [|n IH]; cbn [qprod]; [ring|]. rewrite IH. ring. Qed.

Lemma qprod_nonzero (f : nat -> Qc) (n : nat) :
  (forall i, (i < n)%nat -> f i <> 0) -> qprod f n <> 0.
Proof.
  induction n as [|n IH]; intros H; [discriminate|].
  cbn [qprod]. intros E. apply Qcmult_integral in E. destruct E as [E|E].
  - revert E. apply IH. intros i Hi. apply H. lia.
  - revert E. apply H. lia.
Qed.

Lemma lsum_ext (f g : nat -> Qc) (l : list nat) :
  (forall r, In r l -> f r = g r) -> lsum f l = lsum g l.
Proof.
  induction l as [|r l IH]; intros H; [reflexivity|].
  cbn [lsum]. rewrite IH, (H r) by (intros; try apply H; cbn; tauto). reflexivity.
Qed.

Lemma lsum_add (f g : nat -> Qc) (l : list nat) :
  lsum (fun r => f r + g r) l = lsum f l + lsum g l.
Proof. induction l as [|r l IH]; cbn [lsum]; [ring|]. rewrite IH. ring. Qed.

Lemma lsum_mul_l (c : Qc) (f : nat -> Qc) (l : list nat) :
  lsum (fun r => c * f r) l = c * lsum f l.
Proof. induction l as [|r l IH]; cbn [lsum]; [ring|]. rewrite IH. ring. Qed.

Lemma lsum_qsum (f : nat -> nat -> Qc) (l : list nat) (n : nat) :
  lsum (fun r => qsum (f r) n) l = qsum (fun i => lsum (fun r => f r i) l) n.
Proof.
  induction n as [|n IH]; cbn [qsum].
  - induction l as [|r l IHl]; cbn [lsum]; [reflexivity|]. rewrite IHl. ring.
  - rewrite lsum_add, IH. reflexivity.
Qed.

(** One term of the sum is 1, the others are 0. *)
Lemma lsum_single (f : nat -> Qc) (l : list nat) (a : nat) :
  NoDup l -> In a l -> f a = 1 -> (forall r, In r l -> r <> a -> f r = 0) ->
  lsum f l = 1.
Proof.
  induction l as [|r l IH]; intros Hnd Hin Ha Hz; [destruct Hin|].
  inversion Hnd as [|? ? Hr Hnd']; subst. cbn [lsum].
  destruct Hin as [->|Hin].
  - rewrite Ha. rewrite (lsum_ext f (fun _ => 0)).
    + clear. induction l as [|r l IH]; cbn [lsum]; [ring|]. rewrite <- IH at 2. ring.
    + intros r Hr'. apply Hz; [now right|]. intros ->. contradiction.
  - rewrite IH by (try assumption; intros; apply Hz; cbn; tauto).
    rewrite Hz; [ring|now left|]. intros ->. contradiction.
Qed.

End Rationals.

(** ** The weights of the hook walk

    For the numbers [D 0], ..., [D (top - 1)], none of them zero, [Uw a] is
    the product of the [1 + 1 / D i] for [a <= i < top], and 0 beyond
    [top]; [Fw a] is the difference [Uw a - Uw (a + 1)]. *)

Definition Uw (D : nat -> Qc) (top a : nat) : Qc :=
  if a <=? top
  then qprod (fun t => Qcplus (Q2Qc 1) (Qcinv (D (a + t)))) (top - a)
  else Q2Qc 0.

Definition Fw (D : nat -> Qc) (top a : nat) : Qc :=
  Qcminus (Uw D top a) (Uw D top (S a)).

Section Walk.
Open Scope Qc_scope.
Variable D : nat -> Qc.
Variable top : nat.
Hypothesis Dnz : forall i, (i < top)%nat -> D i <> 0.

Lemma Uw_top : Uw D top top = 1.
Proof. unfold Uw. rewrite Nat.leb_refl, Nat.sub_diag. reflexivity. Qed.

Lemma Uw_above (a : nat) : (top < a)%nat -> Uw D top a = 0.
Proof. intros H. unfold Uw. destruct (Nat.leb_spec a top); [lia|reflexivity]. Qed.

Lemma Uw_step (a : nat) :
  (a < top)%nat -> Uw D top a = (1 + / D a) * Uw D top (S a).
Proof.
  intros H. unfold Uw.
  destruct (Nat.leb_spec a top); [|lia]. destruct (Nat.leb_spec (S a) top); [|lia].
  replace (top - a)%nat with (1 + (top - S a))%nat by lia.
  rewrite qprod_app. cbn [qprod]. rewrite Nat.add_0_r.
  rewrite (qprod_ext (fun i => 1 + / D (a + (1 + i))%nat)
                     (fun t => 1 + / D (S a + t)%nat)).
  - ring.
  - intros i _. do 3 f_equal. lia.
Qed.

Lemma Fw_above (a : nat) : (top < a)%nat -> Fw D top a = 0.
Proof. intros H. unfold Fw. rewrite !Uw_above by lia. ring. Qed.

Lemma Fw_top : Fw D top top = 1.
Proof. unfold Fw. rewrite Uw_top, Uw_above by lia. ring. Qed.

(** What lies beyond [a], from the weight of [a]. *)
Lemma Fw_rel (a : nat) : (a < top)%nat -> Uw D top (S a) = D a * Fw D top a.
Proof.
  intros H. unfold Fw. rewrite (Uw_step a H). field. now apply Dnz.
Qed.

Lemma Fw_rel_top : D top = 0 -> Uw D top (S top) = D top * Fw D top top.
Proof. intros E. rewrite E, Uw_above by lia. ring. Qed.

(** The weights from [a0] on add up. *)
Lemma qsum_Fw (a0 n : nat) :
  qsum (fun t => Fw D top (a0 + t)) n = Uw D top a0 - Uw D top (a0 + n).
Proof.
  induction n as [|n IH]; cbn [qsum].
  - rewrite Nat.add_0_r. ring.
  - rewrite IH. unfold Fw. rewrite Nat.add_succ_r. ring.
Qed.

Lemma Uw_zero : Uw D top 0 = qprod (fun i => 1 + / D i) top.
Proof. unfold Uw. cbn [Nat.leb]. now rewrite Nat.sub_0_r. Qed.

End Walk.

(** ** The hook walk of a partition *)

Definition hq (nu : list nat) (i j : nat) : Qc := qn (hook nu i j).

(** The column of the corner of row [alpha]. *)
Definition corner_col (nu : list nat) (alpha : nat) : nat := nth alpha nu 0 - 1.

(** The hooks, less one, of the column and of the row of the corner. *)
Definition Dr (nu : list nat) (alpha i : nat) : Qc :=
  Qcminus (hq nu i (corner_col nu alpha)) (Q2Qc 1).
Definition Dc (nu : list nat) (alpha j : nat) : Qc :=
  Qcminus (hq nu alpha j) (Q2Qc 1).

(** The weight of the cell [(a, b)] for the corner of row [alpha]. *)
Definition Pw (nu : list nat) (alpha a b : nat) : Qc :=
  Qcmult (Fw (Dr nu alpha) alpha a) (Fw (Dc nu alpha) (corner_col nu alpha) b).

Section HookWalk.
Open Scope Qc_scope.
Variable nu : list nat.
Hypothesis Hpart : partition nu.

Lemma qn_pred (h : nat) : (1 <= h)%nat -> qn h - 1 = qn (h - 1).
Proof.
  intros H. replace h with (S (h - 1)) at 1 by lia. rewrite qn_S. ring.
Qed.

Section Corner.
Variable alpha : nat.
Hypothesis Halpha : (nth (S alpha) nu 0 < nth alpha nu 0)%nat.

Let beta := corner_col nu alpha.

Lemma corner_cell : (beta < nth alpha nu 0)%nat.
Proof. unfold beta, corner_col. lia. Qed.

Lemma colen_beta : colen nu beta = S alpha.
Proof. apply colen_corner; assumption. Qed.

Lemma above_corner (i : nat) : (i <= alpha)%nat -> (beta < nth i nu 0)%nat.
Proof.
  intros Hi. assert (H := partition_mono nu i alpha Hpart Hi).
  assert (H' := corner_cell). lia.
Qed.

Lemma left_of_corner (j : nat) : (j <= beta)%nat -> (alpha < colen nu j)%nat.
Proof. intros Hj. apply colen_spec; [assumption|]. assert (H := corner_cell). lia. Qed.

Lemma hook_corner : hook nu alpha beta = 1%nat.
Proof.
  assert (H := hook_eq nu alpha beta Hpart corner_cell).
  rewrite colen_beta in H. unfold beta, corner_col in *. lia.
Qed.

Lemma hook_add (a b : nat) :
  (a <= alpha)%nat -> (b <= beta)%nat ->
  (hook nu a beta + hook nu alpha b = hook nu a b + 1)%nat.
Proof.
  intros Ha Hb.
  assert (Hab : (b < nth a nu 0)%nat) by (assert (H := above_corner a Ha); lia).
  assert (H1 := hook_eq nu a beta Hpart (above_corner a Ha)).
  assert (H2 := hook_eq nu alpha b Hpart ltac:(assert (H := corner_cell); lia)).
  assert (H3 := hook_eq nu a b Hpart Hab).
  rewrite colen_beta in H1. assert (Hc := corner_cell).
  unfold beta, corner_col in *. lia.
Qed.

Lemma hook_col (i : nat) : (i < alpha)%nat -> (2 <= hook nu i beta)%nat.
Proof.
  intros Hi. assert (H := hook_eq nu i beta Hpart (above_corner i ltac:(lia))).
  rewrite colen_beta in H. assert (H' := above_corner i ltac:(lia)). lia.
Qed.

Lemma hook_row (j : nat) : (j < beta)%nat -> (2 <= hook nu alpha j)%nat.
Proof.
  intros Hj. assert (Hc := corner_cell).
  assert (H := hook_eq nu alpha j Hpart ltac:(lia)).
  assert (H' := left_of_corner j ltac:(lia)). unfold beta, corner_col in *. lia.
Qed.

Lemma Dr_nonzero (i : nat) : (i < alpha)%nat -> Dr nu alpha i <> 0.
Proof.
  intros Hi. unfold Dr, hq. fold beta. assert (H := hook_col i Hi).
  rewrite qn_pred by lia. apply qn_nonzero. lia.
Qed.

Lemma Dc_nonzero (j : nat) : (j < beta)%nat -> Dc nu alpha j <> 0.
Proof.
  intros Hj. unfold Dc, hq. assert (H := hook_row j Hj).
  rewrite qn_pred by lia. apply qn_nonzero. lia.
Qed.

Lemma Dr_top : Dr nu alpha alpha = 0.
Proof. unfold Dr, hq. fold beta. rewrite hook_corner. rewrite qn_1. ring. Qed.

Lemma Dc_top : Dc nu alpha beta = 0.
Proof. unfold Dc, hq. rewrite hook_corner. rewrite qn_1. ring. Qed.

Lemma Dr_Dc (a b : nat) :
  (a <= alpha)%nat -> (b <= beta)%nat -> Dr nu alpha a + Dc nu alpha b = hq nu a b - 1.
Proof.
  intros Ha Hb. unfold Dr, Dc, hq. fold beta.
  assert (H := hook_add a b Ha Hb).
  apply (f_equal qn) in H. rewrite !qn_add, qn_1 in H.
  transitivity (qn (hook nu a beta) + qn (hook nu alpha b) - 1 - 1); [ring|].
  rewrite H. ring.
Qed.

Lemma Ur_rel (a : nat) :
  (a <= alpha)%nat ->
  Uw (Dr nu alpha) alpha (S a) = Dr nu alpha a * Fw (Dr nu alpha) alpha a.
Proof.
  intros Ha. destruct (Nat.eq_dec a alpha) as [->|Hne].
  - apply Fw_rel_top. apply Dr_top.
  - apply Fw_rel; [apply Dr_nonzero|lia].
Qed.

Lemma Uc_rel (b : nat) :
  (b <= beta)%nat ->
  Uw (Dc nu alpha) beta (S b) = Dc nu alpha b * Fw (Dc nu alpha) beta b.
Proof.
  intros Hb. destruct (Nat.eq_dec b beta) as [->|Hne].
  - apply Fw_rel_top. apply Dc_top.
  - apply Fw_rel; [apply Dc_nonzero|lia].
Qed.

(** The weights of the cells below and to the right of a cell add up to
    its weight, times its hook less one. *)
Lemma Pw_hook (a b : nat) :
  (b < nth a nu 0)%nat ->
  qsum (fun t => Pw nu alpha (S a + t) b) (colen nu b - S a)%nat
  + qsum (fun t => Pw nu alpha a (S b + t)) (nth a nu 0 - S b)%nat
  = (hq nu a b - 1) * Pw nu alpha a b.
Proof.
  intros Hab. unfold Pw. fold beta.
  rewrite qsum_mul_r, qsum_mul_l, !qsum_Fw.
  assert (Hcol : (a < colen nu b)%nat) by (now apply colen_spec).
  replace (S a + (colen nu b - S a))%nat with (colen nu b) by lia.
  replace (S b + (nth a nu 0 - S b))%nat with (nth a nu 0%nat) by lia.
  destruct (Nat.le_gt_cases a alpha) as [Ha|Ha].
  - destruct (Nat.le_gt_cases b beta) as [Hb|Hb].
    + rewrite (Uw_above _ _ (colen nu b)) by (now apply left_of_corner).
      rewrite (Uw_above _ _ (nth a nu 0%nat)) by (now apply above_corner).
      rewrite (Ur_rel a Ha), (Uc_rel b Hb), <- (Dr_Dc a b Ha Hb). ring.
    + rewrite (Fw_above _ _ b Hb).
      rewrite (Uw_above _ _ (S b)) by lia.
      rewrite (Uw_above _ _ (nth a nu 0%nat)) by lia. ring.
  - rewrite (Fw_above _ _ a Ha).
    rewrite (Uw_above _ _ (S a)) by lia.
    rewrite (Uw_above _ _ (colen nu b)) by lia. ring.
Qed.

End Corner.

Lemma NoDup_corner_rows : NoDup (corner_rows nu).
Proof. apply NoDup_filter. apply seq_NoDup. Qed.

(** The weights of a cell for all the corners add up to 1. *)
Lemma corner_weights (m : nat) :
  forall a b, (length nu - a + (nth 0 nu 0 - b) <= m)%nat -> (b < nth a nu 0)%nat ->
              lsum (fun alpha => Pw nu alpha a b) (corner_rows nu) = 1.
Proof.
  induction m as [|m IH]; intros a b Hm Hab.
  { assert (H := partition_row nu a b Hab). lia. }
  assert (Ha := partition_row nu a b Hab).
  assert (Hb0 := partition_mono nu 0 a Hpart ltac:(lia)).
  assert (Hcol : (a < colen nu b)%nat) by (now apply colen_spec).
  assert (Hhook := hook_eq nu a b Hpart Hab).
  destruct (Nat.eq_dec (hook nu a b) 1) as [Hone|Hmore].
  - (* the cell is a corner *)
    assert (Hb : b = corner_col nu a) by (unfold corner_col; lia).
    assert (Hbelow : (nth (S a) nu 0 <= b)%nat).
    { destruct (Nat.le_gt_cases (nth (S a) nu 0%nat) b) as [H|H]; [assumption|].
      apply (colen_spec nu (S a) b Hpart) in H. lia. }
    apply (lsum_single _ _ a).
    + apply NoDup_corner_rows.
    + apply In_corner_rows. lia.
    + unfold Pw. rewrite <- Hb. now rewrite !Fw_top.
    + intros r Hr Hne. apply In_corner_rows in Hr. unfold Pw.
      destruct (Nat.lt_ge_cases r a) as [Hlt|Hge].
      * rewrite (Fw_above _ r a Hlt). ring.
      * assert (H := partition_mono nu (S a) r Hpart ltac:(lia)).
        rewrite (Fw_above _ (corner_col nu r) b) by (unfold corner_col; lia). ring.
  - assert (Hnz : hq nu a b - 1 <> 0).
    { unfold hq. rewrite qn_pred by lia. apply qn_nonzero. lia. }
    assert (E : (hq nu a b - 1) * lsum (fun alpha => Pw nu alpha a b) (corner_rows nu)
                = hq nu a b - 1).
    { rewrite <- lsum_mul_l.
      rewrite (lsum_ext _ (fun alpha =>
                 qsum (fun t => Pw nu alpha (S a + t) b) (colen nu b - S a)%nat
                 + qsum (fun t => Pw nu alpha a (S b + t)) (nth a nu 0%nat - S b)%nat)).
      2:{ intros alpha Halpha. apply In_corner_rows in Halpha. symmetry.
          now apply Pw_hook. }
      rewrite lsum_add, !lsum_qsum.
      rewrite (qsum_ext _ (fun _ => 1)).
      2:{ intros t Ht. apply IH; [lia|]. apply colen_spec; [assumption|lia]. }
      rewrite (qsum_ext (fun i => lsum (fun r => Pw nu r a (S b + i)) _) (fun _ => 1)).
      2:{ intros t Ht. apply IH; lia. }
      rewrite !qsum_one, <- qn_add. unfold hq. rewrite qn_pred by lia. f_equal. lia. }
    transitivity ((hq nu a b - 1) * lsum (fun alpha => Pw nu alpha a b) (corner_rows nu)
                  / (hq nu a b - 1)); [field; assumption|].
    rewrite E. field. assumption.
Qed.

(** The weights of all the cells, for one corner. *)
Lemma corner_total (alpha : nat) :
  (nth (S alpha) nu 0 < nth alpha nu 0)%nat ->
  qsum (fun a => qsum (fun b => Pw nu alpha a b) (nth a nu 0%nat)) (length nu)
  = Uw (Dr nu alpha) alpha 0 * Uw (Dc nu alpha) (corner_col nu alpha) 0.
Proof.
  intros Halpha.
  rewrite (qsum_ext _ (fun a => Fw (Dr nu alpha) alpha (0 + a)
                                * Uw (Dc nu alpha) (corner_col nu alpha) 0)).
  - rewrite qsum_mul_r, qsum_Fw. cbn [Nat.add].
    rewrite (Uw_above _ _ (length nu)); [ring|].
    eapply partition_row. eassumption.
  - intros a Ha. cbn [Nat.add]. unfold Pw. rewrite qsum_mul_l.
    rewrite (qsum_ext _ (fun t => Fw (Dc nu alpha) (corner_col nu alpha) (0 + t)))
      by reflexivity.
    rewrite qsum_Fw. cbn [Nat.add].
    destruct (Nat.le_gt_cases a alpha) as [Hle|Hgt].
    + rewrite (Uw_above _ _ (nth a nu 0%nat)); [ring|].
      now apply above_corner.
    + rewrite (Fw_above _ _ a Hgt). ring.
Qed.

Lemma qsum_rows (l : list nat) :
  qsum (fun a => qn (nth a l 0%nat)) (length l) = qn (sum_list l).
Proof.
  induction l as [|x l IH]; [reflexivity|].
  change (length (x :: l)) with (1 + length l)%nat.
  rewrite qsum_app. cbn [qsum nth Nat.add].
  rewrite IH. unfold sum_list. cbn [fold_right]. rewrite qn_add. ring.
Qed.

(** The hook walk ends in some corner: the weights of the corners add up
    to the number of cells. *)
Lemma corners_total :
  lsum (fun alpha => Uw (Dr nu alpha) alpha 0 * Uw (Dc nu alpha) (corner_col nu alpha) 0)
       (corner_rows nu)
  = qn (psize nu).
Proof.
  rewrite (lsum_ext _ (fun alpha =>
             qsum (fun a => qsum (fun b => Pw nu alpha a b) (nth a nu 0%nat))
                  (length nu))).
  2:{ intros alpha Halpha. apply In_corner_rows in Halpha. symmetry.
      now apply corner_total. }
  rewrite lsum_qsum.
  rewrite (qsum_ext _ (fun a => qn (nth a nu 0%nat))).
  - apply qsum_rows.
  - intros a Ha. rewrite lsum_qsum. rewrite (qsum_ext _ (fun _ => 1)).
    + apply qsum_one.
    + intros b Hb.
      apply (corner_weights (length nu - a + (nth 0 nu 0 - b))%nat); [lia|assumption].
Qed.

End HookWalk.

(** ** The product of the hooks *)

(** The product of the hooks of the first [n] rows. *)
Definition hprod (nu : list nat) (n : nat) : Qc :=
  qprod (fun i => qprod (fun j => hq nu i j) (nth i nu 0)) n.

Section Products.
Open Scope Qc_scope.

Lemma prod_list_app (l1 l2 : list nat) :
  prod_list (l1 ++ l2) = (prod_list l1 * prod_list l2)%nat.
Proof.
  unfold prod_list. induction l1 as [|a l1 IH]; cbn [app fold_right]; [lia|].
  rewrite IH. lia.
Qed.

Lemma qn_prod_map (f : nat -> nat) (n : nat) :
  qn (prod_list (map f (seq 0 n))) = qprod (fun j => qn (f j)) n.
Proof.
  induction n as [|n IH]; [reflexivity|].
  rewrite seq_S, map_app, prod_list_app, qn_mul, IH. cbn [qprod Nat.add map].
  unfold prod_list. cbn [fold_right]. now rewrite Nat.mul_1_r.
Qed.

Lemma qn_prod_concat (g : nat -> list nat) (n : nat) :
  qn (prod_list (concat (map g (seq 0 n)))) = qprod (fun i => qn (prod_list (g i))) n.
Proof.
  induction n as [|n IH]; [reflexivity|].
  rewrite seq_S, map_app, concat_app, prod_list_app, qn_mul, IH.
  cbn [qprod Nat.add map concat]. now rewrite app_nil_r.
Qed.

Lemma hook_product_hprod (nu : list nat) :
  qn (hook_product nu) = hprod nu (length nu).
Proof.
  unfold hook_product, hprod. rewrite qn_prod_concat.
  apply qprod_ext. intros i _. apply qn_prod_map.
Qed.

Lemma hprod_extend (nu : list nat) (n : nat) :
  (length nu <= n)%nat -> hprod nu n = hprod nu (length nu).
Proof.
  intros H. unfold hprod. replace n with (length nu + (n - length nu))%nat by lia.
  rewrite qprod_app. rewrite (qprod_one (fun i => qprod _ (nth (length nu + i) nu 0%nat))).
  - ring.
  - intros i _. rewrite nth_overflow by lia. reflexivity.
Qed.

(** A product in which one factor changes. *)
Lemma qprod_change (f g : nat -> Qc) (n j0 : nat) :
  (j0 < n)%nat -> (forall j, (j < n)%nat -> j <> j0 -> f j = g j) -> g j0 <> 0 ->
  qprod f n = f j0 / g j0 * qprod g n.
Proof.
  intros Hj Hfg Hg.
  replace n with (j0 + (1 + (n - S j0)))%nat by lia.
  rewrite !qprod_app. cbn [qprod]. rewrite !Nat.add_0_r.
  rewrite (qprod_ext f g j0) by (intros j Hlt; apply Hfg; lia).
  rewrite (qprod_ext (fun i => f (j0 + (1 + i))%nat) (fun i => g (j0 + (1 + i))%nat))
    by (intros j Hlt; apply Hfg; lia).
  field. assumption.
Qed.

End Products.

Section Ratio.
Open Scope Qc_scope.
Variable nu : list nat.
Hypothesis Hpart : partition nu.
Variable alpha : nat.
Hypothesis Halpha : (nth (S alpha) nu 0 < nth alpha nu 0)%nat.

Let beta := corner_col nu alpha.
Let nu' := dec nu alpha.

Lemma hq_dec (i j : nat) :
  (j < nth i nu' 0)%nat ->
  hq nu' i j = hq nu i j - (if i =? alpha then 1 else 0) - (if j =? beta then 1 else 0).
Proof.
  intros Hj. unfold hq. rewrite <- (hook_dec nu alpha Hpart Halpha i j Hj).
  fold nu'. fold (corner_col nu alpha). fold beta.
  rewrite !qn_add. destruct (i =? alpha), (j =? beta); rewrite ?qn_1, ?qn_0; ring.
Qed.

(** The rows above the corner: the hook in the column of the corner. *)
Lemma row_above (i : nat) :
  (i < alpha)%nat ->
  qprod (fun j => hq nu i j) (nth i nu 0%nat)
  = (1 + / Dr nu alpha i) * qprod (fun j => hq nu' i j) (nth i nu' 0%nat).
Proof.
  intros Hi.
  assert (Hn : nth i nu' 0%nat = nth i nu 0%nat).
  { unfold nu'. rewrite (nth_dec nu alpha Hpart Halpha).
    destruct (Nat.eqb_spec i alpha); [lia|reflexivity]. }
  assert (Hb := above_corner nu Hpart alpha Halpha i ltac:(lia)). fold beta in Hb.
  assert (Hnz := Dr_nonzero nu Hpart alpha Halpha i Hi).
  assert (E : hq nu' i beta = Dr nu alpha i).
  { rewrite hq_dec by (rewrite Hn; exact Hb).
    rewrite Nat.eqb_refl. destruct (Nat.eqb_spec i alpha); [lia|].
    unfold Dr. fold beta. ring. }
  rewrite Hn.
  rewrite (qprod_change (fun j => hq nu i j) (fun j => hq nu' i j) _ beta Hb).
  - rewrite E. f_equal. unfold Dr. fold beta.
    unfold Dr in Hnz. fold beta in Hnz. field. assumption.
  - intros j Hj Hne. rewrite hq_dec by (rewrite Hn; exact Hj).
    destruct (Nat.eqb_spec i alpha); [lia|]. destruct (Nat.eqb_spec j beta); [lia|]. ring.
  - now rewrite E.
Qed.

(** The row of the corner. *)
Lemma row_corner :
  qprod (fun j => hq nu alpha j) (nth alpha nu 0%nat)
  = Uw (Dc nu alpha) beta 0 * qprod (fun j => hq nu' alpha j) (nth alpha nu' 0%nat).
Proof.
  assert (Hn : nth alpha nu' 0%nat = beta).
  { unfold nu'. rewrite (nth_dec nu alpha Hpart Halpha), Nat.eqb_refl. reflexivity. }
  assert (Hc := corner_cell nu alpha Halpha). fold beta in Hc.
  replace (nth alpha nu 0%nat) with (S beta) by (unfold beta, corner_col in *; lia).
  assert (Eh : hq nu alpha beta = 1).
  { unfold hq, beta. now rewrite (hook_corner nu Hpart alpha Halpha). }
  cbn [qprod]. rewrite Hn, Uw_zero, <- qprod_mul, Eh.
  rewrite Qcmult_1_r. apply qprod_ext. intros j Hj.
  rewrite hq_dec by (rewrite Hn; exact Hj).
  rewrite Nat.eqb_refl. destruct (Nat.eqb_spec j beta); [lia|].
  assert (Hnz := Dc_nonzero nu Hpart alpha Halpha j Hj).
  unfold Dc in *. field. assumption.
Qed.

(** The rows below the corner. *)
Lemma row_below (i : nat) :
  (alpha < i)%nat ->
  qprod (fun j => hq nu i j) (nth i nu 0%nat)
  = qprod (fun j => hq nu' i j) (nth i nu' 0%nat).
Proof.
  intros Hi.
  assert (Hn : nth i nu' 0%nat = nth i nu 0%nat).
  { unfold nu'. rewrite (nth_dec nu alpha Hpart Halpha).
    destruct (Nat.eqb_spec i alpha); [lia|reflexivity]. }
  rewrite Hn. apply qprod_ext. intros j Hj.
  rewrite hq_dec by (rewrite Hn; exact Hj).
  assert (H := partition_mono nu (S alpha) i Hpart ltac:(lia)).
  assert (Hc := corner_cell nu alpha Halpha).
  destruct (Nat.eqb_spec i alpha); [lia|].
  destruct (Nat.eqb_spec j beta) as [E|]; [|ring].
  unfold beta, corner_col in *. lia.
Qed.

(** The hooks of the partition, from those of the partition without the
    corner. *)
Lemma hook_ratio :
  qn (hook_product nu)
  = Uw (Dr nu alpha) alpha 0 * Uw (Dc nu alpha) beta 0 * qn (hook_product nu').
Proof.
  assert (Hlt := corner_row_lt nu alpha Halpha).
  rewrite !hook_product_hprod.
  rewrite <- (hprod_extend nu' (length nu)) by (exact (length_dec nu alpha Halpha)).
  unfold hprod.
  replace (length nu) with (alpha + (1 + (length nu - S alpha)))%nat by lia.
  rewrite !qprod_app. cbn [qprod]. rewrite !Nat.add_0_r, Uw_zero.
  rewrite (qprod_ext _ (fun i => (1 + / Dr nu alpha i)
                                 * qprod (fun j => hq nu' i j) (nth i nu' 0%nat)) alpha)
    by (intros i Hi; now apply row_above).
  rewrite qprod_mul, row_corner.
  rewrite (qprod_ext (fun i => qprod _ (nth (alpha + (1 + i)) nu 0%nat))
                     (fun i => qprod (fun j => hq nu' (alpha + (1 + i)) j)
                                     (nth (alpha + (1 + i)) nu' 0%nat)))
    by (intros i Hi; apply row_below; lia).
  ring.
Qed.

End Ratio.

(** ** The hook length formula *)

Section Formula.
Open Scope Qc_scope.

Lemma qn_sum_list_map (f : nat -> nat) (l : list nat) :
  qn (sum_list (map f l)) = lsum (fun r => qn (f r)) l.
Proof.
  induction l as [|r l IH]; [reflexivity|].
  cbn [map lsum]. unfold sum_list in *. cbn [fold_right]. now rewrite qn_add, IH.
Qed.

Lemma hook_length_rational (m : nat) :
  forall k nu, partition nu -> psize nu = m ->
               qn (orders (row_cells k 0 nu)) * qn (hook_product nu) = qn (fact m).
Proof.
  induction m as [|m IH]; intros k nu Hpart Hsize.
  - assert (nu = []).
    { destruct nu as [|a rest]; [reflexivity|exfalso].
      destruct Hpart as [Hpos _]. specialize (Hpos 0%nat ltac:(cbn; lia)).
      cbn in Hpos. unfold psize, sum_list in Hsize. cbn in Hsize. lia. }
    subst nu. reflexivity.
  - rewrite (orders_corners k nu Hpart m Hsize), qn_sum_list_map, Qcmult_comm.
    rewrite <- lsum_mul_l.
    rewrite (lsum_ext _ (fun alpha =>
               qn (fact m) * (Uw (Dr nu alpha) alpha 0
                              * Uw (Dc nu alpha) (corner_col nu alpha) 0))).
    + rewrite lsum_mul_l, (corners_total nu Hpart), Hsize, <- qn_mul.
      f_equal. cbn [fact]. lia.
    + intros alpha Halpha. apply In_corner_rows in Halpha.
      rewrite (hook_ratio nu Hpart alpha Halpha).
      assert (Hs := psize_dec k nu Hpart alpha Halpha).
      rewrite <- (IH k (dec nu alpha) (partition_dec nu alpha Hpart Halpha) ltac:(lia)).
      ring.
Qed.

End Formula.

(** The standard tableaux of a partition are as many as the hook length
    formula says. *)
Theorem hook_length_formula (k : nat) (nu : list nat) :
  is_partition nu = true ->
  orders (row_cells k 0 nu) * hook_product nu = fact (psize nu).
Proof.
  intros Hnu. apply is_partition_partition in Hnu.
  apply qn_inj. rewrite qn_mul. now apply hook_length_rational.
Qed.

(** ** The count of the generator and [cardinality] *)

(** The flat list is read back from the tableau tuple. *)
Lemma firstn_plus {A : Type} (a b : nat) (l : list A) :
  firstn (a + b) l = firstn a l ++ firstn b (skipn a l).
Proof.
  revert l. induction a as [|a IH]; intros l; [reflexivity|].
  destruct l as [|x l]; cbn; [now rewrite firstn_nil|]. now rewrite IH.
Qed.

Lemma concat_cut_rows (nu l : list nat) :
  concat (cut_rows nu l) = firstn (psize nu) l.
Proof.
  revert l. induction nu as [|len rest IH]; intros l; [reflexivity|].
  cbn [cut_rows concat]. rewrite IH.
  change (psize (len :: rest)) with (len + psize rest). now rewrite firstn_plus.
Qed.

Lemma concat_cut_comps (mu : shape) (l : list nat) :
  concat (map (@concat nat) (cut_comps mu l)) = firstn (size mu) l.
Proof.
  revert l. induction mu as [|nu rest IH]; intros l; [reflexivity|].
  cbn [cut_comps map concat]. rewrite IH, concat_cut_rows.
  change (size (nu :: rest)) with (psize nu + size rest).
  rewrite firstn_plus. f_equal. rewrite firstn_firstn. f_equal. lia.
Qed.

Lemma tableau_from_list_injective (mu : shape) (t1 t2 : list nat) :
  length t1 = size mu -> length t2 = size mu ->
  tableau_from_list mu t1 = tableau_from_list mu t2 -> t1 = t2.
Proof.
  intros H1 H2 E. rewrite !tableau_from_list_cut in E.
  apply (f_equal (fun t => concat (map (@concat nat) t))) in E.
  rewrite !concat_cut_comps in E.
  rewrite <- H1 in E at 1. rewrite <- H2 in E. now rewrite !firstn_all in E.
Qed.

Lemma standard_length (mu : shape) (tab : list nat) :
  standard mu tab -> length tab = size mu.
Proof.
  intros [Hperm _]. apply Permutation_length in Hperm. now rewrite length_seq in Hperm.
Qed.

(** The tableau tuples yielded are different from each other. *)
Lemma yielded_NoDup (mu : shape) (l : list state) :
  NoDup (map st_tab l) -> (forall tab, In tab (map st_tab l) -> standard mu tab) ->
  NoDup (yielded_tableaux mu (Done l)).
Proof.
  intros Hnd Hstd. cbn [yielded_tableaux].
  rewrite <- (map_map st_tab (tableau_from_list mu)).
  apply NoDup_map_NoDup_ForallPairs; [|assumption].
  intros t1 t2 Ht1 Ht2 E.
  apply (tableau_from_list_injective mu); try assumption;
    apply standard_length; now apply Hstd.
Qed.

(** *** The count in closed form *)

Lemma hook_product_pos (nu : list nat) :
  is_partition nu = true -> hook_product nu <> 0.
Proof.
  intros Hnu E. assert (H := hook_length_formula 0 nu Hnu).
  rewrite E, Nat.mul_0_r in H. assert (Hf := fact_pos (psize nu)). lia.
Qed.

(** [StandardTableaux(nu).cardinality()] counts the orders of the cells of
    [nu]. *)
Lemma standard_tableaux_cardinality_orders (k : nat) (nu : list nat) :
  is_partition nu = true ->
  standard_tableaux_cardinality nu = orders (row_cells k 0 nu).
Proof.
  intros Hnu. unfold standard_tableaux_cardinality.
  rewrite <- (hook_length_formula k nu Hnu).
  apply Nat.div_mul. now apply hook_product_pos.
Qed.

Lemma prod_orders_components (mu : shape) :
  is_partition_tuple mu = true ->
  forall k,
    prod_list (map (fun p => orders (row_cells (fst p) 0 (snd p)))
                   (combine (seq k (length mu)) mu))
    = prod_list (map standard_tableaux_cardinality mu).
Proof.
  induction mu as [|nu rest IH]; intros Hmu k; [reflexivity|].
  cbn in Hmu. apply andb_true_iff in Hmu. destruct Hmu as [Hnu Hrest].
  cbn [length seq combine map prod_list fold_right fst snd].
  unfold prod_list in IH. rewrite (IH Hrest (S k)).
  now rewrite (standard_tableaux_cardinality_orders k nu Hnu).
Qed.

(** The standard tableau tuples of shape [mu], counted:
    [count * prod |mu_k|! = n! * prod |Std(mu_k)|]. *)
Lemma count_closed_form (mu : shape) (L : list (list nat)) :
  is_partition_tuple mu = true ->
  NoDup L -> (forall tab, In tab L <-> standard mu tab) ->
  length L * prod_list (map (fun nu => fact (psize nu)) mu)
  = fact (size mu) * prod_list (map standard_tableaux_cardinality mu).
Proof.
  intros Hmu Hnd HL.
  rewrite (count_standard mu L Hnd HL), <- (length_cells mu).
  fold (orders (cells mu)). unfold cells.
  rewrite (orders_components mu 0), (prod_orders_components mu Hmu 0).
  fold (cells mu). now rewrite length_cells.
Qed.

(** *** [cardinality] *)

Section Cardinality.
Open Scope Q_scope.

Definition qz (n : nat) : Q := inject_Z (Z.of_nat n).

Lemma qz_mul (a b : nat) : qz (a * b) == qz a * qz b.
Proof. unfold qz. now rewrite Nat2Z.inj_mul, inject_Z_mult. Qed.

Lemma qz_nonzero (a : nat) : a <> 0%nat -> ~ qz a == 0.
Proof.
  intros Ha E. unfold qz in E. change 0 with (inject_Z 0) in E.
  apply (proj1 (inject_Z_injective _ _)) in E. lia.
Qed.

Lemma prod_list_fact_pos (mu : shape) :
  prod_list (map (fun nu => fact (psize nu)) mu) <> 0%nat.
Proof.
  induction mu as [|nu rest IH]; cbn; [lia|].
  assert (H := fact_pos (psize nu)). unfold prod_list in IH. nia.
Qed.

(** The product of the quotients is the quotient of the products. *)
Lemma prod_rational_quotients (a b : list nat -> nat) (mu : shape) :
  (forall nu, b nu <> 0%nat) ->
  forall acc,
    fold_left Qmult (map (fun nu => qz (a nu) / qz (b nu)) mu) acc
    == acc * (qz (prod_list (map a mu)) / qz (prod_list (map b mu))).
Proof.
  intros Hb. induction mu as [|nu rest IH]; intros acc.
  - cbn. unfold qz. cbn. field.
  - cbn [map fold_left]. rewrite IH.
    change (prod_list (a nu :: map a rest))
      with (a nu * prod_list (map a rest))%nat.
    change (prod_list (b nu :: map b rest))
      with (b nu * prod_list (map b rest))%nat.
    rewrite !qz_mul.
    assert (H1 := qz_nonzero (b nu) (Hb nu)).
    assert (H2 : ~ qz (prod_list (map b rest)) == 0).
    { apply qz_nonzero. clear IH. induction rest as [|x rest IH]; cbn; [lia|].
      specialize (Hb x). unfold prod_list in IH. nia. }
    field. split; assumption.
Qed.

(** [Integer(q)] of an integral rational. *)
Lemma Integer_of_rational_integral (q : Q) (z : Z) :
  q == inject_Z z -> Integer_of_rational q = Ok z.
Proof.
  intros E. unfold Integer_of_rational.
  rewrite (Qred_complete _ _ E).
  rewrite (Qred_identity (inject_Z z)); [reflexivity|].
  cbn. apply Z.gcd_1_r.
Qed.

(** A rational that is not integral is refused. *)
Lemma Integer_of_rational_fraction (q : Q) :
  (forall z, ~ q == inject_Z z) ->
  Integer_of_rational q = Raise (TypeError no_conversion).
Proof.
  intros H. unfold Integer_of_rational.
  destruct (Pos.eqb_spec (Qden (Qred q)) 1) as [E|]; [exfalso|reflexivity].
  apply (H (Qnum (Qred q))). rewrite <- (Qred_correct q) at 1.
  destruct (Qred q) as [n d]. cbn in E. subst d. reflexivity.
Qed.

Lemma closed_form_count (mu : shape) (n : nat) :
  (n * prod_list (map (fun nu => fact (psize nu)) mu)
   = fact (size mu) * prod_list (map standard_tableaux_cardinality mu))%nat ->
  closed_form mu == qz n.
Proof.
  intros E. unfold closed_form, prod_rational.
  rewrite (prod_rational_quotients standard_tableaux_cardinality
                                   (fun nu => fact (psize nu)) mu).
  2:{ intros nu. assert (H := fact_pos (psize nu)). lia. }
  fold (qz (fact (size mu))).
  assert (Hq : qz n * qz (prod_list (map (fun nu => fact (psize nu)) mu))
               == qz (fact (size mu)) * qz (prod_list (map standard_tableaux_cardinality mu))).
  { rewrite <- !qz_mul. now rewrite E. }
  assert (H := qz_nonzero _ (prod_list_fact_pos mu)).
  rewrite Qmult_1_l.
  apply (Qmult_inj_r _ _ _ H).
  rewrite Hq. field. assumption.
Qed.

End Cardinality.

(** [StandardTableauTuples_shape(mu).__iter__()] yields the standard tableau
    tuples of shape [mu], each of them once, and as many as
    [factorial(n) * prod(|Std(nu)| / factorial(|nu|) for nu in mu)], the
    number that [cardinality()] returns. *)
Theorem enumerator_count_is_cardinality (mu : shape) :
  is_partition_tuple mu = true ->
  exists (bound : nat) (l : list state),
    (forall fuel, bound <= fuel -> iter mu fuel = Done l) /\
    NoDup (yielded_tableaux mu (Done l)) /\
    Qeq (inject_Z (Z.of_nat (length (yielded_tableaux mu (Done l))))) (closed_form mu) /\
    StandardTableauTuples_shape_cardinality mu
    = Ok (Z.of_nat (length (yielded_tableaux mu (Done l)))) /\
    cardinality mu = length (yielded_tableaux mu (Done l)).
Proof.
  intros Hmu.
  destruct (iter_enumerates mu Hmu) as (bound & l & Hiter & Hnd & HL).
  exists bound, l. split; [exact Hiter|].
  split; [apply yielded_NoDup; [assumption|intros tab; apply HL]|].
  assert (Hc := count_closed_form mu (map st_tab l) Hmu Hnd HL).
  assert (Hlen : length (yielded_tableaux mu (Done l)) = length (map st_tab l)).
  { cbn [yielded_tableaux]. now rewrite !length_map. }
  rewrite Hlen. assert (Hq := closed_form_count mu _ Hc).
  split; [symmetry; exact Hq|]. split.
  - unfold StandardTableauTuples_shape_cardinality.
    apply Integer_of_rational_integral. exact Hq.
  - unfold cardinality. rewrite <- Hc. apply Nat.div_mul, prod_list_fact_pos.
Qed.

Lemma enumerator_count_is_cardinality_witness :
  is_partition_tuple [[2; 1]; [1]] = true /\
  exists (bound : nat) (l : list state),
    (forall fuel, bound <= fuel -> iter [[2; 1]; [1]] fuel = Done l) /\
    NoDup (yielded_tableaux [[2; 1]; [1]] (Done l)) /\
    Qeq (inject_Z (Z.of_nat (length (yielded_tableaux [[2; 1]; [1]] (Done l)))))
        (closed_form [[2; 1]; [1]]) /\
    StandardTableauTuples_shape_cardinality [[2; 1]; [1]]
    = Ok (Z.of_nat (length (yielded_tableaux [[2; 1]; [1]] (Done l)))) /\
    cardinality [[2; 1]; [1]] = length (yielded_tableaux [[2; 1]; [1]] (Done l)).
Proof.
  split; [reflexivity|].
  apply (enumerator_count_is_cardinality [[2; 1]; [1]]). reflexivity.
Defined.

(** ** The tableau tuples of a shape and their flat lists *)

(** The entry of [t] in the cell [(k, r, c)]: [t[k][r][c]] inside the
    diagram. *)
Definition entry_at {A : Type} (t : list (list (list A))) (cell : nat * nat * nat)
  : option A :=
  let '(k, r, c) := cell in
  match nth_error t k with
  | Some comp =>
      match nth_error comp r with
      | Some row => nth_error row c
      | None => None
      end
  | None => None
  end.

(** The entries read component after component, row after row. *)
Definition flat {A : Type} (t : list (list (list A))) : list A :=
  concat (map (@concat A) t).

(** The entries as integers. *)
Definition to_Z (t : list (list (list nat))) : tableau_tuple :=
  map (map (map Z.of_nat)) t.

Lemma map_nth_error_seq {A : Type} (row : list A) :
  map (nth_error row) (seq 0 (length row)) = map Some row.
Proof.
  induction row as [|a row IH]; [reflexivity|].
  cbn [length seq map nth_error]. f_equal.
  rewrite <- seq_shift, map_map. exact IH.
Qed.

Lemma read_rows {A : Type} (k : nat) (rows : list (list A)) :
  forall r0,
    map (fun cell => match nth_error rows (snd (fst cell) - r0) with
                     | Some row => nth_error row (snd cell)
                     | None => None
                     end)
        (row_cells k r0 (map (@length A) rows))
    = map Some (concat rows).
Proof.
  induction rows as [|row rest IH]; intros r0; [reflexivity|].
  cbn [map row_cells concat]. rewrite !map_app, map_map. f_equal.
  - cbn [fst snd]. rewrite Nat.sub_diag. cbn [nth_error].
    apply map_nth_error_seq.
  - rewrite <- (IH (S r0)). apply map_ext_in. intros [[k' r] c] Hin.
    apply In_row_cells in Hin. destruct Hin as (_ & Hr & _). cbn [fst snd].
    replace (r - r0) with (S (r - S r0)) by lia. reflexivity.
Qed.

Lemma In_comp_cells_from (k0 : nat) (mu : shape) (k r c : nat) :
  In (k, r, c) (comp_cells k0 mu) -> k0 <= k.
Proof.
  intros Hin. apply In_nth_error in Hin. destruct Hin as [p Hp].
  now destruct (comp_cells_bounds k0 mu p k r c Hp).
Qed.

Lemma read_comps {A : Type} (t : list (list (list A))) :
  forall k0,
    map (fun cell => entry_at t (fst (fst cell) - k0, snd (fst cell), snd cell))
        (comp_cells k0 (shape_of_tuple t))
    = map Some (flat t).
Proof.
  induction t as [|comp t IH]; intros k0; [reflexivity|].
  unfold flat. cbn [shape_of_tuple map comp_cells concat].
  rewrite !map_app. f_equal.
  - rewrite <- (read_rows k0 comp 0). apply map_ext_in. intros [[k r] c] Hin.
    apply In_row_cells in Hin. destruct Hin as (-> & _ & _). cbn [fst snd].
    rewrite Nat.sub_diag, Nat.sub_0_r. reflexivity.
  - fold (shape_of_tuple t). fold (flat t). rewrite <- (IH (S k0)).
    apply map_ext_in. intros [[k r] c] Hin.
    apply In_comp_cells_from in Hin. cbn [fst snd].
    replace (k - k0) with (S (k - S k0)) by lia. reflexivity.
Qed.

(** Position [p] of the flat list is the entry of the cell at position [p]. *)
Lemma read_cells {A : Type} (t : list (list (list A))) (p : nat) (cell : nat * nat * nat) :
  nth_error (cells (shape_of_tuple t)) p = Some cell ->
  entry_at t cell = nth_error (flat t) p /\ p < length (flat t).
Proof.
  intros Hp. assert (H := f_equal (fun l => nth_error l p) (read_comps t 0)).
  cbn beta in H. rewrite !nth_error_map in H. unfold cells in Hp. rewrite Hp in H.
  destruct cell as [[k r] c]. cbn [option_map fst snd] in H.
  rewrite Nat.sub_0_r in H.
  destruct (nth_error (flat t) p) as [v|] eqn:E; [|discriminate].
  cbn in H. injection H as H. split; [exact H|].
  apply nth_error_Some. congruence.
Qed.

(** *** Cutting and flattening *)

Lemma shape_cut_rows (nu l : list nat) :
  psize nu <= length l -> map (@length nat) (cut_rows nu l) = nu.
Proof.
  revert l. induction nu as [|len rest IH]; intros l Hl; [reflexivity|].
  change (psize (len :: rest)) with (len + psize rest) in Hl.
  cbn [cut_rows map]. rewrite length_firstn, Nat.min_l by lia. f_equal.
  apply IH. rewrite length_skipn. lia.
Qed.

Lemma shape_cut_comps (mu : shape) (l : list nat) :
  size mu <= length l -> shape_of_tuple (cut_comps mu l) = mu.
Proof.
  revert l. induction mu as [|nu rest IH]; intros l Hl; [reflexivity|].
  rewrite size_cons in Hl. cbn [cut_comps shape_of_tuple map]. f_equal.
  - apply shape_cut_rows. rewrite length_firstn. lia.
  - apply IH. rewrite length_skipn. lia.
Qed.

Lemma skipn_app_length {A : Type} (l1 l2 : list A) :
  skipn (length l1) (l1 ++ l2) = l2.
Proof. induction l1 as [|a l1 IH]; [reflexivity|exact IH]. Qed.

Lemma cut_rows_concat (rows : list (list nat)) (rest : list nat) :
  cut_rows (map (@length nat) rows) (concat rows ++ rest) = rows.
Proof.
  induction rows as [|row rows IH]; [reflexivity|].
  cbn [map cut_rows concat]. rewrite <- app_assoc.
  now rewrite firstn_app_length, skipn_app_length, IH.
Qed.

Lemma length_concat_rows {A : Type} (rows : list (list A)) :
  length (concat rows) = psize (map (@length A) rows).
Proof.
  induction rows as [|row rows IH]; [reflexivity|].
  cbn [concat map]. rewrite length_app, IH. reflexivity.
Qed.

Lemma cut_comps_flat (t : list (list (list nat))) (rest : list nat) :
  cut_comps (shape_of_tuple t) (flat t ++ rest) = t.
Proof.
  induction t as [|comp t IH]; [reflexivity|].
  unfold flat. cbn [shape_of_tuple map cut_comps concat].
  fold (shape_of_tuple t). fold (flat t). rewrite <- app_assoc.
  assert (E : psize (shape_of_tableau comp) = length (concat comp))
    by (symmetry; apply length_concat_rows).
  rewrite E, firstn_app_length, skipn_app_length, IH. f_equal.
  rewrite <- (app_nil_r (concat comp)). apply cut_rows_concat.
Qed.

Lemma length_flat {A : Type} (t : list (list (list A))) :
  length (flat t) = size (shape_of_tuple t).
Proof.
  induction t as [|comp t IH]; [reflexivity|].
  unfold flat. cbn [map concat shape_of_tuple]. rewrite length_app.
  fold (flat t). fold (shape_of_tuple t). rewrite IH, size_cons. f_equal.
  apply length_concat_rows.
Qed.

(** A tableau tuple is its flat list cut along its shape. *)
Lemma tableau_from_list_flat (t : list (list (list nat))) :
  tableau_from_list (shape_of_tuple t) (flat t) = t.
Proof.
  rewrite tableau_from_list_cut. rewrite <- (app_nil_r (flat t)).
  apply cut_comps_flat.
Qed.

Lemma flat_tableau_from_list (mu : shape) (tab : list nat) :
  length tab = size mu -> flat (tableau_from_list mu tab) = tab.
Proof.
  intros Hlen. rewrite tableau_from_list_cut. unfold flat.
  rewrite concat_cut_comps, <- Hlen. apply firstn_all.
Qed.

Lemma shape_tableau_from_list (mu : shape) (tab : list nat) :
  length tab = size mu -> shape_of_tuple (tableau_from_list mu tab) = mu.
Proof.
  intros Hlen. rewrite tableau_from_list_cut. apply shape_cut_comps. lia.
Qed.

(** *** Standard tableau tuples and standard flat lists *)

Lemma shape_to_Z (t : list (list (list nat))) :
  shape_of_tuple (to_Z t) = shape_of_tuple t.
Proof.
  unfold shape_of_tuple, to_Z, shape_of_tableau. rewrite map_map.
  apply map_ext. intros comp. rewrite map_map. apply map_ext. intros row.
  apply length_map.
Qed.

Lemma flat_to_Z (t : list (list (list nat))) :
  flat (to_Z t) = map Z.of_nat (flat t).
Proof.
  unfold flat, to_Z. rewrite concat_map, !map_map. f_equal.
  apply map_ext. intros comp. now rewrite concat_map.
Qed.

Lemma entries_flat (tz : tableau_tuple) : entries tz = flat tz.
Proof. reflexivity. Qed.

Lemma forallb_over_map {A B : Type} (f : B -> bool) (g : A -> B) (l : list A) :
  forallb f (map g l) = forallb (fun a => f (g a)) l.
Proof. induction l as [|a l IH]; [reflexivity|]. cbn. now rewrite IH. Qed.

Lemma valid_to_Z (t : list (list (list nat))) :
  valid_tuple (to_Z t) <-> is_partition_tuple (shape_of_tuple t) = true.
Proof.
  unfold valid_tuple, is_partition_tuple. rewrite <- shape_to_Z.
  unfold shape_of_tuple. rewrite forallb_over_map. reflexivity.
Qed.

Lemma Permutation_of_nat (a b : list nat) :
  Permutation (map Z.of_nat a) (map Z.of_nat b) <-> Permutation a b.
Proof.
  split; [|apply Permutation_map].
  intros H. apply (Permutation_map Z.to_nat) in H. rewrite !map_map in H.
  rewrite (map_ext _ id), (map_ext (fun x => Z.to_nat (Z.of_nat x)) id) in H
    by (intros x; apply Nat2Z.id).
  now rewrite !map_id in H.
Qed.

Lemma bijective_to_Z (t : list (list (list nat))) :
  bijective (to_Z t) <-> Permutation (flat t) (seq 1 (size (shape_of_tuple t))).
Proof.
  unfold bijective. rewrite entries_flat, length_flat, shape_to_Z, flat_to_Z.
  unfold range1. apply Permutation_of_nat.
Qed.

Lemma entry_at_holds (tz : tableau_tuple) (k r c : nat) (v : Z) :
  entry_at tz (k, r, c) = Some v <-> holds tz k r c v.
Proof.
  unfold entry_at, holds, tableau_tuple, tableau in *. cbv beta iota. split.
  - destruct (nth_error tz k) as [comp|] eqn:Ek; [|intros H; discriminate H].
    destruct (nth_error comp r) as [row|] eqn:Er; [|intros H; discriminate H].
    intros H. now exists comp, row.
  - intros (comp & row & -> & -> & H). exact H.
Qed.

(** The cell at a position holds the entry at that position. *)
Lemma position_holds (t : list (list (list nat))) (p k r c : nat) :
  nth_error (cells (shape_of_tuple t)) p = Some (k, r, c) ->
  holds (to_Z t) k r c (Z.of_nat (nth p (flat t) 0)).
Proof.
  intros Hp. rewrite <- shape_to_Z in Hp.
  destruct (read_cells (to_Z t) p (k, r, c) Hp) as [E Hlt].
  apply entry_at_holds. rewrite E, flat_to_Z, nth_error_map.
  rewrite flat_to_Z, length_map in Hlt.
  now rewrite (nth_error_nth' (flat t) 0 Hlt).
Qed.

(** A cell that holds an entry has a position, and the entry is there. *)
Lemma holds_position (t : list (list (list nat))) (k r c : nat) (v : Z) :
  holds (to_Z t) k r c v ->
  exists p, nth_error (cells (shape_of_tuple t)) p = Some (k, r, c) /\
            v = Z.of_nat (nth p (flat t) 0).
Proof.
  intros H. assert (Hin := holds_cells (to_Z t) k r c v H).
  rewrite shape_to_Z in Hin. apply In_nth_error in Hin. destruct Hin as [p Hp].
  exists p. split; [exact Hp|].
  assert (H' := position_holds t p k r c Hp).
  destruct H as (comp & row & Hk & Hr & Hc).
  destruct H' as (comp' & row' & Hk' & Hr' & Hc'). congruence.
Qed.

Lemma standard_to_Z (t : list (list (list nat))) :
  is_partition_tuple (shape_of_tuple t) = true ->
  standard (shape_of_tuple t) (flat t) <-> is_standard_tuple (to_Z t).
Proof.
  intros Hmu. unfold standard, is_standard_tuple.
  rewrite <- bijective_to_Z. split.
  - intros [Hb Hcov]. split; [now apply valid_to_Z|]. split; [|split; [exact Hb|]].
    + intros comp row i a b Hcomp Hrow Ha Hb'.
      apply In_nth_error in Hcomp. destruct Hcomp as [k Hk].
      apply In_nth_error in Hrow. destruct Hrow as [r Hr].
      destruct (holds_position t k r i a) as (p & Hp & ->);
        [now exists comp, row|].
      destruct (holds_position t k r (S i) b) as (q & Hq & ->);
        [now exists comp, row|].
      apply inj_lt. apply Hcov. exists k, r, i. split; [exact Hp|now left].
    + intros comp r upper lower c a b Hcomp Hu Hl Ha Hb'.
      apply In_nth_error in Hcomp. destruct Hcomp as [k Hk].
      destruct (holds_position t k r c a) as (p & Hp & ->);
        [now exists comp, upper|].
      destruct (holds_position t k (S r) c b) as (q & Hq & ->);
        [now exists comp, lower|].
      apply inj_lt. apply Hcov. exists k, r, c. split; [exact Hp|now right].
  - intros (_ & Hrow & Hb & Hcol). split; [exact Hb|].
    intros p q (k & r & c & Hp & Hq).
    assert (Ha := position_holds t p k r c Hp).
    destruct Ha as (comp & row & Hk & Hr & Hc).
    apply Nat2Z.inj_lt. destruct Hq as [Hq|Hq].
    + destruct (position_holds t q k r (S c) Hq) as (comp' & row' & Hk' & Hr' & Hc').
      assert (comp' = comp) by congruence. subst comp'.
      assert (row' = row) by congruence. subst row'.
      apply (Hrow comp row c); try assumption.
      * eapply nth_error_In; eassumption.
      * eapply nth_error_In; eassumption.
    + destruct (position_holds t q k (S r) c Hq) as (comp' & row' & Hk' & Hr' & Hc').
      assert (comp' = comp) by congruence. subst comp'.
      apply (Hcol comp r row row' c); try assumption.
      eapply nth_error_In; eassumption.
Qed.

(** The tableau tuples that the generator is to yield: those of shape [mu]
    that [StandardTableauTuple] accepts. *)
Definition standard_of_shape (mu : shape) (t : list (list (list nat))) : Prop :=
  shape_of_tuple t = mu /\ is_standard_tuple (to_Z t).

Lemma standard_of_shape_flat (mu : shape) (t : list (list (list nat))) :
  is_partition_tuple mu = true ->
  standard_of_shape mu t <-> exists tab, standard mu tab /\ t = tableau_from_list mu tab.
Proof.
  intros Hmu. split.
  - intros [Hs Hstd]. exists (flat t). subst mu. split.
    + now apply standard_to_Z.
    + symmetry. apply tableau_from_list_flat.
  - intros (tab & Hstd & ->).
    assert (Hlen := standard_length mu tab Hstd).
    assert (Hs := shape_tableau_from_list mu tab Hlen).
    split; [exact Hs|].
    apply standard_to_Z; rewrite Hs; [assumption|].
    now rewrite flat_tableau_from_list.
Qed.

(** [StandardTableauTuple.__init__] accepts the standard tableau tuples. *)
Lemma Standard_init_ok (tz : tableau_tuple) :
  is_standard_tuple tz -> StandardTableauTuple_init tz true = Ok (AsComponents tz).
Proof.
  intros (Hv & Hr & Hb & Hc). rewrite (Standard_init_cases tz Hv).
  apply is_row_strict_spec in Hr. rewrite Hr.
  apply sorted_is_range in Hb.
  destruct (list_eq_dec Z.eq_dec (sorted (entries tz))
                        (range1 (length (sorted (entries tz))))) as [_|Hn];
    [|contradiction].
  apply is_column_strict_spec in Hc. now rewrite Hc.
Qed.

Lemma In_yielded (mu : shape) (l : list state) :
  is_partition_tuple mu = true ->
  (forall tab, In tab (map st_tab l) <-> standard mu tab) ->
  forall t, In t (yielded_tableaux mu (Done l)) <-> standard_of_shape mu t.
Proof.
  intros Hmu HL t. rewrite (standard_of_shape_flat mu t Hmu).
  cbn [yielded_tableaux]. rewrite in_map_iff. split.
  - intros (s & <- & Hs). exists (st_tab s). split; [|reflexivity].
    apply HL. now apply in_map.
  - intros (tab & Hstd & ->). apply HL in Hstd. apply in_map_iff in Hstd.
    destruct Hstd as (s & <- & Hs). now exists s.
Qed.

(** [StandardTableauTuples_shape(mu).__iter__()] yields the standard tableau
    tuples of shape [mu] and nothing else, each of them once. *)
Theorem iter_yields_the_standard_tableau_tuples (mu : shape) :
  is_partition_tuple mu = true ->
  exists (bound : nat) (l : list state),
    (forall fuel, bound <= fuel -> iter mu fuel = Done l) /\
    NoDup (yielded_tableaux mu (Done l)) /\
    (forall t, In t (yielded_tableaux mu (Done l)) <-> standard_of_shape mu t).
Proof.
  intros Hmu.
  destruct (iter_enumerates mu Hmu) as (bound & l & Hiter & Hnd & HL).
  exists bound, l. split; [exact Hiter|]. split.
  - apply yielded_NoDup; [assumption|]. intros tab. apply HL.
  - now apply In_yielded.
Qed.

Lemma iter_yields_the_standard_tableau_tuples_witness :
  is_partition_tuple [[2; 1]; [1]] = true /\
  exists (bound : nat) (l : list state),
    (forall fuel, bound <= fuel -> iter [[2; 1]; [1]] fuel = Done l) /\
    NoDup (yielded_tableaux [[2; 1]; [1]] (Done l)) /\
    (forall t, In t (yielded_tableaux [[2; 1]; [1]] (Done l))
               <-> standard_of_shape [[2; 1]; [1]] t).
Proof.
  split; [reflexivity|].
  apply (iter_yields_the_standard_tableau_tuples [[2; 1]; [1]]). reflexivity.
Defined.

(** The tableau tuples that [__iter__] builds with [check=False] are those
    that the checked constructor [StandardTableauTuple.__init__] accepts
    unchanged. *)
Theorem unchecked_elements_pass_the_check (mu : shape) (fuel : nat) (l : list state) :
  is_partition_tuple mu = true ->
  iter mu fuel = Done l ->
  Forall (fun t => StandardTableauTuple_init (to_Z t) true = Ok (AsComponents (to_Z t))
                   /\ StandardTableauTuple_init (to_Z t) false = Ok (AsComponents (to_Z t)))
         (yielded_tableaux mu (Done l)).
Proof.
  intros Hmu Hrun.
  destruct (iter_enumerates mu Hmu) as (bound & l' & Hiter & _ & Htabs).
  assert (HL := In_yielded mu l' Hmu Htabs).
  assert (l' = l).
  { assert (H1 := Hiter (bound + fuel) ltac:(lia)).
    assert (H2 : iter mu (fuel + bound) = Done l).
    { unfold iter in *. rewrite init_cols_mins_eq in *.
      now apply run_more_fuel. }
    rewrite Nat.add_comm in H2. congruence. }
  subst l'. apply Forall_forall. intros t Ht. apply HL in Ht.
  destruct Ht as [_ Hstd]. split; [now apply Standard_init_ok|].
  unfold StandardTableauTuple_init, RowStandardTableauTuple_init.
  destruct Hstd as (Hv & _). now rewrite (coerce_valid _ Hv).
Qed.

Lemma unchecked_elements_pass_the_check_witness :
  is_partition_tuple [[1]; [1]] = true /\
  iter [[1]; [1]] 5 = Done [mkstate [1; 2] [0; 1; 0]; mkstate [2; 1] [0; 0; 1]] /\
  Forall (fun t => StandardTableauTuple_init (to_Z t) true = Ok (AsComponents (to_Z t))
                   /\ StandardTableauTuple_init (to_Z t) false = Ok (AsComponents (to_Z t)))
         (yielded_tableaux [[1]; [1]]
            (Done [mkstate [1; 2] [0; 1; 0]; mkstate [2; 1] [0; 0; 1]])).
Proof.
  split; [reflexivity|]. split; [reflexivity|].
  apply (unchecked_elements_pass_the_check [[1]; [1]] 5); reflexivity.
Defined.

(** ** [RowStandardTableauTuple.inverse] *)

(** The loop over the rows of component [l]; [None]: no row holds [k]. *)
Fixpoint inverse_rows (k : Z) (rows : list (list Z)) (l r : nat)
  : option (nat * nat * nat) :=
  match rows with
  | [] => None
  | row :: rest =>
      match indexZ row k with
      | Some c => Some (l, r, c)
      | None => inverse_rows k rest l (S r)
      end
  end.

Fixpoint inverse_comps (k : Z) (comps : tableau_tuple) (l : nat)
  : res (nat * nat * nat) :=
  match comps with
  | [] => Raise (ValueError must_be_contained)
  | tab :: rest =>
      match inverse_rows k tab l 0 with
      | Some cell => Ok cell
      | None => inverse_comps k rest (S l)
      end
  end.

Definition inverse (t : tableau_tuple) (k : Z) : res (nat * nat * nat) :=
  inverse_comps k t 0.

(** ** [TableauTuple.residue] *)

Fixpoint residue_rows (e : Z) (multicharge : list Z) (l : nat) (k : Z)
         (rows : list (list Z)) (r : nat) : option (res Z) :=
  match rows with
  | [] => None
  | row :: rest =>
      match getitem multicharge l with
      | Raise err => Some (Raise err)
      | Ok a =>
          match indexZ row k with
          | Some c => Some (Ok (base_ring e (a - Z.of_nat r + Z.of_nat c)%Z))
          | None => residue_rows e multicharge l k rest (S r)
          end
      end
  end.

Fixpoint residue_comps (e : Z) (multicharge : list Z) (k : Z)
         (comps : tableau_tuple) (l : nat) : res Z :=
  match comps with
  | [] => Raise (ValueError must_be_contained)
  | tab :: rest =>
      match residue_rows e multicharge l k tab 0 with
      | Some r => r
      | None => residue_comps e multicharge k rest (S l)
      end
  end.

Definition residue (t : tableau_tuple) (k e : Z) (multicharge : list Z) : res Z :=
  residue_comps e multicharge k t 0.

(** The row standard tableau tuple of the examples of [inverse]. *)
Definition three_components : tableau_tuple :=
  [[[3; 4]; [1; 2]]; [[5; 6; 7]; [8]]; [[9; 10]; [11]; [12]]]%Z.

(** *** The cell of an entry *)

Lemma indexZ_Some (row : list Z) (k : Z) (c : nat) :
  indexZ row k = Some c <-> nth_error row c = Some k /\ ~ In k (firstn c row).
Proof.
  unfold indexZ. split.
  - assert (G : forall i c', index_from Z.eqb row k i = Some c' ->
                             exists c0, c' = i + c0 /\ nth_error row c0 = Some k
                                        /\ ~ In k (firstn c0 row)).
    { induction row as [|h row IH]; intros i c' H; [discriminate|].
      cbn in H. destruct (Z.eqb_spec h k) as [->|Hne].
      - injection H as <-. exists 0. cbn. repeat split; [lia|tauto].
      - destruct (IH (S i) c' H) as (c0 & -> & Hn & Hf).
        exists (S c0). cbn. repeat split; [lia|assumption|].
        intros [E|Hin]; [now apply Hne|now apply Hf]. }
    intros H. destruct (G 0 c H) as (c0 & -> & Hn & Hf). now split.
  - intros [Hn Hf]. now rewrite (index_from_first row k 0 c Hn Hf).
Qed.

Lemma indexZ_None (row : list Z) (k : Z) : indexZ row k = None <-> ~ In k row.
Proof. apply index_from_None. Qed.

Lemma inverse_rows_Some (k : Z) (rows : list (list Z)) (l r0 : nat) (cell : nat * nat * nat) :
  inverse_rows k rows l r0 = Some cell <->
  exists r c row, cell = (l, r0 + r, c) /\ nth_error rows r = Some row /\
                  nth_error row c = Some k /\ ~ In k (firstn c row) /\
                  (forall r' row', r' < r -> nth_error rows r' = Some row' -> ~ In k row').
Proof.
  revert r0. induction rows as [|row rest IH]; intros r0; cbn [inverse_rows].
  - split; [discriminate|]. intros (r & c & row & _ & H & _). destruct r; discriminate.
  - destruct (indexZ row k) as [c|] eqn:E.
    + apply indexZ_Some in E. destruct E as [Hn Hf]. split.
      * intros [= <-]. exists 0, c, row. rewrite Nat.add_0_r.
        repeat split; try assumption. intros r' row' Hr'. lia.
      * intros (r & c' & row' & -> & Hr & Hc & Hf' & Hprev).
        destruct r as [|r].
        -- cbn in Hr. injection Hr as <-. rewrite Nat.add_0_r. do 2 f_equal.
           destruct (Nat.lt_trichotomy c c') as [Hlt|[Heq|Hgt]]; [|assumption|].
           ++ exfalso. apply Hf'. eapply nth_error_In_firstn; eassumption.
           ++ exfalso. apply Hf. eapply nth_error_In_firstn; eassumption.
        -- exfalso. apply (Hprev 0 row ltac:(lia) eq_refl).
           eapply nth_error_In; eassumption.
    + apply indexZ_None in E. rewrite IH. split.
      * intros (r & c & row' & -> & Hr & Hc & Hf & Hprev).
        exists (S r), c, row'. repeat split; try assumption.
        -- f_equal. f_equal. lia.
        -- intros [|r'] row'' Hlt Hn; cbn in Hn.
           ++ now injection Hn as <-.
           ++ apply (Hprev r'); [lia|assumption].
      * intros (r & c & row' & -> & Hr & Hc & Hf & Hprev). destruct r as [|r].
        -- cbn in Hr. injection Hr as <-. exfalso. apply E.
           eapply nth_error_In; eassumption.
        -- exists r, c, row'. repeat split; try assumption.
           ++ f_equal. f_equal. lia.
           ++ intros r' row'' Hlt Hn. apply (Hprev (S r')); [lia|assumption].
Qed.

Lemma inverse_rows_None (k : Z) (rows : list (list Z)) (l r0 : nat) :
  inverse_rows k rows l r0 = None <-> forall row, In row rows -> ~ In k row.
Proof.
  revert r0. induction rows as [|row rest IH]; intros r0; cbn [inverse_rows].
  - split; [intros _ row []|reflexivity].
  - destruct (indexZ row k) as [c|] eqn:E.
    + apply indexZ_Some in E. destruct E as [Hn _]. split; [discriminate|].
      intros H. exfalso. apply (H row); [now left|].
      eapply nth_error_In; eassumption.
    + apply indexZ_None in E. rewrite IH. split.
      * intros H row' [<-|Hin]; [assumption|now apply H].
      * intros H row' Hin. apply H. now right.
Qed.

Lemma inverse_comps_Ok (k : Z) (comps : tableau_tuple) (l0 : nat) (cell : nat * nat * nat) :
  inverse_comps k comps l0 = Ok cell <->
  exists l r c, cell = (l0 + l, r, c) /\ first_occurrence comps k l r c.
Proof.
  revert l0. induction comps as [|tab rest IH]; intros l0; cbn [inverse_comps].
  - split; [discriminate|].
    intros (l & r & c & _ & comp & row & H & _). destruct l; discriminate.
  - destruct (inverse_rows k tab l0 0) as [cell'|] eqn:E.
    + apply inverse_rows_Some in E.
      destruct E as (r & c & row & -> & Hr & Hc & Hf & Hprev). cbn [Nat.add]. split.
      * intros [= <-]. exists 0, r, c. rewrite Nat.add_0_r. split; [reflexivity|].
        exists tab, row. repeat split; try assumption.
        intros l' comp' row' Hl'. lia.
      * intros (l & r' & c' & -> & comp & row' & Hl & Hr' & Hc' & Hf' & Hprev' & Hcomps).
        destruct l as [|l].
        -- cbn in Hl. injection Hl as <-. rewrite Nat.add_0_r.
           assert (Er : r = r').
           { destruct (Nat.lt_trichotomy r r') as [Hlt|[Heq|Hgt]]; [|assumption|].
             - exfalso. apply (Hprev' r row Hlt Hr). eapply nth_error_In; eassumption.
             - exfalso. apply (Hprev r' row' Hgt Hr'). eapply nth_error_In; eassumption. }
           subst r'. assert (row' = row) by congruence. subst row'.
           do 2 f_equal.
           destruct (Nat.lt_trichotomy c c') as [Hlt|[Heq|Hgt]]; [|assumption|].
           ++ exfalso. apply Hf'. eapply nth_error_In_firstn; eassumption.
           ++ exfalso. apply Hf. eapply nth_error_In_firstn; eassumption.
        -- exfalso. apply (Hcomps 0 tab row ltac:(lia) eq_refl).
           ++ eapply nth_error_In; eassumption.
           ++ eapply nth_error_In; eassumption.
    + assert (Hnone := proj1 (inverse_rows_None k tab l0 0) E).
      rewrite IH. split.
      * intros (l & r & c & -> & comp & row & Hl & Hr & Hc & Hf & Hprev & Hcomps).
        exists (S l), r, c. split; [f_equal; f_equal; lia|].
        exists comp, row. repeat split; try assumption.
        intros [|l'] comp' row' Hlt Hn Hin; cbn in Hn.
        -- injection Hn as <-. now apply Hnone.
        -- apply (Hcomps l' comp' row'); [lia|assumption|assumption].
      * intros (l & r & c & -> & comp & row & Hl & Hr & Hc & Hf & Hprev & Hcomps).
        destruct l as [|l].
        -- cbn in Hl. injection Hl as <-. exfalso.
           apply (Hnone row); eapply nth_error_In; eassumption.
        -- exists l, r, c. split; [f_equal; f_equal; lia|].
           exists comp, row. repeat split; try assumption.
           intros l' comp' row' Hlt Hn Hin.
           apply (Hcomps (S l') comp' row'); [lia|assumption|assumption].
Qed.

Lemma inverse_comps_Raise (k : Z) (comps : tableau_tuple) (l0 : nat) (err : exn) :
  inverse_comps k comps l0 = Raise err <->
  err = ValueError must_be_contained /\ ~ In k (entries comps).
Proof.
  revert l0. induction comps as [|tab rest IH]; intros l0; cbn [inverse_comps].
  - split; [intros [= <-]; split; [reflexivity|intros []]|intros [-> _]; reflexivity].
  - unfold entries. cbn [map concat]. fold (entries rest).
    destruct (inverse_rows k tab l0 0) as [cell'|] eqn:E.
    + split; [discriminate|]. intros [_ Hn]. exfalso.
      apply inverse_rows_Some in E. destruct E as (r & c & row & _ & Hr & Hc & _).
      apply Hn. apply in_or_app. left. unfold entries_of_tableau.
      apply in_concat. exists row. split; eapply nth_error_In; eassumption.
    + assert (Hnone := proj1 (inverse_rows_None k tab l0 0) E).
      rewrite IH. split; intros [-> Hn]; (split; [reflexivity|]).
      * intros Hin. apply in_app_or in Hin. destruct Hin as [Hin|Hin]; [|contradiction].
        unfold entries_of_tableau in Hin. apply in_concat in Hin.
        destruct Hin as (row & Hrow & Hk). now apply (Hnone row).
      * intros Hin. apply Hn. apply in_or_app. now right.
Qed.

(** ** [inverse], [content], [residue] and [__call__] *)

(** [inverse(k)] returns the first cell that holds [k], the components read
    in order, the rows from the top, a row from the left; it raises the
    [ValueError] of a missing entry, and nothing else, exactly when [k] is
    not an entry. *)
Theorem inverse_finds_the_first_cell (t : tableau_tuple) (k : Z) :
  (forall l r c, inverse t k = Ok (l, r, c) <-> first_occurrence t k l r c) /\
  (inverse t k = Raise (ValueError must_be_contained) <-> ~ In k (entries t)) /\
  (forall err, inverse t k = Raise err -> err = ValueError must_be_contained).
Proof.
  unfold inverse. split; [|split].
  - intros l r c. rewrite inverse_comps_Ok. split.
    + intros (l' & r' & c' & [= -> -> ->] & H). exact H.
    + intros H. now exists l, r, c.
  - rewrite inverse_comps_Raise. tauto.
  - intros err H. now apply inverse_comps_Raise in H.
Qed.

Lemma getitem3_nat (t : tableau_tuple) (l r c : nat) (k : Z) :
  getitem3 t (Z.of_nat l) (Z.of_nat r) (Z.of_nat c) = Ok k <-> holds t l r c k.
Proof.
  unfold getitem3, holds.
  rewrite (py_getitem_nonneg _ t _ (Nat2Z.is_nonneg l)), Nat2Z.id.
  destruct (nth_error t l) as [comp|] eqn:El; cbn [bind].
  2:{ split; [discriminate|]. intros (? & ? & H & _). discriminate. }
  rewrite (py_getitem_nonneg _ comp _ (Nat2Z.is_nonneg r)), Nat2Z.id.
  destruct (nth_error comp r) as [row|] eqn:Er; cbn [bind].
  2:{ split; [discriminate|]. intros (? & ? & [= <-] & H & _). congruence. }
  rewrite (py_getitem_nonneg _ row _ (Nat2Z.is_nonneg c)), Nat2Z.id.
  destruct (nth_error row c) as [v|] eqn:Ec.
  - split.
    + intros [= ->]. now exists comp, row.
    + intros (? & ? & [= <-] & H1 & H2). congruence.
  - split; [discriminate|]. intros (? & ? & [= <-] & H1 & H2). congruence.
Qed.

Lemma call_Ok (t : tableau_tuple) (k r c v : Z) :
  call t (Coordinates k r c) = Ok v <-> getitem3 t k r c = Ok v.
Proof.
  unfold call. destruct (getitem3 t k r c) as [x|[m|m|m]]; split; congruence.
Qed.

(** On a tableau tuple whose entries are different from each other, as in a
    row standard one, [inverse] undoes [__call__]: the cell [(l, r, c)]
    holds [k] exactly when [inverse(k)] returns [(l, r, c)]. *)
Theorem inverse_inverts_call (t : tableau_tuple) (k : Z) (l r c : nat) :
  NoDup (entries t) ->
  (call t (Coordinates (Z.of_nat l) (Z.of_nat r) (Z.of_nat c)) = Ok k
   <-> inverse t k = Ok (l, r, c)) /\
  (call t (CellTriple (Z.of_nat l, Z.of_nat r, Z.of_nat c)) = Ok k
   <-> inverse t k = Ok (l, r, c)).
Proof.
  intros Hnd.
  assert (H : call t (Coordinates (Z.of_nat l) (Z.of_nat r) (Z.of_nat c)) = Ok k
              <-> inverse t k = Ok (l, r, c)).
  { rewrite call_Ok, getitem3_nat. unfold inverse. rewrite inverse_comps_Ok. split.
    - intros Hh. exists l, r, c. split; [reflexivity|].
      now apply holds_first_occurrence.
    - intros (l' & r' & c' & [= -> -> ->] & comp & row & H1 & H2 & H3 & _).
      now exists comp, row. }
  split; exact H.
Qed.

Lemma inverse_inverts_call_witness :
  NoDup (entries three_components) /\
  (call three_components (Coordinates (Z.of_nat 0) (Z.of_nat 1) (Z.of_nat 0)) = Ok 1%Z
   <-> inverse three_components 1 = Ok (0, 1, 0)) /\
  (call three_components (CellTriple (Z.of_nat 0, Z.of_nat 1, Z.of_nat 0)) = Ok 1%Z
   <-> inverse three_components 1 = Ok (0, 1, 0)).
Proof.
  assert (Hnd : NoDup (entries three_components)).
  { apply (Permutation_NoDup (l := range1 12)); [|apply range1_NoDup].
    apply Permutation_sym. apply sorted_is_range. reflexivity. }
  split; [exact Hnd|].
  apply (inverse_inverts_call three_components 1 0 1 0 Hnd).
Defined.

(** When the multicharge has an entry for every component, the content of
    [k] is [multicharge[l] - r + c] for the cell [(l, r, c)] that
    [inverse(k)] returns, and [content] raises what [inverse] raises. *)
Theorem content_of_inverse (t : tableau_tuple) (k : Z) (multicharge : list Z) :
  length t <= length multicharge ->
  content t k multicharge
  = match inverse t k with
    | Ok (l, r, c) => Ok (nth l multicharge 0 - Z.of_nat r + Z.of_nat c)%Z
    | Raise err => Raise err
    end.
Proof.
  intros Hmc. unfold content, inverse.
  destruct (inverse_comps k t 0) as [[[l r] c]|err] eqn:E.
  - apply inverse_comps_Ok in E. destruct E as (l' & r' & c' & [= -> -> ->] & Hf).
    now rewrite (content_comps_first multicharge k t 0 l' r' c').
  - apply inverse_comps_Raise in E. destruct E as [-> Hn].
    now apply content_comps_absent.
Qed.

Lemma content_of_inverse_witness :
  length three_components <= length [0; 1; 2]%Z /\
  content three_components 8 [0; 1; 2]%Z
  = match inverse three_components 8 with
    | Ok (l, r, c) => Ok (nth l [0; 1; 2]%Z 0 - Z.of_nat r + Z.of_nat c)%Z
    | Raise err => Raise err
    end.
Proof.
  split; [cbn; lia|].
  apply (content_of_inverse three_components 8 [0; 1; 2]%Z). cbn. lia.
Defined.

Lemma residue_rows_content (e : Z) (mc : list Z) (l : nat) (k : Z) (rows : list (list Z)) :
  forall r,
    residue_rows e mc l k rows r
    = match content_rows mc l k rows r with
      | Some (Ok x) => Some (Ok (base_ring e x))
      | Some (Raise err) => Some (Raise err)
      | None => None
      end.
Proof.
  induction rows as [|row rest IH]; intros r; [reflexivity|].
  cbn [residue_rows content_rows].
  destruct (getitem mc l) as [a|err]; [|reflexivity].
  destruct (indexZ row k) as [c|]; [reflexivity|apply IH].
Qed.

Lemma residue_comps_content (e : Z) (mc : list Z) (k : Z) (t : tableau_tuple) :
  forall l,
    residue_comps e mc k t l
    = match content_comps mc k t l with
      | Ok x => Ok (base_ring e x)
      | Raise err => Raise err
      end.
Proof.
  induction t as [|tab rest IH]; intros l; [reflexivity|].
  cbn [residue_comps content_comps]. rewrite residue_rows_content.
  destruct (content_rows mc l k tab 0) as [[x|err]|]; try reflexivity.
  apply IH.
Qed.

(** The residue of [k] is its content taken in the integers modulo [e]
    (the integers for [e = 0]); [residue] raises what [content] raises. *)
Theorem residue_is_content_in_base_ring (t : tableau_tuple) (k e : Z)
        (multicharge : list Z) :
  residue t k e multicharge
  = match content t k multicharge with
    | Ok x => Ok (base_ring e x)
    | Raise err => Raise err
    end.
Proof. unfold residue, content. apply residue_comps_content. Qed.

(** ** [RowStandardTableauTuple.residue_sequence] *)

(** For a tableau tuple with the entries 1, ..., n and a multicharge with an
    entry for every component, [residue_sequence(e, multicharge)] returns a
    residue sequence of length [n] whose entry for [k] is
    [residue(k, e, multicharge)]. *)
Theorem residue_sequence_lists_the_residues (n : nat) (t : tableau_tuple) (e : Z)
        (multicharge : list Z) :
  filled n t -> length t <= length multicharge ->
  exists rl,
    residue_sequence (lift_tuple t) e multicharge
    = Ok (mkResidueSequence e multicharge rl) /\
    length rl = n /\
    forall i, i < n -> residue t (Z.of_nat (S i)) e multicharge = Ok (nth i rl 0%Z).
Proof.
  intros Hf Hmc. assert (Hn := filled_numbered n t Hf).
  destruct (residue_sequence_loop n t multicharge Hn Hmc) as (res' & Hrun & Hlen & Hval).
  exists (map (base_ring e) res'). unfold residue_sequence. rewrite Hrun. cbn [bind].
  split; [reflexivity|]. split; [now rewrite length_map|].
  intros i Hi. destruct Hn as (_ & _ & _ & Honto).
  destruct (Honto (Z.of_nat (S i)) ltac:(lia)) as (k & r & c & Hx).
  specialize (Hval k r c _ Hx).
  replace (Z.to_nat (Z.of_nat (S i) - 1)) with i in Hval by lia.
  unfold residue. rewrite residue_comps_content.
  rewrite (content_comps_first multicharge (Z.of_nat (S i)) t 0 k r c Hmc).
  2:{ apply holds_first_occurrence; [|assumption]. eapply filled_NoDup. eassumption. }
  f_equal. rewrite (nth_indep (map (base_ring e) res') 0%Z (base_ring e 0))
    by (rewrite length_map; lia).
  now rewrite map_nth, Hval.
Qed.

Lemma residue_sequence_lists_the_residues_witness :
  filled 12 three_components /\
  length three_components <= length [0; 1; 2]%Z /\
  exists rl,
    residue_sequence (lift_tuple three_components) 3 [0; 1; 2]%Z
    = Ok (mkResidueSequence 3 [0; 1; 2]%Z rl) /\
    length rl = 12 /\
    forall i, i < 12 ->
              residue three_components (Z.of_nat (S i)) 3 [0; 1; 2]%Z = Ok (nth i rl 0%Z).
Proof.
  assert (Hf : filled 12 three_components).
  { split; [reflexivity|]. apply (proj1 (sorted_is_range (entries three_components))).
    reflexivity. }
  split; [exact Hf|]. split; [cbn; lia|].
  apply (residue_sequence_lists_the_residues 12 three_components 3 [0; 1; 2]%Z Hf).
  cbn. lia.
Defined.

(** * The parent classes *)

(** ** [TableauTuple.is_standard] *)

(** [all(t.is_row_strict() for t in self)], [all(t.is_column_strict() ...)] *)
Definition TableauTuple_is_row_strict (t : tableau_tuple) : bool :=
  forallb (is_row_strict Z.ltb) t.
Definition TableauTuple_is_column_strict (t : tableau_tuple) : bool :=
  forallb (is_column_strict Z.ltb) t.

(** [self.shape().size()] *)
Definition TableauTuple_size (t : tableau_tuple) : nat := size (shape_of_tuple t).

Definition is_standard (t : tableau_tuple) : bool :=
  (if list_eq_dec Z.eq_dec (sorted (entries t)) (range1 (TableauTuple_size t))
   then true else false)
  && TableauTuple_is_row_strict t && TableauTuple_is_column_strict t.

(** ** [StandardTableauTuples.__contains__] and
       [RowStandardTableauTuples.__contains__] on nested lists *)

(** [all(...)] of a generator whose items may raise: the items are read up
    to the first one that is false or raises. *)
Fixpoint py_all (items : list (res bool)) : res bool :=
  match items with
  | [] => Ok true
  | Ok true :: rest => py_all rest
  | Ok false :: _ => Ok false
  | Raise e :: _ => Raise e
  end.

(** [row[i] < row[i+1] for row in x for i in range(len(row)-1)] *)
Definition rows_increase (x : tableau) : list (res bool) :=
  flat_map (fun row =>
              map (fun i => a <- getitem row i ;; b <- getitem row (i + 1) ;;
                            Ok (a <? b)%Z)
                  (seq 0 (length row - 1)))
           x.

(** [x[r][c] < x[r+1][c] for c in range(len(x[0])) for r in range(len(x)-1)
     if len(x[r+1]) > c] *)
Definition columns_increase (x : tableau) : res (list (res bool)) :=
  x0 <- getitem x 0 ;;
  Ok (flat_map (fun c =>
                  flat_map (fun r =>
                              match getitem x (r + 1) with
                              | Raise e => [Raise e]
                              | Ok lower =>
                                  if c <? length lower
                                  then [upper <- getitem x r ;;
                                        a <- getitem upper c ;;
                                        b <- getitem lower c ;;
                                        Ok (a <? b)%Z]
                                  else []
                              end)
                           (seq 0 (length x - 1)))
               (seq 0 (length x0))).

(** [len(x) == 0 or (all(...) and all(...))] *)
Definition standard_component (x : tableau) : res bool :=
  if length x =? 0 then Ok true
  else
    rows <- py_all (rows_increase x) ;;
    if rows then cols <- columns_increase x ;; py_all cols else Ok false.

(** [len(s) == 0 or all(...)] *)
Definition row_standard_component (x : tableau) : res bool :=
  if length x =? 0 then Ok true else py_all (rows_increase x).

(** [flatt == list(range(1, len(flatt)+1))] for
    [flatt = sorted(sum((list(row) for s in t for row in s), []))] *)
Definition entries_are_range (t : tableau_tuple) : bool :=
  let flatt := sorted (concat (concat t)) in
  if list_eq_dec Z.eq_dec flatt (range1 (length flatt)) then true else false.

Section Contains.

(** Modelled from the spec: the membership tests [t in StandardTableaux()]
    and [t in RowStandardTableaux()] of the level one classes
    (sage.combinat.tableau, not under src/), used when some component of
    [t] is not a tableau. *)
Variable in_StandardTableaux : tableau_tuple -> bool.
Variable in_RowStandardTableaux : tableau_tuple -> bool.

(** The test on a list [t] of lists of lists of integers;
    [all(s in Tableaux() for s in t)] is the validity of the components. *)
Definition StandardTableauTuples_contains (t : tableau_tuple) : res bool :=
  if forallb (@valid_tableau Z) t then
    if entries_are_range t then py_all (map standard_component t) else Ok false
  else Ok (in_StandardTableaux t).

Definition RowStandardTableauTuples_contains (t : tableau_tuple) : res bool :=
  if forallb (@valid_tableau Z) t then
    if entries_are_range t then py_all (map row_standard_component t) else Ok false
  else Ok (in_RowStandardTableaux t).

(** [StandardTableauTuples_shape.__contains__]:
    [[[len(l) for l in s] for s in t] == self.shape()]; a list and the
    integer [sum(map(len, t))] are never equal. *)
Definition StandardTableauTuples_shape_contains (mu : shape) (t : tableau_tuple)
  : res bool :=
  member <- StandardTableauTuples_contains t ;;
  if member then
    if forallb (@valid_tableau Z) t
    then Ok (if list_eq_dec (list_eq_dec Nat.eq_dec) (shape_of_tuple t) mu
             then true else false)
    else Ok false
  else Ok false.

(** [StandardTableauTuples_level.__contains__] *)
Definition StandardTableauTuples_level_contains (level : nat) (t : tableau_tuple)
  : res bool :=
  member <- StandardTableauTuples_contains t ;;
  if member then
    if forallb (@valid_tableau Z) t then Ok (length t =? level)
    else Ok (level =? 1)
  else Ok false.

(** [StandardTableauTuples_size.__contains__]:
    [sum(sum(map(len, s)) for s in t) == self.size()], and
    [self.size() == sum(map(len, t))] for one tableau. *)
Definition StandardTableauTuples_size_contains (n : nat) (t : tableau_tuple)
  : res bool :=
  member <- StandardTableauTuples_contains t ;;
  if member then
    if forallb (@valid_tableau Z) t
    then Ok (sum_list (map (fun s => sum_list (map (@length Z) s)) t) =? n)
    else Ok (n =? sum_list (map (@length (list Z)) t))
  else Ok false.

(** [StandardTableauTuples_level_size.__contains__] *)
Definition StandardTableauTuples_level_size_contains (level n : nat)
           (t : tableau_tuple) : res bool :=
  member <- StandardTableauTuples_contains t ;;
  if member then
    if forallb (@valid_tableau Z) t
    then Ok ((length t =? level)
             && (sum_list (map (fun s => sum_list (map (@length Z) s)) t) =? n))
    else Ok ((level =? 1) && (n =? sum_list (map (@length (list Z)) t)))
  else Ok false.

End Contains.

(** ** [is_standard] and the constructor *)

Lemma length_sorted_entries (t : tableau_tuple) :
  length (sorted (entries t)) = TableauTuple_size t.
Proof. rewrite sorted_length. apply length_entries. Qed.

Lemma is_standard_init (t : tableau_tuple) :
  valid_tuple t ->
  StandardTableauTuple_init t true
  = if is_standard t then Ok (AsComponents t)
    else if negb (TableauTuple_is_row_strict t) then Raise (ValueError row_strict_msg)
    else if list_eq_dec Z.eq_dec (sorted (entries t)) (range1 (TableauTuple_size t))
         then Raise (ValueError column_strict_msg)
         else Raise (ValueError bijection_msg).
Proof.
  intros Hv. rewrite (Standard_init_cases t Hv). unfold is_standard.
  rewrite length_sorted_entries.
  unfold TableauTuple_is_row_strict, TableauTuple_is_column_strict.
  destruct (forallb (is_row_strict Z.ltb) t);
    destruct (list_eq_dec Z.eq_dec (sorted (entries t)) (range1 (TableauTuple_size t)));
    destruct (forallb (is_column_strict Z.ltb) t); reflexivity.
Qed.

Lemma is_standard_iff (t : tableau_tuple) :
  valid_tuple t -> (is_standard t = true <-> is_standard_tuple t).
Proof.
  intros Hv. unfold is_standard, is_standard_tuple. rewrite !andb_true_iff.
  unfold TableauTuple_is_row_strict, TableauTuple_is_column_strict.
  rewrite is_row_strict_spec, is_column_strict_spec.
  assert (Hb : (if list_eq_dec Z.eq_dec (sorted (entries t))
                               (range1 (TableauTuple_size t))
                then true else false) = true <-> bijective t).
  { unfold bijective. rewrite <- sorted_is_range, length_sorted_entries.
    destruct (list_eq_dec Z.eq_dec _ _); split; congruence. }
  rewrite Hb. tauto.
Qed.

(** [is_standard()] tells whether [StandardTableauTuple] accepts the
    components: it is true exactly when the checked constructor returns
    them, and false exactly when the constructor raises. *)
Theorem is_standard_agrees_with_the_constructor (t : tableau_tuple) :
  valid_tuple t ->
  (is_standard t = true <-> StandardTableauTuple_init t true = Ok (AsComponents t)) /\
  (is_standard t = false <-> exists e, StandardTableauTuple_init t true = Raise e) /\
  (is_standard t = true <-> is_standard_tuple t).
Proof.
  intros Hv. rewrite (is_standard_init t Hv).
  split; [|split; [|now apply is_standard_iff]].
  - destruct (is_standard t); [tauto|]. split; [discriminate|].
    destruct (negb _); [discriminate|]. destruct (list_eq_dec _ _ _); discriminate.
  - destruct (is_standard t).
    + split; [discriminate|]. intros [e He]. discriminate.
    + split; [|reflexivity]. intros _.
      destruct (negb _); [now eexists|].
      destruct (list_eq_dec _ _ _); now eexists.
Qed.

Lemma is_standard_agrees_with_the_constructor_witness :
  valid_tuple three_components /\
  (is_standard three_components = true
   <-> StandardTableauTuple_init three_components true
       = Ok (AsComponents three_components)) /\
  (is_standard three_components = false
   <-> exists e, StandardTableauTuple_init three_components true = Raise e) /\
  (is_standard three_components = true <-> is_standard_tuple three_components).
Proof.
  split; [reflexivity|].
  apply (is_standard_agrees_with_the_constructor three_components). reflexivity.
Defined.

(** ** The membership tests *)

Lemma py_all_app (l1 l2 : list (res bool)) :
  py_all (l1 ++ l2)
  = match py_all l1 with
    | Ok true => py_all l2
    | other => other
    end.
Proof.
  induction l1 as [|[[|]|e] l1 IH]; cbn; try reflexivity. exact IH.
Qed.

Lemma py_all_Ok (bs : list bool) : py_all (map Ok bs) = Ok (forallb id bs).
Proof. induction bs as [|[|] bs IH]; cbn; [reflexivity|exact IH|reflexivity]. Qed.

Lemma row_increases (row : list Z) :
  map (fun i => a <- getitem row i ;; b <- getitem row (i + 1) ;; Ok (a <? b)%Z)
      (seq 0 (length row - 1))
  = map Ok (map (fun p => (fst p <? snd p)%Z) (combine row (tl row))).
Proof.
  induction row as [|a [|b rest] IH]; [reflexivity|reflexivity|].
  replace (length (a :: b :: rest) - 1) with (S (length (b :: rest) - 1))
    by (cbn [length]; lia).
  change (combine (a :: b :: rest) (tl (a :: b :: rest)))
    with ((a, b) :: combine (b :: rest) (tl (b :: rest))).
  cbn [seq map]. f_equal.
  rewrite <- seq_shift, map_map, <- IH.
  apply map_ext. intros i. reflexivity.
Qed.

Lemma strictly_increasing_combine (row : list Z) :
  strictly_increasing Z.ltb row
  = forallb id (map (fun p => (fst p <? snd p)%Z) (combine row (tl row))).
Proof.
  induction row as [|a [|b rest] IH]; [reflexivity|reflexivity|].
  change (strictly_increasing Z.ltb (a :: b :: rest))
    with ((a <? b)%Z && strictly_increasing Z.ltb (b :: rest)).
  rewrite IH. reflexivity.
Qed.

Lemma py_all_rows_increase (x : tableau) :
  py_all (rows_increase x) = Ok (is_row_strict Z.ltb x).
Proof.
  unfold rows_increase, is_row_strict.
  induction x as [|row x IH]; [reflexivity|].
  cbn [flat_map forallb]. rewrite py_all_app, row_increases, py_all_Ok.
  rewrite <- strictly_increasing_combine.
  destruct (strictly_increasing Z.ltb row); [exact IH|reflexivity].
Qed.

Lemma py_all_true (items : list (res bool)) :
  py_all items = Ok true <-> Forall (fun i => i = Ok true) items.
Proof.
  induction items as [|[[|]|e] items IH]; cbn.
  - split; constructor.
  - rewrite IH. split; [now constructor|now inversion 1].
  - split; [discriminate|]. inversion 1. discriminate.
  - split; [discriminate|]. inversion 1. discriminate.
Qed.

Lemma py_all_total (items : list (res bool)) :
  Forall (fun i => exists b, i = Ok b) items -> exists b, py_all items = Ok b.
Proof.
  induction 1 as [|i items [[|] ->] _ IH]; cbn; [now eexists|exact IH|now eexists].
Qed.

(** The comparisons of [columns_increase] on a tableau. *)
Definition column_comparisons (x : tableau) : list bool :=
  flat_map (fun c =>
              flat_map (fun r =>
                          if c <? length (nth (S r) x [])
                          then [(nth c (nth r x []) 0 <? nth c (nth (S r) x []) 0)%Z]
                          else [])
                       (seq 0 (length x - 1)))
           (seq 0 (length (nth 0 x []))).

Lemma flat_map_ext_in {A B : Type} (f g : A -> list B) (l : list A) :
  (forall a, In a l -> f a = g a) -> flat_map f l = flat_map g l.
Proof.
  intros H. induction l as [|a l IH]; [reflexivity|].
  cbn. rewrite (H a (or_introl eq_refl)), IH; [reflexivity|].
  intros b Hb. apply H. now right.
Qed.

Lemma map_flat_map {A B C : Type} (f : B -> C) (g : A -> list B) (l : list A) :
  map f (flat_map g l) = flat_map (fun a => map f (g a)) l.
Proof.
  induction l as [|a l IH]; [reflexivity|]. cbn. now rewrite map_app, IH.
Qed.

Lemma valid_rows_decrease (x : tableau) (r : nat) :
  valid_tableau x = true -> length (nth (S r) x []) <= length (nth r x []).
Proof.
  intros Hv. apply is_partition_partition in Hv. destruct Hv as [_ Hdec].
  specialize (Hdec r).
  assert (E : forall i, nth i (map (@length Z) x) 0 = length (nth i x [])).
  { intros i. change 0 with (@length Z []). apply map_nth. }
  now rewrite !E in Hdec.
Qed.

Lemma valid_rows_below_first (x : tableau) (r : nat) :
  valid_tableau x = true -> length (nth r x []) <= length (nth 0 x []).
Proof.
  intros Hv. apply is_partition_partition in Hv.
  assert (H := partition_mono _ 0 r Hv ltac:(lia)).
  assert (E : forall i, nth i (map (@length Z) x) 0 = length (nth i x [])).
  { intros i. change 0 with (@length Z []). apply map_nth. }
  now rewrite !E in H.
Qed.

Lemma getitem_nth {A : Type} (l : list A) (i : nat) (d : A) :
  i < length l -> getitem l i = Ok (nth i l d).
Proof. intros H. unfold getitem. now rewrite (nth_error_nth' l d H). Qed.

Lemma columns_increase_valid (x : tableau) :
  valid_tableau x = true -> x <> [] ->
  columns_increase x = Ok (map Ok (column_comparisons x)).
Proof.
  intros Hv Hne. unfold columns_increase, column_comparisons.
  rewrite (getitem_nth x 0 []) by (destruct x; [contradiction|cbn; lia]).
  cbn [bind]. f_equal. rewrite map_flat_map. apply flat_map_ext_in.
  intros c Hc. rewrite map_flat_map. apply flat_map_ext_in. intros r Hr.
  apply in_seq in Hr. rewrite Nat.add_1_r.
  rewrite (getitem_nth x (S r) []) by lia.
  destruct (Nat.ltb_spec c (length (nth (S r) x []))) as [Hlt|Hge]; [|reflexivity].
  assert (Hd := valid_rows_decrease x r Hv).
  rewrite (getitem_nth x r []) by lia. cbn [bind].
  rewrite (getitem_nth (nth r x []) c 0%Z) by lia. cbn [bind].
  rewrite (getitem_nth (nth (S r) x []) c 0%Z) by lia. reflexivity.
Qed.

Lemma column_comparisons_spec (x : tableau) :
  valid_tableau x = true ->
  forallb id (column_comparisons x) = is_column_strict Z.ltb x.
Proof.
  intros Hv. apply eq_true_iff_eq.
  rewrite is_column_strict_tableau_spec, forallb_forall. unfold column_comparisons. split.
  - intros H r upper lower c a b Hu Hl Ha Hb.
    assert (Hr : S r < length x) by (apply nth_error_Some; congruence).
    assert (Eu : nth r x [] = upper) by (now apply nth_error_nth).
    assert (El : nth (S r) x [] = lower) by (now apply nth_error_nth).
    assert (Hc : c < length lower) by (apply nth_error_Some; congruence).
    apply Z.ltb_lt. apply (H (a <? b)%Z). apply in_flat_map. exists c. split.
    + apply in_seq. assert (Hb0 := valid_rows_below_first x (S r) Hv).
      rewrite El in Hb0. lia.
    + apply in_flat_map. exists r. split; [apply in_seq; lia|].
      rewrite Eu, El. destruct (Nat.ltb_spec c (length lower)); [|lia].
      rewrite (nth_error_nth upper c 0%Z Ha), (nth_error_nth lower c 0%Z Hb).
      now left.
  - intros H b Hin. apply in_flat_map in Hin. destruct Hin as (c & Hc & Hin).
    apply in_flat_map in Hin. destruct Hin as (r & Hr & Hin). apply in_seq in Hr.
    destruct (Nat.ltb_spec c (length (nth (S r) x []))) as [Hlt|Hge]; [|contradiction].
    destruct Hin as [<-|[]]. unfold id. apply Z.ltb_lt.
    assert (Hd := valid_rows_decrease x r Hv).
    apply (H r (nth r x []) (nth (S r) x []) c).
    + apply nth_error_nth'. lia.
    + apply nth_error_nth'. lia.
    + apply nth_error_nth'. lia.
    + apply nth_error_nth'. lia.
Qed.

Lemma standard_component_valid (x : tableau) :
  valid_tableau x = true ->
  standard_component x = Ok (is_row_strict Z.ltb x && is_column_strict Z.ltb x).
Proof.
  intros Hv. unfold standard_component.
  destruct x as [|row x]; [reflexivity|]. cbn [length Nat.eqb].
  rewrite py_all_rows_increase. cbn [bind].
  destruct (is_row_strict Z.ltb (row :: x)); [|reflexivity].
  rewrite columns_increase_valid by (assumption || discriminate). cbn [bind].
  now rewrite py_all_Ok, column_comparisons_spec.
Qed.

Lemma row_standard_component_eq (x : tableau) :
  row_standard_component x = Ok (is_row_strict Z.ltb x).
Proof.
  unfold row_standard_component. destruct x as [|row x]; [reflexivity|].
  cbn [length Nat.eqb]. apply py_all_rows_increase.
Qed.

Lemma py_all_components (f : tableau -> res bool) (g : tableau -> bool)
      (t : tableau_tuple) :
  (forall x, In x t -> f x = Ok (g x)) -> py_all (map f t) = Ok (forallb g t).
Proof.
  intros H. induction t as [|x t IH]; [reflexivity|].
  cbn [map py_all forallb]. rewrite (H x (or_introl eq_refl)).
  destruct (g x); [|reflexivity]. apply IH. intros y Hy. apply H. now right.
Qed.

Lemma entries_are_range_eq (t : tableau_tuple) :
  entries_are_range t
  = if list_eq_dec Z.eq_dec (sorted (entries t)) (range1 (TableauTuple_size t))
    then true else false.
Proof.
  unfold entries_are_range.
  assert (E : concat (concat t) = entries t).
  { unfold entries, entries_of_tableau. induction t as [|x t IH]; [reflexivity|].
    cbn [concat map]. now rewrite concat_app, IH. }
  now rewrite E, length_sorted_entries.
Qed.

Lemma forallb_andb {A : Type} (f g : A -> bool) (l : list A) :
  forallb (fun a => f a && g a) l = forallb f l && forallb g l.
Proof.
  induction l as [|a l IH]; [reflexivity|]. cbn. rewrite IH.
  destruct (f a), (g a), (forallb f l); reflexivity.
Qed.

Section ContainsFacts.

Variable in_StandardTableaux : tableau_tuple -> bool.
Variable in_RowStandardTableaux : tableau_tuple -> bool.

Lemma StandardTableauTuples_contains_valid (t : tableau_tuple) :
  valid_tuple t ->
  StandardTableauTuples_contains in_StandardTableaux t = Ok (is_standard t).
Proof.
  intros Hv. unfold StandardTableauTuples_contains, is_standard.
  unfold valid_tuple in Hv. rewrite Hv, entries_are_range_eq.
  destruct (list_eq_dec Z.eq_dec _ _); [|reflexivity]. cbn [andb].
  rewrite (py_all_components standard_component
             (fun x => is_row_strict Z.ltb x && is_column_strict Z.ltb x)).
  - now rewrite forallb_andb.
  - intros x Hx. apply standard_component_valid.
    rewrite forallb_forall in Hv. now apply Hv.
Qed.

Lemma RowStandardTableauTuples_contains_valid (t : tableau_tuple) :
  valid_tuple t ->
  RowStandardTableauTuples_contains in_RowStandardTableaux t
  = Ok ((if list_eq_dec Z.eq_dec (sorted (entries t)) (range1 (TableauTuple_size t))
         then true else false) && TableauTuple_is_row_strict t).
Proof.
  intros Hv. unfold RowStandardTableauTuples_contains.
  unfold valid_tuple in Hv. rewrite Hv, entries_are_range_eq.
  destruct (list_eq_dec Z.eq_dec _ _); [|reflexivity]. cbn [andb].
  apply py_all_components. intros x _. apply row_standard_component_eq.
Qed.

End ContainsFacts.

(** On a list of tableaux with integer entries, the membership tests of
    [StandardTableauTuples] and [RowStandardTableauTuples] never raise and
    say what the checked constructors do: [t in StandardTableauTuples()]
    exactly when [StandardTableauTuple.__init__] accepts [t], and
    [t in RowStandardTableauTuples()] exactly when
    [RowStandardTableauTuple.__init__] does. *)
Theorem membership_agrees_with_the_constructors
        (in_StandardTableaux in_RowStandardTableaux : tableau_tuple -> bool)
        (t : tableau_tuple) :
  valid_tuple t ->
  (exists b, StandardTableauTuples_contains in_StandardTableaux t = Ok b /\
             (b = true <-> StandardTableauTuple_init t true = Ok (AsComponents t)) /\
             (b = false <-> exists e, StandardTableauTuple_init t true = Raise e)) /\
  (exists b, RowStandardTableauTuples_contains in_RowStandardTableaux t = Ok b /\
             (b = true <-> RowStandardTableauTuple_init t true = Ok (AsComponents t)) /\
             (b = false <-> exists e, RowStandardTableauTuple_init t true = Raise e)).
Proof.
  intros Hv. split.
  - exists (is_standard t).
    split; [now apply StandardTableauTuples_contains_valid|].
    rewrite (is_standard_init t Hv). destruct (is_standard t).
    + split; [tauto|]. split; [discriminate|]. intros [err He]. discriminate.
    + split.
      * split; [discriminate|]. destruct (negb _); [discriminate|].
        destruct (list_eq_dec _ _ _); discriminate.
      * split; [|reflexivity]. intros _. destruct (negb _); [now eexists|].
        destruct (list_eq_dec _ _ _); now eexists.
  - eexists. split; [now apply RowStandardTableauTuples_contains_valid|].
    rewrite (RowStandard_init_cases t Hv), length_sorted_entries.
    unfold TableauTuple_is_row_strict.
    destruct (forallb (is_row_strict Z.ltb) t);
      destruct (list_eq_dec Z.eq_dec (sorted (entries t)) (range1 (TableauTuple_size t)));
      cbn [andb].
    + split; [tauto|]. split; [discriminate|]. intros [err He]. discriminate.
    + split; [split; discriminate|]. split; [intros _; now eexists|reflexivity].
    + split; [split; discriminate|]. split; [intros _; now eexists|reflexivity].
    + split; [split; discriminate|]. split; [intros _; now eexists|reflexivity].
Qed.

Lemma membership_agrees_with_the_constructors_witness :
  valid_tuple square_and_five /\
  (exists b, StandardTableauTuples_contains (fun _ => false) square_and_five = Ok b /\
             (b = true <-> StandardTableauTuple_init square_and_five true
                           = Ok (AsComponents square_and_five)) /\
             (b = false <-> exists e, StandardTableauTuple_init square_and_five true
                                      = Raise e)) /\
  (exists b, RowStandardTableauTuples_contains (fun _ => false) square_and_five = Ok b /\
             (b = true <-> RowStandardTableauTuple_init square_and_five true
                           = Ok (AsComponents square_and_five)) /\
             (b = false <-> exists e, RowStandardTableauTuple_init square_and_five true
                                      = Raise e)).
Proof.
  split; [reflexivity|].
  apply (membership_agrees_with_the_constructors
           (fun _ => false) (fun _ => false) square_and_five).
  reflexivity.
Defined.

(** *** The shape class: [__iter__] and [__contains__] *)

Lemma to_Z_of_standard (tz : tableau_tuple) :
  bijective tz -> tz = to_Z (map (map (map Z.to_nat)) tz).
Proof.
  intros Hb. unfold to_Z. rewrite map_map. rewrite <- (map_id tz) at 1.
  apply map_ext_in. intros comp Hcomp. rewrite map_map. rewrite <- (map_id comp) at 1.
  apply map_ext_in. intros row Hrow. rewrite map_map. rewrite <- (map_id row) at 1.
  apply map_ext_in. intros v Hv. symmetry. apply Z2Nat.id.
  assert (Hin : In v (entries tz)).
  { unfold entries, entries_of_tableau. apply in_concat. exists (concat comp).
    split; [now apply in_map|]. apply in_concat. now exists row. }
  apply (Permutation_in _ Hb) in Hin. apply In_range1 in Hin. lia.
Qed.

Section ShapeContains.

Variable in_StandardTableaux : tableau_tuple -> bool.

Lemma shape_contains_true (mu : shape) (tz : tableau_tuple) :
  StandardTableauTuples_shape_contains in_StandardTableaux mu tz = Ok true <->
  shape_of_tuple tz = mu /\ is_standard_tuple tz.
Proof.
  unfold StandardTableauTuples_shape_contains.
  destruct (forallb (@valid_tableau Z) tz) eqn:Ev.
  - rewrite (StandardTableauTuples_contains_valid _ tz Ev). cbn [bind].
    assert (Hs := is_standard_iff tz Ev).
    destruct (is_standard tz).
    + destruct (list_eq_dec (list_eq_dec Nat.eq_dec) (shape_of_tuple tz) mu).
      * split; [intros _; split; [assumption|now apply Hs]|reflexivity].
      * split; [discriminate|]. intros [E _]. contradiction.
    + split; [discriminate|]. intros [_ H]. apply Hs in H. discriminate.
  - unfold StandardTableauTuples_contains. rewrite Ev. cbn [bind].
    split.
    + destruct (in_StandardTableaux tz); discriminate.
    + intros [_ (Hv & _)]. unfold valid_tuple in Hv. congruence.
Qed.

End ShapeContains.

(** [StandardTableauTuples_shape(mu)] yields what it contains: a list of
    lists of lists of integers passes [__contains__] exactly when
    [__iter__] yields it. *)
Theorem iter_and_contains_agree (in_StandardTableaux : tableau_tuple -> bool)
        (mu : shape) :
  is_partition_tuple mu = true ->
  exists (bound : nat) (l : list state),
    (forall fuel, bound <= fuel -> iter mu fuel = Done l) /\
    forall tz, StandardTableauTuples_shape_contains in_StandardTableaux mu tz = Ok true
               <-> In tz (map to_Z (yielded_tableaux mu (Done l))).
Proof.
  intros Hmu.
  destruct (iter_enumerates mu Hmu) as (bound & l & Hiter & _ & Htabs).
  assert (HL := In_yielded mu l Hmu Htabs).
  exists bound, l. split; [exact Hiter|].
  intros tz. rewrite shape_contains_true, in_map_iff. split.
  - intros [Hs Hstd]. exists (map (map (map Z.to_nat)) tz).
    assert (E := to_Z_of_standard tz (proj1 (proj2 (proj2 Hstd)))).
    split; [now symmetry|]. apply HL. split.
    + now rewrite <- shape_to_Z, <- E.
    + now rewrite <- E.
  - intros (t & <- & Ht). apply HL in Ht. destruct Ht as [Hs Hstd].
    split; [now rewrite shape_to_Z|assumption].
Qed.

Lemma iter_and_contains_agree_witness :
  is_partition_tuple [[2; 1]; [1]] = true /\
  exists (bound : nat) (l : list state),
    (forall fuel, bound <= fuel -> iter [[2; 1]; [1]] fuel = Done l) /\
    forall tz, StandardTableauTuples_shape_contains (fun _ => false) [[2; 1]; [1]] tz
               = Ok true
               <-> In tz (map to_Z (yielded_tableaux [[2; 1]; [1]] (Done l))).
Proof.
  split; [reflexivity|].
  apply (iter_and_contains_agree (fun _ => false) [[2; 1]; [1]]). reflexivity.
Defined.

(** ** [an_element] of the classes of a level, of a size, of both *)

(** [list(range(a, b))] *)
Definition py_range (a b : nat) : list Z := map Z.of_nat (seq a (b - a)).

(** [[[list(range(2**(i - 1), 2**i))] for i in range(1, level + 1)]] *)
Definition level_an_element_list (level : nat) : tableau_tuple :=
  map (fun i => [py_range (2 ^ (i - 1)) (2 ^ i)]) (seq 1 level).

(** [StandardTableauTuples_level.an_element] and
    [RowStandardTableauTuples_level.an_element]: the element class is
    called with its default [check=True]. *)
Definition StandardTableauTuples_level_an_element (level : nat) : res coerced :=
  StandardTableauTuple_init (level_an_element_list level) true.
Definition RowStandardTableauTuples_level_an_element (level : nat) : res coerced :=
  RowStandardTableauTuple_init (level_an_element_list level) true.

(** [StandardTableauTuples_size.an_element] and
    [RowStandardTableauTuples_size.an_element] *)
Definition size_an_element_list (n : nat) : tableau_tuple :=
  if n =? 0 then [[]; []; []; []]
  else if n =? 1 then [[[1%Z]]; []; []; []]
  else [[[1%Z]]; [py_range 2 (n + 1)]; []; []].

Definition StandardTableauTuples_size_an_element (n : nat) : res coerced :=
  StandardTableauTuple_init (size_an_element_list n) true.
Definition RowStandardTableauTuples_size_an_element (n : nat) : res coerced :=
  RowStandardTableauTuple_init (size_an_element_list n) true.

(** [StandardTableauTuples_level_size.an_element] and
    [RowStandardTableauTuples_level_size.an_element]; [sum(lists, start)]
    puts the empty components of [start] first. *)
Definition level_size_an_element_list (level n : nat) : tableau_tuple :=
  if n =? 0 then repeat [] level
  else if n =? 1 then repeat [] (level - 1) ++ [[[1%Z]]]
  else if n =? 2 then repeat [] (level - 1) ++ [[[1%Z]; [2%Z]]]
  else repeat [] (level - 2) ++ [[[1%Z]]] ++ [[py_range 2 n; [Z.of_nat n]]].

Definition StandardTableauTuples_level_size_an_element (level n : nat) : res coerced :=
  StandardTableauTuple_init (level_size_an_element_list level n) true.
Definition RowStandardTableauTuples_level_size_an_element (level n : nat) : res coerced :=
  RowStandardTableauTuple_init (level_size_an_element_list level n) true.

(** *** Ranges *)

Lemma range_increasing (a n : nat) :
  strictly_increasing Z.ltb (map Z.of_nat (seq a n)) = true.
Proof.
  revert a. induction n as [|n IH]; intros a; [reflexivity|].
  destruct n as [|n]; [reflexivity|].
  change (strictly_increasing Z.ltb (map Z.of_nat (seq a (S (S n)))))
    with ((Z.of_nat a <? Z.of_nat (S a))%Z
          && strictly_increasing Z.ltb (map Z.of_nat (seq (S a) (S n)))).
  rewrite IH, andb_true_r. apply Z.ltb_lt. lia.
Qed.

Lemma py_range_increasing (a b : nat) : strictly_increasing Z.ltb (py_range a b) = true.
Proof. apply range_increasing. Qed.

Lemma length_py_range (a b : nat) : length (py_range a b) = b - a.
Proof. unfold py_range. now rewrite length_map, length_seq. Qed.

Lemma range1_py_range (n : nat) : range1 n = py_range 1 (S n).
Proof. unfold range1, py_range. do 2 f_equal. lia. Qed.

Lemma py_range_app (a b c : nat) :
  a <= b -> b <= c -> py_range a b ++ py_range b c = py_range a c.
Proof.
  intros Hab Hbc. unfold py_range. rewrite <- map_app. f_equal.
  replace (c - a) with ((b - a) + (c - b)) by lia. rewrite seq_app.
  do 2 f_equal. lia.
Qed.

Lemma pow2_pos (i : nat) : 1 <= 2 ^ i.
Proof. induction i as [|i IH]; cbn; lia. Qed.

(** A tableau tuple whose components have columns of height one or are
    otherwise known to be standard. *)
Lemma standard_from_bools (t : tableau_tuple) (n : nat) :
  forallb (@valid_tableau Z) t = true ->
  forallb (is_row_strict Z.ltb) t = true ->
  forallb (is_column_strict Z.ltb) t = true ->
  entries t = range1 n ->
  is_standard_tuple t /\ TableauTuple_size t = n.
Proof.
  intros Hv Hr Hc He.
  assert (Hn : length (entries t) = n).
  { rewrite He. unfold range1. now rewrite length_map, length_seq. }
  split.
  - split; [exact Hv|]. split; [now apply is_row_strict_spec|].
    split; [|now apply is_column_strict_spec].
    unfold bijective. rewrite Hn, He. apply Permutation_refl.
  - unfold TableauTuple_size. now rewrite <- length_entries.
Qed.

Lemma RowStandard_init_ok (t : tableau_tuple) :
  is_standard_tuple t -> RowStandardTableauTuple_init t true = Ok (AsComponents t).
Proof.
  intros (Hv & Hr & Hb & _). rewrite (RowStandard_init_cases t Hv).
  apply is_row_strict_spec in Hr. rewrite Hr.
  apply sorted_is_range in Hb.
  now destruct (list_eq_dec Z.eq_dec (sorted (entries t))
                            (range1 (length (sorted (entries t))))).
Qed.

Lemma forallb_repeat {A : Type} (f : A -> bool) (a : A) (n : nat) :
  f a = true -> forallb f (repeat a n) = true.
Proof. intros H. induction n as [|n IH]; cbn; [reflexivity|now rewrite H]. Qed.

Lemma entries_repeat_nil (n : nat) : entries (repeat [] n) = [].
Proof. induction n as [|n IH]; [reflexivity|exact IH]. Qed.

Lemma entries_app (t1 t2 : tableau_tuple) : entries (t1 ++ t2) = entries t1 ++ entries t2.
Proof. unfold entries. now rewrite map_app, concat_app. Qed.

Lemma is_partition_single (n : nat) : 0 < n -> is_partition [n] = true.
Proof.
  intros H. unfold is_partition. cbn [forallb weakly_decreasing].
  rewrite !andb_true_r. now apply Nat.ltb_lt.
Qed.

(** *** The element of a level *)

Lemma level_entries (level : nat) :
  entries (level_an_element_list level) = py_range 1 (2 ^ level).
Proof.
  unfold level_an_element_list. induction level as [|level IH]; [reflexivity|].
  rewrite seq_S, map_app, entries_app, IH. cbn [map Nat.add].
  unfold entries, entries_of_tableau. cbn [map concat]. rewrite !app_nil_r.
  replace (S level - 1) with level by lia.
  apply py_range_app; [apply pow2_pos|]. cbn. lia.
Qed.

Lemma level_standard (level : nat) :
  is_standard_tuple (level_an_element_list level) /\
  TableauTuple_size (level_an_element_list level) = 2 ^ level - 1.
Proof.
  apply standard_from_bools.
  - unfold level_an_element_list. rewrite forallb_over_map. apply forallb_forall.
    intros i Hi. apply in_seq in Hi. unfold valid_tableau. cbn [map].
    rewrite length_py_range. apply is_partition_single.
    assert (H := pow2_pos (i - 1)).
    destruct i as [|i]; [lia|]. cbn [Nat.pow]. rewrite Nat.sub_succ, Nat.sub_0_r in *.
    lia.
  - unfold level_an_element_list. rewrite forallb_over_map. apply forallb_forall.
    intros i _. cbn. now rewrite py_range_increasing.
  - unfold level_an_element_list. rewrite forallb_over_map. apply forallb_forall.
    intros i _. reflexivity.
  - rewrite level_entries, range1_py_range. f_equal.
    assert (H := pow2_pos level). lia.
Qed.

(** [an_element()] of the standard, and of the row standard, tableau tuples
    of a level does not raise: the constructor accepts its list, which has
    [level] components and the entries 1, ..., 2^level - 1. *)
Theorem level_an_element_is_an_element (level : nat) :
  StandardTableauTuples_level_an_element level
  = Ok (AsComponents (level_an_element_list level)) /\
  RowStandardTableauTuples_level_an_element level
  = Ok (AsComponents (level_an_element_list level)) /\
  length (level_an_element_list level) = level /\
  TableauTuple_size (level_an_element_list level) = 2 ^ level - 1.
Proof.
  destruct (level_standard level) as [Hstd Hsize].
  split; [now apply Standard_init_ok|]. split; [now apply RowStandard_init_ok|].
  split; [|exact Hsize].
  unfold level_an_element_list. now rewrite length_map, length_seq.
Qed.

Lemma forallb_cons_true {A : Type} (f : A -> bool) (a : A) (l : list A) :
  f a = true -> forallb f l = true -> forallb f (a :: l) = true.
Proof. intros Ha Hl. cbn. now rewrite Ha, Hl. Qed.

Lemma forallb_two {A : Type} (f : A -> bool) (a b : A) :
  f a = true -> f b = true -> forallb f [a; b] = true.
Proof. intros Ha Hb. cbn. now rewrite Ha, Hb. Qed.

(** *** The element of a size *)

Lemma py_range_cons (a b : nat) :
  a < b -> py_range a b = Z.of_nat a :: py_range (S a) b.
Proof.
  intros H. unfold py_range. replace (b - a) with (S (b - S a)) by lia. reflexivity.
Qed.

Lemma py_range_snoc (a b : nat) :
  a <= b -> py_range a (S b) = py_range a b ++ [Z.of_nat b].
Proof.
  intros H. unfold py_range. replace (S b - a) with (S (b - a)) by lia.
  rewrite seq_S, map_app. cbn [map]. do 3 f_equal. lia.
Qed.

Lemma size_standard (n : nat) :
  is_standard_tuple (size_an_element_list n) /\
  TableauTuple_size (size_an_element_list n) = n.
Proof.
  unfold size_an_element_list.
  destruct n as [|[|n]]; cbn [Nat.eqb].
  - apply standard_from_bools; reflexivity.
  - apply standard_from_bools; reflexivity.
  - apply standard_from_bools.
    + apply forallb_cons_true; [reflexivity|].
      apply forallb_cons_true; [|reflexivity]. unfold valid_tableau. cbn [map].
      rewrite length_py_range. apply is_partition_single. lia.
    + cbn [forallb is_row_strict]. now rewrite py_range_increasing.
    + reflexivity.
    + unfold entries, entries_of_tableau. cbn [map concat app]. rewrite !app_nil_r.
      rewrite range1_py_range. rewrite (py_range_cons 1) by lia.
      do 2 f_equal. lia.
Qed.

(** [an_element()] of the standard, and of the row standard, tableau tuples
    of a size does not raise: the constructor accepts its list, which has
    four components and the size of the class. *)
Theorem size_an_element_is_an_element (n : nat) :
  StandardTableauTuples_size_an_element n = Ok (AsComponents (size_an_element_list n)) /\
  RowStandardTableauTuples_size_an_element n
  = Ok (AsComponents (size_an_element_list n)) /\
  length (size_an_element_list n) = 4 /\
  TableauTuple_size (size_an_element_list n) = n.
Proof.
  destruct (size_standard n) as [Hstd Hsize].
  split; [now apply Standard_init_ok|]. split; [now apply RowStandard_init_ok|].
  split; [|exact Hsize].
  unfold size_an_element_list. now destruct n as [|[|n]].
Qed.

(** *** The element of a level and a size *)

Lemma forallb_app_true {A : Type} (f : A -> bool) (l1 l2 : list A) :
  forallb f l1 = true -> forallb f l2 = true -> forallb f (l1 ++ l2) = true.
Proof. intros H1 H2. now rewrite forallb_app, H1, H2. Qed.

Lemma empties_then (k : nat) (t : tableau_tuple) (n : nat) :
  forallb (@valid_tableau Z) t = true ->
  forallb (is_row_strict Z.ltb) t = true ->
  forallb (is_column_strict Z.ltb) t = true ->
  entries t = range1 n ->
  is_standard_tuple (repeat [] k ++ t) /\ TableauTuple_size (repeat [] k ++ t) = n.
Proof.
  intros Hv Hr Hc He. apply standard_from_bools.
  - apply forallb_app_true; [now apply forallb_repeat|assumption].
  - apply forallb_app_true; [now apply forallb_repeat|assumption].
  - apply forallb_app_true; [now apply forallb_repeat|assumption].
  - now rewrite entries_app, entries_repeat_nil.
Qed.

Lemma level_size_standard (level n : nat) :
  is_standard_tuple (level_size_an_element_list level n) /\
  TableauTuple_size (level_size_an_element_list level n) = n.
Proof.
  unfold level_size_an_element_list.
  destruct n as [|[|[|n]]]; cbn [Nat.eqb].
  - rewrite <- (app_nil_r (repeat [] level)). now apply empties_then.
  - now apply empties_then.
  - now apply empties_then.
  - apply empties_then.
    + cbn [app]. apply forallb_two; [reflexivity|]. unfold valid_tableau. cbn [map].
      rewrite length_py_range. apply is_partition_spec. split.
      * intros [|[|i]] Hi; cbn in *; lia.
      * intros [|i] Hi; cbn in *; lia.
    + cbn [app forallb is_row_strict]. now rewrite py_range_increasing.
    + cbn [app]. apply forallb_two; [reflexivity|].
      rewrite (py_range_cons 2) by lia.
      cbn [is_column_strict combine forallb fst snd].
      rewrite combine_nil, !andb_true_r. apply Z.ltb_lt. lia.
    + unfold entries, entries_of_tableau. cbn [map concat app]. rewrite !app_nil_r.
      rewrite range1_py_range. rewrite (py_range_snoc 1) by lia.
      rewrite (py_range_cons 1) by lia. reflexivity.
Qed.

(** [an_element()] of the standard, and of the row standard, tableau tuples
    of a level and a size does not raise: the constructor accepts its list,
    which has the size of the class and, for a level of at least 2, the
    level of the class. *)
Theorem level_size_an_element_is_an_element (level n : nat) :
  StandardTableauTuples_level_size_an_element level n
  = Ok (AsComponents (level_size_an_element_list level n)) /\
  RowStandardTableauTuples_level_size_an_element level n
  = Ok (AsComponents (level_size_an_element_list level n)) /\
  TableauTuple_size (level_size_an_element_list level n) = n /\
  (2 <= level -> length (level_size_an_element_list level n) = level).
Proof.
  destruct (level_size_standard level n) as [Hstd Hsize].
  split; [now apply Standard_init_ok|]. split; [now apply RowStandard_init_ok|].
  split; [exact Hsize|]. intros Hl.
  unfold level_size_an_element_list.
  destruct n as [|[|[|n]]]; cbn [Nat.eqb];
    rewrite ?length_app, repeat_length; cbn [length]; lia.
Qed.

(** ** [StandardTableauTuples.__getitem__] and
       [RowStandardTableauTuples.__getitem__] *)

(** What is written between the brackets: an integer, a slice
    [start:stop:step] whose parts may be missing, or something else. *)
Inductive subscript : Type :=
| IntSub (r : Z)
| SliceSub (start stop step : option Z)
| OtherSub.

Inductive got (A : Type) : Type :=
| One (a : A)
| Many (l : list A).
Arguments One {A} a.
Arguments Many {A} l.

Definition not_int_or_slice : string := "r must be an integer or a slice"%string.
Definition value_out_of_range : string := "value out of range"%string.

Section Getitem.

Variable A : Type.

(** Modelled from the spec: [self.unrank(r)] of the enumerated sets (not
    under src/). *)
Variable unrank : Z -> res A.

(** The loop [for t in self], with [count] and [tabs]; it is left at
    [count == stop]. *)
Fixpoint getitem_loop (items : list A) (start : Z) (stop : option Z)
         (count : Z) (tabs : list A) : Z * list A :=
  match items with
  | [] => (count, tabs)
  | t :: rest =>
      if match stop with
         | Some s => (count =? s)%Z
         | None => false
         end
      then (count, tabs)
      else getitem_loop rest start stop (count + 1)
                        (if (start <=? count)%Z then tabs ++ [t] else tabs)
  end.

(** [__getitem__] of a finite class; [items] is what [for t in self]
    yields.  The step of the slice is not read. *)
Definition getitem_subscript (items : list A) (r : subscript) : res (got A) :=
  match r with
  | IntSub z => a <- unrank z ;; Ok (One a)
  | OtherSub => Raise (ValueError not_int_or_slice)
  | SliceSub start stop _ =>
      let start := match start with
                   | None => 0%Z
                   | Some z => z
                   end in
      let '(count, tabs) := getitem_loop items start stop 0 [] in
      if match stop with
         | Some s => (count =? s)%Z
         | None => true
         end
      then Ok (Many tabs)
      else Raise (IndexError value_out_of_range)
  end.

Lemma getitem_loop_all (items : list A) (start : Z) (stop : option Z) :
  forall count tabs,
    match stop with
    | Some s => (s < count \/ count + Z.of_nat (length items) < s)%Z
    | None => True
    end ->
    getitem_loop items start stop count tabs
    = ((count + Z.of_nat (length items))%Z,
       tabs ++ skipn (Z.to_nat (start - count)) items).
Proof.
  induction items as [|t rest IH]; intros count tabs Hstop.
  - cbn. rewrite Z.add_0_r, skipn_nil, app_nil_r. reflexivity.
  - cbn [getitem_loop].
    assert (Hlen : Z.of_nat (length (t :: rest)) = (Z.of_nat (length rest) + 1)%Z)
      by (cbn [length]; lia).
    rewrite Hlen in *.
    assert (E : match stop with
                | Some s => (count =? s)%Z
                | None => false
                end = false).
    { destruct stop as [s|]; [|reflexivity]. apply Z.eqb_neq. lia. }
    rewrite E, IH.
    2:{ destruct stop as [s|]; [|exact I]. lia. }
    f_equal; [lia|].
    destruct (Z.leb_spec start count) as [Hle|Hgt].
    + replace (Z.to_nat (start - count)) with 0 by lia.
      replace (Z.to_nat (start - (count + 1))) with 0 by lia.
      cbn [skipn]. now rewrite <- app_assoc.
    + replace (Z.to_nat (start - count)) with (S (Z.to_nat (start - (count + 1))))
        by lia.
      reflexivity.
Qed.

Lemma getitem_loop_stop (items : list A) (start s : Z) :
  forall count tabs,
    (count <= s <= count + Z.of_nat (length items))%Z ->
    getitem_loop items start (Some s) count tabs
    = (s, tabs ++ skipn (Z.to_nat (start - count))
                        (firstn (Z.to_nat (s - count)) items)).
Proof.
  induction items as [|t rest IH]; intros count tabs Hs.
  - cbn in *. rewrite firstn_nil, skipn_nil, app_nil_r. f_equal. lia.
  - cbn [getitem_loop length] in *. rewrite Nat2Z.inj_succ in Hs.
    destruct (Z.eqb_spec count s) as [->|Hne].
    + rewrite Z.sub_diag. cbn [Z.to_nat firstn]. now rewrite skipn_nil, app_nil_r.
    + rewrite IH by lia. f_equal.
      replace (Z.to_nat (s - count)) with (S (Z.to_nat (s - (count + 1)))) by lia.
      cbn [firstn].
      destruct (Z.leb_spec start count) as [Hle|Hgt].
      * replace (Z.to_nat (start - count)) with 0 by lia.
        replace (Z.to_nat (start - (count + 1))) with 0 by lia.
        cbn [skipn]. now rewrite <- app_assoc.
      * replace (Z.to_nat (start - count)) with (S (Z.to_nat (start - (count + 1))))
          by lia.
        reflexivity.
Qed.

End Getitem.

Arguments getitem_subscript {A} unrank items r.

(** A slice of a finite class returns the items from [start], or from the
    first one when [start] is missing or negative, up to [stop]; it raises
    [IndexError] when [stop] is negative or more than the number of items.
    Negative bounds do not count from the end, and the step has no effect. *)
Theorem getitem_slice {A : Type} (unrank : Z -> res A) (items : list A)
        (start stop step : option Z) :
  getitem_subscript unrank items (SliceSub start stop step)
  = let first := Z.to_nat match start with
                          | None => 0%Z
                          | Some z => z
                          end in
    match stop with
    | None => Ok (Many (skipn first items))
    | Some s =>
        if ((0 <=? s)%Z && (s <=? Z.of_nat (length items))%Z)%bool
        then Ok (Many (skipn first (firstn (Z.to_nat s) items)))
        else Raise (IndexError value_out_of_range)
    end.
Proof.
  unfold getitem_subscript.
  set (st := match start with
             | None => 0%Z
             | Some z => z
             end).
  destruct stop as [s|].
  - destruct (Z.leb_spec 0 s) as [H0|H0]; cbn [andb].
    + destruct (Z.leb_spec s (Z.of_nat (length items))) as [Hn|Hn].
      * rewrite (getitem_loop_stop A items st s 0 []) by lia.
        rewrite Z.eqb_refl, !Z.sub_0_r. reflexivity.
      * rewrite (getitem_loop_all A items st (Some s) 0 []) by (right; lia).
        destruct (Z.eqb_spec (0 + Z.of_nat (length items)) s); [lia|reflexivity].
    + rewrite (getitem_loop_all A items st (Some s) 0 []) by (left; lia).
      destruct (Z.eqb_spec (0 + Z.of_nat (length items)) s); [lia|reflexivity].
  - rewrite (getitem_loop_all A items st None 0 [] I).
    now rewrite Z.sub_0_r.
Qed.

(** ** [RowStandardTableauTuples_shape.cardinality] *)

(** [factorial(mu.size()) // prod(factorial(row) for nu in mu for row in nu)] *)
Definition RowStandardTableauTuples_shape_cardinality (mu : shape) : nat :=
  fact (size mu) / prod_list (map fact (concat mu)).

(** ** [StandardTableauTuples_level_size]: [cardinality] and [__iter__] *)

(** [sum(StandardTableauTuples_shape(shape).cardinality() for shape in shapes)] *)
Fixpoint sum_cardinalities (shapes : list shape) : res Z :=
  match shapes with
  | [] => Ok 0%Z
  | mu :: rest =>
      c <- StandardTableauTuples_shape_cardinality mu ;;
      total <- sum_cardinalities rest ;;
      Ok (c + total)%Z
  end.

(** What the nested loops of [__iter__] leave: the tableau tuples yielded,
    and how the loops ended. *)
Inductive outcomes : Type :=
| AllDone (yielded : list (list (list (list nat))))
| OneFailed (e : exn) (yielded : list (list (list (list nat))))
| NoFuel.

(** [for shape in shapes: for t in StandardTableauTuples_shape(shape): yield ...] *)
Fixpoint iter_shapes (shapes : list shape) (fuel : nat) : outcomes :=
  match shapes with
  | [] => AllDone []
  | mu :: rest =>
      match iter mu fuel with
      | OutOfFuel => NoFuel
      | Failed e l => OneFailed e (yielded_tableaux mu (Failed e l))
      | Done l =>
          match iter_shapes rest fuel with
          | AllDone ys => AllDone (yielded_tableaux mu (Done l) ++ ys)
          | OneFailed e ys => OneFailed e (yielded_tableaux mu (Done l) ++ ys)
          | NoFuel => NoFuel
          end
      end
  end.

Section LevelSize.

(** Modelled from the spec: [PartitionTuples(level, size)]
    (sage.combinat.partition_tuple, not under src/): the partition tuples
    of that level and size, each once, in some order. *)
Variable PartitionTuples : nat -> nat -> list shape.

Definition StandardTableauTuples_level_size_cardinality (level n : nat) : res Z :=
  sum_cardinalities (PartitionTuples level n).

Definition StandardTableauTuples_level_size_iter (level n fuel : nat) : outcomes :=
  iter_shapes (PartitionTuples level n) fuel.

End LevelSize.

(** *** Multinomial coefficients *)

Lemma fact_divides (a : nat) : forall b, exists c, fact (a + b) = c * (fact a * fact b).
Proof.
  induction a as [|a IHa]; intros b.
  - exists 1. cbn. lia.
  - induction b as [|b IHb].
    + exists 1. rewrite Nat.add_0_r. cbn [fact]. lia.
    + destruct (IHa (S b)) as [c1 H1]. destruct IHb as [c2 H2].
      exists (c1 + c2).
      replace (S a + S b) with (S (a + S b)) by lia.
      change (fact (S (a + S b))) with (S (a + S b) * fact (a + S b)).
      replace (S (a + S b) * fact (a + S b))
        with (S a * fact (a + S b) + S b * fact (S a + b))
        by (replace (S a + b) with (a + S b) by lia; lia).
      rewrite H1, H2. cbn [fact]. nia.
Qed.

Lemma multinomial_divides (l : list nat) :
  exists c, fact (sum_list l) = c * prod_list (map fact l).
Proof.
  induction l as [|a l [c IH]].
  - exists 1. reflexivity.
  - destruct (fact_divides a (sum_list l)) as [c' H]. exists (c' * c).
    change (sum_list (a :: l)) with (a + sum_list l).
    change (prod_list (map fact (a :: l))) with (fact a * prod_list (map fact l)).
    rewrite H, IH. lia.
Qed.

Lemma prod_fact_pos (l : list nat) : prod_list (map fact l) <> 0.
Proof.
  induction l as [|a l IH]; cbn; [lia|].
  assert (H := fact_pos a). unfold prod_list in IH. nia.
Qed.

Lemma size_concat (mu : shape) : size mu = sum_list (concat mu).
Proof.
  induction mu as [|nu mu IH]; [reflexivity|].
  rewrite size_cons, IH. cbn [concat]. now rewrite sum_list_app.
Qed.

Lemma row_standard_exact (mu : shape) :
  RowStandardTableauTuples_shape_cardinality mu * prod_list (map fact (concat mu))
  = fact (size mu).
Proof.
  unfold RowStandardTableauTuples_shape_cardinality.
  destruct (multinomial_divides (concat mu)) as [c H].
  rewrite size_concat, H, Nat.div_mul by apply prod_fact_pos. reflexivity.
Qed.

(** The floor division of [cardinality()] is exact: the product of the
    factorials of the row lengths divides [n!], and the quotient is not 0. *)
Theorem row_standard_cardinality_is_exact (mu : shape) :
  RowStandardTableauTuples_shape_cardinality mu * prod_list (map fact (concat mu))
  = fact (size mu) /\
  1 <= RowStandardTableauTuples_shape_cardinality mu.
Proof.
  assert (H := row_standard_exact mu). split; [exact H|].
  assert (Hf := fact_pos (size mu)).
  destruct (RowStandardTableauTuples_shape_cardinality mu); [cbn in H; lia|lia].
Qed.

(** *** The stretched shape *)

Lemma prod_descending (r : nat) : prod_list (map (fun j => r - j) (seq 0 r)) = fact r.
Proof.
  induction r as [|r IH]; [reflexivity|].
  cbn [seq map]. rewrite <- seq_shift, map_map.
  change (prod_list ((S r - 0) :: map (fun j => S r - S j) (seq 0 r)))
    with ((S r - 0) * prod_list (map (fun j => S r - S j) (seq 0 r))).
  cbn [Nat.sub]. rewrite IH. reflexivity.
Qed.

Lemma hook_product_row (r : nat) : hook_product [r] = fact r.
Proof.
  unfold hook_product. cbn [length seq map concat nth]. rewrite app_nil_r.
  rewrite <- prod_descending. f_equal. apply map_ext_in. intros j Hj.
  apply in_seq in Hj. unfold hook. cbn [nth skipn filter length]. lia.
Qed.

Lemma standard_tableaux_cardinality_row (r : nat) : standard_tableaux_cardinality [r] = 1.
Proof.
  unfold standard_tableaux_cardinality. rewrite hook_product_row.
  change (psize [r]) with (r + 0). rewrite Nat.add_0_r.
  apply Nat.div_same. assert (H := fact_pos r). lia.
Qed.

Lemma size_stretched (mu : shape) : size (stretched mu) = size mu.
Proof.
  rewrite (size_concat mu). unfold stretched, size. rewrite map_map.
  f_equal. rewrite <- (map_id (concat mu)) at 2. apply map_ext. intros r.
  change (psize [r]) with (r + 0). lia.
Qed.

Lemma stretched_count (mu : shape) :
  RowStandardTableauTuples_shape_cardinality mu
  * prod_list (map (fun nu => fact (psize nu)) (stretched mu))
  = fact (size (stretched mu))
    * prod_list (map standard_tableaux_cardinality (stretched mu)).
Proof.
  rewrite size_stretched. unfold stretched. rewrite !map_map.
  rewrite (map_ext (fun r => fact (psize [r])) fact)
    by (intros r; change (psize [r]) with (r + 0); now rewrite Nat.add_0_r).
  rewrite (map_ext (fun r => standard_tableaux_cardinality [r]) (fun _ => 1))
    by apply standard_tableaux_cardinality_row.
  rewrite row_standard_exact.
  assert (E : forall l : list nat, prod_list (map (fun _ => 1) l) = 1).
  { induction l as [|a l IH]; [reflexivity|]. cbn [map]. unfold prod_list in *.
    cbn [fold_right]. lia. }
  rewrite E. lia.
Qed.

Lemma cardinality_counts (mu : shape) (l : list state) :
  is_partition_tuple mu = true ->
  NoDup (map st_tab l) -> (forall tab, In tab (map st_tab l) <-> standard mu tab) ->
  StandardTableauTuples_shape_cardinality mu
  = Ok (Z.of_nat (length (yielded_tableaux mu (Done l)))).
Proof.
  intros Hmu Hnd HL.
  assert (Hc := count_closed_form mu (map st_tab l) Hmu Hnd HL).
  assert (Hlen : length (yielded_tableaux mu (Done l)) = length (map st_tab l)).
  { cbn [yielded_tableaux]. now rewrite !length_map. }
  rewrite Hlen. unfold StandardTableauTuples_shape_cardinality.
  apply Integer_of_rational_integral.
  exact (closed_form_count mu _ Hc).
Qed.

(** The standard tableau tuples of the stretched shape, which has one
    component for every row of [mu], are as many as
    [RowStandardTableauTuples_shape(mu).cardinality()] says:
    [StandardTableauTuples_shape.cardinality()] of the stretched shape
    returns that number, and [__iter__] yields that many tableau tuples. *)
Theorem row_standard_cardinality_counts_stretched (mu : shape) :
  is_partition_tuple mu = true ->
  StandardTableauTuples_shape_cardinality (stretched mu)
  = Ok (Z.of_nat (RowStandardTableauTuples_shape_cardinality mu)) /\
  exists (bound : nat) (l : list state),
    (forall fuel, bound <= fuel -> iter (stretched mu) fuel = Done l) /\
    length (yielded_tableaux (stretched mu) (Done l))
    = RowStandardTableauTuples_shape_cardinality mu.
Proof.
  intros Hmu. assert (Hs := stretched_partition mu Hmu).
  destruct (iter_enumerates (stretched mu) Hs) as (bound & l & Hiter & Hnd & HL).
  assert (Hc := count_closed_form (stretched mu) (map st_tab l) Hs Hnd HL).
  assert (Hlen : length (yielded_tableaux (stretched mu) (Done l))
                 = length (map st_tab l)).
  { cbn [yielded_tableaux]. now rewrite !length_map. }
  assert (E : length (map st_tab l) = RowStandardTableauTuples_shape_cardinality mu).
  { rewrite <- (stretched_count mu) in Hc.
    apply Nat.mul_cancel_r in Hc; [exact Hc|].
    apply (prod_list_fact_pos (stretched mu)). }
  split.
  - rewrite (cardinality_counts (stretched mu) l Hs Hnd HL). now rewrite Hlen, E.
  - exists bound, l. split; [exact Hiter|]. now rewrite Hlen.
Qed.

Lemma row_standard_cardinality_counts_stretched_witness :
  is_partition_tuple [[2; 1]; [1]] = true /\
  StandardTableauTuples_shape_cardinality (stretched [[2; 1]; [1]])
  = Ok (Z.of_nat (RowStandardTableauTuples_shape_cardinality [[2; 1]; [1]])) /\
  exists (bound : nat) (l : list state),
    (forall fuel, bound <= fuel -> iter (stretched [[2; 1]; [1]]) fuel = Done l) /\
    length (yielded_tableaux (stretched [[2; 1]; [1]]) (Done l))
    = RowStandardTableauTuples_shape_cardinality [[2; 1]; [1]].
Proof.
  split; [reflexivity|].
  apply (row_standard_cardinality_counts_stretched [[2; 1]; [1]]). reflexivity.
Defined.

(** *** The class of a level and a size *)

Lemma iter_more_fuel (mu : shape) (l : list state) (fuel k : nat) :
  iter mu fuel = Done l -> iter mu (fuel + k) = Done l.
Proof.
  unfold iter. destruct (init_cols_mins (size mu) _) as [[cols mins]|e];
    [|intros H; discriminate H].
  apply run_more_fuel.
Qed.

Lemma iter_shapes_count (shapes : list shape) :
  (forall mu, In mu shapes -> is_partition_tuple mu = true) ->
  exists (bound : nat) (ys : list (list (list (list nat)))),
    (forall fuel, bound <= fuel -> iter_shapes shapes fuel = AllDone ys) /\
    sum_cardinalities shapes = Ok (Z.of_nat (length ys)) /\
    (forall t, In t ys <-> exists mu, In mu shapes /\ standard_of_shape mu t) /\
    (NoDup shapes -> NoDup ys).
Proof.
  induction shapes as [|mu rest IH]; intros Hall.
  - exists 0, []. split; [reflexivity|]. split; [reflexivity|]. split.
    + intros t. split; [intros []|intros (mu & [] & _)].
    + intros _. constructor.
  - assert (Hmu : is_partition_tuple mu = true) by (apply Hall; now left).
    destruct (IH (fun nu Hnu => Hall nu (or_intror Hnu)))
      as (b2 & ys & Hrest & Hsum & Hin & Hnd2).
    destruct (iter_enumerates mu Hmu) as (b1 & l & Hiter & Hnd & HL).
    assert (HY := In_yielded mu l Hmu HL).
    exists (b1 + b2), (yielded_tableaux mu (Done l) ++ ys).
    split; [|split; [|split]].
    + intros fuel Hf. cbn [iter_shapes].
      rewrite (Hiter fuel ltac:(lia)), (Hrest fuel ltac:(lia)). reflexivity.
    + cbn [sum_cardinalities].
      rewrite (cardinality_counts mu l Hmu Hnd HL), Hsum. cbn [bind].
      rewrite length_app. f_equal. lia.
    + intros t. rewrite in_app_iff, HY, Hin. split.
      * intros [H|(nu & Hnu & H)]; [exists mu; split; [now left|exact H]|].
        exists nu. split; [now right|exact H].
      * intros (nu & [<-|Hnu] & H); [now left|]. right. now exists nu.
    + intros Hnds. inversion Hnds as [|? ? Hnotin Hndr]; subst.
      apply NoDup_app.
      * apply yielded_NoDup; [assumption|]. intros tab. apply HL.
      * now apply Hnd2.
      * intros t Ht Ht'. apply HY in Ht. apply Hin in Ht'.
        destruct Ht' as (nu & Hnu & [Hs' _]). destruct Ht as [Hs _].
        apply Hnotin. congruence.
Qed.

(** With the partition tuples of the level and the size listed, each a
    partition tuple, [cardinality()] of the class of that level and size
    does not raise and returns the number of tableau tuples that its
    [__iter__] yields; these are the standard tableau tuples of the listed
    shapes, and they differ from each other when the shapes do. *)
Theorem level_size_cardinality_counts_iter (PartitionTuples : nat -> nat -> list shape)
        (level n : nat) :
  (forall mu, In mu (PartitionTuples level n) -> is_partition_tuple mu = true) ->
  exists (bound : nat) (ys : list (list (list (list nat)))),
    (forall fuel, bound <= fuel ->
                  StandardTableauTuples_level_size_iter PartitionTuples level n fuel
                  = AllDone ys) /\
    StandardTableauTuples_level_size_cardinality PartitionTuples level n
    = Ok (Z.of_nat (length ys)) /\
    (forall t, In t ys <-> exists mu, In mu (PartitionTuples level n)
                                      /\ standard_of_shape mu t) /\
    (NoDup (PartitionTuples level n) -> NoDup ys).
Proof.
  intros Hall. exact (iter_shapes_count (PartitionTuples level n) Hall).
Qed.

Lemma level_size_cardinality_counts_iter_witness :
  (forall mu, In mu [[[1]; [1]]; [[2]; []]; [[1; 1]; []]; [[]; [2]]; [[]; [1; 1]]] ->
              is_partition_tuple mu = true) /\
  exists (bound : nat) (ys : list (list (list (list nat)))),
    (forall fuel, bound <= fuel ->
                  StandardTableauTuples_level_size_iter
                    (fun _ _ => [[[1]; [1]]; [[2]; []]; [[1; 1]; []]; [[]; [2]]; [[]; [1; 1]]])
                    2 2 fuel
                  = AllDone ys) /\
    StandardTableauTuples_level_size_cardinality
      (fun _ _ => [[[1]; [1]]; [[2]; []]; [[1; 1]; []]; [[]; [2]]; [[]; [1; 1]]]) 2 2
    = Ok (Z.of_nat (length ys)) /\
    (forall t, In t ys <->
               exists mu, In mu [[[1]; [1]]; [[2]; []]; [[1; 1]; []]; [[]; [2]]; [[]; [1; 1]]]
                          /\ standard_of_shape mu t) /\
    (NoDup [[[1]; [1]]; [[2]; []]; [[1; 1]; []]; [[]; [2]]; [[]; [1; 1]]] -> NoDup ys).
Proof.
  assert (H : forall mu,
             In mu [[[1]; [1]]; [[2]; []]; [[1; 1]; []]; [[]; [2]]; [[]; [1; 1]]] ->
             is_partition_tuple mu = true).
  { intros mu Hin. cbn in Hin.
    destruct Hin as [<-|[<-|[<-|[<-|[<-|[]]]]]]; reflexivity. }
  split; [exact H|].
  apply (level_size_cardinality_counts_iter
           (fun _ _ => [[[1]; [1]]; [[2]; []]; [[1; 1]; []]; [[]; [2]]; [[]; [1; 1]]]) 2 2 H).
Defined.

(** ** [conjugate] keeps a standard tableau tuple standard *)

(** Whatever the parent, the conjugate of a standard tableau tuple of
    positive level is standard again, with the same entries, the same level
    and the same size. *)
Theorem conjugate_of_standard_is_standard (parent_contains : tableau_tuple -> bool)
        (comps : tableau_tuple) :
  is_standard_tuple comps -> comps <> [] ->
  exists e comps',
    conjugate parent_contains (StandardTableauTuple comps) = Ok e /\
    value_of e = Some comps' /\
    is_standard_tuple comps' /\
    Permutation (entries comps') (entries comps) /\
    length comps' = length comps /\
    TableauTuple_size comps' = TableauTuple_size comps.
Proof.
  intros Hstd Hne.
  destruct (conjugate_standard parent_contains comps Hstd Hne) as (e & He & Hval & _).
  exists e, (conj_components comps). split; [exact He|]. split; [exact Hval|].
  assert (Hperm := conj_entries comps (proj1 Hstd)).
  split; [now apply conj_standard|]. split; [exact Hperm|]. split.
  - unfold conj_components. now rewrite length_map, length_rev.
  - unfold TableauTuple_size. rewrite <- !length_entries.
    now apply Permutation_length.
Qed.

Lemma conjugate_of_standard_is_standard_witness :
  is_standard_tuple square_and_five /\ square_and_five <> [] /\
  exists e comps',
    conjugate (fun _ => true) (StandardTableauTuple square_and_five) = Ok e /\
    value_of e = Some comps' /\
    is_standard_tuple comps' /\
    Permutation (entries comps') (entries square_and_five) /\
    length comps' = length square_and_five /\
    TableauTuple_size comps' = TableauTuple_size square_and_five.
Proof.
  assert (Hstd : is_standard_tuple square_and_five)
    by (apply is_standard_tupleb_sound; reflexivity).
  assert (Hne : square_and_five <> []) by discriminate.
  split; [exact Hstd|]. split; [exact Hne|].
  apply (conjugate_of_standard_is_standard (fun _ => true) square_and_five Hstd Hne).
Defined.

(** ** What [_add_entry_fast] does with each kind of cell *)

(** The tableau tuple with the entry of an existing cell replaced. *)
Definition with_entry_at {A : Type} (T : list (list (list A))) (k r c : nat) (m : A)
  : list (list (list A)) :=
  set_nth T k (set_nth (nth k T []) r (set_nth (nth r (nth k T []) []) c m)).

Lemma map_length_set_nth {A : Type} (row : list A) (c : nat) (m : A) :
  length (set_nth row c m) = length row.
Proof. apply length_set_nth. Qed.

Lemma set_nth_id {A : Type} (l : list A) (i : nat) (d : A) :
  set_nth l i (nth i l d) = l.
Proof.
  revert i. induction l as [|a l IH]; intros [|i]; cbn; try reflexivity.
  now rewrite IH.
Qed.

Lemma shape_with_entry_at {A : Type} (T : list (list (list A))) (k r c : nat) (m : A) :
  shape_of_tuple (with_entry_at T k r c m) = shape_of_tuple T.
Proof.
  unfold with_entry_at, shape_of_tuple. rewrite map_set_nth.
  set (comp := nth k T []). set (row := nth r comp []).
  assert (E1 : shape_of_tableau (set_nth comp r (set_nth row c m))
               = shape_of_tableau comp).
  { unfold shape_of_tableau. rewrite map_set_nth, length_set_nth.
    assert (E : length row = nth r (map (@length A) comp) 0).
    { symmetry. exact (map_nth (@length A) comp [] r). }
    rewrite E. apply set_nth_id. }
  rewrite E1. unfold comp.
  assert (E2 : shape_of_tableau (nth k T [])
               = nth k (map (@shape_of_tableau A) T) []).
  { symmetry. exact (map_nth (@shape_of_tableau A) T [] k). }
  rewrite E2. apply set_nth_id.
Qed.

(** [_add_entry_fast] on a component [k] of [T]: a cell of the diagram gets
    the entry [m] and the shape stays; a cell at or beyond the end of a row,
    or in the row below the last one, has [m] appended to the row, at the
    first free column whatever the column [c] is; a row further down is an
    [IndexError]. *)
Theorem add_entry_fast_cases {A : Type} (T : list (list (list A))) (k r c : nat) (m : A) :
  k < length T ->
  (c < length (nth r (nth k T []) []) ->
   _add_entry_fast T (k, r, c) m = Ok (with_entry_at T k r c m) /\
   shape_of_tuple (with_entry_at T k r c m) = shape_of_tuple T) /\
  (r <= length (nth k T []) -> length (nth r (nth k T []) []) <= c ->
   _add_entry_fast T (k, r, c) m = Ok (with_entry T k r m) /\
   shape_of_tuple (with_entry T k r m)
   = set_nth (shape_of_tuple T) k (with_cell (nth k (shape_of_tuple T) []) r)) /\
  (length (nth k T []) < r ->
   exists msg, _add_entry_fast T (k, r, c) m = Raise (IndexError msg)).
Proof.
  intros Hk.
  assert (Hcomp : getitem T k = Ok (nth k T [])).
  { apply getitem_ok. now apply nth_error_nth'. }
  set (comp := nth k T []) in *.
  split; [|split].
  - intros Hc. split; [|apply shape_with_entry_at].
    assert (Hr : r < length comp).
    { destruct (Nat.lt_ge_cases r (length comp)) as [H|H]; [assumption|].
      rewrite (nth_overflow comp) in Hc by assumption. cbn in Hc. lia. }
    unfold _add_entry_fast, set_entry, with_entry_at. rewrite Hcomp. cbn [bind].
    rewrite (getitem_ok comp r (nth r comp [])) by (now apply nth_error_nth').
    cbn [bind]. unfold setitem.
    destruct (Nat.ltb_spec c (length (nth r comp []))); [|lia]. reflexivity.
  - intros Hr Hc. split; [|now apply shape_of_with_entry].
    rewrite <- (append_entry_addable T k r m Hk Hr).
    unfold _add_entry_fast, set_entry. rewrite Hcomp. cbn [bind].
    destruct (Nat.eq_dec r (length comp)) as [E|Hne].
    + unfold getitem at 1. rewrite (proj2 (nth_error_None comp r)) by lia.
      reflexivity.
    + rewrite (getitem_ok comp r (nth r comp [])) by (apply nth_error_nth'; lia).
      cbn [bind]. unfold setitem.
      destruct (Nat.ltb_spec c (length (nth r comp []))); [lia|]. reflexivity.
  - intros Hr. unfold _add_entry_fast, set_entry, append_entry.
    rewrite Hcomp. cbn [bind].
    unfold getitem at 1. rewrite (proj2 (nth_error_None comp r)) by lia.
    cbn [bind is_IndexErrorb].
    destruct (Nat.eqb_spec r (length comp)); [lia|].
    unfold getitem. rewrite (proj2 (nth_error_None comp r)) by lia.
    cbn [bind]. now eexists.
Qed.

Lemma add_entry_fast_cases_witness :
  0 < length [[[3; 4; 7]; [6; 8]]; [[9; 13]; [12]]]%Z /\
  (3 < length (nth 0 (nth 0 [[[3; 4; 7]; [6; 8]]; [[9; 13]; [12]]]%Z []) []) ->
   _add_entry_fast [[[3; 4; 7]; [6; 8]]; [[9; 13]; [12]]]%Z (0, 0, 3) 14%Z
   = Ok (with_entry_at [[[3; 4; 7]; [6; 8]]; [[9; 13]; [12]]]%Z 0 0 3 14%Z) /\
   shape_of_tuple (with_entry_at [[[3; 4; 7]; [6; 8]]; [[9; 13]; [12]]]%Z 0 0 3 14%Z)
   = shape_of_tuple [[[3; 4; 7]; [6; 8]]; [[9; 13]; [12]]]%Z) /\
  (0 <= length (nth 0 [[[3; 4; 7]; [6; 8]]; [[9; 13]; [12]]]%Z []) ->
   length (nth 0 (nth 0 [[[3; 4; 7]; [6; 8]]; [[9; 13]; [12]]]%Z []) []) <= 3 ->
   _add_entry_fast [[[3; 4; 7]; [6; 8]]; [[9; 13]; [12]]]%Z (0, 0, 3) 14%Z
   = Ok (with_entry [[[3; 4; 7]; [6; 8]]; [[9; 13]; [12]]]%Z 0 0 14%Z) /\
   shape_of_tuple (with_entry [[[3; 4; 7]; [6; 8]]; [[9; 13]; [12]]]%Z 0 0 14%Z)
   = set_nth (shape_of_tuple [[[3; 4; 7]; [6; 8]]; [[9; 13]; [12]]]%Z) 0
             (with_cell (nth 0 (shape_of_tuple [[[3; 4; 7]; [6; 8]]; [[9; 13]; [12]]]%Z) [])
                        0)) /\
  (length (nth 0 [[[3; 4; 7]; [6; 8]]; [[9; 13]; [12]]]%Z []) < 0 ->
   exists msg, _add_entry_fast [[[3; 4; 7]; [6; 8]]; [[9; 13]; [12]]]%Z (0, 0, 3) 14%Z
               = Raise (IndexError msg)).
Proof.
  split; [cbn; lia|].
  apply (add_entry_fast_cases [[[3; 4; 7]; [6; 8]]; [[9; 13]; [12]]]%Z 0 0 3 14%Z).
  cbn. lia.
Defined.

(** * The residue enumerators yield standard tableaux

    The tableaux are built one entry at a time with [check=False]: the next
    entry goes into an addable cell of a standard tableau. *)

(** ** Rows and columns, cell by cell *)

Lemma row_strict_holds (t : tableau_tuple) :
  row_strict t <->
  forall k r c a b, holds t k r c a -> holds t k r (S c) b -> (a < b)%Z.
Proof.
  split.
  - intros H k r c a b (comp & row & Hk & Hr & Hc) (comp' & row' & Hk' & Hr' & Hc').
    assert (comp' = comp) by congruence. subst comp'.
    assert (row' = row) by congruence. subst row'.
    apply (H comp row c a b); try assumption.
    + eapply nth_error_In. exact Hk.
    + eapply nth_error_In. exact Hr.
  - intros H comp row i a b Hcomp Hrow Ha Hb.
    destruct (In_nth_error _ _ Hcomp) as [k Hk].
    destruct (In_nth_error _ _ Hrow) as [r Hr].
    apply (H k r i a b); exists comp, row; now repeat split.
Qed.

Lemma column_strict_holds (t : tableau_tuple) :
  column_strict t <->
  forall k r c a b, holds t k r c a -> holds t k (S r) c b -> (a < b)%Z.
Proof.
  split.
  - intros H k r c a b (comp & row & Hk & Hr & Hc) (comp' & row' & Hk' & Hr' & Hc').
    assert (comp' = comp) by congruence. subst comp'.
    apply (H comp r row row' c a b); try assumption.
    eapply nth_error_In. exact Hk.
  - intros H comp r upper lower c a b Hcomp Hu Hl Ha Hb.
    destruct (In_nth_error _ _ Hcomp) as [k Hk].
    apply (H k r c a b); [exists comp, upper | exists comp, lower]; now repeat split.
Qed.

Lemma holds_row_length (zs : tableau_tuple) (k r c : nat) (x : Z) :
  holds zs k r c x -> c < length (nth r (nth k zs []) []).
Proof.
  intros (comp & row & Hk & Hr & Hc).
  rewrite (nth_error_nth zs k [] Hk), (nth_error_nth comp r [] Hr).
  apply nth_error_Some. congruence.
Qed.

Lemma holds_rows (zs : tableau_tuple) (k r c : nat) (x : Z) :
  holds zs k r c x -> r < length (nth k zs []).
Proof.
  intros (comp & row & Hk & Hr & Hc).
  rewrite (nth_error_nth zs k [] Hk). apply nth_error_Some. congruence.
Qed.

(** The rows of a tableau get no longer. *)
Lemma valid_rows_weakly_decrease (zs : tableau_tuple) (k r : nat) :
  forallb (@valid_tableau Z) zs = true -> k < length zs ->
  S r < length (nth k zs []) ->
  length (nth (S r) (nth k zs []) []) <= length (nth r (nth k zs []) []).
Proof.
  intros Hvalid Hk Hr. rewrite valid_shape in Hvalid.
  unfold is_partition_tuple in Hvalid. rewrite forallb_forall in Hvalid.
  assert (Hp : is_partition (shape_of_tableau (nth k zs [])) = true).
  { apply Hvalid. unfold shape_of_tuple. apply in_map. now apply nth_In. }
  apply is_partition_spec in Hp. destruct Hp as [_ Hwd].
  specialize (Hwd r). unfold shape_of_tableau in Hwd. rewrite length_map in Hwd.
  specialize (Hwd Hr).
  change 0 with (length (@nil Z)) in Hwd. now rewrite !map_nth in Hwd.
Qed.

(** ** The next entry in an addable cell *)

Definition increasing (zs : tableau_tuple) : Prop := row_strict zs /\ column_strict zs.

Lemma with_entry_increasing (n : nat) (zs : tableau_tuple) (k r c : nat) :
  filled n zs -> increasing zs ->
  In (k, r, c) (addable_cells (shape_of_tuple zs)) ->
  increasing (with_entry zs k r (Z.of_nat (S n))).
Proof.
  intros Hf [Hrow Hcol] Hadd.
  destruct (addable_position zs k r c Hadd) as (Hk & Hr & Hc & _).
  rewrite row_strict_holds in Hrow. rewrite column_strict_holds in Hcol.
  split.
  - apply row_strict_holds. intros k' r' c' a b Ha Hb.
    apply holds_with_entry in Ha; [|assumption|assumption].
    apply holds_with_entry in Hb; [|assumption|assumption].
    destruct Ha as [Ha|[Ea ->]], Hb as [Hb|[Eb ->]].
    + exact (Hrow k' r' c' a b Ha Hb).
    + assert (Hx := filled_range n zs _ _ _ _ Hf Ha). lia.
    + injection Ea as -> -> ->. apply holds_row_length in Hb. lia.
    + injection Ea as -> -> ->. injection Eb as Eb. lia.
  - apply column_strict_holds. intros k' r' c' a b Ha Hb.
    apply holds_with_entry in Ha; [|assumption|assumption].
    apply holds_with_entry in Hb; [|assumption|assumption].
    destruct Ha as [Ha|[Ea ->]], Hb as [Hb|[Eb ->]].
    + exact (Hcol k' r' c' a b Ha Hb).
    + assert (Hx := filled_range n zs _ _ _ _ Hf Ha). lia.
    + injection Ea as -> -> ->.
      assert (Hlen := holds_row_length _ _ _ _ _ Hb).
      assert (Hrows := holds_rows _ _ _ _ _ Hb).
      destruct Hf as [Hvalid _].
      assert (Hwd := valid_rows_weakly_decrease zs k r Hvalid Hk Hrows). lia.
    + injection Ea as -> -> ->. injection Eb as Eb. lia.
Qed.

Lemma increasing_empty (level : nat) : increasing (repeat [] level).
Proof.
  split.
  - apply row_strict_holds. intros k r c a b H. now apply holds_empty in H.
  - apply column_strict_holds. intros k r c a b H. now apply holds_empty in H.
Qed.

(** A tableau tuple with the entries 1, ..., n and increasing rows and
    columns is standard. *)
Lemma filled_increasing_standard (n : nat) (zs : tableau_tuple) :
  filled n zs -> increasing zs -> is_standard_tuple zs.
Proof.
  intros [Hvalid Hperm] [Hrow Hcol].
  split; [exact Hvalid|]. split; [exact Hrow|]. split; [|exact Hcol].
  unfold bijective. rewrite (Permutation_length Hperm).
  unfold range1 at 2. now rewrite length_map, length_seq.
Qed.

(** ** Generators that do not raise *)

(** The generator ends without an exception, and what it yields has [P]. *)
Definition gen_runs {A : Type} (P : A -> Prop) (g : gen A) : Prop :=
  Forall P (fst g) /\ snd g = None.

Lemma gen_runs_empty {A : Type} (P : A -> Prop) : gen_runs P (@gen_empty A).
Proof. split; [constructor|reflexivity]. Qed.

Lemma gen_runs_yield {A : Type} (P : A -> Prop) (a : A) : P a -> gen_runs P (gen_yield a).
Proof. intros H. split; [now apply gen_yield_yields|reflexivity]. Qed.

Lemma gen_runs_app {A : Type} (P : A -> Prop) (g1 g2 : gen A) :
  gen_runs P g1 -> gen_runs P g2 -> gen_runs P (gen_app g1 g2).
Proof.
  intros [H1 E1] [H2 E2]. split; [now apply gen_app_yields|].
  unfold gen_app. now rewrite E1.
Qed.

Lemma gen_runs_for {A B : Type} (P : B -> Prop) (l : list A) (body : A -> gen B) :
  (forall a, In a l -> gen_runs P (body a)) -> gen_runs P (gen_for l body).
Proof.
  induction l as [|a l IH]; intros H; cbn [gen_for]; [apply gen_runs_empty|].
  apply gen_runs_app; [apply H; now left|]. apply IH. intros b Hb. apply H. now right.
Qed.

Lemma gen_runs_bind {A B : Type} (Q : A -> Prop) (P : B -> Prop)
      (g : gen A) (body : A -> gen B) :
  gen_runs Q g -> (forall a, Q a -> gen_runs P (body a)) -> gen_runs P (gen_bind g body).
Proof.
  intros [Hg Eg] Hbody. unfold gen_bind. rewrite Eg. apply gen_runs_app.
  - apply gen_runs_for. intros a Ha. apply Hbody.
    rewrite Forall_forall in Hg. now apply Hg.
  - apply gen_runs_empty.
Qed.

Lemma gen_runs_map {A B : Type} (Q : A -> Prop) (P : B -> Prop) (f : A -> B)
      (g : gen A) :
  gen_runs Q g -> (forall a, Q a -> P (f a)) -> gen_runs P (gen_map f g).
Proof.
  intros [Hg Eg] Hf. split; [now apply (gen_map_yields Q)|exact Eg].
Qed.

(** ** The residue of the next entry *)

Lemma right_residue_Ok (e : Z) (mc rl : list Z) (n k r c : nat) :
  n < length rl -> k < length mc ->
  exists b, right_residue (mkResidueSequence e mc rl) (S n) (k, r, c) = Ok b.
Proof.
  intros Hn Hk. unfold right_residue, rs_getitem, cell_residue, getitem.
  cbn [residues multicharge quantum_characteristic].
  destruct (nth_error rl n) as [rn|] eqn:En;
    [|apply nth_error_None in En; lia].
  destruct (nth_error mc k) as [mk|] eqn:Ek;
    [|apply nth_error_None in Ek; lia].
  cbn [bind]. eexists. reflexivity.
Qed.

(** ** [StandardTableaux_residue] *)

(** A standard tableau tuple with the residues [rl], one component for every
    entry of the multicharge. *)
Definition standard_good (e : Z) (mc rl : list Z) (t : list (list (list pyobj)))
  : Prop :=
  exists zs, t = lift_tuple zs /\ filled (length rl) zs /\
             length zs = length mc /\ residues_match e mc zs rl /\
             increasing zs.

Lemma standard_good_empty (e : Z) (mc rl : list Z) (level : nat) :
  length rl = 0 -> level = length mc ->
  standard_good e mc rl (repeat [] level).
Proof.
  intros Hlen ->. exists (repeat [] (length mc)). rewrite lift_tuple_empty, Hlen.
  split; [reflexivity|]. split; [apply filled_empty|].
  split; [apply repeat_length|]. split; [|apply increasing_empty].
  intros k r c x H. now apply holds_empty in H.
Qed.

Lemma standard_good_with_entry (e : Z) (mc rl : list Z) (n : nat)
      (zs : tableau_tuple) (k r c : nat) :
  length rl = S n ->
  filled n zs -> length zs = length mc ->
  residues_match e mc zs (firstn n rl) -> increasing zs ->
  In (k, r, c) (addable_cells (shape_of_tuple zs)) ->
  right_residue (mkResidueSequence e mc rl) (S n) (k, r, c) = Ok true ->
  standard_good e mc rl (lift_tuple (with_entry zs k r (Z.of_nat (S n)))).
Proof.
  intros Hlen Hf Hlz Hmatch Hinc Hadd Hright.
  destruct (addable_position zs k r c Hadd) as (Hk & Hr & Hc & _).
  exists (with_entry zs k r (Z.of_nat (S n))).
  split; [reflexivity|]. rewrite Hlen.
  split; [eapply with_entry_filled; eassumption|].
  split; [unfold with_entry; now rewrite length_set_nth|].
  split; [|eapply with_entry_increasing; eassumption].
  apply (residues_match_with_entry n); try assumption.
  rewrite <- Hc. now apply right_residue_true.
Qed.

Lemma StandardTableaux_residue_higher_runs (e : Z) (mc : list Z) (n : nat) :
  forall rl, length rl = n ->
    gen_runs (standard_good e mc rl)
         (StandardTableaux_residue_higher (length mc) n (mkResidueSequence e mc rl)).
Proof.
  induction n as [|n IH]; intros rl Hlen.
  - cbn [StandardTableaux_residue_higher]. apply gen_runs_yield.
    now apply standard_good_empty.
  - cbn [StandardTableaux_residue_higher].
    apply (gen_runs_bind (standard_good e mc (firstn n rl))).
    + apply (IH (firstn n rl)). rewrite length_firstn. lia.
    + intros t (zs & -> & Hf & Hlz & Hmatch & Hinc).
      rewrite length_firstn, Nat.min_l in Hf by lia.
      rewrite shape_of_lift_tuple. apply gen_runs_for. intros [[k r] c] Hadd.
      destruct (addable_position zs k r c Hadd) as (Hk & _).
      destruct (right_residue_Ok e mc rl n k r c) as [b Hright]; [lia|lia|].
      rewrite Hright. cbn [gen_lift]. destruct b; [|apply gen_runs_empty].
      rewrite (add_cell_filled n zs k r c Hf Hadd). cbn [gen_lift].
      apply gen_runs_yield. now apply (standard_good_with_entry e mc rl n zs k r c).
Qed.

Lemma right_residue_level_one_eq (residue : ResidueSequence) (n r c : nat) :
  right_residue_level_one residue n (r, c) = right_residue residue n (0, r, c).
Proof. reflexivity. Qed.

Lemma StandardTableaux_residue_level_one_runs (e : Z) (mc : list Z) (n : nat) :
  length mc = 1 ->
  forall rl, length rl = n ->
    gen_runs (fun t => standard_good e mc rl [t])
         (StandardTableaux_residue_level_one n (mkResidueSequence e mc rl)).
Proof.
  intros Hmc. induction n as [|n IH]; intros rl Hlen.
  - cbn [StandardTableaux_residue_level_one]. apply gen_runs_yield.
    now apply (standard_good_empty e mc rl 1).
  - cbn [StandardTableaux_residue_level_one].
    apply (gen_runs_bind (fun t => standard_good e mc (firstn n rl) [t])).
    + apply (IH (firstn n rl)). rewrite length_firstn. lia.
    + intros t (zs & Ht & Hf & Hlz & Hmatch & Hinc).
      rewrite length_firstn, Nat.min_l in Hf by lia.
      destruct (lift_tuple_singleton t zs Ht) as (rows & -> & ->).
      rewrite shape_of_lift_tableau. apply gen_runs_for. intros [r c] Hadd.
      rewrite right_residue_level_one_eq.
      destruct (right_residue_Ok e mc rl n 0 r c) as [b Hright]; [lia|lia|].
      rewrite Hright. cbn [gen_lift]. destruct b; [|apply gen_runs_empty].
      destruct (Tableau_add_entry_addable rows r c (Z.of_nat (S n)) Hadd)
        as (rows' & Hrun & Hrows').
      rewrite Hrun. cbn [gen_lift]. apply gen_runs_yield.
      assert (Hadd' := Partition_addable_tuple rows r c Hadd).
      change [lift_tableau rows'] with (lift_tuple [rows']). rewrite Hrows'.
      now apply (standard_good_with_entry e mc rl n [rows] 0 r c).
Qed.

(** ** [StandardTableaux_residue_shape] *)

Lemma sum_list_set_nth (l : list nat) (i a : nat) :
  i < length l -> sum_list (set_nth l i a) + nth i l 0 = sum_list l + a.
Proof.
  revert i. induction l as [|x l IH]; intros i Hi; [cbn in Hi; lia|].
  destruct i as [|i]; cbn [set_nth nth].
  - unfold sum_list. cbn [fold_right]. lia.
  - cbn [length] in Hi. assert (H := IH i ltac:(lia)).
    unfold sum_list in *. cbn [fold_right]. lia.
Qed.

Lemma psize_with_cell (nu : list nat) (r : nat) :
  r <= length nu -> psize (with_cell nu r) = S (psize nu).
Proof.
  intros Hr. unfold with_cell, psize.
  destruct (Nat.eqb_spec r (length nu)) as [E|Hne].
  - rewrite sum_list_app. unfold sum_list at 2. cbn [fold_right]. lia.
  - assert (H := sum_list_set_nth nu r (S (nth r nu 0)) ltac:(lia)). lia.
Qed.

(** A shape without a removable cell is one smaller. *)
Lemma size_remove_cell (mu mu' : shape) (k r c : nat) :
  is_partition_tuple mu = true ->
  remove_cell mu (k, r, c) = Ok mu' -> size mu = S (size mu').
Proof.
  intros Hmu Hrem.
  destruct (remove_cell_spec mu mu' k r c Hmu Hrem) as (_ & _ & Hadd & Hback).
  apply addable_cells_spec in Hadd. destruct Hadd as (nu & Hnu & Hr & _).
  rewrite (nth_error_nth mu' k [] Hnu) in Hback. rewrite <- Hback.
  assert (Hk : k < length mu') by (apply nth_error_Some; congruence).
  unfold size. rewrite map_set_nth.
  assert (H := sum_list_set_nth (map psize mu') k (psize (with_cell nu r))).
  rewrite length_map in H. specialize (H Hk).
  change 0 with (psize []) in H. rewrite map_nth in H.
  rewrite (nth_error_nth mu' k [] Hnu) in H.
  rewrite psize_with_cell in * by assumption. lia.
Qed.

Lemma remove_cell_Ok (mu : shape) (cell : nat * nat * nat) :
  In cell (removable_cells mu) -> exists mu', remove_cell mu cell = Ok mu'.
Proof.
  intros H. apply existsb_cell3 in H. destruct cell as [[k r] c].
  unfold remove_cell. rewrite H. eexists. reflexivity.
Qed.

(** A standard tableau tuple of the shape [mu] with the residues [rl]. *)
Definition standard_shaped (e : Z) (mc rl : list Z) (mu : shape)
           (t : list (list (list pyobj))) : Prop :=
  standard_good e mc rl t /\ shape_of_tuple t = mu.

Lemma StandardTableaux_residue_shape_higher_runs (e : Z) (mc : list Z) (n : nat) :
  forall rl mu, length rl = n -> is_partition_tuple mu = true ->
    length mu = length mc -> size mu = n ->
    gen_runs (standard_shaped e mc rl mu)
         (StandardTableaux_residue_shape_higher
            (length mc) n (mkResidueSequence e mc rl) mu).
Proof.
  induction n as [|n IH]; intros rl mu Hlen Hmu Hlmu Hsize.
  - cbn [StandardTableaux_residue_shape_higher]. unfold rs_size.
    cbn [residues]. rewrite Hlen, Hsize. cbn [Nat.eqb negb].
    apply gen_runs_yield. split; [now apply standard_good_empty|].
    rewrite <- (lift_tuple_empty (length mc)), shape_of_lift_tuple.
    rewrite shape_of_empty, <- Hlmu. symmetry.
    now apply empty_partition_tuple.
  - cbn [StandardTableaux_residue_shape_higher]. unfold rs_size.
    cbn [residues]. rewrite Hlen, Hsize, Nat.eqb_refl. cbn [negb].
    apply gen_runs_for. intros [[k r] c] Hcell.
    destruct (removable_cells_spec mu k r c Hcell) as (nu & Hnu & _).
    assert (Hk : k < length mu) by (apply nth_error_Some; congruence).
    destruct (right_residue_Ok e mc rl n k r c) as [b Hright]; [lia|lia|].
    rewrite Hright. cbn [gen_lift]. destruct b; [|apply gen_runs_empty].
    destruct (remove_cell_Ok mu (k, r, c) Hcell) as [mu' Hrem].
    rewrite Hrem. cbn [gen_lift].
    destruct (remove_cell_spec mu mu' k r c Hmu Hrem) as (Hmu' & Hlmu' & _ & _).
    assert (Hsize' := size_remove_cell mu mu' k r c Hmu Hrem).
    apply (gen_runs_bind (standard_shaped e mc (firstn n rl) mu')).
    + apply (IH (firstn n rl) mu'); [rewrite length_firstn; lia|assumption|lia|lia].
    + intros t [(zs & -> & Hf & Hlz & Hmatch & Hinc) Hshape].
      rewrite length_firstn, Nat.min_l in Hf by lia.
      rewrite shape_of_lift_tuple in Hshape.
      destruct (with_entry_shape zs mu mu' k r c (Z.of_nat (S n)) Hmu Hrem Hshape)
        as [Hadd Hnew].
      rewrite (add_cell_filled n zs k r c Hf Hadd). cbn [gen_lift].
      apply gen_runs_yield.
      split; [now apply (standard_good_with_entry e mc rl n zs k r c)|].
      now rewrite shape_of_lift_tuple.
Qed.

Lemma Partition_removable_tuple (nu : list nat) (r c : nat) :
  In (r, c) (Partition_removable_cells nu) -> In (0, r, c) (removable_cells [nu]).
Proof.
  unfold Partition_removable_cells, removable_cells. intros H.
  apply in_map_iff in H. destruct H as ([[k' r'] c'] & [= <- <-] & Hin).
  cbn [length seq combine map concat fst snd]. rewrite app_nil_r.
  destruct (removable_in_rows_spec _ _ _ _ _ _ Hin) as (-> & _). exact Hin.
Qed.

Lemma Partition_remove_cell_Ok (nu : list nat) (r c : nat) :
  is_partition nu = true ->
  In (r, c) (Partition_removable_cells nu) ->
  exists nu', Partition_remove_cell nu (r, c) = Ok nu' /\
              remove_cell [nu] (0, r, c) = Ok [nu'].
Proof.
  intros Hnu Hcell. apply Partition_removable_tuple in Hcell.
  destruct (remove_cell_Ok [nu] (0, r, c) Hcell) as [mu' Hrem].
  assert (Hmu : is_partition_tuple [nu] = true) by (cbn; now rewrite Hnu).
  destruct (remove_cell_spec [nu] mu' 0 r c Hmu Hrem) as (_ & Hl & _ & _).
  destruct mu' as [|nu' [|? ?]]; try discriminate.
  exists nu'. split; [|exact Hrem].
  unfold Partition_remove_cell. cbn [fst snd]. now rewrite Hrem.
Qed.

Lemma StandardTableaux_residue_shape_level_one_runs (e : Z) (mc : list Z) (n : nat) :
  length mc = 1 ->
  forall rl nu, length rl = n -> is_partition nu = true -> psize nu = n ->
    gen_runs (fun t => standard_shaped e mc rl [nu] [t])
         (StandardTableaux_residue_shape_level_one
            n (mkResidueSequence e mc rl) nu).
Proof.
  intros Hmc. induction n as [|n IH]; intros rl nu Hlen Hnu Hsize.
  - cbn [StandardTableaux_residue_shape_level_one]. unfold rs_size.
    cbn [residues]. rewrite Hlen, Hsize. cbn [Nat.eqb negb].
    apply gen_runs_yield. split; [now apply (standard_good_empty e mc rl 1)|].
    assert (H := empty_partition_tuple [nu]).
    cbn [length repeat] in H. rewrite H; [reflexivity| |].
    + cbn. now rewrite Hnu.
    + unfold size. cbn [map]. unfold sum_list at 1. cbn [fold_right]. lia.
  - cbn [StandardTableaux_residue_shape_level_one]. unfold rs_size.
    cbn [residues]. rewrite Hlen, Hsize, Nat.eqb_refl. cbn [negb].
    apply gen_runs_for. intros [r c] Hcell.
    rewrite right_residue_level_one_eq.
    destruct (right_residue_Ok e mc rl n 0 r c) as [b Hright]; [lia|lia|].
    rewrite Hright. cbn [gen_lift]. destruct b; [|apply gen_runs_empty].
    destruct (Partition_remove_cell_Ok nu r c Hnu Hcell) as (nu' & Hrem1 & Hrem).
    rewrite Hrem1. cbn [gen_lift].
    assert (Hmu : is_partition_tuple [nu] = true) by (cbn; now rewrite Hnu).
    destruct (remove_cell_spec [nu] [nu'] 0 r c Hmu Hrem) as (Hmu' & _ & _ & _).
    assert (Hnu' : is_partition nu' = true).
    { cbn in Hmu'. now rewrite andb_true_r in Hmu'. }
    assert (Hsize' := size_remove_cell [nu] [nu'] 0 r c Hmu Hrem).
    assert (Hp : psize nu' = n).
    { rewrite !size_cons in Hsize'. unfold size in Hsize'. cbn in Hsize'. lia. }
    apply (gen_runs_bind (fun t => standard_shaped e mc (firstn n rl) [nu'] [t])).
    + apply (IH (firstn n rl) nu'); [rewrite length_firstn; lia|assumption|assumption].
    + intros t [(zs & Ht & Hf & Hlz & Hmatch & Hinc) Hshape].
      rewrite length_firstn, Nat.min_l in Hf by lia.
      destruct (lift_tuple_singleton t zs Ht) as (rows & -> & ->).
      change [lift_tableau rows] with (lift_tuple [rows]) in Hshape.
      rewrite shape_of_lift_tuple in Hshape.
      destruct (with_entry_shape [rows] [nu] [nu'] 0 r c (Z.of_nat (S n))
                                 Hmu Hrem Hshape) as [Hadd Hnew].
      assert (Hadd1 : In (r, c) (Partition_addable_cells (shape_of_tableau rows))).
      { unfold Partition_addable_cells. apply in_map_iff. exists (0, r, c).
        split; [reflexivity|]. unfold addable_cells in Hadd.
        cbn [shape_of_tuple map length seq combine concat fst snd] in Hadd.
        now rewrite app_nil_r in Hadd. }
      destruct (Tableau_add_entry_addable rows r c (Z.of_nat (S n)) Hadd1)
        as (rows' & Hrun & Hrows').
      rewrite Hrun. cbn [gen_lift]. apply gen_runs_yield.
      change [lift_tableau rows'] with (lift_tuple [rows']). rewrite Hrows'.
      split; [now apply (standard_good_with_entry e mc rl n [rows] 0 r c)|].
      now rewrite shape_of_lift_tuple.
Qed.

(** * The residue enumerators miss no standard tableau

    A standard tableau tuple without its largest entry is a standard tableau
    tuple, and the cell of the largest entry is a removable cell of the
    shape: the enumerators reach every standard tableau tuple with the
    residues they were given. *)

(** ** All the yields of a generator that does not raise *)

Lemma gen_app_None {A : Type} (g1 g2 : gen A) :
  snd (gen_app g1 g2) = None ->
  snd g1 = None /\ snd g2 = None /\ fst (gen_app g1 g2) = fst g1 ++ fst g2.
Proof.
  unfold gen_app. destruct (snd g1) as [err|]; cbn [fst snd]; [discriminate|].
  intros H. now repeat split.
Qed.

Lemma gen_for_None {A B : Type} (l : list A) (body : A -> gen B) (a : A) :
  snd (gen_for l body) = None -> In a l ->
  snd (body a) = None /\ incl (fst (body a)) (fst (gen_for l body)).
Proof.
  induction l as [|x l IH]; intros Hnone Hin; [contradiction|].
  cbn [gen_for] in *. apply gen_app_None in Hnone.
  destruct Hnone as (H1 & H2 & ->). destruct Hin as [->|Hin].
  - split; [assumption|]. now apply incl_appl.
  - destruct (IH H2 Hin) as [Hb Hincl]. split; [assumption|]. now apply incl_appr.
Qed.

Lemma gen_bind_None {A B : Type} (g : gen A) (body : A -> gen B) (a : A) :
  snd (gen_bind g body) = None -> In a (fst g) ->
  snd (body a) = None /\ incl (fst (body a)) (fst (gen_bind g body)).
Proof.
  unfold gen_bind. intros Hnone Hin. apply gen_app_None in Hnone.
  destruct Hnone as (H1 & _ & ->).
  destruct (gen_for_None (fst g) body a H1 Hin) as [Hb Hincl].
  split; [assumption|]. now apply incl_appl.
Qed.

(** ** A tableau tuple without the last entry of a row *)

Definition comp_without_entry {A : Type} (comp : list (list A)) (r : nat)
  : list (list A) :=
  if length (nth r comp []) =? 1 then firstn r comp
  else set_nth comp r (removelast (nth r comp [])).

Definition without_entry {A : Type} (T : list (list (list A))) (k r : nat)
  : list (list (list A)) :=
  set_nth T k (comp_without_entry (nth k T []) r).

Lemma nth_set_nth_same {A : Type} (l : list A) (i : nat) (a d : A) :
  i < length l -> nth i (set_nth l i a) d = a.
Proof.
  intros Hi. apply nth_error_nth. now apply nth_error_set_nth_same.
Qed.

Lemma comp_with_without_entry {A : Type} (comp : list (list A)) (r : nat)
      (init : list A) (m : A) :
  r < length comp -> nth r comp [] = init ++ [m] ->
  (init = [] -> S r = length comp) ->
  comp_with_entry (comp_without_entry comp r) r m = comp /\
  r <= length (comp_without_entry comp r) /\
  length (nth r (comp_without_entry comp r) []) = length init.
Proof.
  intros Hr Hrow Hlast. unfold comp_without_entry, comp_with_entry.
  assert (Hnth : nth_error comp r = Some (init ++ [m])).
  { rewrite <- Hrow. now apply nth_error_nth'. }
  rewrite Hrow, length_app. cbn [length].
  destruct (Nat.eqb_spec (length init + 1) 1) as [E|Hne].
  - assert (init = []) by (destruct init; [reflexivity|cbn in E; lia]). subst init.
    specialize (Hlast eq_refl). rewrite length_firstn, Nat.min_l by lia.
    cbn [app] in Hnth.
    rewrite Nat.eqb_refl. split; [|split; [lia|]].
    + rewrite <- (firstn_skipn r comp) at 2. f_equal.
      assert (Hs := set_nth_split comp r _ [m] Hnth).
      rewrite (set_nth_same comp r _ Hnth) in Hs.
      rewrite (skipn_all2 comp) in Hs by lia.
      rewrite <- (firstn_skipn r comp) in Hs at 1.
      now apply app_inv_head in Hs.
    + rewrite nth_overflow; [reflexivity|]. rewrite length_firstn. lia.
  - rewrite length_set_nth. destruct (Nat.eqb_spec r (length comp)); [lia|].
    rewrite nth_set_nth_same by assumption. rewrite removelast_last.
    split; [|split; [lia|reflexivity]].
    rewrite set_nth_set_nth. now apply set_nth_same.
Qed.

Lemma with_without_entry {A : Type} (T : list (list (list A))) (k r : nat)
      (init : list A) (m : A) :
  k < length T -> r < length (nth k T []) ->
  nth r (nth k T []) [] = init ++ [m] ->
  (init = [] -> S r = length (nth k T [])) ->
  with_entry (without_entry T k r) k r m = T /\
  length (without_entry T k r) = length T /\
  r <= length (nth k (without_entry T k r) []) /\
  length (nth r (nth k (without_entry T k r) []) []) = length init.
Proof.
  intros Hk Hr Hrow Hlast. unfold with_entry, without_entry.
  rewrite nth_set_nth_same by assumption.
  destruct (comp_with_without_entry (nth k T []) r init m Hr Hrow Hlast)
    as (E & Hr' & Hc').
  rewrite E, set_nth_set_nth, length_set_nth.
  split; [|now repeat split]. apply set_nth_same. now apply nth_error_nth'.
Qed.

(** ** Removable cells, the other way round *)

Lemma removable_in_rows_complete (k r0 : nat) (nu : list nat) (r c : nat) :
  r < length nu -> nth r nu 0 = S c -> nth (S r) nu 0 <= c ->
  In (k, r0 + r, c) (removable_in_rows k r0 nu).
Proof.
  revert r0 r. induction nu as [|len rest IH]; intros r0 r Hr Hc Hnext;
    [cbn in Hr; lia|].
  cbn [removable_in_rows]. apply in_or_app. destruct r as [|r].
  - left. cbn [nth] in Hc, Hnext.
    assert (Hhd : hd 0 rest = nth 0 rest 0) by (destruct rest; reflexivity).
    destruct (Nat.ltb_spec (hd 0 rest) len) as [_|Hge]; [|lia].
    left. rewrite Nat.add_0_r. f_equal. lia.
  - right. replace (r0 + S r) with (S r0 + r) by lia. apply IH.
    + cbn [length] in Hr. lia.
    + exact Hc.
    + exact Hnext.
Qed.

Lemma removable_cells_complete (mu : shape) (k r c : nat) (nu : list nat) :
  nth_error mu k = Some nu ->
  r < length nu -> nth r nu 0 = S c -> nth (S r) nu 0 <= c ->
  In (k, r, c) (removable_cells mu).
Proof.
  intros Hnu Hr Hc Hnext. unfold removable_cells. apply in_concat.
  exists (removable_in_rows k 0 nu). split.
  - apply in_map_iff. exists (k, nu). split; [reflexivity|].
    apply (combine_seq_In mu 0 k nu Hnu).
  - apply (removable_in_rows_complete k 0 nu r c); assumption.
Qed.

(** ** The cell of the largest entry *)

Lemma holds_nth (zs : tableau_tuple) (k r c : nat) :
  k < length zs -> r < length (nth k zs []) ->
  c < length (nth r (nth k zs []) []) ->
  exists x, holds zs k r c x.
Proof.
  intros Hk Hr Hc. exists (nth c (nth r (nth k zs []) []) 0%Z).
  exists (nth k zs []), (nth r (nth k zs []) []).
  repeat split; now apply nth_error_nth'.
Qed.

Lemma valid_rows_nonempty (zs : tableau_tuple) (k r : nat) :
  forallb (@valid_tableau Z) zs = true -> k < length zs ->
  r < length (nth k zs []) -> 0 < length (nth r (nth k zs []) []).
Proof.
  intros Hvalid Hk Hr. rewrite valid_shape in Hvalid.
  unfold is_partition_tuple in Hvalid. rewrite forallb_forall in Hvalid.
  assert (Hp : is_partition (shape_of_tableau (nth k zs [])) = true).
  { apply Hvalid. unfold shape_of_tuple. apply in_map. now apply nth_In. }
  apply is_partition_spec in Hp. destruct Hp as [Hpos _].
  specialize (Hpos r). unfold shape_of_tableau in Hpos. rewrite length_map in Hpos.
  specialize (Hpos Hr).
  change 0 with (length (@nil Z)) in Hpos at 2. now rewrite map_nth in Hpos.
Qed.

(** The largest entry of a standard tableau tuple ends its row, and no cell
    lies below it. *)
Lemma largest_entry_cell (n : nat) (zs : tableau_tuple) (k r c : nat) :
  filled (S n) zs -> increasing zs -> holds zs k r c (Z.of_nat (S n)) ->
  k < length zs /\ r < length (nth k zs []) /\
  nth r (nth k zs []) [] = firstn c (nth r (nth k zs []) []) ++ [Z.of_nat (S n)] /\
  length (nth r (nth k zs []) []) = S c /\
  length (nth (S r) (nth k zs []) []) <= c /\
  (c = 0 -> S r = length (nth k zs [])).
Proof.
  intros Hf [Hrow Hcol] Hx.
  rewrite row_strict_holds in Hrow. rewrite column_strict_holds in Hcol.
  assert (Hc := holds_row_length _ _ _ _ _ Hx).
  assert (Hr := holds_rows _ _ _ _ _ Hx).
  assert (Hk : k < length zs).
  { destruct Hx as (comp & _ & Hk & _). apply nth_error_Some. congruence. }
  set (comp := nth k zs []) in *. set (row := nth r comp []) in *.
  assert (Hlen : length row = S c).
  { destruct (Nat.lt_ge_cases (S c) (length row)) as [Hlt|Hge]; [exfalso|lia].
    destruct (holds_nth zs k r (S c) Hk Hr Hlt) as [b Hb].
    assert (Hlt' := Hrow _ _ _ _ _ Hx Hb).
    assert (Hrange := filled_range _ _ _ _ _ _ Hf Hb). lia. }
  assert (Hbelow : length (nth (S r) comp []) <= c).
  { destruct (Nat.lt_ge_cases c (length (nth (S r) comp []))) as [Hlt|Hge]; [exfalso|lia].
    assert (Hr' : S r < length comp).
    { destruct (Nat.lt_ge_cases (S r) (length comp)) as [H|H]; [assumption|].
      rewrite (nth_overflow comp) in Hlt by assumption. cbn in Hlt. lia. }
    destruct (holds_nth zs k (S r) c Hk Hr' Hlt) as [b Hb].
    assert (Hlt' := Hcol _ _ _ _ _ Hx Hb).
    assert (Hrange := filled_range _ _ _ _ _ _ Hf Hb). lia. }
  split; [assumption|]. split; [assumption|]. split; [|split; [assumption|split]].
  - destruct Hx as (comp' & row' & Hk' & Hr' & Hc').
    assert (comp' = comp) by (unfold comp; now rewrite (nth_error_nth zs k [] Hk')).
    subst comp'.
    assert (row' = row) by (unfold row; now rewrite (nth_error_nth comp r [] Hr')).
    subst row'.
    rewrite <- (firstn_skipn c row) at 1. f_equal.
    destruct (nth_error_split row c Hc') as (l1 & l2 & E & Hl1).
    rewrite E in Hlen. rewrite length_app in Hlen. cbn [length] in Hlen.
    assert (l2 = []) by (destruct l2; [reflexivity|cbn in Hlen; lia]). subst l2.
    rewrite E, skipn_app, (skipn_all2 l1) by lia.
    replace (c - length l1) with 0 by lia. reflexivity.
  - assumption.
  - intros ->. destruct (Nat.lt_ge_cases (S r) (length comp)) as [H|H]; [exfalso|lia].
    destruct Hf as [Hvalid _].
    assert (Hpos := valid_rows_nonempty zs k (S r) Hvalid Hk H). fold comp in Hpos. lia.
Qed.

(** ** A standard tableau tuple without its largest entry *)

Lemma shape_of_without_entry (zs : tableau_tuple) (k r c : nat) :
  k < length zs ->
  length (nth r (nth k zs []) []) = S c ->
  shape_of_tuple (without_entry zs k r)
  = set_nth (shape_of_tuple zs) k
            (if c =? 0 then firstn r (shape_of_tableau (nth k zs []))
             else set_nth (shape_of_tableau (nth k zs [])) r c).
Proof.
  intros Hk Hlen. unfold without_entry, shape_of_tuple. rewrite map_set_nth.
  f_equal. unfold comp_without_entry. unfold tableau_tuple, tableau in *.
  rewrite Hlen.
  change (S c =? 1) with (c =? 0). destruct (c =? 0).
  - unfold shape_of_tableau. now rewrite firstn_map.
  - unfold shape_of_tableau. rewrite map_set_nth. f_equal.
    destruct (nth r (nth k zs []) []) as [|a row] using rev_ind; [discriminate|].
    rewrite removelast_last. rewrite length_app in Hlen. cbn [length] in Hlen. lia.
Qed.

Lemma standard_without_largest (n : nat) (zs : tableau_tuple) (k r c : nat) :
  filled (S n) zs -> increasing zs -> holds zs k r c (Z.of_nat (S n)) ->
  with_entry (without_entry zs k r) k r (Z.of_nat (S n)) = zs /\
  length (without_entry zs k r) = length zs /\
  In (k, r, c) (removable_cells (shape_of_tuple zs)) /\
  remove_cell (shape_of_tuple zs) (k, r, c)
  = Ok (shape_of_tuple (without_entry zs k r)) /\
  In (k, r, c) (addable_cells (shape_of_tuple (without_entry zs k r))) /\
  filled n (without_entry zs k r) /\ increasing (without_entry zs k r) /\
  (forall k' r' c' x, holds (without_entry zs k r) k' r' c' x -> holds zs k' r' c' x).
Proof.
  intros Hf Hinc Hx.
  destruct (largest_entry_cell n zs k r c Hf Hinc Hx)
    as (Hk & Hr & Hrow & Hlen & Hbelow & Hlast).
  set (comp := nth k zs []) in *. set (row := nth r comp []) in *.
  assert (Hinit : length (firstn c row) = c) by (rewrite length_firstn; lia).
  destruct (with_without_entry zs k r (firstn c row) (Z.of_nat (S n)) Hk Hr Hrow)
    as (E & Hlz & Hr' & Hc').
  { intros Hnil. apply Hlast. rewrite Hnil in Hinit. cbn in Hinit. lia. }
  assert (Hvalid : is_partition_tuple (shape_of_tuple zs) = true).
  { rewrite <- valid_shape. exact (proj1 Hf). }
  assert (Hnu : nth_error (shape_of_tuple zs) k = Some (shape_of_tableau comp)).
  { unfold shape_of_tuple. apply map_nth_error. now apply nth_error_nth'. }
  assert (Hp : is_partition (shape_of_tableau comp) = true).
  { unfold is_partition_tuple in Hvalid. rewrite forallb_forall in Hvalid.
    apply Hvalid. eapply nth_error_In. exact Hnu. }
  assert (Hrl : nth r (shape_of_tableau comp) 0 = S c).
  { unfold shape_of_tableau. change 0 with (length (@nil Z)). now rewrite map_nth. }
  assert (Hnl : nth (S r) (shape_of_tableau comp) 0 <= c).
  { unfold shape_of_tableau. change 0 with (length (@nil Z)). now rewrite map_nth. }
  assert (Hrs : r < length (shape_of_tableau comp)).
  { unfold shape_of_tableau. now rewrite length_map. }
  assert (Hcell : In (k, r, c) (removable_cells (shape_of_tuple zs))).
  { now apply (removable_cells_complete _ k r c (shape_of_tableau comp)). }
  assert (Hrem : remove_cell (shape_of_tuple zs) (k, r, c) = Ok (shape_of_tuple (without_entry zs k r))).
  { unfold remove_cell. apply existsb_cell3 in Hcell. rewrite Hcell. f_equal.
    rewrite (shape_of_without_entry zs k r c Hk Hlen).
    rewrite (nth_error_nth _ k [] Hnu). fold comp.
    fold (without_cell (shape_of_tableau comp) r c).
    now rewrite without_cell_eq. }
  destruct (remove_cell_spec _ _ k r c Hvalid Hrem) as (Hmu' & _ & Hadd & _).
  assert (Hk' : k < length (without_entry zs k r)) by (rewrite Hlz; exact Hk).
  assert (Hsub : forall k' r' c' x, holds (without_entry zs k r) k' r' c' x -> holds zs k' r' c' x).
  { intros k' r' c' x H. rewrite <- E. apply holds_with_entry; [assumption|assumption|].
    now left. }
  assert (Hfill : filled n (without_entry zs k r)).
  { split; [now rewrite valid_shape|].
    assert (P1 := entries_with_entry (without_entry zs k r) k r (Z.of_nat (S n)) Hk' Hr').
    rewrite E in P1. destruct Hf as [_ P2]. rewrite range1_S in P2.
    apply (Permutation_app_inv_r [Z.of_nat (S n)]).
    eapply Permutation_trans; [apply Permutation_sym; exact P1|exact P2]. }
  assert (Hinc' : increasing (without_entry zs k r)).
  { destruct Hinc as [Hrow' Hcol']. split.
    - rewrite row_strict_holds in *.
      intros k' r' c' a b Ha Hb. eapply Hrow'; apply Hsub; eassumption.
    - rewrite column_strict_holds in *.
      intros k' r' c' a b Ha Hb. eapply Hcol'; apply Hsub; eassumption. }
  repeat (split; [assumption|]). assumption.
Qed.

(** ** Every standard tableau tuple is reached *)

Lemma right_residue_match (e : Z) (mc rl : list Z) (n k r c : nat) :
  n < length rl -> k < length mc ->
  nth n rl 0%Z = base_ring e (content_of mc (k, r, c)) ->
  right_residue (mkResidueSequence e mc rl) (S n) (k, r, c) = Ok true.
Proof.
  intros Hn Hk H. unfold right_residue, rs_getitem, cell_residue, getitem.
  cbn [residues multicharge quantum_characteristic].
  rewrite (nth_error_nth' rl 0%Z Hn), (nth_error_nth' mc 0%Z Hk). cbn [bind].
  rewrite H. unfold content_of. cbn [fst snd]. now rewrite Z.eqb_refl.
Qed.

Lemma residues_match_without (e : Z) (mc rl : list Z) (n : nat)
      (zs zs' : tableau_tuple) :
  filled n zs' ->
  (forall k r c x, holds zs' k r c x -> holds zs k r c x) ->
  residues_match e mc zs rl -> residues_match e mc zs' (firstn n rl).
Proof.
  intros Hf Hsub Hmatch k r c x Hx.
  assert (Hrange := filled_range n zs' k r c x Hf Hx).
  rewrite nth_firstn. destruct (Nat.ltb_spec (Z.to_nat (x - 1)) n); [|lia].
  apply Hmatch. now apply Hsub.
Qed.

Lemma shape_empty_inv (zs : tableau_tuple) :
  shape_of_tuple zs = repeat [] (length zs) ->
  lift_tuple zs = repeat [] (length zs).
Proof.
  induction zs as [|comp zs IH]; [reflexivity|].
  cbn [shape_of_tuple map length repeat lift_tuple]. intros [= Hcomp Hl].
  f_equal; [|now apply IH].
  destruct comp; [reflexivity|discriminate].
Qed.

Lemma filled_nothing (zs : tableau_tuple) :
  filled 0 zs -> lift_tuple zs = repeat [] (length zs).
Proof.
  intros Hf. apply shape_empty_inv.
  assert (Hsize := filled_size 0 zs Hf). destruct Hf as [Hvalid _].
  rewrite valid_shape in Hvalid.
  assert (H := empty_partition_tuple _ Hvalid Hsize).
  replace (length (shape_of_tuple zs)) with (length zs) in H; [exact H|].
  unfold shape_of_tuple. now rewrite length_map.
Qed.

Lemma StandardTableaux_residue_shape_higher_complete (e : Z) (mc : list Z) (n : nat) :
  forall rl mu zs, length rl = n -> length zs = length mc ->
    filled n zs -> increasing zs -> residues_match e mc zs rl ->
    shape_of_tuple zs = mu ->
    In (lift_tuple zs)
       (fst (StandardTableaux_residue_shape_higher
               (length mc) n (mkResidueSequence e mc rl) mu)).
Proof.
  induction n as [|n IH]; intros rl mu zs Hlen Hlz Hf Hinc Hmatch Hshape.
  - cbn [StandardTableaux_residue_shape_higher]. unfold rs_size.
    cbn [residues]. rewrite Hlen, <- Hshape, (filled_size 0 zs Hf).
    cbn [Nat.eqb negb]. left. rewrite <- Hlz. symmetry. now apply filled_nothing.
  - assert (Hsize := filled_size (S n) zs Hf). rewrite Hshape in Hsize.
    assert (Hmu : is_partition_tuple mu = true).
    { rewrite <- Hshape, <- valid_shape. exact (proj1 Hf). }
    assert (Hlmu : length mu = length mc).
    { rewrite <- Hshape, <- Hlz. unfold shape_of_tuple. apply length_map. }
    destruct (StandardTableaux_residue_shape_higher_runs
                e mc (S n) rl mu Hlen Hmu Hlmu Hsize) as [_ Hnone].
    destruct (filled_onto (S n) zs (Z.of_nat (S n)) Hf ltac:(lia))
      as (k & r & c & Hx).
    destruct (standard_without_largest n zs k r c Hf Hinc Hx)
      as (E & Hlz' & Hcell & Hrem & Hadd & Hf' & Hinc' & Hsub).
    rewrite Hshape in Hcell, Hrem.
    cbn [StandardTableaux_residue_shape_higher] in Hnone |- *.
    unfold rs_size in Hnone |- *. cbn [residues] in Hnone |- *.
    rewrite Hlen, Hsize, Nat.eqb_refl in Hnone. rewrite Hlen, Hsize, Nat.eqb_refl.
    cbn [negb] in Hnone |- *.
    destruct (gen_for_None _ _ (k, r, c) Hnone Hcell) as [Hbody Hincl].
    apply Hincl. clear Hincl Hnone.
    assert (Hk : k < length mc).
    { rewrite <- Hlz. destruct Hx as (comp & _ & Hk & _).
      apply nth_error_Some. congruence. }
    assert (Hright : right_residue (mkResidueSequence e mc rl) (S n) (k, r, c) = Ok true).
    { apply right_residue_match; [lia|assumption|].
      specialize (Hmatch k r c _ Hx).
      now replace (Z.to_nat (Z.of_nat (S n) - 1)) with n in Hmatch by lia. }
    rewrite Hright, Hrem in Hbody. rewrite Hright, Hrem.
    cbn [gen_lift] in Hbody |- *.
    assert (HIH := IH (firstn n rl) _ (without_entry zs k r)
                      ltac:(rewrite length_firstn; lia) (eq_trans Hlz' Hlz) Hf' Hinc'
                      (residues_match_without e mc rl n zs _ Hf' Hsub Hmatch) eq_refl).
    destruct (gen_bind_None _ _ _ Hbody HIH) as [_ Hincl]. apply Hincl.
    rewrite (add_cell_filled n _ k r c Hf' Hadd). cbn [gen_lift gen_yield fst].
    left. now rewrite E.
Qed.

Lemma StandardTableaux_residue_higher_complete (e : Z) (mc : list Z) (n : nat) :
  forall rl zs, length rl = n -> length zs = length mc ->
    filled n zs -> increasing zs -> residues_match e mc zs rl ->
    In (lift_tuple zs)
       (fst (StandardTableaux_residue_higher
               (length mc) n (mkResidueSequence e mc rl))).
Proof.
  induction n as [|n IH]; intros rl zs Hlen Hlz Hf Hinc Hmatch.
  - cbn [StandardTableaux_residue_higher]. left.
    rewrite <- Hlz. symmetry. now apply filled_nothing.
  - destruct (StandardTableaux_residue_higher_runs e mc (S n) rl Hlen) as [_ Hnone].
    destruct (filled_onto (S n) zs (Z.of_nat (S n)) Hf ltac:(lia))
      as (k & r & c & Hx).
    destruct (standard_without_largest n zs k r c Hf Hinc Hx)
      as (E & Hlz' & _ & _ & Hadd & Hf' & Hinc' & Hsub).
    cbn [StandardTableaux_residue_higher] in Hnone |- *.
    assert (HIH := IH (firstn n rl) (without_entry zs k r)
                      ltac:(rewrite length_firstn; lia) (eq_trans Hlz' Hlz) Hf' Hinc'
                      (residues_match_without e mc rl n zs _ Hf' Hsub Hmatch)).
    destruct (gen_bind_None _ _ _ Hnone HIH) as [Hbody Hincl]. apply Hincl.
    clear Hincl Hnone. rewrite shape_of_lift_tuple in Hbody |- *.
    destruct (gen_for_None _ _ (k, r, c) Hbody Hadd) as [_ Hincl]. apply Hincl.
    assert (Hk : k < length mc).
    { rewrite <- Hlz. destruct Hx as (comp & _ & Hk & _).
      apply nth_error_Some. congruence. }
    assert (Hright : right_residue (mkResidueSequence e mc rl) (S n) (k, r, c) = Ok true).
    { apply right_residue_match; [lia|assumption|].
      specialize (Hmatch k r c _ Hx).
      now replace (Z.to_nat (Z.of_nat (S n) - 1)) with n in Hmatch by lia. }
    rewrite Hright. cbn [gen_lift].
    rewrite (add_cell_filled n _ k r c Hf' Hadd). cbn [gen_lift gen_yield fst].
    left. now rewrite E.
Qed.

(** ** One component *)

Lemma Partition_addable_of_tuple (nu : list nat) (r c : nat) :
  In (0, r, c) (addable_cells [nu]) -> In (r, c) (Partition_addable_cells nu).
Proof.
  intros Hadd. unfold Partition_addable_cells. apply in_map_iff. exists (0, r, c).
  split; [reflexivity|]. unfold addable_cells in Hadd.
  cbn [map length seq combine concat fst snd] in Hadd.
  now rewrite app_nil_r in Hadd.
Qed.

Lemma Partition_removable_of_tuple (nu : list nat) (r c : nat) :
  In (0, r, c) (removable_cells [nu]) -> In (r, c) (Partition_removable_cells nu).
Proof.
  intros Hrem. unfold Partition_removable_cells. apply in_map_iff. exists (0, r, c).
  split; [reflexivity|]. unfold removable_cells in Hrem.
  cbn [map length seq combine concat fst snd] in Hrem.
  now rewrite app_nil_r in Hrem.
Qed.

Lemma holds_single (rows : tableau) (k r c : nat) (x : Z) :
  holds [rows] k r c x -> k = 0.
Proof.
  intros (comp & _ & Hk & _). destruct k as [|k]; [reflexivity|].
  destruct k; discriminate.
Qed.

Lemma StandardTableaux_residue_level_one_complete (e : Z) (mc : list Z) (n : nat) :
  length mc = 1 ->
  forall rl rows, length rl = n ->
    filled n [rows] -> increasing [rows] -> residues_match e mc [rows] rl ->
    In (lift_tableau rows)
       (fst (StandardTableaux_residue_level_one n (mkResidueSequence e mc rl))).
Proof.
  intros Hmc. induction n as [|n IH]; intros rl rows Hlen Hf Hinc Hmatch.
  - cbn [StandardTableaux_residue_level_one]. left.
    assert (H := filled_nothing [rows] Hf). now injection H as ->.
  - destruct (StandardTableaux_residue_level_one_runs e mc (S n) Hmc rl Hlen)
      as [_ Hnone].
    destruct (filled_onto (S n) [rows] (Z.of_nat (S n)) Hf ltac:(lia))
      as (k & r & c & Hx).
    assert (k = 0) by (now apply holds_single in Hx). subst k.
    destruct (standard_without_largest n [rows] 0 r c Hf Hinc Hx)
      as (E & _ & _ & _ & Hadd & Hf' & Hinc' & Hsub).
    change (without_entry [rows] 0 r) with [comp_without_entry rows r] in *.
    set (rows' := comp_without_entry rows r) in *.
    cbn [StandardTableaux_residue_level_one] in Hnone |- *.
    assert (HIH := IH (firstn n rl) rows'
                      ltac:(rewrite length_firstn; lia) Hf' Hinc'
                      (residues_match_without e mc rl n [rows] _ Hf' Hsub Hmatch)).
    destruct (gen_bind_None _ _ _ Hnone HIH) as [Hbody Hincl]. apply Hincl.
    clear Hincl Hnone. rewrite shape_of_lift_tableau in Hbody |- *.
    apply Partition_addable_of_tuple in Hadd.
    destruct (gen_for_None _ _ (r, c) Hbody Hadd) as [_ Hincl]. apply Hincl.
    rewrite right_residue_level_one_eq.
    assert (Hright : right_residue (mkResidueSequence e mc rl) (S n) (0, r, c) = Ok true).
    { apply right_residue_match; [lia|lia|].
      specialize (Hmatch 0 r c _ Hx).
      now replace (Z.to_nat (Z.of_nat (S n) - 1)) with n in Hmatch by lia. }
    rewrite Hright. cbn [gen_lift].
    destruct (Tableau_add_entry_addable rows' r c (Z.of_nat (S n)) Hadd)
      as (rows'' & Hrun & Hrows'').
    rewrite Hrun. cbn [gen_lift gen_yield fst]. left.
    assert (Hsame : [rows''] = [rows]) by (exact (eq_trans Hrows'' E)).
    now injection Hsame as ->.
Qed.

Lemma StandardTableaux_residue_shape_level_one_complete
      (e : Z) (mc : list Z) (n : nat) :
  length mc = 1 ->
  forall rl nu rows, length rl = n ->
    filled n [rows] -> increasing [rows] -> residues_match e mc [rows] rl ->
    shape_of_tableau rows = nu ->
    In (lift_tableau rows)
       (fst (StandardTableaux_residue_shape_level_one
               n (mkResidueSequence e mc rl) nu)).
Proof.
  intros Hmc. induction n as [|n IH]; intros rl nu rows Hlen Hf Hinc Hmatch Hshape.
  - assert (Hsize := filled_size 0 [rows] Hf).
    assert (Hp : psize nu = 0).
    { rewrite <- Hshape. unfold size in Hsize. cbn in Hsize. lia. }
    cbn [StandardTableaux_residue_shape_level_one]. unfold rs_size.
    cbn [residues]. rewrite Hlen, Hp. cbn [Nat.eqb negb]. left.
    assert (H := filled_nothing [rows] Hf). now injection H as ->.
  - assert (Hsize := filled_size (S n) [rows] Hf).
    assert (Hp : psize nu = S n).
    { rewrite <- Hshape. unfold size in Hsize. cbn in Hsize. lia. }
    assert (Hnu : is_partition nu = true).
    { destruct Hf as [Hvalid _]. rewrite valid_shape in Hvalid. cbn in Hvalid.
      rewrite andb_true_r in Hvalid. now rewrite <- Hshape. }
    destruct (StandardTableaux_residue_shape_level_one_runs
                e mc (S n) Hmc rl nu Hlen Hnu Hp) as [_ Hnone].
    destruct (filled_onto (S n) [rows] (Z.of_nat (S n)) Hf ltac:(lia))
      as (k & r & c & Hx).
    assert (k = 0) by (now apply holds_single in Hx). subst k.
    destruct (standard_without_largest n [rows] 0 r c Hf Hinc Hx)
      as (E & _ & Hcell & Hrem & Hadd & Hf' & Hinc' & Hsub).
    change (without_entry [rows] 0 r) with [comp_without_entry rows r] in *.
    set (rows' := comp_without_entry rows r) in *.
    change (shape_of_tuple [rows]) with [shape_of_tableau rows] in Hcell, Hrem.
    rewrite Hshape in Hcell, Hrem.
    cbn [StandardTableaux_residue_shape_level_one] in Hnone |- *.
    unfold rs_size in Hnone |- *. cbn [residues] in Hnone |- *.
    rewrite Hlen, Hp, Nat.eqb_refl in Hnone. rewrite Hlen, Hp, Nat.eqb_refl.
    cbn [negb] in Hnone |- *.
    apply Partition_removable_of_tuple in Hcell.
    destruct (gen_for_None _ _ (r, c) Hnone Hcell) as [Hbody Hincl].
    apply Hincl. clear Hincl Hnone.
    rewrite right_residue_level_one_eq in Hbody |- *.
    assert (Hright : right_residue (mkResidueSequence e mc rl) (S n) (0, r, c) = Ok true).
    { apply right_residue_match; [lia|lia|].
      specialize (Hmatch 0 r c _ Hx).
      now replace (Z.to_nat (Z.of_nat (S n) - 1)) with n in Hmatch by lia. }
    assert (Hrem1 : Partition_remove_cell nu (r, c) = Ok (shape_of_tableau rows')).
    { unfold Partition_remove_cell. cbn [fst snd]. now rewrite Hrem. }
    rewrite Hright, Hrem1 in Hbody. rewrite Hright, Hrem1.
    cbn [gen_lift] in Hbody |- *.
    assert (HIH := IH (firstn n rl) _ rows'
                      ltac:(rewrite length_firstn; lia) Hf' Hinc'
                      (residues_match_without e mc rl n [rows] _ Hf' Hsub Hmatch)
                      eq_refl).
    destruct (gen_bind_None _ _ _ Hbody HIH) as [_ Hincl]. apply Hincl.
    apply Partition_addable_of_tuple in Hadd.
    destruct (Tableau_add_entry_addable rows' r c (Z.of_nat (S n)) Hadd)
      as (rows'' & Hrun & Hrows'').
    rewrite Hrun. cbn [gen_lift gen_yield fst]. left.
    assert (Hsame : [rows''] = [rows]) by (exact (eq_trans Hrows'' E)).
    now injection Hsame as ->.
Qed.

(** * What the residue enumerators yield, exactly *)

(** The components of an element: [list(self)] for a tableau tuple; a
    tableau is its only component. *)
Definition element_components (x : element) : list (list (list pyobj)) :=
  match x with
  | TableauObj rows => [rows]
  | TableauTupleObj comps => comps
  end.

(** A standard tableau tuple has the entries 1, ..., n for its size n. *)
Lemma standard_filled (zs : tableau_tuple) :
  is_standard_tuple zs -> filled (length (entries zs)) zs /\ increasing zs.
Proof.
  intros (Hvalid & Hrow & Hbij & Hcol). now repeat split.
Qed.

(** The residue sequence that [residue_sequence] returns lists the residues
    of the entries. *)
Lemma residue_sequence_match (n : nat) (zs : tableau_tuple) (e : Z) (mc rl : list Z) :
  filled n zs -> length zs <= length mc ->
  residue_sequence (lift_tuple zs) e mc = Ok (mkResidueSequence e mc rl) ->
  length rl = n /\ residues_match e mc zs rl.
Proof.
  intros Hf Hmc. assert (Hn := filled_numbered n zs Hf).
  destruct (residue_sequence_loop n zs mc Hn Hmc) as (res' & Hrun & Hlen & Hval).
  unfold residue_sequence. rewrite Hrun. cbn [bind]. unfold ResidueSequence_new.
  intros [= <-]. split; [now rewrite length_map|].
  intros k r c x Hx. assert (Hrange := filled_range n zs k r c x Hf Hx).
  rewrite (nth_indep _ 0%Z (base_ring e 0)) by (rewrite length_map; lia).
  rewrite map_nth. f_equal. now apply Hval.
Qed.

Lemma standard_good_standard (e : Z) (mc rl : list Z) (t : list (list (list pyobj))) :
  standard_good e mc rl t ->
  exists zs, t = lift_tuple zs /\ length zs = length mc /\
             is_standard_tuple zs /\
             residue_sequence t e mc = Ok (mkResidueSequence e mc rl).
Proof.
  intros (zs & -> & Hf & Hlz & Hmatch & Hinc). exists zs.
  split; [reflexivity|]. split; [assumption|].
  split; [now apply (filled_increasing_standard (length rl))|].
  apply (residue_sequence_filled (length rl)); try assumption; [lia|reflexivity].
Qed.

(** [StandardTableaux_residue.__iter__] ends without raising; what it yields,
    built with [check=False], are standard tableau tuples with one component
    for every entry of the multicharge and with the residue sequence of the
    class; and it yields every such standard tableau tuple. *)
Theorem residue_enumerator_yields_the_standard_tableaux (e : Z) (mc rl : list Z) :
  snd (StandardTableaux_residue_iter (ResidueSequence_new e mc rl)) = None /\
  Forall (fun x => exists zs,
              element_components x = lift_tuple zs /\ length zs = length mc /\
              is_standard_tuple zs /\
              residue_sequence_of x e mc = Ok (ResidueSequence_new e mc rl))
         (fst (StandardTableaux_residue_iter (ResidueSequence_new e mc rl))) /\
  (forall zs, length zs = length mc -> is_standard_tuple zs ->
              residue_sequence (lift_tuple zs) e mc = Ok (ResidueSequence_new e mc rl) ->
              exists x, In x (fst (StandardTableaux_residue_iter
                                     (ResidueSequence_new e mc rl))) /\
                        element_components x = lift_tuple zs).
Proof.
  unfold ResidueSequence_new. set (rl' := map (base_ring e) rl).
  unfold StandardTableaux_residue_iter, rs_level, rs_size.
  cbn [multicharge residues].
  destruct (Nat.eqb_spec (length mc) 1) as [Hmc|Hmc].
  - destruct (StandardTableaux_residue_level_one_runs e mc _ Hmc rl' eq_refl)
      as [Hall Hnone].
    split; [exact Hnone|]. split.
    + apply (gen_map_yields (fun t => standard_good e mc rl' [t])); [exact Hall|].
      intros t Hgood. destruct (standard_good_standard e mc rl' [t] Hgood)
        as (zs & Ht & Hlz & Hstd & Hres).
      exists zs. cbn [element_components residue_sequence_of].
      unfold Tableau_residue_sequence.
      split; [exact Ht|]. split; [exact Hlz|]. split; [exact Hstd|exact Hres].
    + intros zs Hlz Hstd Hres. destruct (standard_filled zs Hstd) as [Hf Hinc].
      destruct (residue_sequence_match _ zs e mc rl' Hf ltac:(lia) Hres)
        as [Hlen Hmatch].
      destruct zs as [|rows [|? ?]]; try (cbn in Hlz; lia).
      exists (TableauObj (lift_tableau rows)). split; [|reflexivity].
      cbn [gen_map fst]. apply in_map.
      apply (StandardTableaux_residue_level_one_complete e mc _ Hmc rl' rows);
        try assumption; now rewrite Hlen.
  - destruct (StandardTableaux_residue_higher_runs e mc _ rl' eq_refl)
      as [Hall Hnone].
    split; [exact Hnone|]. split.
    + apply (gen_map_yields (standard_good e mc rl')); [exact Hall|].
      intros t Hgood. destruct (standard_good_standard e mc rl' t Hgood)
        as (zs & Ht & Hlz & Hstd & Hres).
      exists zs. cbn [element_components residue_sequence_of].
      split; [exact Ht|]. split; [exact Hlz|]. split; [exact Hstd|exact Hres].
    + intros zs Hlz Hstd Hres. destruct (standard_filled zs Hstd) as [Hf Hinc].
      destruct (residue_sequence_match _ zs e mc rl' Hf ltac:(lia) Hres)
        as [Hlen Hmatch].
      exists (TableauTupleObj (lift_tuple zs)). split; [|reflexivity].
      cbn [gen_map fst]. apply in_map.
      apply (StandardTableaux_residue_higher_complete e mc _ rl' zs);
        try assumption; now rewrite Hlen.
Qed.

(** ** [StandardTableaux_residue_shape] *)

Lemma shape_higher_mismatch (level n : nat) (residue : ResidueSequence) (mu : shape) :
  rs_size residue <> size mu ->
  StandardTableaux_residue_shape_higher level n residue mu
  = gen_raise (ValueError sizes_must_coincide).
Proof.
  intros H. apply Nat.eqb_neq in H.
  destruct n; cbn [StandardTableaux_residue_shape_higher]; now rewrite H.
Qed.

Lemma shape_level_one_mismatch (n : nat) (residue : ResidueSequence) (nu : list nat) :
  rs_size residue <> psize nu ->
  StandardTableaux_residue_shape_level_one n residue nu
  = gen_raise (ValueError sizes_must_coincide).
Proof.
  intros H. apply Nat.eqb_neq in H.
  destruct n; cbn [StandardTableaux_residue_shape_level_one]; now rewrite H.
Qed.

Lemma size_single (nu : list nat) : size [nu] = psize nu.
Proof. rewrite size_cons. unfold size. cbn. lia. Qed.

Lemma standard_shaped_standard (e : Z) (mc rl : list Z) (mu : shape)
      (t : list (list (list pyobj))) :
  standard_shaped e mc rl mu t ->
  exists zs, t = lift_tuple zs /\ is_standard_tuple zs /\ shape_of_tuple zs = mu /\
             residue_sequence t e mc = Ok (mkResidueSequence e mc rl).
Proof.
  intros [Hgood Hshape].
  destruct (standard_good_standard e mc rl t Hgood) as (zs & -> & _ & Hstd & Hres).
  exists zs. rewrite shape_of_lift_tuple in Hshape.
  split; [reflexivity|]. split; [exact Hstd|]. split; [exact Hshape|exact Hres].
Qed.

(** For a partition tuple with one component for every entry of the
    multicharge, [StandardTableaux_residue_shape] raises [ValueError] when the
    size of the shape differs from the length of the residue sequence.
    Otherwise [__iter__] ends without raising; what it yields, built with
    [check=False], are standard tableau tuples of that shape with the residue
    sequence of the class; and it yields every such standard tableau
    tuple. *)
Theorem residue_shape_enumerator_yields_the_standard_tableaux
        (e : Z) (mc rl : list Z) (mu : shape) :
  is_partition_tuple mu = true -> length mu = length mc ->
  (size mu <> length rl ->
   standard_tableaux (ResidueSequence_new e mc rl) mu
   = gen_raise (ValueError sizes_must_coincide)) /\
  (size mu = length rl ->
   snd (standard_tableaux (ResidueSequence_new e mc rl) mu) = None /\
   Forall (fun x => exists zs,
               element_components x = lift_tuple zs /\
               is_standard_tuple zs /\ shape_of_tuple zs = mu /\
               residue_sequence_of x e mc = Ok (ResidueSequence_new e mc rl))
          (fst (standard_tableaux (ResidueSequence_new e mc rl) mu)) /\
   (forall zs, is_standard_tuple zs -> shape_of_tuple zs = mu ->
               residue_sequence (lift_tuple zs) e mc = Ok (ResidueSequence_new e mc rl) ->
               exists x, In x (fst (standard_tableaux (ResidueSequence_new e mc rl) mu)) /\
                         element_components x = lift_tuple zs)).
Proof.
  intros Hmu Hlmu. unfold ResidueSequence_new. set (rl' := map (base_ring e) rl).
  assert (Hrl : length rl' = length rl) by (unfold rl'; apply length_map).
  assert (Hone : length mu = 1 -> exists nu, mu = [nu]).
  { intros H. destruct mu as [|nu [|? ?]]; try discriminate. now exists nu. }
  unfold standard_tableaux, rs_level, rs_size. cbn [multicharge residues].
  destruct (Nat.eqb_spec (length mc) 1) as [Hmc|Hmc].
  - destruct (Hone ltac:(lia)) as [nu ->]. rewrite size_single.
    assert (Hnu : is_partition nu = true).
    { cbn in Hmu. now rewrite andb_true_r in Hmu. }
    split.
    + intros Hne. rewrite shape_level_one_mismatch; [reflexivity|].
      unfold rs_size. cbn [residues]. lia.
    + intros Hsize.
      destruct (StandardTableaux_residue_shape_level_one_runs
                  e mc _ Hmc rl' nu eq_refl Hnu ltac:(lia)) as [Hall Hnone].
      split; [exact Hnone|]. split.
      * apply (gen_map_yields (fun t => standard_shaped e mc rl' [nu] [t]));
          [exact Hall|].
        intros t Hgood.
        destruct (standard_shaped_standard e mc rl' [nu] [t] Hgood)
          as (zs & Ht & Hstd & Hshape & Hres).
        exists zs. cbn [element_components residue_sequence_of].
        unfold Tableau_residue_sequence.
        split; [exact Ht|]. split; [exact Hstd|]. split; [exact Hshape|exact Hres].
      * intros zs Hstd Hshape Hres. destruct (standard_filled zs Hstd) as [Hf Hinc].
        assert (Hlz : length zs = 1).
        { assert (H := f_equal (@length _) Hshape). unfold shape_of_tuple in H.
          rewrite length_map in H. exact H. }
        destruct (residue_sequence_match _ zs e mc rl' Hf ltac:(lia) Hres)
          as [Hlen Hmatch].
        destruct zs as [|rows [|? ?]]; try (cbn in Hlz; lia).
        exists (TableauObj (lift_tableau rows)). split; [|reflexivity].
        cbn [gen_map fst]. apply in_map.
        assert (Hrows : shape_of_tableau rows = nu) by (now injection Hshape).
        rewrite <- Hlen in Hf.
        now apply (StandardTableaux_residue_shape_level_one_complete
                     e mc _ Hmc rl' nu rows).
  - assert (Hgen : (match mu with
                    | [nu] => StandardTableaux_residue_shape_mismatched
                                psize Partition_removable_cells right_residue_level_one
                                Partition_remove_cell
                                (ValueError "not enough values to unpack (expected 3, got 2)"%string)
                                (length mc) (length rl') (mkResidueSequence e mc rl') nu
                    | _ => gen_map TableauTupleObj
                             (StandardTableaux_residue_shape_higher
                                (length mc) (length rl') (mkResidueSequence e mc rl') mu)
                    end)
                   = gen_map TableauTupleObj
                       (StandardTableaux_residue_shape_higher
                          (length mc) (length rl') (mkResidueSequence e mc rl') mu)).
    { destruct mu as [|nu [|? ?]]; try reflexivity. cbn in Hlmu. lia. }
    rewrite Hgen. clear Hgen. split.
    + intros Hne. rewrite shape_higher_mismatch; [reflexivity|].
      unfold rs_size. cbn [residues]. lia.
    + intros Hsize.
      destruct (StandardTableaux_residue_shape_higher_runs
                  e mc _ rl' mu eq_refl Hmu Hlmu ltac:(lia)) as [Hall Hnone].
      split; [exact Hnone|]. split.
      * apply (gen_map_yields (standard_shaped e mc rl' mu)); [exact Hall|].
        intros t Hgood.
        destruct (standard_shaped_standard e mc rl' mu t Hgood)
          as (zs & Ht & Hstd & Hshape & Hres).
        exists zs. cbn [element_components residue_sequence_of].
        split; [exact Ht|]. split; [exact Hstd|]. split; [exact Hshape|exact Hres].
      * intros zs Hstd Hshape Hres. destruct (standard_filled zs Hstd) as [Hf Hinc].
        assert (Hlz : length zs = length mc).
        { assert (H := f_equal (@length _) Hshape). unfold shape_of_tuple in H.
          rewrite length_map in H. exact (eq_trans H Hlmu). }
        destruct (residue_sequence_match _ zs e mc rl' Hf ltac:(lia) Hres)
          as [Hlen Hmatch].
        exists (TableauTupleObj (lift_tuple zs)). split; [|reflexivity].
        cbn [gen_map fst]. apply in_map.
        rewrite <- Hlen in Hf.
        now apply (StandardTableaux_residue_shape_higher_complete e mc _ rl' mu zs).
Qed.

Lemma residue_shape_enumerator_yields_the_standard_tableaux_witness :
  is_partition_tuple [[2; 1]; [2]] = true /\
  length [[2; 1]; [2]] = length [0%Z; 1%Z] /\
  (size [[2; 1]; [2]] <> length [0%Z; 1%Z; 2%Z; 1%Z; 2%Z] ->
   standard_tableaux (ResidueSequence_new 3 [0%Z; 1%Z] [0%Z; 1%Z; 2%Z; 1%Z; 2%Z])
                     [[2; 1]; [2]]
   = gen_raise (ValueError sizes_must_coincide)) /\
  (size [[2; 1]; [2]] = length [0%Z; 1%Z; 2%Z; 1%Z; 2%Z] ->
   snd (standard_tableaux (ResidueSequence_new 3 [0%Z; 1%Z] [0%Z; 1%Z; 2%Z; 1%Z; 2%Z])
                          [[2; 1]; [2]]) = None /\
   Forall (fun x => exists zs,
               element_components x = lift_tuple zs /\
               is_standard_tuple zs /\ shape_of_tuple zs = [[2; 1]; [2]] /\
               residue_sequence_of x 3%Z [0%Z; 1%Z]
               = Ok (ResidueSequence_new 3 [0%Z; 1%Z] [0%Z; 1%Z; 2%Z; 1%Z; 2%Z]))
          (fst (standard_tableaux
                  (ResidueSequence_new 3 [0%Z; 1%Z] [0%Z; 1%Z; 2%Z; 1%Z; 2%Z])
                  [[2; 1]; [2]])) /\
   (forall zs, is_standard_tuple zs -> shape_of_tuple zs = [[2; 1]; [2]] ->
               residue_sequence (lift_tuple zs) 3%Z [0%Z; 1%Z]
               = Ok (ResidueSequence_new 3 [0%Z; 1%Z] [0%Z; 1%Z; 2%Z; 1%Z; 2%Z]) ->
               exists x,
                 In x (fst (standard_tableaux
                              (ResidueSequence_new 3 [0%Z; 1%Z] [0%Z; 1%Z; 2%Z; 1%Z; 2%Z])
                              [[2; 1]; [2]])) /\
                 element_components x = lift_tuple zs)).
Proof.
  split; [reflexivity|]. split; [reflexivity|].
  apply (residue_shape_enumerator_yields_the_standard_tableaux
           3%Z [0%Z; 1%Z] [0%Z; 1%Z; 2%Z; 1%Z; 2%Z] [[2; 1]; [2]]); reflexivity.
Defined.

(** * [TableauTuple.up] *)

(** [new_t = self.to_list(); new_t[k][row].append(n + 1)] *)
Definition appended_to_row (t : tableau_tuple) (k row : nat) (m : Z) : tableau_tuple :=
  set_nth t k (set_nth (nth k t []) row (nth row (nth k t []) [] ++ [m])).

(** [new_t = self.to_list(); new_t[k].append([n + 1])] *)
Definition appended_row (t : tableau_tuple) (k : nat) (m : Z) : tableau_tuple :=
  set_nth t k (nth k t [] ++ [[m]]).

(** [row == 0 or self.shape()[k][row] < self.shape()[k][row - 1]] *)
Definition row_can_grow (comp : tableau) (row : nat) : bool :=
  (row =? 0) || (length (nth row comp []) <? length (nth (row - 1) comp [])).

(** The generator [up]; [StandardTableauTuple(new_t)] of a list of
    components, other than a single one, ends in the checked [__init__]. *)
Definition up (t : tableau_tuple) (n : option Z) : gen coerced :=
  let n := match n with
           | None => Z.of_nat (TableauTuple_size t)
           | Some n => n
           end in
  gen_for (seq 0 (length t))
    (fun k =>
       gen_app
         (gen_for (seq 0 (length (nth k t [])))
            (fun row =>
               if row_can_grow (nth k t []) row
               then gen_lift (StandardTableauTuple_init
                                (appended_to_row t k row (n + 1)) true) gen_yield
               else gen_empty))
         (gen_lift (StandardTableauTuple_init (appended_row t k (n + 1)) true)
                   gen_yield)).

(** ** The rows that grow are the addable cells *)

(** The rows of a component that [up] adds a cell to, the new row last. *)
Definition growing_rows (comp : tableau) : list nat :=
  filter (row_can_grow comp) (seq 0 (length comp)) ++ [length comp].

Definition grows (above : option nat) (nu : list nat) (r : nat) : bool :=
  if r =? 0
  then match above with
       | Some a => nth 0 nu 0 <? a
       | None => true
       end
  else nth r nu 0 <? nth (r - 1) nu 0.

Lemma filter_map_S (f : nat -> bool) (l : list nat) :
  filter f (map S l) = map S (filter (fun r => f (S r)) l).
Proof.
  induction l as [|x l IH]; [reflexivity|]. cbn [map filter].
  destruct (f (S x)); cbn [map]; now rewrite IH.
Qed.

Lemma grows_S (above : option nat) (len : nat) (rest : list nat) (r : nat) :
  grows above (len :: rest) (S r) = grows (Some len) rest r.
Proof.
  unfold grows. cbn [Nat.eqb]. replace (S r - 1) with r by lia. cbn [nth].
  destruct r as [|r]; [reflexivity|]. cbn [Nat.eqb].
  replace (S r - 1) with r by lia. reflexivity.
Qed.

Lemma addable_in_rows_growing (k : nat) (nu : list nat) :
  forall r0 above,
    (forall i, i < length nu -> 0 < nth i nu 0) ->
    match above with
    | Some a => 0 < a
    | None => True
    end ->
    addable_in_rows k r0 above nu
    = map (fun r => (k, r0 + r, nth r nu 0))
          (filter (grows above nu) (seq 0 (length nu)) ++ [length nu]).
Proof.
  induction nu as [|len rest IH]; intros r0 above Hpos Habove.
  - cbn. rewrite Nat.add_0_r. destruct above as [[|a]|]; [lia|reflexivity|reflexivity].
  - cbn [addable_in_rows length]. rewrite (IH (S r0) (Some len)).
    + rewrite <- cons_seq, <- seq_shift.
      change (0 :: map S (seq 0 (length rest)))
        with ([0] ++ map S (seq 0 (length rest))).
      rewrite filter_app, filter_map_S.
      rewrite (filter_ext _ _ (grows_S above len rest)).
      rewrite !map_app, <- app_assoc. f_equal; [|f_equal].
      * unfold grows. cbn [filter Nat.eqb nth].
        destruct above as [a|]; [destruct (len <? a)|]; cbn; now rewrite ?Nat.add_0_r.
      * rewrite map_map. apply map_ext. intros r. cbn [nth].
        f_equal. f_equal. lia.
      * cbn [map nth]. f_equal. f_equal. f_equal. lia.
    + intros i Hi. apply (Hpos (S i)). cbn [length]. lia.
    + apply (Hpos 0). cbn [length]. lia.
Qed.

Lemma growing_rows_addable (comp : tableau) (k : nat) :
  valid_tableau comp = true ->
  addable_in_rows k 0 None (shape_of_tableau comp)
  = map (fun r => (k, r, length (nth r comp []))) (growing_rows comp).
Proof.
  intros Hvalid. unfold valid_tableau in Hvalid. apply is_partition_spec in Hvalid.
  destruct Hvalid as [Hpos _].
  rewrite (addable_in_rows_growing k (shape_of_tableau comp) 0 None Hpos I).
  assert (Hn : forall i, nth i (map (@length Z) comp) 0 = length (nth i comp [])).
  { intros i. change 0 with (length (@nil Z)). apply map_nth. }
  unfold growing_rows, shape_of_tableau. rewrite length_map.
  rewrite (filter_ext (grows None (map (@length Z) comp)) (row_can_grow comp)).
  - apply map_ext. intros r. cbn [Nat.add]. now rewrite Hn.
  - intros r. unfold grows, row_can_grow. rewrite !Hn.
    destruct (r =? 0); reflexivity.
Qed.

Lemma combine_seq_nth {A : Type} (l : list A) (d : A) (s : nat) :
  combine (seq s (length l)) l = map (fun k => (k, nth (k - s) l d)) (seq s (length l)).
Proof.
  revert s. induction l as [|a l IH]; intros s; [reflexivity|].
  cbn [length seq combine map]. rewrite Nat.sub_diag. cbn [nth]. f_equal.
  rewrite IH. apply map_ext_in. intros k Hk. apply in_seq in Hk.
  replace (k - s) with (S (k - S s)) by lia. reflexivity.
Qed.

(** The addable cells of the shape, component by component. *)
Lemma addable_cells_growing (t : tableau_tuple) :
  forallb (@valid_tableau Z) t = true ->
  addable_cells (shape_of_tuple t)
  = flat_map (fun k => map (fun r => (k, r, length (nth r (nth k t []) [])))
                           (growing_rows (nth k t [])))
             (seq 0 (length t)).
Proof.
  intros Hvalid. unfold addable_cells.
  rewrite (combine_seq_nth (shape_of_tuple t) [] 0), map_map, flat_map_concat_map.
  replace (length (shape_of_tuple t)) with (length t)
    by (unfold shape_of_tuple; now rewrite length_map).
  f_equal. apply map_ext_in. intros k Hk. apply in_seq in Hk. cbn [fst snd].
  rewrite Nat.sub_0_r. unfold shape_of_tuple.
  change [] with (shape_of_tableau (@nil (list Z))) at 1. rewrite map_nth.
  apply growing_rows_addable. rewrite forallb_forall in Hvalid. apply Hvalid.
  apply nth_In. lia.
Qed.

(** ** What [up] yields *)

Lemma gen_for_all {A B : Type} (l : list A) (body : A -> gen B) (f : A -> list B) :
  (forall a, In a l -> body a = (f a, None)) ->
  gen_for l body = (flat_map f l, None).
Proof.
  induction l as [|a l IH]; intros H; [reflexivity|].
  cbn [gen_for flat_map]. rewrite (H a (or_introl eq_refl)).
  rewrite IH by (intros b Hb; apply H; now right). reflexivity.
Qed.

Lemma flat_map_filter {A B : Type} (g : A -> bool) (f : A -> B) (l : list A) :
  flat_map (fun a => if g a then [f a] else []) l = map f (filter g l).
Proof.
  induction l as [|a l IH]; [reflexivity|]. cbn [flat_map filter].
  destruct (g a); cbn; now rewrite IH.
Qed.

Lemma appended_to_row_eq (t : tableau_tuple) (k row : nat) (m : Z) :
  row < length (nth k t []) -> appended_to_row t k row m = with_entry t k row m.
Proof.
  unfold tableau_tuple, tableau in *.
  intros H. unfold appended_to_row, with_entry, comp_with_entry.
  unfold tableau_tuple, tableau in *.
  destruct (Nat.eqb_spec row (length (nth k t []))); [lia|reflexivity].
Qed.

Lemma appended_row_eq (t : tableau_tuple) (k : nat) (m : Z) :
  appended_row t k m = with_entry t k (length (nth k t [])) m.
Proof.
  unfold appended_row, with_entry, comp_with_entry.
  unfold tableau_tuple, tableau in *. now rewrite Nat.eqb_refl.
Qed.

(** The cells [up] adds, one component. *)
Lemma up_component (t : tableau_tuple) (k : nat) (m : Z) :
  (forall r, In r (growing_rows (nth k t [])) ->
             StandardTableauTuple_init (with_entry t k r m) true
             = Ok (AsComponents (with_entry t k r m))) ->
  gen_app
    (gen_for (seq 0 (length (nth k t [])))
       (fun row =>
          if row_can_grow (nth k t []) row
          then gen_lift (StandardTableauTuple_init (appended_to_row t k row m) true)
                        gen_yield
          else gen_empty))
    (gen_lift (StandardTableauTuple_init (appended_row t k m) true) gen_yield)
  = (map (fun r => AsComponents (with_entry t k r m)) (growing_rows (nth k t [])),
     None).
Proof.
  intros Hok.
  rewrite (gen_for_all _ _ (fun row => if row_can_grow (nth k t []) row
                                       then [AsComponents (with_entry t k row m)]
                                       else [])).
  - rewrite flat_map_filter, appended_row_eq, Hok.
    + unfold growing_rows. rewrite map_app. reflexivity.
    + unfold growing_rows. apply in_or_app. right. now left.
  - intros row Hrow. apply in_seq in Hrow.
    destruct (row_can_grow (nth k t []) row) eqn:Hgrow; [|reflexivity].
    rewrite appended_to_row_eq by lia. rewrite Hok; [reflexivity|].
    unfold growing_rows. apply in_or_app. left. apply filter_In. split; [|assumption].
    apply in_seq. lia.
Qed.

Lemma In_growing_addable (t : tableau_tuple) (k r : nat) :
  forallb (@valid_tableau Z) t = true -> k < length t ->
  In r (growing_rows (nth k t [])) ->
  In (k, r, length (nth r (nth k t []) [])) (addable_cells (shape_of_tuple t)).
Proof.
  intros Hvalid Hk Hr. rewrite (addable_cells_growing t Hvalid).
  apply in_flat_map. exists k. split; [apply in_seq; lia|].
  apply in_map_iff. now exists r.
Qed.

(** The next entry in an addable cell of a standard tableau tuple gives a
    standard tableau tuple. *)
Lemma with_entry_standard (t : tableau_tuple) (k r c : nat) :
  is_standard_tuple t ->
  In (k, r, c) (addable_cells (shape_of_tuple t)) ->
  is_standard_tuple (with_entry t k r (Z.of_nat (TableauTuple_size t) + 1)%Z).
Proof.
  intros Hstd Hadd. unfold TableauTuple_size. rewrite <- length_entries.
  destruct Hstd as (Hvalid & Hrow & Hbij & Hcol).
  set (n := length (entries t)) in *.
  replace (Z.of_nat n + 1)%Z with (Z.of_nat (S n)) by lia.
  assert (Hf : filled n t) by (now split).
  apply (filled_increasing_standard (S n)).
  - now apply (with_entry_filled n t k r c).
  - apply (with_entry_increasing n t k r c); [assumption|now split|assumption].
Qed.

(** Any other entry is refused by the checked constructor. *)
Lemma with_entry_not_standard (t : tableau_tuple) (k r c : nat) (m : Z) :
  is_standard_tuple t ->
  In (k, r, c) (addable_cells (shape_of_tuple t)) ->
  m <> (Z.of_nat (TableauTuple_size t) + 1)%Z ->
  exists msg, StandardTableauTuple_init (with_entry t k r m) true
              = Raise (ValueError msg).
Proof.
  intros Hstd Hadd Hm.
  assert (Hstd' := with_entry_standard t k r c Hstd Hadd).
  destruct (addable_position t k r c Hadd) as (Hk & Hr & _).
  assert (Hvalid : valid_tuple (with_entry t k r m)).
  { destruct Hstd' as [Hv _]. unfold valid_tuple in *.
    rewrite valid_shape in *. now rewrite shape_of_with_entry in * by assumption. }
  rewrite (is_standard_init _ Hvalid).
  destruct (is_standard (with_entry t k r m)) eqn:E.
  - exfalso. apply (is_standard_iff _ Hvalid) in E.
    destruct E as (_ & _ & Hbij & _). destruct Hstd' as (_ & _ & Hbij' & _).
    unfold bijective in *.
    assert (P := entries_with_entry t k r m Hk Hr).
    assert (P' := entries_with_entry t k r (Z.of_nat (TableauTuple_size t) + 1)%Z Hk Hr).
    rewrite (Permutation_length P) in Hbij.
    rewrite (Permutation_length P') in Hbij'.
    rewrite length_app in *. cbn [length] in *.
    assert (Q : Permutation (entries t ++ [m])
                            (entries t ++ [(Z.of_nat (TableauTuple_size t) + 1)%Z])).
    { eapply Permutation_trans; [apply Permutation_sym; exact P|].
      eapply Permutation_trans; [exact Hbij|].
      eapply Permutation_trans; [apply Permutation_sym; exact Hbij'|exact P']. }
    apply Permutation_app_inv_l in Q. apply Permutation_length_1 in Q. contradiction.
  - destruct (negb (TableauTuple_is_row_strict (with_entry t k r m)));
      [eexists; reflexivity|].
    destruct (list_eq_dec Z.eq_dec _ _); eexists; reflexivity.
Qed.

Lemma up_run (t : tableau_tuple) :
  is_standard_tuple t ->
  up t None
  = (map (fun cell => AsComponents
                        (with_entry t (fst (fst cell)) (snd (fst cell))
                                    (Z.of_nat (TableauTuple_size t) + 1)%Z))
         (addable_cells (shape_of_tuple t)), None).
Proof.
  intros Hstd. assert (Hvalid : forallb (@valid_tableau Z) t = true) by apply Hstd.
  unfold up.
  rewrite (gen_for_all _ _
             (fun k => map (fun r => AsComponents
                                       (with_entry t k r
                                          (Z.of_nat (TableauTuple_size t) + 1)%Z))
                           (growing_rows (nth k t [])))).
  - rewrite (addable_cells_growing t Hvalid), map_flat_map. f_equal.
    apply flat_map_ext. intros k. now rewrite map_map.
  - intros k Hk. apply in_seq in Hk. apply up_component. intros r Hr.
    apply Standard_init_ok.
    apply (with_entry_standard t k r _ Hstd
             (In_growing_addable t k r Hvalid ltac:(lia) Hr)).
Qed.

(** For a standard tableau tuple, of a level other than 1, [up()] ends
    without raising and yields, in
    the order of the addable cells of the shape, the tableau tuples with the
    next entry in an addable cell; each is standard, one larger, and agrees
    with the tableau tuple on its cells.  With another [n] than the size the
    checked constructor refuses the first candidate: [up(n)] raises
    [ValueError] and yields nothing. *)
Theorem up_yields_the_standard_extensions (t : tableau_tuple) :
  is_standard_tuple t -> length t <> 1 ->
  up t None
  = (map (fun cell => AsComponents
                        (with_entry t (fst (fst cell)) (snd (fst cell))
                                    (Z.of_nat (TableauTuple_size t) + 1)%Z))
         (addable_cells (shape_of_tuple t)), None) /\
  Forall (fun cell =>
            let t' := with_entry t (fst (fst cell)) (snd (fst cell))
                                 (Z.of_nat (TableauTuple_size t) + 1)%Z in
            is_standard_tuple t' /\
            TableauTuple_size t' = S (TableauTuple_size t) /\
            forall k r c x,
              holds t' k r c x <->
              holds t k r c x \/
              ((k, r, c) = cell /\ x = (Z.of_nat (TableauTuple_size t) + 1)%Z))
         (addable_cells (shape_of_tuple t)) /\
  (forall m, m <> Z.of_nat (TableauTuple_size t) -> t <> [] ->
             exists msg, up t (Some m) = ([], Some (ValueError msg))).
Proof.
  intros Hstd _. assert (Hvalid : forallb (@valid_tableau Z) t = true) by apply Hstd.
  split; [|split].
  - now apply up_run.
  - apply Forall_forall. intros [[k r] c] Hadd. cbn [fst snd].
    destruct (addable_position t k r c Hadd) as (Hk & Hr & Hc & _).
    split; [now apply (with_entry_standard t k r c)|]. split.
    + unfold TableauTuple_size. rewrite <- !length_entries.
      rewrite (Permutation_length (entries_with_entry t k r _ Hk Hr)).
      rewrite length_app. cbn [length]. lia.
    + intros k' r' c' x. rewrite (holds_with_entry t k r _ k' r' c' x Hk Hr).
      now rewrite <- Hc.
  - intros m Hm Hne. destruct t as [|comp rest]; [contradiction|].
    assert (H0 : In 0 (growing_rows comp)).
    { unfold growing_rows. destruct comp as [|row rows]; [now left|].
      apply in_or_app. left. apply filter_In. split; [|reflexivity].
      apply in_seq. cbn [length]. lia. }
    assert (Hadd := In_growing_addable (comp :: rest) 0 0 Hvalid
                      ltac:(cbn [length]; lia) H0).
    destruct (with_entry_not_standard (comp :: rest) 0 0 _ (m + 1)%Z Hstd Hadd
                                      ltac:(lia)) as [msg Hraise].
    exists msg. unfold up. cbn [length seq gen_for nth].
    destruct comp as [|row rows].
    + cbn [length seq gen_for]. rewrite appended_row_eq. cbn [nth length].
      rewrite Hraise. reflexivity.
    + cbn [length seq gen_for]. unfold row_can_grow at 1. cbn [Nat.eqb orb].
      rewrite appended_to_row_eq by (cbn [nth length]; lia).
      rewrite Hraise. reflexivity.
Qed.

Lemma up_yields_the_standard_extensions_witness :
  is_standard_tuple [[[1; 2]]; [[3]]]%Z /\
  length [[[1; 2]]; [[3]]]%Z <> 1 /\
  up [[[1; 2]]; [[3]]]%Z None
  = ([AsComponents [[[1; 2; 4]]; [[3]]]%Z; AsComponents [[[1; 2]; [4]]; [[3]]]%Z;
      AsComponents [[[1; 2]]; [[3; 4]]]%Z; AsComponents [[[1; 2]]; [[3]; [4]]]%Z],
     None).
Proof.
  assert (Hstd : is_standard_tuple [[[1; 2]]; [[3]]]%Z)
    by (apply is_standard_tupleb_sound; reflexivity).
  assert (Hlevel : length [[[1; 2]]; [[3]]]%Z <> 1) by discriminate.
  split; [exact Hstd|]. split; [exact Hlevel|].
  exact (proj1 (up_yields_the_standard_extensions [[[1; 2]]; [[3]]]%Z Hstd Hlevel)).
Defined.

(** * [StandardTableauTuple.restrict] and [StandardTableauTuple.to_chain] *)

(** [tab = [t.restrict(m) for t in self]] *)
Definition restricted (t : tableau_tuple) (m : Z) : tableau_tuple :=
  map (fun comp => restrict_tableau comp m) t.

Section Restrict.

(** Whether [self.parent()(tab)] accepts [tab]; it raises [ValueError]
    otherwise. *)
Variable parent_accepts : tableau_tuple -> bool.

(** [self.parent()(tab)] runs [_element_constructor_], which returns the
    empty tableau of level one when [tab == [] or tab == [[]]], and an
    element with the components [tab] otherwise; when it raises
    [ValueError], [StandardTableauTuple(tab)] is returned. *)
Definition StandardTableauTuple_restrict (t : tableau_tuple) (m : option Z)
  : res coerced :=
  let m := match m with
           | None => (Z.of_nat (TableauTuple_size t) - 1)%Z
           | Some m => m
           end in
  let tab := restricted t m in
  if parent_accepts tab then
    if is_empty_tuple tab then Ok (AsOneTableau [])
    else Ok (AsComponents tab)
  else StandardTableauTuple_init tab true.

(** [self.shape()] of what [restrict] returns. *)
Definition shape_of_coerced (v : coerced) : shape :=
  match v with
  | AsComponents comps => shape_of_tuple comps
  | AsOneTableau rows => [shape_of_tableau rows]
  end.

(** [range(n + 1)] as Python integers. *)
Definition to_chain (t : tableau_tuple) : res (list shape) :=
  let n := TableauTuple_size t in
  if n =? 0 then Ok [shape_of_tuple t]
  else map_res (fun k => v <- StandardTableauTuple_restrict t (Some (Z.of_nat k)) ;;
                         Ok (shape_of_coerced v))
               (seq 0 (n + 1)).

End Restrict.

(** ** Restricting a tableau *)

Definition nonempty {A : Type} (row : list A) : bool :=
  negb (match row with [] => true | _ => false end).

Lemma restrict_tableau_eq (rows : tableau) (m : Z) :
  restrict_tableau rows m
  = filter nonempty (map (filter (fun x => (x <=? m)%Z)) rows).
Proof. reflexivity. Qed.

Lemma filter_filter_le (row : list Z) (m m' : Z) :
  (m <= m')%Z ->
  filter (fun x => (x <=? m)%Z) (filter (fun x => (x <=? m')%Z) row)
  = filter (fun x => (x <=? m)%Z) row.
Proof.
  intros Hm. induction row as [|x row IH]; [reflexivity|]. cbn [filter].
  destruct (Z.leb_spec x m') as [H'|H']; cbn [filter].
  - now rewrite IH.
  - destruct (Z.leb_spec x m); [lia|exact IH].
Qed.

Lemma restrict_restrict (rows : tableau) (m m' : Z) :
  (m <= m')%Z ->
  restrict_tableau (restrict_tableau rows m') m = restrict_tableau rows m.
Proof.
  intros Hm. rewrite !restrict_tableau_eq.
  induction rows as [|row rows IH]; [reflexivity|]. cbn [map].
  assert (Hstep : forall (f : list Z -> bool) (x : list Z) (l : list (list Z)),
             filter f (x :: l) = if f x then x :: filter f l else filter f l)
    by reflexivity.
  rewrite (Hstep _ (filter (fun x => (x <=? m')%Z) row)).
  destruct (nonempty (filter (fun x => (x <=? m')%Z) row)) eqn:E.
  - cbn [map]. rewrite !Hstep, (filter_filter_le row m m' Hm), IH. reflexivity.
  - rewrite IH, Hstep.
    assert (E' : filter (fun x => (x <=? m)%Z) row = []).
    { rewrite <- (filter_filter_le row m m' Hm).
      destruct (filter (fun x => (x <=? m')%Z) row); [reflexivity|discriminate]. }
    rewrite E'. reflexivity.
Qed.

Lemma restrict_tableau_all (rows : tableau) (m : Z) :
  (forall i, i < length rows -> 0 < length (nth i rows [])) ->
  (forall row x, In row rows -> In x row -> (x <= m)%Z) ->
  restrict_tableau rows m = rows.
Proof.
  intros Hpos Hle. rewrite restrict_tableau_eq.
  assert (E : map (filter (fun x => (x <=? m)%Z)) rows = rows).
  { rewrite <- (map_id rows) at 2. apply map_ext_in. intros row Hrow.
    apply forallb_filter_id. apply forallb_forall. intros x Hx.
    apply Z.leb_le. now apply (Hle row). }
  rewrite E. apply forallb_filter_id. apply forallb_forall. intros row Hrow.
  destruct (In_nth rows row [] Hrow) as (i & Hi & <-).
  specialize (Hpos i Hi). now destruct (nth i rows []).
Qed.

(** ** Restricting to one entry less *)

Lemma map_set_nth_ext {A : Type} (g : A -> A) (l : list A) (k : nat) (d : A) :
  (forall i, i < length l -> i <> k -> g (nth i l d) = nth i l d) ->
  map g l = set_nth l k (g (nth k l d)).
Proof.
  revert k. induction l as [|a l IH]; intros k H; [reflexivity|].
  destruct k as [|k]; cbn [map set_nth nth].
  - f_equal. rewrite <- (map_id l) at 2. apply map_ext_in. intros x Hx.
    destruct (In_nth l x d Hx) as (i & Hi & <-).
    apply (H (S i)); cbn [length]; lia.
  - f_equal; [apply (H 0); cbn [length]; lia|].
    apply IH. intros i Hi Hne. apply (H (S i)); cbn [length]; lia.
Qed.

Lemma other_entries_small (n : nat) (t : tableau_tuple) (k r c : nat) :
  filled (S n) t -> holds t k r c (Z.of_nat (S n)) ->
  forall k' r' c' x, holds t k' r' c' x -> (k', r', c') <> (k, r, c) ->
                     (x <= Z.of_nat n)%Z.
Proof.
  intros Hf Hx k' r' c' x H Hne.
  assert (Hrange := filled_range _ _ _ _ _ _ Hf H).
  destruct (Z.eq_dec x (Z.of_nat (S n))) as [->|Hx']; [|lia].
  exfalso. apply Hne. apply (holds_unique t (Z.of_nat (S n))); try assumption.
  now apply (filled_NoDup (S n)).
Qed.

Lemma holds_of_nth (t : tableau_tuple) (k r : nat) (x : Z) :
  k < length t -> r < length (nth k t []) -> In x (nth r (nth k t []) []) ->
  exists c, holds t k r c x.
Proof.
  intros Hk Hr Hx. destruct (In_nth_error _ _ Hx) as [c Hc]. exists c.
  exists (nth k t []), (nth r (nth k t []) []).
  split; [now apply nth_error_nth'|]. split; [now apply nth_error_nth'|exact Hc].
Qed.

Lemma filter_le_all (row : list Z) (m : Z) :
  (forall x, In x row -> (x <= m)%Z) -> filter (fun x => (x <=? m)%Z) row = row.
Proof.
  intros H. apply forallb_filter_id. apply forallb_forall. intros x Hx.
  apply Z.leb_le. now apply H.
Qed.

Lemma filter_nonempty_all {A : Type} (rows : list (list A)) :
  (forall i, i < length rows -> 0 < length (nth i rows [])) ->
  filter nonempty rows = rows.
Proof.
  intros Hpos. apply forallb_filter_id. apply forallb_forall. intros row Hrow.
  destruct (In_nth rows row [] Hrow) as (i & Hi & <-).
  specialize (Hpos i Hi). now destruct (nth i rows []).
Qed.

(** Restricting a standard tableau tuple to one less than its size drops
    the largest entry. *)
Lemma restricted_largest (n : nat) (t : tableau_tuple) (k r c : nat) :
  filled (S n) t -> increasing t -> holds t k r c (Z.of_nat (S n)) ->
  restricted t (Z.of_nat n) = without_entry t k r.
Proof.
  intros Hf Hinc Hx.
  destruct (largest_entry_cell n t k r c Hf Hinc Hx)
    as (Hk & Hr & Hrow & Hlen & Hbelow & Hlast).
  assert (Hvalid : forallb (@valid_tableau Z) t = true) by apply Hf.
  assert (Hsmall := other_entries_small n t k r c Hf Hx).
  unfold restricted, without_entry.
  rewrite (map_set_nth_ext (fun comp => restrict_tableau comp (Z.of_nat n)) t k []).
  - f_equal. set (comp := nth k t []) in *. set (row := nth r comp []) in *.
    assert (Hpos : forall i, i < length comp -> 0 < length (nth i comp [])).
    { intros i Hi. now apply (valid_rows_nonempty t k i). }
    rewrite restrict_tableau_eq.
    rewrite (map_set_nth_ext (filter (fun x => (x <=? Z.of_nat n)%Z)) comp r []).
    + fold row. 
      assert (Hinit : filter (fun x => (x <=? Z.of_nat n)%Z) row = firstn c row).
      { rewrite Hrow at 1. rewrite filter_app. cbn [filter].
        destruct (Z.leb_spec (Z.of_nat (S n)) (Z.of_nat n)); [lia|].
        rewrite app_nil_r. apply filter_le_all. intros x Hin.
        destruct (In_nth_error _ _ Hin) as [c' Hc'].
        assert (Hc'lt : c' < c).
        { assert (H1 : c' < length (firstn c row)) by (apply nth_error_Some; congruence).
          rewrite length_firstn in H1. lia. }
        apply (Hsmall k r c' x); [|intros [= E]; lia].
        exists comp, row. split; [now apply nth_error_nth'|].
        split; [now apply nth_error_nth'|].
        rewrite Hrow, nth_error_app1 by (rewrite length_firstn; lia). exact Hc'. }
      rewrite Hinit. unfold comp_without_entry.
      change (@nth (list (list Z)) k t []) with comp.
      change (nth r comp []) with row. rewrite Hlen.
      change (S c =? 1) with (c =? 0).
      destruct (Nat.eqb_spec c 0) as [->|Hc0].
      * specialize (Hlast eq_refl). cbn [firstn].
        rewrite (set_nth_split comp r row [] (nth_error_nth' comp [] Hr)).
        rewrite (skipn_all2 comp) by lia.
        rewrite filter_app. cbn [filter nonempty negb]. rewrite app_nil_r.
        apply filter_nonempty_all. intros i Hi. rewrite length_firstn in Hi.
        rewrite nth_firstn. destruct (Nat.ltb_spec i r); [|lia].
        apply Hpos. lia.
      * replace (removelast row) with (firstn c row)
          by (rewrite Hrow at 2; now rewrite removelast_last).
        apply filter_nonempty_all. rewrite length_set_nth. intros i Hi.
        rewrite nth_set_nth by assumption.
        destruct (Nat.eqb_spec r i); [rewrite length_firstn; lia|now apply Hpos].
    + intros i Hi Hne. apply filter_le_all. intros x Hin.
      destruct (holds_of_nth t k i x Hk Hi Hin) as [c' Hc'].
      apply (Hsmall k i c' x Hc'). intros [= E]. contradiction.
  - intros i Hi Hne. apply restrict_tableau_all.
    + intros j Hj. now apply (valid_rows_nonempty t i j).
    + intros row' x Hrow' Hin.
      destruct (In_nth _ _ [] Hrow') as (j & Hj & <-).
      destruct (holds_of_nth t i j x Hi Hj Hin) as [c' Hc'].
      apply (Hsmall i j c' x Hc'). intros [= E]. contradiction.
Qed.

(** ** Restricting a standard tableau tuple *)

Lemma restricted_all (n : nat) (t : tableau_tuple) (m : Z) :
  filled n t -> (Z.of_nat n <= m)%Z -> restricted t m = t.
Proof.
  intros Hf Hm. unfold restricted. rewrite <- (map_id t) at 2.
  apply map_ext_in. intros comp Hcomp.
  destruct (In_nth t comp [] Hcomp) as (k & Hk & <-).
  apply restrict_tableau_all.
  - intros i Hi. apply (valid_rows_nonempty t k i); [apply Hf|assumption|assumption].
  - intros row x Hrow Hin. destruct (In_nth _ _ [] Hrow) as (j & Hj & <-).
    destruct (holds_of_nth t k j x Hk Hj Hin) as [c Hc].
    assert (Hrange := filled_range _ _ _ _ _ _ Hf Hc). lia.
Qed.

Lemma restricted_negative (n : nat) (t : tableau_tuple) (m : Z) :
  filled n t -> (m <= 0)%Z -> restricted t m = restricted t 0.
Proof.
  intros Hf Hm. unfold restricted. apply map_ext_in. intros comp Hcomp.
  destruct (In_nth t comp [] Hcomp) as (k & Hk & <-).
  rewrite !restrict_tableau_eq. f_equal. apply map_ext_in. intros row Hrow.
  destruct (In_nth _ _ [] Hrow) as (j & Hj & <-).
  apply filter_ext_in. intros x Hin.
  destruct (holds_of_nth t k j x Hk Hj Hin) as [c Hc].
  assert (Hrange := filled_range _ _ _ _ _ _ Hf Hc).
  destruct (Z.leb_spec x m), (Z.leb_spec x 0); try reflexivity; lia.
Qed.

Lemma restricted_restricted (t : tableau_tuple) (m m' : Z) :
  (m <= m')%Z -> restricted (restricted t m') m = restricted t m.
Proof.
  intros Hm. unfold restricted. rewrite map_map. apply map_ext. intros comp.
  now apply restrict_restrict.
Qed.

(** The restriction keeps the cells with the entries up to [m], where they
    are. *)
Definition keeps (t t' : tableau_tuple) (m : Z) : Prop :=
  forall k r c x, holds t' k r c x <-> holds t k r c x /\ (x <= m)%Z.

Lemma restricted_standard (n : nat) :
  forall t, filled n t -> increasing t ->
    forall m : nat,
      filled (Nat.min m n) (restricted t (Z.of_nat m)) /\
      increasing (restricted t (Z.of_nat m)) /\
      length (restricted t (Z.of_nat m)) = length t /\
      keeps t (restricted t (Z.of_nat m)) (Z.of_nat m).
Proof.
  induction n as [|n IH]; intros t Hf Hinc m.
  - rewrite (restricted_all 0 t _ Hf) by lia. rewrite Nat.min_0_r.
    split; [exact Hf|]. split; [exact Hinc|]. split; [reflexivity|].
    intros k r c x. split; [|tauto]. intros H. split; [exact H|].
    assert (Hrange := filled_range _ _ _ _ _ _ Hf H). lia.
  - destruct (Nat.le_gt_cases (S n) m) as [Hle|Hgt].
    + rewrite (restricted_all (S n) t _ Hf) by lia. rewrite Nat.min_r by lia.
      split; [exact Hf|]. split; [exact Hinc|]. split; [reflexivity|].
      intros k r c x. split; [|tauto]. intros H. split; [exact H|].
      assert (Hrange := filled_range _ _ _ _ _ _ Hf H). lia.
    + destruct (filled_onto (S n) t (Z.of_nat (S n)) Hf ltac:(lia))
        as (k & r & c & Hx).
      destruct (standard_without_largest n t k r c Hf Hinc Hx)
        as (E & Hlz & _ & _ & Hadd & Hf' & Hinc' & Hsub).
      rewrite <- (restricted_restricted t (Z.of_nat m) (Z.of_nat n)) by lia.
      rewrite (restricted_largest n t k r c Hf Hinc Hx).
      destruct (IH _ Hf' Hinc' m) as (Hfm & Hincm & Hlm & Hkeep).
      replace (Nat.min m (S n)) with (Nat.min m n) by lia.
      split; [exact Hfm|]. split; [exact Hincm|].
      split; [exact (eq_trans Hlm Hlz)|].
      intros k' r' c' x. rewrite (Hkeep k' r' c' x). split.
      * intros [H Hxm]. split; [now apply Hsub|assumption].
      * intros [H Hxm]. split; [|assumption].
        destruct (addable_position _ k r c Hadd) as (Hk & Hr & _).
        rewrite <- E in H. apply holds_with_entry in H; [|assumption|assumption].
        destruct H as [H|[_ ->]]; [assumption|lia].
Qed.

Lemma restricted_any (n : nat) (t : tableau_tuple) (m : Z) :
  filled n t -> increasing t ->
  filled (Nat.min (Z.to_nat m) n) (restricted t m) /\
  increasing (restricted t m) /\
  length (restricted t m) = length t /\
  keeps t (restricted t m) m.
Proof.
  intros Hf Hinc. destruct (Z.le_gt_cases 0 m) as [Hm|Hm].
  - assert (H := restricted_standard n t Hf Hinc (Z.to_nat m)).
    now rewrite Z2Nat.id in H by assumption.
  - assert (H := restricted_standard n t Hf Hinc 0).
    rewrite (restricted_negative n t m Hf) by lia.
    replace (Z.to_nat m) with 0 by lia. cbn [Z.of_nat] in H.
    destruct H as (H1 & H2 & H3 & H4).
    split; [exact H1|]. split; [exact H2|]. split; [exact H3|].
    intros k r c x. rewrite (H4 k r c x). split.
    + intros [Hh Hx]. assert (Hrange := filled_range _ _ _ _ _ _ Hf Hh). lia.
    + intros [Hh Hx]. split; [exact Hh|lia].
Qed.

Lemma standard_size_filled (t : tableau_tuple) :
  is_standard_tuple t -> filled (TableauTuple_size t) t /\ increasing t.
Proof.
  intros Hstd. unfold TableauTuple_size. rewrite <- length_entries.
  destruct Hstd as (Hvalid & Hrow & Hbij & Hcol). now repeat split.
Qed.

Lemma is_empty_tuple_level (tab : tableau_tuple) :
  2 <= length tab -> is_empty_tuple tab = false.
Proof.
  destruct tab as [|a [|b rest]]; cbn [length]; intros H; try lia.
  now destruct a.
Qed.

Lemma is_empty_tuple_shape (tab : tableau_tuple) :
  tab <> [] -> is_empty_tuple tab = true -> shape_of_tuple tab = [[]].
Proof.
  destruct tab as [|a [|b rest]]; [congruence| |]; destruct a; try discriminate.
  reflexivity.
Qed.

Lemma restrict_run (parent_accepts : tableau_tuple -> bool) (t : tableau_tuple)
      (m : option Z) :
  is_standard_tuple t -> 2 <= length t ->
  StandardTableauTuple_restrict parent_accepts t m
  = Ok (AsComponents
          (restricted t match m with
                        | None => (Z.of_nat (TableauTuple_size t) - 1)%Z
                        | Some m => m
                        end)).
Proof.
  intros Hstd Hlevel. destruct (standard_size_filled t Hstd) as [Hf Hinc].
  unfold StandardTableauTuple_restrict.
  set (m' := match m with
             | None => (Z.of_nat (TableauTuple_size t) - 1)%Z
             | Some m => m
             end).
  destruct (restricted_any _ t m' Hf Hinc) as (Hf' & Hinc' & Hlen & _).
  destruct (parent_accepts (restricted t m')).
  - rewrite is_empty_tuple_level; [reflexivity|].
    exact (eq_ind_r (fun n => 2 <= n) Hlevel Hlen).
  - apply Standard_init_ok. eapply filled_increasing_standard; eassumption.
Qed.

(** The shape of what [restrict] returns, for a tableau tuple with at least
    one component. *)
Lemma restrict_shape_run (parent_accepts : tableau_tuple -> bool)
      (t : tableau_tuple) (m : Z) :
  is_standard_tuple t -> t <> [] ->
  exists v, StandardTableauTuple_restrict parent_accepts t (Some m) = Ok v /\
            shape_of_coerced v = shape_of_tuple (restricted t m).
Proof.
  intros Hstd Hne. destruct (standard_size_filled t Hstd) as [Hf Hinc].
  unfold StandardTableauTuple_restrict.
  destruct (restricted_any _ t m Hf Hinc) as (Hf' & Hinc' & Hlen & _).
  assert (Hne' : restricted t m <> []).
  { intros E. apply Hne. apply length_zero_iff_nil.
    rewrite <- Hlen, E. reflexivity. }
  destruct (parent_accepts (restricted t m)).
  - destruct (is_empty_tuple (restricted t m)) eqn:E.
    + eexists. split; [reflexivity|].
      now rewrite (is_empty_tuple_shape _ Hne' E).
    + eexists. split; reflexivity.
  - exists (AsComponents (restricted t m)). split; [|reflexivity].
    apply Standard_init_ok. eapply filled_increasing_standard; eassumption.
Qed.

(** [restrict(m)] of a standard tableau tuple with at least two components
    does not raise, whatever the parent accepts: it returns the standard
    tableau tuple with the cells of the entries up to [m], where they were;
    its level is the same and its size is [m], at least 0 and at most the
    size of the tableau tuple.  The default of [m] is one less than the
    size. *)
Theorem restrict_of_standard_is_standard
        (parent_accepts : tableau_tuple -> bool) (t : tableau_tuple) (m : option Z) :
  is_standard_tuple t -> 2 <= length t ->
  let m' := match m with
            | None => (Z.of_nat (TableauTuple_size t) - 1)%Z
            | Some m => m
            end in
  StandardTableauTuple_restrict parent_accepts t m
  = Ok (AsComponents (restricted t m')) /\
  is_standard_tuple (restricted t m') /\
  length (restricted t m') = length t /\
  TableauTuple_size (restricted t m')
  = Nat.min (Z.to_nat m') (TableauTuple_size t) /\
  forall k r c x, holds (restricted t m') k r c x <-> holds t k r c x /\ (x <= m')%Z.
Proof.
  intros Hstd Hlevel m'. destruct (standard_size_filled t Hstd) as [Hf Hinc].
  destruct (restricted_any _ t m' Hf Hinc) as (Hf' & Hinc' & Hlen & Hkeep).
  assert (Hstd' : is_standard_tuple (restricted t m'))
    by (eapply filled_increasing_standard; eassumption).
  split; [|split; [exact Hstd'|split; [exact Hlen|split; [|exact Hkeep]]]].
  - now apply restrict_run.
  - now apply filled_size.
Qed.

Lemma restrict_of_standard_is_standard_witness :
  is_standard_tuple [[[5]]; [[1; 2]; [3; 4]]]%Z /\
  2 <= length [[[5]]; [[1; 2]; [3; 4]]]%Z /\
  StandardTableauTuple_restrict (fun _ => false) [[[5]]; [[1; 2]; [3; 4]]]%Z (Some 3%Z)
  = Ok (AsComponents [[]; [[1; 2]; [3]]]%Z) /\
  StandardTableauTuple_restrict (fun _ => false) [[[5]]; [[1; 2]; [3; 4]]]%Z None
  = Ok (AsComponents [[]; [[1; 2]; [3; 4]]]%Z).
Proof.
  assert (Hstd : is_standard_tuple [[[5]]; [[1; 2]; [3; 4]]]%Z)
    by (apply is_standard_tupleb_sound; reflexivity).
  assert (Hlevel : 2 <= length [[[5]]; [[1; 2]; [3; 4]]]%Z) by (cbn; lia).
  split; [exact Hstd|]. split; [exact Hlevel|]. split.
  - exact (proj1 (restrict_of_standard_is_standard
                    (fun _ => false) [[[5]]; [[1; 2]; [3; 4]]]%Z (Some 3%Z)
                    Hstd Hlevel)).
  - exact (proj1 (restrict_of_standard_is_standard
                    (fun _ => false) [[[5]]; [[1; 2]; [3; 4]]]%Z None
                    Hstd Hlevel)).
Defined.

(** ** [restrict] after [up] *)

Lemma comp_without_with_entry {A : Type} (comp : list (list A)) (r : nat) (m : A) :
  r <= length comp ->
  (forall i, i < length comp -> 0 < length (nth i comp [])) ->
  comp_without_entry (comp_with_entry comp r m) r = comp.
Proof.
  intros Hr Hpos. unfold comp_with_entry.
  destruct (Nat.eqb_spec r (length comp)) as [->|Hne].
  - unfold comp_without_entry. rewrite app_nth2, Nat.sub_diag by lia.
    cbn [nth length Nat.eqb]. rewrite firstn_app, Nat.sub_diag, firstn_all.
    cbn [firstn]. apply app_nil_r.
  - unfold comp_without_entry. rewrite nth_set_nth_same by lia.
    rewrite length_app. cbn [length].
    assert (H := Hpos r ltac:(lia)).
    destruct (Nat.eqb_spec (length (nth r comp []) + 1) 1); [lia|].
    rewrite removelast_last, set_nth_set_nth. apply set_nth_same.
    apply nth_error_nth'. lia.
Qed.

Lemma without_with_entry (t : tableau_tuple) (k r : nat) (m : Z) :
  forallb (@valid_tableau Z) t = true -> k < length t -> r <= length (nth k t []) ->
  without_entry (with_entry t k r m) k r = t.
Proof.
  intros Hvalid Hk Hr. unfold without_entry, with_entry.
  rewrite nth_set_nth_same by assumption. rewrite set_nth_set_nth.
  rewrite comp_without_with_entry.
  - apply set_nth_same. now apply nth_error_nth'.
  - assumption.
  - intros i Hi. now apply (valid_rows_nonempty t k i).
Qed.

(** Restricting what [up()] yields gives the tableau tuple back:
    [s.restrict() == t] for every [s] in [t.up()], for a standard tableau
    tuple [t] of a level other than 1 and whatever the parent accepts. *)
Theorem restrict_undoes_up (parent_accepts : tableau_tuple -> bool) (t : tableau_tuple) :
  is_standard_tuple t -> length t <> 1 ->
  snd (up t None) = None /\
  Forall (fun v => exists s, v = AsComponents s /\
                             StandardTableauTuple_restrict parent_accepts s None
                             = Ok (AsComponents t))
         (fst (up t None)).
Proof.
  intros Hstd Hlevel.
  destruct (standard_size_filled t Hstd) as [Hf Hinc].
  assert (Hcells : forall cell, In cell (addable_cells (shape_of_tuple t)) ->
             let s := with_entry t (fst (fst cell)) (snd (fst cell))
                                 (Z.of_nat (TableauTuple_size t) + 1)%Z in
             StandardTableauTuple_restrict parent_accepts s None = Ok (AsComponents t)).
  { intros [[k r] c] Hadd. cbn [fst snd].
    destruct (addable_position t k r c Hadd) as (Hk & Hr & Hc & _).
    set (n := TableauTuple_size t) in *.
    replace (Z.of_nat n + 1)%Z with (Z.of_nat (S n)) by lia.
    assert (Hf' := with_entry_filled n t k r c Hf Hadd).
    assert (Hinc' := with_entry_increasing n t k r c Hf Hinc Hadd).
    assert (Hx : holds (with_entry t k r (Z.of_nat (S n))) k r c (Z.of_nat (S n))).
    { apply holds_with_entry; [assumption|assumption|]. right. now rewrite Hc. }
    assert (Hstd' := filled_increasing_standard _ _ Hf' Hinc').
    assert (Hlevel' : 2 <= length (with_entry t k r (Z.of_nat (S n)))).
    { unfold with_entry. rewrite length_set_nth.
      unfold tableau_tuple, tableau in *. lia. }
    rewrite (restrict_run parent_accepts _ None Hstd' Hlevel'). do 2 f_equal.
    unfold TableauTuple_size at 1. rewrite (filled_size _ _ Hf').
    replace (Z.of_nat (S n) - 1)%Z with (Z.of_nat n) by lia.
    rewrite (restricted_largest n _ k r c Hf' Hinc' Hx).
    apply without_with_entry; [apply Hf|assumption|assumption]. }
  rewrite (up_run t Hstd). cbn [fst snd]. split; [reflexivity|].
  apply Forall_map. apply Forall_forall. intros cell Hcell.
  eexists. split; [reflexivity|]. now apply Hcells.
Qed.

Lemma restrict_undoes_up_witness :
  is_standard_tuple [[[1; 2]]; [[3]]]%Z /\
  length [[[1; 2]]; [[3]]]%Z <> 1 /\
  snd (up [[[1; 2]]; [[3]]]%Z None) = None /\
  Forall (fun v => exists s, v = AsComponents s /\
                             StandardTableauTuple_restrict (fun _ => false) s None
                             = Ok (AsComponents [[[1; 2]]; [[3]]]%Z))
         (fst (up [[[1; 2]]; [[3]]]%Z None)).
Proof.
  assert (Hstd : is_standard_tuple [[[1; 2]]; [[3]]]%Z)
    by (apply is_standard_tupleb_sound; reflexivity).
  assert (Hlevel : length [[[1; 2]]; [[3]]]%Z <> 1) by discriminate.
  split; [exact Hstd|]. split; [exact Hlevel|].
  exact (restrict_undoes_up (fun _ => false) [[[1; 2]]; [[3]]]%Z Hstd Hlevel).
Defined.

(** ** [to_chain] *)

(** The shapes of the restrictions. *)
Definition chain_of (t : tableau_tuple) : list shape :=
  map (fun k => shape_of_tuple (restricted t (Z.of_nat k)))
      (seq 0 (TableauTuple_size t + 1)).

Lemma to_chain_run (parent_accepts : tableau_tuple -> bool) (t : tableau_tuple) :
  is_standard_tuple t -> to_chain parent_accepts t = Ok (chain_of t).
Proof.
  intros Hstd. destruct (standard_size_filled t Hstd) as [Hf Hinc].
  unfold to_chain, chain_of.
  destruct (Nat.eqb_spec (TableauTuple_size t) 0) as [E|Hsize].
  - rewrite E. cbn [Nat.add seq map Z.of_nat].
    rewrite (restricted_all _ t 0%Z Hf) by lia. reflexivity.
  - apply map_res_ok. intros k _.
    assert (Hne : t <> []) by (intros ->; now apply Hsize).
    destruct (restrict_shape_run parent_accepts t (Z.of_nat k) Hstd Hne)
      as (v & -> & Hv).
    cbn [bind]. now rewrite Hv.
Qed.

Lemma chain_of_nth (t : tableau_tuple) (k : nat) :
  k <= TableauTuple_size t ->
  nth k (chain_of t) [] = shape_of_tuple (restricted t (Z.of_nat k)).
Proof.
  intros Hk. unfold chain_of.
  rewrite (nth_indep _ [] (shape_of_tuple (restricted t (Z.of_nat 0))))
    by (rewrite length_map, length_seq; lia).
  rewrite (map_nth (fun k => shape_of_tuple (restricted t (Z.of_nat k)))).
  rewrite seq_nth by lia. reflexivity.
Qed.

(** For a standard tableau tuple of size [n], of a level other than 1,
    [to_chain()] does not raise, whatever the parent accepts, and returns
    [n + 1] partition tuples of the level of the tableau tuple: the one at
    position [k] has size [k], the last one is the shape of the tableau
    tuple, and each of them is the next one without one of its removable
    cells. *)
Theorem to_chain_is_a_chain (parent_accepts : tableau_tuple -> bool)
        (t : tableau_tuple) :
  is_standard_tuple t -> length t <> 1 ->
  exists chain,
    to_chain parent_accepts t = Ok chain /\
    length chain = S (TableauTuple_size t) /\
    nth (TableauTuple_size t) chain [] = shape_of_tuple t /\
    (forall k, k <= TableauTuple_size t ->
               is_partition_tuple (nth k chain []) = true /\
               length (nth k chain []) = length t /\
               size (nth k chain []) = k) /\
    (forall k, k < TableauTuple_size t ->
               exists cell,
                 In cell (removable_cells (nth (S k) chain [])) /\
                 remove_cell (nth (S k) chain []) cell = Ok (nth k chain [])).
Proof.
  intros Hstd _. destruct (standard_size_filled t Hstd) as [Hf Hinc].
  set (n := TableauTuple_size t) in *.
  exists (chain_of t). split; [now apply to_chain_run|]. split; [|split; [|split]].
  - unfold chain_of. rewrite length_map, length_seq. fold n. lia.
  - rewrite chain_of_nth by (fold n; lia). fold n.
    now rewrite (restricted_all n t _ Hf) by lia.
  - intros k Hk. rewrite chain_of_nth by (fold n; lia).
    destruct (restricted_standard n t Hf Hinc k) as (Hf' & _ & Hlen & _).
    rewrite Nat.min_l in Hf' by lia.
    split; [rewrite <- valid_shape; apply Hf'|]. split.
    + unfold shape_of_tuple. rewrite length_map. exact Hlen.
    + now apply filled_size.
  - intros k Hk. rewrite !chain_of_nth by (fold n; lia).
    destruct (restricted_standard n t Hf Hinc (S k)) as (Hf' & Hinc' & _).
    rewrite Nat.min_l in Hf' by lia.
    destruct (filled_onto (S k) _ (Z.of_nat (S k)) Hf' ltac:(lia))
      as (k0 & r & c & Hx).
    destruct (standard_without_largest k _ k0 r c Hf' Hinc' Hx)
      as (_ & _ & Hcell & Hrem & _).
    exists (k0, r, c). split; [exact Hcell|].
    rewrite Hrem. do 2 f_equal.
    rewrite <- (restricted_largest k _ k0 r c Hf' Hinc' Hx).
    apply restricted_restricted. lia.
Qed.

Lemma to_chain_is_a_chain_witness :
  is_standard_tuple [[[5]]; [[1; 2]; [3; 4]]]%Z /\
  length [[[5]]; [[1; 2]; [3; 4]]]%Z <> 1 /\
  to_chain (fun _ => false) [[[5]]; [[1; 2]; [3; 4]]]%Z
  = Ok [[[]; []]; [[]; [1]]; [[]; [2]]; [[]; [2; 1]]; [[]; [2; 2]]; [[1]; [2; 2]]] /\
  exists chain,
    to_chain (fun _ => false) [[[5]]; [[1; 2]; [3; 4]]]%Z = Ok chain /\
    length chain = S (TableauTuple_size [[[5]]; [[1; 2]; [3; 4]]]%Z) /\
    nth (TableauTuple_size [[[5]]; [[1; 2]; [3; 4]]]%Z) chain []
    = shape_of_tuple [[[5]]; [[1; 2]; [3; 4]]]%Z /\
    (forall k, k <= TableauTuple_size [[[5]]; [[1; 2]; [3; 4]]]%Z ->
               is_partition_tuple (nth k chain []) = true /\
               length (nth k chain []) = length [[[5]]; [[1; 2]; [3; 4]]]%Z /\
               size (nth k chain []) = k) /\
    (forall k, k < TableauTuple_size [[[5]]; [[1; 2]; [3; 4]]]%Z ->
               exists cell,
                 In cell (removable_cells (nth (S k) chain [])) /\
                 remove_cell (nth (S k) chain []) cell = Ok (nth k chain [])).
Proof.
  assert (Hstd : is_standard_tuple [[[5]]; [[1; 2]; [3; 4]]]%Z)
    by (apply is_standard_tupleb_sound; reflexivity).
  assert (Hlevel : length [[[5]]; [[1; 2]; [3; 4]]]%Z <> 1) by discriminate.
  split; [exact Hstd|]. split; [exact Hlevel|]. split; [reflexivity|].
  exact (to_chain_is_a_chain (fun _ => false) [[[5]]; [[1; 2]; [3; 4]]]%Z Hstd Hlevel).
Defined.

(** ** Membership in the classes of a level and of a size *)

Lemma size_by_components (t : tableau_tuple) :
  sum_list (map (fun s => sum_list (map (@length Z) s)) t) = TableauTuple_size t.
Proof.
  unfold TableauTuple_size, size, shape_of_tuple, shape_of_tableau, psize.
  now rewrite map_map.
Qed.

Section Membership.

Variable in_StandardTableaux : tableau_tuple -> bool.

Lemma level_contains_valid (level : nat) (t : tableau_tuple) :
  valid_tuple t ->
  StandardTableauTuples_level_contains in_StandardTableaux level t
  = Ok (is_standard t && (length t =? level)).
Proof.
  intros Hv. unfold StandardTableauTuples_level_contains.
  rewrite (StandardTableauTuples_contains_valid _ t Hv). cbn [bind].
  unfold valid_tuple in Hv. rewrite Hv. now destruct (is_standard t).
Qed.

Lemma size_contains_valid (n : nat) (t : tableau_tuple) :
  valid_tuple t ->
  StandardTableauTuples_size_contains in_StandardTableaux n t
  = Ok (is_standard t && (TableauTuple_size t =? n)).
Proof.
  intros Hv. unfold StandardTableauTuples_size_contains.
  rewrite (StandardTableauTuples_contains_valid _ t Hv). cbn [bind].
  unfold valid_tuple in Hv. rewrite Hv, size_by_components.
  now destruct (is_standard t).
Qed.

Lemma level_size_contains_valid (level n : nat) (t : tableau_tuple) :
  valid_tuple t ->
  StandardTableauTuples_level_size_contains in_StandardTableaux level n t
  = Ok (is_standard t && ((length t =? level) && (TableauTuple_size t =? n))).
Proof.
  intros Hv. unfold StandardTableauTuples_level_size_contains.
  rewrite (StandardTableauTuples_contains_valid _ t Hv). cbn [bind].
  unfold valid_tuple in Hv. rewrite Hv, size_by_components.
  now destruct (is_standard t).
Qed.

End Membership.

(** On a list of tableaux with integer entries the membership tests of
    [StandardTableauTuples_level], [StandardTableauTuples_size] and
    [StandardTableauTuples_level_size] do not raise: they hold exactly for
    the standard tableau tuples with that many components, with that size,
    and with both; the third test is the conjunction of the first two. *)
Theorem level_and_size_membership (in_StandardTableaux : tableau_tuple -> bool)
        (level n : nat) (t : tableau_tuple) :
  valid_tuple t ->
  exists in_level in_size : bool,
    StandardTableauTuples_level_contains in_StandardTableaux level t = Ok in_level /\
    StandardTableauTuples_size_contains in_StandardTableaux n t = Ok in_size /\
    StandardTableauTuples_level_size_contains in_StandardTableaux level n t
    = Ok (in_level && in_size) /\
    (in_level = true <-> is_standard_tuple t /\ length t = level) /\
    (in_size = true <-> is_standard_tuple t /\ TableauTuple_size t = n).
Proof.
  intros Hv. assert (Hs := is_standard_iff t Hv).
  exists (is_standard t && (length t =? level)),
         (is_standard t && (TableauTuple_size t =? n)).
  split; [now apply level_contains_valid|].
  split; [now apply size_contains_valid|]. split; [|split].
  - rewrite (level_size_contains_valid _ level n t Hv). f_equal.
    destruct (is_standard t), (length t =? level); reflexivity.
  - rewrite andb_true_iff, Nat.eqb_eq. tauto.
  - rewrite andb_true_iff, Nat.eqb_eq. tauto.
Qed.

Lemma level_and_size_membership_witness :
  valid_tuple [[[1; 2]]; [[3]]]%Z /\
  exists in_level in_size : bool,
    StandardTableauTuples_level_contains (fun _ => false) 2 [[[1; 2]]; [[3]]]%Z
    = Ok in_level /\
    StandardTableauTuples_size_contains (fun _ => false) 3 [[[1; 2]]; [[3]]]%Z
    = Ok in_size /\
    StandardTableauTuples_level_size_contains (fun _ => false) 2 3 [[[1; 2]]; [[3]]]%Z
    = Ok (in_level && in_size) /\
    (in_level = true <-> is_standard_tuple [[[1; 2]]; [[3]]]%Z /\
                         length [[[1; 2]]; [[3]]]%Z = 2) /\
    (in_size = true <-> is_standard_tuple [[[1; 2]]; [[3]]]%Z /\
                        TableauTuple_size [[[1; 2]]; [[3]]]%Z = 3).
Proof.
  split; [reflexivity|].
  apply (level_and_size_membership (fun _ => false) 2 3 [[[1; 2]]; [[3]]]%Z).
  reflexivity.
Defined.

(** ** The row standard classes *)

Section RowMembership.

Variable in_RowStandardTableaux : tableau_tuple -> bool.

(** [RowStandardTableauTuples_level.__contains__] *)
Definition RowStandardTableauTuples_level_contains (level : nat) (t : tableau_tuple)
  : res bool :=
  member <- RowStandardTableauTuples_contains in_RowStandardTableaux t ;;
  if member then
    if forallb (@valid_tableau Z) t then Ok (length t =? level)
    else Ok (level =? 1)
  else Ok false.

(** [RowStandardTableauTuples_size.__contains__] *)
Definition RowStandardTableauTuples_size_contains (n : nat) (t : tableau_tuple)
  : res bool :=
  member <- RowStandardTableauTuples_contains in_RowStandardTableaux t ;;
  if member then
    if forallb (@valid_tableau Z) t
    then Ok (sum_list (map (fun s => sum_list (map (@length Z) s)) t) =? n)
    else Ok (n =? sum_list (map (@length (list Z)) t))
  else Ok false.

(** [RowStandardTableauTuples_level_size.__contains__] *)
Definition RowStandardTableauTuples_level_size_contains (level n : nat)
           (t : tableau_tuple) : res bool :=
  member <- RowStandardTableauTuples_contains in_RowStandardTableaux t ;;
  if member then
    if forallb (@valid_tableau Z) t
    then Ok ((length t =? level)
             && (sum_list (map (fun s => sum_list (map (@length Z) s)) t) =? n))
    else Ok ((level =? 1) && (n =? sum_list (map (@length (list Z)) t)))
  else Ok false.

End RowMembership.

(** The test of [RowStandardTableauTuples.__contains__] on a list of
    tableaux. *)
Definition is_row_standard (t : tableau_tuple) : bool :=
  (if list_eq_dec Z.eq_dec (sorted (entries t)) (range1 (TableauTuple_size t))
   then true else false) && TableauTuple_is_row_strict t.

Lemma is_row_standard_iff (t : tableau_tuple) :
  valid_tuple t ->
  (is_row_standard t = true <-> row_strict t /\ bijective t).
Proof.
  intros Hv. unfold is_row_standard. rewrite andb_true_iff.
  unfold TableauTuple_is_row_strict. rewrite is_row_strict_spec.
  assert (Hb : (if list_eq_dec Z.eq_dec (sorted (entries t))
                               (range1 (TableauTuple_size t))
                then true else false) = true <-> bijective t).
  { unfold bijective. rewrite <- sorted_is_range, length_sorted_entries.
    destruct (list_eq_dec Z.eq_dec _ _); split; congruence. }
  rewrite Hb. tauto.
Qed.

(** On a list of tableaux with integer entries the membership tests of
    [RowStandardTableauTuples_level], [RowStandardTableauTuples_size] and
    [RowStandardTableauTuples_level_size] do not raise: they hold exactly
    for the tableau tuples with increasing rows and the entries 1, ..., n
    that have that many components, that size, and both; the third test is
    the conjunction of the first two. *)
Theorem row_standard_level_and_size_membership
        (in_RowStandardTableaux : tableau_tuple -> bool)
        (level n : nat) (t : tableau_tuple) :
  valid_tuple t ->
  exists in_level in_size : bool,
    RowStandardTableauTuples_level_contains in_RowStandardTableaux level t
    = Ok in_level /\
    RowStandardTableauTuples_size_contains in_RowStandardTableaux n t = Ok in_size /\
    RowStandardTableauTuples_level_size_contains in_RowStandardTableaux level n t
    = Ok (in_level && in_size) /\
    (in_level = true <-> (row_strict t /\ bijective t) /\ length t = level) /\
    (in_size = true <-> (row_strict t /\ bijective t) /\ TableauTuple_size t = n).
Proof.
  intros Hv. assert (Hs := is_row_standard_iff t Hv).
  assert (Hc := RowStandardTableauTuples_contains_valid in_RowStandardTableaux t Hv).
  fold (is_row_standard t) in Hc.
  exists (is_row_standard t && (length t =? level)),
         (is_row_standard t && (TableauTuple_size t =? n)).
  unfold RowStandardTableauTuples_level_contains,
    RowStandardTableauTuples_size_contains,
    RowStandardTableauTuples_level_size_contains.
  rewrite Hc. cbn [bind]. unfold valid_tuple in Hv. rewrite Hv, size_by_components.
  split; [now destruct (is_row_standard t)|].
  split; [now destruct (is_row_standard t)|]. split; [|split].
  - destruct (is_row_standard t), (length t =? level); reflexivity.
  - rewrite andb_true_iff, Nat.eqb_eq. tauto.
  - rewrite andb_true_iff, Nat.eqb_eq. tauto.
Qed.

Lemma row_standard_level_and_size_membership_witness :
  valid_tuple [[[2; 3]; [1]]; [[4]]]%Z /\
  exists in_level in_size : bool,
    RowStandardTableauTuples_level_contains (fun _ => false) 2 [[[2; 3]; [1]]; [[4]]]%Z
    = Ok in_level /\
    RowStandardTableauTuples_size_contains (fun _ => false) 4 [[[2; 3]; [1]]; [[4]]]%Z
    = Ok in_size /\
    RowStandardTableauTuples_level_size_contains (fun _ => false) 2 4
      [[[2; 3]; [1]]; [[4]]]%Z
    = Ok (in_level && in_size) /\
    (in_level = true <-> (row_strict [[[2; 3]; [1]]; [[4]]]%Z /\
                          bijective [[[2; 3]; [1]]; [[4]]]%Z) /\
                         length [[[2; 3]; [1]]; [[4]]]%Z = 2) /\
    (in_size = true <-> (row_strict [[[2; 3]; [1]]; [[4]]]%Z /\
                         bijective [[[2; 3]; [1]]; [[4]]]%Z) /\
                        TableauTuple_size [[[2; 3]; [1]]; [[4]]]%Z = 4).
Proof.
  split; [reflexivity|].
  apply (row_standard_level_and_size_membership
           (fun _ => false) 2 4 [[[2; 3]; [1]]; [[4]]]%Z).
  reflexivity.
Defined.

(** * The reading words *)

(** [to_word_by_row]: [for t in self.components()[::-1]: for row in
    reversed(t): w += row] *)
Definition to_word_by_row (comps : tableau_tuple) : list Z :=
  concat (map (fun t => concat (rev t)) (rev comps)).

(** [for t in c: for row in t: w += row[::-1]] for the components [c]. *)
Definition column_reading (c : tableau_tuple) : list Z :=
  concat (map (fun t => concat (map (@rev Z) t)) c).

Definition not_subscriptable : string := "'int' object is not subscriptable"%string.

Section Parent.

Variable parent_contains : tableau_tuple -> bool.

(** [to_word_by_column]: the loop runs over [self.conjugate()].  Over a
    bare tableau [t] is a row and [row] an entry, which has no
    [row[::-1]]. *)
Definition to_word_by_column (e : std_element) : res (list Z) :=
  c <- conjugate parent_contains e ;;
  match c with
  | StandardTableauTuple comps => Ok (column_reading comps)
  | TableauOfTableaux comps => Ok (column_reading comps)
  | StandardTableau rows =>
      if forallb (fun row : list Z => match row with [] => true | _ => false end) rows
      then Ok []
      else Raise (TypeError not_subscriptable)
  end.

End Parent.

Lemma rev_concat_rows {A : Type} (l : list (list A)) :
  rev (concat l) = concat (map (@rev A) (rev l)).
Proof.
  induction l as [|x l IH]; [reflexivity|]. cbn [concat rev].
  rewrite rev_app_distr, IH, map_app, concat_app. cbn [map concat].
  now rewrite app_nil_r.
Qed.

Lemma map_rev_rev {A : Type} (l : list (list A)) :
  map (@rev A) (map (@rev A) l) = l.
Proof.
  rewrite map_map. rewrite <- (map_id l) at 2. apply map_ext. intros x.
  apply rev_involutive.
Qed.

(** The column reading is the row reading backwards. *)
Lemma column_reading_rev (c : tableau_tuple) :
  column_reading c = rev (to_word_by_row c).
Proof.
  unfold column_reading, to_word_by_row.
  rewrite rev_concat_rows, <- map_rev, rev_involutive, map_map. f_equal.
  apply map_ext. intros t. rewrite rev_concat_rows, rev_involutive. reflexivity.
Qed.

Lemma Permutation_concat_rev {A : Type} (l : list (list A)) :
  Permutation (concat (rev l)) (concat l).
Proof.
  induction l as [|x l IH]; [constructor|]. cbn [rev concat].
  rewrite concat_app. cbn [concat]. rewrite app_nil_r.
  eapply Permutation_trans; [apply Permutation_app_comm|].
  now apply Permutation_app_head.
Qed.

Lemma to_word_by_row_entries (comps : tableau_tuple) :
  Permutation (to_word_by_row comps) (entries comps).
Proof.
  unfold to_word_by_row, entries, entries_of_tableau.
  rewrite map_rev. eapply Permutation_trans; [apply Permutation_concat_rev|].
  apply concat_perm_pointwise. intros t _. apply Permutation_concat_rev.
Qed.

(** The word [to_word_by_row()] lists every entry of the tableau tuple once.
    For a standard tableau tuple with at least two components, whatever
    the parent, [to_word_by_column()] does not raise: it is
    [to_word_by_row()] of the conjugate read backwards, and lists every
    entry once as well; both are arrangements of 1, ..., n. *)
Theorem reading_words_list_the_entries (parent_contains : tableau_tuple -> bool)
        (comps : tableau_tuple) :
  is_standard_tuple comps -> 2 <= length comps ->
  Permutation (to_word_by_row comps) (entries comps) /\
  Permutation (to_word_by_row comps) (range1 (TableauTuple_size comps)) /\
  exists w,
    to_word_by_column parent_contains (StandardTableauTuple comps) = Ok w /\
    w = rev (to_word_by_row (conj_components comps)) /\
    Permutation w (entries comps).
Proof.
  intros Hstd Hlevel.
  assert (Hrow := to_word_by_row_entries comps).
  split; [exact Hrow|]. split.
  - eapply Permutation_trans; [exact Hrow|].
    destruct Hstd as (_ & _ & Hbij & _). unfold bijective in Hbij.
    unfold TableauTuple_size. now rewrite <- length_entries.
  - assert (Hne : comps <> []) by (destruct comps; [cbn in Hlevel; lia|discriminate]).
    destruct (conjugate_standard parent_contains comps Hstd Hne)
      as (e & He & _ & [->|(rows & Hrows & _)]).
    + exists (column_reading (conj_components comps)).
      unfold to_word_by_column. rewrite He. cbn [bind].
      split; [reflexivity|]. split; [apply column_reading_rev|].
      rewrite column_reading_rev.
      eapply Permutation_trans; [apply Permutation_sym, Permutation_rev|].
      eapply Permutation_trans; [apply to_word_by_row_entries|].
      apply conj_entries. apply Hstd.
    + exfalso. assert (H := f_equal (@length _) Hrows).
      unfold conj_components in H. rewrite length_map, length_rev in H.
      cbn [length] in H. lia.
Qed.

Lemma reading_words_list_the_entries_witness :
  is_standard_tuple [[[1; 2]; [3; 4]]; [[5; 6; 7]; [8]]; [[9; 10]; [11]; [12]]]%Z /\
  2 <= length [[[1; 2]; [3; 4]]; [[5; 6; 7]; [8]]; [[9; 10]; [11]; [12]]]%Z /\
  to_word_by_row [[[1; 2]; [3; 4]]; [[5; 6; 7]; [8]]; [[9; 10]; [11]; [12]]]%Z
  = [12; 11; 9; 10; 8; 5; 6; 7; 3; 4; 1; 2]%Z /\
  to_word_by_column (fun _ => true)
    (StandardTableauTuple [[[1; 2]; [3; 4]]; [[5; 6; 7]; [8]]; [[9; 10]; [11]; [12]]]%Z)
  = Ok [12; 11; 9; 10; 8; 5; 6; 7; 3; 1; 4; 2]%Z /\
  exists w,
    to_word_by_column (fun _ => true)
      (StandardTableauTuple
         [[[1; 2]; [3; 4]]; [[5; 6; 7]; [8]]; [[9; 10]; [11]; [12]]]%Z) = Ok w /\
    w = rev (to_word_by_row
               (conj_components
                  [[[1; 2]; [3; 4]]; [[5; 6; 7]; [8]]; [[9; 10]; [11]; [12]]]%Z)) /\
    Permutation w (entries [[[1; 2]; [3; 4]]; [[5; 6; 7]; [8]]; [[9; 10]; [11]; [12]]]%Z).
Proof.
  assert (Hstd : is_standard_tuple
                   [[[1; 2]; [3; 4]]; [[5; 6; 7]; [8]]; [[9; 10]; [11]; [12]]]%Z)
    by (apply is_standard_tupleb_sound; reflexivity).
  assert (Hlevel : 2 <= length [[[1; 2]; [3; 4]]; [[5; 6; 7]; [8]];
                                [[9; 10]; [11]; [12]]]%Z) by (cbn; lia).
  split; [exact Hstd|]. split; [exact Hlevel|]. split; [reflexivity|].
  split; [reflexivity|].
  exact (proj2 (proj2 (reading_words_list_the_entries
                         (fun _ => true) _ Hstd Hlevel))).
Defined.

(** * The residue enumerators yield no tableau twice *)

(** ** The yields of a generator that does not raise, as a list *)

Lemma gen_for_fst {A B : Type} (l : list A) (body : A -> gen B) :
  snd (gen_for l body) = None ->
  fst (gen_for l body) = flat_map (fun a => fst (body a)) l.
Proof.
  induction l as [|a l IH]; intros H; [reflexivity|].
  cbn [gen_for flat_map] in *. apply gen_app_None in H.
  destruct H as (_ & H2 & ->). now rewrite IH.
Qed.

Lemma gen_bind_fst {A B : Type} (g : gen A) (body : A -> gen B) :
  snd (gen_bind g body) = None ->
  fst (gen_bind g body) = flat_map (fun a => fst (body a)) (fst g).
Proof.
  unfold gen_bind. intros H. apply gen_app_None in H.
  destruct H as (H1 & H2 & ->). rewrite (gen_for_fst _ _ H1).
  destruct (snd g); cbn [fst gen_empty gen_raise]; apply app_nil_r.
Qed.

Lemma lift_tuple_inj (zs zs' : tableau_tuple) :
  lift_tuple zs = lift_tuple zs' -> zs = zs'.
Proof.
  assert (Hrow : forall r r' : list Z, map PInt r = map PInt r' -> r = r').
  { induction r as [|x r IH]; intros [|y r'] H; try discriminate; [reflexivity|].
    injection H as -> H. f_equal. now apply IH. }
  assert (Htab : forall t t' : tableau, lift_tableau t = lift_tableau t' -> t = t').
  { induction t as [|x t IH]; intros [|y t'] H; try discriminate; [reflexivity|].
    injection H as Hx H. f_equal; [now apply Hrow|now apply IH]. }
  revert zs'. induction zs as [|x zs IH]; intros [|y zs'] H; try discriminate;
    [reflexivity|].
  injection H as Hx H. f_equal; [now apply Htab|now apply IH].
Qed.

(** ** The cells of a shape are listed once *)

Lemma NoDup_by_component (F : nat -> list nat -> list (nat * nat * nat)) (mu : shape) :
  (forall k nu, NoDup (F k nu)) ->
  (forall k nu cell, In cell (F k nu) -> fst (fst cell) = k) ->
  NoDup (concat (map (fun p => F (fst p) (snd p)) (combine (seq 0 (length mu)) mu))).
Proof.
  intros Hnd Hk. rewrite <- flat_map_concat_map. apply NoDup_flat_map.
  - rewrite (combine_seq_nth mu [] 0).
    apply NoDup_map_NoDup_ForallPairs; [|apply seq_NoDup].
    intros a b _ _ E. now injection E.
  - intros [k nu] _. apply Hnd.
  - intros [k nu] [k' nu'] cell Ha Ha' Hc Hc'. cbn [fst snd] in *.
    apply Hk in Hc, Hc'. assert (Ek : k' = k) by congruence.
    apply In_combine_seq in Ha, Ha'. destruct Ha as [_ Ha], Ha' as [_ Ha'].
    rewrite Ek in *. f_equal. congruence.
Qed.

Lemma NoDup_removable_in_rows (k : nat) (nu : list nat) :
  forall r0, NoDup (removable_in_rows k r0 nu).
Proof.
  induction nu as [|len rest IH]; intros r0; [constructor|].
  cbn [removable_in_rows]. apply NoDup_app.
  - destruct (hd 0 rest <? len); [|constructor].
    constructor; [intros []|constructor].
  - apply IH.
  - intros [[k' r'] c'] H1 H2.
    destruct (hd 0 rest <? len); [|contradiction].
    destruct H1 as [[= <- <- <-]|[]].
    apply removable_in_rows_spec in H2. lia.
Qed.

Lemma NoDup_addable_in_rows (k : nat) (nu : list nat) :
  forall r0 above, NoDup (addable_in_rows k r0 above nu).
Proof.
  induction nu as [|len rest IH]; intros r0 above.
  - cbn [addable_in_rows]. destruct above as [[|a]|]; repeat constructor; intros [].
  - cbn [addable_in_rows]. apply NoDup_app.
    + destruct above as [a|]; [destruct (len <? a)|]; repeat constructor; intros [].
    + apply IH.
    + intros [[k' r'] c'] H1 H2.
      assert (Hr : r' = r0).
      { destruct above as [a|]; [destruct (len <? a)|];
          try contradiction; destruct H1 as [[= <- <- <-]|[]]; reflexivity. }
      apply addable_in_rows_spec in H2. lia.
Qed.

Lemma NoDup_removable_cells (mu : shape) : NoDup (removable_cells mu).
Proof.
  apply (NoDup_by_component (fun k nu => removable_in_rows k 0 nu)).
  - intros k nu. apply NoDup_removable_in_rows.
  - intros k nu [[k' r'] c'] H. apply removable_in_rows_spec in H. cbn. lia.
Qed.

Lemma NoDup_addable_cells (mu : shape) : NoDup (addable_cells mu).
Proof.
  apply (NoDup_by_component (fun k nu => addable_in_rows k 0 None nu)).
  - intros k nu. apply NoDup_addable_in_rows.
  - intros k nu [[k' r'] c'] H. apply addable_in_rows_spec in H. cbn. lia.
Qed.

(** ** A tableau tuple comes from one smaller tableau tuple and one cell *)

Lemma extension_injective (n : nat) (zs1 zs2 : tableau_tuple)
      (k1 r1 c1 k2 r2 c2 : nat) :
  filled n zs1 -> filled n zs2 ->
  In (k1, r1, c1) (addable_cells (shape_of_tuple zs1)) ->
  In (k2, r2, c2) (addable_cells (shape_of_tuple zs2)) ->
  with_entry zs1 k1 r1 (Z.of_nat (S n)) = with_entry zs2 k2 r2 (Z.of_nat (S n)) ->
  zs1 = zs2 /\ (k1, r1, c1) = (k2, r2, c2).
Proof.
  intros Hf1 Hf2 Ha1 Ha2 E.
  destruct (addable_position zs1 k1 r1 c1 Ha1) as (Hk1 & Hr1 & Hc1 & _).
  destruct (addable_position zs2 k2 r2 c2 Ha2) as (Hk2 & Hr2 & Hc2 & _).
  assert (Hw := with_entry_filled n zs1 k1 r1 c1 Hf1 Ha1).
  assert (H1 : holds (with_entry zs1 k1 r1 (Z.of_nat (S n))) k1 r1 c1 (Z.of_nat (S n))).
  { apply holds_with_entry; [assumption|assumption|]. right. now rewrite Hc1. }
  assert (H2 : holds (with_entry zs1 k1 r1 (Z.of_nat (S n))) k2 r2 c2 (Z.of_nat (S n))).
  { rewrite E. apply holds_with_entry; [assumption|assumption|]. right. now rewrite Hc2. }
  assert (Hcell := holds_unique _ _ _ _ _ _ _ _ (filled_NoDup _ _ Hw) H1 H2).
  split; [|exact Hcell]. injection Hcell as <- <- <-.
  rewrite <- (without_with_entry zs1 k1 r1 (Z.of_nat (S n)) (proj1 Hf1) Hk1 Hr1).
  rewrite <- (without_with_entry zs2 k1 r1 (Z.of_nat (S n)) (proj1 Hf2) Hk2 Hr2).
  now rewrite E.
Qed.

(** What comes from [t] with the next entry in [cell]. *)
Definition extends_from (n : nat) (cell : nat * nat * nat)
           (t x : list (list (list pyobj))) : Prop :=
  exists zs, t = lift_tuple zs /\ filled n zs /\
             In cell (addable_cells (shape_of_tuple zs)) /\
             x = lift_tuple (with_entry zs (fst (fst cell)) (snd (fst cell))
                                        (Z.of_nat (S n))).

Lemma extends_from_injective (n : nat) (cell1 cell2 : nat * nat * nat)
      (t1 t2 x : list (list (list pyobj))) :
  extends_from n cell1 t1 x -> extends_from n cell2 t2 x ->
  t1 = t2 /\ cell1 = cell2.
Proof.
  intros (zs1 & -> & Hf1 & Ha1 & ->) (zs2 & -> & Hf2 & Ha2 & E).
  apply lift_tuple_inj in E.
  destruct cell1 as [[k1 r1] c1], cell2 as [[k2 r2] c2]. cbn [fst snd] in E.
  destruct (extension_injective n zs1 zs2 k1 r1 c1 k2 r2 c2 Hf1 Hf2 Ha1 Ha2 E)
    as [-> Hc].
  now split.
Qed.

(** The body of the loops: the tableau tuple [t] with the next entry in
    [cell], when the residue is right. *)
Lemma add_cell_once (n : nat) (zs : tableau_tuple) (cell : nat * nat * nat)
      (right : res bool) :
  filled n zs -> In cell (addable_cells (shape_of_tuple zs)) ->
  let body := gen_lift right
                (fun b => if b then gen_lift (add_cell (lift_tuple zs) cell (S n))
                                             gen_yield
                          else gen_empty) in
  NoDup (fst body) /\
  Forall (extends_from n cell (lift_tuple zs)) (fst body).
Proof.
  intros Hf Hadd. destruct cell as [[k r] c].
  destruct right as [[|]|err]; cbn [gen_lift];
    try (split; constructor).
  rewrite (add_cell_filled n zs k r c Hf Hadd). cbn [gen_lift gen_yield fst].
  split; [repeat constructor; intros []|].
  constructor; [|constructor]. now exists zs.
Qed.

(** ** Loops that yield nothing twice *)

Lemma NoDup_gen_app {A : Type} (g1 g2 : gen A) :
  NoDup (fst g1) -> NoDup (fst g2) ->
  (forall x, In x (fst g1) -> In x (fst g2) -> False) ->
  NoDup (fst (gen_app g1 g2)).
Proof.
  intros H1 H2 Hd. unfold gen_app. destruct (snd g1); cbn [fst]; [assumption|].
  apply NoDup_app; assumption.
Qed.

Lemma gen_app_In {A : Type} (g1 g2 : gen A) (x : A) :
  In x (fst (gen_app g1 g2)) -> In x (fst g1) \/ In x (fst g2).
Proof.
  unfold gen_app. destruct (snd g1); cbn [fst]; [now left|]. apply in_app_or.
Qed.

Lemma NoDup_gen_for {A B : Type} (P : A -> B -> Prop) (l : list A)
      (body : A -> gen B) :
  NoDup l ->
  (forall a, In a l -> NoDup (fst (body a)) /\ Forall (P a) (fst (body a))) ->
  (forall a a' x, P a x -> P a' x -> a = a') ->
  NoDup (fst (gen_for l body)) /\
  Forall (fun x => exists a, In a l /\ P a x) (fst (gen_for l body)).
Proof.
  intros Hl Hbody Hinj. induction l as [|a l IH]; [split; constructor|].
  inversion Hl as [|? ? Ha Hl']; subst.
  destruct (Hbody a (or_introl eq_refl)) as [Hnd Hall].
  destruct (IH Hl' (fun b Hb => Hbody b (or_intror Hb))) as [IH1 IH2].
  cbn [gen_for]. split.
  - apply NoDup_gen_app; [assumption|assumption|].
    intros x Hx1 Hx2. rewrite Forall_forall in Hall, IH2.
    destruct (IH2 x Hx2) as (b & Hb & Hpb).
    assert (a = b) by (eapply Hinj; [apply Hall|]; eassumption).
    subst b. contradiction.
  - apply Forall_forall. intros x Hx. apply gen_app_In in Hx.
    rewrite Forall_forall in Hall, IH2. destruct Hx as [Hx|Hx].
    + exists a. split; [now left|now apply Hall].
    + destruct (IH2 x Hx) as (b & Hb & Hpb). exists b. split; [now right|assumption].
Qed.

Lemma NoDup_gen_bind {A B : Type} (P : A -> B -> Prop) (g : gen A)
      (body : A -> gen B) :
  NoDup (fst g) ->
  (forall a, In a (fst g) -> NoDup (fst (body a)) /\ Forall (P a) (fst (body a))) ->
  (forall a a' x, P a x -> P a' x -> a = a') ->
  NoDup (fst (gen_bind g body)) /\
  Forall (fun x => exists a, In a (fst g) /\ P a x) (fst (gen_bind g body)).
Proof.
  intros Hg Hbody Hinj. destruct (NoDup_gen_for P (fst g) body Hg Hbody Hinj) as [H1 H2].
  unfold gen_bind. split.
  - apply NoDup_gen_app; [assumption| |].
    + destruct (snd g); constructor.
    + intros x _ Hx. destruct (snd g); exact Hx.
  - apply Forall_forall. intros x Hx. apply gen_app_In in Hx.
    rewrite Forall_forall in H2. destruct Hx as [Hx|Hx]; [now apply H2|].
    destruct (snd g); destruct Hx.
Qed.

(** ** [StandardTableaux_residue] *)

Lemma good_tuple_filled (e : Z) (mc rl : list Z) (n : nat)
      (t : list (list (list pyobj))) :
  length rl = S n -> good_tuple e mc (firstn n rl) t ->
  exists zs, t = lift_tuple zs /\ filled n zs.
Proof.
  intros Hlen (zs & -> & Hf & _). exists zs. split; [reflexivity|].
  now rewrite length_firstn, Nat.min_l in Hf by lia.
Qed.

Lemma StandardTableaux_residue_higher_once (e : Z) (mc : list Z) (n : nat) :
  forall rl, length rl = n ->
    NoDup (fst (StandardTableaux_residue_higher
                  (length mc) n (mkResidueSequence e mc rl))).
Proof.
  induction n as [|n IH]; intros rl Hlen.
  - cbn. repeat constructor. intros [].
  - cbn [StandardTableaux_residue_higher]. unfold rs_restrict.
    cbn [residues quantum_characteristic multicharge].
    apply (NoDup_gen_bind (fun t x => exists cell, extends_from n cell t x)).
    + apply IH. rewrite length_firstn. lia.
    + intros t Ht.
      assert (Hgood := StandardTableaux_residue_higher_yields
                         e mc n (firstn n rl) ltac:(rewrite length_firstn; lia)).
      rewrite Forall_forall in Hgood.
      destruct (good_tuple_filled e mc rl n t Hlen (Hgood t Ht)) as (zs & -> & Hf).
      rewrite shape_of_lift_tuple.
      destruct (NoDup_gen_for (fun cell x => extends_from n cell (lift_tuple zs) x)
                  (addable_cells (shape_of_tuple zs))
                  (fun cell =>
                     gen_lift (right_residue (mkResidueSequence e mc rl) (S n) cell)
                       (fun right =>
                          if right
                          then gen_lift (add_cell (lift_tuple zs) cell (S n)) gen_yield
                          else gen_empty))) as [H1 H2].
      * apply NoDup_addable_cells.
      * intros cell Hcell. now apply add_cell_once.
      * intros c1 c2 x Hx1 Hx2.
        now destruct (extends_from_injective n c1 c2 _ _ x Hx1 Hx2).
      * split; [exact H1|]. eapply Forall_impl; [|exact H2].
        intros x (cell & _ & Hx). now exists cell.
    + intros t1 t2 x (c1 & Hx1) (c2 & Hx2).
      now destruct (extends_from_injective n c1 c2 t1 t2 x Hx1 Hx2).
Qed.

(** ** [StandardTableaux_residue_shape] *)

Lemma good_shaped_filled (e : Z) (mc rl : list Z) (n : nat) (mu : shape)
      (t : list (list (list pyobj))) :
  length rl = S n -> good_shaped e mc (firstn n rl) mu t ->
  exists zs, t = lift_tuple zs /\ filled n zs /\ shape_of_tuple zs = mu.
Proof.
  intros Hlen (zs & -> & Hf & _ & _ & Hshape). exists zs. split; [reflexivity|].
  rewrite length_firstn, Nat.min_l in Hf by lia. now split.
Qed.

Lemma StandardTableaux_residue_shape_higher_once (e : Z) (mc : list Z) (n : nat) :
  forall rl mu, length rl = n -> is_partition_tuple mu = true ->
    length mu = length mc ->
    NoDup (fst (StandardTableaux_residue_shape_higher
                  (length mc) n (mkResidueSequence e mc rl) mu)).
Proof.
  induction n as [|n IH]; intros rl mu Hlen Hmu Hlmu.
  - cbn [StandardTableaux_residue_shape_higher].
    destruct (negb _); cbn; repeat constructor. intros [].
  - cbn [StandardTableaux_residue_shape_higher]. unfold rs_restrict.
    cbn [residues quantum_characteristic multicharge].
    destruct (negb _); [constructor|].
    apply (NoDup_gen_for (fun cell x => exists t, extends_from n cell t x)).
    + apply NoDup_removable_cells.
    + intros [[k r] c] Hcell.
      destruct (right_residue (mkResidueSequence e mc rl) (S n) (k, r, c))
        as [[|]|err]; cbn [gen_lift]; try (split; constructor).
      destruct (remove_cell mu (k, r, c)) as [mu'|err] eqn:Hrem; cbn [gen_lift];
        [|split; constructor].
      destruct (remove_cell_spec mu mu' k r c Hmu Hrem) as (Hmu' & Hlmu' & _ & _).
      assert (Hlen' : length (firstn n rl) = n) by (rewrite length_firstn; lia).
      destruct (NoDup_gen_bind (fun t x => extends_from n (k, r, c) t x)
                  (StandardTableaux_residue_shape_higher
                     (length mc) n (mkResidueSequence e mc (firstn n rl)) mu')
                  (fun t => gen_lift (add_cell t (k, r, c) (S n)) gen_yield))
        as [H1 H2].
      * apply IH; [assumption|assumption|lia].
      * intros t Ht.
        assert (Hgood := StandardTableaux_residue_shape_higher_yields
                           e mc n (firstn n rl) mu' Hlen' Hmu' ltac:(lia)).
        rewrite Forall_forall in Hgood.
        destruct (good_shaped_filled e mc rl n mu' t Hlen (Hgood t Ht))
          as (zs & -> & Hf & Hshape).
        destruct (with_entry_shape zs mu mu' k r c (Z.of_nat (S n)) Hmu Hrem Hshape)
          as [Hadd _].
        exact (add_cell_once n zs (k, r, c) (Ok true) Hf Hadd).
      * intros t1 t2 x Hx1 Hx2.
        now destruct (extends_from_injective n _ _ t1 t2 x Hx1 Hx2).
      * split; [exact H1|]. eapply Forall_impl; [|exact H2].
        intros x (t & _ & Hx). now exists t.
    + intros c1 c2 x (t1 & Hx1) (t2 & Hx2).
      now destruct (extends_from_injective n c1 c2 t1 t2 x Hx1 Hx2).
Qed.

(** ** One component *)

Lemma NoDup_Partition_addable_cells (nu : list nat) :
  NoDup (Partition_addable_cells nu).
Proof.
  unfold Partition_addable_cells.
  apply NoDup_map_NoDup_ForallPairs; [|apply NoDup_addable_in_rows].
  intros [[k r] c] [[k' r'] c'] Ha Hb E. cbn [fst snd] in E.
  apply addable_in_rows_spec in Ha, Hb. injection E as -> ->.
  f_equal. f_equal. lia.
Qed.

Lemma NoDup_Partition_removable_cells (nu : list nat) :
  NoDup (Partition_removable_cells nu).
Proof.
  unfold Partition_removable_cells.
  apply NoDup_map_NoDup_ForallPairs; [|apply NoDup_removable_in_rows].
  intros [[k r] c] [[k' r'] c'] Ha Hb E. cbn [fst snd] in E.
  apply removable_in_rows_spec in Ha, Hb. injection E as -> ->.
  f_equal. f_equal. lia.
Qed.

(** The tableau [x] comes from the tableau [t] with the next entry in
    [cell]. *)
Definition one_extends_from (n : nat) (cell : nat * nat) (t x : list (list pyobj))
  : Prop :=
  extends_from n (0, fst cell, snd cell) [t] [x].

Lemma one_extends_from_injective (n : nat) (cell1 cell2 : nat * nat)
      (t1 t2 x : list (list pyobj)) :
  one_extends_from n cell1 t1 x -> one_extends_from n cell2 t2 x ->
  t1 = t2 /\ cell1 = cell2.
Proof.
  intros H1 H2. destruct (extends_from_injective n _ _ _ _ _ H1 H2) as [Et Ec].
  destruct cell1, cell2. cbn [fst snd] in Ec. injection Et as ->.
  injection Ec as -> ->. now split.
Qed.

Lemma Tableau_add_entry_once (n : nat) (rows : tableau) (cell : nat * nat)
      (right : res bool) :
  filled n [rows] -> In cell (Partition_addable_cells (shape_of_tableau rows)) ->
  let body := gen_lift right
                (fun b => if b
                          then gen_lift (Tableau_add_entry (lift_tableau rows) cell
                                                           (PInt (Z.of_nat (S n))))
                                        gen_yield
                          else gen_empty) in
  NoDup (fst body) /\
  Forall (one_extends_from n cell (lift_tableau rows)) (fst body).
Proof.
  intros Hf Hadd. destruct cell as [r c].
  destruct right as [[|]|err]; cbn [gen_lift];
    try (split; constructor).
  destruct (Tableau_add_entry_addable rows r c (Z.of_nat (S n)) Hadd)
    as (rows' & Hrun & Hrows').
  rewrite Hrun. cbn [gen_lift gen_yield fst].
  split; [repeat constructor; intros []|].
  constructor; [|constructor]. exists [rows]. cbn [fst snd].
  split; [reflexivity|]. split; [assumption|].
  split; [now apply Partition_addable_tuple|].
  change [lift_tableau rows'] with (lift_tuple [rows']). now rewrite Hrows'.
Qed.

Lemma StandardTableaux_residue_level_one_once (e : Z) (mc : list Z) (n : nat) :
  length mc = 1 ->
  forall rl, length rl = n ->
    NoDup (fst (StandardTableaux_residue_level_one n (mkResidueSequence e mc rl))).
Proof.
  intros Hmc. induction n as [|n IH]; intros rl Hlen.
  - cbn. repeat constructor. intros [].
  - cbn [StandardTableaux_residue_level_one]. unfold rs_restrict.
    cbn [residues quantum_characteristic multicharge].
    apply (NoDup_gen_bind (fun t x => exists cell, one_extends_from n cell t x)).
    + apply IH. rewrite length_firstn. lia.
    + intros t Ht.
      assert (Hgood := StandardTableaux_residue_level_one_yields
                         e mc n Hmc (firstn n rl) ltac:(rewrite length_firstn; lia)).
      rewrite Forall_forall in Hgood.
      destruct (good_tuple_filled e mc rl n [t] Hlen (Hgood t Ht)) as (zs & Ht' & Hf).
      destruct (lift_tuple_singleton t zs Ht') as (rows & -> & ->).
      rewrite shape_of_lift_tableau.
      destruct (NoDup_gen_for
                  (fun cell x => one_extends_from n cell (lift_tableau rows) x)
                  (Partition_addable_cells (shape_of_tableau rows))
                  (fun cell =>
                     gen_lift (right_residue_level_one
                                 (mkResidueSequence e mc rl) (S n) cell)
                       (fun right =>
                          if right
                          then gen_lift (Tableau_add_entry (lift_tableau rows) cell
                                                           (PInt (Z.of_nat (S n))))
                                        gen_yield
                          else gen_empty))) as [H1 H2].
      * apply NoDup_Partition_addable_cells.
      * intros cell Hcell. now apply Tableau_add_entry_once.
      * intros c1 c2 x Hx1 Hx2.
        now destruct (one_extends_from_injective n c1 c2 _ _ x Hx1 Hx2).
      * split; [exact H1|]. eapply Forall_impl; [|exact H2].
        intros x (cell & _ & Hx). now exists cell.
    + intros t1 t2 x (c1 & Hx1) (c2 & Hx2).
      now destruct (one_extends_from_injective n c1 c2 t1 t2 x Hx1 Hx2).
Qed.

Lemma StandardTableaux_residue_shape_level_one_once
      (e : Z) (mc : list Z) (n : nat) :
  length mc = 1 ->
  forall rl nu, length rl = n -> is_partition nu = true ->
    NoDup (fst (StandardTableaux_residue_shape_level_one
                  n (mkResidueSequence e mc rl) nu)).
Proof.
  intros Hmc. induction n as [|n IH]; intros rl nu Hlen Hnu.
  - cbn [StandardTableaux_residue_shape_level_one].
    destruct (negb _); cbn; repeat constructor. intros [].
  - cbn [StandardTableaux_residue_shape_level_one]. unfold rs_restrict.
    cbn [residues quantum_characteristic multicharge].
    destruct (negb _); [constructor|].
    apply (NoDup_gen_for (fun cell x => exists t, one_extends_from n cell t x)).
    + apply NoDup_Partition_removable_cells.
    + intros [r c] Hcell.
      destruct (right_residue_level_one (mkResidueSequence e mc rl) (S n) (r, c))
        as [[|]|err]; cbn [gen_lift]; try (split; constructor).
      destruct (Partition_remove_cell nu (r, c)) as [nu'|err] eqn:Hrem1;
        cbn [gen_lift]; [|split; constructor].
      assert (Hrem := Partition_remove_cell_spec nu nu' r c Hrem1).
      assert (Hmu : is_partition_tuple [nu] = true) by (cbn; now rewrite Hnu).
      destruct (remove_cell_spec [nu] [nu'] 0 r c Hmu Hrem) as (Hmu' & _ & _ & _).
      assert (Hnu' : is_partition nu' = true).
      { cbn in Hmu'. now rewrite andb_true_r in Hmu'. }
      assert (Hlen' : length (firstn n rl) = n) by (rewrite length_firstn; lia).
      destruct (NoDup_gen_bind (fun t x => one_extends_from n (r, c) t x)
                  (StandardTableaux_residue_shape_level_one
                     n (mkResidueSequence e mc (firstn n rl)) nu')
                  (fun t => gen_lift (Tableau_add_entry t (r, c) (PInt (Z.of_nat (S n))))
                                     gen_yield))
        as [H1 H2].
      * now apply IH.
      * intros t Ht.
        assert (Hgood := StandardTableaux_residue_shape_level_one_yields
                           e mc n Hmc (firstn n rl) nu' Hlen' Hnu').
        rewrite Forall_forall in Hgood.
        destruct (good_shaped_filled e mc rl n [nu'] [t] Hlen (Hgood t Ht))
          as (zs & Ht' & Hf & Hshape).
        destruct (lift_tuple_singleton t zs Ht') as (rows & -> & ->).
        destruct (with_entry_shape [rows] [nu] [nu'] 0 r c (Z.of_nat (S n))
                                   Hmu Hrem Hshape) as [Hadd _].
        apply Partition_addable_of_tuple in Hadd.
        exact (Tableau_add_entry_once n rows (r, c) (Ok true) Hf Hadd).
      * intros t1 t2 x Hx1 Hx2.
        now destruct (one_extends_from_injective n _ _ t1 t2 x Hx1 Hx2).
      * split; [exact H1|]. eapply Forall_impl; [|exact H2].
        intros x (t & _ & Hx). now exists t.
    + intros c1 c2 x (t1 & Hx1) (t2 & Hx2).
      now destruct (one_extends_from_injective n c1 c2 t1 t2 x Hx1 Hx2).
Qed.

Lemma NoDup_gen_map {A B : Type} (f : A -> B) (g : gen A) :
  (forall a a', f a = f a' -> a = a') -> NoDup (fst g) -> NoDup (fst (gen_map f g)).
Proof.
  intros Hinj Hg. unfold gen_map. cbn [fst].
  apply NoDup_map_NoDup_ForallPairs; [|assumption].
  intros a b _ _ E. now apply Hinj.
Qed.

(** Neither [StandardTableaux_residue.__iter__] nor, for a partition tuple
    with one component for every entry of the multicharge,
    [StandardTableaux_residue_shape.__iter__] yields a tableau twice. *)
Theorem residue_enumerators_yield_nothing_twice (e : Z) (mc rl : list Z) (mu : shape) :
  is_partition_tuple mu = true -> length mu = length mc ->
  NoDup (fst (StandardTableaux_residue_iter (ResidueSequence_new e mc rl))) /\
  NoDup (fst (standard_tableaux (ResidueSequence_new e mc rl) mu)).
Proof.
  intros Hmu Hlmu. unfold ResidueSequence_new. set (rl' := map (base_ring e) rl).
  unfold StandardTableaux_residue_iter, standard_tableaux, rs_level, rs_size.
  cbn [multicharge residues].
  destruct (Nat.eqb_spec (length mc) 1) as [Hmc|Hmc].
  - split.
    + apply NoDup_gen_map; [now intros a a' [= ->]|].
      now apply StandardTableaux_residue_level_one_once.
    + destruct mu as [|nu [|? ?]]; try (cbn in Hlmu; lia).
      apply NoDup_gen_map; [now intros a a' [= ->]|].
      apply StandardTableaux_residue_shape_level_one_once; [assumption|reflexivity|].
      cbn in Hmu. now rewrite andb_true_r in Hmu.
  - split.
    + apply NoDup_gen_map; [now intros a a' [= ->]|].
      now apply StandardTableaux_residue_higher_once.
    + destruct mu as [|nu [|nu' mu]].
      * apply NoDup_gen_map; [now intros a a' [= ->]|].
        now apply StandardTableaux_residue_shape_higher_once.
      * cbn in Hlmu. lia.
      * apply NoDup_gen_map; [now intros a a' [= ->]|].
        now apply StandardTableaux_residue_shape_higher_once.
Qed.

Lemma residue_enumerators_yield_nothing_twice_witness :
  is_partition_tuple [[2; 1]; [2]] = true /\
  length [[2; 1]; [2]] = length [0%Z; 1%Z] /\
  NoDup (fst (StandardTableaux_residue_iter
                (ResidueSequence_new 3 [0%Z; 1%Z] [0%Z; 1%Z; 2%Z; 1%Z; 2%Z]))) /\
  NoDup (fst (standard_tableaux
                (ResidueSequence_new 3 [0%Z; 1%Z] [0%Z; 1%Z; 2%Z; 1%Z; 2%Z])
                [[2; 1]; [2]])).
Proof.
  split; [reflexivity|]. split; [reflexivity|].
  apply (residue_enumerators_yield_nothing_twice
           3%Z [0%Z; 1%Z] [0%Z; 1%Z; 2%Z; 1%Z; 2%Z] [[2; 1]; [2]]); reflexivity.
Defined.
